(* ===== verification/_CoqProject ===== *)
-Q . S2P
Prelude.v
Binary.v
Proto.v
ProtoInv.v
ProtoCodec.v
KVProto.v
Sha256.v
Node.v
NodeInv.v
NodeIface.v
Iterator.v
Sort.v
Snapshot.v
SnapshotInv.v
LayoutNative.v
SnapshotWriter.v
Export.v
Import.v
Cache.v
Tree.v
Merkle.v
IavlStore.v
Heap.v
HeapInv.v
HeapOps.v
HeapTree.v
Wal.v
State.v
Handles.v
MultiTree.v
MultiTreeInv.v
MultiTreeSim.v
MultiTreeSnapshot.v
MultiTreeProps.v
SnapshotDir.v
SnapshotDirInv.v
DB.v
DBInv.v
AsyncCommit.v
DBRecovery.v
DBCrash.v
DBTarget.v
DBRun.v
DBProps.v
StateSync.v
StateSyncInv.v
QueryCache.v
QueryCacheInv.v
RootMulti.v
RootMultiInv.v
RootMultiRun.v
RootMultiProps.v
StateSyncProps.v
Codec.v
GoHeap.v
ExtSort.v
ExtSortInv.v
Rocks.v
VersionDB.v
VersionDBInv.v
VersionDBIter.v
VersionDBProps.v
FixDataInv.v
Restore.v
ChangeSetFile.v
ChangeSetFileInv.v
Convert.v
ConvertInv.v
ChangeSetDir.v
Dump.v
DumpInv.v
Verify.v
VerifyInv.v
RestoreAppDB.v
RestoreAppDBInv.v
Streaming.v
StreamingInv.v
StreamingProps.v
Bulk.v
BulkInv.v
