(* ===== verification/Prelude.v ===== *)
(** * Verification of the initia-labs/store repository

    ** The program

    The repository has two storage engines for applications of the cosmos-sdk and tools
    around them.  memiavl keeps the stores of an application as AVL trees in memory, with
    snapshots on the disk and a write-ahead log; memiavl/rootmulti puts the interface of a
    cosmos-sdk multistore on top of it, with queries of recent heights, Merkle proofs and
    state sync.  versiondb keeps the history of all versions in RocksDB with timestamps,
    and is fed by the commits of the multistore; client/changeset moves change sets between
    the two through files and an external sort, and rebuilds databases from snapshots.

    ** Files

    Generic.
    - Prelude: bytes, machine integers as [Z] with the wrap-arounds [u8] to [i64], the result
      type [res] (a value, an error or a panic), sorted association lists.
    - Binary, Sha256: encoding/binary, varints and SHA-256 of the Go standard library.
    - State: the state and error monad [SE], loops, sorting by a string key.
    - GoHeap, Sort: container/heap, sort.Slice and sort.Search.

    memiavl, trees (node.go, mem_node.go, iterator.go, tree.go, proof.go).
    - Node, NodeInv: in-memory nodes as a pure tree; [setRecursive], [removeRecursive] and the
      rotations; well-formedness (search order, balance, sizes, heights) and its preservation;
      the tree as a sorted list.
    - NodeIface: the interface of nodes as a class with laws; Iterator and Merkle are written
      against it, so that they hold for nodes in memory and for nodes in a snapshot.
    - Heap, HeapInv, HeapOps, HeapTree: the same nodes as cells of a heap with in-place
      mutation, copy on write and lazy hashes; they refine the pure tree, and copies of saved
      trees are isolated from later writes.
    - Cache, Tree: a tree with its version, its cache (a class with laws, an LRU instance) and
      the snapshot it was read from.
    - Merkle: existence and absence proofs; ics23 is a class with laws.

    memiavl, snapshots of trees (layout_little_endian.go, layout_native.go, persisted_node.go,
    snapshot.go, mmap.go, export.go, import.go).
    - Snapshot, SnapshotInv: record layouts, accessors and lookups on byte arrays, and what it
      means that they hold a tree.
    - LayoutNative: the records viewed as structs, which have the same fields.
    - Handles: the mapped files of snapshots as resources, the reference counts, and the trees
      and multi-trees that share a snapshot, in every interleaving.
    - SnapshotWriter: the writer; round trips with the readers.
    - Export, Import: the post-order stream of nodes, the goroutine and the channel that deliver
      it, and the importer that rebuilds a snapshot from it.

    memiavl, database (wal.go, multitree.go, db.go and the protobuf messages).
    - Proto, ProtoInv, ProtoCodec, KVProto: the generated marshalling code as combinators,
      with the round trips of all messages.
    - Wal: the log (tidwall/wal is a class with laws, an instance in memory) and the repair
      of a corrupted tail.
    - MultiTree, MultiTreeInv, MultiTreeSim, MultiTreeSnapshot, MultiTreeProps: named trees,
      upgrades, change sets, commits, replay of the log, snapshots of all stores.
    - SnapshotDir, SnapshotDirInv: the directory with its snapshots and the link to the
      current one; seeking and pruning.
    - DB: the database with its pending log entry, the queue of the log writer and the
      background rewrite of the snapshot as steps of their own.
    - AsyncCommit: the committer and the log writer with their channels, one channel operation
      at a time; they refine the steps of DB.
    - DBInv, DBRecovery, DBCrash, DBTarget, DBRun, DBProps: the invariant of a running database,
      the states a crash can leave, recovery, loading at a version and rolling back.

    memiavl, multistore (store.go, rootmulti).
    - IavlStore: the store of one tree with its pending change set and its queries.
    - StateSync, StateSyncInv: exporters and importers of a multi-tree.
    - QueryCache, QueryCacheInv: the cache of historical versions.
    - RootMulti, RootMultiInv, RootMultiRun, RootMultiProps: the multistore; its runs, and the
      application state they refine (a finite map of finite maps).
    - StateSyncProps: the state sync of one multistore to another.

    versiondb and client.
    - Codec, ExtSort, ExtSortInv: delta encoding, the heap merge, the sorter with its chunks
      and goroutines.
    - Rocks, VersionDB, VersionDBInv, VersionDBIter, VersionDBProps: the store over RocksDB (a
      class with laws, an instance in memory), its iterators, the streaming service.
    - FixDataInv: the repair of entries at wrong timestamps.
    - Streaming, StreamingInv, StreamingProps: the listeners of the root multistore, the
      multistore over the version database and their set-up, as one node.
    - ChangeSetFile, ChangeSetFileInv, ChangeSetDir: the format of change set files and the
      directories they are in.
    - Convert, ConvertInv: change set files to SST files.
    - Dump, DumpInv, Verify, VerifyInv: change sets of an IAVL database to files, and their
      replay on trees of memiavl.
    - Restore, RestoreAppDB, RestoreAppDBInv: a version database from a state-sync snapshot,
      and an application database from memiavl snapshots.
    - Bulk, BulkInv: SST files of all stores, their ingestion, feeding, printing; the way from
      a dump to a version database.

    ** Conventions

    Pure functions are Rocq functions; methods that change a receiver return the new one or
    are in the monad [SE].  Errors and panics are the values [Err] and [Panic] of [res].  Maps
    that Go iterates in a random order take the order as an argument.  A goroutine is a step
    of its own that may run at any time; a method that takes a mutex is one step.  Where the
    interleaving of single operations matters (the channels of the log writer and of exporters,
    the reference counts), they are steps.  Code of other modules (the log, the cache, RocksDB,
    ics23, snappy, the message streams, the trees of cosmos/iavl) is a class of operations
    with the laws its documentation gives; the properties proved over such a class come with
    witnesses at an instance of it.

    ** Fuel

    Recursion on trees is structural.  Recursion on persisted nodes takes [max_depth], the
    256 levels that an 8-bit height allows.  Loops of iterators and scans take fuel, and the
    theorems state a bound in the number of nodes with which they end; proofs take 90 levels,
    which [Height_bounded] shows to be enough for 2^62 leaves.

    ** What the theorems show

    - Trees: every update of the trees is the update of a sorted list or a finite map, the
      AVL invariant is kept, the height fits its field, lookups by key and rank are right.
    - Memory: the in-place code on the heap refines the pure code; saved copies do not change.
    - Files: what is written reads back, byte for byte where that matters; truncated and
      malformed files are errors and not panics where the code means it.
    - Recovery: after a crash at any point the database loads the state of a committed
      version, with nothing that was synchronously logged lost; it loads at and rolls back to
      older versions.
    - Goroutines: asynchronous commits come to an end, and when the log works all entries are
      written in order; exporters deliver all nodes and end when they are closed; a tree never
      reads from a file that another holder has unmapped.
    - Queries: what a query returns at a committed height is what the application had
      written at that commit, with a proof under the committed hash.
    - State sync: a restored node has the application and the hashes of the exporting one.
    - Versions: reads and iterators of the version database at a version are those of the
      state after the blocks up to it, as memiavl committed it; bulk loading through sorted
      files gives the same; dumps, replays, restores and repairs keep the states.

    ** Not modelled

    Logging, metrics and command-line parsing; file locks; RocksDB options and the wiring of an
    application (setup_memiavl.go, config, opendb), which set fields of other modules and
    compute nothing; the wrapping of stores in caches and traces, which are cosmos-sdk types,
    and with it memiavl/cachemulti; the JSON text that print writes.  The worker pools are
    sequences of steps in an arbitrary order. *)

From Stdlib Require Import Strings.Byte Orders OrdersTac.
From stdpp Require Import base gmap list numbers strings sorting.
From Stdlib Require Import ZArith Lia.

Declare Scope store_scope.
Delimit Scope store_scope with store.
#[global] Open Scope store_scope.
Local Open Scope Z_scope.

(** ** Bytes and Go strings *)

Abbreviation bytes := (list Byte.byte).

(** A Go string literal as the bytes of its UTF-8 text. *)
Definition str (s : string) : bytes := String.list_byte_of_string s.

Definition byte_to_Z (b : Byte.byte) : Z := Z.of_N (Byte.to_N b).
Definition byte_of_Z (z : Z) : Byte.byte :=
  default x00 (Byte.of_N (Z.to_N (z mod 256))).

(** [len(bz)] *)
Definition zlen {A} (l : list A) : Z := Z.of_nat (length l).

#[export] Instance byte_eq_dec : EqDecision Byte.byte := Byte.byte_eq_dec.

#[export] Instance byte_countable : Countable Byte.byte.
Proof.
  refine (inj_countable Byte.to_N Byte.of_N _).
  intros b. apply Byte.of_to_N.
Defined.

Lemma byte_to_Z_range b : 0 <= byte_to_Z b < 256.
Proof. unfold byte_to_Z. pose proof (Byte.to_N_bounded b). lia. Qed.

Lemma byte_to_of_Z z : byte_to_Z (byte_of_Z z) = z mod 256.
Proof.
  unfold byte_to_Z, byte_of_Z.
  pose proof (Z.mod_pos_bound z 256 ltac:(lia)) as Hb.
  destruct (Byte.of_N (Z.to_N (z mod 256))) as [b|] eqn:E; simpl.
  - apply Byte.to_of_N in E. rewrite E. lia.
  - apply Byte.of_N_None_iff in E. lia.
Qed.

Lemma byte_of_to_Z b : byte_of_Z (byte_to_Z b) = b.
Proof.
  unfold byte_of_Z. rewrite Z.mod_small by apply byte_to_Z_range.
  unfold byte_to_Z. rewrite N2Z.id, Byte.of_to_N. reflexivity.
Qed.

Lemma byte_to_Z_inj a b : byte_to_Z a = byte_to_Z b -> a = b.
Proof. intros H. rewrite <- (byte_of_to_Z a), <- (byte_of_to_Z b). congruence. Qed.

Lemma byte_of_Z_mod z : byte_of_Z (z mod 256) = byte_of_Z z.
Proof. unfold byte_of_Z. rewrite Z.mod_mod by lia. reflexivity. Qed.

(** ** Machine integers

    Values of Go's fixed-width types are kept as [Z]; every conversion or
    operation that can leave the range is wrapped explicitly. *)

Definition u8 (z : Z) : Z := z mod 2 ^ 8.
Definition u32 (z : Z) : Z := z mod 2 ^ 32.
Definition u64 (z : Z) : Z := z mod 2 ^ 64.
Definition i8 (z : Z) : Z := (z + 2 ^ 7) mod 2 ^ 8 - 2 ^ 7.
Definition i32 (z : Z) : Z := (z + 2 ^ 31) mod 2 ^ 32 - 2 ^ 31.
Definition i64 (z : Z) : Z := (z + 2 ^ 63) mod 2 ^ 64 - 2 ^ 63.

Definition MaxInt64 : Z := 2 ^ 63 - 1.
Definition MaxUint32 : Z := 2 ^ 32 - 1.
Definition MaxUint64 : Z := 2 ^ 64 - 1.

Lemma u8_small z : 0 <= z < 2 ^ 8 -> u8 z = z.
Proof. apply Z.mod_small. Qed.
Lemma u32_small z : 0 <= z < 2 ^ 32 -> u32 z = z.
Proof. apply Z.mod_small. Qed.
Lemma u64_small z : 0 <= z < 2 ^ 64 -> u64 z = z.
Proof. apply Z.mod_small. Qed.
Lemma i8_small z : - 2 ^ 7 <= z < 2 ^ 7 -> i8 z = z.
Proof. intros. unfold i8. rewrite Z.mod_small; lia. Qed.
Lemma i32_small z : - 2 ^ 31 <= z < 2 ^ 31 -> i32 z = z.
Proof. intros. unfold i32. rewrite Z.mod_small; lia. Qed.
Lemma i64_small z : - 2 ^ 63 <= z < 2 ^ 63 -> i64 z = z.
Proof. intros. unfold i64. rewrite Z.mod_small; lia. Qed.
Lemma u8_range z : 0 <= u8 z < 2 ^ 8.
Proof. apply Z.mod_pos_bound. lia. Qed.
Lemma u32_range z : 0 <= u32 z < 2 ^ 32.
Proof. apply Z.mod_pos_bound. lia. Qed.
Lemma u64_range z : 0 <= u64 z < 2 ^ 64.
Proof. apply Z.mod_pos_bound. lia. Qed.

(** ** Lengths and automation *)

Lemma zlen_app {A} (a b : list A) : zlen (a ++ b) = zlen a + zlen b.
Proof. unfold zlen. rewrite length_app. lia. Qed.
Lemma zlen_cons {A} (a : A) b : zlen (a :: b) = 1 + zlen b.
Proof. unfold zlen. simpl. lia. Qed.
Lemma zlen_map {A B} (f : A -> B) (l : list A) : zlen (map f l) = zlen l.
Proof. unfold zlen. by rewrite length_map. Qed.
Lemma zlen_nonneg {A} (a : list A) : 0 <= zlen a.
Proof. unfold zlen. lia. Qed.

(** The database [store] has the ranges of the machine integers and the rewriting of lengths;
    [lens] is [lia] with the lengths of slices known to be non-negative. *)
Create HintDb store.
#[export] Hint Resolve byte_to_Z_range u8_range u32_range u64_range zlen_nonneg : store.
#[export] Hint Rewrite @zlen_app @zlen_cons @zlen_map : store.

Ltac lens :=
  autorewrite with store in *;
  repeat match goal with
  | |- context [zlen ?l] => lazymatch goal with _ : 0 <= zlen l |- _ => fail | _ => pose proof (zlen_nonneg l) end
  | _ : context [zlen ?l] |- _ => lazymatch goal with _ : 0 <= zlen l |- _ => fail | _ => pose proof (zlen_nonneg l) end
  end;
  lia.

(** ** Results of fallible Go code

    [Ok] is a normal return, [Err] a non-nil [error], [Panic] a run-time panic
    (index out of range, nil dereference or an explicit [panic]). *)

Abbreviation error := string.

Inductive res (A : Type) : Type :=
| Ok (a : A)
| Err (e : error)
| Panic.
Arguments Ok {_} _.
Arguments Err {_} _.
Arguments Panic {_}.

#[export] Instance res_ret : MRet res := @Ok.
#[export] Instance res_bind : MBind res := fun A B f m =>
  match m with Ok a => f a | Err e => Err e | Panic => Panic end.
#[export] Instance res_fmap : FMap res := fun A B f m =>
  match m with Ok a => Ok (f a) | Err e => Err e | Panic => Panic end.

(** A bounded loop of the model ran out of fuel; every loop comes with a theorem
    that gives the fuel it needs. *)
Definition out_of_fuel {A} : res A := Err "out of fuel".

Lemma res_bind_ok {A B} (m : res A) (f : A -> res B) b :
  m ≫= f = Ok b -> exists a, m = Ok a /\ f a = Ok b.
Proof. destruct m; simpl; try discriminate. eauto. Qed.

(** [if err != nil { panic(err) }] *)
Definition must {A} (r : res A) : res A := match r with Ok a => Ok a | _ => Panic end.

(** An out-of-range access panics. *)
Definition of_option {A} (o : option A) : res A :=
  match o with Some a => Ok a | None => Panic end.

(** Go's slice expression [s[lo:hi]] on a slice whose capacity is its length. *)
Definition slice {A} (s : list A) (lo hi : Z) : option (list A) :=
  if (0 <=? lo) && (lo <=? hi) && (hi <=? zlen s)
  then Some (take (Z.to_nat (hi - lo)) (drop (Z.to_nat lo) s))
  else None.

Lemma slice_app {A} (pre mid post : list A) lo hi :
  lo = zlen pre -> hi = lo + zlen mid ->
  slice (pre ++ mid ++ post) lo hi = Some mid.
Proof.
  unfold slice, zlen. intros -> ->. rewrite !length_app.
  rewrite (proj2 (Z.leb_le _ _)) by lia.
  rewrite (proj2 (Z.leb_le _ _)) by lia.
  rewrite (proj2 (Z.leb_le _ _)) by lia. simpl.
  rewrite Nat2Z.id. rewrite drop_app_length.
  replace (Z.to_nat _) with (length mid) by lia.
  by rewrite take_app_length.
Qed.

Lemma slice_end {A} (pre mid : list A) lo hi :
  lo = zlen pre -> hi = lo + zlen mid -> slice (pre ++ mid) lo hi = Some mid.
Proof. intros. rewrite <- (app_nil_r mid) at 1. by apply slice_app. Qed.

(** ** Sorted lists *)

Lemma StronglySorted_lookup {A} (R : A -> A -> Prop) l i j x y :
  StronglySorted R l -> l !! i = Some x -> l !! j = Some y -> (i < j)%nat -> R x y.
Proof.
  intros Hs. revert i j. induction Hs as [|a l Hl IH Ha]; intros i j Hi Hj Hij; [done|].
  destruct j as [|j]; [lia|]. destruct i as [|i].
  - injection Hi as <-. apply (proj1 (Forall_forall _ _) Ha). by eapply list_elem_of_lookup_2.
  - apply (IH i j); [done|done|lia].
Qed.

(** ** Lexicographic comparison of byte slices ([bytes.Compare]) *)

Fixpoint Compare (a b : bytes) : comparison :=
  match a, b with
  | [], [] => Eq
  | [], _ :: _ => Lt
  | _ :: _, [] => Gt
  | x :: a', y :: b' =>
      match N.compare (Byte.to_N x) (Byte.to_N y) with
      | Eq => Compare a' b'
      | c => c
      end
  end.

Definition bytes_lt (a b : bytes) : Prop := Compare a b = Lt.
Definition bytes_le (a b : bytes) : Prop := bytes_lt a b \/ a = b.
Definition ltb (a b : bytes) : bool :=
  match Compare a b with Lt => true | _ => false end.

Lemma Compare_refl a : Compare a a = Eq.
Proof. induction a as [|x a IH]; simpl; [done|]. by rewrite N.compare_refl. Qed.

Lemma to_N_inj x y : Byte.to_N x = Byte.to_N y -> x = y.
Proof. intros H. apply byte_to_Z_inj. unfold byte_to_Z. congruence. Qed.

Lemma Compare_eq a b : Compare a b = Eq <-> a = b.
Proof.
  split; [|intros ->; apply Compare_refl].
  revert b; induction a as [|x a IH]; intros [|y b]; simpl; try done.
  destruct (N.compare_spec (Byte.to_N x) (Byte.to_N y)) as [E| |]; try done.
  intros H. apply to_N_inj in E as ->. by rewrite (IH b).
Qed.

Lemma Compare_opp a b : Compare b a = CompOpp (Compare a b).
Proof.
  revert b; induction a as [|x a IH]; intros [|y b]; simpl; try done.
  rewrite (N.compare_antisym (Byte.to_N x) (Byte.to_N y)).
  destruct (N.compare (Byte.to_N x) (Byte.to_N y)); simpl; auto.
Qed.

Lemma bytes_lt_trans a b c : bytes_lt a b -> bytes_lt b c -> bytes_lt a c.
Proof.
  unfold bytes_lt. revert b c; induction a as [|x a IH]; intros [|y b] [|z c]; simpl; try done.
  destruct (N.compare_spec (Byte.to_N x) (Byte.to_N y)) as [E|E|E]; try done.
  - rewrite E. destruct (N.compare (Byte.to_N y) (Byte.to_N z)); eauto.
  - intros _. destruct (N.compare_spec (Byte.to_N y) (Byte.to_N z)) as [E'|E'|E']; try done;
      intros _; rewrite (proj2 (N.compare_lt_iff _ _)) by lia; done.
Qed.

Lemma Compare_spec a b : CompareSpec (a = b) (bytes_lt a b) (bytes_lt b a) (Compare a b).
Proof.
  destruct (Compare a b) eqn:E; constructor; unfold bytes_lt; auto.
  - by apply Compare_eq.
  - rewrite Compare_opp, E. done.
Qed.

Lemma ltb_spec a b : reflect (bytes_lt a b) (ltb a b).
Proof. unfold ltb, bytes_lt. destruct (Compare a b); constructor; congruence. Qed.

#[export] Instance bytes_lt_strorder : StrictOrder bytes_lt.
Proof.
  split; [intros a H|exact bytes_lt_trans].
  unfold bytes_lt in H. rewrite Compare_refl in H. done.
Qed.
#[export] Instance bytes_lt_dec : RelDecision bytes_lt.
Proof. intros a b. unfold bytes_lt, Decision. decide equality. Defined.

Lemma bytes_lt_irrefl a : ~ bytes_lt a a.
Proof. apply (StrictOrder_Irreflexive a). Qed.

Lemma Compare_gt a b : Compare a b = Gt <-> bytes_lt b a.
Proof. unfold bytes_lt. rewrite (Compare_opp a b). destruct (Compare a b); naive_solver. Qed.

(** The order tactic for byte slices: decides goals over [=], [bytes_lt] and [bytes_le]. *)
Module BytesTotal <: TotalOrder.
Definition t : Type := bytes.
Definition eq : t -> t -> Prop := Logic.eq.
Definition lt : t -> t -> Prop := bytes_lt.
Definition le : t -> t -> Prop := bytes_le.
Definition eq_equiv : Equivalence eq := eq_equivalence.
Definition lt_strorder : StrictOrder lt := bytes_lt_strorder.
Lemma lt_compat : Proper (eq ==> eq ==> iff) lt.
Proof. unfold eq. intros ? ? -> ? ? ->. done. Qed.
Lemma le_lteq x y : le x y <-> lt x y \/ eq x y.
Proof. done. Qed.
Lemma lt_total x y : lt x y \/ eq x y \/ lt y x.
Proof. unfold lt, eq. destruct (Compare_spec x y); auto. Qed.
End BytesTotal.
Module BytesOrder := MakeOrderTac BytesTotal BytesTotal.

Ltac bytes_order :=
  repeat match goal with
  | H : Compare _ _ = Lt |- _ => change (BytesTotal.lt _ _) in H
  | H : Compare _ _ = Gt |- _ => apply Compare_gt in H
  | H : Compare _ _ = Eq |- _ => apply Compare_eq in H
  | H : context [bytes_lt] |- _ => progress change bytes_lt with BytesTotal.lt in H
  | H : context [bytes_le] |- _ => progress change bytes_le with BytesTotal.le in H
  end;
  change bytes_lt with BytesTotal.lt; change bytes_le with BytesTotal.le;
  change (@eq bytes) with BytesTotal.eq in *;
  BytesOrder.order.

(** ** Ordered association lists: the reference map of every ordered store *)

Section kv.
Context {V : Type}.
Implicit Types (l : list (bytes * V)) (k : bytes) (v : V).

Fixpoint kv_insert k v l : list (bytes * V) :=
  match l with
  | [] => [(k, v)]
  | (k', v') :: l' =>
      match Compare k k' with
      | Lt => (k, v) :: l
      | Eq => (k, v) :: l'
      | Gt => (k', v') :: kv_insert k v l'
      end
  end.

Fixpoint kv_delete k l : list (bytes * V) :=
  match l with
  | [] => []
  | (k', v') :: l' => if decide (k = k') then l' else (k', v') :: kv_delete k l'
  end.

Fixpoint kv_lookup k l : option V :=
  match l with
  | [] => None
  | (k', v') :: l' => if decide (k = k') then Some v' else kv_lookup k l'
  end.

(** The number of keys smaller than [k]: the index of [k] in a sorted list. *)
Fixpoint kv_rank k l : Z :=
  match l with
  | [] => 0
  | (k', _) :: l' => if ltb k' k then 1 + kv_rank k l' else 0
  end.

Definition kv_sorted l : Prop := StronglySorted bytes_lt l.*1.

(** The finite map an association list stands for. *)
Definition kv_map l : gmap bytes V := list_to_map l.
End kv.

Section kv_lemmas.
Context {V : Type}.
Implicit Types (l : list (bytes * V)) (k : bytes) (v : V).

Lemma kv_sorted_app l1 l2 :
  kv_sorted (l1 ++ l2) <->
  kv_sorted l1 /\ kv_sorted l2 /\ (forall x y, x ∈ l1.*1 -> y ∈ l2.*1 -> bytes_lt x y).
Proof.
  unfold kv_sorted. rewrite fmap_app.
  generalize (l1.*1), (l2.*1). clear l1 l2. intros l1 l2.
  induction l1 as [|a l1 IH]; simpl.
  - split; [|naive_solver]. intros H. split; [constructor|]. split; [done|].
    intros x y Hx. by apply elem_of_nil in Hx.
  - split.
    + intros [Hs Hf]%StronglySorted_inv. apply IH in Hs as (H1 & H2 & H3).
      apply Forall_app in Hf as [Hf1 Hf2]. split; [by constructor|]. split; [done|].
      intros x y [->|Hx]%elem_of_cons Hy; [|by apply H3].
      rewrite Forall_forall in Hf2. auto.
    + intros ([Hs Hf]%StronglySorted_inv & H2 & H3). constructor.
      * apply IH. split; [done|]. split; [done|]. intros; apply H3; [by right|done].
      * apply Forall_app. split; [done|]. apply Forall_forall. intros y Hy. apply H3; [by left|done].
Qed.

Lemma kv_sorted_cons k v l :
  kv_sorted ((k, v) :: l) <-> kv_sorted l /\ (forall y, y ∈ l.*1 -> bytes_lt k y).
Proof.
  rewrite (kv_sorted_app [(k, v)] l). split.
  - intros (_ & H & H'). split; [done|]. intros y Hy. apply H'; [|done]. by left.
  - intros [H H']. split; [repeat constructor|]. split; [done|].
    intros x y Hx Hy. apply list_elem_of_singleton in Hx as ->. auto.
Qed.

Lemma kv_sorted_NoDup l : kv_sorted l -> NoDup l.*1.
Proof.
  induction l as [|[k v] l IH]; [constructor|]. rewrite kv_sorted_cons.
  intros [Hs Hk]. constructor; [|auto]. intros Hin. apply Hk in Hin.
  by apply bytes_lt_irrefl in Hin.
Qed.

Lemma kv_insert_keys k v l y : y ∈ (kv_insert k v l).*1 <-> y = k \/ y ∈ l.*1.
Proof.
  induction l as [|[k' v'] l IH]; simpl; [set_solver|].
  destruct (Compare_spec k k'); simpl; subst; set_solver.
Qed.

Lemma kv_insert_sorted k v l : kv_sorted l -> kv_sorted (kv_insert k v l).
Proof.
  induction l as [|[k' v'] l IH]; simpl; [intros _; repeat constructor|].
  intros Hs. assert (Hs' := Hs). apply kv_sorted_cons in Hs as [Hs Hk].
  destruct (Compare_spec k k') as [->|Hlt|Hlt].
  - by apply kv_sorted_cons.
  - apply kv_sorted_cons. split; [done|]. simpl. intros y [->|Hy]%elem_of_cons; [done|].
    apply Hk in Hy. bytes_order.
  - apply kv_sorted_cons. split; [auto|]. intros y [->|Hy]%kv_insert_keys; auto.
Qed.

Lemma kv_delete_keys k l y : y ∈ (kv_delete k l).*1 -> y ∈ l.*1.
Proof. induction l as [|[k' v'] l IH]; simpl; [done|]. case_decide; set_solver. Qed.

Lemma kv_delete_sorted k l : kv_sorted l -> kv_sorted (kv_delete k l).
Proof.
  induction l as [|[k' v'] l IH]; simpl; [done|]. intros [Hs Hk]%kv_sorted_cons.
  case_decide; [done|]. apply kv_sorted_cons. split; [auto|].
  intros y Hy%kv_delete_keys. auto.
Qed.

Lemma kv_insert_app_l k v l1 l2 :
  (forall y, y ∈ l2.*1 -> bytes_lt k y) -> kv_insert k v (l1 ++ l2) = kv_insert k v l1 ++ l2.
Proof.
  intros H. induction l1 as [|[k' v'] l1 IH]; simpl.
  - destruct l2 as [|[k' v'] l2]; [done|]. simpl.
    rewrite (H k') by (left; done). done.
  - destruct (Compare k k'); simpl; congruence.
Qed.

Lemma kv_insert_app_r k v l1 l2 :
  (forall x, x ∈ l1.*1 -> bytes_lt x k) -> kv_insert k v (l1 ++ l2) = l1 ++ kv_insert k v l2.
Proof.
  intros H. induction l1 as [|[k' v'] l1 IH]; simpl; [done|].
  rewrite (proj2 (Compare_gt k k')) by (apply H; left; done).
  rewrite IH; [done|]. intros x Hx. apply H. by right.
Qed.

Lemma kv_delete_notin k l : k ∉ l.*1 -> kv_delete k l = l.
Proof.
  induction l as [|[k' v'] l IH]; simpl; [done|]. intros H. apply not_elem_of_cons in H as [H1 H2].
  rewrite decide_False by done. rewrite IH; done.
Qed.

Lemma kv_delete_app_l k l1 l2 : k ∉ l2.*1 -> kv_delete k (l1 ++ l2) = kv_delete k l1 ++ l2.
Proof.
  intros H. induction l1 as [|[k' v'] l1 IH]; simpl; [by apply kv_delete_notin|].
  case_decide; simpl; congruence.
Qed.

Lemma kv_delete_app_r k l1 l2 : k ∉ l1.*1 -> kv_delete k (l1 ++ l2) = l1 ++ kv_delete k l2.
Proof.
  intros H. induction l1 as [|[k' v'] l1 IH]; simpl; [done|].
  apply not_elem_of_cons in H as [H1 H2]. rewrite decide_False by done. by rewrite IH.
Qed.

Lemma kv_lookup_app k l1 l2 :
  kv_lookup k (l1 ++ l2) = match kv_lookup k l1 with Some v => Some v | None => kv_lookup k l2 end.
Proof. induction l1 as [|[k' v'] l1 IH]; simpl; [done|]. by case_decide. Qed.

Lemma kv_lookup_None k l : kv_lookup k l = None <-> k ∉ l.*1.
Proof.
  induction l as [|[k' v'] l IH]; simpl; [set_solver|]. case_decide; set_solver.
Qed.

Lemma kv_lookup_elem k v l : kv_lookup k l = Some v -> k ∈ l.*1.
Proof.
  intros H. destruct (decide (k ∈ l.*1)) as [|Hn]; [done|].
  apply kv_lookup_None in Hn. congruence.
Qed.

Lemma kv_rank_app_l k l1 l2 :
  (forall y, y ∈ l2.*1 -> ~ bytes_lt y k) -> kv_rank k (l1 ++ l2) = kv_rank k l1.
Proof.
  intros H. induction l1 as [|[k' v'] l1 IH]; simpl.
  - destruct l2 as [|[k' v'] l2]; [done|]. simpl.
    destruct (ltb_spec k' k) as [Hlt|]; [|done]. exfalso. apply (H k'); [by left|done].
  - destruct (ltb k' k); [by rewrite IH|done].
Qed.

Lemma kv_rank_app_r k l1 l2 :
  (forall x, x ∈ l1.*1 -> bytes_lt x k) -> kv_rank k (l1 ++ l2) = zlen l1 + kv_rank k l2.
Proof.
  intros H. unfold zlen. induction l1 as [|[k' v'] l1 IH]; simpl length; [simpl; lia|].
  simpl. destruct (ltb_spec k' k) as [Hlt|Hn]; [|exfalso; apply Hn, H; by left].
  rewrite IH by (intros x Hx; apply H; by right). lia.
Qed.

Lemma kv_map_lookup k l : kv_map l !! k = kv_lookup k l.
Proof.
  unfold kv_map. induction l as [|[k' v'] l IH]; simpl; [apply lookup_empty|].
  rewrite lookup_insert. case_decide; case_decide; congruence.
Qed.

Lemma kv_lookup_insert k k' v l :
  kv_lookup k' (kv_insert k v l) = if decide (k' = k) then Some v else kv_lookup k' l.
Proof.
  induction l as [|[k0 v0] l IH]; simpl; [by case_decide|].
  destruct (Compare_spec k k0) as [->|Hlt|Hlt]; simpl.
  - by case_decide.
  - by case_decide.
  - rewrite IH. case_decide as E1; [|done]. subst. rewrite decide_False; [done|].
    intros ->. by apply bytes_lt_irrefl in Hlt.
Qed.

Lemma kv_lookup_delete k k' l :
  NoDup l.*1 -> kv_lookup k' (kv_delete k l) = if decide (k' = k) then None else kv_lookup k' l.
Proof.
  induction l as [|[k0 v0] l IH]; simpl; [by case_decide|].
  intros [Hn Hd]%NoDup_cons. destruct (decide (k = k0)) as [->|]; simpl.
  - destruct (decide (k' = k0)) as [->|]; [by apply kv_lookup_None|done].
  - rewrite IH by done. repeat case_decide; congruence.
Qed.

Lemma kv_elem_lookup l k v : kv_sorted l -> (k, v) ∈ l <-> kv_lookup k l = Some v.
Proof.
  intros Hs. rewrite <- kv_map_lookup. unfold kv_map. rewrite elem_of_list_to_map by (by apply kv_sorted_NoDup). done.
Qed.

Lemma kv_map_insert k v l : kv_map (kv_insert k v l) = <[k:=v]> (kv_map l).
Proof.
  apply map_eq. intros i. rewrite lookup_insert, !kv_map_lookup, kv_lookup_insert.
  repeat case_decide; congruence.
Qed.

Lemma kv_map_delete k l : NoDup l.*1 -> kv_map (kv_delete k l) = delete k (kv_map l).
Proof.
  intros H. apply map_eq. intros i. rewrite lookup_delete, !kv_map_lookup, kv_lookup_delete by done.
  repeat case_decide; congruence.
Qed.

Lemma kv_insert_length k v l :
  kv_sorted l ->
  zlen (kv_insert k v l) = zlen l + match kv_lookup k l with Some _ => 0 | None => 1 end.
Proof.
  unfold zlen. induction l as [|[k0 v0] l IH]; simpl; [done|].
  intros [Hs Hk]%kv_sorted_cons. destruct (Compare_spec k k0) as [->|Hlt|Hlt]; simpl.
  - rewrite decide_True by done. lia.
  - rewrite decide_False by (intros ->; by apply bytes_lt_irrefl in Hlt).
    assert (kv_lookup k l = None) as ->; [|lia].
    apply kv_lookup_None. intros Hin. apply Hk in Hin. bytes_order.
  - rewrite decide_False by (intros ->; by apply bytes_lt_irrefl in Hlt).
    specialize (IH Hs). lia.
Qed.

Lemma kv_delete_length k l :
  zlen (kv_delete k l) = zlen l - match kv_lookup k l with Some _ => 1 | None => 0 end.
Proof.
  unfold zlen. induction l as [|[k0 v0] l IH]; simpl; [done|].
  case_decide; simpl; [lia|]. lia.
Qed.

Lemma kv_rank_range k l : 0 <= kv_rank k l <= zlen l.
Proof.
  unfold zlen. induction l as [|[k' v'] l IH]; simpl; [lia|]. destruct (ltb k' k); lia.
Qed.

(** The keys before the rank of [k] are smaller than [k], those from it on are not. *)
Lemma kv_rank_split k l j k' v' :
  kv_sorted l -> l !! j = Some (k', v') -> ltb k' k = (Z.of_nat j <? kv_rank k l).
Proof.
  revert j. induction l as [|[k0 v0] l IH]; intros j; [done|].
  intros [Hs Hk]%kv_sorted_cons. destruct j as [|j]; simpl.
  - intros [= <- <-]. pose proof (kv_rank_range k l).
    destruct (ltb k0 k); symmetry; [apply Z.ltb_lt|apply Z.ltb_ge]; lia.
  - intros Hj. destruct (ltb_spec k0 k) as [Hlt|Hge].
    + rewrite (IH j Hs Hj). destruct (Z.ltb_spec (Z.of_nat j) (kv_rank k l)); symmetry;
        [apply Z.ltb_lt|apply Z.ltb_ge]; lia.
    + assert (bytes_lt k0 k').
      { apply Hk. apply (list_elem_of_fmap_2 fst _ (k', v')).
        by apply (list_elem_of_lookup_2 _ j). }
      destruct (ltb_spec k' k) as [Hlt|_]; [exfalso; apply Hge; bytes_order|].
      symmetry. apply Z.ltb_ge. lia.
Qed.

(** The pair of [k], if there is one, is at its rank. *)
Lemma kv_rank_lookup k l :
  kv_sorted l ->
  kv_lookup k l =
  match l !! Z.to_nat (kv_rank k l) with
  | Some (k', v') => if decide (k' = k) then Some v' else None
  | None => None
  end.
Proof.
  induction l as [|[k0 v0] l IH]; [done|]. intros [Hs Hk]%kv_sorted_cons. simpl.
  destruct (ltb_spec k0 k) as [Hlt|Hge].
  - rewrite decide_False by (intros ->; by apply bytes_lt_irrefl in Hlt).
    pose proof (kv_rank_range k l).
    replace (Z.to_nat (1 + kv_rank k l)) with (S (Z.to_nat (kv_rank k l))) by lia. auto.
  - simpl. destruct (decide (k = k0)) as [->|Hne]; [by rewrite decide_True|].
    rewrite decide_False by done. apply kv_lookup_None. intros Hin%Hk.
    apply Hge. bytes_order.
Qed.
End kv_lemmas.
