(* ===== verification/Binary.v ===== *)
(** * The encodings of the Go standard library the stores use

    [encoding/binary]: little-endian integers, unsigned and zig-zag varints;
    [io.ReadFull] and [io.ByteReader.ReadByte] on an in-memory reader, which is
    the list of bytes that remain to be read.  Every codec comes with its
    round trip. *)

From Stdlib Require Import Strings.Byte ZArith Lia.
From stdpp Require Import base list numbers strings.
From S2P Require Import Prelude.
Local Open Scope Z_scope.

(** ** Fixed-width little-endian integers *)

(** [binary.LittleEndian.PutUint32/PutUint64]: the [n] low bytes of [z]. *)
Fixpoint le_put (n : nat) (z : Z) : bytes :=
  match n with
  | O => []
  | S n' => byte_of_Z z :: le_put n' (z / 256)
  end.

(** [binary.LittleEndian.Uint32/Uint64] on a slice of the exact width. *)
Fixpoint le_get (bs : bytes) : Z :=
  match bs with
  | [] => 0
  | b :: bs' => byte_to_Z b + 256 * le_get bs'
  end.

Definition le_u32 (z : Z) : bytes := le_put 4 z.
Definition le_u64 (z : Z) : bytes := le_put 8 z.

#[global] Arguments le_u32 _ : simpl never.
#[global] Arguments le_u64 _ : simpl never.

(** [binary.LittleEndian.Uint32(bz[off:])]; panics when fewer than four bytes are left. *)
Definition Uint32_at (bz : bytes) (off : Z) : option Z := le_get <$> slice bz off (off + 4).
Definition Uint64_at (bz : bytes) (off : Z) : option Z := le_get <$> slice bz off (off + 8).

Lemma length_le_put n z : length (le_put n z) = n.
Proof. revert z; induction n; intros; simpl; auto. Qed.

Lemma zlen_le_u32 z : zlen (le_u32 z) = 4.
Proof. unfold zlen, le_u32. by rewrite length_le_put. Qed.
Lemma zlen_le_u64 z : zlen (le_u64 z) = 8.
Proof. unfold zlen, le_u64. by rewrite length_le_put. Qed.

Lemma le_get_put n z : le_get (le_put n z) = z mod 2 ^ (8 * Z.of_nat n).
Proof.
  revert z; induction n as [|n IH]; intros z; simpl.
  - change (2 ^ _) with 1. by rewrite Z.mod_1_r.
  - rewrite IH, byte_to_of_Z.
    replace (8 * Z.of_nat (S n)) with (8 + 8 * Z.of_nat n) by lia.
    rewrite Z.pow_add_r by lia. change (2 ^ 8) with 256.
    rewrite (Z.rem_mul_r z 256) by lia. lia.
Qed.

Lemma le_get_u32 z : 0 <= z < 2 ^ 32 -> le_get (le_u32 z) = z.
Proof. intros. unfold le_u32. rewrite le_get_put. apply Z.mod_small. done. Qed.
Lemma le_get_u64 z : 0 <= z < 2 ^ 64 -> le_get (le_u64 z) = z.
Proof. intros. unfold le_u64. rewrite le_get_put. apply Z.mod_small. done. Qed.

Lemma le_get_range bs : 0 <= le_get bs < 2 ^ (8 * zlen bs).
Proof.
  unfold zlen. induction bs as [|b bs IH]; simpl; [lia|].
  replace (8 * Z.of_nat (S (length bs))) with (8 + 8 * Z.of_nat (length bs)) by lia.
  rewrite Z.pow_add_r by lia. pose proof (byte_to_Z_range b). nia.
Qed.

Lemma le_put_get bs : le_put (length bs) (le_get bs) = bs.
Proof.
  induction bs as [|b bs IH]; simpl; [done|].
  pose proof (byte_to_Z_range b).
  rewrite (Z.add_comm (byte_to_Z b)), Z.mul_comm.
  rewrite Z.div_add_l by lia. rewrite (Z.div_small (byte_to_Z b)) by lia. rewrite Z.add_0_r.
  rewrite IH. f_equal. rewrite <- byte_of_Z_mod, Z.add_comm, Z.mod_add, byte_of_Z_mod by lia.
  apply byte_of_to_Z.
Qed.

Lemma le_u64_inj x y : 0 <= x < 2 ^ 64 -> 0 <= y < 2 ^ 64 -> le_u64 x = le_u64 y -> x = y.
Proof. intros Hx Hy E. rewrite <- (le_get_u64 x), <- (le_get_u64 y) by done. by rewrite E. Qed.

Lemma Uint32_at_app pre z post off :
  off = zlen pre -> 0 <= z < 2 ^ 32 -> Uint32_at (pre ++ le_u32 z ++ post) off = Some z.
Proof.
  intros -> Hz. unfold Uint32_at. rewrite slice_app; [|done|by rewrite zlen_le_u32].
  change (Some (le_get (le_u32 z)) = Some z). by rewrite le_get_u32.
Qed.

Lemma Uint64_at_app pre z post off :
  off = zlen pre -> 0 <= z < 2 ^ 64 -> Uint64_at (pre ++ le_u64 z ++ post) off = Some z.
Proof.
  intros -> Hz. unfold Uint64_at. rewrite slice_app; [|done|by rewrite zlen_le_u64].
  change (Some (le_get (le_u64 z)) = Some z). by rewrite le_get_u64.
Qed.

Lemma Uint64_at_head z post : 0 <= z < 2 ^ 64 -> Uint64_at (le_u64 z ++ post) 0 = Some z.
Proof. intros Hz. by apply (Uint64_at_app []). Qed.

(** ** Varints *)

Definition MaxVarintLen64 : Z := 10.

(** The loop of [binary.PutUvarint]; [fuel] is the number of bytes still allowed. *)
Fixpoint put_uvarint_loop (fuel : nat) (x : Z) : bytes :=
  match fuel with
  | O => []
  | S fuel' =>
      if x <? 128 then [byte_of_Z x]
      else byte_of_Z (Z.lor (u8 x) 128) :: put_uvarint_loop fuel' (Z.shiftr x 7)
  end.

(** [binary.PutUvarint]: a [uint64] needs at most [MaxVarintLen64] bytes. *)
Definition PutUvarint (x : Z) : bytes := put_uvarint_loop 10 x.

(** [binary.PutVarint]: zig-zag encoding of an [int64]. *)
Definition PutVarint (x : Z) : bytes :=
  let ux := u64 (Z.shiftl (u64 x) 1) in
  PutUvarint (if x <? 0 then Z.lxor ux MaxUint64 else ux).

(** The loop of [binary.Uvarint] at byte [i] with accumulator [x] and shift [s]. *)
Fixpoint uvarint_loop (buf : bytes) (i x s : Z) : Z * Z :=
  match buf with
  | [] => (0, 0)
  | b :: buf' =>
      let bz := byte_to_Z b in
      if i =? MaxVarintLen64 then (0, - (i + 1))
      else if bz <? 128 then
        if (i =? MaxVarintLen64 - 1) && (1 <? bz) then (0, - (i + 1))
        else (Z.lor x (u64 (Z.shiftl bz s)), i + 1)
      else uvarint_loop buf' (i + 1) (Z.lor x (u64 (Z.shiftl (Z.land bz 127) s))) (s + 7)
  end.

(** [binary.Uvarint]: the value and the number of bytes read, [0] when the
    buffer is too small and negative on overflow. *)
Definition Uvarint (buf : bytes) : Z * Z := uvarint_loop buf 0 0 0.

(** ** Readers *)

Definition EOF : error := "EOF".
Definition ErrUnexpectedEOF : error := "unexpected EOF".
Definition errOverflow : error := "binary: varint overflows a 64-bit integer".

(** [io.ByteReader.ReadByte] *)
Definition ReadByte (r : bytes) : res (Byte.byte * bytes) :=
  match r with [] => Err EOF | b :: r' => Ok (b, r') end.

(** [io.ReadFull] into a buffer of length [n]. *)
Definition ReadFull (n : Z) (r : bytes) : res (bytes * bytes) :=
  if n <=? 0 then Ok ([], r)
  else if zlen r =? 0 then Err EOF
  else if zlen r <? n then Err ErrUnexpectedEOF
  else Ok (take (Z.to_nat n) r, drop (Z.to_nat n) r).

Fixpoint read_uvarint_loop (r : bytes) (i x s : Z) : res (Z * bytes) :=
  if i =? MaxVarintLen64 then Err errOverflow
  else match r with
  | [] => Err (if 0 <? i then ErrUnexpectedEOF else EOF)
  | b :: r' =>
      let bz := byte_to_Z b in
      if bz <? 128 then
        if (i =? MaxVarintLen64 - 1) && (1 <? bz) then Err errOverflow
        else Ok (Z.lor x (u64 (Z.shiftl bz s)), r')
      else read_uvarint_loop r' (i + 1) (Z.lor x (u64 (Z.shiftl (Z.land bz 127) s))) (s + 7)
  end.

(** [binary.ReadUvarint] *)
Definition ReadUvarint (r : bytes) : res (Z * bytes) := read_uvarint_loop r 0 0 0.

(** The length in bytes of [PutUvarint x], by the groups of seven bits of [x]. *)
Fixpoint uvarint_len_loop (fuel : nat) (x : Z) : Z :=
  match fuel with
  | O => 0
  | S fuel' => if x <? 128 then 1 else 1 + uvarint_len_loop fuel' (x / 128)
  end.
Definition uvarint_len (x : Z) : Z := uvarint_len_loop 10 x.

(** ** Round trips *)

Lemma lor_disjoint_add a b s : 0 <= s -> 0 <= a < 2 ^ s -> Z.lor a (Z.shiftl b s) = a + b * 2 ^ s.
Proof.
  intros Hs Ha. rewrite Z.shiftl_mul_pow2 by done.
  assert (Hl : Z.land a (b * 2 ^ s) = 0).
  { apply Z.bits_inj'. intros n Hn. rewrite Z.land_spec, Z.bits_0.
    destruct (Z.lt_ge_cases n s).
    - rewrite Z.mul_pow2_bits_low by done. by rewrite andb_false_r.
    - rewrite <- (Z.mod_small a (2 ^ s)) by done.
      rewrite Z.mod_pow2_bits_high by lia. done. }
  by rewrite <- Z.lxor_lor, <- Z.add_nocarry_lxor.
Qed.

Lemma lor_128 x : 0 <= x -> Z.lor (u8 x) 128 mod 256 = 128 + x mod 128.
Proof.
  intros Hx. unfold u8.
  assert (E : Z.lor (x mod 2 ^ 8) 128 = 128 + x mod 128); [|rewrite E; pose proof (Z.mod_pos_bound x 128); rewrite Z.mod_small; lia].
  replace (Z.lor (x mod 2 ^ 8) 128) with (Z.lor (x mod 2 ^ 7) (Z.shiftl 1 7)).
  - rewrite lor_disjoint_add; [change (2 ^ 7) with 128; lia|lia|by apply Z.mod_pos_bound].
  - apply Z.bits_inj'. intros n Hn. rewrite !Z.lor_spec. change (Z.shiftl 1 7) with (2 ^ 7).
    change 128 with (2 ^ 7). destruct (decide (n = 7)) as [->|Hne].
    + rewrite Z.pow2_bits_true by lia. by rewrite !orb_true_r.
    + rewrite Z.pow2_bits_false by lia. rewrite !orb_false_r.
      destruct (Z.lt_ge_cases n 7).
      * rewrite !Z.mod_pow2_bits_low by lia. done.
      * rewrite !Z.mod_pow2_bits_high by lia. done.
Qed.

Lemma land_127 x : 0 <= x -> Z.land (128 + x mod 128) 127 = x mod 128.
Proof.
  intros Hx. change 127 with (Z.ones 7). rewrite Z.land_ones by lia.
  change (2 ^ 7) with 128. replace (128 + x mod 128) with (x mod 128 + 1 * 128) by lia.
  rewrite Z.mod_add by lia. apply Z.mod_mod. lia.
Qed.

(** One step of either decoding loop on one byte of an encoding. *)
Lemma uvarint_acc acc s d :
  0 <= s -> 0 <= acc < 2 ^ s -> 0 <= d -> d * 2 ^ s < 2 ^ 64 ->
  Z.lor acc (u64 (Z.shiftl d s)) = acc + d * 2 ^ s.
Proof.
  intros Hs Ha Hd Hb. rewrite u64_small; [by apply lor_disjoint_add|].
  rewrite Z.shiftl_mul_pow2 by done. pose proof (Z.pow_pos_nonneg 2 s). nia.
Qed.

Lemma put_uvarint_small fuel x :
  (fuel <> 0)%nat -> 0 <= x < 128 -> put_uvarint_loop fuel x = [byte_of_Z x].
Proof. intros Hf Hx. destruct fuel; [done|]. simpl. by rewrite (proj2 (Z.ltb_lt _ _)) by lia. Qed.

Lemma uvarint_bound_step n x :
  0 <= x -> 128 <= x < 2 ^ (64 - 7 * n) -> n <= 8 ->
  x / 128 < 2 ^ (64 - 7 * (n + 1)).
Proof.
  intros H0 Hx Hn. apply Z.div_lt_upper_bound; [lia|].
  replace (64 - 7 * n) with (7 + (64 - 7 * (n + 1))) in Hx by lia.
  rewrite Z.pow_add_r in Hx by lia. lia.
Qed.

Lemma acc_bound acc m P : 0 <= acc < P -> 0 <= m < 128 -> 0 <= acc + m * P < 128 * P.
Proof. nia. Qed.

(** The shared induction of both decoders: at byte [n] of an encoding the
    accumulator holds the [7 * n] low bits and the value left fits the rest. *)
Lemma uvarint_loop_put fuel n x acc rest :
  Z.of_nat fuel = 10 - n -> 0 <= n <= 9 -> 0 <= x < 2 ^ (64 - 7 * n) -> 0 <= acc < 2 ^ (7 * n) ->
  uvarint_loop (put_uvarint_loop fuel x ++ rest) n acc (7 * n) =
    (acc + x * 2 ^ (7 * n), n + zlen (put_uvarint_loop fuel x)) /\
  read_uvarint_loop (put_uvarint_loop fuel x ++ rest) n acc (7 * n) =
    Ok (acc + x * 2 ^ (7 * n), rest).
Proof.
  revert n x acc. induction fuel as [|fuel IH]; intros n x acc Hf Hn Hx Hacc; [lia|].
  assert (Hp : 2 ^ 64 = 2 ^ (64 - 7 * n) * 2 ^ (7 * n)).
  { rewrite <- Z.pow_add_r by lia. f_equal. lia. }
  assert (0 < 2 ^ (7 * n)) by (apply Z.pow_pos_nonneg; lia).
  assert (Hnb : (n =? MaxVarintLen64) = false) by (unfold MaxVarintLen64; lia).
  simpl. destruct (Z.ltb_spec x 128) as [Hs|Hs]; simpl.
  - rewrite Hnb, byte_to_of_Z, (Z.mod_small x) by lia.
    rewrite (proj2 (Z.ltb_lt x 128)) by lia.
    assert ((n =? MaxVarintLen64 - 1) && (1 <? x) = false) as ->.
    { unfold MaxVarintLen64. destruct (Z.eqb_spec n (10 - 1)) as [->|]; [|done].
      change (2 ^ _) with 2 in Hx. simpl. lia. }
    rewrite uvarint_acc; [done|lia|done|lia|]. rewrite Hp. apply Z.mul_lt_mono_pos_r; lia.
  - assert (Hn8 : n <= 8).
    { destruct (decide (n = 9)) as [->|]; [|lia]. change (2 ^ (64 - 7 * 9)) with 2 in Hx. lia. }
    assert (Hm : 0 <= x mod 128 < 128) by (apply Z.mod_pos_bound; lia).
    rewrite Hnb, byte_to_of_Z, lor_128 by lia.
    rewrite (proj2 (Z.ltb_ge _ 128)) by lia. rewrite land_127 by lia.
    rewrite Z.shiftr_div_pow2 by lia. change (2 ^ 7) with 128.
    assert (Hmx : x mod 128 <= x) by (apply Z.mod_le; lia).
    rewrite uvarint_acc; [|lia|done|lia|rewrite Hp; apply Z.mul_lt_mono_pos_r; lia].
    replace (7 * n + 7) with (7 * (n + 1)) by lia.
    assert (Hpow : 2 ^ (7 * (n + 1)) = 128 * 2 ^ (7 * n)).
    { replace (7 * (n + 1)) with (7 + 7 * n) by lia. rewrite Z.pow_add_r by lia. done. }
    destruct (IH (n + 1) (x / 128) (acc + x mod 128 * 2 ^ (7 * n))) as [-> ->]; try lia.
    { split; [apply Z.div_pos; lia|]. apply uvarint_bound_step; lia. }
    { rewrite Hpow. by apply acc_bound. }
    rewrite Hpow. pose proof (Z.div_mod x 128 ltac:(lia)) as Hdm.
    assert (E : acc + x mod 128 * 2 ^ (7 * n) + x / 128 * (128 * 2 ^ (7 * n)) = acc + x * 2 ^ (7 * n)).
    { rewrite Hdm at 3. ring. }
    rewrite E. unfold zlen. simpl length. split; [f_equal; lia|done].
Qed.

Lemma Uvarint_PutUvarint x rest :
  0 <= x < 2 ^ 64 -> Uvarint (PutUvarint x ++ rest) = (x, zlen (PutUvarint x)).
Proof.
  intros Hx. unfold Uvarint, PutUvarint.
  destruct (uvarint_loop_put 10 0 x 0 rest) as [H _]; [lia..|].
  change (7 * 0) with 0 in H. rewrite H. f_equal; lia.
Qed.

Lemma ReadUvarint_PutUvarint x rest :
  0 <= x < 2 ^ 64 -> ReadUvarint (PutUvarint x ++ rest) = Ok (x, rest).
Proof.
  intros Hx. unfold ReadUvarint, PutUvarint.
  destruct (uvarint_loop_put 10 0 x 0 rest) as [_ H]; [lia..|].
  change (7 * 0) with 0 in H. rewrite H. do 2 f_equal; lia.
Qed.

Lemma ReadFull_app bz rest :
  ReadFull (zlen bz) (bz ++ rest) = Ok (bz, rest).
Proof.
  unfold ReadFull. destruct (Z.leb_spec (zlen bz) 0) as [H|H].
  - unfold zlen in H. destruct bz; [done|simpl in H; lia].
  - unfold zlen in *. rewrite length_app.
    rewrite (proj2 (Z.eqb_neq _ _)) by lia. rewrite (proj2 (Z.ltb_ge _ _)) by lia.
    rewrite Nat2Z.id, take_app_length, drop_app_length. done.
Qed.

Lemma PutUvarint_nonempty x : PutUvarint x <> [].
Proof. unfold PutUvarint. generalize 9%nat. intros n. simpl. by destruct (x <? 128). Qed.

#[global] Arguments PutUvarint _ : simpl never.
#[global] Arguments PutVarint _ : simpl never.

(** The length loop agrees with the bytes written. *)
Lemma uvarint_len_loop_put fuel x :
  0 <= x -> zlen (put_uvarint_loop fuel x) = uvarint_len_loop fuel x.
Proof.
  revert x. induction fuel as [|fuel IH]; intros x Hx; [done|]. simpl.
  destruct (Z.ltb_spec x 128); [done|]. unfold zlen in *. simpl length.
  rewrite Z.shiftr_div_pow2 by lia. change (2 ^ 7) with 128.
  rewrite Nat2Z.inj_succ, IH by (apply Z.div_pos; lia). lia.
Qed.

Lemma zlen_PutUvarint x : 0 <= x -> zlen (PutUvarint x) = uvarint_len x.
Proof. apply uvarint_len_loop_put. Qed.
