(* ===== verification/Proto.v ===== *)
(** * Protocol buffer messages (memiavl/changeset.pb.go, wal.pb.go, commit_info.pb.go)

    The generated code of the messages stored in the write-ahead log and in the metadata
    of a snapshot.  [Unmarshal] is a loop over tagged fields, shared by the messages; each
    message has the switch over its field numbers.  [Marshal] fills a buffer of [Size]
    bytes from its end. *)

From Stdlib Require Import Strings.Byte ZArith Lia.
From stdpp Require Import base list numbers strings.
From S2P Require Import Prelude Binary.
Local Open Scope Z_scope.

(** ** Errors *)

Definition ErrInvalidLength : error := "proto: negative length found during unmarshaling".
Definition ErrIntOverflow : error := "proto: integer overflow".
Definition ErrUnexpectedEndOfGroup : error := "proto: unexpected end of group".
Definition ErrWireType : error := "proto: wrong wireType for field".
Definition ErrEndGroup : error := "proto: wiretype end group for non-group".
Definition ErrIllegalTag : error := "proto: illegal tag".
Definition ErrIllegalWireType : error := "proto: illegal wireType".

(** ** Reading *)

(** The inner loop that reads a varint at [shift]; the value is an [uint64], which the
    code also reads as an [int] or [int64]. *)
Fixpoint varint_loop (data : bytes) (shift acc : Z) : res (Z * bytes) :=
  if 64 <=? shift then Err ErrIntOverflow
  else match data with
  | [] => Err ErrUnexpectedEOF
  | b :: data =>
      let acc := Z.lor acc (u64 (Z.shiftl (Z.land (byte_to_Z b) 127) shift)) in
      if byte_to_Z b <? 128 then Ok (acc, data) else varint_loop data (shift + 7) acc
  end.
Definition read_varint (data : bytes) : res (Z * bytes) := varint_loop data 0 0.

(** A length-delimited field in a message of [l] bytes: its contents and the rest. *)
Definition read_delimited (l : Z) (data : bytes) : res (bytes * bytes) :=
  '(len, rest) ← read_varint data;
  let msglen := i64 len in
  if msglen <? 0 then Err ErrInvalidLength else
  let iNdEx := l - zlen rest in
  let postIndex := i64 (iNdEx + msglen) in
  if postIndex <? 0 then Err ErrInvalidLength else
  if l <? postIndex then Err ErrUnexpectedEOF else
  Ok (take (Z.to_nat msglen) rest, drop (Z.to_nat msglen) rest).

(** The switch of the generated [skip] function: the index after a value of [wireType]
    and the depth of the groups. *)
Definition skip_value (l wireType : Z) (rest : bytes) (depth : Z) : res (Z * Z) :=
  let iNdEx := l - zlen rest in
  if wireType =? 0 then
    '(_, rest) ← read_varint rest; Ok (l - zlen rest, depth)
  else if wireType =? 1 then Ok (iNdEx + 8, depth)
  else if wireType =? 2 then
    '(len, rest) ← read_varint rest;
    let length := i64 len in
    if length <? 0 then Err ErrInvalidLength
    else Ok (i64 (l - zlen rest + length), depth)
  else if wireType =? 3 then Ok (iNdEx, depth + 1)
  else if wireType =? 4 then
    if depth =? 0 then Err ErrUnexpectedEndOfGroup else Ok (iNdEx, depth - 1)
  else if wireType =? 5 then Ok (iNdEx + 4, depth)
  else Err ErrIllegalWireType.

(** The number of bytes of an unknown field.  Every round reads at least a byte, so the
    length of the data bounds their number. *)
Fixpoint skip_loop (fuel : nat) (data : bytes) (iNdEx depth : Z) : res Z :=
  match fuel with
  | O => out_of_fuel
  | S fuel =>
      let l := zlen data in
      if negb (iNdEx <? l) then Err ErrUnexpectedEOF else
      '(wire, rest) ← read_varint (drop (Z.to_nat iNdEx) data);
      '(iNdEx, depth) ← skip_value l (Z.land wire 7) rest depth;
      if iNdEx <? 0 then Err ErrInvalidLength else
      if depth =? 0 then Ok iNdEx else skip_loop fuel data iNdEx depth
  end.
Definition skip (data : bytes) : res Z := skip_loop (S (length data)) data 0 0.

(** ** The loop of [Unmarshal] *)

Section unmarshal.
  Context {M : Type}.
  (** The switch of a message: the field number, the wire type, the length of the
      message, the bytes after the tag and the message so far.  [None] is the default
      case. *)
  Variable field : Z -> Z -> Z -> bytes -> M -> res (option (M * bytes)).

Fixpoint unmarshal_loop (fuel : nat) (l : Z) (data : bytes) (m : M) : res M :=
  match fuel with
  | O => out_of_fuel
  | S fuel =>
      match data with
      | [] => Ok m
      | _ =>
          '(wire, rest) ← read_varint data;
          let fieldNum := i32 (Z.shiftr wire 3) in
          let wireType := Z.land wire 7 in
          if wireType =? 4 then Err ErrEndGroup else
          if fieldNum <=? 0 then Err ErrIllegalTag else
          r ← field fieldNum wireType l rest m;
          match r with
          | Some (m', rest') => unmarshal_loop fuel l rest' m'
          | None =>
              let iNdEx := l - zlen data in
              skippy ← skip data;
              if (skippy <? 0) || (i64 (iNdEx + skippy) <? 0) then Err ErrInvalidLength else
              if l <? iNdEx + skippy then Err ErrUnexpectedEOF else
              unmarshal_loop fuel l (drop (Z.to_nat skippy) data) m
          end
      end
  end.

Definition unmarshal (m0 : M) (data : bytes) : res M :=
  unmarshal_loop (S (length data)) (zlen data) data m0.
End unmarshal.

(** The cases of a switch by the type of the field. *)
Definition varint_field {M} (set : Z -> M -> M) (wireType : Z) (rest : bytes) (m : M)
    : res (option (M * bytes)) :=
  if negb (wireType =? 0) then Err ErrWireType else
  '(v, rest) ← read_varint rest; Ok (Some (set v m, rest)).

Definition delimited_field {M} (set : bytes -> M -> res M) (l wireType : Z) (rest : bytes) (m : M)
    : res (option (M * bytes)) :=
  if negb (wireType =? 2) then Err ErrWireType else
  '(bz, rest) ← read_delimited l rest;
  m ← set bz m; Ok (Some (m, rest)).

(** ** Writing

    [Marshal] allocates a buffer of [Size] bytes and fills it from the end: a writer takes
    the buffer and the index [i] below which it is free, and returns the buffer and the
    new index.  A write outside of the buffer panics. *)

Definition writer : Type := bytes -> Z -> res (bytes * Z).

(** [dAtA[i] = b] *)
Definition set_byte (dAtA : bytes) (i : Z) (b : byte) : res bytes :=
  if (i <? 0) || (zlen dAtA <=? i) then Panic else Ok (<[Z.to_nat i := b]> dAtA).
(** [copy(dAtA[i:], bz)] *)
Definition copy_at (dAtA : bytes) (i : Z) (bz : bytes) : res bytes :=
  if (i <? 0) || (zlen dAtA <? i) then Panic
  else let n := Nat.min (length bz) (length dAtA - Z.to_nat i)%nat in
       Ok (take (Z.to_nat i) dAtA ++ take n bz ++ drop (Z.to_nat i + n) dAtA).

(** Writers one after the other, and under a condition. *)
Definition andThen (w1 w2 : writer) : writer := fun dAtA i => '(dAtA, i) ← w1 dAtA i; w2 dAtA i.
Declare Scope proto_scope.
Delimit Scope proto_scope with proto.
Infix ">>" := andThen (at level 50, left associativity) : proto_scope.
Definition when (c : bool) (w : writer) : writer := fun dAtA i => if c then w dAtA i else Ok (dAtA, i).

(** [i--; dAtA[i] = b] *)
Definition put_byte (b : Z) : writer := fun dAtA i =>
  dAtA ← set_byte dAtA (i - 1) (byte_of_Z b); Ok (dAtA, i - 1).
(** [i -= len(bz); copy(dAtA[i:], bz)] *)
Definition put_copy (bz : bytes) : writer := fun dAtA i =>
  dAtA ← copy_at dAtA (i - zlen bz) bz; Ok (dAtA, i - zlen bz).

(** [sov]: the number of bytes of a varint, [(bits.Len64(x|1) + 6) / 7]. *)
Definition sov (x : Z) : Z := (Z.log2 (Z.lor x 1) + 1 + 6) / 7.

(** An [uint64] is shifted to less than 128 in at most nine rounds. *)
Fixpoint encode_loop (fuel : nat) (dAtA : bytes) (offset v : Z) : res bytes :=
  match fuel with
  | O => out_of_fuel
  | S fuel =>
      if 128 <=? v then
        dAtA ← set_byte dAtA offset (byte_of_Z (u8 (Z.lor (Z.land v 127) 128)));
        encode_loop fuel dAtA (offset + 1) (Z.shiftr v 7)
      else set_byte dAtA offset (byte_of_Z (u8 v))
  end.
Definition encodeVarint (v : Z) : writer := fun dAtA offset =>
  let offset := offset - sov v in
  dAtA ← encode_loop 10 dAtA offset v; Ok (dAtA, offset).

(** The fields: bytes and strings, booleans, integers, embedded messages and repeated
    messages (written from the last to the first). *)
Definition put_bytes_field (tag : Z) (bz : bytes) : writer :=
  when (0 <? zlen bz) (put_copy bz >> encodeVarint (zlen bz) >> put_byte tag)%proto.
Definition put_bool_field (tag : Z) (b : bool) : writer :=
  when b (put_byte 1 >> put_byte tag)%proto.
Definition put_int_field (tag v : Z) : writer :=
  when (negb (v =? 0)) (encodeVarint (u64 v) >> put_byte tag)%proto.
Definition put_message_field (tag : Z) (w : writer) : writer := fun dAtA i =>
  '(dAtA, j) ← w dAtA i; (encodeVarint (i - j) >> put_byte tag)%proto dAtA j.
Fixpoint put_repeated {A} (tag : Z) (w : A -> writer) (l : list A) : writer :=
  match l with
  | [] => fun dAtA i => Ok (dAtA, i)
  | x :: l => (put_repeated tag w l >> put_message_field tag (w x))%proto
  end.

Definition marshal (size : Z) (w : writer) : res bytes :=
  let dAtA := replicate (Z.to_nat size) Byte.x00 in
  '(dAtA, i) ← w dAtA size;
  let n := size - i in
  (* the callee returns [len(dAtA) - i] and the caller takes [dAtA[:n]] *)
  Ok (take (Z.to_nat n) dAtA).

(** The sizes of the fields. *)
Definition size_bytes (bz : bytes) : Z :=
  let l := zlen bz in if 0 <? l then 1 + l + sov (u64 l) else 0.
Definition size_bool (b : bool) : Z := if b then 2 else 0.
Definition size_int (v : Z) : Z := if v =? 0 then 0 else 1 + sov (u64 v).
Definition size_message (l : Z) : Z := 1 + l + sov (u64 l).
Definition size_repeated {A} (size : A -> Z) (l : list A) : Z :=
  foldl (fun n x => n + size_message (size x)) 0 l.

(** ** Messages *)

Record KVPair : Type := { kv_Delete : bool; kv_Key : bytes; kv_Value : option bytes }.
Record ChangeSet : Type := { Pairs : list KVPair }.
Record NamedChangeSet : Type := { ncs_Changeset : ChangeSet; ncs_Name : bytes }.
Record TreeNameUpgrade : Type := { up_Name : bytes; up_RenameFrom : bytes; up_Delete : bool }.
Record WALEntry : Type := { Changesets : list NamedChangeSet; Upgrades : list TreeNameUpgrade }.
Record CommitID : Type := { cid_Version : Z; cid_Hash : bytes }.
Record StoreInfo : Type := { si_Name : bytes; si_CommitId : CommitID }.
Record CommitInfo : Type := { ci_Version : Z; ci_StoreInfos : list StoreInfo }.
Record MultiTreeMetadata : Type := { md_CommitInfo : option CommitInfo; md_InitialVersion : Z }.

(** ** [Size] *)

Definition KVPair_Size (m : KVPair) : Z :=
  size_bool (kv_Delete m) + size_bytes (kv_Key m) + size_bytes (default [] (kv_Value m)).
Definition ChangeSet_Size (m : ChangeSet) : Z := size_repeated KVPair_Size (Pairs m).
Definition NamedChangeSet_Size (m : NamedChangeSet) : Z :=
  size_message (ChangeSet_Size (ncs_Changeset m)) + size_bytes (ncs_Name m).
Definition TreeNameUpgrade_Size (m : TreeNameUpgrade) : Z :=
  size_bytes (up_Name m) + size_bytes (up_RenameFrom m) + size_bool (up_Delete m).
Definition WALEntry_Size (m : WALEntry) : Z :=
  size_repeated NamedChangeSet_Size (Changesets m) + size_repeated TreeNameUpgrade_Size (Upgrades m).
Definition CommitID_Size (m : CommitID) : Z := size_int (cid_Version m) + size_bytes (cid_Hash m).
Definition StoreInfo_Size (m : StoreInfo) : Z :=
  size_bytes (si_Name m) + size_message (CommitID_Size (si_CommitId m)).
Definition CommitInfo_Size (m : CommitInfo) : Z :=
  size_int (ci_Version m) + size_repeated StoreInfo_Size (ci_StoreInfos m).
Definition MultiTreeMetadata_Size (m : MultiTreeMetadata) : Z :=
  match md_CommitInfo m with None => 0 | Some c => size_message (CommitInfo_Size c) end +
  size_int (md_InitialVersion m).

(** ** [MarshalToSizedBuffer] and [Marshal] *)

Section marshal.
Local Open Scope proto_scope.

Definition KVPair_MarshalToSizedBuffer (m : KVPair) : writer :=
  put_bytes_field 0x1a (default [] (kv_Value m)) >>
  put_bytes_field 0x12 (kv_Key m) >>
  put_bool_field 0x8 (kv_Delete m).
Definition ChangeSet_MarshalToSizedBuffer (m : ChangeSet) : writer :=
  put_repeated 0xa KVPair_MarshalToSizedBuffer (Pairs m).
Definition NamedChangeSet_MarshalToSizedBuffer (m : NamedChangeSet) : writer :=
  put_bytes_field 0x12 (ncs_Name m) >>
  put_message_field 0xa (ChangeSet_MarshalToSizedBuffer (ncs_Changeset m)).
Definition TreeNameUpgrade_MarshalToSizedBuffer (m : TreeNameUpgrade) : writer :=
  put_bool_field 0x18 (up_Delete m) >>
  put_bytes_field 0x12 (up_RenameFrom m) >>
  put_bytes_field 0xa (up_Name m).
Definition WALEntry_MarshalToSizedBuffer (m : WALEntry) : writer :=
  put_repeated 0x12 TreeNameUpgrade_MarshalToSizedBuffer (Upgrades m) >>
  put_repeated 0xa NamedChangeSet_MarshalToSizedBuffer (Changesets m).
Definition CommitID_MarshalToSizedBuffer (m : CommitID) : writer :=
  put_bytes_field 0x12 (cid_Hash m) >> put_int_field 0x8 (cid_Version m).
Definition StoreInfo_MarshalToSizedBuffer (m : StoreInfo) : writer :=
  put_message_field 0x12 (CommitID_MarshalToSizedBuffer (si_CommitId m)) >>
  put_bytes_field 0xa (si_Name m).
Definition CommitInfo_MarshalToSizedBuffer (m : CommitInfo) : writer :=
  put_repeated 0x12 StoreInfo_MarshalToSizedBuffer (ci_StoreInfos m) >>
  put_int_field 0x8 (ci_Version m).
Definition MultiTreeMetadata_MarshalToSizedBuffer (m : MultiTreeMetadata) : writer :=
  put_int_field 0x10 (md_InitialVersion m) >>
  match md_CommitInfo m with
  | None => when false (put_byte 0)
  | Some c => put_message_field 0xa (CommitInfo_MarshalToSizedBuffer c)
  end.
End marshal.

Definition WALEntry_Marshal (m : WALEntry) : res bytes :=
  marshal (WALEntry_Size m) (WALEntry_MarshalToSizedBuffer m).
Definition MultiTreeMetadata_Marshal (m : MultiTreeMetadata) : res bytes :=
  marshal (MultiTreeMetadata_Size m) (MultiTreeMetadata_MarshalToSizedBuffer m).

(** ** [Unmarshal] *)

Definition KVPair_field (num wt l : Z) (rest : bytes) (m : KVPair) : res (option (KVPair * bytes)) :=
  if num =? 1 then
    varint_field (fun v m => {| kv_Delete := negb (v =? 0); kv_Key := kv_Key m; kv_Value := kv_Value m |}) wt rest m
  else if num =? 2 then
    delimited_field (fun bz m => Ok {| kv_Delete := kv_Delete m; kv_Key := bz; kv_Value := kv_Value m |}) l wt rest m
  else if num =? 3 then
    delimited_field (fun bz m => Ok {| kv_Delete := kv_Delete m; kv_Key := kv_Key m; kv_Value := Some bz |}) l wt rest m
  else Ok None.
Definition KVPair_zero : KVPair := {| kv_Delete := false; kv_Key := []; kv_Value := None |}.
Definition KVPair_Unmarshal (data : bytes) : res KVPair := unmarshal KVPair_field KVPair_zero data.

Definition ChangeSet_field (num wt l : Z) (rest : bytes) (m : ChangeSet) : res (option (ChangeSet * bytes)) :=
  if num =? 1 then
    delimited_field (fun bz m => p ← KVPair_Unmarshal bz; Ok {| Pairs := Pairs m ++ [p] |}) l wt rest m
  else Ok None.
Definition ChangeSet_Unmarshal (m : ChangeSet) (data : bytes) : res ChangeSet :=
  unmarshal ChangeSet_field m data.

Definition NamedChangeSet_field (num wt l : Z) (rest : bytes) (m : NamedChangeSet)
    : res (option (NamedChangeSet * bytes)) :=
  if num =? 1 then
    delimited_field (fun bz m =>
      c ← ChangeSet_Unmarshal (ncs_Changeset m) bz;
      Ok {| ncs_Changeset := c; ncs_Name := ncs_Name m |}) l wt rest m
  else if num =? 2 then
    delimited_field (fun bz m => Ok {| ncs_Changeset := ncs_Changeset m; ncs_Name := bz |}) l wt rest m
  else Ok None.
Definition NamedChangeSet_zero : NamedChangeSet := {| ncs_Changeset := {| Pairs := [] |}; ncs_Name := [] |}.
Definition NamedChangeSet_Unmarshal (data : bytes) : res NamedChangeSet :=
  unmarshal NamedChangeSet_field NamedChangeSet_zero data.

Definition TreeNameUpgrade_field (num wt l : Z) (rest : bytes) (m : TreeNameUpgrade)
    : res (option (TreeNameUpgrade * bytes)) :=
  if num =? 1 then
    delimited_field (fun bz m => Ok {| up_Name := bz; up_RenameFrom := up_RenameFrom m; up_Delete := up_Delete m |}) l wt rest m
  else if num =? 2 then
    delimited_field (fun bz m => Ok {| up_Name := up_Name m; up_RenameFrom := bz; up_Delete := up_Delete m |}) l wt rest m
  else if num =? 3 then
    varint_field (fun v m => {| up_Name := up_Name m; up_RenameFrom := up_RenameFrom m; up_Delete := negb (v =? 0) |}) wt rest m
  else Ok None.
Definition TreeNameUpgrade_zero : TreeNameUpgrade := {| up_Name := []; up_RenameFrom := []; up_Delete := false |}.
Definition TreeNameUpgrade_Unmarshal (data : bytes) : res TreeNameUpgrade :=
  unmarshal TreeNameUpgrade_field TreeNameUpgrade_zero data.

Definition WALEntry_field (num wt l : Z) (rest : bytes) (m : WALEntry) : res (option (WALEntry * bytes)) :=
  if num =? 1 then
    delimited_field (fun bz m =>
      c ← NamedChangeSet_Unmarshal bz;
      Ok {| Changesets := Changesets m ++ [c]; Upgrades := Upgrades m |}) l wt rest m
  else if num =? 2 then
    delimited_field (fun bz m =>
      u ← TreeNameUpgrade_Unmarshal bz;
      Ok {| Changesets := Changesets m; Upgrades := Upgrades m ++ [u] |}) l wt rest m
  else Ok None.
Definition WALEntry_Unmarshal (data : bytes) : res WALEntry :=
  unmarshal WALEntry_field {| Changesets := []; Upgrades := [] |} data.

Definition CommitID_field (num wt l : Z) (rest : bytes) (m : CommitID) : res (option (CommitID * bytes)) :=
  if num =? 1 then
    varint_field (fun v m => {| cid_Version := i64 v; cid_Hash := cid_Hash m |}) wt rest m
  else if num =? 2 then
    delimited_field (fun bz m => Ok {| cid_Version := cid_Version m; cid_Hash := bz |}) l wt rest m
  else Ok None.
Definition CommitID_Unmarshal (m : CommitID) (data : bytes) : res CommitID := unmarshal CommitID_field m data.

Definition StoreInfo_field (num wt l : Z) (rest : bytes) (m : StoreInfo) : res (option (StoreInfo * bytes)) :=
  if num =? 1 then
    delimited_field (fun bz m => Ok {| si_Name := bz; si_CommitId := si_CommitId m |}) l wt rest m
  else if num =? 2 then
    delimited_field (fun bz m =>
      c ← CommitID_Unmarshal (si_CommitId m) bz; Ok {| si_Name := si_Name m; si_CommitId := c |}) l wt rest m
  else Ok None.
Definition CommitID_zero : CommitID := {| cid_Version := 0; cid_Hash := [] |}.
Definition StoreInfo_Unmarshal (data : bytes) : res StoreInfo :=
  unmarshal StoreInfo_field {| si_Name := []; si_CommitId := CommitID_zero |} data.

Definition CommitInfo_field (num wt l : Z) (rest : bytes) (m : CommitInfo) : res (option (CommitInfo * bytes)) :=
  if num =? 1 then
    varint_field (fun v m => {| ci_Version := i64 v; ci_StoreInfos := ci_StoreInfos m |}) wt rest m
  else if num =? 2 then
    delimited_field (fun bz m =>
      s ← StoreInfo_Unmarshal bz; Ok {| ci_Version := ci_Version m; ci_StoreInfos := ci_StoreInfos m ++ [s] |}) l wt rest m
  else Ok None.
Definition CommitInfo_zero : CommitInfo := {| ci_Version := 0; ci_StoreInfos := [] |}.
Definition CommitInfo_Unmarshal (m : CommitInfo) (data : bytes) : res CommitInfo :=
  unmarshal CommitInfo_field m data.

Definition MultiTreeMetadata_field (num wt l : Z) (rest : bytes) (m : MultiTreeMetadata)
    : res (option (MultiTreeMetadata * bytes)) :=
  if num =? 1 then
    delimited_field (fun bz m =>
      c ← CommitInfo_Unmarshal (default CommitInfo_zero (md_CommitInfo m)) bz;
      Ok {| md_CommitInfo := Some c; md_InitialVersion := md_InitialVersion m |}) l wt rest m
  else if num =? 2 then
    varint_field (fun v m => {| md_CommitInfo := md_CommitInfo m; md_InitialVersion := i64 v |}) wt rest m
  else Ok None.
Definition MultiTreeMetadata_Unmarshal (data : bytes) : res MultiTreeMetadata :=
  unmarshal MultiTreeMetadata_field {| md_CommitInfo := None; md_InitialVersion := 0 |} data.
