(* ===== verification/ProtoInv.v ===== *)
(** * The wire format of the messages

    The bytes of every message as a concatenation of its fields, and the two halves of the
    codec against it: [Marshal] fills exactly the buffer its [Size] allocates with these
    bytes, and the loop of [Unmarshal] reads them back. *)

From Stdlib Require Import Strings.Byte ZArith Lia.
From stdpp Require Import base list numbers strings.
From S2P Require Import Prelude Binary Proto.
Local Open Scope Z_scope.
Local Open Scope proto_scope.

(** ** The format *)

Definition field_bytes (tag : Z) (bz : bytes) : bytes := byte_of_Z tag :: PutUvarint (zlen bz) ++ bz.
Definition bytes_bytes (tag : Z) (bz : bytes) : bytes :=
  match bz with [] => [] | _ => field_bytes tag bz end.
Definition int_bytes (tag v : Z) : bytes :=
  if v =? 0 then [] else byte_of_Z tag :: PutUvarint (u64 v).
Definition bool_bytes (tag : Z) (b : bool) : bytes := if b then [byte_of_Z tag; byte_of_Z 1] else [].
Definition repeated_bytes {A} (tag : Z) (f : A -> bytes) (l : list A) : bytes :=
  concat (map (fun x => field_bytes tag (f x)) l).

Definition KVPair_bytes (m : KVPair) : bytes :=
  bool_bytes 0x8 (kv_Delete m) ++ bytes_bytes 0x12 (kv_Key m) ++ bytes_bytes 0x1a (default [] (kv_Value m)).
Definition ChangeSet_bytes (m : ChangeSet) : bytes := repeated_bytes 0xa KVPair_bytes (Pairs m).
Definition NamedChangeSet_bytes (m : NamedChangeSet) : bytes :=
  field_bytes 0xa (ChangeSet_bytes (ncs_Changeset m)) ++ bytes_bytes 0x12 (ncs_Name m).
Definition TreeNameUpgrade_bytes (m : TreeNameUpgrade) : bytes :=
  bytes_bytes 0xa (up_Name m) ++ bytes_bytes 0x12 (up_RenameFrom m) ++ bool_bytes 0x18 (up_Delete m).
Definition WALEntry_bytes (m : WALEntry) : bytes :=
  repeated_bytes 0xa NamedChangeSet_bytes (Changesets m) ++
  repeated_bytes 0x12 TreeNameUpgrade_bytes (Upgrades m).
Definition CommitID_bytes (m : CommitID) : bytes :=
  int_bytes 0x8 (cid_Version m) ++ bytes_bytes 0x12 (cid_Hash m).
Definition StoreInfo_bytes (m : StoreInfo) : bytes :=
  bytes_bytes 0xa (si_Name m) ++ field_bytes 0x12 (CommitID_bytes (si_CommitId m)).
Definition CommitInfo_bytes (m : CommitInfo) : bytes :=
  int_bytes 0x8 (ci_Version m) ++ repeated_bytes 0x12 StoreInfo_bytes (ci_StoreInfos m).
Definition MultiTreeMetadata_bytes (m : MultiTreeMetadata) : bytes :=
  match md_CommitInfo m with None => [] | Some c => field_bytes 0xa (CommitInfo_bytes c) end ++
  int_bytes 0x10 (md_InitialVersion m).

(** ** Varints *)

Lemma sov_uvarint_len x : 0 <= x < 2 ^ 64 -> sov x = uvarint_len x.
Proof.
  intros Hx. unfold uvarint_len.
  assert (L : forall y, 1 <= y -> Z.log2 (Z.lor y 1) = Z.log2 y).
  { intros y Hy. rewrite Z.log2_lor by lia. apply Z.max_l. apply Z.log2_le_mono. lia. }
  assert (H : forall fuel y, 1 <= y < 2 ^ (7 * Z.of_nat fuel) ->
    (Z.log2 y + 7) / 7 = uvarint_len_loop fuel y).
  { clear x Hx. induction fuel as [|fuel IH]; intros y Hy.
    - change (2 ^ _) with 1 in Hy. lia.
    - cbn [uvarint_len_loop]. destruct (Z.ltb_spec y 128) as [Hs|Hs].
      + assert (Z.log2 y < 7) by (apply Z.log2_lt_pow2; lia).
        pose proof (Z.log2_nonneg y). replace (Z.log2 y + 7) with (Z.log2 y + 1 * 7) by lia.
        rewrite Z.div_add, Z.div_small; lia.
      + rewrite <- IH.
        * change 128 with (2 ^ 7). rewrite <- Z.shiftr_div_pow2, Z.log2_shiftr by lia.
          assert (7 <= Z.log2 y) by (apply Z.log2_le_pow2; lia).
          rewrite Z.max_r by lia. replace (Z.log2 y + 7) with (Z.log2 y - 7 + 7 + 1 * 7) by lia.
          rewrite Z.div_add by lia. lia.
        * split; [apply Z.div_le_lower_bound; lia|].
          apply Z.div_lt_upper_bound; [lia|]. change 128 with (2 ^ 7).
          rewrite <- Z.pow_add_r by lia. replace (7 + _) with (7 * Z.of_nat (S fuel)) by lia. lia. }
  unfold sov. replace (Z.log2 (Z.lor x 1) + 1 + 6) with (Z.log2 (Z.lor x 1) + 7) by lia.
  destruct (decide (x = 0)) as [->|]; [done|].
  rewrite L by lia. apply H. split; [lia|]. apply Z.lt_le_trans with (2 ^ 64); [lia|].
  apply Z.pow_le_mono_r; lia.
Qed.

Lemma zlen_PutUvarint_sov x : 0 <= x < 2 ^ 64 -> zlen (PutUvarint x) = sov x.
Proof. intros Hx. rewrite sov_uvarint_len by done. apply zlen_PutUvarint. lia. Qed.

Lemma encode_byte v : 0 <= v ->
  byte_of_Z (u8 (Z.lor (Z.land v 127) 128)) = byte_of_Z (Z.lor (u8 v) 128).
Proof.
  intros Hv. rewrite <- (byte_of_Z_mod (u8 _)), <- (byte_of_Z_mod (Z.lor _ 128)).
  rewrite lor_128 by done. f_equal. unfold u8. change (2 ^ 8) with 256.
  change 127 with (Z.ones 7). rewrite Z.land_ones by lia.
  pose proof (Z.mod_pos_bound v (2 ^ 7) ltac:(lia)) as Hm.
  pose proof (lor_disjoint_add (v mod 2 ^ 7) 1 7 ltac:(lia) Hm) as E.
  change (Z.shiftl 1 7) with 128 in E. change (2 ^ 7) with 128 in *.
  rewrite E, Z.mod_mod by lia. rewrite Z.mod_small; lia.
Qed.

(** ** Writers *)

Lemma set_byte_app pre x post b :
  set_byte (pre ++ x :: post) (zlen pre) b = Ok (pre ++ b :: post).
Proof.
  unfold set_byte. rewrite zlen_app, zlen_cons. pose proof (zlen_nonneg pre). pose proof (zlen_nonneg post).
  rewrite (proj2 (Z.ltb_ge _ _)), (proj2 (Z.leb_gt _ _)) by lia. cbn [orb].
  unfold zlen. rewrite Nat2Z.id, <- (Nat.add_0_r (length pre)), insert_app_r. done.
Qed.

Lemma encode_loop_app fuel pre mid post v :
  fuel <> O -> 0 <= v < 2 ^ (7 * Z.of_nat fuel) -> length mid = length (put_uvarint_loop fuel v) ->
  encode_loop fuel (pre ++ mid ++ post) (zlen pre) v = Ok (pre ++ put_uvarint_loop fuel v ++ post).
Proof.
  revert pre mid v. induction fuel as [|fuel IH]; intros pre mid v Hf Hv Hl; [done|].
  cbn [encode_loop put_uvarint_loop] in *.
  destruct (Z.leb_spec 128 v) as [Hs|Hs].
  - rewrite (proj2 (Z.ltb_ge _ _)) in * by lia. destruct mid as [|x mid]; [done|].
    injection Hl as Hl. cbn [app]. rewrite set_byte_app. cbn [mbind res_bind].
    rewrite encode_byte by lia. set (b := byte_of_Z _).
    specialize (IH (pre ++ [b]) mid (Z.shiftr v 7)). rewrite zlen_app in IH.
    change (zlen [b]) with 1 in IH. rewrite <- !app_assoc in IH. apply IH; [| |done].
    { intros ->. change (2 ^ _) with 128 in Hv. lia. }
    rewrite Z.shiftr_div_pow2 by lia. split; [apply Z.div_pos; lia|].
    apply Z.div_lt_upper_bound; [lia|]. rewrite <- Z.pow_add_r by lia.
    replace (7 + _) with (7 * Z.of_nat (S fuel)) by lia. lia.
  - rewrite (proj2 (Z.ltb_lt _ _)) in * by lia. destruct mid as [|x mid]; [done|].
    injection Hl as Hl. destruct mid; [|done]. cbn [app].
    rewrite set_byte_app. unfold u8. change (2 ^ 8) with 256. by rewrite byte_of_Z_mod.
Qed.

(** [w] writes [bz] in front of the index, wherever there is room for it. *)
Definition writes (w : writer) (bz : bytes) : Prop := forall pre mid post,
  length mid = length bz ->
  w (pre ++ mid ++ post) (zlen pre + zlen bz) = Ok (pre ++ bz ++ post, zlen pre).

Create HintDb proto.

Lemma writes_andThen w1 w2 a b : writes w1 a -> writes w2 b -> writes (w1 >> w2) (b ++ a).
Proof.
  intros H1 H2 pre mid post Hl. unfold andThen. rewrite length_app in Hl.
  rewrite <- (take_drop (length b) mid), <- !app_assoc, (app_assoc pre (take _ _)).
  assert (Hz : zlen (pre ++ take (length b) mid) = zlen pre + zlen b).
  { rewrite zlen_app. unfold zlen. rewrite length_take. lia. }
  replace (zlen pre + zlen (b ++ a)) with (zlen (pre ++ take (length b) mid) + zlen a)
    by (rewrite Hz, zlen_app; lia).
  rewrite H1 by (rewrite length_drop; lia). cbn [mbind res_bind].
  rewrite Hz, <- !app_assoc. apply (H2 pre (take (length b) mid) (a ++ post)). rewrite length_take. lia.
Qed.

Lemma writes_nil w : (forall d i, w d i = Ok (d, i)) -> writes w [].
Proof.
  intros H pre mid post Hl. destruct mid; [|done]. cbn [app]. rewrite H.
  change (zlen []) with 0. by rewrite Z.add_0_r.
Qed.

Lemma writes_when (c : bool) w bz :
  (c = true -> writes w bz) -> writes (when c w) (if c then bz else []).
Proof. destruct c; intros H; [by apply H|]. by apply writes_nil. Qed.

Lemma writes_put_byte b : writes (put_byte b) [byte_of_Z b].
Proof.
  intros pre mid post Hl. destruct mid as [|x [|]]; [done| |done]. unfold put_byte.
  change (zlen [byte_of_Z b]) with 1. replace (zlen pre + 1 - 1) with (zlen pre) by lia.
  cbn [app]. by rewrite set_byte_app.
Qed.

Lemma writes_put_copy bz : writes (put_copy bz) bz.
Proof.
  intros pre mid post Hl. unfold put_copy, copy_at.
  replace (zlen pre + zlen bz - zlen bz) with (zlen pre) by lia.
  pose proof (zlen_nonneg pre). rewrite zlen_app. pose proof (zlen_nonneg (mid ++ post)).
  rewrite !(proj2 (Z.ltb_ge _ _)) by lia. cbn [orb mbind res_bind].
  unfold zlen. rewrite Nat2Z.id, !length_app, Hl.
  replace (length bz `min` _)%nat with (length bz) by lia.
  rewrite take_app_length, firstn_all, <- Hl, drop_app_add, drop_app_length. done.
Qed.

Lemma writes_encodeVarint v : 0 <= v < 2 ^ 64 -> writes (encodeVarint v) (PutUvarint v).
Proof.
  intros Hv pre mid post Hl. unfold encodeVarint.
  rewrite zlen_PutUvarint_sov by done. replace (zlen pre + sov v - sov v) with (zlen pre) by lia.
  rewrite encode_loop_app; [done|done| |done].
  split; [lia|]. apply Z.lt_le_trans with (2 ^ 64); [lia|]. by apply Z.pow_le_mono_r.
Qed.

Lemma writes_message tag w bz :
  zlen bz < 2 ^ 64 -> writes w bz -> writes (put_message_field tag w) (field_bytes tag bz).
Proof.
  intros Hb Hw pre mid post Hl. unfold put_message_field, field_bytes in *.
  change (byte_of_Z tag :: PutUvarint (zlen bz) ++ bz)
    with (([byte_of_Z tag] ++ PutUvarint (zlen bz)) ++ bz) in *.
  set (h := [byte_of_Z tag] ++ PutUvarint (zlen bz)) in *. rewrite length_app in Hl.
  rewrite <- (take_drop (length h) mid), <- !app_assoc, (app_assoc pre (take _ _)).
  assert (Hz : zlen (pre ++ take (length h) mid) = zlen pre + zlen h).
  { rewrite zlen_app. unfold zlen. rewrite length_take. lia. }
  replace (zlen pre + zlen (h ++ bz)) with (zlen (pre ++ take (length h) mid) + zlen bz)
    by (rewrite Hz, zlen_app; lia).
  rewrite Hw by (rewrite length_drop; lia). cbn [mbind res_bind].
  replace (zlen (pre ++ take (length h) mid) + zlen bz - zlen (pre ++ take (length h) mid))
    with (zlen bz) by lia.
  rewrite Hz, <- !app_assoc. pose proof (zlen_nonneg bz).
  apply (writes_andThen _ _ _ _ (writes_encodeVarint (zlen bz) ltac:(lia)) (writes_put_byte tag)).
  rewrite length_take. subst h. lia.
Qed.

Lemma writes_bytes_field tag bz :
  zlen bz < 2 ^ 64 -> writes (put_bytes_field tag bz) (bytes_bytes tag bz).
Proof.
  intros Hb. unfold put_bytes_field, bytes_bytes. pose proof (zlen_nonneg bz).
  destruct bz as [|x bz]; [by apply writes_nil|]. set (b := x :: bz) in *.
  rewrite (proj2 (Z.ltb_lt _ _)) by (subst b; rewrite zlen_cons; pose proof (zlen_nonneg bz); lia).
  unfold when, field_bytes. change (byte_of_Z tag :: ?a) with ([byte_of_Z tag] ++ a).
  apply writes_andThen; [apply writes_andThen|]; auto using writes_put_copy, writes_put_byte, writes_encodeVarint.
Qed.

Lemma writes_bool_field tag b : writes (put_bool_field tag b) (bool_bytes tag b).
Proof.
  apply (writes_when b _ [byte_of_Z tag; byte_of_Z 1]). intros _.
  apply (writes_andThen _ _ [_] [_]); apply writes_put_byte.
Qed.

Lemma writes_int_field tag v : writes (put_int_field tag v) (int_bytes tag v).
Proof.
  unfold put_int_field, int_bytes. destruct (v =? 0); [by apply writes_nil|].
  apply (writes_andThen _ _ _ [_]); [apply writes_encodeVarint, u64_range|apply writes_put_byte].
Qed.

Lemma writes_repeated {A} tag (w : A -> writer) (f : A -> bytes) l :
  zlen (repeated_bytes tag f l) < 2 ^ 64 ->
  (forall x, zlen (f x) <= zlen (repeated_bytes tag f l) -> writes (w x) (f x)) ->
  writes (put_repeated tag w l) (repeated_bytes tag f l).
Proof.
  unfold repeated_bytes. induction l as [|x l IH]; intros Hl Hw; [by apply writes_nil|].
  cbn [map concat put_repeated] in *. rewrite zlen_app in *.
  assert (zlen (f x) <= zlen (field_bytes tag (f x))).
  { unfold field_bytes. rewrite zlen_cons, zlen_app. pose proof (zlen_nonneg (PutUvarint (zlen (f x)))). lia. }
  pose proof (zlen_nonneg (f x)).
  pose proof (zlen_nonneg (concat (map (fun x => field_bytes tag (f x)) l))).
  apply writes_andThen.
  - apply IH; [lia|]. intros y Hy. apply Hw. lia.
  - apply writes_message; [lia|]. apply Hw. lia.
Qed.

(** Bounds on the parts of a message, for the side conditions on lengths. *)
Lemma zlen_field_bytes tag bz : zlen (field_bytes tag bz) = 1 + zlen (PutUvarint (zlen bz)) + zlen bz.
Proof. unfold field_bytes. rewrite zlen_cons, zlen_app. lia. Qed.
Lemma zlen_bytes_bytes tag bz : zlen bz <= zlen (bytes_bytes tag bz).
Proof.
  destruct bz; [done|]. unfold bytes_bytes. rewrite zlen_field_bytes.
  pose proof (zlen_nonneg (PutUvarint (zlen (b :: bz)))). lia.
Qed.

Ltac wire_len :=
  rewrite ?zlen_app, ?zlen_field_bytes, ?zlen_app in *;
  repeat match goal with
  | |- context [bytes_bytes ?t ?bz] => learn_len t bz
  | H : context [bytes_bytes ?t ?bz] |- _ => learn_len t bz
  end;
  repeat match goal with
  | |- context [zlen ?x] =>
      lazymatch goal with H : 0 <= zlen x |- _ => fail | _ => pose proof (zlen_nonneg x) end
  | _ : context [zlen ?x] |- _ =>
      lazymatch goal with H : 0 <= zlen x |- _ => fail | _ => pose proof (zlen_nonneg x) end
  end; lia
with learn_len t bz :=
  lazymatch goal with
  | H : zlen bz <= zlen (bytes_bytes t bz) |- _ => fail
  | _ => pose proof (zlen_bytes_bytes t bz)
  end.

#[export] Hint Resolve writes_andThen writes_bytes_field writes_bool_field writes_int_field
  writes_message writes_repeated : proto.
#[export] Hint Extern 5 (_ < _) => wire_len : proto.

Lemma KVPair_writes m :
  zlen (KVPair_bytes m) < 2 ^ 64 -> writes (KVPair_MarshalToSizedBuffer m) (KVPair_bytes m).
Proof. unfold KVPair_bytes. intros H. apply writes_andThen; [apply writes_andThen|]; auto with proto. Qed.

Lemma ChangeSet_writes m :
  zlen (ChangeSet_bytes m) < 2 ^ 64 -> writes (ChangeSet_MarshalToSizedBuffer m) (ChangeSet_bytes m).
Proof.
  intros H. apply writes_repeated; [done|]. intros p Hp. apply KVPair_writes.
  unfold ChangeSet_bytes in H. lia.
Qed.

Lemma NamedChangeSet_writes m :
  zlen (NamedChangeSet_bytes m) < 2 ^ 64 ->
  writes (NamedChangeSet_MarshalToSizedBuffer m) (NamedChangeSet_bytes m).
Proof.
  unfold NamedChangeSet_bytes. intros H. apply writes_andThen; [auto with proto|].
  apply writes_message; [wire_len|]. apply ChangeSet_writes. wire_len.
Qed.

Lemma TreeNameUpgrade_writes m :
  zlen (TreeNameUpgrade_bytes m) < 2 ^ 64 ->
  writes (TreeNameUpgrade_MarshalToSizedBuffer m) (TreeNameUpgrade_bytes m).
Proof. unfold TreeNameUpgrade_bytes. intros H. apply writes_andThen; [apply writes_andThen|]; auto with proto. Qed.

Lemma WALEntry_writes m :
  zlen (WALEntry_bytes m) < 2 ^ 64 -> writes (WALEntry_MarshalToSizedBuffer m) (WALEntry_bytes m).
Proof.
  unfold WALEntry_bytes. intros H. apply writes_andThen; apply writes_repeated; try wire_len.
  - intros u Hu. apply TreeNameUpgrade_writes. wire_len.
  - intros c Hc. apply NamedChangeSet_writes. wire_len.
Qed.

Lemma CommitInfo_writes m :
  zlen (CommitInfo_bytes m) < 2 ^ 64 -> writes (CommitInfo_MarshalToSizedBuffer m) (CommitInfo_bytes m).
Proof.
  unfold CommitInfo_bytes. intros H. apply writes_andThen; [|apply writes_int_field].
  apply writes_repeated; [wire_len|]. intros s Hs.
  assert (zlen (StoreInfo_bytes s) < 2 ^ 64) as Hb by wire_len. clear H Hs.
  unfold StoreInfo_bytes in *. apply writes_andThen; [|apply writes_bytes_field; wire_len].
  apply writes_message; [wire_len|]. unfold CommitID_bytes in *.
  apply writes_andThen; [apply writes_bytes_field; wire_len|apply writes_int_field].
Qed.

Lemma MultiTreeMetadata_writes m :
  zlen (MultiTreeMetadata_bytes m) < 2 ^ 64 ->
  writes (MultiTreeMetadata_MarshalToSizedBuffer m) (MultiTreeMetadata_bytes m).
Proof.
  unfold MultiTreeMetadata_bytes, MultiTreeMetadata_MarshalToSizedBuffer.
  intros H. apply writes_andThen; [apply writes_int_field|].
  destruct (md_CommitInfo m); [|by apply writes_nil].
  apply writes_message; [wire_len|]. apply CommitInfo_writes. wire_len.
Qed.

(** ** [Size] *)

Lemma size_bytes_len tag bz : zlen bz < 2 ^ 64 -> size_bytes bz = zlen (bytes_bytes tag bz).
Proof.
  intros H. unfold size_bytes, bytes_bytes. destruct bz as [|x bz]; [done|]. set (b := x :: bz) in *.
  rewrite (proj2 (Z.ltb_lt _ _)) by (subst b; rewrite zlen_cons; pose proof (zlen_nonneg bz); lia).
  pose proof (zlen_nonneg b). rewrite zlen_field_bytes, u64_small, zlen_PutUvarint_sov; lia.
Qed.
Lemma size_bool_len tag b : size_bool b = zlen (bool_bytes tag b).
Proof. by destruct b. Qed.
Lemma size_int_len tag v : size_int v = zlen (int_bytes tag v).
Proof.
  unfold size_int, int_bytes. destruct (v =? 0); [done|].
  rewrite zlen_cons, zlen_PutUvarint_sov by apply u64_range. done.
Qed.
Lemma size_message_len tag bz l :
  zlen bz < 2 ^ 64 -> l = zlen bz -> size_message l = zlen (field_bytes tag bz).
Proof.
  intros H ->. unfold size_message. pose proof (zlen_nonneg bz).
  rewrite zlen_field_bytes, u64_small, zlen_PutUvarint_sov; lia.
Qed.
Lemma size_repeated_len {A} tag (f : A -> bytes) (size : A -> Z) l :
  zlen (repeated_bytes tag f l) < 2 ^ 64 ->
  (forall x, zlen (f x) <= zlen (repeated_bytes tag f l) -> size x = zlen (f x)) ->
  size_repeated size l = zlen (repeated_bytes tag f l).
Proof.
  unfold size_repeated, repeated_bytes. intros Hl Hs.
  enough (G : forall n, foldl (fun n x => n + size_message (size x)) n l =
    n + zlen (concat (map (fun x => field_bytes tag (f x)) l))) by (rewrite G; lia).
  induction l as [|x l IH]; intros n; cbn [foldl map concat] in *; [change (zlen []) with 0; lia|].
  rewrite (size_message_len tag (f x)); [|wire_len|apply Hs; wire_len].
  rewrite IH; [wire_len|wire_len|]. intros y Hy. apply Hs. wire_len.
Qed.

#[export] Hint Resolve size_bytes_len size_bool_len size_int_len size_message_len size_repeated_len : proto.

Lemma KVPair_size m : zlen (KVPair_bytes m) < 2 ^ 64 -> KVPair_Size m = zlen (KVPair_bytes m).
Proof.
  unfold KVPair_bytes, KVPair_Size. intros H. rewrite !zlen_app.
  rewrite (size_bool_len 0x8), (size_bytes_len 0x12), (size_bytes_len 0x1a); wire_len.
Qed.

Lemma ChangeSet_size m : zlen (ChangeSet_bytes m) < 2 ^ 64 -> ChangeSet_Size m = zlen (ChangeSet_bytes m).
Proof.
  intros H. apply size_repeated_len; [done|]. intros p Hp. apply KVPair_size.
  unfold ChangeSet_bytes in H. lia.
Qed.

Lemma NamedChangeSet_size m :
  zlen (NamedChangeSet_bytes m) < 2 ^ 64 -> NamedChangeSet_Size m = zlen (NamedChangeSet_bytes m).
Proof.
  unfold NamedChangeSet_bytes, NamedChangeSet_Size. intros H. rewrite zlen_app.
  rewrite (size_message_len 0xa (ChangeSet_bytes (ncs_Changeset m))), (size_bytes_len 0x12);
    [done|wire_len..|]. apply ChangeSet_size. wire_len.
Qed.

Lemma TreeNameUpgrade_size m :
  zlen (TreeNameUpgrade_bytes m) < 2 ^ 64 -> TreeNameUpgrade_Size m = zlen (TreeNameUpgrade_bytes m).
Proof.
  unfold TreeNameUpgrade_bytes, TreeNameUpgrade_Size. intros H. rewrite !zlen_app.
  rewrite (size_bool_len 0x18), (size_bytes_len 0xa), (size_bytes_len 0x12); wire_len.
Qed.

Lemma WALEntry_size m : zlen (WALEntry_bytes m) < 2 ^ 64 -> WALEntry_Size m = zlen (WALEntry_bytes m).
Proof.
  unfold WALEntry_bytes, WALEntry_Size. intros H. rewrite zlen_app.
  rewrite (size_repeated_len 0xa NamedChangeSet_bytes), (size_repeated_len 0x12 TreeNameUpgrade_bytes);
    [done|wire_len| |wire_len|].
  - intros u Hu. apply TreeNameUpgrade_size. wire_len.
  - intros c Hc. apply NamedChangeSet_size. wire_len.
Qed.

Lemma CommitInfo_size m : zlen (CommitInfo_bytes m) < 2 ^ 64 -> CommitInfo_Size m = zlen (CommitInfo_bytes m).
Proof.
  unfold CommitInfo_bytes, CommitInfo_Size. intros H. rewrite zlen_app, (size_int_len 0x8). f_equal.
  apply size_repeated_len; [wire_len|]. intros s Hs.
  assert (zlen (StoreInfo_bytes s) < 2 ^ 64) as Hb by wire_len. clear H Hs.
  unfold StoreInfo_bytes, StoreInfo_Size in *. rewrite zlen_app, (size_bytes_len 0xa) by wire_len.
  rewrite (size_message_len 0x12 (CommitID_bytes (si_CommitId s))); [done|wire_len|].
  unfold CommitID_bytes, CommitID_Size in *. rewrite zlen_app, (size_int_len 0x8), (size_bytes_len 0x12); wire_len.
Qed.

Lemma MultiTreeMetadata_size m :
  zlen (MultiTreeMetadata_bytes m) < 2 ^ 64 -> MultiTreeMetadata_Size m = zlen (MultiTreeMetadata_bytes m).
Proof.
  unfold MultiTreeMetadata_bytes, MultiTreeMetadata_Size. intros H.
  rewrite zlen_app, (size_int_len 0x10). f_equal. destruct (md_CommitInfo m) as [c|]; [|done].
  apply size_message_len; [wire_len|]. apply CommitInfo_size. wire_len.
Qed.

Lemma marshal_writes size w bz : size = zlen bz -> writes w bz -> marshal size w = Ok bz.
Proof.
  intros -> Hw. unfold marshal. specialize (Hw [] (replicate (Z.to_nat (zlen bz)) Byte.x00) []).
  rewrite !app_nil_r in Hw. cbn [app] in Hw. change (zlen [] + zlen bz) with (zlen bz) in Hw.
  rewrite Hw by (rewrite length_replicate; unfold zlen; lia). cbn [mbind res_bind].
  change (zlen []) with 0. unfold zlen. rewrite Z.sub_0_r, Nat2Z.id, firstn_all. done.
Qed.

Lemma WALEntry_Marshal_bytes m :
  zlen (WALEntry_bytes m) < 2 ^ 64 -> WALEntry_Marshal m = Ok (WALEntry_bytes m).
Proof. intros H. apply marshal_writes; [by apply WALEntry_size|by apply WALEntry_writes]. Qed.

Lemma MultiTreeMetadata_Marshal_bytes m :
  zlen (MultiTreeMetadata_bytes m) < 2 ^ 64 -> MultiTreeMetadata_Marshal m = Ok (MultiTreeMetadata_bytes m).
Proof. intros H. apply marshal_writes; [by apply MultiTreeMetadata_size|by apply MultiTreeMetadata_writes]. Qed.
