(* ===== verification/ProtoCodec.v ===== *)
(** * Reading the messages back

    The loop of [Unmarshal] over the bytes of a message: it terminates on every input, and
    on the bytes [Marshal] writes it returns the message.  The only information lost is
    the difference between an empty and an absent value. *)

From Stdlib Require Import Strings.Byte ZArith Lia.
From stdpp Require Import base list numbers strings.
From S2P Require Import Prelude Binary Proto ProtoInv.
Local Open Scope Z_scope.

(** ** Reading a varint *)

(** A varint [ReadUvarint] accepts is read the same way here. *)
Lemma varint_loop_read data i acc v :
  0 <= i <= 9 -> read_uvarint_loop data i acc (7 * i) = Ok v -> varint_loop data (7 * i) acc = Ok v.
Proof.
  revert i acc. induction data as [|b data IH]; intros i acc Hi H.
  { exfalso. cbn in H. unfold MaxVarintLen64 in H.
    destruct (i =? 10); [done|]. by destruct (0 <? i). }
  cbn [varint_loop read_uvarint_loop] in *. unfold MaxVarintLen64 in H.
  rewrite (proj2 (Z.eqb_neq i 10)) in H by lia. rewrite (proj2 (Z.leb_gt _ _)) by lia.
  pose proof (byte_to_Z_range b). destruct (Z.ltb_spec (byte_to_Z b) 128).
  - destruct (_ && _); [done|]. change 127 with (Z.ones 7). rewrite Z.land_ones by lia.
    by rewrite (Z.mod_small (byte_to_Z b)) by (change (2 ^ 7) with 128; lia).
  - replace (7 * i + 7) with (7 * (i + 1)) in * by lia.
    destruct (decide (i = 9)) as [->|]; [|apply IH; [lia|done]].
    exfalso. change (9 + 1) with 10 in H. destruct data; by cbn in H.
Qed.

Lemma read_varint_put x rest : 0 <= x < 2 ^ 64 -> read_varint (PutUvarint x ++ rest) = Ok (x, rest).
Proof. intros Hx. apply (varint_loop_read _ 0); [lia|]. by apply ReadUvarint_PutUvarint. Qed.

Lemma read_varint_byte x rest : 0 <= x < 128 -> read_varint (byte_of_Z x :: rest) = Ok (x, rest).
Proof.
  intros Hx. rewrite <- (read_varint_put x) by lia. unfold PutUvarint.
  by rewrite put_uvarint_small by lia.
Qed.

Lemma varint_loop_shorter data shift acc v rest :
  varint_loop data shift acc = Ok (v, rest) -> (length rest < length data)%nat.
Proof.
  revert shift acc. induction data as [|b data IH]; intros shift acc; cbn [varint_loop];
    destruct (64 <=? shift); try done.
  destruct (_ <? 128); [intros [= _ <-]; simpl; lia|]. intros H. apply IH in H. simpl. lia.
Qed.

(** ** Termination *)

Lemma read_delimited_shorter l data bz rest :
  read_delimited l data = Ok (bz, rest) -> (length rest < length data)%nat.
Proof.
  unfold read_delimited. intros H. apply res_bind_ok in H as ([len r] & Hv & H).
  apply varint_loop_shorter in Hv.
  repeat match type of H with (if ?c then _ else _) = _ => destruct c; [done|] end.
  injection H as _ <-. rewrite length_drop. lia.
Qed.

(** A value that does not overflow the index moves it forward. *)
Lemma skip_value_progress l wireType rest depth i d :
  0 <= zlen rest <= l -> l < 2 ^ 63 ->
  skip_value l wireType rest depth = Ok (i, d) -> 0 <= i -> l - zlen rest <= i.
Proof.
  intros Hr Hl H Hi. unfold skip_value in H.
  repeat case_match; simplify_eq; try lia.
  - apply res_bind_ok in H as ([? r] & Hv & H). injection H as <- _.
    apply varint_loop_shorter in Hv. unfold zlen in *. lia.
  - apply res_bind_ok in H as ([len r] & Hv & H). apply varint_loop_shorter in Hv.
    destruct (Z.ltb_spec (i64 len) 0); [done|]. injection H as <- _. unfold i64 in *.
    pose proof (Z.mod_pos_bound (len + 2 ^ 63) (2 ^ 64)). pose proof (zlen_nonneg r).
    assert (zlen r < zlen rest) by (unfold zlen; lia).
    destruct (Z.lt_ge_cases (l - zlen r + ((len + 2 ^ 63) mod 2 ^ 64 - 2 ^ 63)) (2 ^ 63)).
    + rewrite (Z.mod_small (_ + 2 ^ 63) (2 ^ 64)); lia.
    + assert (E : (l - zlen r + ((len + 2 ^ 63) mod 2 ^ 64 - 2 ^ 63) + 2 ^ 63) mod 2 ^ 64 =
        l - zlen r + ((len + 2 ^ 63) mod 2 ^ 64 - 2 ^ 63) + 2 ^ 63 - 2 ^ 64); [|lia].
      symmetry. apply (Z.mod_unique_pos _ _ 1); lia.
Qed.

(** One round of [skip]: it fails, returns, or continues further on. *)
Lemma skip_round data iNdEx wire rest depth i d :
  zlen data < 2 ^ 63 -> 0 <= iNdEx < zlen data ->
  read_varint (drop (Z.to_nat iNdEx) data) = Ok (wire, rest) ->
  skip_value (zlen data) (Z.land wire 7) rest depth = Ok (i, d) -> 0 <= i -> iNdEx < i.
Proof.
  intros Hl Hlt Hw Hn Hi. apply varint_loop_shorter in Hw. rewrite length_drop in Hw.
  assert (Hr : iNdEx < zlen data - zlen rest) by (unfold zlen in *; lia). clear Hw.
  apply skip_value_progress in Hn; [lia|pose proof (zlen_nonneg rest); lia|done|done].
Qed.

(** [skip] needs one round per byte at most: more fuel does not change its result. *)
Lemma skip_loop_fuel f1 f2 data iNdEx depth :
  zlen data < 2 ^ 63 -> 0 <= iNdEx ->
  (Z.to_nat (zlen data - iNdEx) < f1)%nat -> (Z.to_nat (zlen data - iNdEx) < f2)%nat ->
  skip_loop f1 data iNdEx depth = skip_loop f2 data iNdEx depth.
Proof.
  intros Hl. revert f2 iNdEx depth. induction f1 as [|f1 IH]; intros f2 iNdEx depth Hi H1 H2; [lia|].
  destruct f2 as [|f2]; [lia|]. cbn [skip_loop].
  destruct (Z.ltb_spec iNdEx (zlen data)) as [Hlt|]; [cbn [negb]|done].
  destruct (read_varint _) as [[wire rest]| |] eqn:Hw; [cbn [mbind res_bind]|done..].
  destruct (skip_value _ _ _ _) as [[i d]| |] eqn:Hn; [cbn [mbind res_bind]|done..].
  destruct (Z.ltb_spec i 0); [done|]. destruct (d =? 0); [done|].
  assert (iNdEx < i) by (eapply skip_round; [exact Hl| |exact Hw|exact Hn|]; lia). apply IH; lia.
Qed.

Lemma skip_loop_progress fuel data iNdEx depth n :
  zlen data < 2 ^ 63 -> 0 <= iNdEx -> skip_loop fuel data iNdEx depth = Ok n -> iNdEx < n.
Proof.
  intros Hl. revert iNdEx depth. induction fuel as [|fuel IH]; intros iNdEx depth Hi H; [done|].
  cbn [skip_loop] in H. destruct (Z.ltb_spec iNdEx (zlen data)) as [Hlt|]; [cbn [negb] in H|done].
  apply res_bind_ok in H as ([wire rest] & Hw & H). apply res_bind_ok in H as ([i d] & Hn & H).
  destruct (Z.ltb_spec i 0); [done|].
  assert (iNdEx < i) by (eapply skip_round; [exact Hl| |exact Hw|exact Hn|]; lia).
  destruct (d =? 0); [by injection H as <-|]. apply IH in H; lia.
Qed.

Section loop.
Context {M : Type} (field : Z -> Z -> Z -> bytes -> M -> res (option (M * bytes))).

(** The cases of a switch consume bytes. *)
Definition consumes : Prop := forall num wt l rest m m' rest',
  field num wt l rest m = Ok (Some (m', rest')) -> (length rest' <= length rest)%nat.
Context (Hc : consumes).

(** The loop needs one round per byte at most. *)
Lemma unmarshal_loop_fuel f1 f2 l data m :
  zlen data < 2 ^ 63 -> (length data < f1)%nat -> (length data < f2)%nat ->
  unmarshal_loop field f1 l data m = unmarshal_loop field f2 l data m.
Proof using Hc.
  revert f2 data m. induction f1 as [|f1 IH]; intros f2 data m Hl H1 H2; [lia|].
  destruct f2 as [|f2]; [lia|]. cbn [unmarshal_loop].
  destruct data as [|b data]; [done|]. set (dAtA := b :: data) in *.
  destruct (read_varint dAtA) as [[wire rest]| |] eqn:Hw; [cbn [mbind res_bind]|done..].
  apply varint_loop_shorter in Hw.
  destruct (_ =? 4); [done|]. destruct (_ <=? 0); [done|].
  destruct (field _ _ _ _ _) as [[[m' rest']|]| |] eqn:Hf; cbn [mbind res_bind]; [| |done..].
  - apply Hc in Hf. apply IH; unfold zlen in *; lia.
  - destruct (skip dAtA) as [n| |] eqn:Hs; [cbn [mbind res_bind]|done..].
    apply skip_loop_progress in Hs; [|done|lia].
    destruct (_ || _); [done|]. destruct (_ <? _); [done|].
    assert (0 < length dAtA)%nat by (subst dAtA; simpl; lia).
    apply IH; unfold zlen in *; rewrite length_drop; lia.
Qed.

(** The rest of the loop, and what a prefix of the data does to the message. *)
Definition continue_ (l : Z) (data : bytes) (m : M) : res M :=
  unmarshal_loop field (S (length data)) l data m.
Definition reads (bz : bytes) (m m' : M) : Prop := forall rest l,
  zlen (bz ++ rest) <= l < 2 ^ 63 -> continue_ l (bz ++ rest) m = continue_ l rest m'.

Lemma reads_nil m : reads [] m m.
Proof using Type. done. Qed.

Lemma reads_app a b m m' m'' : reads a m m' -> reads b m' m'' -> reads (a ++ b) m m''.
Proof using Type.
  intros Ha Hb rest l Hl. rewrite <- app_assoc, Ha; [|by rewrite app_assoc].
  apply Hb. rewrite <- app_assoc, zlen_app in Hl. pose proof (zlen_nonneg a). lia.
Qed.

Lemma unmarshal_reads bz m m' : zlen bz < 2 ^ 63 -> reads bz m m' -> unmarshal field m bz = Ok m'.
Proof using Type.
  intros Hl H. specialize (H [] (zlen bz)). rewrite app_nil_r in H. unfold unmarshal.
  fold (continue_ (zlen bz) bz m). rewrite H; [done|]. lia.
Qed.

(** One field: its tag byte, then what the switch does on the bytes after it. *)
Lemma reads_field num wt bz m m' :
  0 < num < 16 -> 0 <= wt < 8 -> wt <> 4 ->
  (forall rest l, zlen (bz ++ rest) < l < 2 ^ 63 ->
     field num wt l (bz ++ rest) m = Ok (Some (m', rest))) ->
  reads (byte_of_Z (8 * num + wt) :: bz) m m'.
Proof using Hc.
  intros Hn Hw H4 H rest l Hl. unfold continue_ at 1. cbn [unmarshal_loop app].
  assert (E : Z.shiftr (8 * num + wt) 3 = num /\ Z.land (8 * num + wt) 7 = wt).
  { rewrite Z.shiftr_div_pow2 by lia. change 7 with (Z.ones 3). rewrite Z.land_ones by lia.
    change (2 ^ 3) with 8. rewrite (Z.add_comm (8 * num)), (Z.mul_comm 8 num).
    rewrite Z.div_add, Z.div_small, Z.mod_add, Z.mod_small; lia. }
  rewrite read_varint_byte by lia. cbn [mbind res_bind]. destruct E as [-> ->].
  rewrite (proj2 (Z.eqb_neq wt 4)) by done.
  unfold i32. rewrite Z.mod_small by lia. replace (num + 2 ^ 31 - 2 ^ 31) with num by lia.
  rewrite (proj2 (Z.leb_gt num 0)) by lia. cbn [app] in Hl. rewrite zlen_cons in Hl.
  rewrite H by lia. cbn [mbind res_bind]. rewrite zlen_app in Hl. pose proof (zlen_nonneg bz).
  apply unmarshal_loop_fuel; [lia|simpl; rewrite length_app; lia|lia].
Qed.
End loop.

Lemma varint_field_consumes {M} (set : Z -> M -> M) wt rest m m' rest' :
  varint_field set wt rest m = Ok (Some (m', rest')) -> (length rest' <= length rest)%nat.
Proof.
  unfold varint_field. destruct (negb _); [done|]. intros H. apply res_bind_ok in H as ([v r] & Hv & H).
  apply varint_loop_shorter in Hv. injection H as _ <-. lia.
Qed.
Lemma delimited_field_consumes {M} (set : bytes -> M -> res M) l wt rest m m' rest' :
  delimited_field set l wt rest m = Ok (Some (m', rest')) -> (length rest' <= length rest)%nat.
Proof.
  unfold delimited_field. destruct (negb _); [done|]. intros H. apply res_bind_ok in H as ([v r] & Hv & H).
  apply read_delimited_shorter in Hv. apply res_bind_ok in H as (? & _ & H). injection H as _ <-. lia.
Qed.

Ltac consume :=
  intros num wt l rest m m' rest' H; cbv beta delta
    [KVPair_field ChangeSet_field NamedChangeSet_field TreeNameUpgrade_field WALEntry_field
     CommitID_field StoreInfo_field CommitInfo_field MultiTreeMetadata_field] in H;
  repeat match type of H with (if ?c then _ else _) = _ => destruct c end;
  eauto using varint_field_consumes, delimited_field_consumes; done.

Lemma KVPair_consumes : consumes KVPair_field.
Proof. consume. Qed.
Lemma ChangeSet_consumes : consumes ChangeSet_field.
Proof. consume. Qed.
Lemma NamedChangeSet_consumes : consumes NamedChangeSet_field.
Proof. consume. Qed.
Lemma TreeNameUpgrade_consumes : consumes TreeNameUpgrade_field.
Proof. consume. Qed.
Lemma WALEntry_consumes : consumes WALEntry_field.
Proof. consume. Qed.
Lemma CommitID_consumes : consumes CommitID_field.
Proof. consume. Qed.
Lemma StoreInfo_consumes : consumes StoreInfo_field.
Proof. consume. Qed.
Lemma CommitInfo_consumes : consumes CommitInfo_field.
Proof. consume. Qed.
Lemma MultiTreeMetadata_consumes : consumes MultiTreeMetadata_field.
Proof. consume. Qed.

#[export] Hint Resolve KVPair_consumes ChangeSet_consumes NamedChangeSet_consumes
  TreeNameUpgrade_consumes WALEntry_consumes CommitID_consumes StoreInfo_consumes
  CommitInfo_consumes MultiTreeMetadata_consumes : proto.

(** ** Fields *)

Lemma read_delimited_put l bz rest :
  zlen (PutUvarint (zlen bz) ++ bz ++ rest) <= l < 2 ^ 63 ->
  read_delimited l (PutUvarint (zlen bz) ++ bz ++ rest) = Ok (bz, rest).
Proof.
  rewrite !zlen_app. intros Hl. unfold read_delimited.
  pose proof (zlen_nonneg bz). pose proof (zlen_nonneg rest). pose proof (zlen_nonneg (PutUvarint (zlen bz))).
  rewrite read_varint_put by lia. cbn [mbind res_bind].
  rewrite (i64_small (zlen bz)) by lia. rewrite (proj2 (Z.ltb_ge (zlen bz) 0)) by lia.
  rewrite i64_small by (rewrite zlen_app; lia).
  rewrite (proj2 (Z.ltb_ge _ 0)) by (rewrite zlen_app; lia).
  rewrite (proj2 (Z.ltb_ge _ _)) by (rewrite zlen_app; lia).
  unfold zlen. rewrite Nat2Z.id, take_app_length, drop_app_length. done.
Qed.

Section fields.
Context {M : Type} (field : Z -> Z -> Z -> bytes -> M -> res (option (M * bytes))).
Context (Hc : consumes field).

Lemma reads_delimited num (set : bytes -> M -> res M) bz m m' :
  0 < num < 16 ->
  (forall l rest, field num 2 l rest m = delimited_field set l 2 rest m) ->
  set bz m = Ok m' -> reads field (field_bytes (8 * num + 2) bz) m m'.
Proof using Hc.
  intros Hn Hf Hs. apply reads_field; [done..|lia|lia|]. intros rest l Hl.
  rewrite Hf. unfold delimited_field. cbn [negb Z.eqb Pos.eqb].
  rewrite <- app_assoc in *. rewrite read_delimited_put by lia. cbn [mbind res_bind]. by rewrite Hs.
Qed.

Lemma reads_bytes num (set : bytes -> M -> res M) bz m m' :
  0 < num < 16 ->
  (forall l rest, field num 2 l rest m = delimited_field set l 2 rest m) ->
  (bz = [] -> m' = m) -> (bz <> [] -> set bz m = Ok m') ->
  reads field (bytes_bytes (8 * num + 2) bz) m m'.
Proof using Hc.
  intros Hn Hf H0 Hs. destruct bz as [|x bz]; [rewrite H0 by done; apply reads_nil|].
  by apply (reads_delimited num set); [| |apply Hs].
Qed.

Lemma reads_varint num (set : Z -> M -> M) v m :
  0 < num < 16 -> 0 <= v < 2 ^ 64 ->
  (forall l rest, field num 0 l rest m = varint_field set 0 rest m) ->
  reads field (byte_of_Z (8 * num + 0) :: PutUvarint v) m (set v m).
Proof using Hc.
  intros Hn Hv Hf. apply reads_field; [done..|lia|lia|]. intros rest l Hl.
  rewrite Hf. unfold varint_field. cbn [negb Z.eqb]. by rewrite read_varint_put.
Qed.

Lemma reads_int num (set : Z -> M -> M) v m m' :
  0 < num < 16 -> (forall l rest, field num 0 l rest m = varint_field set 0 rest m) ->
  (v = 0 -> m' = m) -> set (u64 v) m = m' ->
  reads field (int_bytes (8 * num + 0) v) m m'.
Proof using Hc.
  intros Hn Hf H0 <-. unfold int_bytes. destruct (Z.eqb_spec v 0) as [->|].
  - rewrite H0 by done. apply reads_nil.
  - apply reads_varint; [done|apply u64_range|done].
Qed.

Lemma reads_bool num (set : Z -> M -> M) (b : bool) m m' :
  0 < num < 16 -> (forall l rest, field num 0 l rest m = varint_field set 0 rest m) ->
  (b = false -> m' = m) -> (b = true -> set 1 m = m') ->
  reads field (bool_bytes (8 * num + 0) b) m m'.
Proof using Hc.
  intros Hn Hf H0 H1. destruct b; [|rewrite H0 by done; apply reads_nil].
  rewrite <- H1 by done. by apply (reads_varint num set 1).
Qed.

(** A repeated field, when [add] appends an element to the message. *)
Lemma reads_repeated {A} num (f : A -> bytes) (unm : bytes -> res A) (norm : A -> A)
    (add : A -> M -> M) l :
  0 < num < 16 ->
  (forall m l rest, field num 2 l rest m =
     delimited_field (fun bz m => x ← unm bz; Ok (add x m)) l 2 rest m) ->
  Forall (fun x => unm (f x) = Ok (norm x)) l ->
  forall m, reads field (repeated_bytes (8 * num + 2) f l) m (foldl (fun m x => add (norm x) m) m l).
Proof using Hc.
  intros Hn Hf Hl. unfold repeated_bytes.
  induction Hl as [|x l Hx Hl IH]; intros m; cbn [map concat foldl]; [apply reads_nil|].
  eapply reads_app; [|apply IH]. eapply (reads_delimited num); [done|apply Hf|]. cbn beta. by rewrite Hx.
Qed.
End fields.

(** ** Messages *)

(** An empty value is not written, and read back as an absent one. *)
Definition norm_value (v : option bytes) : option bytes :=
  match v with Some [] => None | v => v end.
Definition norm_pair (p : KVPair) : KVPair :=
  {| kv_Delete := kv_Delete p; kv_Key := kv_Key p; kv_Value := norm_value (kv_Value p) |}.
Definition norm_changeset (c : ChangeSet) : ChangeSet := {| Pairs := map norm_pair (Pairs c) |}.
Definition norm_named (c : NamedChangeSet) : NamedChangeSet :=
  {| ncs_Changeset := norm_changeset (ncs_Changeset c); ncs_Name := ncs_Name c |}.
Definition norm_entry (e : WALEntry) : WALEntry :=
  {| Changesets := map norm_named (Changesets e); Upgrades := Upgrades e |}.

(** The elements of a repeated field are shorter than the field. *)
Lemma repeated_bytes_each {A} tag (f : A -> bytes) (P : A -> Prop) l n :
  zlen (repeated_bytes tag f l) < n -> (forall x, x ∈ l -> zlen (f x) < n -> P x) -> Forall P l.
Proof.
  unfold repeated_bytes. induction l as [|x l IH]; intros Hl H; [done|]. cbn [map concat] in Hl.
  constructor; [apply H; [by left|wire_len]|]. apply IH; [wire_len|]. intros y Hy. apply H. by right.
Qed.

(** A message built by appending to one of its lists. *)
Lemma foldl_collect {A B M} (mk : list B -> M) (step : M -> A -> M) (f : A -> B) :
  (forall acc x, step (mk acc) x = mk (acc ++ [f x])) ->
  forall l acc, foldl step (mk acc) l = mk (acc ++ map f l).
Proof.
  intros H l. induction l as [|x l IH]; intros acc; simpl; [by rewrite app_nil_r|].
  by rewrite H, IH, <- app_assoc.
Qed.

Lemma i64_u64 v : - 2 ^ 63 <= v < 2 ^ 63 -> i64 (u64 v) = v.
Proof.
  intros Hv. unfold i64, u64. rewrite Zplus_mod_idemp_l, Z.mod_small; lia.
Qed.

Lemma KVPair_reads m : zlen (KVPair_bytes m) < 2 ^ 63 -> KVPair_Unmarshal (KVPair_bytes m) = Ok (norm_pair m).
Proof.
  intros Hl. apply unmarshal_reads; [done|]. unfold KVPair_bytes. destruct m as [d k v]. cbn [kv_Delete kv_Key kv_Value].
  eapply (reads_app _ _ _ _ {| kv_Delete := d; kv_Key := []; kv_Value := None |}).
  { eapply (reads_bool _ KVPair_consumes 1); [done|done|by intros ->|by intros ->]. }
  eapply (reads_app _ _ _ _ {| kv_Delete := d; kv_Key := k; kv_Value := None |}).
  { eapply (reads_bytes _ KVPair_consumes 2); [done|done|by intros ->|done]. }
  eapply (reads_bytes _ KVPair_consumes 3); [done|done|..]; destruct v as [[|]|]; done.
Qed.

Lemma ChangeSet_reads m :
  zlen (ChangeSet_bytes m) < 2 ^ 63 ->
  ChangeSet_Unmarshal {| Pairs := [] |} (ChangeSet_bytes m) = Ok (norm_changeset m).
Proof.
  intros Hl. apply unmarshal_reads; [done|].
  unfold norm_changeset. change (map norm_pair (Pairs m)) with ([] ++ map norm_pair (Pairs m)).
  rewrite <- (foldl_collect Build_ChangeSet (fun c p => {| Pairs := Pairs c ++ [norm_pair p] |})) by done.
  apply (reads_repeated _ ChangeSet_consumes 1 KVPair_bytes KVPair_Unmarshal norm_pair
    (fun p c => {| Pairs := Pairs c ++ [p] |})); [done|done|].
  eapply repeated_bytes_each; [exact Hl|]. intros p _. apply KVPair_reads.
Qed.

Lemma NamedChangeSet_reads m :
  zlen (NamedChangeSet_bytes m) < 2 ^ 63 ->
  NamedChangeSet_Unmarshal (NamedChangeSet_bytes m) = Ok (norm_named m).
Proof.
  intros Hl. apply unmarshal_reads; [done|]. unfold NamedChangeSet_bytes in *.
  eapply reads_app.
  - eapply (reads_delimited _ NamedChangeSet_consumes 1); [done|done|].
    cbn [ncs_Changeset NamedChangeSet_zero]. rewrite ChangeSet_reads by wire_len. done.
  - destruct m as [c n]. eapply (reads_bytes _ NamedChangeSet_consumes 2); [done|done|by simpl; intros ->|done].
Qed.

Lemma TreeNameUpgrade_reads m :
  zlen (TreeNameUpgrade_bytes m) < 2 ^ 63 -> TreeNameUpgrade_Unmarshal (TreeNameUpgrade_bytes m) = Ok m.
Proof.
  intros Hl. apply unmarshal_reads; [done|]. unfold TreeNameUpgrade_bytes. destruct m as [n r d].
  cbn [up_Name up_RenameFrom up_Delete].
  eapply (reads_app _ _ _ _ {| up_Name := n; up_RenameFrom := []; up_Delete := false |}).
  { eapply (reads_bytes _ TreeNameUpgrade_consumes 1); [done|done|by intros ->|done]. }
  eapply (reads_app _ _ _ _ {| up_Name := n; up_RenameFrom := r; up_Delete := false |}).
  { eapply (reads_bytes _ TreeNameUpgrade_consumes 2); [done|done|by intros ->|done]. }
  eapply (reads_bool _ TreeNameUpgrade_consumes 3); [done|done|by intros ->|by intros ->].
Qed.

Lemma WALEntry_reads m :
  zlen (WALEntry_bytes m) < 2 ^ 63 -> WALEntry_Unmarshal (WALEntry_bytes m) = Ok (norm_entry m).
Proof.
  intros Hl. apply unmarshal_reads; [done|]. unfold WALEntry_bytes in *.
  eapply reads_app.
  - apply (reads_repeated _ WALEntry_consumes 1 NamedChangeSet_bytes NamedChangeSet_Unmarshal norm_named
      (fun c e => {| Changesets := Changesets e ++ [c]; Upgrades := Upgrades e |})); [done|done|].
    apply (repeated_bytes_each 0xa NamedChangeSet_bytes _ _ (2 ^ 63)); [wire_len|]. intros c _. apply NamedChangeSet_reads.
  - rewrite (foldl_collect (fun l => {| Changesets := l; Upgrades := [] |}) _ norm_named) by done.
    unfold norm_entry. rewrite <- (map_id (Upgrades m)) at 2. rewrite <- (app_nil_l (map _ (Upgrades m))).
    rewrite <- (foldl_collect (Build_WALEntry _)
      (fun e u => {| Changesets := Changesets e; Upgrades := Upgrades e ++ [u] |})) by done.
    apply (reads_repeated _ WALEntry_consumes 2 TreeNameUpgrade_bytes TreeNameUpgrade_Unmarshal (fun x => x)
      (fun u e => {| Changesets := Changesets e; Upgrades := Upgrades e ++ [u] |})); [done|done|].
    apply (repeated_bytes_each 0x12 TreeNameUpgrade_bytes _ _ (2 ^ 63)); [wire_len|]. intros u _. apply TreeNameUpgrade_reads.
Qed.

(** Versions are [int64]. *)
Definition int64 (v : Z) : Prop := - 2 ^ 63 <= v < 2 ^ 63.
Definition CommitInfo_ok (c : CommitInfo) : Prop :=
  int64 (ci_Version c) /\ Forall (fun s => int64 (cid_Version (si_CommitId s))) (ci_StoreInfos c).

Lemma CommitID_reads m :
  zlen (CommitID_bytes m) < 2 ^ 63 -> int64 (cid_Version m) ->
  CommitID_Unmarshal CommitID_zero (CommitID_bytes m) = Ok m.
Proof.
  intros Hl Hv. apply unmarshal_reads; [done|]. unfold CommitID_bytes. destruct m as [v h].
  cbn [cid_Version cid_Hash] in *.
  eapply (reads_app _ _ _ _ {| cid_Version := v; cid_Hash := [] |}).
  - eapply (reads_int _ CommitID_consumes 1); [done|done|by intros ->|]. cbn beta. by rewrite i64_u64.
  - eapply (reads_bytes _ CommitID_consumes 2); [done|done|by intros ->|done].
Qed.

Lemma StoreInfo_reads m :
  zlen (StoreInfo_bytes m) < 2 ^ 63 -> int64 (cid_Version (si_CommitId m)) ->
  StoreInfo_Unmarshal (StoreInfo_bytes m) = Ok m.
Proof.
  intros Hl Hv. apply unmarshal_reads; [done|]. unfold StoreInfo_bytes in *. destruct m as [n c].
  cbn [si_Name si_CommitId] in *.
  eapply (reads_app _ _ _ _ {| si_Name := n; si_CommitId := CommitID_zero |}).
  - eapply (reads_bytes _ StoreInfo_consumes 1); [done|done|by intros ->|done].
  - eapply (reads_delimited _ StoreInfo_consumes 2); [done|done|]. cbn [si_CommitId si_Name].
    rewrite CommitID_reads; [done|wire_len|done].
Qed.

Lemma CommitInfo_reads m :
  zlen (CommitInfo_bytes m) < 2 ^ 63 -> CommitInfo_ok m ->
  CommitInfo_Unmarshal CommitInfo_zero (CommitInfo_bytes m) = Ok m.
Proof.
  intros Hl [Hv Hs]. apply unmarshal_reads; [done|]. unfold CommitInfo_bytes in *. destruct m as [v l].
  cbn [ci_Version ci_StoreInfos] in *.
  eapply (reads_app _ _ _ _ {| ci_Version := v; ci_StoreInfos := [] |}).
  { eapply (reads_int _ CommitInfo_consumes 1); [done|done|by intros ->|]. cbn beta. by rewrite i64_u64. }
  rewrite <- (map_id l) at 2. rewrite <- (app_nil_l (map _ l)).
  rewrite <- (foldl_collect (Build_CommitInfo v)
    (fun c s => {| ci_Version := ci_Version c; ci_StoreInfos := ci_StoreInfos c ++ [s] |})) by done.
  apply (reads_repeated _ CommitInfo_consumes 2 StoreInfo_bytes StoreInfo_Unmarshal (fun x => x)
    (fun s c => {| ci_Version := ci_Version c; ci_StoreInfos := ci_StoreInfos c ++ [s] |})); [done|done|].
  apply (repeated_bytes_each 0x12 StoreInfo_bytes _ _ (2 ^ 63)); [wire_len|]. intros s Hin Hb.
  apply StoreInfo_reads; [done|]. by apply (proj1 (Forall_forall _ _) Hs).
Qed.

Definition Metadata_ok (m : MultiTreeMetadata) : Prop :=
  int64 (md_InitialVersion m) /\ (forall c, md_CommitInfo m = Some c -> CommitInfo_ok c).

Lemma MultiTreeMetadata_reads m :
  zlen (MultiTreeMetadata_bytes m) < 2 ^ 63 -> Metadata_ok m ->
  MultiTreeMetadata_Unmarshal (MultiTreeMetadata_bytes m) = Ok m.
Proof.
  intros Hl [Hv Hc]. apply unmarshal_reads; [done|]. unfold MultiTreeMetadata_bytes in *.
  destruct m as [c v]. cbn [md_CommitInfo md_InitialVersion] in *.
  eapply (reads_app _ _ _ _ {| md_CommitInfo := c; md_InitialVersion := 0 |}).
  - destruct c as [c|]; [|apply reads_nil].
    eapply (reads_delimited _ MultiTreeMetadata_consumes 1); [done|done|].
    cbn [md_CommitInfo md_InitialVersion default]. change (default CommitInfo_zero None) with CommitInfo_zero.
    rewrite CommitInfo_reads; [done|wire_len|by apply Hc].
  - eapply (reads_int _ MultiTreeMetadata_consumes 2); [done|done|by intros ->|]. cbn beta. by rewrite i64_u64.
Qed.

(** ** Properties *)

(** C34: a log entry read back from the bytes [Marshal] writes is the entry, up to empty
    values becoming absent ones; [Marshal] never runs out of the buffer [Size]
    allocates. *)
Theorem WALEntry_roundtrip e :
  zlen (WALEntry_bytes e) < 2 ^ 63 ->
  (bz ← WALEntry_Marshal e; WALEntry_Unmarshal bz) = Ok (norm_entry e).
Proof.
  intros H. rewrite WALEntry_Marshal_bytes by lia. cbn [mbind res_bind]. by apply WALEntry_reads.
Qed.

(** the metadata of a multi-tree read back from the bytes [Marshal] writes is the
    metadata, with its commit info, store names, versions and hashes. *)
Theorem MultiTreeMetadata_roundtrip m :
  zlen (MultiTreeMetadata_bytes m) < 2 ^ 63 -> Metadata_ok m ->
  (bz ← MultiTreeMetadata_Marshal m; MultiTreeMetadata_Unmarshal bz) = Ok m.
Proof.
  intros H Hm. rewrite MultiTreeMetadata_Marshal_bytes by lia. cbn [mbind res_bind].
  by apply MultiTreeMetadata_reads.
Qed.

Definition sample_entry : WALEntry :=
  {| Changesets :=
       [{| ncs_Changeset := {| Pairs := [{| kv_Delete := false; kv_Key := str "k"; kv_Value := Some [] |};
                                         {| kv_Delete := true; kv_Key := str "j"; kv_Value := None |}] |};
           ncs_Name := str "bank" |}];
     Upgrades := [{| up_Name := str "gov"; up_RenameFrom := []; up_Delete := true |}] |}.
Definition sample_metadata : MultiTreeMetadata :=
  {| md_CommitInfo := Some {| ci_Version := 300;
       ci_StoreInfos := [{| si_Name := str "bank"; si_CommitId := {| cid_Version := 300; cid_Hash := str "h" |} |}] |};
     md_InitialVersion := 5 |}.

Lemma WALEntry_roundtrip_witness :
  (bz ← WALEntry_Marshal sample_entry; WALEntry_Unmarshal bz) = Ok (norm_entry sample_entry).
Proof. apply (WALEntry_roundtrip sample_entry). vm_compute. reflexivity. Defined.

Lemma MultiTreeMetadata_roundtrip_witness :
  (bz ← MultiTreeMetadata_Marshal sample_metadata; MultiTreeMetadata_Unmarshal bz) = Ok sample_metadata.
Proof.
  apply (MultiTreeMetadata_roundtrip sample_metadata); [vm_compute; reflexivity|].
  split; [split; vm_compute; congruence|]. intros c [= <-].
  split; [split; vm_compute; congruence|]. repeat constructor; vm_compute; congruence.
Defined.
