(* ===== verification/KVProto.v ===== *)
(** * Key-value pairs on the wire (memiavl/kv.pb.go)

    The answer of a query for the keys under a prefix: sizes, writers and readers of the
    messages [Pairs] and [Pair], by the combinators of Proto.v. *)

From Stdlib Require Import Strings.Byte ZArith Lia.
From stdpp Require Import base list numbers strings.
From S2P Require Import Prelude Binary Proto ProtoInv ProtoCodec.
Local Open Scope Z_scope.

Record Pair : Type := { p_Key : bytes; p_Value : bytes }.

Definition Pair_Size (m : Pair) : Z := size_bytes (p_Key m) + size_bytes (p_Value m).
Definition Pairs_Size (l : list Pair) : Z := size_repeated Pair_Size l.

Definition Pair_MarshalToSizedBuffer (m : Pair) : writer :=
  andThen (put_bytes_field 0x12 (p_Value m)) (put_bytes_field 0xa (p_Key m)).
Definition Pairs_MarshalToSizedBuffer (l : list Pair) : writer :=
  put_repeated 0xa Pair_MarshalToSizedBuffer l.

Definition Pairs_Marshal (l : list Pair) : res bytes := marshal (Pairs_Size l) (Pairs_MarshalToSizedBuffer l).

Definition Pair_field (num wt l : Z) (rest : bytes) (m : Pair) : res (option (Pair * bytes)) :=
  if num =? 1 then
    delimited_field (fun bz m => Ok {| p_Key := bz; p_Value := p_Value m |}) l wt rest m
  else if num =? 2 then
    delimited_field (fun bz m => Ok {| p_Key := p_Key m; p_Value := bz |}) l wt rest m
  else Ok None.
Definition Pair_Unmarshal (data : bytes) : res Pair := unmarshal Pair_field {| p_Key := []; p_Value := [] |} data.

Definition Pairs_field (num wt l : Z) (rest : bytes) (m : list Pair) : res (option (list Pair * bytes)) :=
  if num =? 1 then
    delimited_field (fun bz m => p ← Pair_Unmarshal bz; Ok (m ++ [p])) l wt rest m
  else Ok None.
Definition Pairs_Unmarshal (data : bytes) : res (list Pair) := unmarshal Pairs_field [] data.

(** ** What is written *)

Definition Pair_bytes (m : Pair) : bytes := bytes_bytes 0xa (p_Key m) ++ bytes_bytes 0x12 (p_Value m).
Definition Pairs_bytes (l : list Pair) : bytes := repeated_bytes 0xa Pair_bytes l.

Lemma Pair_writes m : zlen (Pair_bytes m) < 2 ^ 64 -> writes (Pair_MarshalToSizedBuffer m) (Pair_bytes m).
Proof. unfold Pair_bytes. intros H. apply writes_andThen; auto with proto. Qed.

Lemma Pair_size m : zlen (Pair_bytes m) < 2 ^ 64 -> Pair_Size m = zlen (Pair_bytes m).
Proof.
  unfold Pair_bytes, Pair_Size. intros H. rewrite !zlen_app.
  rewrite (size_bytes_len 0xa), (size_bytes_len 0x12); wire_len.
Qed.

Lemma Pairs_Marshal_bytes l : zlen (Pairs_bytes l) < 2 ^ 64 -> Pairs_Marshal l = Ok (Pairs_bytes l).
Proof.
  intros H. apply marshal_writes.
  - apply size_repeated_len; [done|]. intros p Hp. apply Pair_size. unfold Pairs_bytes in H. lia.
  - apply writes_repeated; [done|]. intros p Hp. apply Pair_writes. unfold Pairs_bytes in H. lia.
Qed.

(** ** Reading back *)

Lemma Pair_consumes : consumes Pair_field.
Proof.
  intros num wt l rest m m' rest' H. unfold Pair_field in H.
  repeat match type of H with (if ?c then _ else _) = _ => destruct c end;
    eauto using delimited_field_consumes; done.
Qed.
Lemma Pairs_consumes : consumes Pairs_field.
Proof.
  intros num wt l rest m m' rest' H. unfold Pairs_field in H.
  destruct (num =? 1); eauto using delimited_field_consumes; done.
Qed.

Lemma Pair_reads m : zlen (Pair_bytes m) < 2 ^ 63 -> Pair_Unmarshal (Pair_bytes m) = Ok m.
Proof.
  intros Hl. apply unmarshal_reads; [done|]. unfold Pair_bytes. destruct m as [k v]. cbn [p_Key p_Value].
  eapply (reads_app _ _ _ _ {| p_Key := k; p_Value := [] |}).
  - eapply (reads_bytes _ Pair_consumes 1); [done|done|by intros ->|done].
  - eapply (reads_bytes _ Pair_consumes 2); [done|done|by intros ->|done].
Qed.

(** A list of pairs reads back from its marshalled bytes. *)
Lemma Pairs_roundtrip l :
  zlen (Pairs_bytes l) < 2 ^ 63 -> Pairs_Marshal l = Ok (Pairs_bytes l) /\ Pairs_Unmarshal (Pairs_bytes l) = Ok l.
Proof.
  intros Hl. split; [apply Pairs_Marshal_bytes; lia|]. apply unmarshal_reads; [done|].
  assert (E : forall acc, foldl (fun m x => m ++ [x]) acc l = acc ++ l).
  { clear. induction l as [|x l IH]; intros acc; simpl; [by rewrite app_nil_r|]. by rewrite IH, <- app_assoc. }
  pose proof (E []) as E0. cbn [app] in E0. rewrite <- E0 at 2.
  apply (reads_repeated _ Pairs_consumes 1 Pair_bytes Pair_Unmarshal (fun p => p) (fun p m => m ++ [p])); [done|done|].
  eapply repeated_bytes_each; [exact Hl|]. intros p _. apply Pair_reads.
Qed.
