(* ===== verification/Sha256.v ===== *)
(** * SHA-256 ([crypto/sha256])

    An executable rendering of FIPS 180-4: [sha256.Sum256] and
    [sha256.New()] followed by [Write] and [Sum] are both [Sum256] of the
    bytes written.  The round constants and the initial state are computed from
    their definition (fractional parts of roots of the first primes), and the
    standard test vectors are checked by evaluation. *)

From Stdlib Require Import Strings.Byte ZArith Lia.
From stdpp Require Import base list numbers strings.
From S2P Require Import Prelude.
Local Open Scope Z_scope.

Module Sha256.

Definition primes64 : list Z :=
  [2; 3; 5; 7; 11; 13; 17; 19; 23; 29; 31; 37; 41; 43; 47; 53; 59; 61; 67; 71; 73; 79;
   83; 89; 97; 101; 103; 107; 109; 113; 127; 131; 137; 139; 149; 151; 157; 163; 167;
   173; 179; 181; 191; 193; 197; 199; 211; 223; 227; 229; 233; 239; 241; 251; 257;
   263; 269; 271; 277; 281; 283; 293; 307; 311].

(** The largest [r] below [2 ^ n] with [r ^ e <= x], bit by bit. *)
Fixpoint iroot (e : Z) (n : nat) (r x : Z) : Z :=
  match n with
  | O => r
  | S n' =>
      let r' := r + 2 ^ Z.of_nat n' in
      iroot e n' (if r' ^ e <=? x then r' else r) x
  end.

(** The first 32 bits of the fractional part of the [e]-th root of [p]. *)
Definition frac_root (e p : Z) : Z := u32 (iroot e 40 0 (p * 2 ^ (32 * e))).

Definition round_constants : list Z := Eval vm_compute in map (frac_root 3) primes64.
Definition initial_state : list Z := Eval vm_compute in map (frac_root 2) (take 8 primes64).

Definition rotr (n x : Z) : Z := Z.lor (Z.shiftr x n) (u32 (Z.shiftl x (32 - n))).
Definition big_sigma0 (x : Z) : Z := Z.lxor (rotr 2 x) (Z.lxor (rotr 13 x) (rotr 22 x)).
Definition big_sigma1 (x : Z) : Z := Z.lxor (rotr 6 x) (Z.lxor (rotr 11 x) (rotr 25 x)).
Definition small_sigma0 (x : Z) : Z := Z.lxor (rotr 7 x) (Z.lxor (rotr 18 x) (Z.shiftr x 3)).
Definition small_sigma1 (x : Z) : Z := Z.lxor (rotr 17 x) (Z.lxor (rotr 19 x) (Z.shiftr x 10)).
Definition choose (x y z : Z) : Z := Z.lxor (Z.land x y) (Z.land (Z.lxor x MaxUint32) z).
Definition majority (x y z : Z) : Z :=
  Z.lxor (Z.land x y) (Z.lxor (Z.land x z) (Z.land y z)).

(** The message schedule, kept as the last sixteen words, most recent first. *)
Fixpoint schedule (n : nat) (w : list Z) : list Z :=
  match n with
  | O => w
  | S n' =>
      let at_ i := nth (i - 1) w 0 in
      schedule n' (u32 (small_sigma1 (at_ 2%nat) + at_ 7%nat + small_sigma0 (at_ 15%nat) + at_ 16%nat) :: w)
  end.

Definition round (s : list Z) (kw : Z * Z) : list Z :=
  match s with
  | [a; b; c; d; e; f; g; h] =>
      let t1 := h + big_sigma1 e + choose e f g + kw.1 + kw.2 in
      let t2 := big_sigma0 a + majority a b c in
      [u32 (t1 + t2); a; b; c; u32 (d + t1); e; f; g]
  | _ => s
  end.

Definition compress (state block : list Z) : list Z :=
  let w := rev (schedule 48 (rev block)) in
  zip_with (fun x y => u32 (x + y)) state (foldl round state (zip round_constants w)).

(** Big-endian words of a byte string whose length is a multiple of four. *)
Fixpoint words (bz : bytes) : list Z :=
  match bz with
  | a :: b :: c :: d :: rest =>
      (byte_to_Z a * 2 ^ 24 + byte_to_Z b * 2 ^ 16 + byte_to_Z c * 2 ^ 8 + byte_to_Z d) :: words rest
  | _ => []
  end.

Definition be_word (x : Z) : bytes :=
  [byte_of_Z (Z.shiftr x 24); byte_of_Z (Z.shiftr x 16); byte_of_Z (Z.shiftr x 8); byte_of_Z x].

Definition pad (bz : bytes) : bytes :=
  let zeros := Z.to_nat ((55 - zlen bz) mod 64) in
  bz ++ x80 :: replicate zeros x00 ++
  be_word (Z.shiftr (8 * zlen bz) 32) ++ be_word (u32 (8 * zlen bz)).

Fixpoint blocks (fuel : nat) (state ws : list Z) : list Z :=
  match fuel with
  | O => state
  | S fuel' =>
      match ws with
      | [] => state
      | _ => blocks fuel' (compress state (take 16 ws)) (drop 16 ws)
      end
  end.

Definition Sum256 (bz : bytes) : bytes :=
  let ws := words (pad bz) in
  blocks (length ws) initial_state ws ≫= be_word.

(** [sha256.Size] *)
Definition Size : Z := 32.

Definition hex_digit (z : Z) : Ascii.ascii :=
  Ascii.ascii_of_N (Z.to_N (if z <? 10 then 48 + z else 87 + z)).
Fixpoint hex (bz : bytes) : string :=
  match bz with
  | [] => EmptyString
  | b :: bz' =>
      String (hex_digit (byte_to_Z b / 16)) (String (hex_digit (byte_to_Z b mod 16)) (hex bz'))
  end.

Example sha256_empty :
  hex (Sum256 []) = "e3b0c44298fc1c149afbf4c8996fb92427ae41e4649b934ca495991b7852b855"%string.
Proof. vm_compute. reflexivity. Qed.
Example sha256_abc :
  hex (Sum256 (str "abc")) = "ba7816bf8f01cfea414140de5dae2223b00361a396177a9cb410ff61f20015ad"%string.
Proof. vm_compute. reflexivity. Qed.
Example sha256_two_blocks :
  hex (Sum256 (str "abcdbcdecdefdefgefghfghighijhijkijkljklmklmnlmnomnopnopq"))
  = "248d6a61d20638b8e5c026930c3e6039a33ce45964ff2167f6ecedd419db06c1"%string.
Proof. vm_compute. reflexivity. Qed.

(** ** A digest is always 32 bytes long *)

Lemma round_length s kw : length s = 8%nat -> length (round s kw) = 8%nat.
Proof. destruct s as [|? [|? [|? [|? [|? [|? [|? [|? [|? ?]]]]]]]]]; done. Qed.

Lemma foldl_round_length kws s : length s = 8%nat -> length (foldl round s kws) = 8%nat.
Proof. revert s; induction kws as [|kw kws IH]; intros s Hs; simpl; [done|]. apply IH, round_length, Hs. Qed.

Lemma compress_length s b : length s = 8%nat -> length (compress s b) = 8%nat.
Proof.
  intros Hs. unfold compress. rewrite length_zip_with, foldl_round_length by done. by rewrite Hs.
Qed.

Lemma blocks_length fuel s ws : length s = 8%nat -> length (blocks fuel s ws) = 8%nat.
Proof.
  revert s ws; induction fuel as [|fuel IH]; intros s ws Hs; [done|]. simpl.
  destruct ws; [done|]. by apply IH, compress_length.
Qed.

Lemma be_words_length ws : length (ws ≫= be_word) = (4 * length ws)%nat.
Proof.
  induction ws as [|w ws IH]; [done|].
  change ((w :: ws) ≫= be_word) with (be_word w ++ (ws ≫= be_word)).
  rewrite length_app, IH. simpl. lia.
Qed.

Lemma length_Sum256 bz : length (Sum256 bz) = 32%nat.
Proof.
  unfold Sum256. rewrite be_words_length, blocks_length; done.
Qed.

Lemma zlen_Sum256 bz : zlen (Sum256 bz) = Size.
Proof. unfold zlen. by rewrite length_Sum256. Qed.

End Sha256.

#[global] Arguments Sha256.Sum256 _ : simpl never.
