(* ===== verification/Node.v ===== *)
(** * IAVL nodes (memiavl/node.go, memiavl/mem_node.go)

    The tree a [Node] value denotes, and the recursive operations on it: insert,
    remove, rotations, lookup by key and by index, and the bytes that are hashed.
    A [MemNode] of height 0 is a [Leaf]; every other node has two children and is
    a [Branch].  Whether [Mutate] clones a node or modifies it in place changes the
    heap and not the tree denoted; that part of the code is the subject of
    Heap.v, which relates the two. *)

From Stdlib Require Import Strings.Byte ZArith Lia.
From stdpp Require Import base list numbers strings gmap sorting.
From S2P Require Import Prelude Binary Sha256.
Local Open Scope Z_scope.

(** ** Data *)

Inductive Node : Type :=
| Leaf (version : Z) (key value : bytes)
| Branch (height size version : Z) (key : bytes) (left right : Node).

Definition Height (n : Node) : Z :=
  match n with Leaf _ _ _ => 0 | Branch h _ _ _ _ _ => h end.
Definition IsLeaf (n : Node) : bool :=
  match n with Leaf _ _ _ => true | Branch _ _ _ _ _ _ => false end.
Definition Size (n : Node) : Z :=
  match n with Leaf _ _ _ => 1 | Branch _ s _ _ _ _ => s end.
Definition Version (n : Node) : Z :=
  match n with Leaf v _ _ => v | Branch _ _ v _ _ _ => v end.
Definition Key (n : Node) : bytes :=
  match n with Leaf _ k _ => k | Branch _ _ _ k _ _ => k end.
(** A branch has a nil value. *)
Definition Value (n : Node) : option bytes :=
  match n with Leaf _ _ v => Some v | Branch _ _ _ _ _ _ => None end.
Definition Left (n : Node) : option Node :=
  match n with Leaf _ _ _ => None | Branch _ _ _ _ l _ => Some l end.
Definition Right (n : Node) : option Node :=
  match n with Leaf _ _ _ => None | Branch _ _ _ _ _ r => Some r end.

Definition newLeafNode (key value : bytes) (version : Z) : Node := Leaf version key value.

(** The node returned by [Mutate] carries the new version. *)
Definition Mutate (version : Z) (n : Node) : Node :=
  match n with
  | Leaf _ k v => Leaf version k v
  | Branch h s _ k l r => Branch h s version k l r
  end.

(** ** Balancing *)

Definition updateHeightSize (n : Node) : Node :=
  match n with
  | Leaf _ _ _ => n
  | Branch _ _ v k l r =>
      Branch (u8 (Z.max (Height l) (Height r) + 1)) (i64 (Size l + Size r)) v k l r
  end.

Definition calcBalance (n : Node) : Z :=
  match n with
  | Leaf _ _ _ => 0
  | Branch _ _ _ _ l r => Height l - Height r
  end.

(** [reBalance] rotates right only when the left child is a branch (its height is
    at least two), and symmetrically, so the other cases are not reached. *)
Definition rotateRight (version : Z) (n : Node) : Node :=
  match n with
  | Branch h s v k l r =>
      match Mutate version l with
      | Branch lh ls lv lk ll lr =>
          let node := updateHeightSize (Branch h s v k lr r) in
          updateHeightSize (Branch lh ls lv lk ll node)
      | Leaf _ _ _ => n
      end
  | Leaf _ _ _ => n
  end.

Definition rotateLeft (version : Z) (n : Node) : Node :=
  match n with
  | Branch h s v k l r =>
      match Mutate version r with
      | Branch rh rs rv rk rl rr =>
          let node := updateHeightSize (Branch h s v k l rl) in
          updateHeightSize (Branch rh rs rv rk node rr)
      | Leaf _ _ _ => n
      end
  | Leaf _ _ _ => n
  end.

Definition reBalance (version : Z) (n : Node) : Node :=
  match n with
  | Leaf _ _ _ => n
  | Branch h s v k l r =>
      let balance := calcBalance n in
      if 1 <? balance then
        if 0 <=? calcBalance l then rotateRight version n
        else rotateRight version (Branch h s v k (rotateLeft version (Mutate version l)) r)
      else if balance <? -1 then
        if calcBalance r <=? 0 then rotateLeft version n
        else rotateLeft version (Branch h s v k l (rotateRight version (Mutate version r)))
      else n
  end.

#[global] Arguments updateHeightSize _ : simpl never.
#[global] Arguments rotateRight _ _ : simpl never.
#[global] Arguments rotateLeft _ _ : simpl never.
#[global] Arguments reBalance _ _ : simpl never.

(** ** Insertion and removal *)

(** [setRecursive] on a non-nil node: the new node and whether the key existed. *)
Fixpoint setRecursive (node : Node) (key value : bytes) (version : Z) : Node * bool :=
  match node with
  | Leaf v nodeKey nodeValue =>
      match Compare key nodeKey with
      | Lt => (Branch 1 2 version nodeKey (newLeafNode key value version) node, false)
      | Gt => (Branch 1 2 version key node (newLeafNode key value version), false)
      | Eq => (Leaf version nodeKey value, true)
      end
  | Branch h s v nodeKey l r =>
      let '(newNode, updated) :=
        match Compare key nodeKey with
        | Lt =>
            let '(newChild, updated) := setRecursive l key value version in
            (Branch h s version nodeKey newChild r, updated)
        | _ =>
            let '(newChild, updated) := setRecursive r key value version in
            (Branch h s version nodeKey l newChild, updated)
        end in
      if updated then (newNode, true)
      else (reBalance version (updateHeightSize newNode), false)
  end.

(** The nil root is inserted into by making a leaf. *)
Definition setRoot (root : option Node) (key value : bytes) (version : Z) : Node * bool :=
  match root with
  | None => (newLeafNode key value version, true)
  | Some n => setRecursive n key value version
  end.

(** [removeRecursive] returns the removed value, the new subtree and the new
    smallest key of the subtree when its leftmost leaf was removed. *)
Fixpoint removeRecursive (node : Node) (key : bytes) (version : Z)
    : option bytes * option Node * option bytes :=
  match node with
  | Leaf v nodeKey nodeValue =>
      if decide (nodeKey = key) then (Some nodeValue, None, None)
      else (None, Some node, None)
  | Branch h s v nodeKey l r =>
      match Compare key nodeKey with
      | Lt =>
          match removeRecursive l key version with
          | (None, _, _) => (None, Some node, None)
          | (Some value, None, _) => (Some value, Some r, Some nodeKey)
          | (Some value, Some newLeft, newKey) =>
              let newNode := updateHeightSize (Branch h s version nodeKey newLeft r) in
              (Some value, Some (reBalance version newNode), newKey)
          end
      | _ =>
          match removeRecursive r key version with
          | (None, _, _) => (None, Some node, None)
          | (Some value, None, _) => (Some value, Some l, None)
          | (Some value, Some newRight, newKey) =>
              let newNode :=
                updateHeightSize (Branch h s version (default nodeKey newKey) l newRight) in
              (Some value, Some (reBalance version newNode), None)
          end
      end
  end.

Definition removeRoot (root : option Node) (key : bytes) (version : Z)
    : option bytes * option Node * option bytes :=
  match root with
  | None => (None, None, None)
  | Some n => removeRecursive n key version
  end.

(** ** Lookup *)

(** [MemNode.Get]: the value (nil when absent) and the index of the key. *)
Fixpoint Get (n : Node) (key : bytes) : option bytes * Z :=
  match n with
  | Leaf _ k v =>
      match Compare k key with
      | Lt => (None, 1)
      | Gt => (None, 0)
      | Eq => (Some v, 0)
      end
  | Branch _ s _ k l r =>
      match Compare key k with
      | Lt => Get l key
      | _ => let '(value, index) := Get r key in
             (value, u32 (index + u32 s - u32 (Size r)))
      end
  end.

(** [MemNode.GetByIndex] on a [uint32] index. *)
Fixpoint GetByIndex (n : Node) (index : Z) : option (bytes * bytes) :=
  match n with
  | Leaf _ k v => if index =? 0 then Some (k, v) else None
  | Branch _ _ _ _ l r =>
      let leftSize := u32 (Size l) in
      if index <? leftSize then GetByIndex l index
      else GetByIndex r (u32 (index - leftSize))
  end.

(** ** Hashing *)

(** [EncodeBytes]: a byte slice with its length as a varint prefix. *)
Definition EncodeBytes (bz : bytes) : bytes := PutUvarint (zlen bz) ++ bz.

(** The bytes [writeHashBytes] writes to the hasher, given the fields of the node
    and, for a branch, the hashes of the children. *)
Definition leaf_hash_bytes (height size version : Z) (key value : bytes) : bytes :=
  PutVarint height ++ PutVarint size ++ PutVarint (i64 version) ++
  EncodeBytes key ++ EncodeBytes (Sha256.Sum256 value).
Definition branch_hash_bytes (height size version : Z) (left right : bytes) : bytes :=
  PutVarint height ++ PutVarint size ++ PutVarint (i64 version) ++
  EncodeBytes left ++ EncodeBytes right.

(** The hash of a child is the digest of the bytes written for the child. *)
Fixpoint writeHashBytes (n : Node) : bytes :=
  match n with
  | Leaf v k x => leaf_hash_bytes 0 1 v k x
  | Branch h s v k l r =>
      branch_hash_bytes h s v (Sha256.Sum256 (writeHashBytes l)) (Sha256.Sum256 (writeHashBytes r))
  end.

Definition HashNode (n : Node) : bytes := Sha256.Sum256 (writeHashBytes n).

(** [emptyHash] of tree.go: the digest of no input. *)
Definition emptyHash : bytes := Sha256.Sum256 [].
