(* ===== verification/NodeInv.v ===== *)
(** * The IAVL invariant and its preservation

    The contents of a node as an ordered association list, the well-formedness
    invariant ([wf]: the cached height, size and key of every branch are exact, the
    tree is AVL-balanced and the keys are ordered), the AVL height bound that
    keeps heights inside [uint8], and the effect of insertion and removal. *)

From Stdlib Require Import Strings.Byte ZArith Lia.
From stdpp Require Import base list numbers strings gmap sorting.
From S2P Require Import Prelude Binary Sha256 Node.
Local Open Scope Z_scope.

(** ** Contents and measures *)

(** The key-value pairs in key order. *)
Fixpoint elements (n : Node) : list (bytes * bytes) :=
  match n with
  | Leaf _ k v => [(k, v)]
  | Branch _ _ _ _ l r => elements l ++ elements r
  end.

Definition contents (root : option Node) : list (bytes * bytes) :=
  match root with None => [] | Some n => elements n end.

Fixpoint min_key (n : Node) : bytes :=
  match n with Leaf _ k _ => k | Branch _ _ _ _ l _ => min_key l end.

Fixpoint height (n : Node) : Z :=
  match n with
  | Leaf _ _ _ => 0
  | Branch _ _ _ _ l r => 1 + Z.max (height l) (height r)
  end.

Definition leaves (n : Node) : Z := zlen (elements n).

(** The cached fields of every branch are exact: the height, the number of
    leaves, and the key, which is the smallest key of the right subtree. *)
Fixpoint fields_ok (n : Node) : Prop :=
  match n with
  | Leaf _ _ _ => True
  | Branch h s _ k l r =>
      h = 1 + Z.max (height l) (height r) /\ s = leaves l + leaves r /\ k = min_key r /\
      fields_ok l /\ fields_ok r
  end.

Fixpoint balanced (n : Node) : Prop :=
  match n with
  | Leaf _ _ _ => True
  | Branch _ _ _ _ l r =>
      -1 <= height l - height r <= 1 /\ balanced l /\ balanced r
  end.

Record wf (n : Node) : Prop := {
  wf_fields : fields_ok n;
  wf_balanced : balanced n;
  wf_sorted : kv_sorted (elements n)
}.

(** A tree may hold this many leaves before any field can leave its Go type. *)
Definition max_leaves : Z := 2 ^ 62.

Definition wf_root (root : option Node) : Prop :=
  match root with None => True | Some n => wf n end.

(** ** Basic facts *)

Lemma leaves_Branch h s v k l r : leaves (Branch h s v k l r) = leaves l + leaves r.
Proof. unfold leaves. simpl. apply zlen_app. Qed.

Lemma leaves_pos n : 1 <= leaves n.
Proof.
  induction n as [|h s v k l IHl r IHr]; [unfold leaves, zlen; simpl; lia|].
  rewrite leaves_Branch. lia.
Qed.

Lemma height_nonneg n : 0 <= height n.
Proof. induction n; simpl; lia. Qed.

Lemma fields_Height n : fields_ok n -> Height n = height n.
Proof. destruct n; simpl; [done|]. by intros [-> _]. Qed.

Lemma fields_Size n : fields_ok n -> Size n = leaves n.
Proof. destruct n; [done|]. intros (_ & -> & _). by rewrite leaves_Branch. Qed.

Lemma elements_head n : exists v rest, elements n = (min_key n, v) :: rest.
Proof.
  induction n as [|h s v k l [v1 [rest1 E]] r _]; simpl; [eauto|].
  rewrite E. eauto.
Qed.

Lemma min_key_elem n : min_key n ∈ (elements n).*1.
Proof. destruct (elements_head n) as (v & rest & ->). by left. Qed.

Lemma min_key_least n y : kv_sorted (elements n) -> y ∈ (elements n).*1 -> bytes_le (min_key n) y.
Proof.
  destruct (elements_head n) as (v & rest & ->). intros [_ H]%kv_sorted_cons.
  intros [->|Hy]%elem_of_cons; [by right|]. left. by apply H.
Qed.

Lemma elements_Mutate v n : elements (Mutate v n) = elements n.
Proof. by destruct n. Qed.

(** A well-formed branch splits its contents around its key. *)
Lemma branch_split h s v k l r :
  wf (Branch h s v k l r) ->
  k = min_key r /\
  (forall x, x ∈ (elements l).*1 -> bytes_lt x k) /\
  (forall y, y ∈ (elements r).*1 -> bytes_le k y) /\
  kv_sorted (elements l) /\ kv_sorted (elements r).
Proof.
  intros [(_ & _ & -> & _) _ Hs]. simpl in Hs. apply kv_sorted_app in Hs as (Hl & Hr & Hlr).
  repeat split; auto.
  - intros x Hx. apply Hlr; [done|]. apply min_key_elem.
  - intros y Hy. by apply min_key_least.
Qed.

Lemma wf_children h s v k l r : wf (Branch h s v k l r) -> wf l /\ wf r.
Proof.
  intros Hwf. pose proof (branch_split _ _ _ _ _ _ Hwf) as (_ & _ & _ & Hl & Hr).
  destruct Hwf as [(_ & _ & _ & Fl & Fr) (_ & Bl & Br) _]. done.
Qed.

(** ** The AVL height bound *)

(** The least number of leaves of a balanced tree of height [h]. *)
Fixpoint min_leaves_pair (h : nat) : Z * Z :=
  match h with
  | O => (1, 2)
  | S h' => let '(a, b) := min_leaves_pair h' in (b, a + b)
  end.
Definition min_leaves (h : nat) : Z := (min_leaves_pair h).1.

Lemma min_leaves_SS h : min_leaves (S (S h)) = min_leaves h + min_leaves (S h).
Proof. unfold min_leaves. simpl. by destruct (min_leaves_pair h). Qed.

Lemma min_leaves_mono_S h : 1 <= min_leaves h <= min_leaves (S h).
Proof.
  induction h as [|h IH]; [unfold min_leaves; simpl; lia|]. rewrite min_leaves_SS. lia.
Qed.

Lemma min_leaves_mono a b : (a <= b)%nat -> min_leaves a <= min_leaves b.
Proof. induction 1 as [|b _ IH]; [lia|]. pose proof (min_leaves_mono_S b). lia. Qed.

Lemma balanced_min_leaves n : balanced n -> min_leaves (Z.to_nat (height n)) <= leaves n.
Proof.
  induction n as [|h s v k l IHl r IHr]; [unfold leaves, zlen, min_leaves; simpl; lia|].
  intros (Hb & Bl & Br). rewrite leaves_Branch. specialize (IHl Bl). specialize (IHr Br).
  pose proof (height_nonneg l). pose proof (height_nonneg r).
  pose proof (leaves_pos l). pose proof (leaves_pos r).
  simpl height. destruct (decide (Z.max (height l) (height r) = 0)) as [E|E].
  - rewrite E. change (min_leaves _) with 2. lia.
  - set (m := (Z.to_nat (Z.max (height l) (height r)) - 1)%nat).
    replace (Z.to_nat (1 + Z.max (height l) (height r))) with (S (S m)) by lia.
    rewrite min_leaves_SS.
    destruct (Z.max_spec (height l) (height r)) as [[Hlt Hm]|[Hlt Hm]].
    + pose proof (min_leaves_mono m (Z.to_nat (height l)) ltac:(lia)).
      replace (S m) with (Z.to_nat (height r)) by lia. lia.
    + pose proof (min_leaves_mono m (Z.to_nat (height r)) ltac:(lia)).
      replace (S m) with (Z.to_nat (height l)) by lia. lia.
Qed.

(** A balanced tree with fewer than [2 ^ 62] leaves is at most 88 high. *)
Lemma height_bound n : balanced n -> leaves n < max_leaves -> height n <= 88.
Proof.
  intros Hb Hl. apply Z.nlt_ge. intros Hh.
  pose proof (balanced_min_leaves n Hb) as Hm.
  pose proof (min_leaves_mono 89 (Z.to_nat (height n)) ltac:(lia)) as Hm'.
  assert (max_leaves <= min_leaves 89) by (vm_compute; done). lia.
Qed.

(** ** Balancing *)

(** A branch whose cached fields are exact. *)
Definition mk (v : Z) (k : bytes) (l r : Node) : Node :=
  Branch (1 + Z.max (height l) (height r)) (leaves l + leaves r) v k l r.

Lemma fields_mk v k l r : fields_ok l -> fields_ok r -> k = min_key r -> fields_ok (mk v k l r).
Proof. intros. simpl. auto. Qed.

(** No field of a node with these children leaves its Go type. *)
Definition fits (l r : Node) : Prop :=
  height l <= 90 /\ height r <= 90 /\ leaves l + leaves r < 2 ^ 63.

Lemma updateHeightSize_mk h s v k l r :
  fields_ok l -> fields_ok r -> fits l r ->
  updateHeightSize (Branch h s v k l r) = mk v k l r.
Proof.
  intros Fl Fr (Hl & Hr & Hs). unfold updateHeightSize, mk.
  rewrite !fields_Height, !fields_Size by done.
  pose proof (height_nonneg l). pose proof (height_nonneg r).
  pose proof (leaves_pos l). pose proof (leaves_pos r).
  rewrite u8_small, i64_small by lia. f_equal. lia.
Qed.

Lemma rotateRight_mk version h s v k lh ls lv lk ll lr r :
  fields_ok ll -> fields_ok lr -> fields_ok r -> fits lr r -> fits ll (mk v k lr r) -> k = min_key r ->
  rotateRight version (Branch h s v k (Branch lh ls lv lk ll lr) r)
  = mk version lk ll (mk v k lr r).
Proof.
  intros. unfold rotateRight, Mutate.
  rewrite (updateHeightSize_mk _ _ _ _ lr r) by done.
  apply updateHeightSize_mk; [done|by apply fields_mk|done].
Qed.

Lemma rotateLeft_mk version h s v k l rh rs rv rk rl rr :
  fields_ok l -> fields_ok rl -> fields_ok rr -> fits l rl -> fits (mk v k l rl) rr -> k = min_key rl ->
  rotateLeft version (Branch h s v k l (Branch rh rs rv rk rl rr))
  = mk version rk (mk v k l rl) rr.
Proof.
  intros. unfold rotateLeft, Mutate.
  rewrite (updateHeightSize_mk _ _ _ _ l rl) by done.
  apply updateHeightSize_mk; [by apply fields_mk|done|done].
Qed.

Lemma rotateRight_mk_mk version h s v k lv lk ll lr r :
  fields_ok ll -> fields_ok lr -> fields_ok r -> fits lr r -> fits ll (mk v k lr r) -> k = min_key r ->
  rotateRight version (Branch h s v k (mk lv lk ll lr) r) = mk version lk ll (mk v k lr r).
Proof. apply rotateRight_mk. Qed.

Lemma rotateLeft_mk_mk version h s v k l rv rk rl rr :
  fields_ok l -> fields_ok rl -> fields_ok rr -> fits l rl -> fits (mk v k l rl) rr -> k = min_key rl ->
  rotateLeft version (Branch h s v k l (mk rv rk rl rr)) = mk version rk (mk v k l rl) rr.
Proof. apply rotateLeft_mk. Qed.

(** What [reBalance] gives on children that differ by at most two in height. *)
Record rebalanced (l r n : Node) : Prop := {
  rb_fields : fields_ok n;
  rb_balanced : balanced n;
  rb_elements : elements n = elements l ++ elements r;
  rb_min : min_key n = min_key l;
  rb_height : Z.max (height l) (height r) <= height n <= 1 + Z.max (height l) (height r);
  rb_height_same : -1 <= height l - height r <= 1 -> height n = 1 + Z.max (height l) (height r)
}.

(** Side conditions on the exact branches built by the rotations. *)
Ltac exact_fields :=
  match goal with
  | |- fits _ _ => unfold fits, mk; simpl height; rewrite ?leaves_Branch; lia
  | |- fields_ok (mk _ _ _ _) => apply fields_mk; exact_fields
  | |- min_key _ = min_key _ => reflexivity
  | |- _ => first [assumption | reflexivity]
  end.

Ltac rebalance_done :=
  constructor; unfold mk; simpl; rewrite ?leaves_Branch, <- ?app_assoc; simpl;
  repeat match goal with |- _ /\ _ => split end; try assumption; try reflexivity; try lia.

Section rebalance.
Context (version v : Z) (k : bytes) (l r : Node).
Context (Fl : fields_ok l) (Fr : fields_ok r) (Bl : balanced l) (Br : balanced r).
Context (Hk : k = min_key r) (Hlv : leaves l + leaves r < max_leaves).

Lemma rebalance_left_heavy h s :
  height l = height r + 2 -> rebalanced l r (reBalance version (Branch h s v k l r)).
Proof using Fl Fr Bl Br Hk Hlv.
  intros Hd. pose proof (leaves_pos r). unfold max_leaves in Hlv.
  pose proof (height_bound l Bl ltac:(unfold max_leaves; lia)) as Hl.
  pose proof (height_nonneg r).
  destruct l as [|lh ls lv lk ll lr]; [simpl in Hd; lia|].
  destruct Fl as (-> & -> & -> & Fll & Flr). destruct Bl as (Hbl & Bll & Blr).
  rewrite leaves_Branch in Hlv. simpl height in Hd, Hl.
  pose proof (leaves_pos ll). pose proof (leaves_pos lr).
  unfold reBalance, calcBalance. simpl Height. rewrite !fields_Height by done.
  rewrite (proj2 (Z.ltb_lt _ _)) by lia.
  destruct (Z.leb_spec 0 (height ll - height lr)).
  - rewrite rotateRight_mk by exact_fields. rebalance_done.
  - pose proof (height_nonneg ll).
    destruct lr as [|lrh lrs lrv lrk lrl lrr]; [simpl in *; lia|].
    destruct Flr as (-> & -> & -> & Flrl & Flrr). destruct Blr as (Hblr & Blrl & Blrr).
    rewrite leaves_Branch in *. simpl height in *.
    pose proof (leaves_pos lrl). pose proof (leaves_pos lrr).
    unfold Mutate. rewrite rotateLeft_mk by exact_fields.
    rewrite rotateRight_mk_mk by exact_fields. rebalance_done.
Qed.

Lemma rebalance_right_heavy h s :
  height r = height l + 2 -> rebalanced l r (reBalance version (Branch h s v k l r)).
Proof using Fl Fr Bl Br Hk Hlv.
  intros Hd. pose proof (leaves_pos l). unfold max_leaves in Hlv.
  pose proof (height_bound r Br ltac:(unfold max_leaves; lia)) as Hr.
  pose proof (height_nonneg l).
  destruct r as [|rh rs rv rk rl rr]; [simpl in Hd; lia|].
  destruct Fr as (-> & -> & -> & Frl & Frr). destruct Br as (Hbr & Brl & Brr).
  rewrite leaves_Branch in Hlv. simpl height in Hd, Hr.
  pose proof (leaves_pos rl). pose proof (leaves_pos rr).
  unfold reBalance, calcBalance. simpl Height. rewrite !fields_Height by done.
  rewrite (proj2 (Z.ltb_ge _ _)) by lia. rewrite (proj2 (Z.ltb_lt _ _)) by lia.
  destruct (Z.leb_spec (height rl - height rr) 0).
  - rewrite rotateLeft_mk by exact_fields. rebalance_done.
  - pose proof (height_nonneg rr).
    destruct rl as [|rlh rls rlv rlk rll rlr]; [simpl in *; lia|].
    destruct Frl as (-> & -> & -> & Frll & Frlr). destruct Brl as (Hbrl & Brll & Brlr).
    rewrite leaves_Branch in *. simpl height in *. simpl min_key in *.
    pose proof (leaves_pos rll). pose proof (leaves_pos rlr).
    unfold Mutate. rewrite rotateRight_mk by exact_fields.
    rewrite rotateLeft_mk_mk by exact_fields. rebalance_done.
Qed.

Lemma reBalance_spec h s :
  -2 <= height l - height r <= 2 ->
  rebalanced l r (reBalance version (updateHeightSize (Branch h s v k l r))).
Proof using Fl Fr Bl Br Hk Hlv.
  intros Hd. pose proof (leaves_pos l). pose proof (leaves_pos r).
  assert (Hlv' := Hlv). unfold max_leaves in Hlv'.
  pose proof (height_bound l Bl ltac:(unfold max_leaves; lia)) as Hl.
  pose proof (height_bound r Br ltac:(unfold max_leaves; lia)) as Hr.
  rewrite updateHeightSize_mk by exact_fields.
  destruct (decide (height l = height r + 2)) as [E|]; [by apply rebalance_left_heavy|].
  destruct (decide (height r = height l + 2)) as [E|]; [by apply rebalance_right_heavy|].
  unfold reBalance, mk, calcBalance. rewrite !fields_Height by done.
  rewrite !(proj2 (Z.ltb_ge _ _)) by lia. rebalance_done.
Qed.
End rebalance.

Lemma leaves_elements n m : elements n = elements m -> leaves n = leaves m.
Proof. unfold leaves. by intros ->. Qed.

Lemma min_key_elements n k v rest : elements n = (k, v) :: rest -> min_key n = k.
Proof. destruct (elements_head n) as (v' & rest' & ->). by intros [= -> _ _]. Qed.

Lemma wf_Leaf v k x : wf (Leaf v k x).
Proof. split; simpl; auto. unfold kv_sorted. simpl. repeat constructor. Qed.

(** ** Insertion *)

Record set_result (n : Node) (k v : bytes) (n' : Node) (updated : bool) : Prop := {
  sr_fields : fields_ok n';
  sr_balanced : balanced n';
  sr_elements : elements n' = kv_insert k v (elements n);
  sr_updated : updated = match kv_lookup k (elements n) with Some _ => true | None => false end;
  sr_height : height n <= height n' <= height n + 1;
  sr_height_same : updated = true -> height n' = height n
}.

Lemma sr_min_key n k v n' u :
  set_result n k v n' u -> bytes_le (min_key n) k -> min_key n' = min_key n.
Proof.
  intros [_ _ He _ _ _] Hk. destruct (elements_head n) as (v0 & rest & E).
  rewrite E in He. simpl in He. destruct (Compare_spec k (min_key n)) as [->|Hlt|Hlt].
  - by eapply min_key_elements.
  - exfalso. bytes_order.
  - by eapply min_key_elements.
Qed.

Lemma sr_leaves n k v n' u :
  kv_sorted (elements n) -> set_result n k v n' u ->
  leaves n' = leaves n + (if u then 0 else 1).
Proof.
  intros Hs [_ _ He Hu _ _]. unfold leaves. rewrite He, kv_insert_length by done.
  rewrite Hu. by destruct (kv_lookup k (elements n)).
Qed.

(** The branch rebuilt around a new child: nothing but the child changes when the
    key was already present, otherwise the branch is updated and rebalanced. *)
Lemma set_rebuild version h s k0 l r (updated : bool) k v n :
  fields_ok l -> fields_ok r -> balanced l -> balanced r ->
  -2 <= height l - height r <= 2 -> k0 = min_key r -> leaves l + leaves r < max_leaves ->
  elements l ++ elements r = kv_insert k v (elements n) ->
  updated = match kv_lookup k (elements n) with Some _ => true | None => false end ->
  (updated = true -> h = height n /\ height n = 1 + Z.max (height l) (height r) /\
                     s = leaves l + leaves r /\ -1 <= height l - height r <= 1) ->
  (-1 <= height l - height r <= 1 ->
     height n <= 1 + Z.max (height l) (height r) <= height n + 1) ->
  (~ -1 <= height l - height r <= 1 -> height n = Z.max (height l) (height r)) ->
  set_result n k v
    (if updated then Branch h s version k0 l r
     else reBalance version (updateHeightSize (Branch h s version k0 l r))) updated.
Proof.
  intros Fl Fr Bl Br Hd Hk Hlv He Hu Hsame Hbal Hunbal. destruct updated.
  - destruct Hsame as (-> & Hh & -> & Hb); [done|].
    split; [|simpl; auto|done|done|simpl; lia|simpl; lia].
    repeat split; simpl; auto.
  - destruct (reBalance_spec version version k0 l r Fl Fr Bl Br Hk Hlv h s Hd) as [F B E M Hh Hh'].
    split; [done|done|by rewrite E|done| |done].
    destruct (decide (-1 <= height l - height r <= 1)) as [Hb|Hb].
    + rewrite Hh' by done. auto.
    + rewrite (Hunbal Hb). lia.
Qed.

Lemma set_left version h s nv nk l r k v l' u :
  wf (Branch h s nv nk l r) -> leaves l + leaves r + 1 < max_leaves -> bytes_lt k nk ->
  set_result l k v l' u ->
  set_result (Branch h s nv nk l r) k v
    (if u then Branch h s version nk l' r
     else reBalance version (updateHeightSize (Branch h s version nk l' r))) u.
Proof.
  intros Hwf Hlv Hc Hr. destruct (branch_split _ _ _ _ _ _ Hwf) as (Hk & Hlt & Hge & Hsl & Hsr).
  pose proof (sr_leaves _ _ _ _ _ Hsl Hr) as Hl'. destruct Hr as [F' B' E' U' H' Hs'].
  destruct Hwf as [(-> & -> & _ & Fl & Fr) (Hb & Bl & Br) _].
  assert (Hgt : forall y, y ∈ (elements r).*1 -> bytes_lt k y).
  { intros y Hy%Hge. bytes_order. }
  apply set_rebuild; auto; simpl; try lia.
  - destruct u; lia.
  - by rewrite E', kv_insert_app_l.
  - rewrite kv_lookup_app, U'. destruct (kv_lookup k (elements l)); [done|].
    assert (kv_lookup k (elements r) = None) as ->; [|done].
    apply kv_lookup_None. intros Hin%Hgt. by apply bytes_lt_irrefl in Hin.
  - intros ->. rewrite Hl', Hs' by done. lia.
Qed.

Lemma set_right version h s nv nk l r k v r' u :
  wf (Branch h s nv nk l r) -> leaves l + leaves r + 1 < max_leaves -> bytes_le nk k ->
  set_result r k v r' u ->
  set_result (Branch h s nv nk l r) k v
    (if u then Branch h s version nk l r'
     else reBalance version (updateHeightSize (Branch h s version nk l r'))) u.
Proof.
  intros Hwf Hlv Hc Hr. destruct (branch_split _ _ _ _ _ _ Hwf) as (Hk & Hlt & Hge & Hsl & Hsr).
  pose proof (sr_leaves _ _ _ _ _ Hsr Hr) as Hl'. rewrite Hk in Hc.
  pose proof (sr_min_key _ _ _ _ _ Hr Hc) as Hm. destruct Hr as [F' B' E' U' H' Hs'].
  destruct Hwf as [(-> & -> & _ & Fl & Fr) (Hb & Bl & Br) _].
  assert (Hgt : forall x, x ∈ (elements l).*1 -> bytes_lt x k).
  { intros y Hy%Hlt. subst nk. bytes_order. }
  apply set_rebuild; auto; simpl; try lia.
  - congruence.
  - destruct u; lia.
  - by rewrite E', kv_insert_app_r.
  - rewrite kv_lookup_app, U'. assert (kv_lookup k (elements l) = None) as ->; [|done].
    apply kv_lookup_None. intros Hin%Hgt. by apply bytes_lt_irrefl in Hin.
  - intros ->. rewrite Hl', Hs' by done. lia.
Qed.

Lemma setRecursive_result n k v version n' u :
  wf n -> leaves n + 1 < max_leaves ->
  setRecursive n k v version = (n', u) -> set_result n k v n' u.
Proof.
  revert n' u. induction n as [lv lk lx|h s nv nk l IHl r IHr]; intros n' u Hwf Hlv E.
  - simpl in E. destruct (Compare_spec k lk) as [->|Hc|Hc]; injection E as <- <-.
    + split; simpl; rewrite ?Compare_refl, ?decide_True; auto; lia.
    + split; simpl; try lia; auto.
      * rewrite Hc. done.
      * rewrite decide_False; [done|]. intros ->. by apply bytes_lt_irrefl in Hc.
    + split; simpl; try lia; auto.
      * rewrite (proj2 (Compare_gt _ _)) by done. done.
      * rewrite decide_False; [done|]. intros ->. by apply bytes_lt_irrefl in Hc.
  - destruct (wf_children _ _ _ _ _ _ Hwf) as [Hwl Hwr].
    rewrite leaves_Branch in Hlv. pose proof (leaves_pos l). pose proof (leaves_pos r).
    assert (Hside : bytes_lt k nk \/ bytes_le nk k).
    { destruct (Compare_spec k nk); [right; by right|by left|right; by left]. }
    simpl in E. destruct Hside as [Hc|Hc].
    + rewrite Hc in E. destruct (setRecursive l k v version) as [l' u'] eqn:El.
      assert (E' : n' = (if u' then Branch h s version nk l' r
        else reBalance version (updateHeightSize (Branch h s version nk l' r))) /\ u = u')
        by (destruct u'; injection E as <- <-; done).
      destruct E' as [-> ->]. apply set_left; auto. apply IHl; auto. lia.
    + assert (Hn : Compare k nk <> Lt).
      { intros Hlt. destruct Hc as [Hc|Hc]; [|subst; by apply bytes_lt_irrefl in Hlt].
        apply (bytes_lt_irrefl k). by apply (bytes_lt_trans _ nk). }
      destruct (setRecursive r k v version) as [r' u'] eqn:Er.
      assert (E' : n' = (if u' then Branch h s version nk l r'
        else reBalance version (updateHeightSize (Branch h s version nk l r'))) /\ u = u')
        by (destruct (Compare k nk); [| done|]; destruct u'; injection E as <- <-; done).
      destruct E' as [-> ->]. apply set_right; auto. apply IHr; auto. lia.
Qed.

Lemma set_result_wf n k v n' u : wf n -> set_result n k v n' u -> wf n'.
Proof. intros [_ _ Hs] [F B E _ _ _]. split; [done|done|]. rewrite E. by apply kv_insert_sorted. Qed.

(** ** Removal *)

(** The subtree [m] left after removing [k], with the new smallest key reported. *)
Record remove_result (n : Node) (k : bytes) (m : Node) (newKey : option bytes) : Prop := {
  rr_fields : fields_ok m;
  rr_balanced : balanced m;
  rr_elements : elements m = kv_delete k (elements n);
  rr_height : height n - 1 <= height m <= height n;
  rr_min : min_key m = default (min_key n) newKey
}.

Definition remove_post (n : Node) (k : bytes)
    (out : option bytes * option Node * option bytes) : Prop :=
  match out with
  | (None, n', newKey) => kv_lookup k (elements n) = None /\ n' = Some n /\ newKey = None
  | (Some value, None, newKey) => elements n = [(k, value)] /\ newKey = None
  | (Some value, Some m, newKey) =>
      kv_lookup k (elements n) = Some value /\ remove_result n k m newKey
  end.

Lemma rr_leaves n k m nk : remove_result n k m nk -> leaves m <= leaves n.
Proof.
  intros [_ _ E _ _]. unfold leaves. rewrite E, kv_delete_length.
  destruct (kv_lookup k (elements n)); lia.
Qed.

Lemma remove_left h s nv nk l r k version :
  wf (Branch h s nv nk l r) -> leaves l + leaves r < max_leaves -> bytes_lt k nk ->
  remove_post l k (removeRecursive l k version) ->
  remove_post (Branch h s nv nk l r) k (removeRecursive (Branch h s nv nk l r) k version).
Proof.
  intros Hwf Hlv Hc Hp. destruct (branch_split _ _ _ _ _ _ Hwf) as (Hk & Hlt & Hge & Hsl & Hsr).
  pose proof (leaves_pos r). destruct Hwf as [(-> & -> & _ & Fl & Fr) (Hb & Bl & Br) _].
  assert (Hnin : k ∉ (elements r).*1).
  { intros Hin%Hge. bytes_order. }
  assert (Hnl : kv_lookup k (elements r) = None) by by apply kv_lookup_None.
  simpl removeRecursive. rewrite Hc.
  destruct (removeRecursive l k version) as [[[value|] [l'|]] newKey]; simpl in Hp |- *;
    rewrite ?kv_lookup_app, ?Hnl.
  - destruct Hp as [Hv Hr]. rewrite Hv. split; [done|].
    pose proof (rr_leaves _ _ _ _ Hr). destruct Hr as [F B E Hh Hm].
    destruct (reBalance_spec version version nk l' r F Fr B Br Hk ltac:(lia)
      (1 + Z.max (height l) (height r)) (leaves l + leaves r) ltac:(lia)) as [F2 B2 E2 M2 H2 H2'].
    split; auto; simpl.
    + by rewrite E2, E, kv_delete_app_l.
    + destruct (decide (-1 <= height l' - height r <= 1)); [rewrite H2' by done; lia|lia].
    + by rewrite M2.
  - destruct Hp as [He ->]. rewrite He. simpl. rewrite decide_True by done. split; [done|].
    assert (Hl0 : height l = 0).
    { destruct l as [|h0 s0 v0 k0 l1 l2]; [done|]. exfalso.
      pose proof (leaves_pos l1). pose proof (leaves_pos l2).
      apply (f_equal zlen) in He. simpl in He. unfold leaves, zlen in *.
      rewrite length_app in He. simpl in He. lia. }
    split; simpl; [done|done| | |done].
    + rewrite He. simpl. by rewrite decide_True.
    + pose proof (height_nonneg r). lia.
  - destruct Hp as (Hv & [= ->] & ->). by rewrite Hv.
  - destruct Hp as (Hv & ? & ->). done.
Qed.

Lemma remove_right h s nv nk l r k version :
  wf (Branch h s nv nk l r) -> leaves l + leaves r < max_leaves -> bytes_le nk k ->
  remove_post r k (removeRecursive r k version) ->
  remove_post (Branch h s nv nk l r) k (removeRecursive (Branch h s nv nk l r) k version).
Proof.
  intros Hwf Hlv Hc Hp. destruct (branch_split _ _ _ _ _ _ Hwf) as (Hk & Hlt & Hge & Hsl & Hsr).
  pose proof (leaves_pos l). destruct Hwf as [(-> & -> & _ & Fl & Fr) (Hb & Bl & Br) _].
  assert (Hnin : k ∉ (elements l).*1).
  { intros Hin%Hlt. bytes_order. }
  assert (Hnl : kv_lookup k (elements l) = None) by by apply kv_lookup_None.
  simpl removeRecursive.
  assert (Hcmp : forall A (a b : A), match Compare k nk with Lt => a | _ => b end = b).
  { intros A a b. destruct (Compare k nk) eqn:E; try done. exfalso.
    change (bytes_lt k nk) in E. bytes_order. }
  rewrite Hcmp.
  destruct (removeRecursive r k version) as [[[value|] [r'|]] newKey]; simpl in Hp |- *;
    rewrite ?kv_lookup_app, ?Hnl.
  - destruct Hp as [Hv Hr]. split; [done|].
    pose proof (rr_leaves _ _ _ _ Hr). destruct Hr as [F B E Hh Hm].
    destruct (reBalance_spec version version (default nk newKey) l r' Fl F Bl B
      ltac:(by rewrite Hm, Hk) ltac:(lia)
      (1 + Z.max (height l) (height r)) (leaves l + leaves r) ltac:(lia)) as [F2 B2 E2 M2 H2 H2'].
    split; auto; simpl.
    + by rewrite E2, E, kv_delete_app_r.
    + destruct (decide (-1 <= height l - height r' <= 1)); [rewrite H2' by done; lia|lia].
  - destruct Hp as [He ->]. rewrite He. simpl. rewrite decide_True by done. split; [done|].
    assert (Hl0 : height r = 0).
    { destruct r as [|h0 s0 v0 k0 l1 l2]; [done|]. exfalso.
      pose proof (leaves_pos l1). pose proof (leaves_pos l2).
      apply (f_equal zlen) in He. simpl in He. unfold leaves, zlen in *.
      rewrite length_app in He. simpl in He. lia. }
    split; auto; simpl.
    + rewrite kv_delete_app_r by done. rewrite He. simpl. rewrite decide_True by done.
      by rewrite app_nil_r.
    + pose proof (height_nonneg l). lia.
  - destruct Hp as (Hv & [= ->] & ->). by rewrite Hv.
  - destruct Hp as (Hv & ? & ->). done.
Qed.

Lemma removeRecursive_post n k version :
  wf n -> leaves n < max_leaves -> remove_post n k (removeRecursive n k version).
Proof.
  induction n as [lv lk lx|h s nv nk l IHl r IHr]; intros Hwf Hlv.
  - simpl. case_decide as E; simpl; [by subst|]. rewrite decide_False by congruence. done.
  - destruct (wf_children _ _ _ _ _ _ Hwf) as [Hwl Hwr].
    rewrite leaves_Branch in Hlv. pose proof (leaves_pos l). pose proof (leaves_pos r).
    destruct (Compare_spec k nk) as [Hc|Hc|Hc].
    + apply remove_right; auto; [by right|]. apply IHr; auto. lia.
    + apply remove_left; auto. apply IHl; auto. lia.
    + apply remove_right; auto; [by left|]. apply IHr; auto. lia.
Qed.

(** The effect of removal on the root of a tree. *)
Lemma removeRecursive_root n k version value n' newKey :
  wf n -> leaves n < max_leaves -> removeRecursive n k version = (value, n', newKey) ->
  value = kv_lookup k (elements n) /\ wf_root n' /\ contents n' = kv_delete k (elements n).
Proof.
  intros Hwf Hlv E. pose proof (removeRecursive_post n k version Hwf Hlv) as Hp. rewrite E in Hp.
  destruct value as [value|], n' as [m|]; simpl in *.
  - destruct Hp as [-> [F B Em _ _]]. split; [done|]. split; [|done]. split; [done|done|].
    rewrite Em. apply kv_delete_sorted, Hwf.
  - destruct Hp as [-> _]. simpl. rewrite !decide_True by done. done.
  - destruct Hp as (Hv & [= ->] & _). split; [done|]. split; [done|].
    symmetry. apply kv_delete_notin. by apply kv_lookup_None.
  - destruct Hp as (_ & ? & _). done.
Qed.

(** ** Lookup *)

Lemma Get_elements n k :
  wf n -> leaves n < 2 ^ 32 -> Get n k = (kv_lookup k (elements n), kv_rank k (elements n)).
Proof.
  induction n as [lv lk lx|h s nv nk l IHl r IHr]; intros Hwf Hlv.
  - simpl. unfold ltb. destruct (Compare_spec lk k) as [->|Hc|Hc].
    + rewrite decide_True by done. done.
    + rewrite decide_False by (intros ->; by apply bytes_lt_irrefl in Hc). done.
    + rewrite decide_False by (intros ->; by apply bytes_lt_irrefl in Hc). done.
  - destruct (branch_split _ _ _ _ _ _ Hwf) as (Hk & Hlt & Hge & Hsl & Hsr).
    destruct (wf_children _ _ _ _ _ _ Hwf) as [Hwl Hwr].
    destruct Hwf as [(-> & -> & _ & Fl & Fr) (Hb & Bl & Br) _].
    rewrite leaves_Branch in Hlv. pose proof (leaves_pos l). pose proof (leaves_pos r).
    simpl. destruct (decide (bytes_lt k nk)) as [Hc|Hc].
    + rewrite Hc, IHl by (auto; lia). rewrite kv_lookup_app.
      rewrite kv_rank_app_l by (intros y Hy%Hge ?; bytes_order).
      destruct (kv_lookup k (elements l)); [done|].
      assert (kv_lookup k (elements r) = None) as ->; [|done].
      apply kv_lookup_None. intros Hin%Hge. bytes_order.
    + assert (Hl : forall x, x ∈ (elements l).*1 -> bytes_lt x k).
      { intros x Hx%Hlt. bytes_order. }
      rewrite kv_lookup_app, kv_rank_app_r by done.
      rewrite (proj2 (kv_lookup_None k (elements l)))
        by (intros Hin%Hl; by apply bytes_lt_irrefl in Hin).
      unfold bytes_lt in Hc. rewrite IHr by (auto; lia). rewrite fields_Size by done.
      pose proof (kv_rank_range k (elements r)). fold (leaves r) in *. fold (leaves l).
      rewrite !u32_small by (rewrite ?(u32_small (_ + _)), ?(u32_small (leaves r)); lia).
      destruct (Compare k nk); try done; do 2 f_equal; lia.
Qed.

Lemma GetByIndex_elements n i :
  fields_ok n -> leaves n < 2 ^ 32 -> 0 <= i < 2 ^ 32 -> GetByIndex n i = elements n !! Z.to_nat i.
Proof.
  revert i. induction n as [lv lk lx|h s nv nk l IHl r IHr]; intros i Hf Hlv Hi.
  - simpl. destruct (Z.eqb_spec i 0) as [->|]; [done|].
    destruct (Z.to_nat i) eqn:E; [lia|done].
  - destruct Hf as (-> & -> & _ & Fl & Fr). rewrite leaves_Branch in Hlv.
    pose proof (leaves_pos l). pose proof (leaves_pos r).
    simpl. rewrite fields_Size, u32_small by (done || lia).
    destruct (Z.ltb_spec i (leaves l)).
    + rewrite IHl by (done || lia). symmetry. apply lookup_app_l.
      unfold leaves, zlen in *. lia.
    + rewrite u32_small by lia. rewrite IHr by (done || lia).
      unfold leaves, zlen in *. rewrite lookup_app_r by lia. f_equal. lia.
Qed.

(** ** Deciding the invariant *)

Fixpoint fields_okb (n : Node) : bool :=
  match n with
  | Leaf _ _ _ => true
  | Branch h s _ k l r =>
      (h =? 1 + Z.max (height l) (height r)) && (s =? leaves l + leaves r) &&
      bool_decide (k = min_key r) && fields_okb l && fields_okb r
  end.

Fixpoint balancedb (n : Node) : bool :=
  match n with
  | Leaf _ _ _ => true
  | Branch _ _ _ _ l r =>
      (-1 <=? height l - height r) && (height l - height r <=? 1) && balancedb l && balancedb r
  end.

Fixpoint sortedb (l : list bytes) : bool :=
  match l with
  | a :: (b :: _) as l' => ltb a b && sortedb l'
  | _ => true
  end.

Definition wfb (n : Node) : bool := fields_okb n && balancedb n && sortedb (elements n).*1.

Lemma sortedb_sound l : sortedb l = true -> StronglySorted bytes_lt l.
Proof.
  intros H. apply Sorted_StronglySorted; [exact bytes_lt_trans|].
  induction l as [|a [|b l] IH]; [constructor|repeat constructor|].
  simpl in H. apply andb_true_iff in H as [H1 H2]. constructor; [by apply IH|].
  constructor. by destruct (ltb_spec a b).
Qed.

Lemma wfb_sound n : wfb n = true -> wf n.
Proof.
  unfold wfb. rewrite !andb_true_iff. intros [[Hf Hb] Hs]. split; [| |by apply sortedb_sound].
  - clear Hb Hs. induction n as [|h s v k l IHl r IHr]; simpl in *; [done|].
    rewrite !andb_true_iff in Hf. destruct Hf as [[[[H1 H2] H3] H4] H5].
    apply Z.eqb_eq in H1, H2. apply bool_decide_eq_true in H3. auto 10.
  - clear Hf Hs. induction n as [|h s v k l IHl r IHr]; simpl in *; [done|].
    rewrite !andb_true_iff in Hb. destruct Hb as [[[H1 H2] H3] H4].
    apply Z.leb_le in H1, H2. auto 10.
Qed.

(** ** Properties *)

(** A tree of the letters a, c, e, g used by the witnesses. *)
Definition sample_leaf (v : Z) (k x : string) : Node := Leaf v (str k) (str x).
Definition sample_tree : Node :=
  Branch 2 4 3 (str "e")
    (Branch 1 2 1 (str "c") (sample_leaf 1 "a" "1") (sample_leaf 1 "c" "2"))
    (Branch 1 2 3 (str "g") (sample_leaf 2 "e" "3") (sample_leaf 3 "g" "4")).

Lemma sample_tree_wf : wf sample_tree.
Proof. apply wfb_sound. vm_compute. reflexivity. Qed.

(** C4: inserting into a well-formed tree gives a well-formed tree (exact cached
    heights, sizes and keys, AVL balance, ordered keys) whose ordered contents are
    the old ones with the key bound to the new value; the flag says whether the key
    was there, and the height grows by at most one. *)
Theorem setRecursive_correct n k v version n' updated :
  wf n -> leaves n + 1 < max_leaves -> setRecursive n k v version = (n', updated) ->
  wf n' /\ elements n' = kv_insert k v (elements n) /\
  updated = match kv_lookup k (elements n) with Some _ => true | None => false end /\
  height n <= height n' <= height n + 1.
Proof.
  intros Hw Hl E. pose proof (setRecursive_result n k v version n' updated Hw Hl E) as R.
  split; [by eapply set_result_wf|]. destruct R. auto.
Qed.

Lemma setRecursive_correct_witness :
  let n' := (setRecursive sample_tree (str "d") (str "9") 4).1 in
  wf n' /\ elements n' = kv_insert (str "d") (str "9") (elements sample_tree) /\
  false = match kv_lookup (str "d") (elements sample_tree) with Some _ => true | None => false end /\
  height sample_tree <= height n' <= height sample_tree + 1.
Proof.
  apply (setRecursive_correct sample_tree (str "d") (str "9") 4);
    [exact sample_tree_wf|vm_compute; reflexivity|vm_compute; reflexivity].
Defined.

(** C5: removing a key from a well-formed tree returns the value the key had, and
    leaves a well-formed tree (or nil) with the contents without the key. *)
Theorem removeRecursive_correct n k version value n' newKey :
  wf n -> leaves n < max_leaves -> removeRecursive n k version = (value, n', newKey) ->
  value = kv_lookup k (elements n) /\ wf_root n' /\ contents n' = kv_delete k (elements n).
Proof. apply removeRecursive_root. Qed.

Lemma removeRecursive_correct_witness :
  let '(value, n', _) := removeRecursive sample_tree (str "e") 4 in
  value = kv_lookup (str "e") (elements sample_tree) /\ wf_root n' /\
  contents n' = kv_delete (str "e") (elements sample_tree).
Proof.
  apply (removeRecursive_correct sample_tree (str "e") 4 _ _ None);
    [exact sample_tree_wf|vm_compute; reflexivity|vm_compute; reflexivity].
Defined.

(** the height of a well-formed tree with fewer than [2 ^ 62] leaves is at most
    88, and its [uint8] height field is that height: it never wraps, nor does the
    [int8] it is exported as. *)
Theorem Height_bounded n :
  wf n -> leaves n < max_leaves -> Height n = height n /\ 0 <= Height n <= 88.
Proof.
  intros [Hf Hb _] Hl. rewrite fields_Height by done. split; [done|].
  split; [apply height_nonneg|by apply height_bound].
Qed.

Lemma Height_bounded_witness :
  Height sample_tree = height sample_tree /\ 0 <= Height sample_tree <= 88.
Proof. apply (Height_bounded sample_tree); [exact sample_tree_wf|vm_compute; reflexivity]. Defined.

(** descending the tree finds the value of a key and the number of smaller keys,
    the index of the key, also when the key is absent. *)
Theorem Get_correct n k :
  wf n -> leaves n < 2 ^ 32 -> Get n k = (kv_lookup k (elements n), kv_rank k (elements n)).
Proof. apply Get_elements. Qed.

Lemma Get_correct_witness :
  Get sample_tree (str "f") =
  (kv_lookup (str "f") (elements sample_tree), kv_rank (str "f") (elements sample_tree)).
Proof. apply (Get_correct sample_tree (str "f")); [exact sample_tree_wf|vm_compute; reflexivity]. Defined.
