(* ===== verification/NodeIface.v ===== *)
(** * The [Node] interface (memiavl/node.go)

    [NodeOps] has the methods of the interface [Node] that readers of a tree use;
    [MemNode], [PersistedNode] and the tree a node denotes implement it.
    [NodeLaws] is what an implementation promises: a relation between its nodes and
    the trees of Node.v under which every method agrees with the tree.  The iterator,
    the post-order scan, the snapshot writer and the proofs are written and proved
    against the interface, once for all implementations. *)

From Stdlib Require Import Strings.Byte ZArith Lia.
From stdpp Require Import base list numbers strings gmap sorting.
From S2P Require Import Prelude Binary Sha256 Node NodeInv.
Local Open Scope Z_scope.

Class NodeOps (NT : Type) := {
  node_Height : NT -> res Z;
  node_IsLeaf : NT -> res bool;
  node_Size : NT -> res Z;
  node_Version : NT -> res Z;
  node_Key : NT -> res bytes;
  node_Value : NT -> res (option bytes);
  node_Left : NT -> res NT;
  node_Right : NT -> res NT;
  node_Hash : NT -> res bytes
}.

(** What the accessors of a node return when it denotes a tree. *)
Record node_reads `{NodeOps NT} (x : NT) (n : Node) : Prop := {
  reads_Height : node_Height x = Ok (Height n);
  reads_IsLeaf : node_IsLeaf x = Ok (IsLeaf n);
  reads_Size : node_Size x = Ok (Size n);
  reads_Version : node_Version x = Ok (Version n);
  reads_Key : node_Key x = Ok (Key n);
  reads_Value : node_Value x = Ok (Value n);
  reads_Hash : node_Hash x = Ok (HashNode n)
}.

Class NodeLaws (NT : Type) `{NodeOps NT} (denotes : NT -> Node -> Prop) := {
  denotes_reads x n : denotes x n -> node_reads x n;
  denotes_Left x h s v k l r :
    denotes x (Branch h s v k l r) -> exists y, node_Left x = Ok y /\ denotes y l;
  denotes_Right x h s v k l r :
    denotes x (Branch h s v k l r) -> exists y, node_Right x = Ok y /\ denotes y r
}.

(** The tree itself is an implementation; a nil child cannot be dereferenced. *)
#[export] Instance tree_ops : NodeOps Node := {|
  node_Height n := Ok (Height n);
  node_IsLeaf n := Ok (IsLeaf n);
  node_Size n := Ok (Size n);
  node_Version n := Ok (Version n);
  node_Key n := Ok (Key n);
  node_Value n := Ok (Value n);
  node_Left n := of_option (Left n);
  node_Right n := of_option (Right n);
  node_Hash n := Ok (HashNode n)
|}.

#[export] Instance tree_laws : NodeLaws Node eq.
Proof.
  split.
  - intros x n ->. by constructor.
  - intros x h s v k l r ->. exists l. done.
  - intros x h s v k l r ->. exists r. done.
Qed.

(** The number of nodes of a tree, which bounds every traversal. *)
Fixpoint node_count (n : Node) : nat :=
  match n with
  | Leaf _ _ _ => 1
  | Branch _ _ _ _ l r => S (node_count l + node_count r)
  end.

Lemma node_count_pos n : (1 <= node_count n)%nat.
Proof. destruct n; simpl; lia. Qed.

(** A branch node per leaf but one. *)
Lemma node_count_leaves n : Z.of_nat (node_count n) = 2 * leaves n - 1.
Proof.
  induction n as [|h s v k l IHl r IHr]; [done|]. rewrite leaves_Branch. simpl. lia.
Qed.

(** Rewrites the accessors of a node known to denote a tree. *)
Ltac node_read H :=
  let R := fresh "R" in
  pose proof (denotes_reads _ _ H) as R;
  rewrite ?(reads_Height _ _ R), ?(reads_IsLeaf _ _ R), ?(reads_Size _ _ R),
    ?(reads_Version _ _ R), ?(reads_Key _ _ R), ?(reads_Value _ _ R), ?(reads_Hash _ _ R);
  clear R.

(** ** Hashes of nodes behind the interface *)

(** [HashNode] computes the digest from the fields of the node and the hashes its
    children report; [VerifyHash] compares it with the hash the node reports. *)
Definition iHashNode `{NodeOps NT} (node : NT) : res bytes :=
  height ← node_Height node;
  size ← node_Size node;
  version ← node_Version node;
  isLeaf ← node_IsLeaf node;
  if isLeaf : bool then
    key ← node_Key node;
    value ← node_Value node;
    Ok (Sha256.Sum256 (leaf_hash_bytes height size version key (default [] value)))
  else
    left ← node_Left node ≫= node_Hash;
    right ← node_Right node ≫= node_Hash;
    Ok (Sha256.Sum256 (branch_hash_bytes height size version left right)).

Definition VerifyHash `{NodeOps NT} (node : NT) : res bool :=
  computed ← iHashNode node;
  hash ← node_Hash node;
  Ok (bool_decide (computed = hash)).

Lemma iHashNode_denotes `{NodeLaws NT denotes} x n : denotes x n -> iHashNode x = Ok (HashNode n).
Proof.
  intros Hd. unfold iHashNode. node_read Hd. simpl. destruct n as [v k w|h s v k l r].
  - simpl. node_read Hd. done.
  - simpl. destruct (denotes_Left _ _ _ _ _ _ _ Hd) as (yl & -> & Dl).
    destruct (denotes_Right _ _ _ _ _ _ _ Hd) as (yr & -> & Dr). simpl.
    node_read Dl. node_read Dr. done.
Qed.

Lemma VerifyHash_denotes `{NodeLaws NT denotes} x n : denotes x n -> VerifyHash x = Ok true.
Proof.
  intros Hd. unfold VerifyHash. rewrite (iHashNode_denotes x n Hd). simpl. node_read Hd. simpl.
  by rewrite bool_decide_eq_true_2.
Qed.
