(* ===== verification/Iterator.v ===== *)
(** * Iterators and the post-order scan (memiavl/iterator.go, memiavl/tree.go)

    The iterator keeps a stack of subtrees still to be visited; [Next] pops nodes
    until it reaches a leaf of the domain.  The theorems say that draining an
    iterator yields exactly the pairs of the domain, in order or in reverse order,
    and that the scan visits the nodes in post-order. *)

From Stdlib Require Import Strings.Byte ZArith Lia.
From stdpp Require Import base list numbers strings gmap sorting.
From S2P Require Import Prelude Binary Sha256 Node NodeInv NodeIface.
Local Open Scope Z_scope.

Section iterator.
  Context `{NodeOps NT}.

(** The top of the stack is the head of the list. *)
Record Iterator : Type := {
  it_start : option bytes;
  it_end : option bytes;
  it_ascending : bool;
  it_key : option bytes;
  it_value : option bytes;
  it_valid : bool;
  it_stack : list NT
}.

Definition afterStart (start : option bytes) (key : bytes) : bool :=
  match start with None => true | Some s => ltb s key end.
Definition startOrAfter (start : option bytes) (key : bytes) : bool :=
  afterStart start key ||
  match Compare (default [] start) key with Eq => true | _ => false end.
Definition beforeEnd (end_ : option bytes) (key : bytes) : bool :=
  match end_ with None => true | Some e => ltb key e end.

Definition push_if (b : bool) (child : res NT) (stack : list NT) : res (list NT) :=
  if b then c ← child; Ok (c :: stack) else Ok stack.

(** The loop of [Next]. *)
Fixpoint next_loop (fuel : nat) (it : Iterator) : res Iterator :=
  match fuel with
  | O => out_of_fuel
  | S fuel =>
      match it_stack it with
      | [] =>
          Ok {| it_start := it_start it; it_end := it_end it; it_ascending := it_ascending it;
                it_key := it_key it; it_value := it_value it;
                it_valid := false; it_stack := [] |}
      | node :: stack =>
          key ← node_Key node;
          isLeaf ← node_IsLeaf node;
          if isLeaf : bool then
            if startOrAfter (it_start it) key && beforeEnd (it_end it) key then
              value ← node_Value node;
              Ok {| it_start := it_start it; it_end := it_end it;
                    it_ascending := it_ascending it;
                    it_key := Some key; it_value := value;
                    it_valid := it_valid it; it_stack := stack |}
            else
              next_loop fuel
                {| it_start := it_start it; it_end := it_end it;
                   it_ascending := it_ascending it;
                   it_key := it_key it; it_value := it_value it;
                   it_valid := it_valid it; it_stack := stack |}
          else
            stack' ←
              (if it_ascending it then
                 st ← push_if (beforeEnd (it_end it) key) (node_Right node) stack;
                 push_if (afterStart (it_start it) key) (node_Left node) st
               else
                 st ← push_if (afterStart (it_start it) key) (node_Left node) stack;
                 push_if (beforeEnd (it_end it) key) (node_Right node) st);
            next_loop fuel
              {| it_start := it_start it; it_end := it_end it;
                 it_ascending := it_ascending it;
                 it_key := it_key it; it_value := it_value it;
                 it_valid := it_valid it; it_stack := stack' |}
      end
  end.

Definition Next (fuel : nat) (it : Iterator) : res Iterator := next_loop fuel it.

Definition NewIterator (fuel : nat) (start end_ : option bytes) (ascending : bool)
    (root : option NT) : res Iterator :=
  Next fuel
    {| it_start := start; it_end := end_; it_ascending := ascending;
       it_key := None; it_value := None; it_valid := true;
       it_stack := match root with None => [] | Some r => [r] end |}.

Definition Close (it : Iterator) : Iterator :=
  {| it_start := it_start it; it_end := it_end it; it_ascending := it_ascending it;
     it_key := it_key it; it_value := it_value it; it_valid := false; it_stack := [] |}.

(** The usual client loop [for ; iter.Valid(); iter.Next()], collecting the pairs. *)
Fixpoint drain (rounds fuel : nat) (it : Iterator) : res (list (option bytes * option bytes)) :=
  match rounds with
  | O => out_of_fuel
  | S rounds =>
      if it_valid it then
        it' ← Next fuel it;
        rest ← drain rounds fuel it';
        Ok ((it_key it, it_value it) :: rest)
      else Ok []
  end.

(** ** [ScanPostOrder] *)

(** A stack entry is a node and whether it was expanded.  The callback threads a
    state; its boolean result is dropped, as in the code. *)
Fixpoint scan_loop {S} (callback : S -> NT -> S * bool) (fuel : nat) (s : S)
    (stack : list (NT * bool)) : res S :=
  match fuel with
  | O => out_of_fuel
  | S fuel =>
      match stack with
      | [] => Ok s
      | (node, expanded) :: rest =>
          isLeaf ← node_IsLeaf node;
          if isLeaf || expanded then scan_loop callback fuel (callback s node).1 rest
          else
            right ← node_Right node;
            left ← node_Left node;
            scan_loop callback fuel s ((left, false) :: (right, false) :: (node, true) :: rest)
      end
  end.

Definition ScanPostOrder {S} (callback : S -> NT -> S * bool) (fuel : nat) (root : option NT)
    (s : S) : res S :=
  match root with
  | None => Ok s
  | Some r => scan_loop callback fuel s [(r, false)]
  end.

End iterator.
Arguments Iterator : clear implicits.

(** ** What the iterator yields *)

(** The domain of iteration: the end is exclusive, a nil bound is no bound. *)
Definition in_domain (start end_ : option bytes) (key : bytes) : bool :=
  match start with None => true | Some s => negb (ltb key s) end &&
  match end_ with None => true | Some e => ltb key e end.

(** The pairs of [l] in the domain, in the direction of the iteration. *)
Definition domain_of (start end_ : option bytes) (ascending : bool)
    (l : list (bytes * bytes)) : list (bytes * bytes) :=
  let m := List.filter (fun p => in_domain start end_ p.1) l in
  if ascending then m else rev m.

Lemma leaf_in_domain start end_ key :
  startOrAfter start key && beforeEnd end_ key = in_domain start end_ key.
Proof.
  unfold startOrAfter, afterStart, beforeEnd, in_domain. f_equal.
  destruct start as [s|]; [|done]. simpl. unfold ltb. rewrite (Compare_opp s key).
  by destruct (Compare s key).
Qed.

Lemma filter_none {A} (f : A -> bool) l : (forall x, x ∈ l -> f x = false) -> List.filter f l = [].
Proof.
  induction l as [|a l IH]; intros Hf; simpl; [done|].
  rewrite (Hf a) by (left; done). apply IH. intros x Hx. apply Hf. by right.
Qed.

(** The subtrees that are not pushed hold nothing of the domain. *)
Lemma prune_right start end_ h s v k l r :
  wf (Branch h s v k l r) -> beforeEnd end_ k = false ->
  List.filter (fun p => in_domain start end_ p.1) (elements r) = [].
Proof.
  intros Hwf He. apply branch_split in Hwf as (_ & _ & Hge & _).
  apply filter_none. intros [x w] Hx. unfold in_domain, beforeEnd in *. simpl.
  destruct end_ as [e|]; [|done]. destruct (ltb_spec k e) as [|Hke]; [done|].
  destruct (ltb_spec x e) as [Hxe|]; [|by rewrite andb_false_r].
  exfalso. apply Hke. assert (bytes_le k x) by (apply Hge, (list_elem_of_fmap_2 fst _ _ Hx)).
  bytes_order.
Qed.

Lemma prune_left start end_ h s v k l r :
  wf (Branch h s v k l r) -> afterStart start k = false ->
  List.filter (fun p => in_domain start end_ p.1) (elements l) = [].
Proof.
  intros Hwf He. apply branch_split in Hwf as (_ & Hlt & _).
  apply filter_none. intros [x w] Hx. unfold in_domain, afterStart in *. simpl.
  destruct start as [e|]; [|done]. destruct (ltb_spec e k) as [|Hke]; [done|].
  destruct (ltb_spec x e) as [Hxe|Hxe]; [done|].
  exfalso. apply Hke. assert (bytes_lt x k) by (apply Hlt, (list_elem_of_fmap_2 fst _ _ Hx)).
  bytes_order.
Qed.

Section iterator_spec.
  Context `{NodeLaws NT denotes}.
  Variables (start end_ : option bytes) (ascending : bool).

Definition pending (trees : list Node) : list (bytes * bytes) :=
  concat (map (fun n => domain_of start end_ ascending (elements n)) trees).

Definition count_nodes (trees : list Node) : nat := sum_list_with node_count trees.

(** The state of an iterator whose remaining stack denotes [trees]. *)
Record iterating (it : Iterator NT) (trees : list Node) : Prop := {
  itg_start : it_start it = start;
  itg_end : it_end it = end_;
  itg_asc : it_ascending it = ascending;
  itg_valid : it_valid it = true;
  itg_stack : Forall2 denotes (it_stack it) trees;
  itg_wf : Forall wf trees
}.

(** The outcome of [Next]: the first pending pair is cached and the others are
    left on the stack, or nothing is pending and the iterator is invalid. *)
Definition next_post (trees : list Node) (it' : Iterator NT) : Prop :=
  match pending trees with
  | [] => it_valid it' = false
  | (k, v) :: rest =>
      exists trees', iterating it' trees' /\ it_key it' = Some k /\ it_value it' = Some v /\
        pending trees' = rest /\ (count_nodes trees' <= count_nodes trees)%nat
  end.

Lemma pending_cons n trees :
  pending (n :: trees) = domain_of start end_ ascending (elements n) ++ pending trees.
Proof. done. Qed.

(** Expanding a branch leaves the pending pairs as they are. *)
Lemma expand_branch x stack h s v k l r trees :
  denotes x (Branch h s v k l r) -> wf (Branch h s v k l r) ->
  Forall2 denotes stack trees -> Forall wf trees ->
  exists stack' trees',
    (if ascending then
       st ← push_if (beforeEnd end_ k) (node_Right x) stack;
       push_if (afterStart start k) (node_Left x) st
     else
       st ← push_if (afterStart start k) (node_Left x) stack;
       push_if (beforeEnd end_ k) (node_Right x) st) = Ok stack' /\
    Forall2 denotes stack' trees' /\ Forall wf trees' /\
    pending trees' = pending (Branch h s v k l r :: trees) /\
    (count_nodes trees' < count_nodes (Branch h s v k l r :: trees))%nat.
Proof.
  intros Hd Hwf Hs Hw. destruct (wf_children _ _ _ _ _ _ Hwf) as [Hwl Hwr].
  destruct (denotes_Left _ _ _ _ _ _ _ Hd) as (yl & El & Dl).
  destruct (denotes_Right _ _ _ _ _ _ _ Hd) as (yr & Er & Dr).
  pose proof (prune_left start end_ _ _ _ _ _ _ Hwf) as Pl.
  pose proof (prune_right start end_ _ _ _ _ _ _ Hwf) as Pr.
  exists ((if ascending
      then (if afterStart start k then [yl] else []) ++ (if beforeEnd end_ k then [yr] else [])
      else (if beforeEnd end_ k then [yr] else []) ++ (if afterStart start k then [yl] else []))
      ++ stack).
  exists ((if ascending
      then (if afterStart start k then [l] else []) ++ (if beforeEnd end_ k then [r] else [])
      else (if beforeEnd end_ k then [r] else []) ++ (if afterStart start k then [l] else []))
      ++ trees).
  unfold push_if, pending, count_nodes, domain_of. simpl. rewrite List.filter_app, El, Er.
  destruct ascending, (afterStart start k), (beforeEnd end_ k); simpl;
    rewrite ?(Pl eq_refl), ?(Pr eq_refl), ?rev_app_distr, <- ?app_assoc, ?app_nil_r;
    simpl; repeat split; auto; lia.
Qed.

Lemma next_loop_post fuel it trees :
  iterating it trees -> (count_nodes trees < fuel)%nat ->
  exists it', next_loop fuel it = Ok it' /\ next_post trees it'.
Proof.
  revert it trees. induction fuel as [|fuel IH]; intros it trees Hi Hf; [lia|].
  destruct Hi as [Es Ee Ea Ev Hs Hw]. simpl. destruct Hs as [|x n stack trees Hd Hs].
  { eexists. split; [done|]. done. }
  apply Forall_cons_1 in Hw as [Hwn Hw].
  node_read Hd. simpl. rewrite Es, Ee. destruct n as [lv lk lx|h s v k l r].
  - simpl. rewrite leaf_in_domain.
    assert (Ep : pending (Leaf lv lk lx :: trees) =
      (if in_domain start end_ lk then [(lk, lx)] else []) ++ pending trees).
    { rewrite pending_cons. unfold domain_of. simpl. by destruct (in_domain _ _ _), ascending. }
    unfold next_post. rewrite Ep. destruct (in_domain start end_ lk); simpl.
    + node_read Hd. eexists. split; [done|]. exists trees. split; [by split|]. do 3 (split; [done|]).
      unfold count_nodes. simpl. lia.
    + destruct (IH {| it_start := start; it_end := end_; it_ascending := it_ascending it;
        it_key := it_key it; it_value := it_value it; it_valid := it_valid it;
        it_stack := stack |} trees) as (it' & E & Hp).
      { by split. } { unfold count_nodes in *. simpl in Hf. lia. }
      exists it'. split; [done|]. unfold next_post in Hp.
      destruct (pending trees) as [|[k v] rest]; [done|].
      destruct Hp as (t' & ? & ? & ? & ? & ?). exists t'. do 4 (split; [done|]).
      unfold count_nodes in *. simpl. lia.
  - destruct (expand_branch x stack h s v k l r trees Hd Hwn Hs Hw)
      as (stack' & trees' & E & Hs' & Hw' & Ep & Hc).
    simpl Key. simpl IsLeaf. cbv iota. rewrite Ea, E. simpl.
    destruct (IH {| it_start := start; it_end := end_; it_ascending := ascending;
      it_key := it_key it; it_value := it_value it; it_valid := it_valid it;
      it_stack := stack' |} trees') as (it' & E' & Hp). { by split. } { lia. }
    exists it'. split; [done|]. unfold next_post in *. rewrite <- Ep.
    destruct (pending trees') as [|[k' v'] rest]; [done|].
    destruct Hp as (t' & ? & ? & ? & ? & ?). exists t'. do 4 (split; [done|]). lia.
Qed.

Lemma pending_length trees : (length (pending trees) <= count_nodes trees)%nat.
Proof.
  induction trees as [|n trees IH]; [done|]. rewrite pending_cons, length_app.
  assert (length (domain_of start end_ ascending (elements n)) <= node_count n)%nat.
  { unfold domain_of.
    assert (length (List.filter (fun p => in_domain start end_ p.1) (elements n))
      <= length (elements n))%nat by apply List.filter_length_le.
    pose proof (node_count_leaves n). pose proof (leaves_pos n). unfold leaves, zlen in *.
    destruct ascending; rewrite ?length_rev; lia. }
  unfold count_nodes in *. simpl. lia.
Qed.

Lemma drain_pending fuel rounds trees it :
  next_post trees it -> (count_nodes trees < fuel)%nat -> (length (pending trees) < rounds)%nat ->
  drain rounds fuel it = Ok (map (fun p => (Some p.1, Some p.2)) (pending trees)).
Proof.
  revert trees it. induction rounds as [|rounds IH]; intros trees it Hp Hf Hr; [lia|].
  unfold next_post in Hp. simpl. destruct (pending trees) as [|[k v] rest].
  - by rewrite Hp.
  - destruct Hp as (trees' & Hi & Ek & Ev & <- & Hc). simpl in Hr.
    destruct (next_loop_post fuel it trees' Hi) as (it' & E & Hp'); [lia|].
    rewrite (itg_valid _ _ Hi). unfold Next. rewrite E. simpl.
    rewrite (IH trees' it' Hp') by lia. simpl. by rewrite Ek, Ev.
Qed.

Lemma drain_NewIterator fuel rounds (root : option NT) (tree : option Node) :
  option_Forall2 denotes root tree -> wf_root tree ->
  (count_nodes (option_list tree) < fuel)%nat -> (count_nodes (option_list tree) < rounds)%nat ->
  NewIterator fuel start end_ ascending root ≫= drain rounds fuel =
  Ok (map (fun p => (Some p.1, Some p.2)) (domain_of start end_ ascending (contents tree))).
Proof.
  intros Hd Hw Hf Hr.
  assert (Ep : pending (option_list tree) = domain_of start end_ ascending (contents tree)).
  { destruct Hd; simpl; [by rewrite pending_cons, app_nil_r|].
    unfold domain_of. by destruct ascending. }
  unfold NewIterator, Next.
  edestruct (next_loop_post fuel {| it_start := start; it_end := end_; it_ascending := ascending;
    it_key := None; it_value := None; it_valid := true;
    it_stack := match root with None => [] | Some r => [r] end |} (option_list tree))
    as (it' & E & Hp).
  { split; try done; destruct Hd; simpl; auto. }
  { done. }
  simpl. rewrite E. simpl. rewrite <- Ep. apply drain_pending; [done..|].
  pose proof (pending_length (option_list tree)). lia.
Qed.

(** ** What the post-order scan visits *)

Fixpoint post_order (n : Node) : list Node :=
  match n with
  | Leaf _ _ _ => [n]
  | Branch _ _ _ _ l r => post_order l ++ post_order r ++ [n]
  end.

Lemma scan_loop_subtree n x :
  denotes x n ->
  exists xs steps, Forall2 denotes xs (post_order n) /\ (steps <= 2 * node_count n)%nat /\
  forall S (callback : S -> NT -> S * bool) fuel s rest,
    scan_loop callback (steps + fuel) s ((x, false) :: rest) =
    scan_loop callback fuel (foldl (fun s y => (callback s y).1) s xs) rest.
Proof.
  revert x. induction n as [lv lk lx|h s v k l IHl r IHr]; intros x Hd.
  - exists [x], 1%nat. split; [simpl; auto|]. split; [simpl; lia|]. intros S cb fuel s rest.
    simpl. node_read Hd. done.
  - destruct (denotes_Left _ _ _ _ _ _ _ Hd) as (yl & El & Dl).
    destruct (denotes_Right _ _ _ _ _ _ _ Hd) as (yr & Er & Dr).
    destruct (IHl yl Dl) as (ls & nl & Fl & Cl & Sl).
    destruct (IHr yr Dr) as (rs & nr & Fr & Cr & Sr).
    exists (ls ++ rs ++ [x]), (S (nl + (nr + 1)))%nat.
    split; [simpl; repeat apply Forall2_app; auto|]. split; [simpl; lia|].
    intros S cb fuel s0 rest.
    cbn [scan_loop plus]. node_read Hd. simpl. rewrite Er, El. simpl.
    rewrite <- Nat.add_assoc, Sl, <- Nat.add_assoc, Sr. simpl. node_read Hd. simpl.
    by rewrite !foldl_app.
Qed.

Lemma ScanPostOrder_visits n x :
  denotes x n ->
  exists xs, Forall2 denotes xs (post_order n) /\
  forall S (callback : S -> NT -> S * bool) fuel s,
    (2 * node_count n < fuel)%nat ->
    ScanPostOrder callback fuel (Some x) s = Ok (foldl (fun s y => (callback s y).1) s xs).
Proof.
  intros Hd. destruct (scan_loop_subtree n x Hd) as (xs & steps & Hx & Hc & Hs).
  exists xs. split; [done|]. intros S cb fuel s Hf. unfold ScanPostOrder.
  replace fuel with (steps + (1 + (fuel - steps - 1)))%nat by lia. rewrite Hs. done.
Qed.
End iterator_spec.

(** ** Properties *)

(** C31: draining an iterator over any implementation of nodes returns exactly the pairs
    of the tree whose keys are in the domain (start inclusive, end exclusive, a nil bound
    for no bound), in key order or in reverse; the loops end within as many rounds as
    the tree has nodes. *)
Theorem iterator_yields_domain `{NodeLaws NT denotes} start end_ ascending fuel rounds
    (root : option NT) (tree : option Node) :
  option_Forall2 denotes root tree -> wf_root tree ->
  (count_nodes (option_list tree) < fuel)%nat -> (count_nodes (option_list tree) < rounds)%nat ->
  NewIterator fuel start end_ ascending root ≫= drain rounds fuel =
  Ok (map (fun p => (Some p.1, Some p.2)) (domain_of start end_ ascending (contents tree))).
Proof. apply drain_NewIterator. Qed.

Lemma iterator_yields_domain_witness :
  NewIterator 8 (Some (str "b")) (Some (str "g")) false (Some sample_tree) ≫= drain 8 8 =
  Ok (map (fun p => (Some p.1, Some p.2))
        (domain_of (Some (str "b")) (Some (str "g")) false (elements sample_tree))).
Proof.
  apply (iterator_yields_domain (denotes := eq) (Some (str "b")) (Some (str "g")) false 8 8
    (Some sample_tree) (Some sample_tree)); [by constructor|exact sample_tree_wf|vm_compute; lia|vm_compute; lia].
Defined.

(** [ScanPostOrder] calls the callback on every node of the tree, children before
    parents and left before right, whatever the callback returns: a callback that returns
    [false] does not stop the scan. *)
Theorem ScanPostOrder_visits_all `{NodeLaws NT denotes} n (x : NT) :
  denotes x n ->
  exists xs, Forall2 denotes xs (post_order n) /\
  forall S (callback : S -> NT -> S * bool) fuel s,
    (2 * node_count n < fuel)%nat ->
    ScanPostOrder callback fuel (Some x) s = Ok (foldl (fun s y => (callback s y).1) s xs).
Proof. apply ScanPostOrder_visits. Qed.

Lemma ScanPostOrder_visits_all_witness :
  exists xs, Forall2 eq xs (post_order sample_tree) /\
  forall S (callback : S -> Node -> S * bool) fuel s,
    (2 * node_count sample_tree < fuel)%nat ->
    ScanPostOrder callback fuel (Some sample_tree) s = Ok (foldl (fun s y => (callback s y).1) s xs).
Proof. apply (ScanPostOrder_visits_all (denotes := eq) sample_tree sample_tree). reflexivity. Defined.
