(* ===== verification/Sort.v ===== *)
(** * The package sort of the Go standard library

    The algorithm of [sort.Slice] is not specified and it is not stable: any implementation
    that permutes the slice and puts it into the order of the comparison will do.
    [sort.Search] is the loop over the half-open interval [i, j), on a predicate that may panic:
    it terminates in as many rounds as the interval is long and returns the least index at which
    a monotone predicate holds. *)

From Stdlib Require Import ZArith Lia.
From stdpp Require Import base list numbers strings sorting.
From S2P Require Import Prelude.

(** ** sort.Slice *)

(** A strict weak order on the elements that satisfy [P]. *)
Record weak_order {A} (P : A -> Prop) (less : A -> A -> bool) : Prop := {
  wo_asym : forall a b, P a -> P b -> less a b = true -> less b a = false;
  wo_trans : forall a b c, P a -> P b -> P c -> less b a = false -> less c b = false -> less c a = false
}.

(** No element is less than an earlier one. *)
Definition ordered {A} (less : A -> A -> bool) (l : list A) : Prop :=
  StronglySorted (fun x y => less y x = false) l.

Lemma concat_perm {A} (l l' : list (list A)) : l ≡ₚ l' -> concat l ≡ₚ concat l'.
Proof.
  induction 1; simpl; [done|by apply Permutation_app_head| |by etrans].
  rewrite !app_assoc. by apply Permutation_app_tail, Permutation_app_comm.
Qed.

Class SortOps := { sort_Slice : forall {A}, (A -> A -> bool) -> list A -> list A }.
Class SortLaws `{SortOps} := {
  sort_perm : forall {A} (less : A -> A -> bool) l, sort_Slice less l ≡ₚ l;
  sort_ordered : forall {A} (P : A -> Prop) less l,
    weak_order P less -> Forall P l -> ordered less (sort_Slice less l)
}.

(** ** Insertion sort *)

Section insertion.
Context {A : Type} (less : A -> A -> bool).

Fixpoint insert_less (x : A) (l : list A) : list A :=
  match l with
  | [] => [x]
  | y :: l' => if less y x then y :: insert_less x l' else x :: l
  end.

Lemma insert_less_perm x l : insert_less x l ≡ₚ x :: l.
Proof.
  induction l as [|y l IH]; simpl; [done|]. destruct (less y x); [|done]. rewrite IH. apply Permutation_swap.
Qed.

Lemma insert_less_ordered (P : A -> Prop) x l :
  weak_order P less -> P x -> Forall P l -> ordered less l -> ordered less (insert_less x l).
Proof.
  intros Ho Hx Hl. induction 1 as [|y l Hs IH Hf]; simpl; [repeat constructor|].
  apply Forall_cons in Hl as [Hy Hl]. rewrite Forall_forall in Hf, Hl. destruct (less y x) eqn:E.
  - constructor; [apply IH; by apply Forall_forall|]. apply Forall_forall. intros z Hz. rewrite insert_less_perm in Hz.
    apply elem_of_cons in Hz as [->|Hz]; [by apply (wo_asym _ _ Ho)|by apply Hf].
  - constructor; [constructor; [done|by apply Forall_forall]|]. apply Forall_forall.
    intros z [->|Hz]%elem_of_cons; [done|]. apply (wo_trans _ _ Ho x y z); auto.
Qed.
End insertion.

Definition insertion_sort {A} (less : A -> A -> bool) (l : list A) : list A := foldr (insert_less less) [] l.

#[export] Instance insertion_ops : SortOps := {| sort_Slice := @insertion_sort |}.
#[export] Instance insertion_laws : SortLaws.
Proof.
  assert (Hp : forall A (less : A -> A -> bool) l, insertion_sort less l ≡ₚ l).
  { intros A less l. induction l as [|x l IH]; [done|]. simpl. by rewrite insert_less_perm, IH. }
  split; [exact Hp|]. intros A P less l Ho. simpl. induction 1 as [|x l Hx Hl IH]; [constructor|]. simpl.
  apply (insert_less_ordered less P); [done|done| |done]. by rewrite Hp.
Qed.

(** ** sort.Search *)

Local Open Scope Z_scope.

Fixpoint search_loop (fuel : nat) (f : Z -> res bool) (i j : Z) : res Z :=
  match fuel with
  | O => out_of_fuel
  | S fuel =>
      if i <? j then
        let h := Z.shiftr (i + j) 1 in
        b ← f h;
        if b : bool then search_loop fuel f i h else search_loop fuel f (h + 1) j
      else Ok i
  end.

(** [sort.Search(n, f)] *)
Definition Search (n : Z) (f : Z -> res bool) : res Z := search_loop (S (Z.to_nat n)) f 0 n.

(** The answer expected of a search over [lo, hi): [g] fails before it and holds from it on. *)
Definition is_least (g : Z -> bool) (lo hi i : Z) : Prop :=
  lo <= i <= hi /\ (forall j, lo <= j < i -> g j = false) /\ (forall j, i <= j < hi -> g j = true).

Section search.
  Variables (f : Z -> res bool) (g : Z -> bool) (n : Z).
  Hypothesis f_ok : forall i, 0 <= i < n -> f i = Ok (g i).
  Hypothesis g_mono : forall i j, 0 <= i <= j -> j < n -> g i = true -> g j = true.

Lemma search_loop_least fuel i j :
  0 <= i <= j -> j <= n -> j - i < Z.of_nat fuel ->
  (forall k, 0 <= k < i -> g k = false) -> (forall k, j <= k < n -> g k = true) ->
  exists r, search_loop fuel f i j = Ok r /\ is_least g 0 n r.
Proof.
  revert i j. induction fuel as [|fuel IH]; intros i j Hij Hjn Hf Hlo Hhi; [lia|].
  simpl. destruct (Z.ltb_spec i j) as [Hlt|Hge].
  - rewrite Z.shiftr_div_pow2 by lia. change (2 ^ 1) with 2.
    assert (Hh : i <= (i + j) / 2 < j) by (split; [apply Z.div_le_lower_bound|apply Z.div_lt_upper_bound]; lia).
    rewrite f_ok by lia. simpl. destruct (g ((i + j) / 2)) eqn:E.
    + apply IH; try lia; [done|]. intros k Hk. by apply (g_mono ((i + j) / 2)); [lia..|].
    + apply IH; try lia; [|done]. intros k Hk. destruct (g k) eqn:Ek; [|done].
      exfalso. rewrite (g_mono k ((i + j) / 2)) in E; [done|lia..|done].
  - exists i. assert (i = j) as -> by lia. split; [done|].
    split; [lia|]. split; intros k Hk; [apply Hlo|apply Hhi]; lia.
Qed.

Lemma Search_least : 0 <= n -> exists r, Search n f = Ok r /\ is_least g 0 n r.
Proof. intros Hn. apply search_loop_least; lia. Qed.

End search.

(** The least index is unique. *)
Lemma is_least_unique g lo hi a b : is_least g lo hi a -> is_least g lo hi b -> a = b.
Proof.
  intros (Ha & Fa & Ta) (Hb & Fb & Tb).
  destruct (Z.lt_trichotomy a b) as [Hlt|[->|Hlt]]; [|done|].
  - exfalso. assert (g a = true) by (apply Ta; lia). rewrite Fb in * by lia. done.
  - exfalso. assert (g b = true) by (apply Tb; lia). rewrite Fa in * by lia. done.
Qed.
