(* ===== verification/Snapshot.v ===== *)
(** * Snapshots and persisted nodes (memiavl/snapshot.go, memiavl/persisted_node.go,
    memiavl/layout_little_endian.go, memiavl/layout_native.go)

    A snapshot is three byte arrays: fixed-size leaf records, fixed-size branch
    records in post-order, and the keys and values.  A [PersistedNode] is an index
    into one of the arrays; its children are found by arithmetic on indices.  The
    files are mapped into memory and read-only, so a snapshot is their contents. *)

From Stdlib Require Import Strings.Byte ZArith Lia.
From stdpp Require Import base list numbers strings gmap sorting.
From S2P Require Import Prelude Binary Sha256 Node NodeInv NodeIface Sort.
Local Open Scope Z_scope.

(** ** Layout of the records *)

Definition OffsetHeight : Z := 0.
Definition OffsetPreTrees : Z := OffsetHeight + 1.
Definition OffsetVersion : Z := OffsetHeight + 4.
Definition OffsetSize : Z := OffsetVersion + 8.
Definition OffsetKeyLeaf : Z := OffsetSize + 4.
Definition OffsetHash : Z := OffsetKeyLeaf + 4.
Definition SizeHash : Z := Sha256.Size.
Definition SizeNodeWithoutHash : Z := OffsetHash.
Definition SizeNode : Z := SizeNodeWithoutHash + SizeHash.

Definition OffsetLeafVersion : Z := 0.
Definition OffsetLeafKeyLen : Z := OffsetLeafVersion + 8.
Definition OffsetLeafKeyOffset : Z := OffsetLeafKeyLen + 4.
Definition OffsetLeafHash : Z := OffsetLeafKeyOffset + 8.
Definition SizeLeafWithoutHash : Z := OffsetLeafHash.
Definition SizeLeaf : Z := SizeLeafWithoutHash + SizeHash.

(** [Nodes.Node] and [Leaves.Leaf]: the record at an index. *)
Definition Nodes_Node (data : bytes) (i : Z) : res bytes :=
  of_option (slice data (i * SizeNode) (i * SizeNode + SizeNode)).
Definition Leaves_Leaf (data : bytes) (i : Z) : res bytes :=
  of_option (slice data (i * SizeLeaf) (i * SizeLeaf + SizeLeaf)).

Definition byte_at (data : bytes) (off : Z) : res Z := of_option (byte_to_Z <$> data !! Z.to_nat off).

Module NodeLayout.
Definition Height (data : bytes) : res Z := byte_at data OffsetHeight.
Definition PreTrees (data : bytes) : res Z := byte_at data OffsetPreTrees.
Definition Version (data : bytes) : res Z := of_option (Uint64_at data OffsetVersion).
Definition Size (data : bytes) : res Z := of_option (Uint32_at data OffsetSize).
Definition KeyLeaf (data : bytes) : res Z := of_option (Uint32_at data OffsetKeyLeaf).
Definition Hash (data : bytes) : res bytes := of_option (slice data OffsetHash (OffsetHash + SizeHash)).
End NodeLayout.

Module LeafLayout.
Definition Version (data : bytes) : res Z := of_option (Uint64_at data OffsetLeafVersion).
Definition KeyLength (data : bytes) : res Z := of_option (Uint32_at data OffsetLeafKeyLen).
Definition KeyOffset (data : bytes) : res Z := of_option (Uint64_at data OffsetLeafKeyOffset).
Definition Hash (data : bytes) : res bytes := of_option (slice data OffsetLeafHash (OffsetLeafHash + 32)).
End LeafLayout.

(** ** The snapshot *)

(** A node of a snapshot: the array it is in and its index. *)
Record PersistedNode : Type := { isLeaf : bool; index : Z }.

Record Snapshot : Type := {
  nodes : bytes;
  leaves_ : bytes;
  kvs : bytes;
  snap_version : Z;
  root : option PersistedNode
}.

Definition NewEmptySnapshot (version : Z) : Snapshot :=
  {| nodes := []; leaves_ := []; kvs := []; snap_version := version; root := None |}.

Definition IsEmpty (s : Snapshot) : bool := match root s with None => true | Some _ => false end.

Definition RootNode (s : Snapshot) : res PersistedNode := of_option (root s).

Definition nodesLen (s : Snapshot) : Z := zlen (nodes s) / SizeNode.
Definition leavesLen (s : Snapshot) : Z := zlen (leaves_ s) / SizeLeaf.

(** [Key] and [KeyValue] read the entry of the kvs file at an offset. *)
Definition KeyAt (s : Snapshot) (offset : Z) : res bytes :=
  keyLen ← of_option (Uint32_at (kvs s) offset);
  let offset := u64 (offset + 4) in
  of_option (slice (kvs s) offset (u64 (offset + keyLen))).

Definition KeyValue (s : Snapshot) (offset : Z) : res (bytes * bytes) :=
  length ← of_option (Uint32_at (kvs s) offset);
  let offset := u64 (offset + 4) in
  key ← of_option (slice (kvs s) offset (u64 (offset + length)));
  let offset := u64 (offset + length) in
  length ← of_option (Uint32_at (kvs s) offset);
  let offset := u64 (offset + 4) in
  value ← of_option (slice (kvs s) offset (u64 (offset + length)));
  Ok (key, value).

Definition LeafKey (s : Snapshot) (index : Z) : res bytes :=
  leaf ← Leaves_Leaf (leaves_ s) index;
  keyOffset ← LeafLayout.KeyOffset leaf;
  let offset := u64 (keyOffset + 4) in
  length ← LeafLayout.KeyLength leaf;
  of_option (slice (kvs s) offset (u64 (offset + length))).

Definition LeafKeyValue (s : Snapshot) (index : Z) : res (bytes * bytes) :=
  leaf ← Leaves_Leaf (leaves_ s) index;
  keyOffset ← LeafLayout.KeyOffset leaf;
  let offset := u64 (keyOffset + 4) in
  length ← LeafLayout.KeyLength leaf;
  key ← of_option (slice (kvs s) offset (u64 (offset + length)));
  let offset := u64 (offset + length) in
  length ← of_option (Uint32_at (kvs s) offset);
  let offset := u64 (offset + 4) in
  value ← of_option (slice (kvs s) offset (u64 (offset + length)));
  Ok (key, value).

(** ** Opening *)

Definition SnapshotFileMagic : Z := 1280721225.
Definition SnapshotFormat : Z := 0.
Definition SizeMetadata : Z := 16.
Definition FileNameNodes : bytes := str "nodes".
Definition FileNameLeaves : bytes := str "leaves".
Definition FileNameKVs : bytes := str "kvs".
Definition FileNameMetadata : bytes := str "metadata".

(** A directory: the contents of its files by name. *)
Abbreviation Dir := (gmap bytes bytes).

Definition ReadFile (dir : Dir) (name : bytes) : res bytes :=
  match dir !! name with Some bz => Ok bz | None => Err "no such file or directory" end.

Definition OpenSnapshot (dir : Dir) : res Snapshot :=
  bz ← ReadFile dir FileNameMetadata;
  if negb (zlen bz =? SizeMetadata) then Err "wrong metadata file size" else
  magic ← of_option (Uint32_at bz 0);
  if negb (magic =? SnapshotFileMagic) then Err "invalid metadata file magic" else
  format ← of_option (Uint32_at bz 4);
  if negb (format =? SnapshotFormat) then Err "unknown snapshot format" else
  version ← of_option (Uint64_at bz 8);
  nodes ← ReadFile dir FileNameNodes;
  leaves ← ReadFile dir FileNameLeaves;
  kvs ← ReadFile dir FileNameKVs;
  if negb (zlen nodes mod SizeNode =? 0) then
    Err "corrupted snapshot, nodes file size is not a multiple" else
  if negb (zlen leaves mod SizeLeaf =? 0) then
    Err "corrupted snapshot, leaves file size is not a multiple" else
  let nodesLen := zlen nodes / SizeNode in
  let leavesLen := zlen leaves / SizeLeaf in
  if ((0 <? leavesLen) && negb (nodesLen + 1 =? leavesLen))
     || ((leavesLen =? 0) && negb (nodesLen =? 0)) then
    Err "corrupted snapshot, branch nodes size don't match leaves size" else
  Ok {| nodes := nodes; leaves_ := leaves; kvs := kvs; snap_version := version;
        root :=
          if 0 <? nodesLen then Some {| isLeaf := false; index := u32 (nodesLen - 1) |}
          else if 0 <? leavesLen then Some {| isLeaf := true; index := 0 |}
          else None |}.

(** ** Persisted nodes *)

(** All on [uint32]. *)
Definition getStartLeaf (index size preTrees : Z) : Z := u32 (index + 2 - size + preTrees).
Definition getEndLeaf (index preTrees : Z) : Z := u32 (index + preTrees + 1).
Definition getLeftBranch (keyLeaf preTrees : Z) : Z := u32 (keyLeaf - preTrees - 2).

Module Persisted.
Section methods.
  Variable s : Snapshot.
  Implicit Type node : PersistedNode.

Definition branchNode node : res bytes := Nodes_Node (nodes s) (index node).
Definition leafNode node : res bytes := Leaves_Leaf (leaves_ s) (index node).

Definition Height node : res Z :=
  if isLeaf node then Ok 0 else branchNode node ≫= NodeLayout.Height.

Definition Version node : res Z :=
  if isLeaf node then leafNode node ≫= LeafLayout.Version
  else branchNode node ≫= NodeLayout.Version.

Definition Size node : res Z :=
  if isLeaf node then Ok 1 else branchNode node ≫= NodeLayout.Size.

Definition Key node : res bytes :=
  if isLeaf node then LeafKey s (index node)
  else index ← branchNode node ≫= NodeLayout.KeyLeaf; LeafKey s index.

Definition Value node : res (option bytes) :=
  if negb (isLeaf node) then Ok None
  else kv ← LeafKeyValue s (index node); Ok (Some kv.2).

Definition Left node : res PersistedNode :=
  if isLeaf node then Panic else
  data ← branchNode node;
  preTrees ← NodeLayout.PreTrees data;
  size ← NodeLayout.Size data;
  let startLeaf := getStartLeaf (index node) size preTrees in
  keyLeaf ← NodeLayout.KeyLeaf data;
  if u32 (startLeaf + 1) =? keyLeaf then Ok {| isLeaf := true; index := startLeaf |}
  else Ok {| isLeaf := false; index := getLeftBranch keyLeaf preTrees |}.

Definition Right node : res PersistedNode :=
  if isLeaf node then Panic else
  data ← branchNode node;
  keyLeaf ← NodeLayout.KeyLeaf data;
  preTrees ← NodeLayout.PreTrees data;
  if keyLeaf =? getEndLeaf (index node) preTrees then Ok {| isLeaf := true; index := keyLeaf |}
  else Ok {| isLeaf := false; index := u32 (index node - 1) |}.

Definition Hash node : res bytes :=
  if isLeaf node then leafNode node ≫= LeafLayout.Hash
  else branchNode node ≫= NodeLayout.Hash.

(** Binary search in the leaf array; the value is nil when the key is absent. *)
Definition Get node (key : bytes) : res (option bytes * Z) :=
  '(start, count) ←
    (if isLeaf node then Ok (index node, 1)
     else
       data ← branchNode node;
       preTrees ← NodeLayout.PreTrees data;
       count ← NodeLayout.Size data;
       Ok (getStartLeaf (index node) count preTrees, count));
  i ← Search count (fun i =>
        leafKey ← LeafKey s (u32 (start + i));
        Ok (match Compare leafKey key with Lt => false | _ => true end));
  let i := u32 i in
  let leaf := u32 (i + start) in
  if u32 (start + count) <=? leaf then Ok (None, i)
  else
    kv ← LeafKeyValue s leaf;
    if decide (kv.1 = key) then Ok (Some kv.2, i) else Ok (None, i).

Definition GetByIndex node (leafIndex : Z) : res (option (bytes * bytes)) :=
  if isLeaf node then
    if negb (leafIndex =? 0) then Ok None
    else kv ← LeafKeyValue s (index node); Ok (Some kv)
  else
    data ← branchNode node;
    preTrees ← NodeLayout.PreTrees data;
    size ← NodeLayout.Size data;
    let startLeaf := getStartLeaf (index node) size preTrees in
    let endLeaf := getEndLeaf (index node) preTrees in
    let i := u32 (startLeaf + leafIndex) in
    if endLeaf <? i then Ok None
    else kv ← LeafKeyValue s i; Ok (Some kv).
End methods.
End Persisted.

Definition persisted_ops (s : Snapshot) : NodeOps PersistedNode := {|
  node_Height := Persisted.Height s;
  node_IsLeaf x := Ok (isLeaf x);
  node_Size := Persisted.Size s;
  node_Version := Persisted.Version s;
  node_Key := Persisted.Key s;
  node_Value := Persisted.Value s;
  node_Left := Persisted.Left s;
  node_Right := Persisted.Right s;
  node_Hash := Persisted.Hash s
|}.

Definition RootHash (s : Snapshot) : res bytes :=
  if IsEmpty s then Ok emptyHash else RootNode s ≫= Persisted.Hash s.
