(* ===== verification/SnapshotInv.v ===== *)
(** * Persisted nodes denote trees

    [tree_at s n lc bc]: the records of snapshot [s] hold the tree [n] written after
    [lc] leaves and [bc] branches.  Under it the index arithmetic of
    persisted_node.go finds the children, the accessors agree with the tree, and the
    binary search over the leaf array computes the same value and index as the
    descent of the tree. *)

From Stdlib Require Import Strings.Byte ZArith Lia.
From stdpp Require Import base list numbers strings gmap sorting.
From S2P Require Import Prelude Binary Sha256 Node NodeInv NodeIface Sort Snapshot.
Local Open Scope Z_scope.

Section denotes.
  Variable s : Snapshot.

(** The leaf record [i] and the entry of the kvs file it points to. *)
Definition leaf_at (i : Z) (n : Node) : Prop :=
  exists data off,
    Leaves_Leaf (leaves_ s) i = Ok data /\
    LeafLayout.Version data = Ok (Version n) /\
    LeafLayout.KeyOffset data = Ok off /\
    LeafLayout.Hash data = Ok (HashNode n) /\
    LeafKey s i = Ok (Key n) /\
    LeafKeyValue s i = Ok (Key n, default [] (Value n)) /\
    KeyValue s off = Ok (Key n, default [] (Value n)).

Definition branch_at (i preTrees keyLeaf : Z) (n : Node) : Prop :=
  exists data,
    Nodes_Node (nodes s) i = Ok data /\
    NodeLayout.Height data = Ok (Height n) /\
    NodeLayout.PreTrees data = Ok preTrees /\
    NodeLayout.Version data = Ok (Version n) /\
    NodeLayout.Size data = Ok (Size n) /\
    NodeLayout.KeyLeaf data = Ok keyLeaf /\
    NodeLayout.Hash data = Ok (HashNode n).

Fixpoint tree_at (n : Node) (lc bc : Z) : Prop :=
  match n with
  | Leaf _ _ _ => leaf_at lc n
  | Branch _ _ _ _ l r =>
      tree_at l lc bc /\ tree_at r (lc + leaves l) (bc + leaves l - 1) /\
      branch_at (bc + leaves n - 2) (lc - bc) (lc + leaves l) n
  end.

(** The persisted node of a tree written at a position. *)
Definition node_of (n : Node) (lc bc : Z) : PersistedNode :=
  match n with
  | Leaf _ _ _ => {| isLeaf := true; index := lc |}
  | Branch _ _ _ _ _ _ => {| isLeaf := false; index := bc + leaves n - 2 |}
  end.

Record persists (x : PersistedNode) (n : Node) (lc bc : Z) : Prop := {
  ps_node : x = node_of n lc bc;
  ps_at : tree_at n lc bc;
  ps_fields : fields_ok n;
  ps_counts : 0 <= bc <= lc;
  ps_range : lc + leaves n < 2 ^ 32
}.

Definition persisted (x : PersistedNode) (n : Node) : Prop := exists lc bc, persists x n lc bc.

Lemma tree_at_leaf n lc bc j k v :
  tree_at n lc bc -> elements n !! j = Some (k, v) ->
  LeafKey s (lc + Z.of_nat j) = Ok k /\ LeafKeyValue s (lc + Z.of_nat j) = Ok (k, v).
Proof.
  revert lc bc j. induction n as [lv lk lx|h sz nv nk l IHl r IHr]; intros lc bc j; simpl.
  - intros (data & off & _ & _ & _ & _ & Hk & Hkv & _).
    destruct j as [|j]; [|done]. intros [= <- <-]. by rewrite Z.add_0_r.
  - intros (Hl & Hr & _) [Hj|[Hge Hj]]%lookup_app_Some; [eauto|].
    destruct (IHr _ _ _ Hr Hj) as [E1 E2]. revert E1 E2. unfold leaves, zlen.
    by replace (lc + Z.of_nat (length (elements l)) + Z.of_nat (j - length (elements l)))
      with (lc + Z.of_nat j) by lia.
Qed.

Lemma tree_at_min_key n lc bc : tree_at n lc bc -> LeafKey s lc = Ok (min_key n).
Proof.
  intros H. destruct (elements_head n) as (v & rest & E).
  destruct (tree_at_leaf n lc bc 0 (min_key n) v H) as [Hk _]; [by rewrite E|].
  by rewrite Z.add_0_r in Hk.
Qed.

Lemma leaves_1_leaf n : leaves n = 1 <-> IsLeaf n = true.
Proof.
  destruct n as [|h sz v k l r]; [done|]. rewrite leaves_Branch.
  pose proof (leaves_pos l). pose proof (leaves_pos r). simpl. split; [lia|done].
Qed.

(** A subtree is persisted at its own position. *)
Lemma persists_Left x h sz v k l r lc bc :
  persists x (Branch h sz v k l r) lc bc ->
  exists y, Persisted.Left s x = Ok y /\ persists y l lc bc.
Proof.
  intros [-> (Hl & Hr & data & En & _ & Ep & _ & Es & Ek & _) (_ & -> & _ & Fl & Fr) Hc Hn].
  rewrite leaves_Branch in *. simpl in *.
  pose proof (leaves_pos l). pose proof (leaves_pos r).
  assert (Es' : getStartLeaf (bc + (leaves l + leaves r) - 2) (leaves l + leaves r) (lc - bc) = lc).
  { unfold getStartLeaf. rewrite u32_small by lia. lia. }
  unfold Persisted.Left, Persisted.branchNode. simpl. rewrite leaves_Branch, En. simpl.
  rewrite Ep. simpl. rewrite Es. simpl. rewrite Ek. simpl. rewrite Es', u32_small by lia.
  eexists. split; [|split; [reflexivity|done..|lia]].
  unfold node_of. destruct (Z.eqb_spec (lc + 1) (lc + leaves l)) as [E|E].
  - assert (IsLeaf l = true) by (apply leaves_1_leaf; lia). by destruct l.
  - destruct l; [exfalso; apply E; done|]. unfold getLeftBranch. rewrite u32_small by lia.
    do 2 f_equal. lia.
Qed.

Lemma persists_Right x h sz v k l r lc bc :
  persists x (Branch h sz v k l r) lc bc ->
  exists y, Persisted.Right s x = Ok y /\ persists y r (lc + leaves l) (bc + leaves l - 1).
Proof.
  intros [-> (Hl & Hr & data & En & _ & Ep & _ & Es & Ek & _) (_ & -> & _ & Fl & Fr) Hc Hn].
  rewrite leaves_Branch in *. simpl in *.
  pose proof (leaves_pos l). pose proof (leaves_pos r).
  unfold Persisted.Right, Persisted.branchNode, getEndLeaf. simpl. rewrite leaves_Branch, En. simpl.
  rewrite Ek. simpl. rewrite Ep. simpl.
  rewrite u32_small by lia.
  eexists. split; [|split; [reflexivity|done..|lia|lia]].
  unfold node_of. destruct (Z.eqb_spec (lc + leaves l) (bc + (leaves l + leaves r) - 2 + (lc - bc) + 1)) as [E|E].
  - assert (IsLeaf r = true) by (apply leaves_1_leaf; lia). by destruct r.
  - destruct r; [exfalso; apply E; change (leaves (Leaf _ _ _)) with 1; lia|].
    rewrite u32_small by lia. do 2 f_equal. lia.
Qed.

Lemma persists_reads x n lc bc : persists x n lc bc -> @node_reads _ (persisted_ops s) x n.
Proof.
  intros [-> Ht Fn Hc Hn]. destruct n as [lv lk lx|h sz v k l r]; simpl in *.
  - destruct Ht as (data & off & E & Ev & _ & Eh & Ek & Ekv & _).
    split; simpl; try done; unfold Persisted.Version, Persisted.Key, Persisted.Value,
      Persisted.Hash, Persisted.leafNode; simpl; rewrite ?E; simpl; auto.
    by rewrite Ekv.
  - destruct Ht as (Hl & Hr & data & E & Eht & _ & Ev & Es & Ek & Eh).
    split; simpl; try done; unfold Persisted.Height, Persisted.Size, Persisted.Version,
      Persisted.Key, Persisted.Hash, Persisted.branchNode; simpl; rewrite ?E; simpl; auto.
    rewrite Ek. simpl. rewrite (tree_at_min_key _ _ _ Hr).
    by destruct Fn as (_ & _ & -> & _).
Qed.

#[export] Instance persisted_laws : @NodeLaws PersistedNode (persisted_ops s) persisted.
Proof.
  split.
  - intros x n (lc & bc & H). by apply (persists_reads _ _ lc bc).
  - intros x h sz v k l r (lc & bc & H). destruct (persists_Left _ _ _ _ _ _ _ _ _ H) as (y & ? & ?).
    exists y. split; [done|]. by exists lc, bc.
  - intros x h sz v k l r (lc & bc & H). destruct (persists_Right _ _ _ _ _ _ _ _ _ H) as (y & ? & ?).
    exists y. split; [done|]. by eexists _, _.
Qed.

(** ** Lookup by binary search *)

(** The start and the number of leaves that [Get] searches. *)
Lemma persists_span x n lc bc :
  persists x n lc bc ->
  (if isLeaf x then Ok (index x, 1)
   else
     data ← Persisted.branchNode s x;
     preTrees ← NodeLayout.PreTrees data;
     count ← NodeLayout.Size data;
     Ok (getStartLeaf (index x) count preTrees, count)) = Ok (lc, leaves n).
Proof.
  intros [-> Ht Fn Hc Hn]. destruct n as [lv lk lx|h sz v k l r]; [done|].
  destruct Ht as (_ & _ & data & E & _ & Ep & _ & Es & _).
  destruct Fn as (_ & -> & _). simpl in *. unfold Persisted.branchNode. simpl.
  rewrite leaves_Branch in *. rewrite E. simpl. rewrite Ep. simpl. rewrite Es. simpl.
  pose proof (leaves_pos l). pose proof (leaves_pos r).
  unfold getStartLeaf. rewrite u32_small by lia. do 2 f_equal. lia.
Qed.

Lemma persisted_search n lc bc key :
  tree_at n lc bc -> kv_sorted (elements n) -> 0 <= lc -> lc + leaves n < 2 ^ 32 ->
  Search (leaves n) (fun i =>
    leafKey ← LeafKey s (u32 (lc + i));
    Ok (match Compare leafKey key with Lt => false | _ => true end))
  = Ok (kv_rank key (elements n)).
Proof.
  intros Ht Hs Hlc Hr. set (g := fun i => negb (i <? kv_rank key (elements n))).
  pose proof (kv_rank_range key (elements n)) as Hk. fold (leaves n) in Hk.
  edestruct (Search_least (fun i =>
    leafKey ← LeafKey s (u32 (lc + i));
    Ok (match Compare leafKey key with Lt => false | _ => true end)) g (leaves n))
    as (i & Hi & Hl).
  - intros i Hi. rewrite u32_small by lia.
    destruct (lookup_lt_is_Some_2 (elements n) (Z.to_nat i)) as [[k v] Hj].
    { unfold leaves, zlen in Hi. lia. }
    destruct (tree_at_leaf n lc bc _ k v Ht Hj) as [E _].
    rewrite Z2Nat.id in E by lia. rewrite E. simpl. f_equal. unfold g.
    rewrite <- (Z2Nat.id i), <- (kv_rank_split key (elements n) _ k v Hs Hj) by lia.
    unfold ltb. by destruct (Compare k key).
  - unfold g. intros i j Hij Hj Hi.
    apply negb_true_iff, Z.ltb_ge in Hi. apply negb_true_iff, Z.ltb_ge. lia.
  - lia.
  - rewrite Hi. f_equal. apply (is_least_unique g 0 (leaves n)); [done|].
    split; [done|]. unfold g. split; intros j Hj.
    + apply negb_false_iff, Z.ltb_lt. lia.
    + apply negb_true_iff, Z.ltb_ge. lia.
Qed.

Lemma persists_Get x n lc bc key :
  persists x n lc bc -> kv_sorted (elements n) ->
  Persisted.Get s x key = Ok (kv_lookup key (elements n), kv_rank key (elements n)).
Proof.
  intros Hp Hs. unfold Persisted.Get. rewrite (persists_span x n lc bc Hp). simpl.
  destruct Hp as [_ Ht _ Hc Hr]. rewrite persisted_search with (bc := bc) by (done || lia). simpl.
  pose proof (kv_rank_range key (elements n)) as Hk. fold (leaves n) in Hk.
  rewrite !u32_small by (rewrite ?u32_small; lia). rewrite kv_rank_lookup by done.
  destruct (Z.leb_spec (lc + leaves n) (kv_rank key (elements n) + lc)).
  - rewrite lookup_ge_None_2; [done|]. unfold leaves, zlen in *. lia.
  - destruct (lookup_lt_is_Some_2 (elements n) (Z.to_nat (kv_rank key (elements n)))) as [[k v] Hj].
    { unfold leaves, zlen in *. lia. }
    destruct (tree_at_leaf n lc bc _ k v Ht Hj) as [_ E].
    rewrite Z2Nat.id in E by lia. rewrite Z.add_comm, E, Hj. simpl. by case_decide.
Qed.

(** [GetByIndex] is right as long as the sum of the start and the index does not
    leave [uint32]. *)
Lemma persists_GetByIndex x n lc bc i :
  persists x n lc bc -> 0 <= i -> lc + i < 2 ^ 32 ->
  Persisted.GetByIndex s x i = Ok (elements n !! Z.to_nat i).
Proof.
  intros [-> Ht Fn Hc Hn] Hi Hli. unfold Persisted.GetByIndex.
  destruct n as [lv lk lx|h sz v k l r].
  - destruct Ht as (data & off & _ & _ & _ & _ & _ & Ekv & _). simpl.
    destruct (Z.eqb_spec i 0) as [->|]; simpl; [by rewrite Ekv|].
    destruct (Z.to_nat i) eqn:?; [lia|done].
  - pose proof (fun j k' v' => tree_at_leaf _ lc bc j k' v' Ht) as Hlf.
    destruct Ht as (_ & _ & data & E & _ & Ep & _ & Es & _).
    destruct Fn as (_ & -> & _). unfold Persisted.branchNode. simpl in *.
    rewrite leaves_Branch in *. rewrite E. simpl. rewrite Ep. simpl. rewrite Es. simpl.
    pose proof (leaves_pos l). pose proof (leaves_pos r).
    unfold getStartLeaf, getEndLeaf.
    rewrite (u32_small (bc + _ - 2 + 2 - _ + _)) by lia. rewrite !u32_small by lia.
    destruct (Z.ltb_spec (bc + (leaves l + leaves r) - 2 + (lc - bc) + 1)
      (bc + (leaves l + leaves r) - 2 + 2 - (leaves l + leaves r) + (lc - bc) + i)).
    + rewrite lookup_ge_None_2; [done|]. rewrite length_app.
      unfold leaves, zlen in *. lia.
    + destruct (lookup_lt_is_Some_2 (elements l ++ elements r) (Z.to_nat i)) as [[k' v'] Hj].
      { rewrite length_app. unfold leaves, zlen in *. lia. }
      destruct (Hlf _ k' v' Hj) as [_ E'].
      rewrite Z2Nat.id in E' by lia.
      replace (bc + (leaves l + leaves r) - 2 + 2 - (leaves l + leaves r) + (lc - bc) + i)
        with (lc + i) by lia.
      by rewrite E', Hj.
Qed.

End denotes.
