(* ===== verification/LayoutNative.v ===== *)
(** * Records read through the memory layout of structs (memiavl/layout_native.go)

    With the build tag [nativebyteorder] the records of a snapshot are not decoded but viewed
    as structs of five 32-bit words and a hash.  On the machines that the check at start
    admits, the fields are those of the portable layout. *)

From Stdlib Require Import Strings.Byte ZArith Lia.
From stdpp Require Import base list numbers strings.
From S2P Require Import Prelude Binary Sha256 Snapshot.
Local Open Scope Z_scope.

(** The byte order of the machine, and the words it reads and writes. *)
Inductive byte_order : Type := LittleEndian | BigEndian.
Definition ordered_bytes (bo : byte_order) (bs : bytes) : bytes := match bo with LittleEndian => bs | BigEndian => reverse bs end.
Definition load (bo : byte_order) (bs : bytes) : Z := le_get (ordered_bytes bo bs).
Definition store (bo : byte_order) (n : nat) (v : Z) : bytes := ordered_bytes bo (le_put n v).

(** [init] *)
Definition native_init (bo : byte_order) : res unit :=
  if bool_decide (store bo 2 43981 = [xcd; xab]) then Ok tt else Panic.

(** [nodeLayout] and [leafLayout] have the same fields. *)
Record layout : Type := { data : list Z; hash : bytes }.

Definition view_record (bo : byte_order) (bz : bytes) : layout :=
  {| data := map (fun i => load bo (take 4 (drop (4 * i) bz))) (seq 0 5); hash := take 32 (drop 20 bz) |}.

(** [unsafe.Slice] of the buffer, for a number of records. *)
Fixpoint unsafe_slice (bo : byte_order) (n : nat) (buf : bytes) : list layout :=
  match n with
  | O => []
  | S n => view_record bo (take 52 buf) :: unsafe_slice bo n (drop 52 buf)
  end.

Definition errNotAligned : error := "input buffer is not aligned".
Definition errLength : error := "input buffer length is not correct".

(** [NewNodes], for a buffer at an address. *)
Definition NewNodes (bo : byte_order) (p : Z) (buf : bytes) : res (list layout) :=
  if negb (p mod 4 =? 0) then Err errNotAligned
  else if negb (zlen buf mod 52 =? 0) then Err errLength
  else Ok (unsafe_slice bo (Z.to_nat (zlen buf / 52)) buf).
Definition NewLeaves (bo : byte_order) (p : Z) (buf : bytes) : res (list layout) :=
  if negb (p mod 4 =? 0) then Err errNotAligned
  else if negb (zlen buf mod 52 =? 0) then Err errLength
  else Ok (unsafe_slice bo (Z.to_nat (zlen buf / 52)) buf).

Definition native_Node (nodes : list layout) (i : Z) : res layout := of_option (nodes !! Z.to_nat i).
Definition native_Leaf (leaves : list layout) (i : Z) : res layout := of_option (leaves !! Z.to_nat i).

Definition word (r : layout) (i : nat) : Z := default 0 (data r !! i).

(** A field of a record that may be out of range. *)
Definition field {A} (f : layout -> A) (r : res layout) : res A := x ← r; Ok (f x).

Module NativeNode.
Definition Height (node : layout) : Z := u8 (word node 0).
Definition PreTrees (node : layout) : Z := u8 (Z.shiftr (word node 0) 8).
Definition Version (node : layout) : Z := Z.lor (word node 1) (u64 (Z.shiftl (word node 2) 32)).
Definition Size (node : layout) : Z := word node 3.
Definition KeyLeaf (node : layout) : Z := word node 4.
Definition Hash (node : layout) : bytes := hash node.
End NativeNode.

Module NativeLeaf.
Definition Version (leaf : layout) : Z := Z.lor (word leaf 0) (u64 (Z.shiftl (word leaf 1) 32)).
Definition KeyLength (leaf : layout) : Z := word leaf 2.
Definition KeyOffset (leaf : layout) : Z := Z.lor (word leaf 3) (u64 (Z.shiftl (word leaf 4) 32)).
Definition Hash (leaf : layout) : bytes := hash leaf.
End NativeLeaf.

(** ** Words *)

Lemma native_init_little bo : native_init bo = Ok tt <-> bo = LittleEndian.
Proof. destruct bo; vm_compute; split; congruence. Qed.

Lemma le_get_app a b : le_get (a ++ b) = le_get a + 2 ^ (8 * zlen a) * le_get b.
Proof.
  induction a as [|x a IH]; [change (zlen []) with 0; change (2 ^ (8 * 0)) with 1; cbn [app le_get]; lia|]. rewrite zlen_cons. cbn [app le_get]. rewrite IH.
  replace (8 * (1 + zlen a)) with (8 + 8 * zlen a) by lia. rewrite Z.pow_add_r by lens. nia.
Qed.

Lemma lor_shift a b : 0 <= a < 2 ^ 32 -> 0 <= b < 2 ^ 32 -> Z.lor a (u64 (Z.shiftl b 32)) = a + 2 ^ 32 * b.
Proof.
  intros Ha Hb. rewrite Z.shiftl_mul_pow2 by lia. rewrite u64_small by nia. rewrite Z.lor_comm, Z.mul_comm.
  rewrite <- Z.lxor_lor; [rewrite <- Z.add_nocarry_lxor; [lia|]|];
    apply Z.bits_inj'; intros n Hn; rewrite Z.land_spec, Z.bits_0, andb_false_iff;
    (destruct (Z.lt_ge_cases n 32); [left; rewrite Z.mul_comm; by rewrite Z.mul_pow2_bits_low|right]);
    (destruct (decide (a = 0)) as [->|]; [apply Z.bits_0|]; apply Z.bits_above_log2; [lia|];
     apply Z.lt_le_trans with 32; [apply Z.log2_lt_pow2; lia|lia]).
Qed.

(** ** Fields *)

Lemma word_view bz i : (i < 5)%nat -> word (view_record LittleEndian bz) i = le_get (take 4 (drop (4 * i) bz)).
Proof. intros Hi. unfold word, view_record. cbn [data]. do 5 (destruct i as [|i]; [done|]). lia. Qed.

Lemma word_range bz i : (i < 5)%nat -> 0 <= word (view_record LittleEndian bz) i < 2 ^ 32.
Proof.
  intros Hi. rewrite word_view by done. pose proof (le_get_range (take 4 (drop (4 * i) bz))) as Hr.
  assert (zlen (take 4 (drop (4 * i) bz)) <= 4) by (unfold zlen; rewrite length_take; lia).
  assert (2 ^ (8 * zlen (take 4 (drop (4 * i) bz))) <= 2 ^ 32) by (apply Z.pow_le_mono_r; lia). lia.
Qed.

Lemma Uint32_word bz i : zlen bz = 52 -> (i < 5)%nat -> Uint32_at bz (4 * Z.of_nat i) = Some (word (view_record LittleEndian bz) i).
Proof.
  intros Hl Hi. unfold Uint32_at, slice. rewrite Hl, word_view by done.
  rewrite !(proj2 (Z.leb_le _ _)) by lia. cbn [andb fmap option_fmap option_map]. do 2 f_equal.
  replace (Z.to_nat (4 * Z.of_nat i + 4 - 4 * Z.of_nat i)) with 4%nat by lia. by replace (Z.to_nat (4 * Z.of_nat i)) with (4 * i)%nat by lia.
Qed.

Lemma Uint64_words bz i :
  zlen bz = 52 -> (i < 4)%nat ->
  Uint64_at bz (4 * Z.of_nat i) = Some (Z.lor (word (view_record LittleEndian bz) i) (u64 (Z.shiftl (word (view_record LittleEndian bz) (S i)) 32))).
Proof.
  intros Hl Hi. rewrite lor_shift by (apply word_range; lia). rewrite !word_view by lia. unfold Uint64_at, slice. rewrite Hl.
  rewrite !(proj2 (Z.leb_le _ _)) by lia. cbn [andb fmap option_fmap option_map]. f_equal.
  replace (Z.to_nat (4 * Z.of_nat i + 8 - 4 * Z.of_nat i)) with (4 + 4)%nat by lia.
  replace (Z.to_nat (4 * Z.of_nat i)) with (4 * i)%nat by lia. rewrite <- take_take_drop, le_get_app.
  rewrite drop_drop. replace (4 * i + 4)%nat with (4 * S i)%nat by lia. do 2 f_equal.
  unfold zlen in *. rewrite length_take, length_drop. replace (4 `min` (length bz - 4 * i))%nat with 4%nat by lia. done.
Qed.

Lemma first_bytes bz :
  zlen bz = 52 -> byte_at bz 0 = Ok (u8 (word (view_record LittleEndian bz) 0)) /\
    byte_at bz 1 = Ok (u8 (Z.shiftr (word (view_record LittleEndian bz) 0) 8)).
Proof.
  intros Hl. rewrite word_view by lia. destruct bz as [|a [|b [|c [|d bz]]]]; try done.
  change (drop (4 * 0) (a :: b :: c :: d :: bz)) with (a :: b :: c :: d :: bz). cbn [take le_get].
  rewrite Z.shiftr_div_pow2 by lia. change (2 ^ 8) with 256. unfold u8. change (2 ^ 8) with 256.
  pose proof (byte_to_Z_range a). pose proof (byte_to_Z_range b). generalize (byte_to_Z c + 256 * (byte_to_Z d + 256 * le_get (take 0 bz))).
  intros z. unfold byte_at. change ((a :: b :: c :: d :: bz) !! Z.to_nat 0) with (Some a). change ((a :: b :: c :: d :: bz) !! Z.to_nat 1) with (Some b).
  cbn [fmap option_fmap option_map of_option]. split; f_equal.
  - rewrite (Z.mul_comm 256), Z_mod_plus_full, Z.mod_small by lia. done.
  - rewrite (Z.mul_comm 256 (byte_to_Z b + _)), Z_div_plus_full, Z.div_small by lia. rewrite (Z.mul_comm 256), Z.add_0_l, Z_mod_plus_full, Z.mod_small by lia. done.
Qed.

Lemma hash_view bz : zlen bz = 52 -> slice bz 20 52 = Some (hash (view_record LittleEndian bz)).
Proof. intros Hl. unfold slice. by rewrite Hl. Qed.

(** A record of each kind has the same fields in both layouts. *)
Lemma node_fields bz (r := view_record LittleEndian bz) :
  zlen bz = 52 ->
  NodeLayout.Height bz = Ok (NativeNode.Height r) /\ NodeLayout.PreTrees bz = Ok (NativeNode.PreTrees r) /\
  NodeLayout.Version bz = Ok (NativeNode.Version r) /\ NodeLayout.Size bz = Ok (NativeNode.Size r) /\
  NodeLayout.KeyLeaf bz = Ok (NativeNode.KeyLeaf r) /\ NodeLayout.Hash bz = Ok (NativeNode.Hash r).
Proof.
  intros Hl. destruct (first_bytes bz Hl) as [E0 E1]. split_and!; [exact E0|exact E1| | | |].
  - unfold NodeLayout.Version. change OffsetVersion with (4 * Z.of_nat 1). by rewrite Uint64_words by (done || lia).
  - unfold NodeLayout.Size. change OffsetSize with (4 * Z.of_nat 3). by rewrite Uint32_word by (done || lia).
  - unfold NodeLayout.KeyLeaf. change OffsetKeyLeaf with (4 * Z.of_nat 4). by rewrite Uint32_word by (done || lia).
  - unfold NodeLayout.Hash. change (OffsetHash + SizeHash) with 52. change OffsetHash with 20. by rewrite hash_view.
Qed.

Lemma leaf_fields bz (r := view_record LittleEndian bz) :
  zlen bz = 52 ->
  LeafLayout.Version bz = Ok (NativeLeaf.Version r) /\ LeafLayout.KeyLength bz = Ok (NativeLeaf.KeyLength r) /\
  LeafLayout.KeyOffset bz = Ok (NativeLeaf.KeyOffset r) /\ LeafLayout.Hash bz = Ok (NativeLeaf.Hash r).
Proof.
  intros Hl. split_and!.
  - unfold LeafLayout.Version. change OffsetLeafVersion with (4 * Z.of_nat 0). by rewrite Uint64_words by (done || lia).
  - unfold LeafLayout.KeyLength. change OffsetLeafKeyLen with (4 * Z.of_nat 2). by rewrite Uint32_word by (done || lia).
  - unfold LeafLayout.KeyOffset. change OffsetLeafKeyOffset with (4 * Z.of_nat 3). by rewrite Uint64_words by (done || lia).
  - unfold LeafLayout.Hash. change (OffsetLeafHash + 32) with 52. change OffsetLeafHash with 20. by rewrite hash_view.
Qed.

(** ** Records *)

Lemma unsafe_slice_lookup bo n buf i :
  unsafe_slice bo n buf !! i = (if (i <? n)%nat then Some (view_record bo (take 52 (drop (52 * i) buf))) else None).
Proof.
  revert buf i. induction n as [|n IH]; intros buf i; [done|]. destruct i as [|i]; [by rewrite Nat.mul_0_r|].
  cbn [unsafe_slice lookup list_lookup]. change (list_lookup i (unsafe_slice bo n (drop 52 buf))) with (unsafe_slice bo n (drop 52 buf) !! i).
  rewrite IH, drop_drop. replace (52 + 52 * i)%nat with (52 * S i)%nat by lia. done.
Qed.

(** The record at an index, in both layouts, or a panic of both. *)
Lemma record_at buf i :
  0 <= i -> zlen buf mod 52 = 0 ->
  let nodes := unsafe_slice LittleEndian (Z.to_nat (zlen buf / 52)) buf in
  (exists bz, zlen bz = 52 /\ slice buf (i * 52) (i * 52 + 52) = Some bz /\ nodes !! Z.to_nat i = Some (view_record LittleEndian bz)) \/
  (slice buf (i * 52) (i * 52 + 52) = None /\ nodes !! Z.to_nat i = None).
Proof.
  intros Hi Hm nodes. unfold nodes. rewrite unsafe_slice_lookup. unfold slice.
  pose proof (Z.div_mod (zlen buf) 52 ltac:(lia)) as Hd. rewrite Hm in Hd.
  assert (0 <= zlen buf / 52) by (apply Z.div_pos; lens).
  destruct (Nat.ltb_spec (Z.to_nat i) (Z.to_nat (zlen buf / 52))).
  - left. exists (take 52 (drop (52 * Z.to_nat i) buf)). split; [unfold zlen in *; rewrite length_take, length_drop; lia|].
    rewrite !(proj2 (Z.leb_le _ _)) by lia. cbn [andb]. split; [|done]. do 2 f_equal; [|f_equal]; lia.
  - right. split; [|done]. rewrite (proj2 (Z.leb_gt (i * 52 + 52) (zlen buf))) by lia. by rewrite andb_false_r.
Qed.

(** C36: On a machine that passes the check at start, the records of an aligned file of whole
    records, viewed as structs, have at every index the fields that the portable layout decodes
    from the bytes, for branches and for leaves; past the end of the file both layouts panic. *)
Theorem native_layout_agrees (bo : byte_order) (p : Z) (buf : bytes) (i : Z) :
  native_init bo = Ok tt -> p mod 4 = 0 -> zlen buf mod 52 = 0 -> 0 <= i < 2 ^ 32 ->
  exists nodes leaves, NewNodes bo p buf = Ok nodes /\ NewLeaves bo p buf = Ok leaves /\
  ((Nodes_Node buf i ≫= NodeLayout.Height) = field NativeNode.Height (native_Node nodes i) /\
   (Nodes_Node buf i ≫= NodeLayout.PreTrees) = field NativeNode.PreTrees (native_Node nodes i) /\
   (Nodes_Node buf i ≫= NodeLayout.Version) = field NativeNode.Version (native_Node nodes i) /\
   (Nodes_Node buf i ≫= NodeLayout.Size) = field NativeNode.Size (native_Node nodes i) /\
   (Nodes_Node buf i ≫= NodeLayout.KeyLeaf) = field NativeNode.KeyLeaf (native_Node nodes i) /\
   (Nodes_Node buf i ≫= NodeLayout.Hash) = field NativeNode.Hash (native_Node nodes i)) /\
  ((Leaves_Leaf buf i ≫= LeafLayout.Version) = field NativeLeaf.Version (native_Leaf leaves i) /\
   (Leaves_Leaf buf i ≫= LeafLayout.KeyLength) = field NativeLeaf.KeyLength (native_Leaf leaves i) /\
   (Leaves_Leaf buf i ≫= LeafLayout.KeyOffset) = field NativeLeaf.KeyOffset (native_Leaf leaves i) /\
   (Leaves_Leaf buf i ≫= LeafLayout.Hash) = field NativeLeaf.Hash (native_Leaf leaves i)).
Proof.
  intros ->%native_init_little Hp Hm Hi. unfold NewNodes, NewLeaves. rewrite Hp, Hm. cbn [negb Z.eqb].
  do 2 eexists. split; [done|]. split; [done|]. unfold Nodes_Node, Leaves_Leaf, native_Node, native_Leaf.
  change SizeNode with 52. change SizeLeaf with 52.
  destruct (record_at buf i ltac:(lia) Hm) as [(bz & Hl & -> & ->)|[-> ->]]; [|done].
  split; [exact (node_fields bz Hl)|exact (leaf_fields bz Hl)].
Qed.

Lemma native_layout_agrees_witness :
  native_init LittleEndian = Ok tt /\ exists nodes leaves,
  NewNodes LittleEndian 4096 (map byte_of_Z (seqZ 0 104)) = Ok nodes /\ NewLeaves LittleEndian 4096 (map byte_of_Z (seqZ 0 104)) = Ok leaves /\
  (Nodes_Node (map byte_of_Z (seqZ 0 104)) 1 ≫= NodeLayout.Version) = field NativeNode.Version (native_Node nodes 1).
Proof.
  split; [done|]. destruct (native_layout_agrees LittleEndian 4096 (map byte_of_Z (seqZ 0 104)) 1) as (nodes & leaves & En & El & H & _);
    [done..|lia|]. exists nodes, leaves. split; [exact En|]. split; [exact El|]. apply H.
Defined.
