(* ===== verification/SnapshotWriter.v ===== *)
(** * Writing snapshots (memiavl/snapshot.go)

    The snapshot writer appends to the three files while it walks the tree in
    post-order.  Main result: opening what was written gives a snapshot whose root
    denotes the tree that was written. *)

From Stdlib Require Import Strings.Byte ZArith Lia.
From stdpp Require Import base list numbers strings gmap sorting.
From S2P Require Import Prelude Binary Sha256 Node NodeInv NodeIface Sort Snapshot SnapshotInv.
Local Open Scope Z_scope.

(** ** The writer *)

(** The bytes written to the three files so far, and the counters. *)
Record snapshotWriter : Type := {
  nodesOut : bytes;
  leavesOut : bytes;
  kvsOut : bytes;
  branchCounter : Z;
  leafCounter : Z;
  kvsOffset : Z
}.

Definition newSnapshotWriter : snapshotWriter :=
  {| nodesOut := []; leavesOut := []; kvsOut := [];
     branchCounter := 0; leafCounter := 0; kvsOffset := 0 |}.

Definition CancelCheckInterval : Z := 1000.

(** [ctx lc] is the error of the context when it is checked after [lc] leaves. *)
Definition Context_ : Type := Z -> option error.
Definition Background : Context_ := fun _ => None.

Definition writeKeyValue (w : snapshotWriter) (key value : bytes) : snapshotWriter :=
  {| nodesOut := nodesOut w;
     leavesOut := leavesOut w;
     kvsOut := kvsOut w ++ le_u32 (u32 (zlen key)) ++ key ++ le_u32 (u32 (zlen value)) ++ value;
     branchCounter := branchCounter w;
     leafCounter := leafCounter w;
     kvsOffset := u64 (kvsOffset w + (4 + 4 + zlen key + zlen value)) |}.

Definition writeLeaf (ctx : Context_) (w : snapshotWriter) (version : Z)
    (key value hash : bytes) : res snapshotWriter :=
  let cancelled := if leafCounter w mod CancelCheckInterval =? 0 then ctx (leafCounter w) else None in
  match cancelled with
  | Some err => Err err
  | None =>
      let buf := le_u64 version ++ le_u32 (u32 (zlen key)) ++ le_u64 (kvsOffset w) in
      let w := writeKeyValue w key value in
      Ok {| nodesOut := nodesOut w;
            leavesOut := leavesOut w ++ buf ++ hash;
            kvsOut := kvsOut w;
            branchCounter := branchCounter w;
            leafCounter := u32 (leafCounter w + 1);
            kvsOffset := kvsOffset w |}
  end.

Definition writeBranch (w : snapshotWriter) (version size height preTrees keyLeaf : Z)
    (hash : bytes) : snapshotWriter :=
  let buf := [byte_of_Z height; byte_of_Z preTrees; x00; x00]
             ++ le_u64 version ++ le_u32 size ++ le_u32 keyLeaf in
  {| nodesOut := nodesOut w ++ buf ++ hash;
     leavesOut := leavesOut w;
     kvsOut := kvsOut w;
     branchCounter := u32 (branchCounter w + 1);
     leafCounter := leafCounter w;
     kvsOffset := kvsOffset w |}.

(** The recursion descends the tree: [fuel] bounds its depth. *)
Fixpoint writeRecursive `{NodeOps NT} (fuel : nat) (ctx : Context_) (w : snapshotWriter)
    (node : NT) : res snapshotWriter :=
  match fuel with
  | O => out_of_fuel
  | S fuel =>
      isLeaf ← node_IsLeaf node;
      version ← node_Version node;
      if isLeaf : bool then
        key ← node_Key node;
        value ← node_Value node;
        hash ← node_Hash node;
        writeLeaf ctx w version key (default [] value) hash
      else
        let preTrees := u8 (leafCounter w - branchCounter w) in
        left ← node_Left node;
        w ← writeRecursive fuel ctx w left;
        let keyLeaf := leafCounter w in
        right ← node_Right node;
        w ← writeRecursive fuel ctx w right;
        size ← node_Size node;
        height ← node_Height node;
        hash ← node_Hash node;
        Ok (writeBranch w version (u32 size) height preTrees keyLeaf hash)
  end.

(** [writeSnapshot]: [doWrite] returns the writer and the number of leaves; the
    buffered writers are flushed only when there are leaves. *)
Definition writeSnapshot (dir : Dir) (version : Z)
    (doWrite : snapshotWriter -> res (snapshotWriter * Z)) : res Dir :=
  '(w, leaves) ← doWrite newSnapshotWriter;
  let flushed bz := if 0 <? leaves then bz else [] in
  let metadataBuf := le_u32 SnapshotFileMagic ++ le_u32 SnapshotFormat ++ le_u64 version in
  Ok (<[FileNameMetadata := metadataBuf]>
     (<[FileNameKVs := flushed (kvsOut w)]>
     (<[FileNameLeaves := flushed (leavesOut w)]>
     (<[FileNameNodes := flushed (nodesOut w)]> dir)))).

(** [Tree.WriteSnapshotWithContext] on the root and the version of a tree. *)
Definition WriteSnapshotWithContext `{NodeOps NT} (fuel : nat) (ctx : Context_) (dir : Dir)
    (version : Z) (root : option NT) : res Dir :=
  writeSnapshot dir version (fun w =>
    match root with
    | None => Ok (w, 0)
    | Some r => w ← writeRecursive fuel ctx w r; Ok (w, leafCounter w)
    end).

(** ** What is written *)

(** The sizes that fit the fields of the file format. *)
Fixpoint storable (n : Node) : Prop :=
  match n with
  | Leaf v k x => 0 <= v < 2 ^ 64 /\ zlen k < 2 ^ 32 /\ zlen x < 2 ^ 32
  | Branch _ _ v _ l r => 0 <= v < 2 ^ 64 /\ storable l /\ storable r
  end.

(** The number of bytes the tree takes in the kvs file. *)
Fixpoint kv_size (n : Node) : Z :=
  match n with
  | Leaf _ k x => 8 + zlen k + zlen x
  | Branch _ _ _ _ l r => kv_size l + kv_size r
  end.

Lemma kv_size_nonneg n : 0 <= kv_size n.
Proof. induction n; simpl; [|lia]. unfold zlen. lia. Qed.

(** The counters agree with the files. *)
Record writer_ok (w : snapshotWriter) (lc bc : Z) : Prop := {
  wo_leaf : leafCounter w = lc;
  wo_branch : branchCounter w = bc;
  wo_leaves : zlen (leavesOut w) = lc * SizeLeaf;
  wo_nodes : zlen (nodesOut w) = bc * SizeNode;
  wo_kvs : kvsOffset w = zlen (kvsOut w)
}.

(** The files of a snapshot start with what was written. *)
Definition holds (s : Snapshot) (w : snapshotWriter) : Prop :=
  nodesOut w `prefix_of` nodes s /\ leavesOut w `prefix_of` leaves_ s /\ kvsOut w `prefix_of` kvs s.

Lemma HashNode_zlen n : zlen (HashNode n) = 32.
Proof. apply Sha256.zlen_Sum256. Qed.

Lemma slice_prefix {A} (pre mid whole : list A) lo hi :
  (pre ++ mid) `prefix_of` whole -> lo = zlen pre -> hi = lo + zlen mid ->
  slice whole lo hi = Some mid.
Proof. intros [post ->] H1 H2. rewrite <- app_assoc. by apply slice_app. Qed.

Lemma Uint32_prefix pre z whole off :
  (pre ++ le_u32 z) `prefix_of` whole -> off = zlen pre -> 0 <= z < 2 ^ 32 ->
  Uint32_at whole off = Some z.
Proof. intros [post ->] H1 H2. rewrite <- app_assoc. by apply Uint32_at_app. Qed.

Lemma leaf_record_reads v kl off hash :
  0 <= v < 2 ^ 64 -> 0 <= kl < 2 ^ 32 -> 0 <= off < 2 ^ 64 -> zlen hash = 32 ->
  let data := (le_u64 v ++ le_u32 kl ++ le_u64 off) ++ hash in
  zlen data = SizeLeaf /\ LeafLayout.Version data = Ok v /\ LeafLayout.KeyLength data = Ok kl /\
  LeafLayout.KeyOffset data = Ok off /\ LeafLayout.Hash data = Ok hash.
Proof.
  intros Hv Hk Ho Hh data. unfold data.
  split; [rewrite !zlen_app, !zlen_le_u64, zlen_le_u32, Hh; done|].
  unfold LeafLayout.Version, LeafLayout.KeyLength, LeafLayout.KeyOffset, LeafLayout.Hash.
  rewrite <- !app_assoc.
  rewrite Uint64_at_head by done.
  rewrite (Uint32_at_app (le_u64 v) kl) by (done || by rewrite zlen_le_u64).
  rewrite (app_assoc (le_u64 v)), (Uint64_at_app _ off)
    by (done || by rewrite zlen_app, zlen_le_u64, zlen_le_u32).
  rewrite (app_assoc _ (le_u64 off)).
  rewrite slice_end; [done| |by rewrite Hh].
  by rewrite !zlen_app, !zlen_le_u64, zlen_le_u32.
Qed.

Lemma byte_at_of_Z data i z : data !! Z.to_nat i = Some (byte_of_Z z) -> 0 <= z < 256 -> byte_at data i = Ok z.
Proof.
  intros E Hz. unfold byte_at. rewrite E. simpl. by rewrite byte_to_of_Z, Z.mod_small.
Qed.

Lemma branch_record_reads h p v sz kl hash :
  0 <= h < 256 -> 0 <= p < 256 -> 0 <= v < 2 ^ 64 -> 0 <= sz < 2 ^ 32 -> 0 <= kl < 2 ^ 32 ->
  zlen hash = 32 ->
  let data := ([byte_of_Z h; byte_of_Z p; x00; x00] ++ le_u64 v ++ le_u32 sz ++ le_u32 kl) ++ hash in
  zlen data = SizeNode /\ NodeLayout.Height data = Ok h /\ NodeLayout.PreTrees data = Ok p /\
  NodeLayout.Version data = Ok v /\ NodeLayout.Size data = Ok sz /\
  NodeLayout.KeyLeaf data = Ok kl /\ NodeLayout.Hash data = Ok hash.
Proof.
  intros Hh Hp Hv Hs Hk Hhash data. unfold data.
  set (pad := [byte_of_Z h; byte_of_Z p; x00; x00]).
  assert (Hpad : zlen pad = 4) by done.
  split; [rewrite !zlen_app, zlen_le_u64, !zlen_le_u32, Hhash, Hpad; done|].
  split; [by apply byte_at_of_Z|]. split; [by apply byte_at_of_Z|].
  unfold NodeLayout.Version, NodeLayout.Size, NodeLayout.KeyLeaf, NodeLayout.Hash.
  rewrite <- !app_assoc.
  rewrite (Uint64_at_app pad v) by done.
  rewrite (app_assoc pad), (Uint32_at_app _ sz) by (done || by rewrite zlen_app, zlen_le_u64, Hpad).
  rewrite (app_assoc _ (le_u32 sz)), (Uint32_at_app _ kl)
    by (done || by rewrite !zlen_app, zlen_le_u64, zlen_le_u32, Hpad).
  rewrite (app_assoc _ (le_u32 kl)).
  rewrite slice_end; [done| |by rewrite Hhash].
  by rewrite !zlen_app, !zlen_le_u64, !zlen_le_u32, Hpad.
Qed.

(** Reading the entry of the kvs file that starts at the end of [pre]. *)
Lemma kv_entry_reads pre k x whole off :
  (pre ++ le_u32 (zlen k) ++ k ++ le_u32 (zlen x) ++ x) `prefix_of` whole ->
  off = zlen pre -> zlen k < 2 ^ 32 -> zlen x < 2 ^ 32 -> off + 8 + zlen k + zlen x < 2 ^ 64 ->
  Uint32_at whole off = Some (zlen k) /\
  slice whole (u64 (off + 4)) (u64 (u64 (off + 4) + zlen k)) = Some k /\
  Uint32_at whole (u64 (u64 (off + 4) + zlen k)) = Some (zlen x) /\
  slice whole (u64 (u64 (u64 (off + 4) + zlen k) + 4))
    (u64 (u64 (u64 (u64 (off + 4) + zlen k) + 4) + zlen x)) = Some x.
Proof.
  intros [post ->] -> Hk Hx Hoff.
  pose proof (zlen_nonneg pre). pose proof (zlen_nonneg k). pose proof (zlen_nonneg x).
  rewrite (u64_small (zlen pre + 4)) by lia. rewrite (u64_small (_ + zlen k)) by lia.
  rewrite (u64_small (_ + 4)) by lia. rewrite (u64_small (_ + zlen x)) by lia.
  rewrite <- !app_assoc. split; [apply Uint32_at_app; [done|lia]|].
  rewrite (app_assoc pre). split; [apply slice_app; by rewrite ?zlen_app, ?zlen_le_u32|].
  rewrite (app_assoc _ k).
  split; [apply Uint32_at_app; [by rewrite !zlen_app, zlen_le_u32|lia]|].
  rewrite (app_assoc _ (le_u32 (zlen x))).
  apply slice_app; by rewrite ?zlen_app, ?zlen_le_u32.
Qed.

(** The effect of writing a tree, by recursion on the tree. *)
Fixpoint write_tree (n : Node) (w : snapshotWriter) : snapshotWriter :=
  match n with
  | Leaf v k x =>
      match writeLeaf Background w v k x (HashNode n) with Ok w' => w' | _ => w end
  | Branch h s v k l r =>
      let w1 := write_tree l w in
      let w2 := write_tree r w1 in
      writeBranch w2 v (u32 s) h (u8 (leafCounter w - branchCounter w)) (leafCounter w1) (HashNode n)
  end.

Lemma writeLeaf_ctx ctx w v k x h :
  (forall i, ctx i = None) -> writeLeaf ctx w v k x h = writeLeaf Background w v k x h.
Proof. intros Hc. unfold writeLeaf, Background. rewrite Hc. by destruct (_ =? 0). Qed.

Lemma writeLeaf_background w v k x h : exists w', writeLeaf Background w v k x h = Ok w'.
Proof. unfold writeLeaf, Background. destruct (_ =? 0); eauto. Qed.

(** Without cancellation the writer writes the tree its argument denotes. *)
Lemma writeRecursive_tree `{NodeLaws NT denotes} ctx n x w fuel :
  (forall i, ctx i = None) -> denotes x n -> height n < Z.of_nat fuel ->
  writeRecursive fuel ctx w x = Ok (write_tree n w).
Proof.
  intros Hc. revert x w fuel.
  induction n as [lv lk lx|h s v k l IHl r IHr]; intros x w fuel Hd Hf.
  - destruct fuel as [|fuel]; [simpl in Hf; lia|]. cbn [writeRecursive]. node_read Hd.
    simpl. rewrite writeLeaf_ctx by done.
    destruct (writeLeaf_background w lv lk lx (HashNode (Leaf lv lk lx))) as [w' ->]. done.
  - pose proof (height_nonneg l). pose proof (height_nonneg r). simpl in Hf.
    destruct fuel as [|fuel]; [lia|]. cbn [writeRecursive]. node_read Hd. simpl.
    destruct (denotes_Left _ _ _ _ _ _ _ Hd) as (yl & -> & Dl).
    destruct (denotes_Right _ _ _ _ _ _ _ Hd) as (yr & -> & Dr). simpl.
    rewrite (IHl yl w fuel Dl) by lia. simpl. rewrite (IHr yr _ fuel Dr) by lia. simpl.
    node_read Hd. done.
Qed.

(** The outcome of writing [n] at position [(lc, bc)]. *)
Record written (n : Node) (w w' : snapshotWriter) (lc bc : Z) : Prop := {
  wr_ok : writer_ok w' (lc + leaves n) (bc + leaves n - 1);
  wr_kvs : zlen (kvsOut w') = zlen (kvsOut w) + kv_size n;
  wr_holds s : holds s w' -> holds s w;
  wr_at s : holds s w' -> tree_at s n lc bc
}.

Lemma written_leaf v k x w lc bc :
  let n := Leaf v k x in
  writer_ok w lc bc -> storable n -> 0 <= lc -> lc + 1 < 2 ^ 32 ->
  zlen (kvsOut w) + kv_size n < 2 ^ 64 -> written n w (write_tree n w) lc bc.
Proof.
  intros n [Hl Hb Hls Hns Hk] (Hv & Hkl & Hxl) Hlc Hr Hks. simpl in Hks.
  pose proof (zlen_nonneg k). pose proof (zlen_nonneg x). pose proof (zlen_nonneg (kvsOut w)).
  change (write_tree n w) with
    (match writeLeaf Background w v k x (HashNode n) with Ok w' => w' | _ => w end).
  unfold writeLeaf, Background, writeKeyValue.
  cbn [kvsOut leavesOut nodesOut leafCounter branchCounter kvsOffset].
  replace (if leafCounter w mod CancelCheckInterval =? 0 then @None error else None)
    with (@None error) by (by destruct (_ =? 0)).
  rewrite !(u32_small (zlen _)) by lia.
  destruct (leaf_record_reads v (zlen k) (kvsOffset w) (HashNode n)) as (Ez & Ev & Ekl & Eo & Eh);
    [done|lia|lia|apply HashNode_zlen|].
  split; cbn [kvsOut leavesOut nodesOut leafCounter branchCounter kvsOffset].
  - split; cbn [kvsOut leavesOut nodesOut leafCounter branchCounter kvsOffset].
    + rewrite Hl, u32_small by (change (leaves n) with 1; lia). done.
    + change (leaves n) with 1. lia.
    + rewrite zlen_app, Ez, Hls. change (leaves n) with 1. lia.
    + rewrite Hns. change (leaves n) with 1. f_equal. lia.
    + rewrite Hk, u64_small by lia. rewrite !zlen_app, !zlen_le_u32. lia.
  - rewrite !zlen_app, !zlen_le_u32. simpl. lia.
  - intros s (A & B & C). cbn in A, B, C. unfold holds.
    split; [done|]. split; [by eapply prefix_app_l|by eapply prefix_app_l].
  - intros s (_ & B & C). cbn [kvsOut leavesOut] in B, C. simpl tree_at.
    assert (Er : Leaves_Leaf (leaves_ s) lc =
      Ok ((le_u64 v ++ le_u32 (zlen k) ++ le_u64 (kvsOffset w)) ++ HashNode n)).
    { unfold Leaves_Leaf. erewrite slice_prefix; [done|exact B| |]; rewrite ?Ez; lia. }
    destruct (kv_entry_reads _ k x _ (kvsOffset w) C) as (E1 & E2 & E3 & E4); [lia..|].
    eexists _, _. split; [exact Er|]. split; [exact Ev|]. split; [exact Eo|]. split; [exact Eh|].
    unfold LeafKey, LeafKeyValue, KeyValue. rewrite Er, E1. cbn [mbind res_bind].
    rewrite Eo, Ekl. cbn [mbind res_bind of_option]. rewrite E2. cbn [mbind res_bind of_option].
    rewrite E3. cbn [mbind res_bind of_option]. rewrite E4. done.
Qed.

Lemma written_branch h sz v k l r w lc bc :
  let n := Branch h sz v k l r in
  let w1 := write_tree l w in
  let w2 := write_tree r w1 in
  writer_ok w lc bc -> written l w w1 lc bc -> written r w1 w2 (lc + leaves l) (bc + leaves l - 1) ->
  fields_ok n -> 0 <= v < 2 ^ 64 -> 0 <= bc <= lc -> lc - bc < 256 -> height n < 256 ->
  lc + leaves n < 2 ^ 32 ->
  written n w (write_tree n w) lc bc.
Proof.
  intros n w1 w2 [Hl Hb _ _ _] Wl Wr Fn Hv Hc Hp Hh Hr.
  destruct Wl as [[Hl1 _ _ _ _] Hk1 Hh1 Ha1]. destruct Wr as [[Hl2 Hb2 Hls2 Hns2 Hko2] Hk2 Hh2 Ha2].
  pose proof (leaves_pos l). pose proof (leaves_pos r). pose proof (height_nonneg n).
  assert (El : leaves n = leaves l + leaves r) by apply leaves_Branch.
  change (write_tree n w) with (writeBranch w2 v (u32 sz) h (u8 (leafCounter w - branchCounter w))
    (leafCounter w1) (HashNode n)).
  pose proof (fields_Height n Fn) as EH. pose proof (fields_Size n Fn) as ES.
  change (h = height n) in EH. change (sz = leaves n) in ES.
  rewrite Hl, Hb, Hl1, ES, EH, u8_small, u32_small by lia.
  destruct (branch_record_reads (height n) (lc - bc) v (leaves n) (lc + leaves l) (HashNode n))
    as (Ez & E1 & E2 & E3 & E4 & E5 & E6); [lia..|apply HashNode_zlen|].
  split; cbn [writeBranch kvsOut leavesOut nodesOut leafCounter branchCounter kvsOffset].
  - split; cbn [writeBranch kvsOut leavesOut nodesOut leafCounter branchCounter kvsOffset].
    + lia.
    + rewrite Hb2, u32_small; lia.
    + rewrite Hls2. f_equal. lia.
    + rewrite zlen_app, Ez, Hns2, El. lia.
    + done.
  - simpl kv_size. lia.
  - intros s (A & B & C). cbn in A, B, C. apply Hh1, Hh2. split; [by eapply prefix_app_l|done].
  - intros s (A & B & C). cbn [writeBranch nodesOut leavesOut kvsOut] in A, B, C.
    assert (holds s w2) by (split; [by eapply prefix_app_l|done]).
    change (tree_at s l lc bc /\ tree_at s r (lc + leaves l) (bc + leaves l - 1) /\
      branch_at s (bc + leaves n - 2) (lc - bc) (lc + leaves l) n).
    split; [by apply Ha1, Hh2|]. split; [by apply Ha2|]. eexists. split.
    { unfold Nodes_Node. erewrite slice_prefix; [done|exact A| |]; rewrite ?Ez, ?Hns2; lia. }
    change (Height n) with h. change (Size n) with sz. rewrite EH, ES. auto 10.
Qed.

Lemma write_tree_written n w lc bc :
  writer_ok w lc bc -> fields_ok n -> storable n -> 0 <= bc <= lc -> lc - bc + height n <= 255 ->
  lc + leaves n < 2 ^ 32 -> zlen (kvsOut w) + kv_size n < 2 ^ 64 ->
  written n w (write_tree n w) lc bc.
Proof.
  revert w lc bc. induction n as [lv lk lx|h s v k l IHl r IHr]; intros w lc bc Hw Fn Hs Hc Hp Hr Hk.
  - apply written_leaf; [done..|lia|done|done].
  - pose proof Fn as (_ & _ & _ & Fl & Fr). destruct Hs as (Hv & Sl & Sr).
    rewrite leaves_Branch in Hr. simpl in Hp, Hk.
    pose proof (leaves_pos l). pose proof (leaves_pos r).
    pose proof (height_nonneg l). pose proof (height_nonneg r).
    pose proof (kv_size_nonneg l). pose proof (kv_size_nonneg r).
    assert (Wl : written l w (write_tree l w) lc bc) by (apply IHl; try done; lia).
    assert (Wr : written r (write_tree l w) (write_tree r (write_tree l w))
      (lc + leaves l) (bc + leaves l - 1)).
    { apply IHr; try done; try lia; [by apply wr_ok in Wl|]. rewrite (wr_kvs _ _ _ _ _ Wl). lia. }
    apply written_branch; try done; simpl; rewrite ?leaves_Branch; lia.
Qed.

(** ** The round trip *)

(** The trees whose snapshot the file format can hold. *)
Record snapshottable (n : Node) : Prop := {
  sn_fields : fields_ok n;
  sn_storable : storable n;
  sn_height : height n <= 255;
  sn_leaves : leaves n < 2 ^ 32;
  sn_kvs : kv_size n < 2 ^ 64
}.

Lemma wf_snapshottable n :
  wf n -> storable n -> leaves n < 2 ^ 32 -> kv_size n < 2 ^ 64 -> snapshottable n.
Proof.
  intros [Hf Hb _] Hs Hl Hk. split; try done.
  pose proof (height_bound n Hb). unfold max_leaves in *. lia.
Qed.

Lemma new_writer_ok : writer_ok newSnapshotWriter 0 0.
Proof. by split. Qed.

Lemma metadata_zlen version :
  zlen (le_u32 SnapshotFileMagic ++ le_u32 SnapshotFormat ++ le_u64 version) = SizeMetadata.
Proof. by rewrite !zlen_app, zlen_le_u64, !zlen_le_u32. Qed.

(** The four lookups of [OpenSnapshot] in a directory just written. *)
Lemma snapshot_files (dir : Dir) meta kv lv nd :
  let d := <[FileNameMetadata := meta]> (<[FileNameKVs := kv]>
           (<[FileNameLeaves := lv]> (<[FileNameNodes := nd]> dir))) in
  ReadFile d FileNameMetadata = Ok meta /\ ReadFile d FileNameKVs = Ok kv /\
  ReadFile d FileNameLeaves = Ok lv /\ ReadFile d FileNameNodes = Ok nd.
Proof.
  intros d. unfold ReadFile, d. repeat split; by simplify_map_eq.
Qed.

Lemma open_files (dir : Dir) version kv lv nd :
  0 <= version < 2 ^ 64 ->
  let d := <[FileNameMetadata :=
              le_u32 SnapshotFileMagic ++ le_u32 SnapshotFormat ++ le_u64 version]>
           (<[FileNameKVs := kv]> (<[FileNameLeaves := lv]> (<[FileNameNodes := nd]> dir))) in
  OpenSnapshot d =
    if negb (zlen nd mod SizeNode =? 0) then
      Err "corrupted snapshot, nodes file size is not a multiple" else
    if negb (zlen lv mod SizeLeaf =? 0) then
      Err "corrupted snapshot, leaves file size is not a multiple" else
    if ((0 <? zlen lv / SizeLeaf) && negb (zlen nd / SizeNode + 1 =? zlen lv / SizeLeaf))
       || ((zlen lv / SizeLeaf =? 0) && negb (zlen nd / SizeNode =? 0)) then
      Err "corrupted snapshot, branch nodes size don't match leaves size" else
    Ok {| nodes := nd; leaves_ := lv; kvs := kv; snap_version := version;
          root :=
            if 0 <? zlen nd / SizeNode then
              Some {| isLeaf := false; index := u32 (zlen nd / SizeNode - 1) |}
            else if 0 <? zlen lv / SizeLeaf then Some {| isLeaf := true; index := 0 |}
            else None |}.
Proof.
  intros Hv d. destruct (snapshot_files dir
    (le_u32 SnapshotFileMagic ++ le_u32 SnapshotFormat ++ le_u64 version) kv lv nd)
    as (E1 & E2 & E3 & E4). fold d in E1, E2, E3, E4.
  unfold OpenSnapshot. rewrite E1. cbn [mbind res_bind]. rewrite metadata_zlen.
  assert (M : Uint32_at (le_u32 SnapshotFileMagic ++ le_u32 SnapshotFormat ++ le_u64 version) 0
    = Some SnapshotFileMagic) by (by apply (Uint32_at_app [])).
  rewrite Z.eqb_refl, M. cbn [of_option mbind res_bind negb].
  rewrite (Uint32_at_app (le_u32 SnapshotFileMagic) SnapshotFormat) by done.
  rewrite Z.eqb_refl. cbn [of_option mbind res_bind negb]. rewrite Z.eqb_refl. cbn [negb].
  rewrite <- (app_nil_r (le_u64 version)), app_assoc.
  rewrite Uint64_at_app by (done || by rewrite zlen_app, !zlen_le_u32).
  cbn [of_option mbind res_bind]. rewrite E2, E3, E4. done.
Qed.

Lemma write_root_opens (n : Node) (version : Z) (dir : Dir) :
  snapshottable n -> 0 <= version < 2 ^ 64 ->
  let w := write_tree n newSnapshotWriter in
  exists s p,
    OpenSnapshot (<[FileNameMetadata :=
        le_u32 SnapshotFileMagic ++ le_u32 SnapshotFormat ++ le_u64 version]>
      (<[FileNameKVs := kvsOut w]> (<[FileNameLeaves := leavesOut w]>
      (<[FileNameNodes := nodesOut w]> dir)))) = Ok s /\
    snap_version s = version /\ root s = Some p /\ persists s p n 0 0 /\
    leafCounter w = leaves n /\
    zlen (leaves_ s) = leaves n * SizeLeaf /\ zlen (nodes s) = (leaves n - 1) * SizeNode.
Proof.
  intros [Hf Hs Hh Hl Hk] Hv w. pose proof (leaves_pos n).
  destruct (write_tree_written n newSnapshotWriter 0 0 new_writer_ok Hf Hs) as [Hw _ _ Hat];
    [lia|lia|lia|change (0 + kv_size n < 2 ^ 64); lia|]. fold w in Hw, Hat.
  destruct Hw as [El Eb Els Ens _]. rewrite !Z.add_0_l in *.
  rewrite open_files by done. rewrite Els, Ens.
  rewrite !Z.mod_mul, !Z.div_mul by done. simpl negb. cbv iota.
  replace (leaves n - 1 + 1 =? leaves n) with true by (symmetry; apply Z.eqb_eq; lia).
  replace (leaves n =? 0) with false by (symmetry; apply Z.eqb_neq; lia).
  rewrite andb_false_r. simpl orb. cbv iota.
  eexists _, _. split; [reflexivity|]. split; [reflexivity|].
  split; [|split; [|split; [exact El|split; [exact Els|exact Ens]]]].
  2: { split; [reflexivity| |done|lia|lia]. apply Hat. by split. }
  simpl. unfold node_of. destruct (Z.ltb_spec 0 (leaves n - 1)).
  - destruct n; [change (leaves _) with 1 in *; lia|]. rewrite u32_small by lia. do 2 f_equal. lia.
  - rewrite (proj2 (Z.ltb_lt 0 (leaves n))) by lia. assert (IsLeaf n = true) by (apply leaves_1_leaf; lia).
    by destruct n.
Qed.

Lemma open_empty (dir : Dir) version :
  0 <= version < 2 ^ 64 ->
  OpenSnapshot (<[FileNameMetadata :=
      le_u32 SnapshotFileMagic ++ le_u32 SnapshotFormat ++ le_u64 version]>
    (<[FileNameKVs := []]> (<[FileNameLeaves := []]> (<[FileNameNodes := []]> dir))))
  = Ok (NewEmptySnapshot version).
Proof. intros Hv. by rewrite open_files. Qed.

(** Writing and opening, for any implementation of nodes. *)
Lemma write_open `{NodeLaws NT denotes} ctx fuel dir version (x : NT) n :
  (forall i, ctx i = None) -> denotes x n -> snapshottable n -> 0 <= version < 2 ^ 64 ->
  height n < Z.of_nat fuel ->
  exists dir' s p,
    WriteSnapshotWithContext fuel ctx dir version (Some x) = Ok dir' /\
    OpenSnapshot dir' = Ok s /\ snap_version s = version /\ root s = Some p /\ persists s p n 0 0 /\
    zlen (leaves_ s) = leaves n * SizeLeaf /\ zlen (nodes s) = (leaves n - 1) * SizeNode.
Proof.
  intros Hc Hd Hn Hv Hf. unfold WriteSnapshotWithContext, writeSnapshot.
  rewrite (writeRecursive_tree ctx n x newSnapshotWriter fuel Hc Hd Hf). cbn [mbind res_bind].
  destruct (write_root_opens n version dir Hn Hv) as (s & p & E & Ev & Er & Hp & El & Ez & Ez').
  rewrite El. pose proof (leaves_pos n). rewrite (proj2 (Z.ltb_lt 0 (leaves n))) by lia.
  eexists _, s, p. split; [reflexivity|]. auto 10.
Qed.

(** ** Cancellation and corrupt files *)

Lemma writeRecursive_cancelled `{NodeLaws NT denotes} ctx e n x w fuel :
  ctx 0 = Some e -> leafCounter w = 0 -> denotes x n -> height n < Z.of_nat fuel ->
  writeRecursive fuel ctx w x = Err e.
Proof.
  intros Hc Hw. revert x fuel. induction n as [lv lk lx|h s v k l IHl r IHr]; intros x fuel Hd Hf.
  - destruct fuel as [|fuel]; [simpl in Hf; lia|]. cbn [writeRecursive]. node_read Hd. simpl.
    unfold writeLeaf. rewrite Hw. simpl. by rewrite Hc.
  - pose proof (height_nonneg l). pose proof (height_nonneg r). simpl in Hf.
    destruct fuel as [|fuel]; [lia|]. cbn [writeRecursive]. node_read Hd. simpl.
    destruct (denotes_Left _ _ _ _ _ _ _ Hd) as (yl & -> & Dl). simpl.
    rewrite (IHl yl fuel Dl) by lia. done.
Qed.

(** Reading within the 16 bytes of the metadata file does not panic. *)
Lemma metadata_reads bz off :
  zlen bz = SizeMetadata -> 0 <= off ->
  (off + 4 <= 16 -> exists z, Uint32_at bz off = Some z) /\
  (off + 8 <= 16 -> exists z, Uint64_at bz off = Some z).
Proof.
  unfold Uint32_at, Uint64_at, slice, SizeMetadata. intros -> Ho. split; intros Hle.
  - rewrite !(proj2 (Z.leb_le _ _)) by lia. eauto.
  - rewrite !(proj2 (Z.leb_le _ _)) by lia. eauto.
Qed.

Lemma OpenSnapshot_total dir : OpenSnapshot dir <> Panic.
Proof.
  unfold OpenSnapshot, ReadFile. destruct (dir !! FileNameMetadata) as [bz|]; [|done]. cbn [mbind res_bind].
  destruct (Z.eqb_spec (zlen bz) SizeMetadata) as [Hz|]; [|done]. cbn [negb].
  destruct (proj1 (metadata_reads bz 0 Hz ltac:(lia)) ltac:(lia)) as [magic ->].
  destruct (proj1 (metadata_reads bz 4 Hz ltac:(lia)) ltac:(lia)) as [format ->].
  destruct (proj2 (metadata_reads bz 8 Hz ltac:(lia)) ltac:(lia)) as [version ->].
  cbn [of_option mbind res_bind].
  destruct (negb (magic =? SnapshotFileMagic)); [done|]. destruct (negb (format =? SnapshotFormat)); [done|].
  destruct (dir !! FileNameNodes) as [nd|]; [|done]. destruct (dir !! FileNameLeaves) as [lv|]; [|done].
  destruct (dir !! FileNameKVs) as [kv|]; [|done]. cbn [mbind res_bind].
  by repeat (case_match; try discriminate).
Qed.

(** ** Properties *)

Lemma sample_snapshottable : snapshottable sample_tree.
Proof.
  apply wf_snapshottable; [exact sample_tree_wf| |vm_compute; reflexivity|vm_compute; reflexivity].
  vm_compute. repeat split; discriminate.
Qed.

(** C18: writing the snapshot of a tree behind any implementation of nodes, without
    cancellation, succeeds, and opening the files gives a snapshot of the same version
    whose root node denotes the tree: every height, size, version, key, value and
    hash is read back from the files. *)
Theorem snapshot_roundtrip `{NodeLaws NT denotes} ctx fuel dir version (x : NT) n :
  (forall i, ctx i = None) -> denotes x n -> snapshottable n -> 0 <= version < 2 ^ 64 ->
  height n < Z.of_nat fuel ->
  exists dir' s p,
    WriteSnapshotWithContext fuel ctx dir version (Some x) = Ok dir' /\
    OpenSnapshot dir' = Ok s /\ snap_version s = version /\ root s = Some p /\ persisted s p n /\
    RootHash s = Ok (HashNode n).
Proof.
  intros Hc Hd Hn Hv Hf. destruct (write_open ctx fuel dir version x n Hc Hd Hn Hv Hf)
    as (dir' & s & p & E1 & E2 & E3 & E4 & Hp & _).
  exists dir', s, p. do 4 (split; [done|]). split; [by exists 0, 0|].
  unfold RootHash, IsEmpty, RootNode. rewrite E4. simpl.
  apply (reads_Hash _ _ (persists_reads _ _ _ _ _ Hp)).
Qed.

Lemma snapshot_roundtrip_witness :
  exists dir' s p,
    WriteSnapshotWithContext 3 Background ∅ 7 (Some sample_tree) = Ok dir' /\
    OpenSnapshot dir' = Ok s /\ snap_version s = 7 /\ root s = Some p /\ persisted s p sample_tree /\
    RootHash s = Ok (HashNode sample_tree).
Proof.
  apply (snapshot_roundtrip (denotes := eq) Background 3 ∅ 7 sample_tree sample_tree);
    [done|done|exact sample_snapshottable|lia|vm_compute; reflexivity].
Defined.

(** C39: opening a directory never panics, whatever its files hold: missing files, a
    metadata file of the wrong size, magic or format, and record files of the wrong
    length are errors. *)
Theorem OpenSnapshot_never_panics dir : OpenSnapshot dir <> Panic.
Proof. apply OpenSnapshot_total. Qed.

(** a context that is cancelled before the first leaf makes the snapshot writer
    return the error of the context. *)
Theorem WriteSnapshot_cancelled `{NodeLaws NT denotes} ctx e fuel dir version (x : NT) n :
  ctx 0 = Some e -> denotes x n -> height n < Z.of_nat fuel ->
  WriteSnapshotWithContext fuel ctx dir version (Some x) = Err e.
Proof.
  intros Hc Hd Hf. unfold WriteSnapshotWithContext, writeSnapshot.
  by rewrite (writeRecursive_cancelled ctx e n x newSnapshotWriter fuel Hc eq_refl Hd Hf).
Qed.

Lemma WriteSnapshot_cancelled_witness :
  WriteSnapshotWithContext 3 (fun _ => Some "context canceled") ∅ 7 (Some sample_tree)
  = Err "context canceled".
Proof.
  apply (WriteSnapshot_cancelled (denotes := eq) (fun _ => Some "context canceled") "context canceled"
    3 ∅ 7 sample_tree sample_tree); [done|done|vm_compute; reflexivity].
Defined.

(** C32: the accessors of a persisted node agree with the tree it denotes, and the
    index arithmetic of [Left] and [Right] finds the persisted nodes of the children. *)
Theorem persisted_node_correct s x n :
  persisted s x n ->
  @node_reads _ (persisted_ops s) x n /\
  match n with
  | Leaf _ _ _ => True
  | Branch _ _ _ _ l r =>
      exists y z, Persisted.Left s x = Ok y /\ persisted s y l /\
                  Persisted.Right s x = Ok z /\ persisted s z r
  end.
Proof.
  intros Hp. split; [by apply (denotes_reads (NodeLaws := persisted_laws s))|].
  destruct n as [|h sz v k l r]; [done|].
  destruct (denotes_Left (NodeLaws := persisted_laws s) _ _ _ _ _ _ _ Hp) as (y & Ey & Py).
  destruct (denotes_Right (NodeLaws := persisted_laws s) _ _ _ _ _ _ _ Hp) as (z & Ez & Pz).
  by exists y, z.
Qed.

(** The snapshot of the sample tree. *)
Lemma sample_snapshot : exists s p, root s = Some p /\ persists s p sample_tree 0 0.
Proof.
  destruct (write_root_opens sample_tree 3 ∅ sample_snapshottable ltac:(lia))
    as (s & p & _ & _ & Er & Hp & _). by exists s, p.
Qed.

Lemma persisted_node_correct_witness :
  exists s x, @node_reads _ (persisted_ops s) x sample_tree.
Proof.
  destruct sample_snapshot as (s & p & _ & Hp). exists s, p.
  apply (persisted_node_correct s p sample_tree). by exists 0, 0.
Defined.

(** the binary search of a persisted node over the leaf array returns the same
    value and the same index as the descent of the tree. *)
Theorem persisted_Get_correct s x n key :
  persisted s x n -> wf n -> Persisted.Get s x key = Ok (Get n key).
Proof.
  intros (lc & bc & Hp) Hw. rewrite (persists_Get s x n lc bc key Hp (wf_sorted n Hw)).
  rewrite Get_elements; [done|done|]. pose proof (ps_counts _ _ _ _ _ Hp). pose proof (ps_range _ _ _ _ _ Hp). lia.
Qed.

Lemma persisted_Get_correct_witness :
  exists s x, Persisted.Get s x (str "f") = Ok (None, 3).
Proof.
  destruct sample_snapshot as (s & p & _ & Hp). exists s, p.
  apply (persisted_Get_correct s p sample_tree (str "f")); [by exists 0, 0|exact sample_tree_wf].
Defined.

(** The right subtree of the snapshot of the sample tree, by [GetByIndex]. *)
Definition sample_right_by_index (i : Z) : res (option (bytes * bytes)) :=
  dir ← WriteSnapshotWithContext 3 Background ∅ 3 (Some sample_tree);
  s ← OpenSnapshot dir;
  p ← RootNode s;
  right ← Persisted.Right s p;
  Persisted.GetByIndex s right i.

(** [PersistedNode.GetByIndex] adds the index to the first leaf of the node in
    [uint32]: on a node that does not start at leaf 0 an index close to [2 ^ 32] wraps and
    returns a pair of another subtree instead of nil, which the descent of the tree
    returns. *)
Theorem GetByIndex_wraps :
  sample_right_by_index 0 = Ok (Some (str "e", str "3")) /\
  sample_right_by_index 2 = Ok None /\
  sample_right_by_index (2 ^ 32 - 1) = Ok (Some (str "c", str "2")) /\
  (r ← Right sample_tree; GetByIndex r (2 ^ 32 - 1)) = None.
Proof. repeat split; vm_compute; reflexivity. Qed.
