(* ===== verification/Export.v ===== *)
(** * Exporting a tree (memiavl/export.go, memiavl/snapshot.go, memiavl/tree.go)

    A tree is exported in post-order, either by walking it or, when it is the tree
    of a snapshot, by reading the leaf and branch arrays of the snapshot once, in
    order.  The main result is that the sequential export gives the callback the
    same nodes in the same order and stops at the same node.  The last part has the goroutine
    and the channel that deliver the nodes. *)

From Stdlib Require Import Strings.Byte ZArith Lia.
From stdpp Require Import base list numbers strings gmap sorting.
From S2P Require Import Prelude Binary Sha256 Node NodeInv NodeIface Iterator Sort.
From S2P Require Import Snapshot SnapshotInv SnapshotWriter.
Local Open Scope Z_scope.

Record ExportNode : Type := {
  en_Key : bytes;
  en_Value : option bytes;
  en_Version : Z;
  en_Height : Z
}.

(** The node the callback of [Tree.Export] makes of a node of the tree. *)
Definition export_node (n : Node) : ExportNode :=
  {| en_Key := Key n; en_Value := Value n; en_Version := i64 (Version n); en_Height := i8 (Height n) |}.

(** ** Sequential export of a snapshot *)

Section export.
  Context {St : Type} (callback : St -> ExportNode -> St * bool) (s : Snapshot).

(** The node made of the leaf record [j] in the loop. *)
Definition export_leaf (j : Z) : res ExportNode :=
  leaf ← Leaves_Leaf (leaves_ s) j;
  offset ← LeafLayout.KeyOffset leaf;
  kv ← KeyValue s offset;
  version ← LeafLayout.Version leaf;
  Ok {| en_Key := kv.1; en_Value := Some kv.2; en_Version := i64 version; en_Height := 0 |}.

(** The inner loop: leaves are exported until [pendingTrees] reaches [target].  The
    result has the state, whether the callback stopped the export, and [j]. *)
Fixpoint export_leaves (fuel : nat) (target pendingTrees j : Z) (st : St) : res (St * bool * Z * Z) :=
  match fuel with
  | O => out_of_fuel
  | S fuel =>
      if pendingTrees <? target then
        enode ← export_leaf j;
        let '(st, stop) := callback st enode in
        if stop : bool then Ok (st, true, u32 (j + 1), pendingTrees + 1)
        else export_leaves fuel target (pendingTrees + 1) (u32 (j + 1)) st
      else Ok (st, false, j, pendingTrees)
  end.

(** The outer loop over the branches [i], ..., [i + n - 1]. *)
Fixpoint export_branches (n : nat) (i j pendingTrees : Z) (st : St) : res (St * bool * Z * Z) :=
  match n with
  | O => Ok (st, false, j, pendingTrees)
  | S n =>
      node ← Nodes_Node (nodes s) i;
      preTrees ← NodeLayout.PreTrees node;
      '(st, stop, j, pendingTrees) ←
        export_leaves (S (Z.to_nat (preTrees + 2 - pendingTrees))) (preTrees + 2) pendingTrees j st;
      if stop : bool then Ok (st, true, j, pendingTrees) else
      height ← NodeLayout.Height node;
      version ← NodeLayout.Version node;
      keyLeaf ← NodeLayout.KeyLeaf node;
      key ← LeafKey s keyLeaf;
      let enode := {| en_Key := key; en_Value := None;
                      en_Version := i64 version; en_Height := i8 height |} in
      let pendingTrees := pendingTrees - 1 in
      let '(st, stop) := callback st enode in
      if stop : bool then Ok (st, true, j, pendingTrees)
      else export_branches n (i + 1) j pendingTrees st
  end.

Definition export (st : St) : res St :=
  if leavesLen s =? 0 then Ok st
  else if leavesLen s =? 1 then
    let leaf := {| isLeaf := true; index := 0 |} in
    version ← Persisted.Version s leaf;
    key ← Persisted.Key s leaf;
    value ← Persisted.Value s leaf;
    Ok (callback st {| en_Height := 0; en_Version := i64 version; en_Key := key; en_Value := value |}).1
  else
    '(st, _, _, _) ← export_branches (Z.to_nat (nodesLen s)) 0 0 0 st;
    Ok st.

(** ** The reference: feeding a list to the callback until it stops *)

Fixpoint feed (l : list ExportNode) (st : St) : St * bool :=
  match l with
  | [] => (st, false)
  | e :: l =>
      let '(st, stop) := callback st e in
      if stop : bool then (st, true) else feed l st
  end.

Lemma feed_app l1 l2 st :
  feed (l1 ++ l2) st = let '(st', stop) := feed l1 st in if stop : bool then (st', true) else feed l2 st'.
Proof.
  revert st. induction l1 as [|e l1 IH]; intros st; simpl; [by destruct (feed l2 st)|].
  destruct (callback st e) as [st' []]; [done|]. apply IH.
Qed.

(** ** Correctness of the sequential export *)

(** The leaves [j], ..., [j + n - 1] of a list of exported leaves. *)
Variable leaf_enodes : list ExportNode.
Hypothesis leaves_read : forall j e, leaf_enodes !! j = Some e -> export_leaf (Z.of_nat j) = Ok e.
Hypothesis leaves_small : zlen leaf_enodes < 2 ^ 32.

Definition leaf_range (a b : Z) : list ExportNode :=
  take (Z.to_nat (b - a)) (drop (Z.to_nat a) leaf_enodes).

Lemma leaf_range_nil a : leaf_range a a = [].
Proof. unfold leaf_range. by rewrite Z.sub_diag. Qed.

Lemma leaf_range_cons a b :
  0 <= a < b -> b <= zlen leaf_enodes ->
  exists e, leaf_enodes !! Z.to_nat a = Some e /\ leaf_range a b = e :: leaf_range (a + 1) b.
Proof.
  unfold zlen. intros Ha Hb.
  destruct (lookup_lt_is_Some_2 leaf_enodes (Z.to_nat a)) as [e He]; [lia|].
  exists e. split; [done|]. unfold leaf_range.
  rewrite (drop_S _ e) by done.
  replace (Z.to_nat (b - a)) with (S (Z.to_nat (b - (a + 1)))) by lia.
  replace (Z.to_nat (a + 1)) with (S (Z.to_nat a)) by lia. done.
Qed.

Lemma leaf_range_app a b c :
  0 <= a <= b -> b <= c -> leaf_range a c = leaf_range a b ++ leaf_range b c.
Proof.
  intros Ha Hb. unfold leaf_range.
  replace (Z.to_nat (c - a)) with (Z.to_nat (b - a) + Z.to_nat (c - b))%nat by lia.
  rewrite <- take_take_drop, drop_drop. do 3 f_equal. lia.
Qed.

(** The inner loop feeds the leaves up to the target. *)
Lemma export_leaves_feed fuel target pending j st :
  0 <= j -> pending <= target -> j + (target - pending) <= zlen leaf_enodes ->
  target - pending < Z.of_nat fuel ->
  let j' := j + (target - pending) in
  let '(st', stop) := feed (leaf_range j j') st in
  if stop : bool then exists j1 p1, export_leaves fuel target pending j st = Ok (st', true, j1, p1)
  else export_leaves fuel target pending j st = Ok (st', false, j', target).
Proof.
  revert pending j st. induction fuel as [|fuel IH]; intros pending j st Hj Hp Hr Hf j'; [lia|].
  simpl. destruct (Z.ltb_spec pending target) as [Hlt|Hge].
  - destruct (leaf_range_cons j j') as (e & He & ->); [lia|lia|].
    simpl. apply leaves_read in He. rewrite Z2Nat.id in He by lia. rewrite He. simpl.
    destruct (callback st e) as [st1 []]; [eauto|].
    rewrite u32_small by lia.
    specialize (IH (pending + 1) (j + 1) st1). cbv zeta in IH.
    replace (j + 1 + (target - (pending + 1))) with j' in IH by (unfold j'; lia).
    apply IH; unfold j' in *; lia.
  - assert (pending = target) as -> by lia.
    replace j' with j by (unfold j'; lia). by rewrite leaf_range_nil.
Qed.

(** The outer loop goes from branch [i] and leaf [j] to branch [i'] and leaf [j'],
    feeding [out]; the number of pending trees is always [j - i]. *)
Definition runs (i j : Z) (out : list ExportNode) (i' j' : Z) : Prop :=
  i <= i' /\
  forall m st,
    let '(st', stop) := feed out st in
    if stop : bool then
      exists j1 p1, export_branches (Z.to_nat (i' - i) + m) i j (j - i) st = Ok (st', true, j1, p1)
    else
      export_branches (Z.to_nat (i' - i) + m) i j (j - i) st =
      export_branches m i' j' (j' - i') st'.

Lemma runs_nil i j : runs i j [] i j.
Proof. split; [lia|]. intros m st. simpl. by rewrite Z.sub_diag. Qed.

Lemma runs_app i j o1 i1 j1 o2 i2 j2 : runs i j o1 i1 j1 -> runs i1 j1 o2 i2 j2 -> runs i j (o1 ++ o2) i2 j2.
Proof.
  intros [Hi H1] [Hi' H2]. split; [lia|]. intros m st. rewrite feed_app.
  specialize (H1 (Z.to_nat (i2 - i1) + m)%nat st).
  replace (Z.to_nat (i2 - i) + m)%nat with (Z.to_nat (i1 - i) + (Z.to_nat (i2 - i1) + m))%nat by lia.
  destruct (feed o1 st) as [st1 []]; [done|]. rewrite H1. apply H2.
Qed.

(** One round of the outer loop. *)
Lemma runs_branch n i j lc keyLeaf preTrees :
  branch_at s i preTrees keyLeaf n -> LeafKey s keyLeaf = Ok (Key n) -> Value n = None ->
  0 <= j <= lc -> lc <= zlen leaf_enodes -> preTrees + 2 - (j - i) = lc - j ->
  runs i j (leaf_range j lc ++ [export_node n]) (i + 1) lc.
Proof.
  intros (data & E & Eh & Ep & Ev & _ & Ek & _) EK EV Hj Hlc Hp. split; [lia|]. intros m st.
  rewrite feed_app. replace (Z.to_nat (i + 1 - i)) with 1%nat by lia. cbn [Nat.add export_branches].
  rewrite E. cbn [mbind res_bind]. rewrite Ep. cbn [mbind res_bind].
  pose proof (export_leaves_feed (S (Z.to_nat (preTrees + 2 - (j - i)))) (preTrees + 2) (j - i) j st) as H.
  cbv zeta in H. rewrite Hp in H. replace (j + (lc - j)) with lc in H by lia.
  specialize (H ltac:(lia) ltac:(lia) ltac:(lia) ltac:(lia)). rewrite Hp.
  destruct (feed (leaf_range j lc) st) as [st1 []].
  - destruct H as (j1 & p1 & ->). cbn. eauto.
  - rewrite H. cbn [mbind res_bind]. rewrite Eh. cbn [mbind res_bind]. rewrite Ev.
    cbn [mbind res_bind]. rewrite Ek. cbn [mbind res_bind]. rewrite EK. cbn [mbind res_bind].
    unfold export_node. rewrite EV. cbn [feed].
    destruct (callback st1 _) as [st2 []]; [eauto|]. f_equal. lia.
Qed.

Lemma runs_tree n lc bc j :
  tree_at s n lc bc -> fields_ok n -> 0 <= j <= lc -> lc + leaves n <= zlen leaf_enodes ->
  exists j1 out, runs bc j out (bc + leaves n - 1) j1 /\ 0 <= j1 <= lc + leaves n /\
    (IsLeaf n = false -> j1 = lc + leaves n) /\
    out ++ leaf_range j1 (lc + leaves n) = leaf_range j lc ++ map export_node (post_order n).
Proof.
  revert lc bc j. induction n as [lv lk lx|h sz v k l IHl r IHr]; intros lc bc j Ht Fn Hj Hlc.
  - exists j, []. change (leaves (Leaf lv lk lx)) with 1 in *.
    replace (bc + 1 - 1) with bc by lia. split; [apply runs_nil|]. split; [lia|]. split; [done|].
    rewrite (leaf_range_app j lc (lc + 1)) by lia. simpl. f_equal.
    destruct (leaf_range_cons lc (lc + 1)) as (e & He & ->); [lia..|].
    apply leaves_read in He. rewrite Z2Nat.id in He by lia. rewrite leaf_range_nil. f_equal.
    destruct Ht as (data & off & E1 & E2 & E3 & _ & _ & _ & E4).
    unfold export_leaf in He. rewrite E1 in He. simpl in He. rewrite E3 in He. simpl in He.
    rewrite E4 in He. simpl in He. rewrite E2 in He. simpl in He. by injection He as <-.
  - rewrite leaves_Branch in *. destruct Ht as (Hl & Hr & Hb). destruct Fn as (_ & _ & Ek & Fl & Fr).
    pose proof (leaves_pos l). pose proof (leaves_pos r).
    destruct (IHl lc bc j Hl Fl) as (j1 & o1 & R1 & Hj1 & _ & E1); [lia|lia|].
    destruct (IHr (lc + leaves l) (bc + leaves l - 1) j1 Hr Fr) as (j2 & o2 & R2 & Hj2 & _ & E2);
      [lia|lia|].
    exists (lc + (leaves l + leaves r)),
      (o1 ++ o2 ++ leaf_range j2 (lc + (leaves l + leaves r)) ++ [export_node (Branch h sz v k l r)]).
    split; [|split; [lia|split; [done|]]].
    + replace (bc + (leaves l + leaves r) - 1) with (bc + leaves l - 1 + leaves r - 1 + 1) by lia.
      eapply runs_app; [exact R1|]. eapply runs_app; [exact R2|].
      replace (bc + leaves l - 1 + leaves r - 1) with (bc + leaves (Branch h sz v k l r) - 2)
        by (rewrite leaves_Branch; lia).
      eapply runs_branch; [exact Hb| |done|lia|lia|rewrite leaves_Branch; lia].
      rewrite (tree_at_min_key _ _ _ _ Hr). by rewrite Ek.
    + rewrite leaf_range_nil, app_nil_r. simpl. rewrite !map_app. simpl.
      replace (lc + (leaves l + leaves r)) with (lc + leaves l + leaves r) by lia.
      rewrite (app_assoc o2), E2, <- (app_assoc (leaf_range j1 _)), (app_assoc o1), E1.
      by rewrite <- !app_assoc.
Qed.
End export.

Fixpoint leaf_nodes (n : Node) : list Node :=
  match n with
  | Leaf _ _ _ => [n]
  | Branch _ _ _ _ l r => leaf_nodes l ++ leaf_nodes r
  end.

Lemma leaf_nodes_zlen n : zlen (leaf_nodes n) = leaves n.
Proof.
  induction n as [|h s v k l IHl r IHr]; [done|]. rewrite leaves_Branch. simpl.
  rewrite zlen_app. lia.
Qed.

Lemma tree_at_export_leaf s n lc bc j m :
  tree_at s n lc bc -> leaf_nodes n !! j = Some m ->
  export_leaf s (lc + Z.of_nat j) = Ok (export_node m).
Proof.
  revert lc bc j. induction n as [lv lk lx|h sz nv nk l IHl r IHr]; intros lc bc j; simpl.
  - intros (data & off & E1 & E2 & E3 & _ & _ & _ & E4).
    destruct j as [|j]; [|done]. intros [= <-]. rewrite Z.add_0_r. unfold export_leaf.
    rewrite E1. simpl. rewrite E3. simpl. rewrite E4. simpl. rewrite E2. done.
  - intros (Hl & Hr & _) [Hj|[Hge Hj]]%lookup_app_Some; [eauto|].
    pose proof (IHr _ _ _ Hr Hj) as E. pose proof (leaf_nodes_zlen l) as Hz. unfold zlen in Hz.
    replace (lc + leaves l + Z.of_nat (j - length (leaf_nodes l))) with (lc + Z.of_nat j) in E by lia.
    done.
Qed.

(** The sequential export of the snapshot of a tree feeds its nodes in post-order. *)
Lemma export_post_order {St} (callback : St -> ExportNode -> St * bool) s p n st :
  persists s p n 0 0 -> zlen (leaves_ s) = leaves n * SizeLeaf ->
  zlen (nodes s) = (leaves n - 1) * SizeNode ->
  export callback s st = Ok (feed callback (map export_node (post_order n)) st).1.
Proof.
  intros Hp El En. unfold export, leavesLen, nodesLen. rewrite El, En, !Z.div_mul by done.
  pose proof (leaves_pos n). rewrite (proj2 (Z.eqb_neq (leaves n) 0)) by lia.
  destruct (Z.eqb_spec (leaves n) 1) as [E1|E1].
  - apply leaves_1_leaf in E1. destruct n as [lv lk lx|]; [|done].
    pose proof (persists_reads _ _ _ _ _ Hp) as R. rewrite (ps_node _ _ _ _ _ Hp) in R.
    pose proof (reads_Version _ _ R) as R1. pose proof (reads_Key _ _ R) as R2.
    pose proof (reads_Value _ _ R) as R3. simpl in R1, R2, R3. rewrite R1. simpl. rewrite R2. simpl.
    rewrite R3. simpl. unfold export_node. simpl. by destruct (callback st _) as [st' []].
  - destruct (runs_tree callback s (map export_node (leaf_nodes n))) with (n := n) (lc := 0) (bc := 0) (j := 0)
      as (j1 & out & R & Hj1 & Hb & Eo).
    + intros j e [m [-> Hm]]%list_lookup_fmap_Some.
      rewrite <- (Z.add_0_l (Z.of_nat j)). eapply tree_at_export_leaf; [apply (ps_at _ _ _ _ _ Hp)|done].
    + unfold zlen. rewrite length_map. pose proof (ps_range _ _ _ _ _ Hp).
      pose proof (leaf_nodes_zlen n). unfold zlen in *. lia.
    + apply (ps_at _ _ _ _ _ Hp).
    + apply (ps_fields _ _ _ _ _ Hp).
    + lia.
    + unfold zlen. rewrite length_map. pose proof (leaf_nodes_zlen n). unfold zlen in *. lia.
    + rewrite Hb in Eo, R by (destruct n; [done|reflexivity]).
      rewrite !leaf_range_nil, app_nil_r, app_nil_l in Eo. subst out.
      destruct R as [_ R]. specialize (R 0%nat st).
      replace (Z.to_nat (0 + leaves n - 1 - 0) + 0)%nat with (Z.to_nat (leaves n - 1)) in R by lia.
      change (0 - 0) with 0 in R.
      destruct (feed callback (map export_node (post_order n)) st) as [st' []].
      * destruct R as (j2 & p2 & ->). done.
      * rewrite R. done.
Qed.

(** ** Properties *)

(** the sequential export of a snapshot, one pass over the arrays of leaves and
    branches, gives the callback the nodes of the tree in post-order and stops at the
    first node at which the callback asks for it, exactly as a post-order traversal of the
    tree would. *)
Theorem snapshot_export_post_order {St} (callback : St -> ExportNode -> St * bool) s p n st :
  persists s p n 0 0 -> zlen (leaves_ s) = leaves n * SizeLeaf ->
  zlen (nodes s) = (leaves n - 1) * SizeNode ->
  export callback s st = Ok (feed callback (map export_node (post_order n)) st).1.
Proof. apply export_post_order. Qed.

Lemma snapshot_export_post_order_witness :
  exists s, export (fun l e => (l ++ [e], bool_decide (length l = 2%nat))) s [] =
    Ok (take 3 (map export_node (post_order sample_tree))).
Proof.
  destruct (write_root_opens sample_tree 3 ∅ sample_snapshottable ltac:(lia))
    as (s & p & _ & _ & _ & Hp & _ & Hl & Hn).
  exists s. rewrite (snapshot_export_post_order _ s p sample_tree [] Hp Hl Hn). reflexivity.
Defined.

(** ** The goroutine of an exporter

    [newExporter] starts a goroutine that feeds the nodes to a bounded channel until it is
    through or, if its walk heeds the callback, until the exporter is cancelled.  The user
    calls [Next] and [Close] in an order of its own.  Every operation on the channel is a step;
    where a select has two ways to go on, both are steps. *)

Definition exportBufferSize : nat := 32.

(** What the user does, and whether a [Close] is draining the channel. *)
Inductive call : Type := CallNext | CallClose.

(** [ex_todo] are the nodes that the walk has not passed to the callback yet, [ex_results] what
    the calls of [Next] have returned, nothing for [ErrorExportDone]. *)
Record Exporter : Type := {
  ex_heeds : bool;
  ex_todo : list ExportNode;
  ex_ch : list ExportNode;
  ex_closed : bool;
  ex_cancelled : bool;
  ex_calls : list call;
  ex_draining : bool;
  ex_results : list (option ExportNode)
}.

Definition newExporter (heeds : bool) (nodes : list ExportNode) (calls : list call) : Exporter :=
  {| ex_heeds := heeds; ex_todo := nodes; ex_ch := []; ex_closed := false; ex_cancelled := false; ex_calls := calls;
     ex_draining := false; ex_results := [] |}.

Definition on_channel (x : Exporter) (todo ch : list ExportNode) (closed : bool) : Exporter :=
  {| ex_heeds := ex_heeds x; ex_todo := todo; ex_ch := ch; ex_closed := closed; ex_cancelled := ex_cancelled x;
     ex_calls := ex_calls x; ex_draining := ex_draining x; ex_results := ex_results x |}.
Definition on_call (x : Exporter) (ch : list ExportNode) (cancelled : bool) (calls : list call) (draining : bool)
    (results : list (option ExportNode)) : Exporter :=
  {| ex_heeds := ex_heeds x; ex_todo := ex_todo x; ex_ch := ch; ex_closed := ex_closed x; ex_cancelled := cancelled;
     ex_calls := calls; ex_draining := draining; ex_results := results |}.

(** The callback: the send, or the end of the context. *)
Definition export_send (x : Exporter) : option Exporter :=
  match ex_todo x with
  | e :: todo => if (length (ex_ch x) <? exportBufferSize)%nat then Some (on_channel x todo (ex_ch x ++ [e]) (ex_closed x)) else None
  | [] => None
  end.
Definition export_done (x : Exporter) : option Exporter :=
  match ex_todo x with
  | e :: todo => if ex_cancelled x then Some (on_channel x (if ex_heeds x then [] else todo) (ex_ch x) (ex_closed x)) else None
  | [] => None
  end.
(** The deferred [close]. *)
Definition export_close (x : Exporter) : option Exporter :=
  match ex_todo x with
  | [] => if ex_closed x then None else Some (on_channel x [] (ex_ch x) true)
  | _ => None
  end.

(** The user: [Next], and [Close], which cancels and drains. *)
Definition export_call (x : Exporter) : option Exporter :=
  if ex_draining x then
    match ex_ch x with
    | _ :: ch => Some (on_call x ch (ex_cancelled x) (ex_calls x) true (ex_results x))
    | [] => if ex_closed x then Some (on_call x [] (ex_cancelled x) (ex_calls x) false (ex_results x)) else None
    end
  else
    match ex_calls x with
    | CallNext :: calls =>
        match ex_ch x with
        | e :: ch => Some (on_call x ch (ex_cancelled x) calls false (ex_results x ++ [Some e]))
        | [] => if ex_closed x then Some (on_call x [] (ex_cancelled x) calls false (ex_results x ++ [None])) else None
        end
    | CallClose :: calls => Some (on_call x (ex_ch x) true calls true (ex_results x))
    | [] => None
    end.

Definition export_step (x x' : Exporter) : Prop :=
  export_send x = Some x' \/ export_done x = Some x' \/ export_close x = Some x' \/ export_call x = Some x'.

(** What the calls return: the nodes in order, and nothing more after the last one or a close. *)
Fixpoint call_results (nodes : list ExportNode) (calls : list call) : list (option ExportNode) :=
  match calls with
  | [] => []
  | CallNext :: calls => head nodes :: call_results (tail nodes) calls
  | CallClose :: calls => call_results [] calls
  end.

(** The steps that are left. *)
Definition export_work (x : Exporter) : nat :=
  2 * length (ex_todo x) + length (ex_ch x) + (if ex_closed x then 0 else 1) + 2 * length (ex_calls x) + (if ex_draining x then 1 else 0).

(** The cases of a step. *)
Ltac export_cases :=
  unfold export_step, export_send, export_done, export_close, export_call;
  cbn [ex_heeds ex_todo ex_ch ex_closed ex_cancelled ex_calls ex_draining ex_results];
  intros [E|[E|[E|E]]]; repeat case_match; simplify_eq;
  cbn [on_channel on_call ex_heeds ex_todo ex_ch ex_closed ex_cancelled ex_calls ex_draining ex_results] in *.

Lemma export_step_work x x' : export_step x x' -> (export_work x' < export_work x)%nat.
Proof.
  destruct x as [heeds todo ch closed cancelled calls draining results]. unfold export_work. export_cases;
    rewrite ?length_app; cbn [length]; repeat case_match; lia.
Qed.

(** What has been returned and what is still to come are the results; a close that has
    returned has left the channel closed and empty and the goroutine at its end. *)
Record exporting (nodes : list ExportNode) (calls : list call) (x : Exporter) : Prop := {
  xp_results : call_results nodes calls =
    ex_results x ++ call_results (if ex_cancelled x then [] else ex_ch x ++ ex_todo x) (ex_calls x);
  xp_closed : ex_closed x = true -> ex_todo x = [];
  xp_returned : ex_cancelled x = true -> ex_draining x = false -> ex_closed x = true /\ ex_ch x = [];
  xp_draining : ex_draining x = true -> ex_cancelled x = true;
  xp_calls : CallClose ∈ calls -> CallClose ∈ ex_calls x \/ ex_cancelled x = true
}.

Lemma export_step_ok nodes calls x x' : exporting nodes calls x -> export_step x x' -> exporting nodes calls x'.
Proof.
  destruct x as [heeds todo ch closed cancelled todo_calls draining results]. intros [Hr Hc Hd Hg Hl].
  cbn [ex_heeds ex_todo ex_ch ex_closed ex_cancelled ex_calls ex_draining ex_results] in *. export_cases;
    split; cbn [on_channel on_call ex_todo ex_ch ex_closed ex_cancelled ex_calls ex_draining ex_results]; try done; try (by intros; simplify_eq; auto).
  all: try (intros ?; by discriminate Hc).
  all: try (by rewrite <- app_assoc).
  all: try (by discriminate (Hg eq_refl)).
  all: try (intros _ Ed; destruct (Hd eq_refl Ed) as [Ec ?]; by (discriminate Ec || discriminate (Hc Ec))).
  all: try (by destruct (Hd eq_refl eq_refl)).
  all: try (intros [Hin|?]%Hl; [left; by apply elem_of_cons in Hin as [|]|by right]).
  all: rewrite Hr, <- app_assoc; try done.
  by rewrite (Hc eq_refl).
Qed.

Lemma export_stuck nodes calls x : exporting nodes calls x -> (forall x', ~ export_step x x') ->
  ex_calls x = [] /\ ex_draining x = false /\ ex_results x = call_results nodes calls /\ (CallClose ∈ calls -> ex_closed x = true).
Proof.
  intros [Hr Hc Hd Hg Hl] Hst.
  assert (H1 : export_send x = None) by (destruct (export_send x) eqn:E; [|done]; exfalso; eapply Hst; left; exact E).
  assert (H2 : export_done x = None) by (destruct (export_done x) eqn:E; [|done]; exfalso; eapply Hst; right; left; exact E).
  assert (H3 : export_close x = None) by (destruct (export_close x) eqn:E; [|done]; exfalso; eapply Hst; right; right; left; exact E).
  assert (H4 : export_call x = None) by (destruct (export_call x) eqn:E; [|done]; exfalso; eapply Hst; right; right; right; exact E).
  assert (Hfin : ex_calls x = [] /\ ex_draining x = false).
  { unfold export_send, export_done, export_close, export_call in *. clear Hr Hst Hl. repeat case_match; try done; naive_solver. }
  destruct Hfin as [Ec Ed]. split_and!; [done|done|by rewrite Hr, Ec; rewrite app_nil_r|].
  intros Hin. destruct (Hl Hin) as [H|H]; [rewrite Ec in H; by apply elem_of_nil in H|by apply Hd].
Qed.

(** C14: An exporter delivers its nodes and comes to an end.  For every walk and all calls of
    [Next] and [Close] on the exporter, every run comes to a state in which all calls have
    returned: [Next] has given the nodes in order, and the end of the export after the last
    one or after a [Close].  A [Close] returns only when the goroutine has ended, so the tree
    may then be closed. *)
Theorem exporter_delivers (heeds : bool) (nodes : list ExportNode) (calls : list call) (run : nat -> Exporter) :
  run 0%nat = newExporter heeds nodes calls ->
  (forall i, export_step (run i) (run (S i)) \/ (run (S i) = run i /\ forall x, ~ export_step (run i) x)) ->
  (exists n, (forall x, ~ export_step (run n) x) /\ ex_calls (run n) = [] /\ ex_draining (run n) = false /\
     ex_results (run n) = call_results nodes calls /\ (CallClose ∈ calls -> ex_closed (run n) = true)) /\
  forall i, ex_cancelled (run i) = true -> ex_draining (run i) = false ->
    ex_closed (run i) = true /\ ex_todo (run i) = [] /\ ex_ch (run i) = [].
Proof.
  intros E0 Hrun.
  assert (Hok : forall i, exporting nodes calls (run i)).
  { induction i as [|i IH]; [rewrite E0; by split; try done; left|]. destruct (Hrun i) as [Hs|[-> _]]; [by eapply export_step_ok|done]. }
  split; [|intros i Hc Hd; destruct (xp_returned _ _ _ (Hok i) Hc Hd) as [Hcl ?]; split_and!; [done|by apply (xp_closed _ _ _ (Hok i))|done]].
  assert (Hend : forall k i, (export_work (run i) < k)%nat -> exists n, forall x, ~ export_step (run n) x).
  { induction k as [|k IH]; intros i Hi; [lia|]. destruct (Hrun i) as [Hs|[_ Hst]]; [|by exists i].
    apply (IH (S i)). apply export_step_work in Hs. lia. }
  destruct (Hend (S (export_work (run 0%nat))) 0%nat) as [n Hn]; [lia|]. exists n. split; [done|].
  by apply export_stuck.
Qed.


(** A run in which the goroutine goes first. *)
Definition export_eager (x : Exporter) : Exporter :=
  match export_send x, export_done x, export_close x, export_call x with
  | Some x', _, _, _ | None, Some x', _, _ | None, None, Some x', _ | None, None, None, Some x' => x'
  | None, None, None, None => x
  end.
Definition export_run (x : Exporter) (i : nat) : Exporter := Nat.iter i export_eager x.

Lemma export_eager_step y : export_step y (export_eager y) \/ (export_eager y = y /\ forall x', ~ export_step y x').
Proof.
  unfold export_eager, export_step.
  destruct (export_send y) as [z|]; [by left; left|]. destruct (export_done y) as [z|]; [by left; right; left|].
  destruct (export_close y) as [z|]; [by left; right; right; left|]. destruct (export_call y) as [z|]; [by left; right; right; right|].
  right. split; [done|]. by intros x' [?|[?|[?|?]]].
Qed.

Lemma export_run_maximal x i :
  export_step (export_run x i) (export_run x (S i)) \/ (export_run x (S i) = export_run x i /\ forall x', ~ export_step (export_run x i) x').
Proof. exact (export_eager_step (export_run x i)). Qed.

Definition sample_exports : list ExportNode := map (fun k => {| en_Key := str k; en_Value := None; en_Version := 1; en_Height := 0 |}) ["a"; "b"]%string.

Lemma exporter_delivers_witness :
  exists n, ex_calls (export_run (newExporter false sample_exports [CallNext; CallClose; CallNext]) n) = [] /\
    ex_results (export_run (newExporter false sample_exports [CallNext; CallClose; CallNext]) n) = [head sample_exports; None].
Proof.
  destruct (exporter_delivers false sample_exports [CallNext; CallClose; CallNext]
    (export_run (newExporter false sample_exports [CallNext; CallClose; CallNext]))) as [(n & _ & Ec & _ & Er & _) _].
  - reflexivity.
  - intros i. apply export_run_maximal.
  - exists n. split; [exact Ec|]. exact Er.
Defined.
