(* ===== verification/Import.v ===== *)
(** * Importing a tree (memiavl/import.go)

    The importer turns a stream of exported nodes, in post-order, into a snapshot.
    Importing the export of a tree writes exactly the files the snapshot writer
    writes for the tree. *)

From Stdlib Require Import Strings.Byte ZArith Lia.
From stdpp Require Import base list numbers strings gmap sorting.
From S2P Require Import Prelude Binary Sha256 Node NodeInv NodeIface Iterator Sort.
From S2P Require Import Snapshot SnapshotInv SnapshotWriter Export.
Local Open Scope Z_scope.

(** A pending [MemNode]: its children are dropped once its hash is computed. *)
Record pending_node : Type := {
  pn_height : Z;
  pn_size : Z;
  pn_version : Z;
  pn_key : bytes;
  pn_value : option bytes;
  pn_hash : bytes
}.

(** The top of a stack is the head of the list. *)
Record importer : Type := {
  im_writer : snapshotWriter;
  leavesStack : list Z;
  nodeStack : list pending_node
}.

Definition newImporter (w : snapshotWriter) : importer :=
  {| im_writer := w; leavesStack := []; nodeStack := [] |}.

Definition importer_Add (i : importer) (n : ExportNode) : res importer :=
  if en_Version n <? 0 then Err "version must be non-negative" else
  let version := u64 (en_Version n) in
  if en_Height n =? 0 then
    let value := default [] (en_Value n) in
    let hash := Sha256.Sum256 (leaf_hash_bytes 0 1 version (en_Key n) value) in
    w ← writeLeaf Background (im_writer i) version (en_Key n) value hash;
    Ok {| im_writer := w;
          leavesStack := leafCounter w :: leavesStack i;
          nodeStack :=
            {| pn_height := 0; pn_size := 1; pn_version := version; pn_key := en_Key n;
               pn_value := en_Value n; pn_hash := hash |} :: nodeStack i |}
  else
    match leavesStack i, nodeStack i with
    | _ :: keyLeaf :: leavesRest, rightNode :: leftNode :: nodesRest =>
        let height := u8 (en_Height n) in
        let size := i64 (pn_size leftNode + pn_size rightNode) in
        let hash := Sha256.Sum256
          (branch_hash_bytes height size version (pn_hash leftNode) (pn_hash rightNode)) in
        let preTrees := u8 (zlen (nodeStack i) - 2) in
        let w := writeBranch (im_writer i) version (u32 size) height preTrees keyLeaf hash in
        Ok {| im_writer := w;
              leavesStack := leafCounter w :: leavesRest;
              nodeStack :=
                {| pn_height := height; pn_size := size; pn_version := version;
                   pn_key := en_Key n; pn_value := None; pn_hash := hash |} :: nodesRest |}
    | _, _ => Panic
    end.

(** The loop over the stream of nodes. *)
Fixpoint import_nodes (i : importer) (l : list ExportNode) : res importer :=
  match l with
  | [] => Ok i
  | n :: l => i ← importer_Add i n; import_nodes i l
  end.

Definition doImport (dir : Dir) (version : Z) (nodes : list ExportNode) : res Dir :=
  if version <? 0 then Err "version must be non-negative" else
  writeSnapshot dir (u64 version) (fun w =>
    i ← import_nodes (newImporter w) nodes;
    match leavesStack i with
    | [] => Ok (im_writer i, 0)
    | [_] => Ok (im_writer i, leafCounter (im_writer i))
    | _ => Err "invalid node structure"
    end).

(** ** Importing what was exported *)

Lemma import_nodes_app i l1 l2 :
  import_nodes i (l1 ++ l2) = i' ← import_nodes i l1; import_nodes i' l2.
Proof.
  revert i. induction l1 as [|n l1 IH]; intros i; simpl; [done|].
  destruct (importer_Add i n) as [i'| |]; simpl; auto.
Qed.

(** The entry of the node stack for a tree. *)
Definition pending_of (n : Node) : pending_node :=
  {| pn_height := Height n; pn_size := Size n; pn_version := Version n; pn_key := Key n;
     pn_value := Value n; pn_hash := HashNode n |}.

(** Versions that are [int64], as exported nodes have them, and heights that are
    [int8]: negative exported heights are read back as [uint8]. *)
Fixpoint exportable (n : Node) : Prop :=
  match n with
  | Leaf v _ _ => 0 <= v <= MaxInt64
  | Branch h _ v _ l r => 0 < h < 256 /\ 0 <= v <= MaxInt64 /\ exportable l /\ exportable r
  end.

Lemma export_version v : 0 <= v <= MaxInt64 -> i64 v = v /\ u64 v = v.
Proof. unfold MaxInt64. intros. rewrite i64_small, u64_small by lia. done. Qed.

Lemma u8_i8 h : u8 (i8 h) = u8 h.
Proof.
  unfold u8, i8. rewrite Zminus_mod_idemp_l. f_equal. lia.
Qed.

Lemma i8_nonzero h : 0 < h < 256 -> i8 h <> 0.
Proof.
  intros Hh E. pose proof (u8_i8 h) as E'. rewrite E, (u8_small h) in E' by lia.
  vm_compute in E'. lia.
Qed.

(** The number of pending trees is the difference of the counters. *)
Record importing (i : importer) (lc bc : Z) : Prop := {
  ig_leaf : leafCounter (im_writer i) = lc;
  ig_branch : branchCounter (im_writer i) = bc;
  ig_nodes : zlen (nodeStack i) = lc - bc
}.

Lemma import_leaf v k x i lc bc :
  let n := Leaf v k x in
  exportable n -> importing i lc bc -> 0 <= lc -> lc + 1 < 2 ^ 32 ->
  let i' := {| im_writer := write_tree n (im_writer i);
               leavesStack := (lc + 1) :: leavesStack i;
               nodeStack := pending_of n :: nodeStack i |} in
  importer_Add i (export_node n) = Ok i' /\ importing i' (lc + 1) bc.
Proof.
  intros n Hv [El Eb En] Hlc Hr. simpl in Hv.
  destruct (export_version v Hv) as [E1 E2].
  assert (Ew : exists w', writeLeaf Background (im_writer i) v k x (HashNode n) = Ok w' /\
    leafCounter w' = lc + 1 /\ branchCounter w' = bc).
  { unfold writeLeaf, Background. destruct (_ =? 0); eexists; (split; [reflexivity|]); simpl;
      rewrite El, u32_small by lia; auto. }
  destruct Ew as (w' & Ew & El' & Eb').
  assert (Et : write_tree n (im_writer i) = w') by (unfold n; simpl; fold n; by rewrite Ew).
  split.
  - unfold importer_Add, export_node. simpl. rewrite E1, E2.
    rewrite (proj2 (Z.ltb_ge v 0)) by lia.
    change (Sha256.Sum256 (leaf_hash_bytes 0 1 v k x)) with (HashNode n). rewrite Ew. simpl.
    rewrite El'. unfold n. simpl. fold n. rewrite Ew. done.
  - split; cbn [nodeStack im_writer]; rewrite ?Et, ?zlen_cons; [done|done|lia].
Qed.

Lemma import_branch h sz v k l r w w1 w2 ls ns lc bc :
  let n := Branch h sz v k l r in
  let i := {| im_writer := w2;
              leavesStack := (lc + leaves n) :: (lc + leaves l) :: ls;
              nodeStack := pending_of r :: pending_of l :: ns |} in
  let w' := writeBranch w2 v (u32 sz) h (u8 (leafCounter w - branchCounter w))
              (leafCounter w1) (HashNode n) in
  exportable n -> fields_ok n -> leaves n < 2 ^ 32 ->
  importing i (lc + leaves n) (bc + leaves n - 2) ->
  leafCounter w = lc -> branchCounter w = bc -> leafCounter w1 = lc + leaves l ->
  importer_Add i (export_node n) =
    Ok {| im_writer := w'; leavesStack := (lc + leaves n) :: ls; nodeStack := pending_of n :: ns |}.
Proof.
  intros n i w' (Hh & Hv & _) Fn Hl [El Eb En] E1 E2 E3.
  destruct (export_version v Hv) as [V1 V2].
  unfold importer_Add, export_node. cbn [en_Version en_Height en_Key en_Value Version Height].
  change (Version n) with v. change (Height n) with h. change (Value n) with (@None bytes).
  rewrite V1, V2, u8_i8, (u8_small h) by lia.
  rewrite (proj2 (Z.ltb_ge v 0)), (proj2 (Z.eqb_neq _ _) (i8_nonzero h Hh)) by lia.
  unfold i at 1 2. cbn [leavesStack nodeStack].
  assert (Es : i64 (Size l + Size r) = sz).
  { destruct Fn as (_ & -> & _ & Fl & Fr). rewrite !fields_Size by done.
    unfold n in Hl. rewrite leaves_Branch in Hl. pose proof (leaves_pos l). pose proof (leaves_pos r).
    apply i64_small. lia. }
  cbn [pending_of pn_size pn_hash]. rewrite Es, En.
  replace (lc + leaves n - (bc + leaves n - 2) - 2) with (leafCounter w - branchCounter w) by lia.
  rewrite <- E3. unfold i in *. cbn [im_writer] in *.
  change (Sha256.Sum256 (branch_hash_bytes h sz v (HashNode l) (HashNode r))) with (HashNode n).
  fold w'. cbn [im_writer leavesStack nodeStack]. do 2 f_equal.
  unfold w'. cbn [writeBranch leafCounter]. by rewrite El.
Qed.

Lemma import_tree n i lc bc :
  exportable n -> fields_ok n -> importing i lc bc -> 0 <= bc <= lc -> lc + leaves n < 2 ^ 32 ->
  let i' := {| im_writer := write_tree n (im_writer i);
               leavesStack := (lc + leaves n) :: leavesStack i;
               nodeStack := pending_of n :: nodeStack i |} in
  import_nodes i (map export_node (post_order n)) = Ok i' /\
  importing i' (lc + leaves n) (bc + leaves n - 1).
Proof.
  revert i lc bc. induction n as [lv lk lx|h sz v k l IHl r IHr]; intros i lc bc He Fn Hi Hc Hr i'.
  - change (leaves (Leaf lv lk lx)) with 1 in *.
    destruct (import_leaf lv lk lx i lc bc He Hi) as [E Hi']; [lia|lia|].
    cbn [post_order map import_nodes]. rewrite E. split; [done|].
    replace (bc + 1 - 1) with bc by lia. done.
  - pose proof He as (_ & _ & Hel & Her). pose proof Fn as (_ & _ & _ & Fl & Fr).
    pose proof (leaves_pos l). pose proof (leaves_pos r). rewrite leaves_Branch in Hr.
    destruct (IHl i lc bc Hel Fl Hi) as [E1 I1]; [lia|lia|].
    edestruct (IHr {| im_writer := write_tree l (im_writer i);
      leavesStack := (lc + leaves l) :: leavesStack i; nodeStack := pending_of l :: nodeStack i |}
      (lc + leaves l) (bc + leaves l - 1) Her Fr I1) as [E2 I2]; [lia|lia|].
    simpl post_order. rewrite !map_app, import_nodes_app, E1. cbn [mbind res_bind].
    rewrite import_nodes_app, E2. cbn [mbind res_bind map import_nodes im_writer leavesStack nodeStack].
    cbn [im_writer leavesStack nodeStack] in I2.
    replace (lc + leaves l + leaves r) with (lc + leaves (Branch h sz v k l r)) in *
      by (rewrite leaves_Branch; lia).
    replace (bc + leaves l - 1 + leaves r - 1) with (bc + leaves (Branch h sz v k l r) - 2) in *
      by (rewrite leaves_Branch; lia).
    rewrite (import_branch h sz v k l r (im_writer i) (write_tree l (im_writer i)) _ _ _ lc bc)
      by (first [exact I2 | done | apply (ig_leaf _ _ _ Hi) | apply (ig_branch _ _ _ Hi)
                 | apply (ig_leaf _ _ _ I1) | rewrite leaves_Branch; lia]).
    split; [done|]. destruct I2 as [A B C]. destruct Hi as [_ _ D].
    unfold i'. split; cbn [im_writer nodeStack write_tree writeBranch leafCounter branchCounter] in *.
    + done.
    + rewrite B, u32_small; rewrite ?leaves_Branch; lia.
    + rewrite !zlen_cons in *. lia.
Qed.

(** Importing the export of a tree is writing its snapshot. *)
Lemma doImport_writes dir version n fuel :
  0 <= version <= MaxInt64 -> exportable n -> fields_ok n -> leaves n < 2 ^ 32 ->
  height n < Z.of_nat fuel ->
  doImport dir version (map export_node (post_order n)) =
  WriteSnapshotWithContext fuel Background dir version (Some n).
Proof.
  intros Hv He Fn Hl Hf. unfold doImport, WriteSnapshotWithContext, writeSnapshot.
  rewrite (proj2 (Z.ltb_ge version 0)) by lia. rewrite (proj2 (export_version version Hv)).
  destruct (import_tree n (newImporter newSnapshotWriter) 0 0 He Fn) as [E I]; [by split|lia|lia|].
  rewrite E, (writeRecursive_tree (denotes := eq) Background n n) by done. done.
Qed.

(** ** Properties *)

(** importing the stream of nodes a tree exports writes the same files, byte for
    byte, as writing the snapshot of the tree. *)
Theorem import_of_export dir version n fuel :
  0 <= version <= MaxInt64 -> exportable n -> fields_ok n -> leaves n < 2 ^ 32 ->
  height n < Z.of_nat fuel ->
  doImport dir version (map export_node (post_order n)) =
  WriteSnapshotWithContext fuel Background dir version (Some n).
Proof. apply doImport_writes. Qed.

Lemma import_of_export_witness :
  doImport ∅ 5 (map export_node (post_order sample_tree)) =
  WriteSnapshotWithContext 3 Background ∅ 5 (Some sample_tree).
Proof.
  apply (import_of_export ∅ 5 sample_tree 3);
    [unfold MaxInt64; lia|vm_compute; repeat split; discriminate|apply sample_tree_wf|
     vm_compute; reflexivity|vm_compute; reflexivity].
Defined.

(** The number of trees a stream of nodes leaves pending. *)
Fixpoint pending_count (k : Z) (l : list ExportNode) : Z :=
  match l with
  | [] => k
  | n :: l => pending_count (if en_Height n =? 0 then k + 1 else k - 1) l
  end.

Lemma importer_Add_pending i n i' :
  importer_Add i n = Ok i' -> zlen (nodeStack i) = zlen (leavesStack i) ->
  zlen (nodeStack i') = zlen (leavesStack i') /\
  zlen (leavesStack i') = zlen (leavesStack i) + (if en_Height n =? 0 then 1 else -1).
Proof.
  unfold importer_Add. destruct (en_Version n <? 0); [done|]. destruct (en_Height n =? 0).
  - intros (w & _ & [= <-])%res_bind_ok. simpl. rewrite !zlen_cons. lia.
  - destruct (leavesStack i) as [|a [|b ls]], (nodeStack i) as [|c [|d ns]]; try done.
    intros [= <-]. simpl. rewrite !zlen_cons. lia.
Qed.

Lemma import_nodes_pending i l i' :
  import_nodes i l = Ok i' -> zlen (nodeStack i) = zlen (leavesStack i) ->
  zlen (leavesStack i') = pending_count (zlen (leavesStack i)) l.
Proof.
  revert i. induction l as [|n l IH]; intros i; simpl; [by intros [= <-]|].
  intros (i1 & E & Hr)%res_bind_ok Hz. destruct (importer_Add_pending i n i1 E Hz) as [Hz1 Hl1].
  rewrite (IH i1 Hr Hz1), Hl1. f_equal. destruct (en_Height n =? 0); lia.
Qed.


