(* ===== verification/Cache.v ===== *)
(** * The node cache (github.com/cosmos/iavl/cache)

    The cache is a third-party package: a class with the operations the tree uses and
    the laws that its documentation states, all of which allow it to forget entries.
    A bounded least-recently-used list is an instance. *)

From Stdlib Require Import Strings.Byte ZArith Lia.
From stdpp Require Import base list numbers strings gmap.
From S2P Require Import Prelude.
Local Open Scope Z_scope.

Class CacheOps (C : Type) := {
  cache_New : Z -> C;
  cache_Add : C -> bytes -> bytes -> C;
  cache_Get : C -> bytes -> option bytes * C;
  cache_Remove : C -> bytes -> C
}.

(** What the cache answers for a key. *)
Definition cached `{CacheOps C} (c : C) (k : bytes) : option bytes := (cache_Get c k).1.

(** A new cache is empty; an answer is the value last added for the key and not
    removed since; looking a key up adds nothing. *)
Class CacheLaws (C : Type) `{CacheOps C} := {
  cached_New size k : cached (cache_New size) k = None;
  cached_Add c k v k' v' :
    cached (cache_Add c k v) k' = Some v' ->
    (k' = k /\ v' = v) \/ (k' <> k /\ cached c k' = Some v');
  cached_Remove c k k' v' :
    cached (cache_Remove c k) k' = Some v' -> k' <> k /\ cached c k' = Some v';
  cached_Get c k k' v' : cached (cache_Get c k).2 k' = Some v' -> cached c k' = Some v'
}.

(** ** A least-recently-used list *)

Record lru : Type := { lru_max : Z; lru_entries : list (bytes * bytes) }.

#[export] Instance lru_ops : CacheOps lru := {|
  cache_New size := {| lru_max := size; lru_entries := [] |};
  cache_Add c k v :=
    {| lru_max := lru_max c;
       lru_entries := take (Z.to_nat (lru_max c)) ((k, v) :: kv_delete k (lru_entries c)) |};
  cache_Get c k :=
    match kv_lookup k (lru_entries c) with
    | Some v =>
        (Some v, {| lru_max := lru_max c; lru_entries := (k, v) :: kv_delete k (lru_entries c) |})
    | None => (None, c)
    end;
  cache_Remove c k :=
    {| lru_max := lru_max c; lru_entries := List.filter (fun p => bool_decide (p.1 <> k)) (lru_entries c) |}
|}.

Lemma lru_cached c k : cached c k = kv_lookup k (lru_entries c).
Proof. unfold cached. simpl. by destruct (kv_lookup k (lru_entries c)). Qed.

Lemma kv_lookup_take {V} m k (l : list (bytes * V)) v : kv_lookup k (take m l) = Some v -> kv_lookup k l = Some v.
Proof.
  revert m. induction l as [|[k0 v0] l IH]; intros [|m]; simpl; try done.
  case_decide; [done|]. apply IH.
Qed.

Lemma kv_lookup_delete_other {V} k k' (l : list (bytes * V)) :
  k' <> k -> kv_lookup k' (kv_delete k l) = kv_lookup k' l.
Proof.
  intros Hne. induction l as [|[k0 v0] l IH]; simpl; [done|].
  destruct (decide (k = k0)) as [->|]; simpl; [by rewrite decide_False|]. by rewrite IH.
Qed.

#[export] Instance lru_laws : CacheLaws lru.
Proof.
  split.
  - intros. done.
  - intros c k v k' v'. rewrite !lru_cached. intros H%kv_lookup_take. simpl in H.
    case_decide; [left; naive_solver|]. right. by rewrite kv_lookup_delete_other in H.
  - intros c k k' v'. rewrite !lru_cached. simpl.
    induction (lru_entries c) as [|[k0 v0] l IH]; simpl; [done|].
    destruct (decide (k0 = k)) as [->|Hne].
    + rewrite bool_decide_eq_false_2 by auto. intros H. destruct (IH H) as [Hk Hl].
      by rewrite decide_False.
    + rewrite bool_decide_eq_true_2 by done. simpl. case_decide; [|done]. intros [= ->]. by subst.
  - intros c k k' v'. rewrite !lru_cached. simpl.
    destruct (kv_lookup k (lru_entries c)) as [v|] eqn:E; simpl; [|done].
    case_decide; [naive_solver|]. by rewrite kv_lookup_delete_other.
Qed.
