(* ===== verification/Tree.v ===== *)
(** * The tree (memiavl/tree.go)

    A [Tree] is a versioned root with an optional snapshot and an optional cache.
    The root is the tree its nodes denote.  The theorems relate every operation to the
    ordered map the tree stands for: updates and change sets, lookup with and
    without the cache, lookup by index, iteration, versions and root hash. *)

From Stdlib Require Import Strings.Byte ZArith Lia.
From stdpp Require Import base list numbers strings gmap sorting.
From S2P Require Import Prelude Proto Binary Sha256 Node NodeInv NodeIface Iterator Sort.
From S2P Require Import Snapshot SnapshotInv SnapshotWriter Export Import Cache.
Local Open Scope Z_scope.


(** The tree behind a node, read through the interface; [fuel] bounds the depth. *)
Fixpoint reify `{NodeOps NT} (fuel : nat) (x : NT) : res Node :=
  match fuel with
  | O => out_of_fuel
  | S fuel =>
      isLeaf ← node_IsLeaf x;
      version ← node_Version x;
      key ← node_Key x;
      if isLeaf : bool then
        value ← node_Value x;
        Ok (Leaf version key (default [] value))
      else
        height ← node_Height x;
        size ← node_Size x;
        left ← node_Left x ≫= reify fuel;
        right ← node_Right x ≫= reify fuel;
        Ok (Branch height size version key left right)
  end.

(** The heights of a snapshot are [uint8]. *)
Definition max_depth : nat := 256.

(** The root of a snapshot, nil when the snapshot is empty. *)
Definition load_root (depth : nat) (s : Snapshot) : res (option Node) :=
  if negb (IsEmpty s) then
    p ← RootNode s;
    n ← @reify _ (persisted_ops s) depth p;
    Ok (Some n)
  else Ok None.

Section tree.
  Context `{CacheOps C}.

Record Tree : Type := {
  version : Z;
  root : option Node;
  snapshot : option Snapshot;
  cache : option C;
  zeroCopy : bool
}.

Definition NewCache (cacheSize : Z) : option C :=
  if cacheSize =? 0 then None else Some (cache_New cacheSize).

Definition NewEmptyTree (version cacheSize : Z) : Tree :=
  {| version := version; root := None; snapshot := None; cache := NewCache cacheSize; zeroCopy := true |}.

Definition New (cacheSize : Z) : Tree := NewEmptyTree 0 cacheSize.

Definition NewWithInitialVersion (initialVersion cacheSize : Z) : Tree :=
  if initialVersion <=? 1 then New cacheSize else NewEmptyTree (initialVersion - 1) cacheSize.

Definition NewFromSnapshot (s : Snapshot) (zeroCopy : bool) (cacheSize : Z) : res Tree :=
  root ← load_root max_depth s;
  Ok {| version := snap_version s; root := root; snapshot := Some s;
        cache := NewCache cacheSize; zeroCopy := zeroCopy |}.

Definition SetZeroCopy (t : Tree) (zc : bool) : Tree :=
  {| version := version t; root := root t; snapshot := snapshot t; cache := cache t; zeroCopy := zc |}.

Definition IsEmpty (t : Tree) : bool := match root t with None => true | Some _ => false end.

Definition with_root (t : Tree) (r : option Node) (c : option C) : Tree :=
  {| version := version t; root := r; snapshot := snapshot t; cache := c; zeroCopy := zeroCopy t |}.
Definition with_version (t : Tree) (v : Z) : Tree :=
  {| version := v; root := root t; snapshot := snapshot t; cache := cache t; zeroCopy := zeroCopy t |}.

Definition setInitialVersion (t : Tree) (initialVersion : Z) : Tree :=
  if 0 <? version t then t
  else if initialVersion <? 1 then with_version t 0
  else with_version t (initialVersion - 1).

Definition SetInitialVersion (t : Tree) (initialVersion : Z) : res Tree :=
  if initialVersion <? 0 then Err "initial version must be non-negative"
  else Ok (setInitialVersion t (u64 initialVersion)).

(** [Copy]: the cache is not shared.  Which nodes the copy shares with the original is
    the subject of Heap.v. *)
Definition Copy (t : Tree) (cacheSize : Z) : Tree :=
  {| version := version t; root := root t; snapshot := snapshot t;
     cache := NewCache cacheSize; zeroCopy := zeroCopy t |}.

Definition set (t : Tree) (key : bytes) (value : option bytes) : Tree :=
  let value := default [] value in
  let '(newRoot, _) := setRoot (root t) key value (u64 (version t + 1)) in
  with_root t (Some newRoot)
    (match cache t with None => None | Some c => Some (cache_Add c key value) end).

Definition remove (t : Tree) (key : bytes) : Tree :=
  let '(_, newRoot, _) := removeRoot (root t) key (u64 (version t + 1)) in
  with_root t newRoot
    (match cache t with None => None | Some c => Some (cache_Remove c key) end).

Definition apply_pair (t : Tree) (pair : KVPair) : Tree :=
  if kv_Delete pair then remove t (kv_Key pair) else set t (kv_Key pair) (kv_Value pair).

Definition ApplyChangeSet (t : Tree) (changeSet : ChangeSet) : Tree :=
  foldl apply_pair t (Pairs changeSet).

Definition RootHash (t : Tree) : bytes :=
  match root t with None => emptyHash | Some n => HashNode n end.

Definition SaveVersion (t : Tree) (updateHash : bool) : res (option bytes * Z * Tree) :=
  if MaxInt64 <? u64 (version t + 1) then Err "version overflows int64"
  else
    let hash := if updateHash then Some (RootHash t) else None in
    let t := with_version t (u64 (version t + 1)) in
    Ok (hash, i64 (version t), t).

Definition Version (t : Tree) : res Z :=
  if MaxInt64 <? version t then Panic else Ok (i64 (version t)).

Definition GetWithIndex (t : Tree) (key : bytes) : Z * option bytes :=
  match root t with
  | None => (0, None)
  | Some n => let '(value, index) := Get n key in (index, value)
  end.

Definition GetByIndex (t : Tree) (index : Z) : option (bytes * bytes) :=
  if MaxUint32 <? index then None
  else match root t with
       | None => None
       | Some n => Node.GetByIndex n (u32 index)
       end.

Definition tree_Get (t : Tree) (key : bytes) : option bytes * Tree :=
  let '(hit, cache1) :=
    match cache t with
    | None => (None, None)
    | Some c => let '(node, c') := cache_Get c key in (node, Some c')
    end in
  match hit with
  | Some value => (Some value, with_root t (root t) cache1)
  | None =>
      let '(_, value) := GetWithIndex t key in
      match value with
      | None => (None, with_root t (root t) cache1)
      | Some v =>
          (Some v, with_root t (root t)
             (match cache1 with None => None | Some c => Some (cache_Add c key v) end))
      end
  end.

Definition Has (t : Tree) (key : bytes) : bool * Tree :=
  let '(value, t) := tree_Get t key in
  (match value with None => false | Some _ => true end, t).

Definition tree_Iterator (fuel : nat) (t : Tree) (start end_ : option bytes) (ascending : bool)
    : res (Iterator Node) :=
  NewIterator fuel start end_ ascending (root t).

(** [Export]: the nodes in the order they are passed to the callback, which in the
    exporter never stops before the export is closed. *)
Definition Export (fuel : nat) (t : Tree) : res (list ExportNode) :=
  let collect {N} (f : N -> ExportNode) (l : list ExportNode) (x : N) := (l ++ [f x], false) in
  match snapshot t with
  | Some s =>
      if version t =? snap_version s then export (collect (fun e => e)) s []
      else ScanPostOrder (collect export_node) fuel (root t) []
  | None => ScanPostOrder (collect export_node) fuel (root t) []
  end.

Definition WriteSnapshot (fuel : nat) (ctx : Context_) (dir : Dir) (t : Tree) : res Dir :=
  WriteSnapshotWithContext fuel ctx dir (version t) (root t).

Definition Close (t : Tree) : Tree :=
  {| version := version t; root := None; snapshot := None; cache := cache t; zeroCopy := zeroCopy t |}.

End tree.
Arguments Tree : clear implicits.

(** ** The map a tree stands for *)

(** The effect of a pair of a change set on the ordered contents. *)
Definition kv_apply (l : list (bytes * bytes)) (p : KVPair) : list (bytes * bytes) :=
  if kv_Delete p then kv_delete (kv_Key p) l
  else kv_insert (kv_Key p) (default [] (kv_Value p)) l.

(** The same on a finite map. *)
Definition map_apply (m : gmap bytes bytes) (p : KVPair) : gmap bytes bytes :=
  if kv_Delete p then delete (kv_Key p) m
  else <[kv_Key p := default [] (kv_Value p)]> m.

Lemma wf_root_sorted r : wf_root r -> kv_sorted (contents r).
Proof. destruct r as [n|]; [apply wf_sorted|]. intros _. apply SSorted_nil. Qed.

Lemma kv_apply_zlen l p : kv_sorted l -> zlen (kv_apply l p) <= zlen l + 1.
Proof.
  intros Hs. unfold kv_apply. destruct (kv_Delete p).
  - rewrite kv_delete_length. destruct (kv_lookup _ _); lia.
  - rewrite kv_insert_length by done. destruct (kv_lookup _ _); lia.
Qed.

Lemma kv_apply_map l p : kv_sorted l -> kv_map (kv_apply l p) = map_apply (kv_map l) p.
Proof.
  intros Hs. unfold kv_apply, map_apply. destruct (kv_Delete p).
  - by apply kv_map_delete, kv_sorted_NoDup.
  - apply kv_map_insert.
Qed.

Lemma setRoot_contents r k v ver n u :
  wf_root r -> zlen (contents r) + 1 < max_leaves -> setRoot r k v ver = (n, u) ->
  wf n /\ elements n = kv_insert k v (contents r).
Proof.
  destruct r as [m|]; simpl; intros Hw Hs E.
  - pose proof (setRecursive_result m k v ver n u Hw Hs E) as R.
    split; [by eapply set_result_wf|]. by destruct R.
  - injection E as <- <-. split; [apply wf_Leaf|done].
Qed.

Lemma removeRoot_contents r k ver value r' nk :
  wf_root r -> zlen (contents r) < max_leaves -> removeRoot r k ver = (value, r', nk) ->
  value = kv_lookup k (contents r) /\ wf_root r' /\ contents r' = kv_delete k (contents r).
Proof.
  destruct r as [m|]; simpl; intros Hw Hs E.
  - by apply (removeRecursive_root m k ver value r' nk).
  - by injection E as <- <- <-.
Qed.

Section tree_spec.
  Context `{CacheLaws C}.
  Implicit Type t : Tree C.

(** The invariant: the root is well-formed and the cache only has current values. *)
Record tree_ok t : Prop := {
  to_wf : wf_root (root t);
  to_cache c k v : cache t = Some c -> cached c k = Some v -> kv_lookup k (contents (root t)) = Some v
}.

Definition tree_size t : Z := zlen (contents (root t)).

Lemma NewCache_sound size (c : C) k v : NewCache size = Some c -> cached c k <> Some v.
Proof.
  unfold NewCache. destruct (size =? 0); [done|]. intros [= <-]. by rewrite cached_New.
Qed.

Lemma NewEmptyTree_ok v size : tree_ok (NewEmptyTree v size).
Proof. split; [done|]. intros c k w Hc Hk. by destruct (NewCache_sound size c k w Hc). Qed.

Lemma set_tree_ok t k v :
  tree_ok t -> tree_size t + 1 < max_leaves ->
  tree_ok (set t k v) /\ contents (root (set t k v)) = kv_insert k (default [] v) (contents (root t)).
Proof.
  intros [Hw Hc] Hs. unfold set.
  destruct (setRoot _ _ _ _) as [n u] eqn:E.
  destruct (setRoot_contents _ _ _ _ _ _ Hw Hs E) as [Hn En]. split; [|done].
  split; [done|]. simpl. intros c' k' v'. rewrite En, kv_lookup_insert.
  destruct (cache t) as [c|] eqn:Ec; [|done]. intros [= <-] [[-> ->]|[Hne Hk]]%cached_Add.
  - by rewrite decide_True.
  - rewrite decide_False by done. by apply (Hc c).
Qed.

Lemma remove_tree_ok t k :
  tree_ok t -> tree_size t < max_leaves ->
  tree_ok (remove t k) /\ contents (root (remove t k)) = kv_delete k (contents (root t)).
Proof.
  intros [Hw Hc] Hs. unfold remove.
  destruct (removeRoot _ _ _) as [[value r'] nk] eqn:E.
  destruct (removeRoot_contents _ _ _ _ _ _ Hw Hs E) as (_ & Hr & Er). split; [|done].
  split; [done|]. simpl. intros c' k' v'. rewrite Er.
  rewrite kv_lookup_delete by (by apply kv_sorted_NoDup, wf_root_sorted).
  destruct (cache t) as [c|] eqn:Ec; [|done]. intros [= <-] [Hne Hk]%cached_Remove.
  rewrite decide_False by done. by apply (Hc c).
Qed.

Lemma apply_pair_ok t p :
  tree_ok t -> tree_size t + 1 < max_leaves ->
  tree_ok (apply_pair t p) /\ contents (root (apply_pair t p)) = kv_apply (contents (root t)) p.
Proof.
  intros Ht Hs. unfold apply_pair, kv_apply. destruct (kv_Delete p).
  - apply remove_tree_ok; [done|lia].
  - by apply set_tree_ok.
Qed.

Lemma ApplyChangeSet_contents t cs :
  tree_ok t -> tree_size t + zlen (Pairs cs) < max_leaves ->
  tree_ok (ApplyChangeSet t cs) /\
  contents (root (ApplyChangeSet t cs)) = foldl kv_apply (contents (root t)) (Pairs cs).
Proof.
  unfold ApplyChangeSet. revert t. induction (Pairs cs) as [|p ps IH]; intros t Ht Hs; [done|].
  rewrite zlen_cons in Hs. pose proof (zlen_nonneg ps).
  destruct (apply_pair_ok t p Ht) as [Ht' E]; [lia|]. simpl. rewrite <- E. apply IH; [done|].
  unfold tree_size. rewrite E.
  pose proof (kv_apply_zlen (contents (root t)) p (wf_root_sorted _ (to_wf _ Ht))).
  unfold tree_size in Hs. lia.
Qed.

Lemma foldl_kv_apply_map l ps : kv_sorted l -> kv_map (foldl kv_apply l ps) = foldl map_apply (kv_map l) ps.
Proof.
  revert l. induction ps as [|p ps IH]; intros l Hs; [done|]. simpl.
  rewrite IH, kv_apply_map; [done..|]. unfold kv_apply.
  destruct (kv_Delete p); [by apply kv_delete_sorted|by apply kv_insert_sorted].
Qed.

Lemma foldl_kv_apply_zlen ps l : kv_sorted l -> zlen (foldl kv_apply l ps) <= zlen l + zlen ps.
Proof.
  revert l. induction ps as [|p ps IH]; intros l Hs; cbn [foldl]; [change (zlen []) with 0; lia|].
  rewrite zlen_cons. pose proof (kv_apply_zlen l p Hs).
  assert (Hs' : kv_sorted (kv_apply l p)).
  { unfold kv_apply. destruct (kv_Delete p); [by apply kv_delete_sorted|by apply kv_insert_sorted]. }
  specialize (IH _ Hs'). lia.
Qed.

(** ** Lookup *)

Lemma GetWithIndex_contents t k :
  tree_ok t -> tree_size t < 2 ^ 32 ->
  GetWithIndex t k = (kv_rank k (contents (root t)), kv_lookup k (contents (root t))).
Proof.
  intros [Hw _] Hs. unfold GetWithIndex, tree_size in *.
  destruct (root t) as [n|]; [|done]. simpl in *. by rewrite Get_elements.
Qed.

(** The cache is transparent: [Get] returns the value of the map and keeps the tree. *)
Lemma tree_Get_contents t k :
  tree_ok t -> tree_size t < 2 ^ 32 ->
  exists t', tree_Get t k = (kv_lookup k (contents (root t)), t') /\ tree_ok t' /\
    root t' = root t /\ version t' = version t /\ snapshot t' = snapshot t.
Proof.
  intros Ht Hs. pose proof Ht as [Hw Hc]. unfold tree_Get.
  rewrite GetWithIndex_contents by done.
  destruct (cache t) as [c|] eqn:Ec.
  - assert (Hc' : forall k' v', cached (cache_Get c k).2 k' = Some v' ->
      kv_lookup k' (contents (root t)) = Some v').
    { intros k' v' Hk%cached_Get. by apply (Hc c). }
    pose proof (fun v Hv => Hc c k v eq_refl Hv) as Hhit. unfold cached in Hhit.
    destruct (cache_Get c k) as [[v|] c'] eqn:Eg; simpl in *.
    + rewrite (Hhit v) by done. eexists. repeat (split; [reflexivity|]).
      split; [|done]. split; [done|]. simpl. intros c0 k0 v0 [= <-]. apply Hc'.
    + destruct (kv_lookup k (contents (root t))) as [v|] eqn:El; (eexists; split; [reflexivity|]);
        (split; [|done]); split; try done; simpl; intros c0 k0 v0 [= <-]; [|apply Hc'].
      intros [[-> ->]|[_ Hk]]%cached_Add; [done|]. by apply Hc'.
  - destruct (kv_lookup k (contents (root t))) as [v|] eqn:El; (eexists; split; [reflexivity|]);
      (split; [|done]); by split.
Qed.

Lemma GetByIndex_contents t i :
  tree_ok t -> tree_size t < 2 ^ 32 -> 0 <= i ->
  GetByIndex t i = contents (root t) !! Z.to_nat i.
Proof.
  intros [Hw _] Hs Hi. unfold GetByIndex, tree_size, MaxUint32 in *.
  destruct (Z.ltb_spec (2 ^ 32 - 1) i) as [Hlt|Hge].
  - symmetry. apply lookup_ge_None_2. unfold zlen in *. lia.
  - destruct (root t) as [n|]; [|done]. rewrite u32_small by lia.
    apply GetByIndex_elements; [apply Hw|done|lia].
Qed.
End tree_spec.

(** ** Snapshots of a tree *)

Lemma reify_denotes `{NodeLaws NT denotes} n x fuel :
  denotes x n -> height n < Z.of_nat fuel -> reify fuel x = Ok n.
Proof.
  revert x fuel. induction n as [v k w|h s v k l IHl r IHr]; intros x fuel Hd Hf.
  - destruct fuel; [simpl in Hf; lia|]. cbn [reify]. node_read Hd. simpl. node_read Hd. done.
  - pose proof (height_nonneg l). pose proof (height_nonneg r). simpl in Hf.
    destruct fuel as [|fuel]; [lia|]. cbn [reify]. node_read Hd. simpl. node_read Hd. simpl.
    destruct (denotes_Left _ _ _ _ _ _ _ Hd) as (yl & -> & Dl).
    destruct (denotes_Right _ _ _ _ _ _ _ Hd) as (yr & -> & Dr). simpl.
    rewrite (IHl yl fuel Dl) by lia. simpl. rewrite (IHr yr fuel Dr) by lia. done.
Qed.

(** A root the snapshot format can hold. *)
Definition snapshottable_root (r : option Node) : Prop :=
  match r with None => True | Some n => snapshottable n end.

(** The snapshot holds the root: what [NewFromSnapshot] and [Export] rely on. *)
Definition snapshot_of (s : Snapshot) (r : option Node) : Prop :=
  match r with
  | None => s = NewEmptySnapshot (snap_version s)
  | Some n =>
      exists p, Snapshot.root s = Some p /\ persists s p n 0 0 /\
        zlen (leaves_ s) = leaves n * SizeLeaf /\ zlen (nodes s) = (leaves n - 1) * SizeNode
  end.

Section tree_snapshot.
  Context `{CacheLaws C}.
  Implicit Type t : Tree C.

Lemma load_root_of s r depth :
  snapshot_of s r -> snapshottable_root r -> (256 <= depth)%nat -> load_root depth s = Ok r.
Proof.
  intros Hs Hr Hd. unfold load_root, Snapshot.IsEmpty, RootNode. destruct r as [n|].
  - destruct Hs as (p & -> & Hp & _). cbn [negb of_option mbind res_bind].
    rewrite (@reify_denotes _ (persisted_ops s) (persisted s) _ n p); [done|by exists 0, 0|].
    destruct Hr. lia.
  - assert (Snapshot.root s = None) as -> by (by rewrite Hs). done.
Qed.

Lemma NewFromSnapshot_of s r zc size :
  snapshot_of s r -> snapshottable_root r ->
  NewFromSnapshot (C := C) s zc size =
    Ok {| version := snap_version s; root := r; snapshot := Some s;
          cache := NewCache size; zeroCopy := zc |}.
Proof.
  intros Hs Hr. unfold NewFromSnapshot.
  rewrite (load_root_of s r max_depth Hs Hr (le_n _)). reflexivity.
Qed.

Lemma WriteSnapshot_opens t dir fuel ctx :
  snapshottable_root (root t) -> 0 <= version t < 2 ^ 64 -> (forall i, ctx i = None) ->
  (256 <= fuel)%nat ->
  exists dir' s, WriteSnapshot fuel ctx dir t = Ok dir' /\ OpenSnapshot dir' = Ok s /\
    snap_version s = version t /\ snapshot_of s (root t).
Proof.
  intros Hr Hv Hc Hf. unfold WriteSnapshot. destruct (root t) as [n|] eqn:Er.
  - destruct (write_open (denotes := eq) ctx fuel dir (version t) n n Hc eq_refl Hr Hv)
      as (dir' & s & p & E1 & E2 & E3 & E4 & E5 & E6 & E7); [destruct Hr; lia|].
    exists dir', s. split; [done|]. split; [done|]. split; [done|]. exists p. auto.
  - unfold WriteSnapshotWithContext, writeSnapshot. cbn [mbind res_bind].
    change (0 <? 0) with false. cbv iota zeta.
    eexists _, _. split; [reflexivity|]. split; [apply (open_empty dir (version t) Hv)|]. done.
Qed.

Lemma foldl_append {A B} (f : A -> B) (xs : list A) l :
  foldl (fun s y => ((fun l x => (l ++ [f x], false)) s y).1) l xs = l ++ map f xs.
Proof.
  revert l. induction xs as [|x xs IH]; intros l; simpl; [by rewrite app_nil_r|].
  rewrite IH, <- app_assoc. done.
Qed.

Lemma feed_collect l st :
  feed (fun (l : list ExportNode) x => (l ++ [x], false)) l st = (st ++ l, false).
Proof.
  revert st. induction l as [|e l IH]; intros st; simpl; [by rewrite app_nil_r|].
  rewrite IH, <- app_assoc. done.
Qed.

(** The exported nodes of a root, in post-order. *)
Definition export_list (r : option Node) : list ExportNode :=
  match r with None => [] | Some n => map export_node (post_order n) end.

(** Both ways of exporting give the nodes in post-order. *)
Lemma Export_post_order t fuel :
  (forall s, snapshot t = Some s -> version t = snap_version s -> snapshot_of s (root t)) ->
  (forall n, root t = Some n -> (2 * node_count n < fuel)%nat) ->
  Export fuel t = Ok (export_list (root t)).
Proof.
  intros Hsnap Hf. unfold Export.
  assert (Hscan : ScanPostOrder (fun (l : list ExportNode) x => (l ++ [export_node x], false))
    fuel (root t) [] = Ok (export_list (root t))).
  { destruct (root t) as [n|]; [|done].
    destruct (ScanPostOrder_visits (denotes := eq) n n eq_refl) as (xs & Hxs & Hs).
    rewrite Hs by (by apply Hf). assert (xs = post_order n) as ->.
    { clear -Hxs. induction Hxs; congruence. }
    by rewrite (foldl_append export_node). }
  destruct (snapshot t) as [s|]; [|done]. destruct (Z.eqb_spec (version t) (snap_version s)) as [E|]; [|done].
  specialize (Hsnap s eq_refl E). destruct (root t) as [n|]; simpl in *.
  - destruct Hsnap as (p & _ & Hp & El & En).
    rewrite (export_post_order _ s p n) by done. by rewrite feed_collect.
  - by rewrite Hsnap.
Qed.
End tree_snapshot.

(** ** Properties *)

Section tree_properties.
  Context `{CacheLaws C}.
  Implicit Type t : Tree C.

(** applying a change set to a tree gives a tree that satisfies the invariant and
    stands for the finite map obtained by applying the insertions and deletions in order,
    a nil value being stored as the empty value. *)
Theorem ApplyChangeSet_refines_map t cs :
  tree_ok t -> tree_size t + zlen (Pairs cs) < max_leaves ->
  tree_ok (ApplyChangeSet t cs) /\
  kv_map (contents (root (ApplyChangeSet t cs))) =
  foldl map_apply (kv_map (contents (root t))) (Pairs cs).
Proof.
  intros Ht Hs. destruct (ApplyChangeSet_contents t cs Ht Hs) as [Ht' E]. split; [done|].
  rewrite E. apply foldl_kv_apply_map, wf_root_sorted, (to_wf _ Ht).
Qed.

(** the cache is transparent: [Get] returns the value the tree has for the key,
    whatever the cache holds or forgot, and the tree is the same afterwards. *)
Theorem Get_transparent t k :
  tree_ok t -> tree_size t < 2 ^ 32 ->
  exists t', tree_Get t k = (kv_map (contents (root t)) !! k, t') /\ tree_ok t' /\
    root t' = root t /\ version t' = version t /\ snapshot t' = snapshot t.
Proof. intros Ht Hs. rewrite kv_map_lookup. by apply tree_Get_contents. Qed.

(** [GetByIndex] is the [i]-th pair in key order, nil past the end. *)
Theorem GetByIndex_nth t i :
  tree_ok t -> tree_size t < 2 ^ 32 -> 0 <= i -> GetByIndex t i = contents (root t) !! Z.to_nat i.
Proof. apply GetByIndex_contents. Qed.

(** a tree written to a snapshot and loaded again has the same root, and so the same
    contents and root hash, and the same version. *)
Theorem snapshot_reload t dir fuel ctx zc size :
  snapshottable_root (root t) -> 0 <= version t < 2 ^ 64 -> (forall i, ctx i = None) ->
  (256 <= fuel)%nat ->
  exists dir' s t',
    WriteSnapshot fuel ctx dir t = Ok dir' /\ OpenSnapshot dir' = Ok s /\
    NewFromSnapshot (C := C) s zc size = Ok t' /\
    root t' = root t /\ version t' = version t /\ RootHash t' = RootHash t.
Proof.
  intros Hr Hv Hc Hf. destruct (WriteSnapshot_opens t dir fuel ctx Hr Hv Hc Hf)
    as (dir' & s & E1 & E2 & E3 & E4).
  eexists dir', s, _. split; [done|]. split; [done|].
  split; [by apply (NewFromSnapshot_of s (root t) zc size)|]. done.
Qed.

(** [SaveVersion] fails exactly when the next version leaves [int64], and otherwise
    increments the version, keeps the root, and returns the root hash when asked. *)
Theorem SaveVersion_correct t updateHash :
  0 <= version t <= MaxInt64 ->
  SaveVersion t updateHash =
    if MaxInt64 <=? version t then Err "version overflows int64"
    else Ok (if updateHash then Some (RootHash t) else None, version t + 1,
             with_version t (version t + 1)).
Proof.
  intros Hv. unfold SaveVersion, MaxInt64 in *. rewrite u64_small by lia.
  destruct (Z.leb_spec (2 ^ 63 - 1) (version t)).
  - by rewrite (proj2 (Z.ltb_lt _ _)) by lia.
  - rewrite (proj2 (Z.ltb_ge _ _)) by lia. cbn [with_version version]. by rewrite i64_small by lia.
Qed.
End tree_properties.

(** The sample change set, and the tree it makes. *)
Definition sample_pair (k v : string) : KVPair :=
  {| kv_Delete := false; kv_Key := str k; kv_Value := Some (str v) |}.
Definition sample_changes : ChangeSet :=
  {| Pairs := [sample_pair "b" "1"; sample_pair "a" "2"; sample_pair "c" "3";
               {| kv_Delete := true; kv_Key := str "b"; kv_Value := None |};
               {| kv_Delete := false; kv_Key := str "d"; kv_Value := None |}] |}.
Definition sample_loaded : Tree lru := ApplyChangeSet (New 2) sample_changes.

Lemma sample_loaded_ok : tree_ok sample_loaded.
Proof.
  apply (ApplyChangeSet_contents (C := lru) (New 2) sample_changes); [apply NewEmptyTree_ok|vm_compute; reflexivity].
Qed.

Lemma ApplyChangeSet_refines_map_witness :
  tree_ok (ApplyChangeSet sample_loaded sample_changes) /\
  kv_map (contents (root (ApplyChangeSet sample_loaded sample_changes))) =
  foldl map_apply (kv_map (contents (root sample_loaded))) (Pairs sample_changes).
Proof.
  apply (ApplyChangeSet_refines_map sample_loaded sample_changes);
    [exact sample_loaded_ok|vm_compute; reflexivity].
Defined.

Lemma Get_transparent_witness :
  exists t', tree_Get sample_loaded (str "c") = (kv_map (contents (root sample_loaded)) !! str "c", t') /\
    tree_ok t' /\ root t' = root sample_loaded /\ version t' = version sample_loaded /\
    snapshot t' = snapshot sample_loaded.
Proof.
  apply (Get_transparent sample_loaded (str "c")); [exact sample_loaded_ok|vm_compute; reflexivity].
Defined.

Lemma GetByIndex_nth_witness :
  GetByIndex sample_loaded 1 = contents (root sample_loaded) !! Z.to_nat 1.
Proof.
  apply (GetByIndex_nth sample_loaded 1); [exact sample_loaded_ok|vm_compute; reflexivity|lia].
Defined.

Lemma snapshot_reload_witness :
  exists dir' s t',
    WriteSnapshot 256 Background ∅ sample_loaded = Ok dir' /\ OpenSnapshot dir' = Ok s /\
    NewFromSnapshot (C := lru) s false 0 = Ok t' /\
    root t' = root sample_loaded /\ version t' = version sample_loaded /\
    RootHash t' = RootHash sample_loaded.
Proof.
  apply (snapshot_reload sample_loaded ∅ 256 Background false 0); [|vm_compute; split; [discriminate|reflexivity]|done|lia].
  apply wf_snapshottable; [apply sample_loaded_ok|vm_compute; repeat split; discriminate|
    vm_compute; reflexivity|vm_compute; reflexivity].
Defined.

Lemma SaveVersion_correct_witness :
  SaveVersion sample_loaded true =
    Ok (Some (RootHash sample_loaded), 1, with_version sample_loaded 1).
Proof.
  apply (SaveVersion_correct sample_loaded true). vm_compute. split; discriminate.
Defined.

(** exporting a tree gives its nodes in post-order, whether the nodes are walked
    or, when the tree is at the version of its snapshot, read from the snapshot. *)
Theorem Export_correct `{CacheLaws C} (t : Tree C) fuel :
  (forall s, snapshot t = Some s -> version t = snap_version s -> snapshot_of s (root t)) ->
  (forall n, root t = Some n -> (2 * node_count n < fuel)%nat) ->
  Export fuel t = Ok (export_list (root t)).
Proof. apply Export_post_order. Qed.

Lemma Export_correct_witness :
  exists s t, NewFromSnapshot (C := lru) s false 0 = Ok t /\
  Export 100 t = Ok (export_list (root sample_loaded)).
Proof.
  assert (Hn : snapshottable_root (root sample_loaded)).
  { apply wf_snapshottable; [apply sample_loaded_ok|vm_compute; repeat split; discriminate|
      vm_compute; reflexivity|vm_compute; reflexivity]. }
  destruct (WriteSnapshot_opens sample_loaded ∅ 256 Background Hn) as (d & s & _ & _ & Ev & Hs);
    [vm_compute; split; [discriminate|reflexivity]|done|lia|].
  eexists s, _. split; [by apply (NewFromSnapshot_of s (root sample_loaded))|].
  apply (Export_correct (C := lru) {| version := snap_version s; root := root sample_loaded;
    snapshot := Some s; cache := NewCache 0; zeroCopy := false |} 100).
  - intros s' [= <-] _. exact Hs.
  - intros n [= <-]. vm_compute. lia.
Defined.
