(* ===== verification/Merkle.v ===== *)
(** * Merkle proofs (memiavl/proof.go)

    The path to a leaf, its conversion to an ICS-23 existence proof, and proofs that a key is
    absent.  ICS-23 itself (github.com/cosmos/ics23) is an interface; its law is the
    computation of a root from a proof that the standard prescribes. *)

From Stdlib Require Import Strings.Byte ZArith Lia.
From stdpp Require Import base list numbers strings.
From S2P Require Import Prelude Binary Sha256 Node NodeInv NodeIface Cache Tree.
Local Open Scope Z_scope.

(** ** ICS-23 *)

Inductive HashOp := HashOp_NO_HASH | HashOp_SHA256.
Inductive LengthOp := LengthOp_NO_PREFIX | LengthOp_VAR_PROTO.
Record LeafOp := { leaf_Hash : HashOp; leaf_PrehashValue : HashOp; leaf_Length : LengthOp; leaf_Prefix : bytes }.
Record InnerOp := { inner_Hash : HashOp; inner_Prefix : bytes; inner_Suffix : bytes }.
Record ExistenceProof := { ep_Key : bytes; ep_Value : option bytes; ep_Leaf : LeafOp; ep_Path : list InnerOp }.
Record NonExistenceProof := { np_Key : bytes; np_Left : option ExistenceProof; np_Right : option ExistenceProof }.
Inductive CommitmentProof := Exist (p : ExistenceProof) | Nonexist (p : NonExistenceProof).

(** The steps of a computation with SHA-256: the leaf with its key and the hash of its value,
    each with its length, and then the inner nodes up to the root. *)
Definition leaf_step (op : LeafOp) (key value : bytes) : bytes :=
  Sha256.Sum256 (leaf_Prefix op ++ EncodeBytes key ++ EncodeBytes (Sha256.Sum256 value)).
Definition inner_step (child : bytes) (op : InnerOp) : bytes :=
  Sha256.Sum256 (inner_Prefix op ++ child ++ inner_Suffix op).

Class Ics23Ops := {
  (** [ExistenceProof.Calculate]: the root that the proof is for. *)
  Calculate : ExistenceProof -> res bytes;
  ics23_VerifyMembership : bytes -> CommitmentProof -> bytes -> bytes -> bool;
  ics23_VerifyNonMembership : bytes -> CommitmentProof -> bytes -> bool
}.

Class Ics23Laws `{Ics23Ops} := {
  Calculate_steps : forall p value,
    leaf_Hash (ep_Leaf p) = HashOp_SHA256 -> leaf_PrehashValue (ep_Leaf p) = HashOp_SHA256 ->
    leaf_Length (ep_Leaf p) = LengthOp_VAR_PROTO -> Forall (fun op => inner_Hash op = HashOp_SHA256) (ep_Path p) ->
    ep_Value p = Some value -> ep_Key p <> [] -> value <> [] ->
    Calculate p = Ok (foldl inner_step (leaf_step (ep_Leaf p) (ep_Key p) value) (ep_Path p))
}.

(** ** Paths *)

(** [iavl.ProofInnerNode] *)
Record ProofInnerNode := { pin_Height : Z; pin_Size : Z; pin_Version : Z; pin_Left : bytes; pin_Right : bytes }.

Definition convertVarIntToBytes (orig : Z) : bytes := PutVarint orig.

Definition convertLeafOp (version : Z) : LeafOp :=
  let prefix := convertVarIntToBytes 0 in
  let prefix := prefix ++ convertVarIntToBytes 1 in
  let prefix := prefix ++ convertVarIntToBytes version in
  {| leaf_Hash := HashOp_SHA256; leaf_PrehashValue := HashOp_SHA256; leaf_Length := LengthOp_VAR_PROTO; leaf_Prefix := prefix |}.

Definition lengthByte : byte := x20.

Definition convertInnerOp (node : ProofInnerNode) : InnerOp :=
  let prefix := convertVarIntToBytes (pin_Height node) in
  let prefix := prefix ++ convertVarIntToBytes (pin_Size node) in
  let prefix := prefix ++ convertVarIntToBytes (pin_Version node) in
  if 0 <? zlen (pin_Left node) then
    {| inner_Hash := HashOp_SHA256; inner_Prefix := ((prefix ++ [lengthByte]) ++ pin_Left node) ++ [lengthByte]; inner_Suffix := [] |}
  else
    {| inner_Hash := HashOp_SHA256; inner_Prefix := prefix ++ [lengthByte]; inner_Suffix := [lengthByte] ++ pin_Right node |}.

(** From the last node of the path to the first. *)
Definition convertInnerOps (path : list ProofInnerNode) : list InnerOp := convertInnerOp <$> reverse path.

Definition ErrNoKey : error := "key does not exist".

(** The loop of [pathToLeaf]; each round goes down one level. *)
Fixpoint pathToLeaf `{NodeOps NT} (fuel : nat) (node : NT) (key : bytes) (path : list ProofInnerNode)
    : res (list ProofInnerNode * NT * option error) :=
  match fuel with
  | O => out_of_fuel
  | S fuel =>
      height ← node_Height node;
      nodeKey ← node_Key node;
      if height =? 0 then
        if bool_decide (nodeKey = key) then Ok (path, node, None) else Ok (path, node, Some ErrNoKey)
      else
        size ← node_Size node;
        version ← node_Version node;
        if ltb key nodeKey then
          right ← node_Right node;
          hash ← node_Hash right;
          left ← node_Left node;
          pathToLeaf fuel left key (path ++ [{| pin_Height := i8 height; pin_Size := size; pin_Version := i64 version;
                                               pin_Left := []; pin_Right := hash |}])
        else
          left ← node_Left node;
          hash ← node_Hash left;
          right ← node_Right node;
          pathToLeaf fuel right key (path ++ [{| pin_Height := i8 height; pin_Size := size; pin_Version := i64 version;
                                                pin_Left := hash; pin_Right := [] |}])
  end.

(** ** Proofs *)

Section proofs.
  Context `{CacheOps C, Ics23Ops}.
  Implicit Type t : Tree C.

(** A nil root cannot be dereferenced. *)
Definition createExistenceProof (fuel : nat) t (key : bytes) : res (ExistenceProof * option error) :=
  root ← of_option (root t);
  '(path, node, err) ← pathToLeaf fuel root key [];
  nodeKey ← node_Key node;
  value ← node_Value node;
  version ← node_Version node;
  Ok ({| ep_Key := nodeKey; ep_Value := value; ep_Leaf := convertLeafOp (i64 version); ep_Path := convertInnerOps path |}, err).

(** [if err != nil { return err }] *)
Definition check_err {A} (r : res (A * option error)) : res A :=
  '(a, err) ← r; match err with Some e => Err e | None => Ok a end.

Definition GetMembershipProof (fuel : nat) t (key : bytes) : res CommitmentProof :=
  exist ← check_err (createExistenceProof fuel t key); Ok (Exist exist).

Definition VerifyMembership t (proof : CommitmentProof) (key : bytes) : bool * Tree C :=
  let '(val, t) := tree_Get t key in
  (ics23_VerifyMembership (RootHash t) proof key (default [] val), t).

Definition ErrKeyInState : error := "cannot create NonExistanceProof when Key in State".

Definition GetNonMembershipProof (fuel : nat) t (key : bytes) : res CommitmentProof :=
  let '(idx, val) := GetWithIndex t key in
  match val with
  | Some _ => Err ErrKeyInState
  | None =>
      left ← (if 1 <=? idx then
                let leftkey := from_option fst [] (Tree.GetByIndex t (idx - 1)) in
                Some <$> check_err (createExistenceProof fuel t leftkey)
              else Ok None);
      right ← match Tree.GetByIndex t idx with
              | Some (rightkey, _) => Some <$> check_err (createExistenceProof fuel t rightkey)
              | None => Ok None
              end;
      Ok (Nonexist {| np_Key := key; np_Left := left; np_Right := right |})
  end.

Definition VerifyNonMembership t (proof : CommitmentProof) (key : bytes) : bool :=
  ics23_VerifyNonMembership (RootHash t) proof key.
End proofs.

(** ** Correctness of paths *)

Lemma EncodeBytes_hash bz : EncodeBytes (Sha256.Sum256 bz) = [lengthByte] ++ Sha256.Sum256 bz.
Proof. unfold EncodeBytes. by rewrite Sha256.zlen_Sum256. Qed.

Lemma left_step h s v k l r :
  0 <= h < 128 ->
  inner_step (HashNode l) (convertInnerOp {| pin_Height := i8 h; pin_Size := s; pin_Version := i64 v;
    pin_Left := []; pin_Right := HashNode r |}) = HashNode (Branch h s v k l r).
Proof.
  intros Hh. unfold inner_step, convertInnerOp, HashNode. cbn [pin_Height pin_Size pin_Version pin_Left pin_Right].
  change (0 <? zlen []) with false. cbn [inner_Prefix inner_Suffix writeHashBytes]. rewrite i8_small by lia.
  unfold branch_hash_bytes, convertVarIntToBytes. rewrite !EncodeBytes_hash, <- !app_assoc. done.
Qed.

Lemma right_step h s v k l r :
  0 <= h < 128 ->
  inner_step (HashNode r) (convertInnerOp {| pin_Height := i8 h; pin_Size := s; pin_Version := i64 v;
    pin_Left := HashNode l; pin_Right := [] |}) = HashNode (Branch h s v k l r).
Proof.
  intros Hh. unfold inner_step, convertInnerOp, HashNode. cbn [pin_Height pin_Size pin_Version pin_Left pin_Right].
  rewrite Sha256.zlen_Sum256. change (0 <? Sha256.Size) with true. cbn [inner_Prefix inner_Suffix writeHashBytes].
  rewrite i8_small by lia. unfold branch_hash_bytes, convertVarIntToBytes. rewrite !EncodeBytes_hash, app_nil_r, <- !app_assoc. done.
Qed.

Lemma leaf_step_hash v k x : leaf_step (convertLeafOp (i64 v)) k x = HashNode (Leaf v k x).
Proof. unfold leaf_step, HashNode, convertLeafOp. cbn [leaf_Prefix writeHashBytes]. unfold leaf_hash_bytes. by rewrite <- !app_assoc. Qed.

(** The hash at the top of a path from the hash at its end. *)
Definition up (path : list ProofInnerNode) (h : bytes) : bytes :=
  foldr (fun node h => inner_step h (convertInnerOp node)) h path.

Lemma up_cons node path h : up (node :: path) h = inner_step (up path h) (convertInnerOp node).
Proof. done. Qed.

Lemma foldl_convertInnerOps path h : foldl inner_step h (convertInnerOps path) = up path h.
Proof.
  unfold convertInnerOps, up. induction path as [|node path IH] in h |- *; [done|].
  rewrite reverse_cons, fmap_app, foldl_app, IH. done.
Qed.

(** The path ends at the leaf where the search for the key ends. *)
Record path_found (n : Node) (key : bytes) (path : list ProofInnerNode) (v : Z) (k x : bytes) : Prop := {
  pf_hash : up path (HashNode (Leaf v k x)) = HashNode n;
  pf_elem : (k, x) ∈ elements n;
  pf_key : wf n -> key ∈ (elements n).*1 -> k = key
}.

Lemma pathToLeaf_found `{NodeLaws NT denotes} fuel y n key path0 :
  denotes y n -> fields_ok n -> height n < 128 -> height n < Z.of_nat fuel ->
  exists path z v k x, pathToLeaf fuel y key path0 = Ok (path0 ++ path, z, if bool_decide (k = key) then None else Some ErrNoKey) /\
    denotes z (Leaf v k x) /\ path_found n key path v k x.
Proof.
  revert fuel y path0. induction n as [v k x|h s v k l IHl r IHr]; intros fuel y path0 Hd Hf Hh Hfu;
    (destruct fuel as [|fuel]; [exfalso; apply (Z.lt_irrefl 0); eapply Z.le_lt_trans; [apply height_nonneg|exact Hfu]|]);
    cbn [pathToLeaf].
  - node_read Hd. simpl. exists [], y, v, k, x. rewrite app_nil_r. split; [by case_bool_decide|]. split; [done|].
    split; [done|by left|]. intros _ Hin. by apply list_elem_of_singleton in Hin as ->.
  - node_read Hd. cbn [mbind res_bind Height Key Size Version]. destruct Hf as (-> & -> & Hk & Fl & Fr). cbn [height] in Hh, Hfu.
    pose proof (height_nonneg l). pose proof (height_nonneg r). rewrite (proj2 (Z.eqb_neq _ _)) by lia.
    destruct (denotes_Left _ _ _ _ _ _ _ Hd) as (yl & El & Dl). destruct (denotes_Right _ _ _ _ _ _ _ Hd) as (yr & Er & Dr).
    rewrite El, Er. destruct (ltb key k) eqn:Elt; cbn [mbind res_bind].
    + node_read Dr. cbn [mbind res_bind].
      edestruct (IHl fuel yl) as (path & z & lv & lk & lx & E & Dz & [Hp He Hkey]); [done|done|lia|lia|]. rewrite E, <- app_assoc.
      eexists (_ :: path), z, lv, lk, lx. split; [done|]. split; [done|]. split.
      * rewrite up_cons, Hp. apply left_step. lia.
      * cbn [elements]. apply elem_of_app. by left.
      * intros Hwf Hin. pose proof (wf_children _ _ _ _ _ _ Hwf) as [Hwl _]. apply Hkey; [done|].
        destruct (branch_split _ _ _ _ _ _ Hwf) as (_ & _ & Hge & _). cbn [elements] in Hin. rewrite fmap_app in Hin.
        apply elem_of_app in Hin as [?|Hin%Hge]; [done|]. destruct (ltb_spec key k); [exfalso; bytes_order|done].
    + node_read Dl. cbn [mbind res_bind].
      edestruct (IHr fuel yr) as (path & z & lv & lk & lx & E & Dz & [Hp He Hkey]); [done|done|lia|lia|]. rewrite E, <- app_assoc.
      eexists (_ :: path), z, lv, lk, lx. split; [done|]. split; [done|]. split.
      * rewrite up_cons, Hp. apply right_step. lia.
      * cbn [elements]. apply elem_of_app. by right.
      * intros Hwf Hin. pose proof (wf_children _ _ _ _ _ _ Hwf) as [_ Hwr]. apply Hkey; [done|].
        destruct (branch_split _ _ _ _ _ _ Hwf) as (_ & Hlt & _). cbn [elements] in Hin. rewrite fmap_app in Hin.
        apply elem_of_app in Hin as [Hin%Hlt|?]; [|done]. destruct (ltb_spec key k); [done|exfalso; bytes_order].
Qed.

(** ** Correctness of proofs *)

Section correct.
  Context `{CacheLaws C, Ics23Laws}.
  Implicit Type t : Tree C.

(** The proof is for a pair, and computes the root hash of the tree. *)
Record proves t (p : ExistenceProof) (k v : bytes) : Prop := {
  pr_key : ep_Key p = k;
  pr_value : ep_Value p = Some v;
  pr_root : k <> [] -> v <> [] -> Calculate p = Ok (RootHash t)
}.

Lemma createExistenceProof_ok fuel t key n :
  tree_ok t -> tree_size t < max_leaves -> (90 <= fuel)%nat -> root t = Some n ->
  exists p k v, createExistenceProof fuel t key = Ok (p, if bool_decide (k = key) then None else Some ErrNoKey) /\
    proves t p k v /\ (k, v) ∈ elements n /\ (key ∈ (elements n).*1 -> k = key).
Proof.
  intros Ht Hs Hf Hr. pose proof (to_wf _ Ht) as Hw. unfold tree_size in Hs. rewrite Hr in Hw, Hs.
  pose proof (height_bound n (wf_balanced _ Hw) Hs) as Hh.
  destruct (pathToLeaf_found fuel n n key [] eq_refl (wf_fields _ Hw)) as (path & z & v & k & x & E & Hz & [Hp He Hk]); [lia|lia|].
  unfold createExistenceProof. rewrite Hr. cbn [of_option mbind res_bind]. rewrite E. subst z.
  cbn [mbind res_bind app node_Key node_Value node_Version tree_ops Node.Key Node.Value Node.Version]. eexists _, k, x. split; [done|]. split; [|split; [done|by apply Hk]].
  split; [done|done|]. intros Hkn Hxn. unfold RootHash. rewrite Hr, <- Hp, <- leaf_step_hash, <- foldl_convertInnerOps.
  apply (Calculate_steps {| ep_Key := k; ep_Value := Some x; ep_Leaf := convertLeafOp (i64 v); ep_Path := convertInnerOps path |} x);
    [done|done|done| |done|done|done]. cbn [ep_Path]. unfold convertInnerOps.
  apply Forall_fmap, Forall_forall. intros node _. cbn. unfold convertInnerOp. by destruct (0 <? _).
Qed.

Lemma contents_root t k v : (k, v) ∈ contents (root t) -> exists n, root t = Some n.
Proof. destruct (root t) as [n|]; [by exists n|]. intros Hin. by apply elem_of_nil in Hin. Qed.

(** Proofs of the pairs of the tree. *)
Lemma existence_of_pair fuel t k v :
  tree_ok t -> tree_size t < max_leaves -> (90 <= fuel)%nat -> (k, v) ∈ contents (root t) ->
  exists p, check_err (createExistenceProof fuel t k) = Ok p /\ proves t p k v.
Proof.
  intros Ht Hs Hf Hin. destruct (contents_root t k v Hin) as [n Hr].
  destruct (createExistenceProof_ok fuel t k n Ht Hs Hf Hr) as (p & k' & v' & -> & Hp & He & Hk).
  rewrite Hr in Hin. cbn [contents] in Hin. assert (k' = k) as -> by (apply Hk; by apply (list_elem_of_fmap_2 fst _ (k, v))).
  rewrite bool_decide_true by done. exists p. split; [done|]. assert (v' = v) as ->; [|done].
  pose proof (to_wf _ Ht) as Hw. rewrite Hr in Hw. pose proof (wf_sorted _ Hw) as Hso.
  apply kv_elem_lookup in He, Hin; [congruence|done..].
Qed.

(** The keys before the rank of an absent key are smaller, the others greater. *)
Lemma below_above key (l : list (bytes * bytes)) :
  kv_sorted l -> kv_lookup key l = None ->
  Forall (fun k => bytes_lt k key) (take (Z.to_nat (kv_rank key l)) l).*1 /\
  Forall (fun k => bytes_lt key k) (drop (Z.to_nat (kv_rank key l)) l).*1.
Proof.
  intros Hs E. pose proof (kv_rank_range key l) as Hi. split; apply Forall_fmap, Forall_forall; intros [k v] Hin.
  - apply list_elem_of_lookup in Hin as [j Hj]. apply lookup_take_Some in Hj as [Hj Hlt].
    pose proof (kv_rank_split key l j k v Hs Hj) as Hr. rewrite (proj2 (Z.ltb_lt _ _)) in Hr by lia.
    by destruct (ltb_spec k key).
  - assert (Hne : k <> key).
    { intros ->. apply kv_lookup_None in E. apply E, (list_elem_of_fmap_2 fst _ (key, v)), (subseteq_drop _ _ _ Hin). }
    apply list_elem_of_lookup in Hin as [j Hj]. rewrite lookup_drop in Hj.
    pose proof (kv_rank_split key l _ k v Hs Hj) as Hr. rewrite (proj2 (Z.ltb_ge _ _)) in Hr by lia.
    destruct (ltb_spec k key); [done|]. simpl. bytes_order.
Qed.

Lemma head_drop_lookup {A} (l : list A) i : head (drop i l) = l !! i.
Proof. rewrite head_lookup, lookup_drop. by rewrite Nat.add_0_r. Qed.

Definition proof_at t (o : option ExistenceProof) (pair : option (bytes * bytes)) : Prop :=
  match o, pair with
  | None, None => True
  | Some p, Some (k, v) => proves t p k v
  | _, _ => False
  end.

(** The proof has the existence proofs of the last pair before the key and of the first one
    after it, where there are such pairs. *)
Definition proves_absence t (p : NonExistenceProof) (key : bytes) : Prop :=
  np_Key p = key /\ exists below above, contents (root t) = below ++ above /\
    Forall (fun k => bytes_lt k key) below.*1 /\ Forall (fun k => bytes_lt key k) above.*1 /\
    proof_at t (np_Left p) (last below) /\ proof_at t (np_Right p) (head above).

Lemma GetMembershipProof_spec fuel t key :
  tree_ok t -> tree_size t < max_leaves -> (90 <= fuel)%nat ->
  match kv_lookup key (contents (root t)) with
  | Some value => exists p, GetMembershipProof fuel t key = Ok (Exist p) /\ proves t p key value
  | None => GetMembershipProof fuel t key = match root t with Some _ => Err ErrNoKey | None => Panic end
  end.
Proof.
  intros Ht Hs Hf. unfold GetMembershipProof. destruct (kv_lookup key (contents (root t))) as [value|] eqn:E.
  - assert (Hin : (key, value) ∈ contents (root t)) by (apply kv_elem_lookup; [apply wf_root_sorted, Ht|done]).
    destruct (existence_of_pair fuel t key value Ht Hs Hf Hin) as (p & -> & Hp). by exists p.
  - destruct (root t) as [n|] eqn:Hr; [|unfold createExistenceProof; by rewrite Hr].
    destruct (createExistenceProof_ok fuel t key n Ht Hs Hf Hr) as (p & k & v & -> & _ & He & _).
    rewrite bool_decide_false; [done|]. intros ->. apply kv_lookup_None in E. apply E.
    by apply (list_elem_of_fmap_2 fst _ (key, v)).
Qed.

Lemma GetNonMembershipProof_spec fuel t key :
  tree_ok t -> tree_size t < 2 ^ 32 -> (90 <= fuel)%nat ->
  match kv_lookup key (contents (root t)) with
  | Some _ => GetNonMembershipProof fuel t key = Err ErrKeyInState
  | None => exists p, GetNonMembershipProof fuel t key = Ok (Nonexist p) /\ proves_absence t p key
  end.
Proof.
  intros Ht Hs Hf. unfold GetNonMembershipProof. rewrite GetWithIndex_contents by done.
  destruct (kv_lookup key (contents (root t))) as [value|] eqn:E; [done|].
  set (l := contents (root t)) in *. set (i := kv_rank key l). pose proof (kv_rank_range key l) as Hi. fold i in Hi.
  assert (Hso : kv_sorted l) by (apply wf_root_sorted, Ht).
  assert (Hsz : tree_size t < max_leaves) by (unfold max_leaves; lia). unfold tree_size in Hs. fold l in Hs.
  destruct (below_above key l Hso E) as (Hb & Ha).
  assert (Hleft : exists left, (if 1 <=? i then Some <$> check_err (createExistenceProof fuel t
      (from_option fst [] (Tree.GetByIndex t (i - 1)))) else Ok None) = Ok left /\ proof_at t left (last (take (Z.to_nat i) l))).
  { destruct (Z.leb_spec 1 i) as [Hle|Hlt].
    - rewrite GetByIndex_contents by (done || lia). fold l.
      destruct (lookup_lt_is_Some_2 l (Z.to_nat (i - 1))) as [[k v] Hkv]; [unfold zlen in Hi; lia|]. rewrite Hkv. cbn [from_option fst].
      destruct (existence_of_pair fuel t k v Ht Hsz Hf) as (p & -> & Hp); [by eapply list_elem_of_lookup_2|].
      exists (Some p). split; [done|]. replace (Z.to_nat i) with (S (Z.to_nat (i - 1))) by lia.
      by rewrite (take_S_r _ _ _ Hkv), last_snoc.
    - exists None. split; [done|]. replace (Z.to_nat i) with O by lia. done. }
  destruct Hleft as (left & -> & Hleft). cbn [mbind res_bind].
  rewrite GetByIndex_contents by (done || lia). fold l. rewrite <- (head_drop_lookup l).
  assert (Hright : exists right, match head (drop (Z.to_nat i) l) with
      | Some (rightkey, _) => Some <$> check_err (createExistenceProof fuel t rightkey) | None => Ok None end = Ok right /\
      proof_at t right (head (drop (Z.to_nat i) l))).
  { destruct (head (drop (Z.to_nat i) l)) as [[k v]|] eqn:Eh; [|by exists None].
    rewrite head_drop_lookup in Eh.
    destruct (existence_of_pair fuel t k v Ht Hsz Hf) as (p & -> & Hp); [by eapply list_elem_of_lookup_2|]. by exists (Some p). }
  destruct Hright as (right & -> & Hright). cbn [mbind res_bind].
  eexists. split; [done|]. split; [done|]. exists (take (Z.to_nat i) l), (drop (Z.to_nat i) l). by rewrite take_drop.
Qed.


End correct.

(** ** Witnesses *)

(** The computation of roots, and the comparison with a root. *)
Definition calculate (p : ExistenceProof) : res bytes :=
  match ep_Key p, ep_Value p with
  | [], _ => Err "leaf op needs key"
  | _, None | _, Some [] => Err "leaf op needs value"
  | key, Some value => Ok (foldl inner_step (leaf_step (ep_Leaf p) key value) (ep_Path p))
  end.
#[export] Instance steps_ics23 : Ics23Ops := {|
  Calculate := calculate;
  ics23_VerifyMembership root proof key value :=
    match proof with
    | Exist p => bool_decide (ep_Key p = key) && bool_decide (ep_Value p = Some value) &&
                 match calculate p with Ok h => bool_decide (h = root) | _ => false end
    | Nonexist _ => false
    end;
  ics23_VerifyNonMembership root proof key := false
|}.
#[export] Instance steps_laws : Ics23Laws.
Proof.
  split. intros p value _ _ _ _ Hv Hk Hx. cbn. unfold calculate. rewrite Hv. destruct (ep_Key p); [done|]. by destruct value.
Qed.



(** A membership proof of the sample verifies. *)
Lemma membership_sample :
  match GetMembershipProof 90 sample_loaded (str "c") with
  | Ok proof => (VerifyMembership sample_loaded proof (str "c")).1 = true
  | _ => False
  end.
Proof. vm_compute. reflexivity. Qed.
