(* ===== verification/IavlStore.v ===== *)
(** * The store of one tree (memiavl/store.go)

    A [Store] gives an application a tree of the multi-tree: reads go to the tree, writes
    are collected in a change set that the root multistore takes at the commit.  Queries
    return a value with a proof, or all pairs under a prefix.  The encoding of proofs as
    operations of the application's Merkle tree is that of cosmos-sdk, of which only the
    arguments matter here, and so is the end of a range of keys with a prefix. *)

From Stdlib Require Import Strings.Byte ZArith Lia.
From stdpp Require Import base list numbers strings gmap.
From S2P Require Import Prelude Binary Proto KVProto Node NodeInv NodeIface Iterator Cache Tree Merkle.
Local Open Scope Z_scope.

(** [types.PrefixEndBytes]: the first key after those with a prefix, nil if there is none. *)
Class PrefixEndOps := PrefixEndBytes : bytes -> option bytes.
Class PrefixEndLaws `{PrefixEndOps} := {
  PrefixEndBytes_spec : forall prefix key, prefix <> [] ->
    in_domain (Some prefix) (PrefixEndBytes prefix) key = bool_decide (take (length prefix) key = prefix)
}.

(** [iavl.CommitmentOp] on a key, and the operation for a store in the commit info. *)
Inductive ProofOp : Type :=
| IavlOp (key : bytes) (proof : CommitmentProof)
| StoreOp (info : CommitInfo) (name : bytes).

Record RequestQuery : Type := { rq_Data : bytes; rq_Path : bytes; rq_Height : Z; rq_Prove : bool }.
Record ResponseQuery : Type := { rp_Height : Z; rp_Key : bytes; rp_Value : option bytes; rp_ProofOps : option (list ProofOp) }.

Section store.
Context `{CacheOps C, Ics23Ops, PrefixEndOps}.

Record Store : Type := { st_tree : Tree C; changeSet : ChangeSet }.

Definition NewStore (tree : Tree C) : Store := {| st_tree := tree; changeSet := {| Pairs := [] |} |}.
Definition SetTree (st : Store) (tree : Tree C) : Store := {| st_tree := tree; changeSet := changeSet st |}.

Definition LastCommitID (st : Store) : res CommitID :=
  v ← Tree.Version (st_tree st); Ok {| cid_Version := v; cid_Hash := RootHash (st_tree st) |}.

Definition append_pair (st : Store) (p : KVPair) : Store :=
  {| st_tree := st_tree st; changeSet := {| Pairs := Pairs (changeSet st) ++ [p] |} |}.
Definition store_Set (st : Store) (key value : bytes) : Store :=
  append_pair st {| kv_Delete := false; kv_Key := key; kv_Value := Some value |}.
Definition store_Delete (st : Store) (key : bytes) : Store :=
  append_pair st {| kv_Delete := true; kv_Key := key; kv_Value := None |}.

(** Reads go to the cache of the tree. *)
Definition store_Get (st : Store) (key : bytes) : option bytes * Store :=
  let '(value, tree) := tree_Get (st_tree st) key in (value, SetTree st tree).
Definition store_Has (st : Store) (key : bytes) : bool * Store :=
  let '(b, tree) := Has (st_tree st) key in (b, SetTree st tree).

(** A bound on the rounds of an iterator. *)
Definition iter_fuel (t : Tree C) : nat := S (count_nodes (option_list (root t))).
Definition store_Iterator (st : Store) (start end_ : option bytes) : res (Iterator Node) :=
  tree_Iterator (iter_fuel (st_tree st)) (st_tree st) start end_ true.
Definition store_ReverseIterator (st : Store) (start end_ : option bytes) : res (Iterator Node) :=
  tree_Iterator (iter_fuel (st_tree st)) (st_tree st) start end_ false.

Definition PopChangeSet (st : Store) : ChangeSet * Store :=
  (changeSet st, {| st_tree := st_tree st; changeSet := {| Pairs := [] |} |}).

(** The depth of a tree is below 90. *)
Definition proof_fuel : nat := 90.

(** A failure to build the proof is a panic. *)
Definition getProofFromTree (tree : Tree C) (key : bytes) (exists_ : bool) : res (list ProofOp) :=
  commitmentProof ← must (if exists_ then GetMembershipProof proof_fuel tree key
                          else GetNonMembershipProof proof_fuel tree key);
  Ok [IavlOp key commitmentProof].

(** The pairs of the iterator; [Key] and [Value] panic on a nil node. *)
Definition collect_pairs (l : list (option bytes * option bytes)) : list Pair :=
  map (fun p => {| p_Key := default [] p.1; p_Value := default [] p.2 |}) l.

Definition store_Query (st : Store) (req : RequestQuery) : res (ResponseQuery * Store) :=
  if zlen (rq_Data req) =? 0 then Err "query cannot be zero length" else
  version ← Tree.Version (st_tree st);
  if (0 <? rq_Height req) && negb (rq_Height req =? version) then Err "invalid height" else
  if bool_decide (rq_Path req = str "/key") then
    let '(value, tree) := tree_Get (st_tree st) (rq_Data req) in
    ops ← (if rq_Prove req
           then Some <$> getProofFromTree tree (rq_Data req) (match value with Some _ => true | None => false end)
           else Ok None);
    Ok ({| rp_Height := version; rp_Key := rq_Data req; rp_Value := value; rp_ProofOps := ops |}, SetTree st tree)
  else if bool_decide (rq_Path req = str "/subspace") then
    let subspace := rq_Data req in
    let fuel := iter_fuel (st_tree st) in
    iterator ← store_Iterator st (Some subspace) (PrefixEndBytes subspace);
    pairs ← drain fuel fuel iterator;
    bz ← Pairs_Marshal (collect_pairs pairs);
    Ok ({| rp_Height := version; rp_Key := subspace; rp_Value := Some bz; rp_ProofOps := None |}, st)
  else Err "unexpected query path".
End store.
Arguments Store : clear implicits.

(** ** Queries *)

Section queries.
Context `{CacheLaws C, Ics23Laws, PrefixEndLaws}.
Implicit Types (t : Tree C) (st : Store C) (req : RequestQuery).

(** The proof is for the value the tree has for the key, or for its absence. *)
Definition query_proof t (key : bytes) (op : ProofOp) : Prop :=
  match kv_lookup key (contents (root t)), op with
  | Some value, IavlOp k (Exist p) => k = key /\ proves t p key value
  | None, IavlOp k (Nonexist p) => k = key /\ proves_absence t p key
  | _, _ => False
  end.

Lemma proves_root t t' p k v : root t' = root t -> proves t' p k v -> proves t p k v.
Proof.
  intros E Hp. assert (Eh : RootHash t = RootHash t') by (unfold RootHash; by rewrite E).
  destruct Hp. split; rewrite ?Eh; done.
Qed.

Lemma proves_absence_root t t' p k : root t' = root t -> proves_absence t' p k -> proves_absence t p k.
Proof.
  intros E (Hk & below & above & Hc & Hb & Ha & Hl & Hr). split; [done|]. exists below, above.
  rewrite E in Hc. do 3 (split; [done|]). unfold proof_at in *.
  split; [destruct (np_Left p), (last below) as [[]|]|destruct (np_Right p), (head above) as [[]|]]; try done;
    by apply (proves_root t t').
Qed.

Lemma getProofFromTree_spec t key :
  tree_ok t -> tree_size t < 2 ^ 32 ->
  exists op, getProofFromTree t key (match kv_lookup key (contents (root t)) with Some _ => true | None => false end) = Ok [op] /\
    query_proof t key op.
Proof.
  intros Ht Hs. unfold getProofFromTree, query_proof.
  pose proof (GetMembershipProof_spec proof_fuel t key Ht ltac:(unfold max_leaves; lia) (le_n _)) as Hm.
  pose proof (GetNonMembershipProof_spec proof_fuel t key Ht Hs (le_n _)) as Hn.
  destruct (kv_lookup key (contents (root t))) as [value|].
  - destruct Hm as (p & -> & Hp). exists (IavlOp key (Exist p)). by split.
  - destruct Hn as (p & -> & Hp). exists (IavlOp key (Nonexist p)). by split.
Qed.

(** A request that the guards let through. *)
Record request_ok st req : Prop := {
  ro_tree : tree_ok (st_tree st);
  ro_version : 0 <= version (st_tree st) <= MaxInt64;
  ro_data : rq_Data req <> [];
  ro_height : rq_Height req <= 0 \/ rq_Height req = version (st_tree st)
}.

Lemma query_guards st req :
  request_ok st req ->
  (zlen (rq_Data req) =? 0) = false /\ Tree.Version (st_tree st) = Ok (version (st_tree st)) /\
  (0 <? rq_Height req) && negb (rq_Height req =? version (st_tree st)) = false.
Proof.
  intros [_ Hv Hd Hh]. split; [|split].
  - apply Z.eqb_neq. destruct (rq_Data req); [done|]. rewrite zlen_cons. pose proof (zlen_nonneg l). lia.
  - unfold Tree.Version. rewrite (proj2 (Z.ltb_ge MaxInt64 _)) by lia. unfold MaxInt64 in Hv. by rewrite i64_small by lia.
  - destruct (Z.ltb_spec 0 (rq_Height req)); [|done].
    by rewrite (proj2 (Z.eqb_eq (rq_Height req) (version (st_tree st)))) by lia.
Qed.

(** What the query of a key returns for a tree. *)
Definition answers t req (resp : ResponseQuery) : Prop :=
  rp_Height resp = version t /\ rp_Key resp = rq_Data req /\
  rp_Value resp = kv_lookup (rq_Data req) (contents (root t)) /\
  (if rq_Prove req then exists op, rp_ProofOps resp = Some [op] /\ query_proof t (rq_Data req) op
   else rp_ProofOps resp = None).

Lemma store_Query_key st req :
  request_ok st req -> tree_size (st_tree st) < 2 ^ 32 -> rq_Path req = str "/key" ->
  exists resp st', store_Query st req = Ok (resp, st') /\ answers (st_tree st) req resp.
Proof.
  intros Hok Hs Hp. unfold store_Query. destruct (query_guards st req Hok) as (-> & -> & Hg).
  cbn [mbind res_bind]. rewrite Hg, bool_decide_true by done. set (t := st_tree st) in *.
  destruct (tree_Get_contents t (rq_Data req) (ro_tree _ _ Hok) Hs) as (t' & -> & Ht' & Hr & Hve & _).
  unfold answers. destruct (rq_Prove req); [|do 2 eexists; split; [reflexivity|]; done].
  destruct (getProofFromTree_spec t' (rq_Data req) Ht') as (op & E & Hop); [unfold tree_size; by rewrite Hr|].
  rewrite Hr in E. rewrite E. do 2 eexists. split; [reflexivity|]. do 3 (split; [done|]).
  exists op. split; [done|]. unfold query_proof in *. rewrite Hr in Hop.
  destruct (kv_lookup _ _), op as [k [p|p]|]; try done; destruct Hop; split; try done;
    [by apply (proves_root _ t')|by apply (proves_absence_root _ t')].
Qed.

(** The pairs under a prefix, in order. *)
Definition under (prefix : bytes) (l : list (bytes * bytes)) : list Pair :=
  map (fun p => {| p_Key := p.1; p_Value := p.2 |})
    (List.filter (fun p => bool_decide (take (length prefix) p.1 = prefix)) l).

Lemma store_Query_subspace st req :
  let t := st_tree st in let pairs := under (rq_Data req) (contents (root t)) in
  request_ok st req -> rq_Path req = str "/subspace" -> zlen (Pairs_bytes pairs) < 2 ^ 63 ->
  exists resp bz, store_Query st req = Ok (resp, st) /\ rp_Height resp = version t /\
    rp_Value resp = Some bz /\ Pairs_Unmarshal bz = Ok pairs.
Proof.
  intros t pairs Hok Hp Hz. unfold store_Query. destruct (query_guards st req Hok) as (-> & -> & Hg).
  cbn [mbind res_bind]. rewrite Hg, Hp. change (bool_decide (str "/subspace" = str "/key")) with false.
  rewrite bool_decide_true by done. fold t.
  pose proof (drain_NewIterator (denotes := eq) (Some (rq_Data req)) (PrefixEndBytes (rq_Data req)) true
    (iter_fuel t) (iter_fuel t) (root t) (root t)) as Hit.
  assert (Hr : option_Forall2 eq (root t) (root t)) by (destruct (root t); by constructor).
  specialize (Hit Hr (to_wf _ (ro_tree _ _ Hok)) (Nat.lt_succ_diag_r _) (Nat.lt_succ_diag_r _)).
  apply res_bind_ok in Hit as (it & Ei & Ed). unfold store_Iterator, tree_Iterator. fold t. rewrite Ei. cbn [mbind res_bind].
  rewrite Ed. cbn [mbind res_bind].
  assert (Ec : collect_pairs (map (fun p => (Some p.1, Some p.2)) (domain_of (Some (rq_Data req))
    (PrefixEndBytes (rq_Data req)) true (contents (root t)))) = pairs).
  { unfold collect_pairs, pairs, under, domain_of. rewrite map_map. f_equal. apply List.filter_ext.
    intros [k v]. apply PrefixEndBytes_spec, (ro_data _ _ Hok). }
  rewrite Ec. destruct (Pairs_roundtrip pairs Hz) as [-> Eu]. cbn [mbind res_bind].
  do 2 eexists. split; [reflexivity|]. split; [done|]. by split.
Qed.
End queries.

(** ** An instance of the prefix ends *)

(** The last byte that is not the greatest one is incremented, and those after it dropped. *)
Fixpoint prefix_end (prefix : bytes) : option bytes :=
  match prefix with
  | [] => None
  | b :: prefix =>
      match prefix_end prefix with
      | Some e => Some (b :: e)
      | None => if bool_decide (b = xff) then None else Some [byte_of_Z (byte_to_Z b + 1)]
      end
  end.

Lemma succ_to_N b : b <> xff -> Byte.to_N (byte_of_Z (byte_to_Z b + 1)) = (Byte.to_N b + 1)%N.
Proof. intros Hb. destruct b; first [done | reflexivity]. Qed.

Lemma prefix_end_spec prefix key :
  in_domain (Some prefix) (prefix_end prefix) key = bool_decide (take (length prefix) key = prefix).
Proof.
  revert key. induction prefix as [|b prefix IH]; intros key; [by destruct key|].
  destruct key as [|x key]; [done|]. specialize (IH key). unfold in_domain, ltb in *.
  cbn [Compare prefix_end length take]. destruct (N.compare_spec (Byte.to_N x) (Byte.to_N b)) as [E|E|E].
  - apply to_N_inj in E as ->.
    assert (Er : bool_decide (b :: take (length prefix) key = b :: prefix) = bool_decide (take (length prefix) key = prefix)).
    { apply bool_decide_ext. split; congruence. }
    rewrite Er, <- IH. f_equal. destruct (prefix_end prefix) as [e|]; [cbn [Compare]; by rewrite N.compare_refl|].
    destruct (bool_decide_reflect (b = xff)); [done|]. cbn [Compare]. rewrite succ_to_N by done.
    by destruct (N.compare_spec (Byte.to_N b) (Byte.to_N b + 1)); [lia| |lia].
  - rewrite (bool_decide_false (x :: _ = _)); [done|]. intros [= -> _]. lia.
  - rewrite (bool_decide_false (x :: _ = _)) by (intros [= -> _]; lia). cbn [negb andb].
    destruct (prefix_end prefix) as [e|]; [cbn [Compare]; by destruct (N.compare_spec (Byte.to_N x) (Byte.to_N b)); [lia|lia|]|].
    destruct (bool_decide_reflect (b = xff)) as [->|Hb].
    { pose proof (Byte.to_N_bounded x). change (Byte.to_N xff) with 255%N in E. lia. }
    cbn [Compare]. rewrite succ_to_N by done.
    destruct (N.compare_spec (Byte.to_N x) (Byte.to_N b + 1)); [by destruct key|lia|done].
Qed.

#[export] Instance incremented_prefix : PrefixEndOps := prefix_end.
#[export] Instance incremented_laws : PrefixEndLaws.
Proof. split. intros prefix key _. apply prefix_end_spec. Qed.
