(* ===== verification/Heap.v ===== *)
(** * Nodes in memory: mutation in place and copy on write (memiavl/mem_node.go,
    memiavl/node.go, memiavl/tree.go)

    The code keeps the nodes of the current version as heap objects and modifies them
    in place when their version is greater than [cowVersion]; other nodes, and the
    nodes of the snapshot, are cloned first.  Here the heap is explicit: a list of
    [MemNode] cells addressed by position, and references to cells or to nodes of the
    snapshot.  Every operation is translated with its reads and writes in order. *)

From Stdlib Require Import Strings.Byte ZArith Lia.
From stdpp Require Import base list numbers strings gmap sorting.
From S2P Require Import Prelude Binary Sha256 Node NodeInv NodeIface Sort Snapshot SnapshotInv.
Local Open Scope Z_scope.

(** ** The heap *)

(** The dynamic type of a value of the interface [Node]. *)
Inductive NodeRef : Type :=
| Mem (l : nat)
| Pers (p : PersistedNode).

Record MemNode : Type := {
  m_height : Z;
  m_size : Z;
  m_version : Z;
  m_key : bytes;
  m_value : option bytes;
  m_left : option NodeRef;
  m_right : option NodeRef;
  m_hash : option bytes
}.

Abbreviation Heap := (list MemNode).

(** Code that reads and writes the heap and may panic. *)
Definition ST (A : Type) : Type := Heap -> res (A * Heap).
#[export] Instance ST_ret : MRet ST := fun A a σ => Ok (a, σ).
#[export] Instance ST_bind : MBind ST := fun A B f m σ =>
  match m σ with Ok (a, σ') => f a σ' | Err e => Err e | Panic => Panic end.

Definition alloc (n : MemNode) : ST nat := fun σ => Ok (length σ, σ ++ [n]).
Definition load (l : nat) : ST MemNode := fun σ =>
  match σ !! l with Some n => Ok (n, σ) | None => Panic end.
Definition store (l : nat) (n : MemNode) : ST unit := fun σ => Ok ((), <[l:=n]> σ).
Definition lift {A} (r : Heap -> res A) : ST A := fun σ => a ← r σ; Ok (a, σ).

Definition set_left (x : option NodeRef) (n : MemNode) : MemNode :=
  {| m_height := m_height n; m_size := m_size n; m_version := m_version n; m_key := m_key n;
     m_value := m_value n; m_left := x; m_right := m_right n; m_hash := m_hash n |}.
Definition set_right (x : option NodeRef) (n : MemNode) : MemNode :=
  {| m_height := m_height n; m_size := m_size n; m_version := m_version n; m_key := m_key n;
     m_value := m_value n; m_left := m_left n; m_right := x; m_hash := m_hash n |}.
Definition set_value (v : option bytes) (n : MemNode) : MemNode :=
  {| m_height := m_height n; m_size := m_size n; m_version := m_version n; m_key := m_key n;
     m_value := v; m_left := m_left n; m_right := m_right n; m_hash := m_hash n |}.
Definition set_key (k : bytes) (n : MemNode) : MemNode :=
  {| m_height := m_height n; m_size := m_size n; m_version := m_version n; m_key := k;
     m_value := m_value n; m_left := m_left n; m_right := m_right n; m_hash := m_hash n |}.
Definition set_height_size (h s : Z) (n : MemNode) : MemNode :=
  {| m_height := h; m_size := s; m_version := m_version n; m_key := m_key n;
     m_value := m_value n; m_left := m_left n; m_right := m_right n; m_hash := m_hash n |}.
Definition set_version (v : Z) (n : MemNode) : MemNode :=
  {| m_height := m_height n; m_size := m_size n; m_version := v; m_key := m_key n;
     m_value := m_value n; m_left := m_left n; m_right := m_right n; m_hash := None |}.

Definition modify (l : nat) (f : MemNode -> MemNode) : ST unit := n ← load l; store l (f n).

Section heap.
  Variable snap : Snapshot.

(** ** The methods of the interface *)

Definition cell (σ : Heap) (l : nat) : res MemNode := of_option (σ !! l).

Definition ref_Height (σ : Heap) (x : NodeRef) : res Z :=
  match x with Mem l => m_height <$> cell σ l | Pers p => Persisted.Height snap p end.
Definition ref_IsLeaf (σ : Heap) (x : NodeRef) : res bool :=
  match x with Mem l => (fun n => m_height n =? 0) <$> cell σ l | Pers p => Ok (isLeaf p) end.
Definition ref_Size (σ : Heap) (x : NodeRef) : res Z :=
  match x with Mem l => m_size <$> cell σ l | Pers p => Persisted.Size snap p end.
Definition ref_Version (σ : Heap) (x : NodeRef) : res Z :=
  match x with Mem l => m_version <$> cell σ l | Pers p => Persisted.Version snap p end.
Definition ref_Key (σ : Heap) (x : NodeRef) : res bytes :=
  match x with Mem l => m_key <$> cell σ l | Pers p => Persisted.Key snap p end.
Definition ref_Value (σ : Heap) (x : NodeRef) : res (option bytes) :=
  match x with Mem l => m_value <$> cell σ l | Pers p => Persisted.Value snap p end.
Definition ref_Left (σ : Heap) (x : NodeRef) : res NodeRef :=
  match x with
  | Mem l => n ← cell σ l; of_option (m_left n)
  | Pers p => Pers <$> Persisted.Left snap p
  end.
Definition ref_Right (σ : Heap) (x : NodeRef) : res NodeRef :=
  match x with
  | Mem l => n ← cell σ l; of_option (m_right n)
  | Pers p => Pers <$> Persisted.Right snap p
  end.

(** The fields [PersistedNode.Mutate] copies into a new node. *)
Definition persisted_cell (version : Z) (p : PersistedNode) : res MemNode :=
  if isLeaf p then
    kv ← LeafKeyValue snap (index p);
    Ok {| m_height := 0; m_size := 1; m_version := version; m_key := kv.1; m_value := Some kv.2;
          m_left := None; m_right := None; m_hash := None |}
  else
    data ← Persisted.branchNode snap p;
    height ← NodeLayout.Height data;
    size ← NodeLayout.Size data;
    key ← Persisted.Key snap p;
    left ← Persisted.Left snap p;
    right ← Persisted.Right snap p;
    Ok {| m_height := height; m_size := size; m_version := version; m_key := key; m_value := None;
          m_left := Some (Pers left); m_right := Some (Pers right); m_hash := None |}.

(** [Mutate]: a cell whose version is at most [cowVersion] is cloned. *)
Definition h_Mutate (version cowVersion : Z) (x : NodeRef) : ST nat :=
  match x with
  | Mem l =>
      n ← load l;
      if m_version n <=? cowVersion then alloc (set_version version n)
      else store l (set_version version n);; mret l
  | Pers p => n ← lift (fun _ => persisted_cell version p); alloc n
  end.

(** ** Balancing *)

Definition deref (o : option NodeRef) : ST NodeRef := lift (fun _ => of_option o).

Definition h_updateHeightSize (l : nat) : ST unit :=
  n ← load l;
  left ← deref (m_left n);
  right ← deref (m_right n);
  hl ← lift (fun σ => ref_Height σ left);
  hr ← lift (fun σ => ref_Height σ right);
  sl ← lift (fun σ => ref_Size σ left);
  sr ← lift (fun σ => ref_Size σ right);
  modify l (set_height_size (u8 (Z.max hl hr + 1)) (i64 (sl + sr))).

(** [calcBalance] of a node behind the interface. *)
Definition h_calcBalance (x : NodeRef) : ST Z :=
  left ← lift (fun σ => ref_Left σ x);
  right ← lift (fun σ => ref_Right σ x);
  hl ← lift (fun σ => ref_Height σ left);
  hr ← lift (fun σ => ref_Height σ right);
  mret (hl - hr).

Definition h_rotateRight (version cowVersion : Z) (node : nat) : ST nat :=
  n ← load node;
  left ← deref (m_left n);
  newSelf ← h_Mutate version cowVersion left;
  leftRight ← lift (fun σ => ref_Right σ left);
  modify node (set_left (Some leftRight));;
  modify newSelf (set_right (Some (Mem node)));;
  h_updateHeightSize node;;
  h_updateHeightSize newSelf;;
  mret newSelf.

Definition h_rotateLeft (version cowVersion : Z) (node : nat) : ST nat :=
  n ← load node;
  right ← deref (m_right n);
  newSelf ← h_Mutate version cowVersion right;
  rightLeft ← lift (fun σ => ref_Left σ right);
  modify node (set_right (Some rightLeft));;
  modify newSelf (set_left (Some (Mem node)));;
  h_updateHeightSize node;;
  h_updateHeightSize newSelf;;
  mret newSelf.

Definition h_reBalance (version cowVersion : Z) (node : nat) : ST nat :=
  balance ← h_calcBalance (Mem node);
  if 1 <? balance then
    n ← load node;
    left ← deref (m_left n);
    leftBalance ← h_calcBalance left;
    if 0 <=? leftBalance then h_rotateRight version cowVersion node
    else
      mutated ← h_Mutate version cowVersion left;
      newLeft ← h_rotateLeft version cowVersion mutated;
      modify node (set_left (Some (Mem newLeft)));;
      h_rotateRight version cowVersion node
  else if balance <? -1 then
    n ← load node;
    right ← deref (m_right n);
    rightBalance ← h_calcBalance right;
    if rightBalance <=? 0 then h_rotateLeft version cowVersion node
    else
      mutated ← h_Mutate version cowVersion right;
      newRight ← h_rotateRight version cowVersion mutated;
      modify node (set_right (Some (Mem newRight)));;
      h_rotateLeft version cowVersion node
  else mret node.

(** ** Insertion and removal; [fuel] bounds the depth of the recursion *)

Definition h_newLeafNode (key value : bytes) (version : Z) : ST nat :=
  alloc {| m_height := 0; m_size := 1; m_version := version; m_key := key; m_value := Some value;
           m_left := None; m_right := None; m_hash := None |}.

Definition new_branch (version : Z) (key : bytes) (left right : NodeRef) : ST nat :=
  alloc {| m_height := 1; m_size := 2; m_version := version; m_key := key; m_value := None;
           m_left := Some left; m_right := Some right; m_hash := None |}.

Fixpoint h_setRecursive (fuel : nat) (node : NodeRef) (key value : bytes) (version cowVersion : Z)
    : ST (nat * bool) :=
  match fuel with
  | O => fun _ => out_of_fuel
  | S fuel =>
      nodeKey ← lift (fun σ => ref_Key σ node);
      leaf ← lift (fun σ => ref_IsLeaf σ node);
      if leaf : bool then
        match Compare key nodeKey with
        | Lt =>
            new ← h_newLeafNode key value version;
            l ← new_branch version nodeKey (Mem new) node;
            mret (l, false)
        | Gt =>
            new ← h_newLeafNode key value version;
            l ← new_branch version key node (Mem new);
            mret (l, false)
        | Eq =>
            l ← h_Mutate version cowVersion node;
            modify l (set_value (Some value));;
            mret (l, true)
        end
      else
        '(newNode, updated) ←
          match Compare key nodeKey with
          | Lt =>
              left ← lift (fun σ => ref_Left σ node);
              '(newChild, updated) ← h_setRecursive fuel left key value version cowVersion;
              newNode ← h_Mutate version cowVersion node;
              modify newNode (set_left (Some (Mem newChild)));;
              mret (newNode, updated)
          | _ =>
              right ← lift (fun σ => ref_Right σ node);
              '(newChild, updated) ← h_setRecursive fuel right key value version cowVersion;
              newNode ← h_Mutate version cowVersion node;
              modify newNode (set_right (Some (Mem newChild)));;
              mret (newNode, updated)
          end;
        if updated : bool then mret (newNode, true)
        else
          h_updateHeightSize newNode;;
          newNode ← h_reBalance version cowVersion newNode;
          mret (newNode, false)
  end.

Definition h_set (fuel : nat) (root : option NodeRef) (key value : bytes) (version cowVersion : Z)
    : ST (nat * bool) :=
  match root with
  | None => l ← h_newLeafNode key value version; mret (l, true)
  | Some x => h_setRecursive fuel x key value version cowVersion
  end.

Fixpoint h_removeRecursive (fuel : nat) (node : NodeRef) (key : bytes) (version cowVersion : Z)
    : ST (option bytes * option NodeRef * option bytes) :=
  match fuel with
  | O => fun _ => out_of_fuel
  | S fuel =>
      leaf ← lift (fun σ => ref_IsLeaf σ node);
      nodeKey ← lift (fun σ => ref_Key σ node);
      if leaf : bool then
        if decide (nodeKey = key) then
          value ← lift (fun σ => ref_Value σ node);
          mret (value, None, None)
        else mret (None, Some node, None)
      else
        match Compare key nodeKey with
        | Lt =>
            left ← lift (fun σ => ref_Left σ node);
            '(value, newLeft, newKey) ← h_removeRecursive fuel left key version cowVersion;
            match value, newLeft with
            | None, _ => mret (None, Some node, None)
            | Some _, None =>
                right ← lift (fun σ => ref_Right σ node);
                nodeKey ← lift (fun σ => ref_Key σ node);
                mret (value, Some right, Some nodeKey)
            | Some _, Some y =>
                newNode ← h_Mutate version cowVersion node;
                modify newNode (set_left (Some y));;
                h_updateHeightSize newNode;;
                newNode ← h_reBalance version cowVersion newNode;
                mret (value, Some (Mem newNode), newKey)
            end
        | _ =>
            right ← lift (fun σ => ref_Right σ node);
            '(value, newRight, newKey) ← h_removeRecursive fuel right key version cowVersion;
            match value, newRight with
            | None, _ => mret (None, Some node, None)
            | Some _, None =>
                left ← lift (fun σ => ref_Left σ node);
                mret (value, Some left, None)
            | Some _, Some y =>
                newNode ← h_Mutate version cowVersion node;
                modify newNode (set_right (Some y));;
                match newKey with Some k => modify newNode (set_key k) | None => mret () end;;
                h_updateHeightSize newNode;;
                newNode ← h_reBalance version cowVersion newNode;
                mret (value, Some (Mem newNode), None)
            end
        end
  end.

Definition h_remove (fuel : nat) (root : option NodeRef) (key : bytes) (version cowVersion : Z)
    : ST (option bytes * option NodeRef * option bytes) :=
  match root with
  | None => mret (None, None, None)
  | Some x => h_removeRecursive fuel x key version cowVersion
  end.

(** ** Hashes *)

Definition set_hash (h : bytes) (n : MemNode) : MemNode :=
  {| m_height := m_height n; m_size := m_size n; m_version := m_version n; m_key := m_key n;
     m_value := m_value n; m_left := m_left n; m_right := m_right n; m_hash := Some h |}.

(** [Hash]: a cell caches its hash; [HashNode] asks the children for theirs. *)
Fixpoint h_Hash (fuel : nat) (x : NodeRef) : ST bytes :=
  match fuel with
  | O => fun _ => out_of_fuel
  | S fuel =>
      match x with
      | Pers p => lift (fun _ => Persisted.Hash snap p)
      | Mem l =>
          n ← load l;
          match m_hash n with
          | Some hash => mret hash
          | None =>
              hash ←
                (if m_height n =? 0 then
                   mret (Sha256.Sum256 (leaf_hash_bytes (m_height n) (m_size n) (m_version n)
                           (m_key n) (default [] (m_value n))))
                 else
                   left ← deref (m_left n);
                   lh ← h_Hash fuel left;
                   right ← deref (m_right n);
                   rh ← h_Hash fuel right;
                   mret (Sha256.Sum256 (branch_hash_bytes (m_height n) (m_size n) (m_version n) lh rh)));
              modify l (set_hash hash);;
              mret hash
          end
      end
  end.

(** ** The tree *)

Record MemTree : Type := {
  t_version : Z;
  t_cowVersion : Z;
  t_root : option NodeRef
}.

Definition h_tree_set (fuel : nat) (t : MemTree) (key : bytes) (value : option bytes) : ST MemTree :=
  let value := default [] value in
  '(l, _) ← h_set fuel (t_root t) key value (u64 (t_version t + 1)) (t_cowVersion t);
  mret {| t_version := t_version t; t_cowVersion := t_cowVersion t; t_root := Some (Mem l) |}.

Definition h_tree_remove (fuel : nat) (t : MemTree) (key : bytes) : ST MemTree :=
  '(_, root, _) ← h_remove fuel (t_root t) key (u64 (t_version t + 1)) (t_cowVersion t);
  mret {| t_version := t_version t; t_cowVersion := t_cowVersion t; t_root := root |}.

Definition h_RootHash (fuel : nat) (t : MemTree) : ST bytes :=
  match t_root t with None => mret emptyHash | Some x => h_Hash fuel x end.

Definition h_SaveVersion (fuel : nat) (t : MemTree) (updateHash : bool) : ST (option bytes * MemTree) :=
  if MaxInt64 <? u64 (t_version t + 1) then fun _ => Err "version overflows int64"
  else
    hash ← (if updateHash then h ← h_RootHash fuel t; mret (Some h) else mret None);
    mret (hash, {| t_version := u64 (t_version t + 1); t_cowVersion := t_cowVersion t; t_root := t_root t |}).

(** [Copy]: the tree after the call, and the copy. *)
Definition h_Copy (t : MemTree) : MemTree * MemTree :=
  let cow := match t_root t with Some (Mem _) => t_version t | _ => t_cowVersion t end in
  let t' := {| t_version := t_version t; t_cowVersion := cow; t_root := t_root t |} in
  (t', {| t_version := t_version t; t_cowVersion := cow; t_root := t_root t |}).
End heap.
