(* ===== verification/HeapInv.v ===== *)
(** * The heap operations implement the operations on trees

    [repr σ cow x n o]: in heap [σ] the reference [x] denotes the tree [n], and [o] is
    the set of cells of [n] that may be modified in place under [cowVersion = cow].
    Mutable cells belong to one place of one tree; cells with a version of at most
    [cow] may be shared with other trees.  Each operation computes the tree of
    Node.v, modifies only mutable cells of its argument, and allocates. *)

From Stdlib Require Import Strings.Byte ZArith Lia.
From stdpp Require Import base list numbers strings gmap sorting.
From S2P Require Import Prelude Binary Sha256 Node NodeInv NodeIface Sort Snapshot SnapshotInv Heap.
Local Open Scope Z_scope.

(** ** Evolution of the heap *)

(** Only cells of [o] are modified, and [o'] has cells of [o] and new cells. *)
Record evolves (σ σ' : Heap) (o o' : gset nat) : Prop := {
  ev_length : (length σ <= length σ')%nat;
  ev_same l : (l < length σ)%nat -> l ∉ o -> σ' !! l = σ !! l;
  ev_owned l : l ∈ o' -> l ∈ o \/ (length σ <= l)%nat
}.

Lemma evolves_refl σ o : evolves σ σ o o.
Proof. split; auto. Qed.

Lemma evolves_trans σ σ1 σ2 o o1 o2 :
  evolves σ σ1 o o1 -> evolves σ1 σ2 o1 o2 -> evolves σ σ2 o o2.
Proof.
  intros [L1 S1 O1] [L2 S2 O2]. split; [lia| |].
  - intros l Hl Ho. rewrite S2, S1; [done..|lia|]. intros Hl'. apply O1 in Hl' as [?|?]; [done|lia].
  - intros l Hl. apply O2 in Hl as [Hl|Hl]; [|right; lia]. apply O1 in Hl as [?|?]; auto.
Qed.

(** A larger set of cells may be given to an operation. *)
Lemma evolves_frame σ σ' o o' f :
  evolves σ σ' o o' -> evolves σ σ' (o ∪ f) (o' ∪ f).
Proof.
  intros [L S O]. split; [done| |].
  - intros l Hl Ho. apply S; [done|]. set_solver.
  - intros l [Hl|Hl]%elem_of_union; [|set_solver]. apply O in Hl as [?|?]; set_solver.
Qed.

Lemma evolves_weaken σ σ' o o' p p' :
  evolves σ σ' o o' -> o ⊆ p -> p' ⊆ o' ∪ p -> evolves σ σ' p p'.
Proof.
  intros [L S O] Ho Hp. split; [done| |].
  - intros l Hl Hn. apply S; [done|]. set_solver.
  - intros l Hl. apply Hp in Hl. apply elem_of_union in Hl as [Hl|Hl]; [|by left].
    apply O in Hl as [?|?]; [left; set_solver|by right].
Qed.

(** ** Running the state monad *)

Lemma st_bind_ok {A B} (m : ST A) (f : A -> ST B) σ a σ' :
  m σ = Ok (a, σ') -> (m ≫= f) σ = f a σ'.
Proof. intros E. unfold mbind, ST_bind. by rewrite E. Qed.

Lemma lift_ok {A} (r : Heap -> res A) σ a : r σ = Ok a -> lift r σ = Ok (a, σ).
Proof. intros E. unfold lift. by rewrite E. Qed.

Lemma load_ok l σ c : σ !! l = Some c -> load l σ = Ok (c, σ).
Proof. intros E. unfold load. by rewrite E. Qed.

Lemma deref_ok x σ : deref (Some x) σ = Ok (x, σ).
Proof. done. Qed.

Lemma modify_ok l f σ c : σ !! l = Some c -> modify l f σ = Ok ((), <[l:=f c]> σ).
Proof. intros E. unfold modify. by rewrite (st_bind_ok _ _ _ _ _ (load_ok _ _ _ E)). Qed.

(** One step: the first action of the goal returns by the given fact or by the
    lemma on its primitive. *)
Ltac st_step H :=
  first [ erewrite st_bind_ok by exact H
        | erewrite st_bind_ok by (apply lift_ok; exact H)
        | erewrite st_bind_ok by (apply load_ok; exact H)
        | erewrite st_bind_ok by (apply modify_ok; exact H)
        | erewrite st_bind_ok by (apply deref_ok) ];
  cbv beta iota.

Section repr.
  Variable snap : Snapshot.

(** ** Representation *)

Definition cell_ok (c : MemNode) (n : Node) : Prop :=
  m_height c = Height n /\ m_size c = Size n /\ m_version c = Version n /\ m_key c = Key n /\
  m_value c = Value n /\ (m_hash c = None \/ m_hash c = Some (HashNode n)).

(** The cell itself, when it may be modified in place. *)
Definition own (cow : Z) (l : nat) (c : MemNode) : gset nat :=
  if m_version c <=? cow then ∅ else {[l]}.

Fixpoint repr (σ : Heap) (cow : Z) (x : NodeRef) (n : Node) (o : gset nat) : Prop :=
  match x with
  | Pers p => persisted snap p n /\ o = ∅
  | Mem l =>
      exists c, σ !! l = Some c /\ cell_ok c n /\
      match n with
      | Leaf _ _ _ => o = own cow l c
      | Branch _ _ _ _ nl nr =>
          exists xl xr ol or,
            m_left c = Some xl /\ m_right c = Some xr /\
            repr σ cow xl nl ol /\ repr σ cow xr nr or /\
            ol ## or /\ l ∉ ol /\ l ∉ or /\ o = own cow l c ∪ (ol ∪ or)
      end
  end.

(** The owned cells exist and are mutable. *)
Lemma repr_owned σ cow x n o l :
  repr σ cow x n o -> l ∈ o -> exists c, σ !! l = Some c /\ cow < m_version c.
Proof.
  revert x o. induction n as [v k w|h s v k nl IHl nr IHr]; intros [i|p] o; simpl.
  - intros (c & Hc & _ & ->). unfold own. case_match; [set_solver|].
    intros ->%elem_of_singleton. exists c. split; [done|]. lia.
  - intros [_ ->]. set_solver.
  - intros (c & Hc & _ & xl & xr & ol & or & _ & _ & Rl & Rr & _ & _ & _ & ->).
    intros [Hl|[Hl|Hl]%elem_of_union]%elem_of_union; [|by eapply IHl|by eapply IHr].
    unfold own in Hl. case_match; [set_solver|]. apply elem_of_singleton in Hl as ->.
    exists c. split; [done|]. lia.
  - intros [_ ->]. set_solver.
Qed.

Lemma repr_bound σ cow x n o l : repr σ cow x n o -> l ∈ o -> (l < length σ)%nat.
Proof.
  intros Hr Hl. destruct (repr_owned _ _ _ _ _ _ Hr Hl) as (c & Hc & _). by eapply lookup_lt_Some.
Qed.

(** A tree is not affected by changes to mutable cells of other trees. *)
Lemma repr_frame σ σ' cow x n o m m' :
  repr σ cow x n o -> evolves σ σ' m m' ->
  (forall l, l ∈ m -> exists c, σ !! l = Some c /\ cow < m_version c) -> o ## m ->
  repr σ' cow x n o.
Proof.
  intros Hr Hev Hm. revert x o Hr. induction n as [v k w|h s v k nl IHl nr IHr]; intros [i|p] o; simpl; try done.
  - intros (c & Hc & Hok & Ho) Hd. exists c. split; [|done].
    rewrite (ev_same _ _ _ _ Hev); [done|by eapply lookup_lt_Some|].
    intros Hi. destruct (Hm i Hi) as (c' & Hc' & Hv). simplify_eq.
    unfold own in Hd. rewrite (proj2 (Z.leb_gt _ _)) in Hd by lia. set_solver.
  - intros (c & Hc & Hok & xl & xr & ol & or & El & Er & Rl & Rr & Dlr & Dl & Dr & ->) Hd.
    exists c. split.
    + rewrite (ev_same _ _ _ _ Hev); [done|by eapply lookup_lt_Some|].
      intros Hi. destruct (Hm i Hi) as (c' & Hc' & Hv). simplify_eq.
      unfold own in Hd. rewrite (proj2 (Z.leb_gt _ _)) in Hd by lia. set_solver.
    + split; [done|]. exists xl, xr, ol, or. split; [done|]. split; [done|].
      split; [apply IHl; [done|set_solver]|]. split; [apply IHr; [done|set_solver]|]. done.
Qed.

(** Disjoint trees stay disjoint when one of them evolves. *)
Lemma repr_disjoint σ σ' cow x n o m m' :
  repr σ cow x n o -> evolves σ σ' m m' -> o ## m -> o ## m'.
Proof.
  intros Hr Hev Hd l Hl Hl'. apply (ev_owned _ _ _ _ Hev) in Hl' as [?|Hge]; [set_solver|].
  pose proof (repr_bound _ _ _ _ _ _ Hr Hl). lia.
Qed.

(** ** Reading a represented node *)

Lemma repr_reads σ cow x n o :
  repr σ cow x n o ->
  ref_Height snap σ x = Ok (Height n) /\ ref_Size snap σ x = Ok (Size n) /\
  ref_Key snap σ x = Ok (Key n) /\ ref_Value snap σ x = Ok (Value n).
Proof.
  destruct x as [l|p]; intros Hr.
  - assert (exists c, σ !! l = Some c /\ cell_ok c n) as (c & Hc & E1 & E2 & E3 & E4 & E5 & _).
    { destruct n; destruct Hr as (c & ? & ? & _); eauto. }
    unfold ref_Height, ref_Size, ref_Key, ref_Value, cell. rewrite Hc. simpl.
    by rewrite E1, E2, E4, E5.
  - assert (persisted snap p n) as Hp by (destruct n; apply Hr).
    destruct Hp as (lc & bc & Hp). pose proof (persists_reads _ _ _ _ _ Hp) as [R1 R2 R3 R4 R5 R6 _].
    done.
Qed.

(** A branch is recognised by its height. *)
Lemma repr_IsLeaf σ cow x n o : repr σ cow x n o -> fields_ok n -> ref_IsLeaf σ x = Ok (IsLeaf n).
Proof.
  destruct x as [l|p]; intros Hr Fn.
  - destruct n as [|h s v k nl nr]; destruct Hr as (c & Hc & (E1 & _) & _);
      unfold ref_IsLeaf, cell; rewrite Hc; simpl; rewrite E1; [done|].
    destruct Fn as (-> & _). simpl.
    pose proof (height_nonneg nl). pose proof (height_nonneg nr). f_equal. apply Z.eqb_neq. lia.
  - assert (persisted snap p n) as (lc & bc & Hp) by (destruct n; apply Hr).
    apply (reads_IsLeaf _ _ (persists_reads _ _ _ _ _ Hp)).
Qed.

(** ** The cell of a reference, as [Mutate] copies it *)

Definition mcell (σ : Heap) (x : NodeRef) (c : MemNode) : Prop :=
  match x with
  | Mem l => σ !! l = Some c
  | Pers p => forall ver, persisted_cell snap ver p = Ok (set_version ver c)
  end.

Definition ref_own (cow : Z) (x : NodeRef) (c : MemNode) : gset nat :=
  match x with Mem l => own cow l c | Pers _ => ∅ end.

Lemma repr_open_leaf σ cow x v k w o :
  repr σ cow x (Leaf v k w) o ->
  exists c, mcell σ x c /\ cell_ok c (Leaf v k w) /\ o = ref_own cow x c.
Proof.
  destruct x as [l|p]; simpl; [done|]. intros [(lc & bc & Hp) ->].
  destruct Hp as [-> (data & off & _ & _ & _ & _ & _ & Ekv & _) _ _ _]. simpl in *.
  exists {| m_height := 0; m_size := 1; m_version := v; m_key := k; m_value := Some w;
    m_left := None; m_right := None; m_hash := None |}.
  split; [|by repeat split; auto]. intros ver. unfold persisted_cell. simpl. rewrite Ekv. done.
Qed.

Lemma repr_open σ cow x h s v k nl nr o :
  let n := Branch h s v k nl nr in
  repr σ cow x n o ->
  exists c xl xr ol or,
    mcell σ x c /\ cell_ok c n /\ m_left c = Some xl /\ m_right c = Some xr /\
    repr σ cow xl nl ol /\ repr σ cow xr nr or /\ ol ## or /\
    ref_own cow x c ## ol ∪ or /\ (forall l, x = Mem l -> l ∉ ol ∪ or) /\
    o = ref_own cow x c ∪ (ol ∪ or) /\
    ref_Left snap σ x = Ok xl /\ ref_Right snap σ x = Ok xr.
Proof.
  intros n. destruct x as [l|p]; simpl.
  - intros (c & Hc & Hok & xl & xr & ol & or & El & Er & Rl & Rr & D1 & D2 & D3 & ->).
    exists c, xl, xr, ol, or. unfold cell. rewrite Hc. simpl. rewrite El, Er.
    do 7 (split; [done|]). split; [unfold own; case_match; set_solver|].
    split; [intros ? [= <-]; set_solver|]. done.
  - intros [(lc & bc & Hp) ->].
    destruct (persists_Left _ _ _ _ _ _ _ _ _ _ Hp) as (yl & El & Pl).
    destruct (persists_Right _ _ _ _ _ _ _ _ _ _ Hp) as (yr & Er & Pr).
    pose proof (persists_reads _ _ _ _ _ Hp) as [R1 R2 R3 R4 R5 R6 _].
    exists {| m_height := h; m_size := s; m_version := v; m_key := k; m_value := None;
      m_left := Some (Pers yl); m_right := Some (Pers yr); m_hash := None |}.
    exists (Pers yl), (Pers yr), ∅, ∅. rewrite El, Er. split.
    + intros ver. unfold persisted_cell. assert (isLeaf p = false) as -> by (by injection R2).
      simpl in R1, R3, R5. unfold Persisted.Height, Persisted.Size in R1, R3.
      assert (Hl : isLeaf p = false) by (by injection R2). rewrite Hl in R1, R3.
      destruct (Persisted.branchNode snap p) as [data| |]; simpl in *; try done.
      rewrite R1. simpl. rewrite R3. simpl. rewrite R5. simpl. rewrite El. simpl. rewrite Er. done.
    + split; [by repeat split; auto|]. do 2 (split; [done|]).
      split; [destruct nl; by split; [exists lc, bc|]|].
      split; [destruct nr; by split; [eexists _, _|]|].
      split; [set_solver|]. split; [set_solver|]. split; [done|]. split; [set_solver|]. done.
Qed.

Lemma repr_close_leaf σ cow l c n :
  σ !! l = Some c -> IsLeaf n = true -> cell_ok c n -> repr σ cow (Mem l) n (own cow l c).
Proof. intros Hc Hn Hok. destruct n; [|done]. simpl. eauto. Qed.

(** ** The primitive writes *)

Lemma evolves_store σ l c : (l < length σ)%nat -> evolves σ (<[l:=c]> σ) {[l]} {[l]}.
Proof.
  intros Hl. split.
  - by rewrite length_insert.
  - intros l' _ Hne. rewrite list_lookup_insert_ne by set_solver. done.
  - auto.
Qed.

Lemma evolves_alloc σ c : evolves σ (σ ++ [c]) ∅ {[length σ]}.
Proof.
  split.
  - rewrite length_app. lia.
  - intros l Hl _. by apply lookup_app_l.
  - intros l ->%elem_of_singleton. by right.
Qed.

(** [Mutate] returns a cell that may be modified in place. *)
Lemma h_Mutate_spec σ cow x c ver :
  mcell σ x c ->
  exists l σ', h_Mutate snap ver cow x σ = Ok (l, σ') /\
    σ' !! l = Some (set_version ver c) /\ evolves σ σ' (ref_own cow x c) {[l]} /\
    ref_Left snap σ' x = ref_Left snap σ x /\ ref_Right snap σ' x = ref_Right snap σ x.
Proof.
  destruct x as [i|p]; simpl; intros Hc.
  - unfold mbind, ST_bind, load. rewrite Hc. unfold own. pose proof (lookup_lt_Some _ _ _ Hc).
    destruct (m_version c <=? cow).
    + eexists _, _. split; [reflexivity|]. split; [by rewrite lookup_app_r, Nat.sub_diag|].
      split; [apply evolves_alloc|]. unfold cell. by rewrite lookup_app_l.
    + eexists _, _. split; [reflexivity|]. split; [by rewrite list_lookup_insert_eq|].
      split; [by apply evolves_store|]. unfold cell. rewrite list_lookup_insert_eq by done.
      by rewrite Hc.
  - unfold mbind, ST_bind, lift. rewrite Hc. eexists _, _. split; [reflexivity|].
    split; [by rewrite lookup_app_r, Nat.sub_diag|]. split; [apply evolves_alloc|]. done.
Qed.

(** ** A branch whose cell is being modified *)

Definition branch_cell (h s v : Z) (k : bytes) (xl xr : NodeRef) : MemNode :=
  {| m_height := h; m_size := s; m_version := v; m_key := k; m_value := None;
     m_left := Some xl; m_right := Some xr; m_hash := None |}.

(** The cell is mutable, its hash was dropped, and its children are represented. *)
Record open_branch (σ : Heap) (cow : Z) (l : nat) (h s v : Z) (k : bytes) (xl xr : NodeRef)
    (nl nr : Node) (ol or : gset nat) : Prop := {
  ob_cell : σ !! l = Some (branch_cell h s v k xl xr);
  ob_version : cow < v;
  ob_left : repr σ cow xl nl ol;
  ob_right : repr σ cow xr nr or;
  ob_disjoint : ol ## or;
  ob_l : l ∉ ol;
  ob_r : l ∉ or
}.

Lemma open_branch_repr σ cow l h s v k xl xr nl nr ol or :
  open_branch σ cow l h s v k xl xr nl nr ol or ->
  repr σ cow (Mem l) (Branch h s v k nl nr) ({[l]} ∪ (ol ∪ or)).
Proof.
  intros [Hc Hv Rl Rr D Dl Dr]. simpl. eexists. split; [exact Hc|]. split; [by repeat split; auto|].
  exists xl, xr, ol, or. do 7 (split; [done|]).
  unfold own. simpl. by rewrite (proj2 (Z.leb_gt v cow)).
Qed.

(** Writing a mutable cell leaves the trees that do not own it alone. *)
Lemma repr_store σ cow l c c' x n o :
  σ !! l = Some c -> cow < m_version c -> repr σ cow x n o -> l ∉ o ->
  repr (<[l:=c']> σ) cow x n o.
Proof.
  intros Hc Hv Hr Hl. eapply repr_frame; [done|eapply evolves_store, lookup_lt_Some, Hc| |set_solver].
  intros l' ->%elem_of_singleton. eauto.
Qed.

Lemma open_branch_store σ cow l h s v k xl xr nl nr ol or h' s' k' :
  open_branch σ cow l h s v k xl xr nl nr ol or ->
  open_branch (<[l:=branch_cell h' s' v k' xl xr]> σ) cow l h' s' v k' xl xr nl nr ol or.
Proof.
  intros [Hc Hv Rl Rr D Dl Dr]. pose proof (lookup_lt_Some _ _ _ Hc).
  split; try done; [by rewrite list_lookup_insert_eq|by eapply repr_store..].
Qed.

Lemma open_branch_evolves σ cow l h s v k xl xr nl nr ol or c :
  open_branch σ cow l h s v k xl xr nl nr ol or ->
  evolves σ (<[l:=c]> σ) ({[l]} ∪ (ol ∪ or)) ({[l]} ∪ (ol ∪ or)).
Proof.
  intros Ho. apply evolves_frame, evolves_store. by eapply lookup_lt_Some, ob_cell.
Qed.

Lemma h_updateHeightSize_spec σ cow l h s v k xl xr nl nr ol or :
  open_branch σ cow l h s v k xl xr nl nr ol or ->
  let h' := u8 (Z.max (Height nl) (Height nr) + 1) in
  let s' := i64 (Size nl + Size nr) in
  h_updateHeightSize snap l σ = Ok ((), <[l:=branch_cell h' s' v k xl xr]> σ).
Proof.
  intros Ho h' s'. pose proof (ob_cell _ _ _ _ _ _ _ _ _ _ _ _ _ Ho) as Hc.
  destruct (repr_reads _ _ _ _ _ (ob_left _ _ _ _ _ _ _ _ _ _ _ _ _ Ho)) as (L1 & L2 & _).
  destruct (repr_reads _ _ _ _ _ (ob_right _ _ _ _ _ _ _ _ _ _ _ _ _ Ho)) as (R1 & R2 & _).
  unfold h_updateHeightSize. st_step Hc. cbn [branch_cell m_left m_right].
  st_step I. st_step I. st_step L1. st_step R1. st_step L2. st_step R2.
  by rewrite (modify_ok _ _ _ _ Hc).
Qed.

(** Opening a branch for modification: the effect of [Mutate]. *)
Lemma h_Mutate_branch σ cow x h s v k nl nr o ver :
  repr σ cow x (Branch h s v k nl nr) o -> cow < ver ->
  exists l σ' xl xr ol or,
    h_Mutate snap ver cow x σ = Ok (l, σ') /\
    open_branch σ' cow l h s ver k xl xr nl nr ol or /\
    evolves σ σ' o ({[l]} ∪ (ol ∪ or)) /\
    ref_Left snap σ' x = Ok xl /\ ref_Right snap σ' x = Ok xr.
Proof.
  intros Hr Hv.
  destruct (repr_open _ _ _ _ _ _ _ _ _ _ Hr)
    as (c & xl & xr & ol & or & Hc & Hok & El & Er & Rl & Rr & D & Do & Dx & -> & EL & ER).
  destruct (h_Mutate_spec σ cow x c ver Hc) as (l & σ' & E & Hl & Hev & EL' & ER').
  assert (Hm : forall i, i ∈ ref_own cow x c -> exists c', σ !! i = Some c' /\ cow < m_version c').
  { intros i Hi. eapply repr_owned; [exact Hr|]. set_solver. }
  assert (Dl : l ∉ ol ∪ or).
  { intros Hin. assert (Hb : (l < length σ)%nat).
    { apply elem_of_union in Hin as [Hin|Hin];
        [by apply (repr_bound _ _ _ _ _ _ Rl)|by apply (repr_bound _ _ _ _ _ _ Rr)]. }
    destruct (ev_owned _ _ _ _ Hev l) as [?|?]; [set_solver|set_solver|lia]. }
  exists l, σ', xl, xr, ol, or. split; [done|]. split; [|split].
  - destruct Hok as (H1 & H2 & H3 & H4 & H5 & _). split; try done; [| | |set_solver..].
    + rewrite Hl. unfold set_version, branch_cell. simpl in *. by rewrite H1, H2, H4, H5, El, Er.
    + eapply repr_frame; [exact Rl|exact Hev|done|set_solver].
    + eapply repr_frame; [exact Rr|exact Hev|done|set_solver].
  - by apply evolves_frame.
  - by rewrite EL', ER', EL, ER.
Qed.

(** Writing another mutable cell leaves an open branch open. *)
Lemma open_branch_other σ cow l h s v k xl xr nl nr ol or l' c c' :
  open_branch σ cow l h s v k xl xr nl nr ol or ->
  σ !! l' = Some c -> cow < m_version c -> l' <> l -> l' ∉ ol ∪ or ->
  open_branch (<[l':=c']> σ) cow l h s v k xl xr nl nr ol or.
Proof.
  intros [Hc Hv Rl Rr D Dl Dr] Hc' Hv' Hne Hd.
  split; try done; [by rewrite list_lookup_insert_ne|eapply repr_store; set_solver..].
Qed.

(** After [Mutate] on the child [x] of an open branch, the other child and the cell of
    the branch are as before. *)
Lemma frame_child σ σ1 cow l c x n o y m om o' :
  repr σ cow x n o -> repr σ cow y m om -> om ## o -> σ !! l = Some c -> l ∉ o ->
  evolves σ σ1 o o' ->
  repr σ1 cow y m om /\ om ## o' /\ σ1 !! l = Some c /\ l ∉ o'.
Proof.
  intros Hx Hy D Hc Hl Hev. pose proof (lookup_lt_Some _ _ _ Hc).
  split; [|split; [|split]].
  - eapply repr_frame; [exact Hy|exact Hev| |done]. intros i Hi. by apply (repr_owned _ _ _ _ _ _ Hx).
  - by apply (repr_disjoint _ _ _ _ _ _ _ _ Hy Hev).
  - by rewrite (ev_same _ _ _ _ Hev).
  - intros Hin. apply (ev_owned _ _ _ _ Hev) in Hin as [?|?]; [done|lia].
Qed.

(** The last two steps of a rotation: the demoted cell [l] is updated, then the promoted
    cell [p] whose children are [x] and [l], in one order or the other. *)
Lemma rotate_finish (toRight : bool) σ cow l h s v k xl xr nl nr ol or p ph ps pv pk x n o :
  open_branch σ cow l h s v k xl xr nl nr ol or ->
  σ !! p = Some (if toRight then branch_cell ph ps pv pk x (Mem l) else branch_cell ph ps pv pk (Mem l) x) ->
  cow < pv -> repr σ cow x n o -> p <> l -> p ∉ ol ∪ or -> p ∉ o -> l ∉ o -> o ## ol ∪ or ->
  let node := Node.updateHeightSize (Branch h s v k nl nr) in
  exists σ',
    (h_updateHeightSize snap l;; h_updateHeightSize snap p;; mret p) σ = Ok (p, σ') /\
    repr σ' cow (Mem p)
      (Node.updateHeightSize (if toRight then Branch ph ps pv pk n node else Branch ph ps pv pk node n))
      ({[p]} ∪ (o ∪ ({[l]} ∪ (ol ∪ or)))) /\
    evolves σ σ' ({[p]} ∪ (o ∪ ({[l]} ∪ (ol ∪ or)))) ({[p]} ∪ (o ∪ ({[l]} ∪ (ol ∪ or)))).
Proof.
  intros Ho Hp Hv Hx Hne Dp Dpo Dlo Do node.
  set (c' := branch_cell (u8 (Z.max (Height nl) (Height nr) + 1)) (i64 (Size nl + Size nr)) v k xl xr).
  set (σ1 := <[l:=c']> σ).
  assert (Ho1 : open_branch σ1 cow l (Height node) (Size node) v k xl xr nl nr ol or).
  { eapply open_branch_store. exact Ho. }
  assert (Rl : repr σ1 cow (Mem l) node ({[l]} ∪ (ol ∪ or))) by (apply (open_branch_repr _ _ _ _ _ _ _ _ _ _ _ _ _ Ho1)).
  assert (Rx : repr σ1 cow x n o).
  { eapply repr_store; [apply (ob_cell _ _ _ _ _ _ _ _ _ _ _ _ _ Ho)|simpl; apply Ho|done|done]. }
  pose proof (lookup_lt_Some _ _ _ (ob_cell _ _ _ _ _ _ _ _ _ _ _ _ _ Ho)) as Hlen.
  assert (E1 : evolves σ σ1 ({[p]} ∪ (o ∪ ({[l]} ∪ (ol ∪ or)))) ({[p]} ∪ (o ∪ ({[l]} ∪ (ol ∪ or))))).
  { eapply evolves_weaken; [by apply evolves_store|set_solver|set_solver]. }
  pose proof (lookup_lt_Some _ _ _ Hp) as Hplen.
  assert (Hp1 : σ1 !! p = σ !! p) by (unfold σ1; by rewrite list_lookup_insert_ne).
  assert (Ev2 : forall c2, evolves σ1 (<[p:=c2]> σ1) ({[p]} ∪ (o ∪ ({[l]} ∪ (ol ∪ or)))) ({[p]} ∪ (o ∪ ({[l]} ∪ (ol ∪ or))))).
  { intros c2. eapply evolves_weaken; [apply evolves_store|set_solver|set_solver].
    unfold σ1. by rewrite length_insert. }
  st_step (h_updateHeightSize_spec _ _ _ _ _ _ _ _ _ _ _ _ _ Ho). fold c' σ1.
  destruct toRight.
  - assert (Hp2 : open_branch σ1 cow p ph ps pv pk x (Mem l) n node o ({[l]} ∪ (ol ∪ or))).
    { split; try done; [by rewrite Hp1|set_solver..]. }
    st_step (h_updateHeightSize_spec _ _ _ _ _ _ _ _ _ _ _ _ _ Hp2).
    eexists. split; [reflexivity|]. split; [|by eapply evolves_trans].
    apply (open_branch_repr _ _ _ _ _ _ _ _ _ _ _ _ _ (open_branch_store _ _ _ _ _ _ _ _ _ _ _ _ _ _ _ _ Hp2)).
  - assert (Hp2 : open_branch σ1 cow p ph ps pv pk (Mem l) x node n ({[l]} ∪ (ol ∪ or)) o).
    { split; try done; [by rewrite Hp1|set_solver..]. }
    st_step (h_updateHeightSize_spec _ _ _ _ _ _ _ _ _ _ _ _ _ Hp2).
    eexists. split; [reflexivity|]. split; [|by eapply evolves_trans].
    rewrite (union_comm_L o).
    apply (open_branch_repr _ _ _ _ _ _ _ _ _ _ _ _ _ (open_branch_store _ _ _ _ _ _ _ _ _ _ _ _ _ _ _ _ Hp2)).
Qed.

Lemma h_rotateRight_spec σ cow l h s v k xl xr lh ls lv lk a b nr ol or ver :
  open_branch σ cow l h s v k xl xr (Branch lh ls lv lk a b) nr ol or -> cow < ver ->
  exists p σ' o', h_rotateRight snap ver cow l σ = Ok (p, σ') /\
    repr σ' cow (Mem p) (Node.rotateRight ver (Branch h s v k (Branch lh ls lv lk a b) nr)) o' /\
    evolves σ σ' ({[l]} ∪ (ol ∪ or)) o'.
Proof.
  intros [Hc Hv Rl Rr D Dl Dr] Hver.
  destruct (h_Mutate_branch _ _ _ _ _ _ _ _ _ _ ver Rl Hver)
    as (p & σ1 & xa & xb & oa & ob & EM & Ho1 & Hev & _ & ER).
  destruct (frame_child _ _ _ _ _ _ _ _ _ _ _ _ Rl Rr (symmetry D) Hc Dl Hev) as (Rr1 & Dr1 & Hc1 & Dl1).
  destruct Ho1 as [Hp _ Ra Rb Dab Dpa Dpb].
  set (σ2 := <[l:=branch_cell h s v k xb xr]> σ1).
  assert (Ho2 : open_branch σ2 cow l h s v k xb xr b nr ob or).
  { pose proof (lookup_lt_Some _ _ _ Hc1). unfold σ2.
    split; [by rewrite list_lookup_insert_eq|done| | |set_solver..];
      (eapply repr_store; [exact Hc1|done|done|set_solver]). }
  assert (Hp2 : σ2 !! p = Some (branch_cell lh ls ver lk xa xb))
    by (unfold σ2; rewrite list_lookup_insert_ne by set_solver; done).
  set (σ3 := <[p:=branch_cell lh ls ver lk xa (Mem l)]> σ2).
  destruct (rotate_finish true σ3 cow l h s v k xb xr b nr ob or p lh ls ver lk xa a oa)
    as (σ' & EF & RF & EvF); [| |done| |set_solver..|].
  { eapply open_branch_other; [exact Ho2|exact Hp2|done|set_solver|set_solver]. }
  { unfold σ3. rewrite list_lookup_insert_eq; [done|]. by eapply lookup_lt_Some. }
  { unfold σ3, σ2. eapply repr_store; [exact Hp2|done| |set_solver].
    eapply repr_store; [exact Hc1|done|done|set_solver]. }
  exists p, σ', ({[p]} ∪ (oa ∪ ({[l]} ∪ (ob ∪ or)))). split; [|split; [exact RF|]].
  - unfold h_rotateRight. st_step Hc. cbn [branch_cell m_left]. st_step I. st_step EM. st_step ER.
    st_step Hc1. st_step Hp2. exact EF.
  - eapply evolves_trans; [|exact EvF]. eapply evolves_trans with (σ1 := σ1) (o1 := {[l]} ∪ ({[p]} ∪ (oa ∪ ob) ∪ or)).
    { replace ({[l]} ∪ (ol ∪ or)) with (ol ∪ ({[l]} ∪ or)) by set_solver.
      replace ({[l]} ∪ ({[p]} ∪ (oa ∪ ob) ∪ or)) with ({[p]} ∪ (oa ∪ ob) ∪ ({[l]} ∪ or)) by set_solver.
      by apply evolves_frame. }
    eapply evolves_trans with (σ1 := σ2).
    { eapply evolves_weaken; [apply evolves_store; by eapply lookup_lt_Some|set_solver|]. reflexivity. }
    eapply evolves_weaken; [apply evolves_store; by eapply lookup_lt_Some|set_solver|set_solver].
Qed.

Lemma h_rotateLeft_spec σ cow l h s v k xl xr nl rh rs rv rk a b ol or ver :
  open_branch σ cow l h s v k xl xr nl (Branch rh rs rv rk a b) ol or -> cow < ver ->
  exists p σ' o', h_rotateLeft snap ver cow l σ = Ok (p, σ') /\
    repr σ' cow (Mem p) (Node.rotateLeft ver (Branch h s v k nl (Branch rh rs rv rk a b))) o' /\
    evolves σ σ' ({[l]} ∪ (ol ∪ or)) o'.
Proof.
  intros [Hc Hv Rl Rr D Dl Dr] Hver.
  destruct (h_Mutate_branch _ _ _ _ _ _ _ _ _ _ ver Rr Hver)
    as (p & σ1 & xa & xb & oa & ob & EM & Ho1 & Hev & EL & _).
  destruct (frame_child _ _ _ _ _ _ _ _ _ _ _ _ Rr Rl D Hc Dr Hev) as (Rl1 & Dl1 & Hc1 & Dr1).
  destruct Ho1 as [Hp _ Ra Rb Dab Dpa Dpb].
  set (σ2 := <[l:=branch_cell h s v k xl xa]> σ1).
  assert (Ho2 : open_branch σ2 cow l h s v k xl xa nl a ol oa).
  { pose proof (lookup_lt_Some _ _ _ Hc1). unfold σ2.
    split; [by rewrite list_lookup_insert_eq|done| | |set_solver..];
      (eapply repr_store; [exact Hc1|done|done|set_solver]). }
  assert (Hp2 : σ2 !! p = Some (branch_cell rh rs ver rk xa xb))
    by (unfold σ2; rewrite list_lookup_insert_ne by set_solver; done).
  set (σ3 := <[p:=branch_cell rh rs ver rk (Mem l) xb]> σ2).
  destruct (rotate_finish false σ3 cow l h s v k xl xa nl a ol oa p rh rs ver rk xb b ob)
    as (σ' & EF & RF & EvF); [| |done| |set_solver..|].
  { eapply open_branch_other; [exact Ho2|exact Hp2|done|set_solver|set_solver]. }
  { unfold σ3. rewrite list_lookup_insert_eq; [done|]. by eapply lookup_lt_Some. }
  { unfold σ3, σ2. eapply repr_store; [exact Hp2|done| |set_solver].
    eapply repr_store; [exact Hc1|done|done|set_solver]. }
  exists p, σ', ({[p]} ∪ (ob ∪ ({[l]} ∪ (ol ∪ oa)))). split; [|split; [exact RF|]].
  - unfold h_rotateLeft. st_step Hc. cbn [branch_cell m_right]. st_step I. st_step EM. st_step EL.
    st_step Hc1. st_step Hp2. exact EF.
  - eapply evolves_trans; [|exact EvF]. eapply evolves_trans with (σ1 := σ1) (o1 := {[l]} ∪ ({[p]} ∪ (oa ∪ ob) ∪ ol)).
    { replace ({[l]} ∪ (ol ∪ or)) with (or ∪ ({[l]} ∪ ol)) by set_solver.
      replace ({[l]} ∪ ({[p]} ∪ (oa ∪ ob) ∪ ol)) with ({[p]} ∪ (oa ∪ ob) ∪ ({[l]} ∪ ol)) by set_solver.
      by apply evolves_frame. }
    eapply evolves_trans with (σ1 := σ2).
    { eapply evolves_weaken; [apply evolves_store; by eapply lookup_lt_Some|set_solver|]. reflexivity. }
    eapply evolves_weaken; [apply evolves_store; by eapply lookup_lt_Some|set_solver|set_solver].
Qed.
End repr.
