(* ===== verification/HeapOps.v ===== *)
(** * Insertion, removal and copies on the heap

    Rebalancing, insertion and removal on the heap compute the trees of Node.v.  A
    copy of a committed tree shares cells with the original; operations on either
    leave the other unchanged. *)

From Stdlib Require Import Strings.Byte ZArith Lia.
From stdpp Require Import base list numbers strings gmap sorting.
From S2P Require Import Prelude Binary Sha256 Node NodeInv NodeIface Sort Snapshot SnapshotInv Heap.
From S2P Require Import HeapInv.
Local Open Scope Z_scope.

Section ops.
  Variable snap : Snapshot.

Abbreviation repr := (HeapInv.repr snap).
Abbreviation open_branch := (HeapInv.open_branch snap).

Lemma h_calcBalance_ref σ cow x h s v k nl nr o :
  repr σ cow x (Branch h s v k nl nr) o ->
  h_calcBalance snap x σ = Ok (Height nl - Height nr, σ).
Proof.
  intros Hr. destruct (repr_open snap _ _ _ _ _ _ _ _ _ _ Hr)
    as (c & xl & xr & ol & or & _ & _ & _ & _ & Rl & Rr & _ & _ & _ & _ & EL & ER).
  destruct (repr_reads snap _ _ _ _ _ Rl) as (HL & _). destruct (repr_reads snap _ _ _ _ _ Rr) as (HR & _).
  unfold h_calcBalance. st_step EL. st_step ER. st_step HL. st_step HR. done.
Qed.

Lemma high_branch n : fields_ok n -> 0 < Height n -> exists h s v k l r, n = Branch h s v k l r.
Proof. destruct n; simpl; [lia|eauto 10]. Qed.

Lemma Height_nonneg n : fields_ok n -> 0 <= Height n.
Proof. intros. rewrite fields_Height by done. apply height_nonneg. Qed.

(** What an operation that returns a cell ensures. *)
Definition returns (σ : Heap) (cow : Z) (r : res (nat * Heap)) (o : gset nat) (n : Node) : Prop :=
  exists p σ' o', r = Ok (p, σ') /\ repr σ' cow (Mem p) n o' /\ evolves σ σ' o o'.

(** The double rotations: the child is rotated, then linked to the branch. *)
Lemma rebalance_left_right σ cow l h s v k xl xr nl nr ol or ver :
  open_branch σ cow l h s v k xl xr nl nr ol or -> cow < ver -> fields_ok nl ->
  0 < Height nl -> calcBalance nl < 0 ->
  returns σ cow
    ((mutated ← h_Mutate snap ver cow xl;
      newLeft ← h_rotateLeft snap ver cow mutated;
      modify l (Heap.set_left (Some (Mem newLeft)));;
      h_rotateRight snap ver cow l) σ)
    ({[l]} ∪ (ol ∪ or))
    (Node.rotateRight ver (Branch h s v k (Node.rotateLeft ver (Mutate ver nl)) nr)).
Proof.
  intros [Hc Hv Rl Rr D Dl Dr] Hver Fl Hh Hb.
  destruct (high_branch nl Fl Hh) as (h1 & s1 & v1 & k1 & a & m & ->).
  simpl in Hb. destruct Fl as (_ & _ & _ & Fa & Fm). pose proof (Height_nonneg a Fa).
  destruct (high_branch m Fm ltac:(lia)) as (h2 & s2 & v2 & k2 & b & c & ->).
  destruct (h_Mutate_branch snap _ _ _ _ _ _ _ _ _ _ ver Rl Hver)
    as (p & σ1 & xa & xm & oa & om & EM & Ho1 & Ev1 & _).
  destruct (h_rotateLeft_spec snap _ _ _ _ _ _ _ _ _ _ _ _ _ _ _ _ _ _ ver Ho1 Hver)
    as (q & σ2 & oq & ER & Rq & Ev2).
  pose proof (evolves_trans _ _ _ _ _ _ Ev1 Ev2) as Ev.
  destruct (frame_child snap _ _ _ _ _ _ _ _ _ _ _ _ Rl Rr (symmetry D) Hc Dl Ev) as (Rr2 & Dr2 & Hc2 & Dl2).
  pose proof (lookup_lt_Some _ _ _ Hc2).
  set (σ3 := <[l:=branch_cell h s v k (Mem q) xr]> σ2).
  assert (Ho3 : open_branch σ3 cow l h s v k (Mem q) xr
    (Node.rotateLeft ver (Mutate ver (Branch h1 s1 v1 k1 a (Branch h2 s2 v2 k2 b c)))) nr oq or).
  { unfold σ3. split; [by rewrite list_lookup_insert_eq|done| | |set_solver..];
      (eapply repr_store; [exact Hc2|done|done|set_solver]). }
  destruct (h_rotateRight_spec snap _ _ _ _ _ _ _ _ _ _ _ _ _ _ _ _ _ _ ver Ho3 Hver)
    as (r & σ4 & o4 & ER4 & R4 & Ev4).
  exists r, σ4, o4. split; [|split; [exact R4|]].
  - st_step EM. st_step ER. st_step Hc2. exact ER4.
  - eapply evolves_trans; [|exact Ev4]. eapply evolves_trans with (σ1 := σ2) (o1 := oq ∪ ({[l]} ∪ or)).
    { replace ({[l]} ∪ (ol ∪ or)) with (ol ∪ ({[l]} ∪ or)) by set_solver. by apply evolves_frame. }
    eapply evolves_weaken; [by apply evolves_store|set_solver|set_solver].
Qed.

Lemma rebalance_right_left σ cow l h s v k xl xr nl nr ol or ver :
  open_branch σ cow l h s v k xl xr nl nr ol or -> cow < ver -> fields_ok nr ->
  0 < Height nr -> 0 < calcBalance nr ->
  returns σ cow
    ((mutated ← h_Mutate snap ver cow xr;
      newRight ← h_rotateRight snap ver cow mutated;
      modify l (Heap.set_right (Some (Mem newRight)));;
      h_rotateLeft snap ver cow l) σ)
    ({[l]} ∪ (ol ∪ or))
    (Node.rotateLeft ver (Branch h s v k nl (Node.rotateRight ver (Mutate ver nr)))).
Proof.
  intros [Hc Hv Rl Rr D Dl Dr] Hver Fr Hh Hb.
  destruct (high_branch nr Fr Hh) as (h1 & s1 & v1 & k1 & m & c & ->).
  simpl in Hb. destruct Fr as (_ & _ & _ & Fm & Fc). pose proof (Height_nonneg c Fc).
  destruct (high_branch m Fm ltac:(lia)) as (h2 & s2 & v2 & k2 & a & b & ->).
  destruct (h_Mutate_branch snap _ _ _ _ _ _ _ _ _ _ ver Rr Hver)
    as (p & σ1 & xm & xc & om & oc & EM & Ho1 & Ev1 & _).
  destruct (h_rotateRight_spec snap _ _ _ _ _ _ _ _ _ _ _ _ _ _ _ _ _ _ ver Ho1 Hver)
    as (q & σ2 & oq & ER & Rq & Ev2).
  pose proof (evolves_trans _ _ _ _ _ _ Ev1 Ev2) as Ev.
  destruct (frame_child snap _ _ _ _ _ _ _ _ _ _ _ _ Rr Rl D Hc Dr Ev) as (Rl2 & Dl2 & Hc2 & Dr2).
  pose proof (lookup_lt_Some _ _ _ Hc2).
  set (σ3 := <[l:=branch_cell h s v k xl (Mem q)]> σ2).
  assert (Ho3 : open_branch σ3 cow l h s v k xl (Mem q) nl
    (Node.rotateRight ver (Mutate ver (Branch h1 s1 v1 k1 (Branch h2 s2 v2 k2 a b) c))) ol oq).
  { unfold σ3. split; [by rewrite list_lookup_insert_eq|done| | |set_solver..];
      (eapply repr_store; [exact Hc2|done|done|set_solver]). }
  destruct (h_rotateLeft_spec snap _ _ _ _ _ _ _ _ _ _ _ _ _ _ _ _ _ _ ver Ho3 Hver)
    as (r & σ4 & o4 & ER4 & R4 & Ev4).
  exists r, σ4, o4. split; [|split; [exact R4|]].
  - st_step EM. st_step ER. st_step Hc2. exact ER4.
  - eapply evolves_trans; [|exact Ev4]. eapply evolves_trans with (σ1 := σ2) (o1 := oq ∪ ({[l]} ∪ ol)).
    { replace ({[l]} ∪ (ol ∪ or)) with (or ∪ ({[l]} ∪ ol)) by set_solver. by apply evolves_frame. }
    eapply evolves_weaken; [by apply evolves_store|set_solver|set_solver].
Qed.

Lemma h_reBalance_spec σ cow l h s v k xl xr nl nr ol or ver :
  open_branch σ cow l h s v k xl xr nl nr ol or -> cow < ver -> fields_ok nl -> fields_ok nr ->
  returns σ cow (h_reBalance snap ver cow l σ) ({[l]} ∪ (ol ∪ or))
    (Node.reBalance ver (Branch h s v k nl nr)).
Proof.
  intros Ho Hver Fl Fr. pose proof Ho as [Hc Hv Rl Rr D Dl Dr].
  pose proof (open_branch_repr snap _ _ _ _ _ _ _ _ _ _ _ _ _ Ho) as R.
  pose proof (Height_nonneg nl Fl). pose proof (Height_nonneg nr Fr).
  unfold h_reBalance, Node.reBalance. st_step (h_calcBalance_ref _ _ _ _ _ _ _ _ _ _ R).
  cbn [calcBalance]. destruct (Z.ltb_spec 1 (Height nl - Height nr)) as [H1|H1].
  - destruct (high_branch nl Fl ltac:(lia)) as (h1 & s1 & v1 & k1 & a & b & ->).
    st_step Hc. cbn [branch_cell m_left]. st_step I. st_step (h_calcBalance_ref _ _ _ _ _ _ _ _ _ _ Rl).
    cbn [calcBalance]. destruct (Z.leb_spec 0 (Height a - Height b)) as [H2|H2].
    + by apply (h_rotateRight_spec snap _ _ _ _ _ _ _ _ _ _ _ _ _ _ _ _ _ _ ver Ho).
    + apply (rebalance_left_right _ _ _ _ _ _ _ _ _ _ _ _ _ ver Ho Hver Fl); [simpl in *; lia..].
  - destruct (Z.ltb_spec (Height nl - Height nr) (-1)) as [H2|H2].
    + destruct (high_branch nr Fr ltac:(lia)) as (h1 & s1 & v1 & k1 & a & b & ->).
      st_step Hc. cbn [branch_cell m_right]. st_step I. st_step (h_calcBalance_ref _ _ _ _ _ _ _ _ _ _ Rr).
      cbn [calcBalance]. destruct (Z.leb_spec (Height a - Height b) 0) as [H3|H3].
      * by apply (h_rotateLeft_spec snap _ _ _ _ _ _ _ _ _ _ _ _ _ _ _ _ _ _ ver Ho).
      * apply (rebalance_right_left _ _ _ _ _ _ _ _ _ _ _ _ _ ver Ho Hver Fr); [simpl in *; lia..].
    + exists l, σ, ({[l]} ∪ (ol ∪ or)). split; [done|]. split; [done|]. apply evolves_refl.
Qed.

(** ** Replacing a child *)

(** A represented branch, taken apart. *)
Record opened (σ : Heap) (cow : Z) (x : NodeRef) (n nl nr : Node) (o : gset nat)
    (c : MemNode) (xl xr : NodeRef) (ol or : gset nat) : Prop := {
  op_cell : mcell snap σ x c;
  op_ok : cell_ok c n;
  op_xl : m_left c = Some xl;
  op_xr : m_right c = Some xr;
  op_l : repr σ cow xl nl ol;
  op_r : repr σ cow xr nr or;
  op_lr : ol ## or;
  op_own : ref_own cow x c ## ol ∪ or;
  op_not l : x = Mem l -> l ∉ ol ∪ or;
  op_o : o = ref_own cow x c ∪ (ol ∪ or);
  op_Left : ref_Left snap σ x = Ok xl;
  op_Right : ref_Right snap σ x = Ok xr
}.

Lemma repr_opened σ cow x h s v k nl nr o :
  repr σ cow x (Branch h s v k nl nr) o ->
  exists c xl xr ol or, opened σ cow x (Branch h s v k nl nr) nl nr o c xl xr ol or.
Proof.
  intros Hr. destruct (repr_open snap _ _ _ _ _ _ _ _ _ _ Hr)
    as (c & xl & xr & ol & or & ? & ? & ? & ? & ? & ? & ? & ? & ? & ? & ? & ?).
  exists c, xl, xr, ol, or. by split.
Qed.

Lemma ref_own_mutable σ cow x c l :
  mcell snap σ x c -> l ∈ ref_own cow x c -> exists c', σ !! l = Some c' /\ cow < m_version c'.
Proof.
  destruct x as [i|p]; simpl; [|set_solver]. intros Hc. unfold own. case_match; [set_solver|].
  intros ->%elem_of_singleton. exists c. split; [done|lia].
Qed.

(** The child on one side was replaced; the node is mutated and linked to it. *)
Lemma replace_child (left : bool) σ σ1 cow x h s v k nl nr o c xl xr ol or y ny oy ver :
  opened σ cow x (Branch h s v k nl nr) nl nr o c xl xr ol or ->
  evolves σ σ1 (if left then ol else or) oy -> repr σ1 cow y ny oy -> cow < ver ->
  exists l σ2 c2,
    h_Mutate snap ver cow x σ1 = Ok (l, σ2) /\ σ2 !! l = Some c2 /\
    let σ3 := <[l:=(if left then Heap.set_left (Some y) c2 else Heap.set_right (Some y) c2)]> σ2 in
    let ol' := if left then oy else ol in
    let or' := if left then or else oy in
    open_branch σ3 cow l h s ver k (if left then y else xl) (if left then xr else y)
      (if left then ny else nl) (if left then nr else ny) ol' or' /\
    evolves σ σ3 o ({[l]} ∪ (ol' ∪ or')).
Proof.
  intros [Hc Hok El Er Rl Rr D Down Dx -> _ _] Ev Ry Hver.
  set (m := if left then ol else or) in *.
  assert (Hc1 : mcell snap σ1 x c).
  { destruct x as [i|p]; [|done]. simpl in *. rewrite (ev_same _ _ _ _ Ev); [done|by eapply lookup_lt_Some|].
    specialize (Dx i eq_refl). unfold m. destruct left; set_solver. }
  destruct (h_Mutate_spec snap σ1 cow x c ver Hc1) as (l & σ2 & EM & Hl & Ev2 & _).
  assert (Hown : forall i, i ∈ ref_own cow x c -> (i < length σ)%nat).
  { intros i Hi. destruct (ref_own_mutable _ _ _ _ _ Hc Hi) as (c' & Hc' & _). by eapply lookup_lt_Some. }
  assert (Dy : oy ## ref_own cow x c).
  { intros i Hi Hi'. apply (ev_owned _ _ _ _ Ev) in Hi as [Hi|Hi].
    - unfold m in Hi. destruct left; set_solver.
    - pose proof (Hown i Hi'). lia. }
  exists l, σ2, (set_version ver c). split; [done|]. split; [done|]. cbv zeta.
  (* the child that was not replaced *)
  set (z := if left then xr else xl). set (nz := if left then nr else nl). set (oz := if left then or else ol).
  assert (Rz : repr σ cow z nz oz) by (unfold z, nz, oz; by destruct left).
  assert (Dz : oz ## m) by (unfold oz, m; destruct left; set_solver).
  assert (Rz1 : repr σ1 cow z nz oz).
  { eapply repr_frame; [exact Rz|exact Ev| |done]. intros i Hi. unfold m in Hi.
    destruct left; [by apply (repr_owned _ _ _ _ _ _ _ Rl)|by apply (repr_owned _ _ _ _ _ _ _ Rr)]. }
  assert (Dzy : oz ## oy) by (by apply (repr_disjoint snap _ _ _ _ _ _ _ _ Rz Ev)).
  assert (Dzo : oz ## ref_own cow x c) by (unfold oz; destruct left; set_solver).
  assert (Rz2 : repr σ2 cow z nz oz).
  { eapply repr_frame; [exact Rz1|exact Ev2| |done]. intros i Hi. by apply (ref_own_mutable _ _ x c). }
  assert (Ry2 : repr σ2 cow y ny oy).
  { eapply repr_frame; [exact Ry|exact Ev2| |done]. intros i Hi. by apply (ref_own_mutable _ _ x c). }
  assert (Dlz : l ∉ oz).
  { intros Hin. apply (repr_disjoint snap _ _ _ _ _ _ _ _ Rz1 Ev2 Dzo) in Hin. set_solver. }
  assert (Dly : l ∉ oy).
  { intros Hin. apply (repr_disjoint snap _ _ _ _ _ _ _ _ Ry Ev2 Dy) in Hin. set_solver. }
  pose proof (lookup_lt_Some _ _ _ Hl) as Hlen.
  destruct Hok as (H1 & H2 & H3 & H4 & H5 & _). simpl in H1, H2, H3, H4, H5. split.
  - destruct left; (split; [|done| | |set_solver|done|done]).
    1, 4: rewrite list_lookup_insert_eq by done; unfold Heap.set_left, Heap.set_right, set_version,
      branch_cell; simpl; by rewrite H1, H2, H4, H5, ?El, ?Er.
    all: eapply repr_store; [exact Hl|done|done|done].
  - eapply evolves_trans with (σ1 := σ1) (o1 := ref_own cow x c ∪ (oy ∪ oz)).
    { eapply evolves_weaken; [apply (evolves_frame _ _ _ _ (ref_own cow x c ∪ oz) Ev)| |];
        unfold m, oz; destruct left; set_solver. }
    eapply evolves_trans with (σ1 := σ2); [apply (evolves_frame _ _ _ _ (oy ∪ oz) Ev2)|].
    eapply evolves_weaken; [by apply evolves_store|set_solver|unfold oz; destruct left; set_solver].
Qed.

(** ** Insertion *)

Lemma repr_alloc σ cow x n o c : repr σ cow x n o -> repr (σ ++ [c]) cow x n o.
Proof.
  intros Hr. eapply repr_frame; [exact Hr|apply evolves_alloc|set_solver|set_solver].
Qed.

Lemma alloc_leaf σ cow k v ver :
  cow < ver ->
  let c := {| m_height := 0; m_size := 1; m_version := ver; m_key := k; m_value := Some v;
              m_left := None; m_right := None; m_hash := None |} in
  h_newLeafNode k v ver σ = Ok (length σ, σ ++ [c]) /\
  repr (σ ++ [c]) cow (Mem (length σ)) (Leaf ver k v) {[length σ]}.
Proof.
  intros Hv c. split; [done|]. simpl. exists c. split; [by rewrite lookup_app_r, Nat.sub_diag|].
  split; [by repeat split; auto|]. unfold own. simpl. by rewrite (proj2 (Z.leb_gt ver cow)).
Qed.

(** A leaf becomes a branch with the old leaf and a new one. *)
Lemma alloc_split (newLeft : bool) σ cow x v0 k0 w0 o k w key ver :
  repr σ cow x (Leaf v0 k0 w0) o -> cow < ver ->
  exists p σ' o',
    (new ← h_newLeafNode k w ver;
     l ← new_branch ver key (if newLeft then Mem new else x) (if newLeft then x else Mem new);
     mret (l, false)) σ = Ok ((p, false), σ') /\
    repr σ' cow (Mem p) (Branch 1 2 ver key (if newLeft then Leaf ver k w else Leaf v0 k0 w0)
      (if newLeft then Leaf v0 k0 w0 else Leaf ver k w)) o' /\
    evolves σ σ' o o'.
Proof.
  intros Hr Hv. destruct (alloc_leaf σ cow k w ver Hv) as [E R]. set (c := {| m_height := 0 |}) in *.
  st_step E. set (σ1 := σ ++ [c]) in *.
  assert (Rx : repr σ1 cow x (Leaf v0 k0 w0) o) by (by apply repr_alloc).
  assert (Dx : length σ ∉ o).
  { intros Hin. pose proof (repr_bound _ _ _ _ _ _ _ Hr Hin). lia. }
  assert (Hlen : length σ1 = S (length σ)) by (unfold σ1; rewrite length_app; simpl; lia).
  assert (Dx1 : length σ1 ∉ o).
  { intros Hin. pose proof (repr_bound _ _ _ _ _ _ _ Hr Hin). lia. }
  set (l1 := if newLeft then Mem (length σ) else x). set (r1 := if newLeft then x else Mem (length σ)).
  eexists _, _, ({[length σ1]} ∪ ((if newLeft then {[length σ]} else o) ∪ (if newLeft then o else {[length σ]}))).
  split; [reflexivity|]. split.
  - apply (open_branch_repr snap _ _ _ _ _ _ _ l1 r1). split.
    + by rewrite lookup_app_r, Nat.sub_diag.
    + done.
    + destruct newLeft; by apply repr_alloc.
    + destruct newLeft; by apply repr_alloc.
    + destruct newLeft; set_solver.
    + destruct newLeft; [|done]. apply not_elem_of_singleton. lia.
    + destruct newLeft; [done|]. apply not_elem_of_singleton. lia.
  - eapply evolves_trans with (σ1 := σ1) (o1 := {[length σ]} ∪ o).
    + eapply evolves_weaken; [apply (evolves_alloc σ c)|set_solver|set_solver].
    + eapply evolves_weaken; [apply evolves_alloc|set_solver|destruct newLeft; set_solver].
Qed.

Lemma mutate_leaf σ cow x v0 k0 w0 o w ver :
  repr σ cow x (Leaf v0 k0 w0) o -> cow < ver ->
  exists p σ' o',
    (l ← h_Mutate snap ver cow x; modify l (set_value (Some w));; mret (l, true)) σ = Ok ((p, true), σ') /\
    repr σ' cow (Mem p) (Leaf ver k0 w) o' /\ evolves σ σ' o o'.
Proof.
  intros Hr Hv. destruct (repr_open_leaf snap _ _ _ _ _ _ _ Hr) as (c & Hc & Hok & ->).
  destruct (h_Mutate_spec snap σ cow x c ver Hc) as (l & σ1 & EM & Hl & Ev & _).
  pose proof (lookup_lt_Some _ _ _ Hl). destruct Hok as (H1 & H2 & H3 & H4 & H5 & _). simpl in *.
  exists l, (<[l:=set_value (Some w) (set_version ver c)]> σ1), {[l]}. split; [|split].
  - st_step EM. st_step Hl. done.
  - exists (set_value (Some w) (set_version ver c)). split; [by rewrite list_lookup_insert_eq|].
    split; [by repeat split; auto|]. unfold own. simpl. by rewrite (proj2 (Z.leb_gt ver cow)).
  - eapply evolves_trans; [exact Ev|by apply evolves_store].
Qed.

(** [updateHeightSize] followed by [reBalance], and what comes after. *)
Lemma update_rebalance {B} (f : nat -> ST B) σ σ3 cow l h s v k xl xr nl nr ol or o ver :
  open_branch σ3 cow l h s v k xl xr nl nr ol or -> cow < ver -> fields_ok nl -> fields_ok nr ->
  evolves σ σ3 o ({[l]} ∪ (ol ∪ or)) ->
  exists p σ' o',
    (h_updateHeightSize snap l;; newNode ← h_reBalance snap ver cow l; f newNode) σ3 = f p σ' /\
    repr σ' cow (Mem p) (Node.reBalance ver (Node.updateHeightSize (Branch h s v k nl nr))) o' /\
    evolves σ σ' o o'.
Proof.
  intros Ho Hver Fl Fr Ev. st_step (h_updateHeightSize_spec snap _ _ _ _ _ _ _ _ _ _ _ _ _ Ho).
  set (c' := branch_cell _ _ _ _ _ _).
  assert (Ho' : open_branch (<[l:=c']> σ3) cow l (u8 (Z.max (Height nl) (Height nr) + 1))
    (i64 (Size nl + Size nr)) v k xl xr nl nr ol or) by (by eapply open_branch_store).
  destruct (h_reBalance_spec _ _ _ _ _ _ _ _ _ _ _ _ _ ver Ho' Hver Fl Fr) as (p & σ4 & o4 & E4 & R4 & Ev4).
  st_step E4. exists p, σ4, o4. split; [done|]. split; [exact R4|].
  eapply evolves_trans; [exact Ev|]. eapply evolves_trans; [|exact Ev4].
  by apply (open_branch_evolves snap _ _ _ _ _ _ _ _ _ _ _ _ _ _ Ho).
Qed.

(** The end of an insertion: rebalancing, unless a value was only updated. *)
Lemma set_finish (u : bool) σ σ3 cow l h s ver k xl xr nl nr ol or o :
  open_branch σ3 cow l h s ver k xl xr nl nr ol or -> fields_ok nl -> fields_ok nr ->
  evolves σ σ3 o ({[l]} ∪ (ol ∪ or)) ->
  exists p σ' o',
    (if u then mret (l, true)
     else h_updateHeightSize snap l;; newNode ← h_reBalance snap ver cow l; mret (newNode, false)) σ3
    = Ok ((p, u), σ') /\
    repr σ' cow (Mem p)
      (if u then Branch h s ver k nl nr
       else Node.reBalance ver (Node.updateHeightSize (Branch h s ver k nl nr))) o' /\
    evolves σ σ' o o'.
Proof.
  intros Ho Fl Fr Ev. destruct u.
  - eexists l, σ3, _. split; [done|]. split; [by apply (open_branch_repr snap _ _ _ _ _ _ _ _ _ _ _ _ _ Ho)|done].
  - destruct (update_rebalance (fun p => mret (p, false)) _ _ _ _ _ _ _ _ _ _ _ _ _ _ _ ver Ho
      (ob_version _ _ _ _ _ _ _ _ _ _ _ _ _ _ Ho) Fl Fr Ev) as (p & σ' & o' & -> & R & Ev').
    by exists p, σ', o'.
Qed.

(** Insertion below a branch, on either side. *)
Lemma set_side (left : bool) σ cow x h s v k0 nl nr o c xl xr ol or fuel k w ver :
  opened σ cow x (Branch h s v k0 nl nr) nl nr o c xl xr ol or -> cow < ver -> wf nl -> wf nr ->
  leaves nl + 1 < max_leaves -> leaves nr + 1 < max_leaves ->
  (forall x σ o, repr σ cow x nl o -> exists p σ' o',
    h_setRecursive snap fuel x k w ver cow σ = Ok ((p, (setRecursive nl k w ver).2), σ') /\
    repr σ' cow (Mem p) (setRecursive nl k w ver).1 o' /\ evolves σ σ' o o') ->
  (forall x σ o, repr σ cow x nr o -> exists p σ' o',
    h_setRecursive snap fuel x k w ver cow σ = Ok ((p, (setRecursive nr k w ver).2), σ') /\
    repr σ' cow (Mem p) (setRecursive nr k w ver).1 o' /\ evolves σ σ' o o') ->
  let '(n', u) := setRecursive (if left then nl else nr) k w ver in
  let n1 := Branch h s ver k0 (if left then n' else nl) (if left then nr else n') in
  exists p σ' o',
    ('(newNode, updated) ←
      (child ← lift (fun σ => (if left then ref_Left else ref_Right) snap σ x);
       '(newChild, updated) ← h_setRecursive snap fuel child k w ver cow;
       newNode ← h_Mutate snap ver cow x;
       modify newNode ((if left then Heap.set_left else Heap.set_right) (Some (Mem newChild)));;
       mret (newNode, updated));
     if updated : bool then mret (newNode, true)
     else h_updateHeightSize snap newNode;; newNode ← h_reBalance snap ver cow newNode; mret (newNode, false)) σ
    = Ok ((p, u), σ') /\
    repr σ' cow (Mem p) (if u then n1 else Node.reBalance ver (Node.updateHeightSize n1)) o' /\ evolves σ σ' o o'.
Proof.
  intros Hop Hver Hwl Hwr Hl Hr IHl IHr.
  set (y := if left then xl else xr). set (ny := if left then nl else nr). set (oy := if left then ol else or).
  assert (Ry : repr σ cow y ny oy) by (unfold y, ny, oy; destruct left; apply Hop).
  assert (Ey : (if left then ref_Left else ref_Right) snap σ x = Ok y) by (unfold y; destruct left; apply Hop).
  assert (IH : exists p σ' o',
    h_setRecursive snap fuel y k w ver cow σ = Ok ((p, (setRecursive ny k w ver).2), σ') /\
    repr σ' cow (Mem p) (setRecursive ny k w ver).1 o' /\ evolves σ σ' oy o').
  { unfold ny in *. destruct left; auto. }
  assert (Fy : fields_ok (setRecursive ny k w ver).1).
  { destruct (setRecursive ny k w ver) as [n' u] eqn:Es.
    apply (sr_fields _ _ _ _ _ (setRecursive_result ny k w ver n' u
      ltac:(unfold ny; destruct left; done) ltac:(unfold ny; destruct left; done) Es)). }
  destruct (setRecursive ny k w ver) as [n' u]. simpl in IH, Fy.
  destruct IH as (p & σ1 & o1 & E1 & R1 & Ev1).
  destruct (replace_child left _ _ _ _ _ _ _ _ _ _ _ _ _ _ _ _ _ _ _ ver Hop Ev1 R1 Hver)
    as (l & σ2 & c2 & EM & Hl2 & Ho & Ev3). cbv zeta in Ho, Ev3.
  destruct (set_finish u σ _ _ _ _ _ _ _ _ _ _ _ _ _ o Ho)
    as (q & σ' & o' & EF & RF & EvF); [destruct left; [done|apply Hwl]|destruct left; [apply Hwr|done]|done|].
  exists q, σ', o'. split; [|done]. rewrite <- EF.
  erewrite st_bind_ok; [|st_step Ey; st_step E1; st_step EM; st_step Hl2; reflexivity].
  destruct left, u; done.
Qed.

Lemma h_setRecursive_spec cow ver k w fuel n x σ o :
  cow < ver -> repr σ cow x n o -> wf n -> leaves n + 1 < max_leaves -> height n < Z.of_nat fuel ->
  exists p σ' o',
    h_setRecursive snap fuel x k w ver cow σ = Ok ((p, (setRecursive n k w ver).2), σ') /\
    repr σ' cow (Mem p) (setRecursive n k w ver).1 o' /\ evolves σ σ' o o'.
Proof.
  intros Hver. revert fuel x σ o. induction n as [v0 k0 w0|h s v k0 nl IHl nr IHr];
    intros [|fuel] x σ o Hr Hwf Hlv Hf.
  1, 3: pose proof (height_nonneg (Leaf 0 [] [])); simpl in Hf;
    try (pose proof (height_nonneg nl)); try (pose proof (height_nonneg nr)); lia.
  - destruct (repr_reads snap _ _ _ _ _ Hr) as (_ & _ & EK & _).
    pose proof (repr_IsLeaf snap _ _ _ _ _ Hr I) as EL. cbn [h_setRecursive].
    st_step EK. st_step EL. cbn [Key IsLeaf setRecursive newLeafNode]. destruct (Compare k k0).
    + by apply mutate_leaf with (v0 := v0) (w0 := w0).
    + by apply (alloc_split true σ cow x v0 k0 w0 o k w k0 ver).
    + by apply (alloc_split false σ cow x v0 k0 w0 o k w k ver).
  - destruct (wf_children _ _ _ _ _ _ Hwf) as [Hwl Hwr]. rewrite leaves_Branch in Hlv.
    pose proof (leaves_pos nl). pose proof (leaves_pos nr). simpl in Hf.
    destruct (repr_reads snap _ _ _ _ _ Hr) as (_ & _ & EK & _).
    pose proof (repr_IsLeaf snap _ _ _ _ _ Hr (wf_fields _ Hwf)) as EL. cbn [h_setRecursive].
    st_step EK. st_step EL. cbn [Key IsLeaf setRecursive].
    destruct (repr_opened _ _ _ _ _ _ _ _ _ _ Hr) as (c & xl & xr & ol & or & Hop).
    assert (Hside : forall left : bool, _) by (intros left; exact (set_side left _ _ _ _ _ _ _ _ _ _ _ _ _ _ _
      fuel k w ver Hop Hver Hwl Hwr ltac:(lia) ltac:(lia)
      (fun x σ o Hr => IHl fuel x σ o Hr Hwl ltac:(lia) ltac:(lia))
      (fun x σ o Hr => IHr fuel x σ o Hr Hwr ltac:(lia) ltac:(lia)))).
    destruct (Compare k k0).
    + pose proof (Hside false) as Hs. cbv iota in Hs. destruct (setRecursive nr k w ver) as [n' u].
      destruct Hs as (p & σ' & o' & E & R & Ev). exists p, σ', o'. rewrite E. by destruct u.
    + pose proof (Hside true) as Hs. cbv iota in Hs. destruct (setRecursive nl k w ver) as [n' u].
      destruct Hs as (p & σ' & o' & E & R & Ev). exists p, σ', o'. rewrite E. by destruct u.
    + pose proof (Hside false) as Hs. cbv iota in Hs. destruct (setRecursive nr k w ver) as [n' u].
      destruct Hs as (p & σ' & o' & E & R & Ev). exists p, σ', o'. rewrite E. by destruct u.
Qed.

(** ** Removal *)

(** What a removal from the tree of [x] ensures, given the outcome on the tree. *)
Definition removes (σ : Heap) (cow : Z) (x : NodeRef)
    (r : res (option bytes * option NodeRef * option bytes * Heap)) (o : gset nat)
    (out : option bytes * option Node * option bytes) : Prop :=
  let '(value, n', newKey) := out in
  exists y σ', r = Ok ((value, y, newKey), σ') /\
  match value, n' with
  | None, _ => y = Some x /\ σ' = σ
  | Some _, None => y = None /\ σ' = σ
  | Some _, Some m => exists z o', y = Some z /\ repr σ' cow z m o' /\ evolves σ σ' o o'
  end.

Lemma remove_side_left σ cow x h s v k0 nl nr o c xl xr ol or fuel k ver :
  opened σ cow x (Branch h s v k0 nl nr) nl nr o c xl xr ol or -> cow < ver -> fields_ok nr ->
  repr σ cow x (Branch h s v k0 nl nr) o ->
  remove_post nl k (removeRecursive nl k ver) ->
  removes σ cow xl (h_removeRecursive snap fuel xl k ver cow σ) ol (removeRecursive nl k ver) ->
  removes σ cow x
    ((left ← lift (fun σ => ref_Left snap σ x);
      '(value, newLeft, newKey) ← h_removeRecursive snap fuel left k ver cow;
      match value, newLeft with
      | None, _ => mret (None, Some x, None)
      | Some _, None =>
          right ← lift (fun σ => ref_Right snap σ x);
          nodeKey ← lift (fun σ => ref_Key snap σ x);
          mret (value, Some right, Some nodeKey)
      | Some _, Some y =>
          newNode ← h_Mutate snap ver cow x;
          modify newNode (Heap.set_left (Some y));;
          h_updateHeightSize snap newNode;;
          newNode ← h_reBalance snap ver cow newNode;
          mret (value, Some (Mem newNode), newKey)
      end) σ) o
    (match removeRecursive nl k ver with
     | (None, _, _) => (None, Some (Branch h s v k0 nl nr), None)
     | (Some value, None, _) => (Some value, Some nr, Some k0)
     | (Some value, Some newLeft, newKey) =>
         (Some value, Some (Node.reBalance ver (Node.updateHeightSize (Branch h s ver k0 newLeft nr))), newKey)
     end).
Proof.
  intros Hop Hver Fr Hr Hpost. destruct (removeRecursive nl k ver) as [[[value|] [m|]] newKey]; simpl in Hpost.
  - intros (y & σ1 & E1 & z & o1 & -> & R1 & Ev1). destruct Hpost as (_ & Rm).
    destruct (replace_child true _ _ _ _ _ _ _ _ _ _ _ _ _ _ _ _ _ _ _ ver Hop Ev1 R1 Hver)
      as (l & σ2 & c2 & EM & Hl2 & Ho & Ev3). cbv zeta iota in Ho, Ev3.
    destruct (update_rebalance (fun p => mret (Some value, Some (Mem p), newKey)) σ _ _ _ _ _ _ _ _ _ _ _ _ _ o ver Ho
      Hver (rr_fields _ _ _ _ Rm) Fr Ev3) as (p & σ' & o' & EF & RF & EvF).
    exists (Some (Mem p)), σ'. split; [|by exists (Mem p), o'].
    st_step (op_Left _ _ _ _ _ _ _ _ _ _ _ _ Hop). st_step E1. st_step EM. st_step Hl2. exact EF.
  - intros (y & σ1 & E1 & -> & ->). destruct (repr_reads snap _ _ _ _ _ Hr) as (_ & _ & EK & _).
    exists (Some xr), σ. split.
    + st_step (op_Left _ _ _ _ _ _ _ _ _ _ _ _ Hop). st_step E1.
      st_step (op_Right _ _ _ _ _ _ _ _ _ _ _ _ Hop). st_step EK. done.
    + exists xr, or. split; [done|]. split; [apply Hop|].
      eapply evolves_weaken; [apply evolves_refl|apply empty_subseteq|].
      rewrite (op_o _ _ _ _ _ _ _ _ _ _ _ _ Hop). set_solver.
  - intros (y & σ1 & E1 & -> & ->). exists (Some x), σ. split; [|done].
    st_step (op_Left _ _ _ _ _ _ _ _ _ _ _ _ Hop). st_step E1. done.
  - intros (y & σ1 & E1 & -> & ->). exists (Some x), σ. split; [|done].
    st_step (op_Left _ _ _ _ _ _ _ _ _ _ _ _ Hop). st_step E1. done.
Qed.

Lemma remove_side_right σ cow x h s v k0 nl nr o c xl xr ol or fuel k ver :
  opened σ cow x (Branch h s v k0 nl nr) nl nr o c xl xr ol or -> cow < ver -> fields_ok nl ->
  remove_post nr k (removeRecursive nr k ver) ->
  removes σ cow xr (h_removeRecursive snap fuel xr k ver cow σ) or (removeRecursive nr k ver) ->
  removes σ cow x
    ((right ← lift (fun σ => ref_Right snap σ x);
      '(value, newRight, newKey) ← h_removeRecursive snap fuel right k ver cow;
      match value, newRight with
      | None, _ => mret (None, Some x, None)
      | Some _, None =>
          left ← lift (fun σ => ref_Left snap σ x);
          mret (value, Some left, None)
      | Some _, Some y =>
          newNode ← h_Mutate snap ver cow x;
          modify newNode (Heap.set_right (Some y));;
          match newKey with Some k => modify newNode (set_key k) | None => mret () end;;
          h_updateHeightSize snap newNode;;
          newNode ← h_reBalance snap ver cow newNode;
          mret (value, Some (Mem newNode), None)
      end) σ) o
    (match removeRecursive nr k ver with
     | (None, _, _) => (None, Some (Branch h s v k0 nl nr), None)
     | (Some value, None, _) => (Some value, Some nl, None)
     | (Some value, Some newRight, newKey) =>
         (Some value, Some (Node.reBalance ver (Node.updateHeightSize
            (Branch h s ver (default k0 newKey) nl newRight))), None)
     end).
Proof.
  intros Hop Hver Fl Hpost. destruct (removeRecursive nr k ver) as [[[value|] [m|]] newKey]; simpl in Hpost.
  - intros (y & σ1 & E1 & z & o1 & -> & R1 & Ev1). destruct Hpost as (_ & Rm).
    destruct (replace_child false _ _ _ _ _ _ _ _ _ _ _ _ _ _ _ _ _ _ _ ver Hop Ev1 R1 Hver)
      as (l & σ2 & c2 & EM & Hl2 & Ho & Ev3). cbv zeta iota in Ho, Ev3.
    set (σ3 := <[l:=Heap.set_right (Some z) c2]> σ2) in *.
    assert (exists σ4, match newKey with Some k => modify l (set_key k) | None => mret () end σ3 = Ok ((), σ4) /\
      open_branch σ4 cow l h s ver (default k0 newKey) xl z nl m ol o1 /\
      evolves σ σ4 o ({[l]} ∪ (ol ∪ o1))) as (σ4 & EK & Ho4 & Ev4).
    { destruct newKey as [nk|]; [|by exists σ3].
      eexists. rewrite (modify_ok _ _ _ _ (ob_cell _ _ _ _ _ _ _ _ _ _ _ _ _ _ Ho)). split; [reflexivity|].
      split; [by apply (open_branch_store snap _ _ _ _ _ _ _ _ _ _ _ _ _ h s nk Ho)|].
      eapply evolves_trans; [exact Ev3|]. by apply (open_branch_evolves snap _ _ _ _ _ _ _ _ _ _ _ _ _ _ Ho). }
    destruct (update_rebalance (fun p => mret (Some value, Some (Mem p), @None bytes)) σ _ _ _ _ _ _ _ _ _ _ _ _ _ o ver Ho4
      Hver Fl (rr_fields _ _ _ _ Rm) Ev4) as (p & σ' & o' & EF & RF & EvF).
    exists (Some (Mem p)), σ'. split; [|by exists (Mem p), o'].
    st_step (op_Right _ _ _ _ _ _ _ _ _ _ _ _ Hop). st_step E1. st_step EM. st_step Hl2. fold σ3.
    st_step EK. exact EF.
  - intros (y & σ1 & E1 & -> & ->). exists (Some xl), σ. split.
    + st_step (op_Right _ _ _ _ _ _ _ _ _ _ _ _ Hop). st_step E1.
      st_step (op_Left _ _ _ _ _ _ _ _ _ _ _ _ Hop). done.
    + exists xl, ol. split; [done|]. split; [apply Hop|].
      eapply evolves_weaken; [apply evolves_refl|apply empty_subseteq|].
      rewrite (op_o _ _ _ _ _ _ _ _ _ _ _ _ Hop). set_solver.
  - intros (y & σ1 & E1 & -> & ->). exists (Some x), σ. split; [|done].
    st_step (op_Right _ _ _ _ _ _ _ _ _ _ _ _ Hop). st_step E1. done.
  - intros (y & σ1 & E1 & -> & ->). exists (Some x), σ. split; [|done].
    st_step (op_Right _ _ _ _ _ _ _ _ _ _ _ _ Hop). st_step E1. done.
Qed.

Lemma h_removeRecursive_spec cow ver k fuel n x σ o :
  cow < ver -> repr σ cow x n o -> wf n -> leaves n < max_leaves -> height n < Z.of_nat fuel ->
  removes σ cow x (h_removeRecursive snap fuel x k ver cow σ) o (removeRecursive n k ver).
Proof.
  intros Hver. revert fuel x σ o. induction n as [v0 k0 w0|h s v k0 nl IHl nr IHr];
    intros [|fuel] x σ o Hr Hwf Hlv Hf.
  1, 3: simpl in Hf; try (pose proof (height_nonneg nl)); try (pose proof (height_nonneg nr)); lia.
  - destruct (repr_reads snap _ _ _ _ _ Hr) as (_ & _ & EK & EV).
    pose proof (repr_IsLeaf snap _ _ _ _ _ Hr I) as EL. cbn [h_removeRecursive].
    st_step EL. st_step EK. cbn [Key IsLeaf removeRecursive]. case_decide.
    + exists None, σ. split; [|done]. st_step EV. done.
    + exists (Some x), σ. done.
  - destruct (wf_children _ _ _ _ _ _ Hwf) as [Hwl Hwr]. rewrite leaves_Branch in Hlv.
    pose proof (leaves_pos nl). pose proof (leaves_pos nr). simpl in Hf.
    destruct (repr_reads snap _ _ _ _ _ Hr) as (_ & _ & EK & _).
    pose proof (repr_IsLeaf snap _ _ _ _ _ Hr (wf_fields _ Hwf)) as EL. cbn [h_removeRecursive].
    st_step EL. st_step EK. cbn [Key IsLeaf removeRecursive].
    destruct (repr_opened _ _ _ _ _ _ _ _ _ _ Hr) as (c & xl & xr & ol & or & Hop).
    assert (Hright : _) by exact (remove_side_right _ _ _ _ _ _ _ _ _ _ _ _ _ _ _ fuel k ver Hop Hver (wf_fields _ Hwl)
      (removeRecursive_post nr k ver Hwr ltac:(lia))
      (IHr fuel xr σ or (op_r _ _ _ _ _ _ _ _ _ _ _ _ Hop) Hwr ltac:(lia) ltac:(lia))).
    destruct (Compare k k0); [exact Hright| |exact Hright].
    exact (remove_side_left _ _ _ _ _ _ _ _ _ _ _ _ _ _ _ fuel k ver Hop Hver (wf_fields _ Hwr) Hr
      (removeRecursive_post nl k ver Hwl ltac:(lia))
      (IHl fuel xl σ ol (op_l _ _ _ _ _ _ _ _ _ _ _ _ Hop) Hwl ltac:(lia) ltac:(lia))).
Qed.
End ops.
