(* ===== verification/HeapTree.v ===== *)
(** * Trees on a shared heap: cached hashes, copies and isolation

    Computing a hash only fills in missing hashes, and the hash returned is that of
    the tree.  The system of a tree and the copies made of it is a transition
    system; in every reachable state each copy denotes the tree it was made of. *)

From Stdlib Require Import Strings.Byte ZArith Lia.
From stdpp Require Import base list numbers strings gmap sorting.
From S2P Require Import Prelude Binary Sha256 Node NodeInv NodeIface Sort Snapshot SnapshotInv Heap.
From S2P Require Import HeapInv HeapOps.
Local Open Scope Z_scope.

Section hash.
  Variable snap : Snapshot.

Abbreviation repr := (HeapInv.repr snap).

(** A reference denotes one tree. *)
Lemma persisted_functional p n n' :
  persisted snap p n -> persisted snap p n' -> n = n'.
Proof.
  revert p n'. induction n as [v k w|h s v k l IHl r IHr]; intros p n' (lc & bc & Hp) (lc' & bc' & Hp').
  - pose proof (persists_reads _ _ _ _ _ Hp) as [R1 R2 R3 R4 R5 R6 _].
    pose proof (persists_reads _ _ _ _ _ Hp') as [S1 S2 S3 S4 S5 S6 _].
    rewrite S2 in R2. destruct n' as [v' k' w'|]; [|done].
    rewrite S4 in R4. rewrite S5 in R5. rewrite S6 in R6. simpl in *. congruence.
  - pose proof (persists_reads _ _ _ _ _ Hp) as [R1 R2 R3 R4 R5 R6 _].
    pose proof (persists_reads _ _ _ _ _ Hp') as [S1 S2 S3 S4 S5 S6 _].
    rewrite S2 in R2. destruct n' as [|h' s' v' k' l' r']; [done|].
    rewrite S1 in R1. rewrite S3 in R3. rewrite S4 in R4. rewrite S5 in R5. simpl in R1, R3, R4, R5.
    destruct (persists_Left _ _ _ _ _ _ _ _ _ _ Hp) as (y & E & Pl).
    destruct (persists_Left _ _ _ _ _ _ _ _ _ _ Hp') as (y' & E' & Pl').
    destruct (persists_Right _ _ _ _ _ _ _ _ _ _ Hp) as (z & F & Pr).
    destruct (persists_Right _ _ _ _ _ _ _ _ _ _ Hp') as (z' & F' & Pr').
    rewrite E in E'. injection E' as <-. rewrite F in F'. injection F' as <-.
    rewrite (IHl y l'), (IHr z r') by (by eexists _, _). congruence.
Qed.

Lemma repr_functional σ cow cow' x n n' o o' : repr σ cow x n o -> repr σ cow' x n' o' -> n = n'.
Proof.
  revert x n' o o'. induction n as [v k w|h s v k l IHl r IHr]; intros [i|p] n' o o'.
  2, 4: intros Hr Hr'; eapply persisted_functional; [apply Hr|]; by destruct n'; apply Hr'.
  - intros (c & Hc & (E1 & E2 & E3 & E4 & E5 & _) & _). destruct n' as [v' k' w'|h' s' v' k' l' r'];
      intros (c' & Hc' & (F1 & F2 & F3 & F4 & F5 & _) & _); simplify_eq; simpl in *; congruence.
  - intros (c & Hc & (E1 & E2 & E3 & E4 & E5 & _) & xl & xr & ol & or & L & R & Rl & Rr & _).
    destruct n' as [v' k' w'|h' s' v' k' l' r'].
    + intros (c' & Hc' & (F1 & F2 & F3 & F4 & F5 & _) & _). simplify_eq. simpl in *. congruence.
    + intros (c' & Hc' & (F1 & F2 & F3 & F4 & F5 & _) & xl' & xr' & ol' & or' & L' & R' & Rl' & Rr' & _).
      simplify_eq. simpl in *. rewrite (IHl xl l' ol ol'), (IHr xr r' or or') by done. congruence.
Qed.

(** ** Filling in hashes *)

Record fills (σ σ' : Heap) : Prop := {
  fl_length : length σ' = length σ;
  fl_cell l c : σ !! l = Some c ->
    exists c', σ' !! l = Some c' /\
      (c' = c \/
       m_hash c = None /\ exists cow n o, repr σ cow (Mem l) n o /\ c' = set_hash (HashNode n) c)
}.

Lemma fills_refl σ : fills σ σ.
Proof. split; eauto. Qed.

Lemma cell_ok_set_hash c n : cell_ok c n -> cell_ok (set_hash (HashNode n) c) n.
Proof. intros (E1 & E2 & E3 & E4 & E5 & _). repeat split; auto. Qed.

Lemma repr_fills σ σ' cow x n o : fills σ σ' -> repr σ cow x n o -> repr σ' cow x n o.
Proof.
  intros [_ Hf]. revert x o. induction n as [v k w|h s v k l IHl r IHr]; intros [i|p] o Hr; try done.
  - pose proof Hr as (c & Hc & Hok & Ho). destruct (Hf i c Hc) as (c' & Hc' & [->|(_ & cow' & n' & o' & Hn & ->)]);
      [simpl; eauto|].
    rewrite <- (repr_functional _ _ _ _ _ _ _ _ Hr Hn) in *.
    exists (set_hash (HashNode (Leaf v k w)) c). split; [done|]. split; [by apply cell_ok_set_hash|done].
  - pose proof Hr as (c & Hc & Hok & xl & xr & ol & or & L & R & Rl & Rr & D).
    destruct (Hf i c Hc) as (c' & Hc' & [->|(_ & cow' & n' & o' & Hn & ->)]).
    + exists c. split; [done|]. split; [done|]. exists xl, xr, ol, or. auto 10.
    + rewrite <- (repr_functional _ _ _ _ _ _ _ _ Hr Hn) in *.
      exists (set_hash (HashNode (Branch h s v k l r)) c). split; [done|].
      split; [by apply cell_ok_set_hash|]. exists xl, xr, ol, or. auto 10.
Qed.

Lemma repr_unfills σ σ' cow x n o : fills σ σ' -> repr σ' cow x n o -> repr σ cow x n o.
Proof.
  intros [Hlen Hf]. revert x o. induction n as [v k w|h s v k l IHl r IHr]; intros [i|p] o Hr; try done.
  - destruct Hr as (c' & Hc' & Hok & Ho).
    destruct (lookup_lt_is_Some_2 σ i) as [c Hc]; [rewrite <- Hlen; by eapply lookup_lt_Some|].
    exists c. split; [done|]. destruct (Hf i c Hc) as (c2 & Hc2 & Hor). simplify_eq.
    destruct Hor as [->|(Hn & cow' & n' & o' & _ & ->)]; [done|].
    split; [|done]. destruct Hok as (E1 & E2 & E3 & E4 & E5 & _). repeat split; auto.
  - destruct Hr as (c' & Hc' & Hok & xl & xr & ol & or & L & R & Rl & Rr & D).
    destruct (lookup_lt_is_Some_2 σ i) as [c Hc]; [rewrite <- Hlen; by eapply lookup_lt_Some|].
    exists c. split; [done|]. destruct (Hf i c Hc) as (c2 & Hc2 & Hor). simplify_eq.
    destruct Hor as [->|(Hn & cow' & n' & o' & _ & ->)]; [split; [done|]; exists xl, xr, ol, or; auto 10|].
    split; [destruct Hok as (E1 & E2 & E3 & E4 & E5 & _); repeat split; auto|].
    exists xl, xr, ol, or. auto 10.
Qed.

Lemma fills_trans σ σ1 σ2 : fills σ σ1 -> fills σ1 σ2 -> fills σ σ2.
Proof.
  intros F1 F2. split; [by rewrite (fl_length _ _ F2), (fl_length _ _ F1)|].
  intros l c Hc. destruct (fl_cell _ _ F1 l c Hc) as (c1 & Hc1 & H1).
  destruct (fl_cell _ _ F2 l c1 Hc1) as (c2 & Hc2 & H2). exists c2. split; [done|].
  destruct H1 as [->|(Hn & cow & n & o & Hr & ->)].
  - destruct H2 as [->|(Hn & cow & n & o & Hr & ->)]; [by left|]. right. split; [done|].
    exists cow, n, o. split; [by eapply repr_unfills|done].
  - destruct H2 as [->|(Hn' & _)]; [|done]. right. eauto 10.
Qed.

Lemma fills_store σ cow l c n o :
  σ !! l = Some c -> m_hash c = None -> repr σ cow (Mem l) n o ->
  fills σ (<[l:=set_hash (HashNode n) c]> σ).
Proof.
  intros Hc Hn Hr. split; [apply length_insert|]. intros l' c' Hc'.
  destruct (decide (l' = l)) as [->|Hne].
  - rewrite list_lookup_insert_eq by (by eapply lookup_lt_Some). simplify_eq.
    eexists. split; [done|]. right. eauto 10.
  - rewrite list_lookup_insert_ne by done. eauto.
Qed.

(** [Hash] returns the hash of the tree and fills in hashes. *)
Lemma h_Hash_spec fuel σ cow x n o :
  repr σ cow x n o -> fields_ok n -> height n < Z.of_nat fuel ->
  exists σ', h_Hash snap fuel x σ = Ok (HashNode n, σ') /\ fills σ σ'.
Proof.
  revert σ x n o. induction fuel as [|fuel IH]; intros σ x n o Hr Fn Hf;
    [pose proof (height_nonneg n); lia|].
  destruct x as [l|p].
  2: { exists σ. split; [|apply fills_refl]. cbn [h_Hash]. apply lift_ok.
       assert (persisted snap p n) as (lc & bc & Hp) by (destruct n; apply Hr).
       apply (reads_Hash _ _ (persists_reads _ _ _ _ _ Hp)). }
  cbn [h_Hash]. destruct n as [v k w|h s v k nl nr].
  - pose proof Hr as (c & Hc & (E1 & E2 & E3 & E4 & E5 & E6) & _). st_step Hc.
    destruct E6 as [E6|E6]; rewrite E6; [|exists σ; split; [done|apply fills_refl]].
    rewrite E1, E2, E3, E4, E5. cbn [Height Z.eqb].
    eexists. split; [|by eapply fills_store].
    erewrite st_bind_ok by reflexivity. by st_step Hc.
  - pose proof Hr as (c & Hc & (E1 & E2 & E3 & E4 & E5 & E6) & xl & xr & ol & or & L & R & Rl & Rr & _).
    st_step Hc. destruct E6 as [E6|E6]; rewrite E6; [|exists σ; split; [done|apply fills_refl]].
    pose proof Fn as (Eh & _ & _ & Fl & Fr). simpl in Hf.
    pose proof (height_nonneg nl). pose proof (height_nonneg nr).
    destruct (IH σ xl nl ol Rl Fl) as (σ1 & H1 & F1); [lia|].
    destruct (IH σ1 xr nr or (repr_fills _ _ _ _ _ _ F1 Rr) Fr) as (σ2 & H2 & F2); [lia|].
    pose proof (fills_trans _ _ _ F1 F2) as F.
    destruct (fl_cell _ _ F l c Hc) as (c' & Hc' & Hor).
    exists (<[l:=set_hash (HashNode (Branch h s v k nl nr)) c']> σ2).
    rewrite E1, L, R, E2, E3. cbn [Height Size Version]. rewrite (proj2 (Z.eqb_neq h 0)) by lia. split.
    + erewrite st_bind_ok by (st_step I; st_step H1; st_step I; st_step H2; reflexivity).
      by st_step Hc'.
    + destruct Hor as [->|(Hn & cow' & n' & o' & Hr' & ->)].
      * eapply fills_trans; [exact F|]. eapply fills_store; [done|done|]. by eapply repr_fills.
      * rewrite <- (repr_functional _ _ _ _ _ _ _ _ Hr Hr').
        replace (<[l:=_]> σ2) with σ2; [done|]. symmetry. apply list_insert_id.
        rewrite Hc', <- (repr_functional _ _ _ _ _ _ _ _ Hr Hr'). done.
Qed.
End hash.

(** ** Versions of nodes *)

Fixpoint versions_le (n : Node) (v : Z) : Prop :=
  match n with
  | Leaf nv _ _ => nv <= v
  | Branch _ _ nv _ l r => nv <= v /\ versions_le l v /\ versions_le r v
  end.

Lemma versions_le_mono n v v' : versions_le n v -> v <= v' -> versions_le n v'.
Proof. intros H Hv. induction n; simpl in *; [lia|]. destruct H as (? & ? & ?). split; [lia|auto]. Qed.

Lemma versions_Mutate n ver v : versions_le n v -> ver <= v -> versions_le (Mutate ver n) v.
Proof. destruct n; simpl; tauto. Qed.

Lemma versions_updateHeightSize n v : versions_le n v -> versions_le (updateHeightSize n) v.
Proof. by destruct n. Qed.

Lemma versions_rotateRight n ver v : versions_le n v -> ver <= v -> versions_le (rotateRight ver n) v.
Proof.
  destruct n as [|h s nv k l r]; [done|]. intros (? & Hl & ?) Hv. unfold rotateRight.
  destruct l as [|lh ls lv lk ll lr]; simpl in *; [done|tauto].
Qed.

Lemma versions_rotateLeft n ver v : versions_le n v -> ver <= v -> versions_le (rotateLeft ver n) v.
Proof.
  destruct n as [|h s nv k l r]; [done|]. intros (? & ? & Hr) Hv. unfold rotateLeft.
  destruct r as [|rh rs rv rk rl rr]; simpl in *; [done|tauto].
Qed.

Lemma versions_reBalance n ver v : versions_le n v -> ver <= v -> versions_le (reBalance ver n) v.
Proof.
  destruct n as [|h s nv k l r]; [done|]. intros Hn Hv. pose proof Hn as (? & ? & ?). unfold reBalance.
  assert (versions_le (rotateLeft ver (Mutate ver l)) v) by (by apply versions_rotateLeft; [apply versions_Mutate|]).
  assert (versions_le (rotateRight ver (Mutate ver r)) v) by (by apply versions_rotateRight; [apply versions_Mutate|]).
  repeat case_match; try done; first [apply versions_rotateRight | apply versions_rotateLeft]; done.
Qed.

Lemma versions_setRecursive n k w ver v :
  versions_le n v -> ver <= v -> versions_le (setRecursive n k w ver).1 v.
Proof.
  intros Hn Hv. induction n as [nv nk nw|h s nv nk l IHl r IHr]; simpl in *.
  - destruct (Compare k nk); simpl; lia.
  - destruct Hn as (? & Hl & Hr). specialize (IHl Hl). specialize (IHr Hr).
    destruct (Compare k nk), (setRecursive l k w ver) as [l' []], (setRecursive r k w ver) as [r' []];
      simpl in *; try tauto; apply versions_reBalance; simpl; tauto.
Qed.

Lemma versions_removeRecursive n k ver v value n' nk :
  versions_le n v -> ver <= v -> removeRecursive n k ver = (value, Some n', nk) -> versions_le n' v.
Proof.
  intros Hn Hv. revert value n' nk.
  induction n as [nv k0 nw|h s nv k0 l IHl r IHr]; intros value n' nk; simpl in *.
  - case_decide; [done|]. by intros [= <- <- <-].
  - destruct Hn as (? & Hl & Hr). specialize (IHl Hl). specialize (IHr Hr).
    destruct (removeRecursive l k ver) as [[[vl|] [l'|]] kl], (removeRecursive r k ver) as [[[vr|] [r'|]] kr],
      (Compare k k0); intros [= <- <- <-]; simpl; try tauto;
      apply versions_reBalance; try done; apply versions_updateHeightSize; simpl; eauto 10.
Qed.

(** ** A tree and its copies *)

Section system.
  Variable snap : Snapshot.
  Variable fuel : nat.
  Hypothesis fuel_enough : (89 <= fuel)%nat.

Abbreviation repr := (HeapInv.repr snap).

Definition root_repr (σ : Heap) (cow : Z) (x : option NodeRef) (r : option Node) (o : gset nat) : Prop :=
  match x, r with
  | None, None => o = ∅
  | Some x, Some n => repr σ cow x n o
  | _, _ => False
  end.

Definition root_versions (r : option Node) (v : Z) : Prop :=
  match r with None => True | Some n => versions_le n v end.

(** The heap, the tree, whether it was changed since the last version was saved, and
    the copies.  With the tree and with each copy goes the tree it denotes. *)
Record system : Type := {
  sy_heap : Heap;
  sy_tree : MemTree;
  sy_root : option Node;
  sy_dirty : bool;
  sy_copies : list (MemTree * option Node)
}.

Inductive sys_step : system -> system -> Prop :=
| step_set s k v t' σ' :
    zlen (contents (sy_root s)) + 1 < max_leaves ->
    h_tree_set snap fuel (sy_tree s) k v (sy_heap s) = Ok (t', σ') ->
    sys_step s
      {| sy_heap := σ'; sy_tree := t';
         sy_root := Some (setRoot (sy_root s) k (default [] v) (u64 (t_version (sy_tree s) + 1))).1;
         sy_dirty := true; sy_copies := sy_copies s |}
| step_remove s k t' σ' :
    zlen (contents (sy_root s)) < max_leaves ->
    h_tree_remove snap fuel (sy_tree s) k (sy_heap s) = Ok (t', σ') ->
    sys_step s
      {| sy_heap := σ'; sy_tree := t';
         sy_root := (removeRoot (sy_root s) k (u64 (t_version (sy_tree s) + 1))).1.2;
         sy_dirty := true; sy_copies := sy_copies s |}
| step_save s updateHash hash t' σ' :
    zlen (contents (sy_root s)) < max_leaves ->
    h_SaveVersion snap fuel (sy_tree s) updateHash (sy_heap s) = Ok ((hash, t'), σ') ->
    sys_step s
      {| sy_heap := σ'; sy_tree := t'; sy_root := sy_root s; sy_dirty := false;
         sy_copies := sy_copies s |}
| step_copy s t' c :
    sy_dirty s = false -> h_Copy (sy_tree s) = (t', c) ->
    sys_step s
      {| sy_heap := sy_heap s; sy_tree := t'; sy_root := sy_root s; sy_dirty := false;
         sy_copies := (c, sy_root s) :: sy_copies s |}
| step_copy_hash s c r hash σ' :
    (c, r) ∈ sy_copies s -> zlen (contents r) < max_leaves ->
    h_RootHash snap fuel c (sy_heap s) = Ok (hash, σ') ->
    sys_step s
      {| sy_heap := σ'; sy_tree := sy_tree s; sy_root := sy_root s; sy_dirty := sy_dirty s;
         sy_copies := sy_copies s |}.

Definition sys_reach : system -> system -> Prop := rtc sys_step.

(** A copy denotes its tree and none of its cells may be modified in place. *)
Definition copy_ok (σ : Heap) (cow : Z) (p : MemTree * option Node) : Prop :=
  let '(c, r) := p in
  wf_root r /\ root_repr σ (t_cowVersion c) (t_root c) r ∅ /\ t_cowVersion c <= cow.

Record sys_ok (s : system) : Prop := {
  so_wf : wf_root (sy_root s);
  so_repr : exists o, root_repr (sy_heap s) (t_cowVersion (sy_tree s)) (t_root (sy_tree s)) (sy_root s) o;
  so_versions : root_versions (sy_root s) (t_version (sy_tree s) + if sy_dirty s then 1 else 0);
  so_cow : t_cowVersion (sy_tree s) <= t_version (sy_tree s);
  so_range : 0 <= t_version (sy_tree s) <= MaxInt64;
  so_copies : Forall (copy_ok (sy_heap s) (t_cowVersion (sy_tree s))) (sy_copies s)
}.

(** ** The invariant *)

Lemma repr_immutable σ cow cow' x n o :
  repr σ cow x n o -> versions_le n cow' -> repr σ cow' x n ∅.
Proof using Type.
  clear fuel fuel_enough.
  revert x o. induction n as [v k w|h s v k l IHl r IHr]; intros [i|p] o Hr Hv; simpl in *.
  - destruct Hr as (c & Hc & Hok & _). exists c. split; [done|]. split; [done|].
    destruct Hok as (_ & _ & E & _). unfold own. simpl in E. by rewrite E, (proj2 (Z.leb_le v cow')).
  - by destruct Hr.
  - destruct Hr as (c & Hc & Hok & xl & xr & ol & or & L & R & Rl & Rr & _). destruct Hv as (Hv & Hvl & Hvr).
    exists c. split; [done|]. split; [done|]. exists xl, xr, ∅, ∅. do 2 (split; [done|]).
    split; [by eapply IHl|]. split; [by eapply IHr|].
    destruct Hok as (_ & _ & E & _). unfold own. simpl in E. rewrite E, (proj2 (Z.leb_le v cow')) by done.
    set_solver.
  - by destruct Hr.
Qed.

Lemma root_fuel r n : r = Some n -> wf_root r -> zlen (contents r) < max_leaves -> height n < Z.of_nat fuel.
Proof. intros -> Hw Hl. pose proof (height_bound n (wf_balanced n Hw) Hl). lia. Qed.

Lemma h_set_root σ cow x r o k w ver :
  root_repr σ cow x r o -> wf_root r -> zlen (contents r) + 1 < max_leaves -> cow < ver ->
  exists p u σ' o', h_set snap fuel x k w ver cow σ = Ok ((p, u), σ') /\
    repr σ' cow (Mem p) (setRoot r k w ver).1 o' /\ evolves σ σ' o o'.
Proof.
  intros Hr Hw Hl Hv. destruct x as [x|], r as [n|]; try done.
  - destruct (h_setRecursive_spec snap cow ver k w fuel n x σ o Hv Hr Hw Hl) as (p & σ' & o' & E & R & Ev).
    { apply (root_fuel (Some n) n eq_refl Hw). lia. }
    by exists p, (setRecursive n k w ver).2, σ', o'.
  - simpl in Hr. subst o. destruct (alloc_leaf snap σ cow k w ver Hv) as [E R].
    eexists _, true, _, _. split; [|split; [exact R|apply evolves_alloc]]. unfold h_set. by st_step E.
Qed.

Lemma h_remove_root σ cow x r o k ver :
  root_repr σ cow x r o -> wf_root r -> zlen (contents r) < max_leaves -> cow < ver ->
  exists y σ' o', let '(value, r', nk) := removeRoot r k ver in
    h_remove snap fuel x k ver cow σ = Ok ((value, y, nk), σ') /\
    root_repr σ' cow y r' o' /\ evolves σ σ' o o'.
Proof.
  intros Hr Hw Hl Hv. destruct x as [x|], r as [n|]; try done; simpl.
  - pose proof (removeRecursive_post n k ver Hw Hl) as Hp.
    pose proof (h_removeRecursive_spec snap cow ver k fuel n x σ o Hv Hr Hw Hl
      (root_fuel (Some n) n eq_refl Hw Hl)) as Hs.
    destruct (removeRecursive n k ver) as [[[value|] [m|]] nk]; simpl in Hp.
    + destruct Hs as (y & σ' & E & z & o' & -> & R & Ev). by exists (Some z), σ', o'.
    + destruct Hs as (y & σ' & E & -> & ->). exists None, σ, ∅. split; [done|]. split; [done|].
      eapply evolves_weaken; [apply evolves_refl|apply empty_subseteq|set_solver].
    + destruct Hs as (y & σ' & E & -> & ->). destruct Hp as (_ & [= ->] & _).
      exists (Some x), σ, o. split; [done|]. split; [done|]. apply evolves_refl.
    + by destruct Hp as (_ & ? & _).
  - exists None, σ, o. split; [done|]. split; [done|]. apply evolves_refl.
Qed.

(** The owned cells of a tree are mutable. *)
Lemma root_owned σ cow x r o l :
  root_repr σ cow x r o -> l ∈ o -> exists c, σ !! l = Some c /\ cow < m_version c.
Proof.
  destruct x, r; simpl; try done; [apply repr_owned|]. set_solver.
Qed.

(** Changes to the cells a tree owns do not reach the copies. *)
Lemma copies_frame σ σ' cow o o' cs :
  (forall l, l ∈ o -> exists c, σ !! l = Some c /\ cow < m_version c) -> evolves σ σ' o o' ->
  Forall (copy_ok σ cow) cs -> Forall (copy_ok σ' cow) cs.
Proof.
  intros Hm Ev Hcs. eapply Forall_impl; [exact Hcs|]. intros [c r] (Hw & Hr & Hc). split; [done|].
  split; [|done]. destruct (t_root c) as [x|], r as [n|]; simpl in *; try done.
  eapply repr_frame; [exact Hr|exact Ev| |set_solver].
  intros l Hl. destruct (Hm l Hl) as (c' & ? & ?). exists c'. split; [done|lia].
Qed.

Lemma root_fills σ σ' cow x r o : fills snap σ σ' -> root_repr σ cow x r o -> root_repr σ' cow x r o.
Proof. intros Hf. destruct x, r; simpl; try done. by apply repr_fills. Qed.

Lemma copies_fills σ σ' cow cs :
  fills snap σ σ' -> Forall (copy_ok σ cow) cs -> Forall (copy_ok σ' cow) cs.
Proof.
  intros Hf Hcs. eapply Forall_impl; [exact Hcs|]. intros [c r] (Hw & Hr & Hc).
  split; [done|]. split; [by eapply root_fills|done].
Qed.

Lemma h_RootHash_spec σ t r o :
  root_repr σ (t_cowVersion t) (t_root t) r o -> wf_root r -> zlen (contents r) < max_leaves ->
  exists σ', h_RootHash snap fuel t σ = Ok (match r with None => emptyHash | Some n => HashNode n end, σ') /\
    fills snap σ σ'.
Proof.
  intros Hr Hw Hl. unfold h_RootHash. destruct (t_root t) as [x|], r as [n|]; try done.
  - apply (h_Hash_spec snap fuel σ (t_cowVersion t) x n o Hr (wf_fields n Hw)).
    by apply (root_fuel (Some n) n eq_refl).
  - exists σ. split; [done|apply fills_refl].
Qed.

Lemma copies_cow σ cow cow' cs : cow <= cow' -> Forall (copy_ok σ cow) cs -> Forall (copy_ok σ cow') cs.
Proof.
  intros Hc Hcs. eapply Forall_impl; [exact Hcs|]. intros [c r] (? & ? & ?).
  split; [done|]. split; [done|]. lia.
Qed.

Lemma next_version v : 0 <= v <= MaxInt64 -> u64 (v + 1) = v + 1.
Proof. unfold MaxInt64. intros. apply u64_small. lia. Qed.

Lemma set_step_ok s k v :
  sys_ok s -> zlen (contents (sy_root s)) + 1 < max_leaves ->
  exists t' σ', h_tree_set snap fuel (sy_tree s) k v (sy_heap s) = Ok (t', σ') /\
  sys_ok {| sy_heap := σ'; sy_tree := t';
            sy_root := Some (setRoot (sy_root s) k (default [] v) (u64 (t_version (sy_tree s) + 1))).1;
            sy_dirty := true; sy_copies := sy_copies s |}.
Proof.
  intros [Hw [o Hr] Hv Hc Hrange Hcs] Hl. rewrite (next_version _ Hrange).
  destruct (h_set_root _ _ _ _ _ k (default [] v) (t_version (sy_tree s) + 1) Hr Hw Hl) as (p & u & σ' & o' & E & R & Ev); [lia|].
  eexists _, σ'. split.
  - unfold h_tree_set. rewrite (next_version _ Hrange). st_step E. reflexivity.
  - split; simpl; try done.
    + destruct (sy_root s) as [n|]; simpl in *; [|apply wf_Leaf].
      destruct (setRecursive n k (default [] v) (t_version (sy_tree s) + 1)) as [n' u'] eqn:Es.
      eapply set_result_wf; [exact Hw|]. by eapply setRecursive_result.
    + by exists o'.
    + destruct (sy_root s) as [n|]; simpl in *; [|lia].
      apply versions_setRecursive; [|lia]. eapply versions_le_mono; [exact Hv|]. destruct (sy_dirty s); lia.
    + eapply copies_frame; [|exact Ev|exact Hcs]. intros l Hin. by eapply root_owned.
Qed.

Lemma remove_step_ok s k :
  sys_ok s -> zlen (contents (sy_root s)) < max_leaves ->
  exists t' σ', h_tree_remove snap fuel (sy_tree s) k (sy_heap s) = Ok (t', σ') /\
  sys_ok {| sy_heap := σ'; sy_tree := t';
            sy_root := (removeRoot (sy_root s) k (u64 (t_version (sy_tree s) + 1))).1.2;
            sy_dirty := true; sy_copies := sy_copies s |}.
Proof.
  intros [Hw [o Hr] Hv Hc Hrange Hcs] Hl. rewrite (next_version _ Hrange).
  destruct (h_remove_root _ _ _ _ _ k (t_version (sy_tree s) + 1) Hr Hw Hl) as (y & σ' & o' & Hs); [lia|].
  destruct (removeRoot (sy_root s) k (t_version (sy_tree s) + 1)) as [[value r'] nk] eqn:Er.
  destruct Hs as (E & R & Ev). eexists _, σ'. split.
  - unfold h_tree_remove. rewrite (next_version _ Hrange). st_step E. reflexivity.
  - split; simpl; try done.
    + destruct (sy_root s) as [n|]; simpl in *; [|by injection Er as <- <- <-].
      by apply (removeRecursive_root n k _ value r' nk Hw Hl Er).
    + by exists o'.
    + destruct (sy_root s) as [n|]; simpl in *; [|by injection Er as <- <- <-].
      destruct r' as [m|]; [|done]. eapply versions_removeRecursive; [|reflexivity|exact Er].
      eapply versions_le_mono; [exact Hv|]. destruct (sy_dirty s); lia.
    + eapply copies_frame; [|exact Ev|exact Hcs]. intros l Hin. by eapply root_owned.
Qed.

Lemma sys_step_ok s s' : sys_step s s' -> sys_ok s -> sys_ok s'.
Proof.
  intros Hs Hok. destruct Hs as [s k v t' σ' Hl E|s k t' σ' Hl E|s b h t' σ' Hl E|s t' c Hd E|s c r h σ' Hin Hl E].
  - destruct (set_step_ok s k v Hok Hl) as (t1 & σ1 & E1 & H1). rewrite E in E1. by injection E1 as <- <-.
  - destruct (remove_step_ok s k Hok Hl) as (t1 & σ1 & E1 & H1). rewrite E in E1. by injection E1 as <- <-.
  - destruct Hok as [Hw [o Hr] Hv Hc Hrange Hcs]. unfold h_SaveVersion in E. rewrite (next_version _ Hrange) in E.
    destruct (Z.ltb_spec MaxInt64 (t_version (sy_tree s) + 1)) as [|Hmax]; [done|].
    assert (exists σ1, fills snap (sy_heap s) σ1 /\ σ' = σ1 /\
      t' = {| t_version := t_version (sy_tree s) + 1; t_cowVersion := t_cowVersion (sy_tree s); t_root := t_root (sy_tree s) |})
      as (σ1 & Hf & -> & ->).
    { destruct b.
      - destruct (h_RootHash_spec _ _ _ _ Hr Hw Hl) as (σ1 & E1 & Hf).
        erewrite st_bind_ok in E by (erewrite st_bind_ok by exact E1; reflexivity). injection E as <- <- <-. eauto.
      - injection E as <- <- <-. exists (sy_heap s). split; [apply fills_refl|done]. }
    split; simpl; try done; try lia.
    + exists o. by eapply root_fills.
    + destruct (sy_root s) as [n|]; [|done]. simpl in *. eapply versions_le_mono; [exact Hv|].
      destruct (sy_dirty s); lia.
    + by eapply copies_fills.
  - destruct Hok as [Hw [o Hr] Hv Hc Hrange Hcs]. rewrite Hd in Hv. unfold h_Copy in E. injection E as <- <-.
    set (cow := match t_root (sy_tree s) with Some (Mem _) => t_version (sy_tree s) | _ => t_cowVersion (sy_tree s) end).
    assert (Hcow : t_cowVersion (sy_tree s) <= cow <= t_version (sy_tree s)) by (unfold cow; destruct (t_root _) as [[]|]; lia).
    assert (Hr' : root_repr (sy_heap s) cow (t_root (sy_tree s)) (sy_root s) ∅).
    { unfold cow. destruct (t_root (sy_tree s)) as [[l|p]|], (sy_root s) as [n|]; try done.
      - eapply repr_immutable; [exact Hr|]. simpl in Hv. by rewrite Z.add_0_r in Hv.
      - by destruct n; destruct Hr. }
    split; simpl; try done; try lia; [by exists ∅|].
    constructor; [split; [done|]; split; [done|]; simpl; lia|]. eapply copies_cow; [|exact Hcs]. lia.
  - destruct Hok as [Hw [o Hr] Hv Hc Hrange Hcs]. rewrite Forall_forall in Hcs.
    destruct (Hcs _ Hin) as (Hwr & Hrr & _).
    destruct (h_RootHash_spec _ _ _ _ Hrr Hwr Hl) as (σ1 & E1 & Hf). rewrite E1 in E. injection E as <- <-.
    split; simpl; try done; [exists o; by eapply root_fills|]. eapply copies_fills; [exact Hf|]. by apply Forall_forall.
Qed.

Lemma sys_reach_ok s s' : sys_reach s s' -> sys_ok s -> sys_ok s'.
Proof. induction 1; eauto using sys_step_ok. Qed.

Lemma sys_reach_copies s s' p : sys_reach s s' -> p ∈ sy_copies s -> p ∈ sy_copies s'.
Proof.
  induction 1 as [|s s1 s2 Hs _ IH]; [done|]. intros Hp. apply IH.
  destruct Hs; simpl; try done. by right.
Qed.
End system.

(** ** Reading the heap through the interface *)

Definition heap_ops (snap : Snapshot) (fuel : nat) (σ : Heap) : NodeOps NodeRef := {|
  node_Height := ref_Height snap σ;
  node_IsLeaf := ref_IsLeaf σ;
  node_Size := ref_Size snap σ;
  node_Version := ref_Version snap σ;
  node_Key := ref_Key snap σ;
  node_Value := ref_Value snap σ;
  node_Left := ref_Left snap σ;
  node_Right := ref_Right snap σ;
  node_Hash x := fst <$> h_Hash snap fuel x σ
|}.

(** A reference denotes a tree whose depth is within the fuel of [Hash]. *)
Definition heap_denotes (snap : Snapshot) (fuel : nat) (σ : Heap) (x : NodeRef) (n : Node) : Prop :=
  exists cow o, HeapInv.repr snap σ cow x n o /\ fields_ok n /\ height n < Z.of_nat fuel.

#[export] Instance heap_laws snap fuel σ :
  @NodeLaws NodeRef (heap_ops snap fuel σ) (heap_denotes snap fuel σ).
Proof.
  split.
  - intros x n (cow & o & Hr & Fn & Hf).
    destruct (repr_reads snap _ _ _ _ _ Hr) as (E1 & E2 & E3 & E4).
    pose proof (repr_IsLeaf snap _ _ _ _ _ Hr Fn) as E5.
    destruct (h_Hash_spec snap fuel σ cow x n o Hr Fn Hf) as (σ' & E6 & _).
    split; simpl; try done; [|by rewrite E6].
    destruct x as [l|p].
    + destruct n; destruct Hr as (c & Hc & (_ & _ & E & _) & _); simpl; unfold cell; rewrite Hc; simpl; by rewrite E.
    + assert (persisted snap p n) as (lc & bc & Hp) by (destruct n; apply Hr).
      apply (reads_Version _ _ (persists_reads _ _ _ _ _ Hp)).
  - intros x h s v k l r (cow & o & Hr & (Hh & _ & _ & Fl & Fr) & Hf).
    destruct (repr_open snap _ _ _ _ _ _ _ _ _ _ Hr)
      as (c & xl & xr & ol & or & _ & _ & _ & _ & Rl & Rr & _ & _ & _ & _ & EL & ER).
    exists xl. split; [done|]. exists cow, ol. split; [done|]. split; [done|]. simpl in Hf. lia.
  - intros x h s v k l r (cow & o & Hr & (Hh & _ & _ & Fl & Fr) & Hf).
    destruct (repr_open snap _ _ _ _ _ _ _ _ _ _ Hr)
      as (c & xl & xr & ol & or & _ & _ & _ & _ & Rl & Rr & _ & _ & _ & _ & EL & ER).
    exists xr. split; [done|]. exists cow, or. split; [done|]. split; [done|]. simpl in Hf. lia.
Qed.

(** ** Properties *)

(** C6: insertion with in-place mutation and copy on write returns for every
    represented tree, and the resulting root denotes the tree that the functional insertion
    gives; only cells the tree owns (version above [cowVersion]) are modified, all
    other cells of the heap keep their contents. *)
Theorem heap_set_refines snap cow ver k w fuel n x σ o :
  cow < ver -> HeapInv.repr snap σ cow x n o -> wf n -> leaves n + 1 < max_leaves ->
  height n < Z.of_nat fuel ->
  exists p σ' o',
    h_setRecursive snap fuel x k w ver cow σ = Ok ((p, (setRecursive n k w ver).2), σ') /\
    HeapInv.repr snap σ' cow (Mem p) (setRecursive n k w ver).1 o' /\
    (forall l, (l < length σ)%nat -> l ∉ o -> σ' !! l = σ !! l).
Proof.
  intros Hv Hr Hw Hl Hf.
  destruct (h_setRecursive_spec snap cow ver k w fuel n x σ o Hv Hr Hw Hl Hf) as (p & σ' & o' & E & R & Ev).
  exists p, σ', o'. split; [done|]. split; [done|]. apply (ev_same _ _ _ _ Ev).
Qed.

(** A heap with the tree of two leaves used by the witnesses: cell 0 and 1 are the
    leaves, cell 2 the branch; the leaf "b" and the branch are of version 2. *)
Definition sample_heap : Heap :=
  [ {| m_height := 0; m_size := 1; m_version := 1; m_key := str "a"; m_value := Some (str "1");
       m_left := None; m_right := None; m_hash := None |};
    {| m_height := 0; m_size := 1; m_version := 2; m_key := str "b"; m_value := Some (str "2");
       m_left := None; m_right := None; m_hash := None |};
    {| m_height := 1; m_size := 2; m_version := 2; m_key := str "b"; m_value := None;
       m_left := Some (Mem 0); m_right := Some (Mem 1); m_hash := None |} ].
Definition sample_heap_tree : Node :=
  Branch 1 2 2 (str "b") (Leaf 1 (str "a") (str "1")) (Leaf 2 (str "b") (str "2")).

Lemma sample_heap_repr : HeapInv.repr (NewEmptySnapshot 0) sample_heap 1 (Mem 2) sample_heap_tree {[1%nat; 2%nat]}.
Proof.
  eexists. split; [reflexivity|]. split; [by repeat split; auto|].
  exists (Mem 0), (Mem 1), ∅, {[1%nat]}. do 2 (split; [reflexivity|]).
  split; [eexists; split; [reflexivity|]; split; [by repeat split; auto|reflexivity]|].
  split; [eexists; split; [reflexivity|]; split; [by repeat split; auto|reflexivity]|].
  split; [set_solver|]. split; [set_solver|]. split; [apply not_elem_of_singleton; lia|].
  change (own 1 2 _) with ({[2%nat]} : gset nat). set_solver.
Qed.

Lemma heap_set_refines_witness :
  exists p σ' o',
    h_setRecursive (NewEmptySnapshot 0) 5 (Mem 2) (str "c") (str "3") 3 1 sample_heap
      = Ok ((p, (setRecursive sample_heap_tree (str "c") (str "3") 3).2), σ') /\
    HeapInv.repr (NewEmptySnapshot 0) σ' 1 (Mem p) (setRecursive sample_heap_tree (str "c") (str "3") 3).1 o' /\
    (forall l, (l < length sample_heap)%nat -> l ∉ ({[1%nat; 2%nat]} : gset nat) -> σ' !! l = sample_heap !! l).
Proof.
  apply (heap_set_refines (NewEmptySnapshot 0) 1 3 (str "c") (str "3") 5 sample_heap_tree (Mem 2) sample_heap);
    [lia|exact sample_heap_repr|apply wfb_sound; vm_compute; reflexivity|vm_compute; reflexivity|vm_compute; reflexivity].
Defined.

(** C7: removal with in-place mutation and copy on write returns and gives the value,
    the root and the new key that the functional removal gives; only owned cells are
    modified. *)
Theorem heap_remove_refines snap cow ver k fuel n x σ o :
  cow < ver -> HeapInv.repr snap σ cow x n o -> wf n -> leaves n < max_leaves ->
  height n < Z.of_nat fuel ->
  let '(value, n', newKey) := removeRecursive n k ver in
  exists y σ',
    h_removeRecursive snap fuel x k ver cow σ = Ok ((value, y, newKey), σ') /\
    (exists o', root_repr snap σ' cow y n' o') /\
    (forall l, (l < length σ)%nat -> l ∉ o -> σ' !! l = σ !! l).
Proof.
  intros Hv Hr Hw Hl Hf. pose proof (removeRecursive_post n k ver Hw Hl) as Hp.
  pose proof (h_removeRecursive_spec snap cow ver k fuel n x σ o Hv Hr Hw Hl Hf) as Hs.
  destruct (removeRecursive n k ver) as [[[value|] [m|]] newKey]; simpl in Hp.
  - destruct Hs as (y & σ' & E & z & o' & -> & R & Ev). exists (Some z), σ'.
    split; [done|]. split; [by exists o'|]. apply (ev_same _ _ _ _ Ev).
  - destruct Hs as (y & σ' & E & -> & ->). exists None, σ. split; [done|]. by split; [exists ∅|].
  - destruct Hs as (y & σ' & E & -> & ->). destruct Hp as (_ & [= ->] & _).
    exists (Some x), σ. split; [done|]. by split; [exists o|].
  - by destruct Hp as (_ & ? & _).
Qed.

Lemma heap_remove_refines_witness :
  let '(value, n', newKey) := removeRecursive sample_heap_tree (str "a") 3 in
  exists y σ',
    h_removeRecursive (NewEmptySnapshot 0) 5 (Mem 2) (str "a") 3 1 sample_heap = Ok ((value, y, newKey), σ') /\
    (exists o', root_repr (NewEmptySnapshot 0) σ' 1 y n' o') /\
    (forall l, (l < length sample_heap)%nat -> l ∉ ({[1%nat; 2%nat]} : gset nat) -> σ' !! l = sample_heap !! l).
Proof.
  apply (heap_remove_refines (NewEmptySnapshot 0) 1 3 (str "a") 5 sample_heap_tree (Mem 2) sample_heap);
    [lia|exact sample_heap_repr|apply wfb_sound; vm_compute; reflexivity|vm_compute; reflexivity|vm_compute; reflexivity].
Defined.

(** C8: copies are isolated.  In any run of updates, removals, version saves, hash
    computations and further copies of committed trees, every copy keeps denoting the tree it
    was made of, although it shares cells with the tree that is modified, and its root
    hash is the hash of that tree; the tree itself denotes the functional result. *)
Theorem copy_isolation snap fuel s s' c r :
  (89 <= fuel)%nat -> sys_ok snap s -> sys_reach snap fuel s s' -> (c, r) ∈ sy_copies s ->
  zlen (contents r) < max_leaves ->
  root_repr snap (sy_heap s') (t_cowVersion c) (t_root c) r ∅ /\
  (exists σ'', h_RootHash snap fuel c (sy_heap s') =
     Ok (match r with None => emptyHash | Some n => HashNode n end, σ'')) /\
  (exists o, root_repr snap (sy_heap s') (t_cowVersion (sy_tree s')) (t_root (sy_tree s')) (sy_root s') o).
Proof.
  intros Hf Hok Hreach Hin Hl. pose proof (sys_reach_ok snap fuel Hf s s' Hreach Hok) as Hok'.
  pose proof (sys_reach_copies snap fuel s s' _ Hreach Hin) as Hin'.
  pose proof (so_copies _ _ Hok') as Hcs. rewrite Forall_forall in Hcs.
  destruct (Hcs _ Hin') as (Hw & Hr & _). split; [done|]. split; [|apply (so_repr _ _ Hok')].
  destruct (h_RootHash_spec snap fuel Hf _ _ _ _ Hr Hw Hl) as (σ'' & E & _). by exists σ''.
Qed.

(** The sample heap as a committed tree of version 2 with one copy. *)
Definition sample_copy : MemTree := {| t_version := 2; t_cowVersion := 2; t_root := Some (Mem 2) |}.
Definition sample_system : system :=
  {| sy_heap := sample_heap; sy_tree := sample_copy; sy_root := Some sample_heap_tree;
     sy_dirty := false; sy_copies := [(sample_copy, Some sample_heap_tree)] |}.

Lemma sample_system_ok : sys_ok (NewEmptySnapshot 0) sample_system.
Proof.
  assert (Hr : HeapInv.repr (NewEmptySnapshot 0) sample_heap 2 (Mem 2) sample_heap_tree ∅).
  { eapply repr_immutable; [exact sample_heap_repr|]. vm_compute. repeat split; discriminate. }
  assert (Hw : wf sample_heap_tree) by (apply wfb_sound; vm_compute; reflexivity).
  split.
  - exact Hw.
  - exists ∅. exact Hr.
  - vm_compute. repeat split; discriminate.
  - cbn. lia.
  - cbn. unfold MaxInt64. lia.
  - constructor; [|constructor]. split; [exact Hw|]. split; [exact Hr|cbn; lia].
Qed.

Lemma copy_isolation_witness :
  exists s', sys_reach (NewEmptySnapshot 0) 89 sample_system s' /\
  sy_root s' = Some (setRecursive sample_heap_tree (str "b") (str "9") 3).1 /\
  root_repr (NewEmptySnapshot 0) (sy_heap s') 2 (Some (Mem 2)) (Some sample_heap_tree) ∅ /\
  (exists σ'', h_RootHash (NewEmptySnapshot 0) 89 sample_copy (sy_heap s') =
     Ok (HashNode sample_heap_tree, σ'')) /\
  (exists o, root_repr (NewEmptySnapshot 0) (sy_heap s') (t_cowVersion (sy_tree s')) (t_root (sy_tree s'))
     (sy_root s') o).
Proof.
  destruct (set_step_ok (NewEmptySnapshot 0) 89 (le_n _) sample_system (str "b") (Some (str "9"))
    sample_system_ok) as (t' & σ' & E & _); [vm_compute; reflexivity|].
  assert (Hs : exists s', sys_reach (NewEmptySnapshot 0) 89 sample_system s' /\
    sy_root s' = Some (setRecursive sample_heap_tree (str "b") (str "9") 3).1).
  { eexists. split; [apply rtc_once, (step_set (NewEmptySnapshot 0) 89 sample_system (str "b") (Some (str "9")) t' σ');
      [vm_compute; reflexivity|exact E]|reflexivity]. }
  destruct Hs as (s' & Hreach & Hroot). exists s'. split; [exact Hreach|]. split; [exact Hroot|].
  apply (copy_isolation (NewEmptySnapshot 0) 89 sample_system s' sample_copy (Some sample_heap_tree));
    [lia|exact sample_system_ok|exact Hreach|by left|vm_compute; reflexivity].
Defined.

(** The values a key has in a copy made of a tree with unsaved changes, before and
    after the tree is changed again. *)
Definition dirty_copy_run : res (option bytes * option bytes) :=
  let snap := NewEmptySnapshot 0 in
  let t0 := {| t_version := 2; t_cowVersion := 2; t_root := Some (Mem 2) |} in
  '(t1, σ1) ← h_tree_set snap 89 t0 (str "b") (Some (str "7")) sample_heap;
  let '(t2, copy) := h_Copy t1 in
  '(t3, σ2) ← h_tree_set snap 89 t2 (str "b") (Some (str "9")) σ1;
  let value σ := match t_root copy with
                 | Some x => ref_Right snap σ x ≫= ref_Value snap σ
                 | None => Panic
                 end in
  before ← value σ1;
  after ← value σ2;
  Ok (before, after).

(** a copy of a tree with unsaved changes is not isolated: nodes of the unsaved
    version are above the [cowVersion] that [Copy] sets, so a later update of the
    tree changes them in place and shows through the copy. *)
Theorem dirty_copy_not_isolated : dirty_copy_run = Ok (Some (str "7"), Some (str "9")).
Proof. vm_compute. reflexivity. Qed.
