(* ===== verification/Wal.v ===== *)
(** * The write-ahead log (memiavl/wal.go)

    The log itself is github.com/tidwall/wal: a class with the operations the code calls
    and the laws its documentation states, with an in-memory list as an instance.  What
    wal.go adds is modelled: opening a log whose last segment has a corrupted tail. *)

From Stdlib Require Import Strings.Byte ZArith Lia.
From stdpp Require Import base list numbers strings.
From S2P Require Import Prelude Binary.
Local Open Scope Z_scope.

(** ** The log *)

Definition ErrCorrupt : error := "log corrupt".
Definition ErrOutOfOrder : error := "out of order".
Definition ErrOutOfRange : error := "out of range".
Definition ErrNotFound : error := "not found".

(** The entries of a log: the index of the first one and the data. *)
Record wal_view : Type := { wv_first : Z; wv_entries : list bytes }.

Definition wv_last (w : wal_view) : Z := wv_first w + zlen (wv_entries w) - 1.
Definition wv_read (w : wal_view) (i : Z) : option bytes :=
  if i <? wv_first w then None else wv_entries w !! Z.to_nat (i - wv_first w).
Definition wv_append (w : wal_view) (l : list bytes) : wal_view :=
  {| wv_first := wv_first w; wv_entries := wv_entries w ++ l |}.
Definition wv_truncate_front (w : wal_view) (i : Z) : wal_view :=
  {| wv_first := i; wv_entries := drop (Z.to_nat (i - wv_first w)) (wv_entries w) |}.
Definition wv_truncate_back (w : wal_view) (i : Z) : wal_view :=
  {| wv_first := wv_first w; wv_entries := take (Z.to_nat (i - wv_first w + 1)) (wv_entries w) |}.

Class WalOps (L : Type) := {
  wal_LastIndex : L -> res Z;
  wal_Read : L -> Z -> res bytes;
  wal_WriteBatch : L -> list (Z * bytes) -> res L;
  wal_TruncateFront : L -> Z -> res L;
  wal_TruncateBack : L -> Z -> res L
}.

(** The entries of a batch follow the log. *)
Fixpoint in_order (last : Z) (batch : list (Z * bytes)) : bool :=
  match batch with
  | [] => true
  | (i, _) :: batch => (i =? last + 1) && in_order i batch
  end.

(** A log that works: indices are consecutive, entries are appended at the end, and
    truncation at an index of the log keeps that entry. *)
Class WalLaws (L : Type) `{WalOps L} := {
  view : L -> wal_view;
  wal_first l : 1 <= wv_first (view l);
  wal_LastIndex_view l : wal_LastIndex l = Ok (wv_last (view l));
  wal_Read_view l i :
    wal_Read l i = match wv_read (view l) i with Some bz => Ok bz | None => Err ErrNotFound end;
  wal_WriteBatch_view l batch :
    in_order (wv_last (view l)) batch = true ->
    exists l', wal_WriteBatch l batch = Ok l' /\ view l' = wv_append (view l) batch.*2;
  wal_WriteBatch_order l batch :
    in_order (wv_last (view l)) batch = false -> wal_WriteBatch l batch = Err ErrOutOfOrder;
  wal_TruncateFront_view l i :
    wv_first (view l) <= i <= wv_last (view l) ->
    exists l', wal_TruncateFront l i = Ok l' /\ view l' = wv_truncate_front (view l) i;
  wal_TruncateFront_range l i :
    ~ wv_first (view l) <= i <= wv_last (view l) -> wal_TruncateFront l i = Err ErrOutOfRange;
  wal_TruncateBack_view l i :
    wv_first (view l) <= i <= wv_last (view l) ->
    exists l', wal_TruncateBack l i = Ok l' /\ view l' = wv_truncate_back (view l) i;
  wal_TruncateBack_range l i :
    ~ wv_first (view l) <= i <= wv_last (view l) -> wal_TruncateBack l i = Err ErrOutOfRange
}.

(** ** A log in memory *)

Record mem_log : Type := { ml_first : positive; ml_entries : list bytes }.
Definition ml_view (l : mem_log) : wal_view :=
  {| wv_first := Z.pos (ml_first l); wv_entries := ml_entries l |}.
Definition ml_in_range (l : mem_log) (i : Z) : bool :=
  (wv_first (ml_view l) <=? i) && (i <=? wv_last (ml_view l)).

#[export] Instance mem_log_ops : WalOps mem_log := {|
  wal_LastIndex l := Ok (wv_last (ml_view l));
  wal_Read l i := match wv_read (ml_view l) i with Some bz => Ok bz | None => Err ErrNotFound end;
  wal_WriteBatch l batch :=
    if in_order (wv_last (ml_view l)) batch
    then Ok {| ml_first := ml_first l; ml_entries := ml_entries l ++ batch.*2 |}
    else Err ErrOutOfOrder;
  wal_TruncateFront l i :=
    if ml_in_range l i
    then Ok {| ml_first := Z.to_pos i; ml_entries := wv_entries (wv_truncate_front (ml_view l) i) |}
    else Err ErrOutOfRange;
  wal_TruncateBack l i :=
    if ml_in_range l i
    then Ok {| ml_first := ml_first l; ml_entries := wv_entries (wv_truncate_back (ml_view l) i) |}
    else Err ErrOutOfRange
|}.

#[export] Instance mem_log_laws : WalLaws mem_log.
Proof.
  refine {| view := ml_view |}.
  - intros l. simpl. lia.
  - done.
  - done.
  - intros l batch E. simpl. rewrite E. by eexists.
  - intros l batch E. simpl. by rewrite E.
  - intros l i Hi. simpl wal_TruncateFront. unfold ml_in_range.
    rewrite (proj2 (Z.leb_le _ _)), (proj2 (Z.leb_le _ _)) by lia.
    eexists. split; [done|]. unfold ml_view at 1, wv_truncate_front. simpl in *. f_equal. lia.
  - intros l i Hi. simpl wal_TruncateFront. unfold ml_in_range.
    destruct (Z.leb_spec (wv_first (ml_view l)) i), (Z.leb_spec i (wv_last (ml_view l))); try done. lia.
  - intros l i Hi. simpl wal_TruncateBack. unfold ml_in_range.
    rewrite (proj2 (Z.leb_le _ _)), (proj2 (Z.leb_le _ _)) by lia. by eexists.
  - intros l i Hi. simpl wal_TruncateBack. unfold ml_in_range.
    destruct (Z.leb_spec (wv_first (ml_view l)) i), (Z.leb_spec i (wv_last (ml_view l))); try done. lia.
Defined.

(** ** Corrupted tails *)

Inductive LogFormat : Type := Binary | JSON.

(** [bytes.IndexByte] *)
Fixpoint IndexByte (data : bytes) (c : byte) : Z :=
  match data with
  | [] => -1
  | b :: data =>
      if decide (b = c) then 0
      else let i := IndexByte data c in if i =? -1 then -1 else i + 1
  end.

Definition loadNextBinaryEntry (data : bytes) : res Z :=
  let '(size, n) := Uvarint data in
  if n <=? 0 then Err ErrCorrupt else
  if u64 (zlen data - n) <? size then Err ErrCorrupt else
  Ok (i64 (n + i64 size)).

Section tail.
  (** [gjson.Get(line, "data").Type == gjson.String] *)
  Variable data_is_string : bytes -> bool.

Definition loadNextJSONEntry (data : bytes) : res Z :=
  let idx := IndexByte data Byte.x0a in
  if idx =? -1 then Err ErrCorrupt else
  line ← of_option (slice data 0 idx);
  if negb (data_is_string line) then Err ErrCorrupt else Ok (idx + 1).

Definition loadNextEntry (format : LogFormat) (data : bytes) : res Z :=
  match format with JSON => loadNextJSONEntry data | Binary => loadNextBinaryEntry data end.

(** The loop over the entries: the position and the data left.  An entry has at least a
    byte, so the length of the data bounds the rounds. *)
Fixpoint tail_loop (format : LogFormat) (fuel : nat) (data : bytes) (pos : Z) : res (Z * bytes) :=
  match fuel with
  | O => out_of_fuel
  | S fuel =>
      if 0 <? zlen data then
        match loadNextEntry format data with
        | Ok n =>
            rest ← of_option (slice data n (zlen data));
            tail_loop format fuel rest (pos + n)
        | Err e => if bool_decide (e = ErrCorrupt) then Ok (pos, data) else Err e
        | Panic => Panic
        end
      else Ok (pos, data)
  end.

(** The contents of the file afterwards. *)
Definition truncateCorruptedTail (format : LogFormat) (file : bytes) : res bytes :=
  '(pos, data) ← tail_loop format (S (length file)) file 0;
  if negb (pos =? zlen data) then Ok (take (Z.to_nat pos) file) else Ok file.

(** The directory of the log: its entries ordered by name, a sub-directory without
    contents.  [open] is [wal.Open]. *)
Definition wal_dir : Type := list (bytes * option bytes).
Context {L : Type} (open : wal_dir -> res L).

Definition is_segment (fi : bytes * option bytes) : bool :=
  match fi.2 with None => false | Some _ => negb (zlen fi.1 <? 20) end.
Definition lastSeg (fis : wal_dir) : bytes :=
  foldl (fun lastSeg fi => if is_segment fi then fi.1 else lastSeg) [] fis.
Definition read_seg (dir : wal_dir) (name : bytes) : res bytes :=
  match kv_lookup name dir with Some (Some data) => Ok data | _ => Err "file does not exist" end.
Definition write_seg (dir : wal_dir) (name data : bytes) : wal_dir :=
  map (fun fi => if decide (fi.1 = name) then (name, Some data) else fi) dir.

(** The directory afterwards and the log, [None] for a nil log without an error. *)
Definition OpenWAL (format : LogFormat) (dir : wal_dir) : wal_dir * res (option L) :=
  match open dir with
  | Ok log => (dir, Ok (Some log))
  | Panic => (dir, Panic)
  | Err e =>
      if bool_decide (e = ErrCorrupt) then
        let name := lastSeg dir in
        if zlen name =? 0 then (dir, Ok None)
        else match data ← read_seg dir name; truncateCorruptedTail format data with
             | Ok data =>
                 let dir := write_seg dir name data in
                 (dir, log ← open dir; Ok (Some log))
             | Err e => (dir, Err e)
             | Panic => (dir, Panic)
             end
      else (dir, Err e)
  end.
End tail.

(** ** The valid prefix of a segment *)

(** The binary format of an entry. *)
Definition entry_bytes (bz : bytes) : bytes := PutUvarint (zlen bz) ++ bz.

Lemma loadNextBinaryEntry_entry bz rest :
  zlen (entry_bytes bz) + zlen rest < 2 ^ 63 ->
  loadNextBinaryEntry (entry_bytes bz ++ rest) = Ok (zlen (entry_bytes bz)).
Proof.
  unfold loadNextBinaryEntry, entry_bytes. rewrite zlen_app. intros Hl.
  pose proof (zlen_nonneg bz). pose proof (zlen_nonneg rest). pose proof (zlen_nonneg (PutUvarint (zlen bz))).
  rewrite <- app_assoc, Uvarint_PutUvarint by lia.
  assert (zlen (PutUvarint (zlen bz)) <> 0).
  { pose proof (PutUvarint_nonempty (zlen bz)). unfold zlen. destruct (PutUvarint _); [done|simpl; lia]. }
  rewrite (proj2 (Z.leb_gt _ _)) by lia. rewrite !zlen_app.
  rewrite u64_small, (proj2 (Z.ltb_ge _ _)), (i64_small (zlen bz)), i64_small by lia. done.
Qed.

Section tail_spec.
  Variable data_is_string : bytes -> bool.

Lemma tail_loop_entries es tail fuel pos :
  zlen (concat (map entry_bytes es)) + zlen tail < 2 ^ 63 ->
  (length es < fuel)%nat -> (tail = [] \/ loadNextBinaryEntry tail = Err ErrCorrupt) ->
  tail_loop data_is_string Binary fuel (concat (map entry_bytes es) ++ tail) pos =
    Ok (pos + zlen (concat (map entry_bytes es)), tail).
Proof.
  revert fuel pos. induction es as [|bz es IH]; intros fuel pos Hl Hf Ht; (destruct fuel as [|fuel]; [simpl in Hf; lia|]).
  - cbn [map concat app tail_loop]. change (zlen []) with 0. rewrite Z.add_0_r.
    destruct Ht as [->|Ht]; [done|]. destruct (0 <? zlen tail); [|done].
    cbn [loadNextEntry]. by rewrite Ht.
  - cbn [map concat] in *. rewrite zlen_app in *. set (es' := concat (map entry_bytes es)) in *.
    rewrite <- app_assoc. cbn [tail_loop loadNextEntry].
    assert (0 < zlen (entry_bytes bz)).
    { unfold entry_bytes. rewrite zlen_app. pose proof (zlen_nonneg bz).
      pose proof (PutUvarint_nonempty (zlen bz)). unfold zlen in *.
      destruct (PutUvarint _); [done|simpl; lia]. }
    pose proof (zlen_nonneg (es' ++ tail)).
    rewrite (proj2 (Z.ltb_lt 0 _)) by (rewrite zlen_app; lia).
    rewrite loadNextBinaryEntry_entry by (rewrite zlen_app; lia).
    rewrite (slice_end (entry_bytes bz) (es' ++ tail)) by (rewrite ?zlen_app; lia).
    cbn [of_option mbind res_bind]. simpl in Hf. rewrite IH by (done || lia).
    do 2 f_equal. lia.
Qed.

Lemma truncate_entries es tail :
  zlen (concat (map entry_bytes es)) + zlen tail < 2 ^ 63 ->
  (tail = [] \/ loadNextBinaryEntry tail = Err ErrCorrupt) ->
  truncateCorruptedTail data_is_string Binary (concat (map entry_bytes es) ++ tail) =
    Ok (if zlen (concat (map entry_bytes es)) =? zlen tail
        then concat (map entry_bytes es) ++ tail else concat (map entry_bytes es)).
Proof.
  intros Hl Ht. unfold truncateCorruptedTail.
  assert (Hf : (length es <= length (concat (map entry_bytes es)))%nat).
  { clear. induction es as [|e es IH]; [done|]. simpl. rewrite length_app. unfold entry_bytes at 1.
    rewrite length_app. pose proof (PutUvarint_nonempty (zlen e)). destruct (PutUvarint _); [done|simpl; lia]. }
  rewrite tail_loop_entries; [|done|rewrite length_app; lia|done]. cbn [mbind res_bind]. rewrite Z.add_0_l.
  destruct (_ =? _); [done|]. cbn [negb]. unfold zlen. by rewrite Nat2Z.id, take_app_length.
Qed.
End tail_spec.

(** ** Properties *)


(** a corrupted tail as long as the entries before it is left in the file, because
    the position is compared with the number of bytes left and not of the file. *)
Theorem truncateCorruptedTail_same_length data_is_string :
  loadNextBinaryEntry (map byte_of_Z [9; 0]) = Err ErrCorrupt /\
  truncateCorruptedTail data_is_string Binary (entry_bytes (str "a") ++ map byte_of_Z [9; 0]) =
    Ok (entry_bytes (str "a") ++ map byte_of_Z [9; 0]).
Proof. split; vm_compute; reflexivity. Qed.

