(* ===== verification/State.v ===== *)
(** * Computations with a state, and sorting

    Methods that return an error leave the receiver in the state they have reached:
    a computation over [St] returns the new state with the result, also on an error.
    [SliceStable] is Go's [sort.SliceStable] by a string key. *)

From Stdlib Require Import Strings.Byte ZArith Lia.
From stdpp Require Import base list numbers strings sorting.
From S2P Require Import Prelude Binary.
Local Open Scope Z_scope.

(** ** State and errors *)

Definition SE (St A : Type) : Type := St -> St * res A.

#[export] Instance SE_ret St : MRet (SE St) := fun A a s => (s, Ok a).
#[export] Instance SE_bind St : MBind (SE St) := fun A B f m s =>
  match m s with
  | (s, Ok a) => f a s
  | (s, Err e) => (s, Err e)
  | (s, Panic) => (s, Panic)
  end.

Definition gets {St A} (f : St -> A) : SE St A := fun s => (s, Ok (f s)).
Definition modify {St} (f : St -> St) : SE St unit := fun s => (f s, Ok tt).
Definition throw {St A} (e : error) : SE St A := fun s => (s, Err e).
Definition lift {St A} (r : res A) : SE St A := fun s => (s, r).

(** A loop over a slice that stops at the first error. *)
Fixpoint for_each {St A} (f : A -> SE St unit) (l : list A) : SE St unit :=
  match l with
  | [] => mret tt
  | x :: l => f x ;; for_each f l
  end.

Section se.
Context {St : Type}.

Lemma SE_bind_ok {A B} (m : SE St A) (f : A -> SE St B) s s'' b :
  (m ≫= f) s = (s'', Ok b) <-> exists s' a, m s = (s', Ok a) /\ f a s' = (s'', Ok b).
Proof.
  unfold mbind, SE_bind. split.
  - destruct (m s) as [s' [a|e|]] eqn:E; [eauto|done|done].
  - intros (s' & a & -> & E). done.
Qed.

Lemma for_each_cons_ok {A} (f : A -> SE St unit) x l s s'' :
  for_each f (x :: l) s = (s'', Ok tt) <-> exists s', f x s = (s', Ok tt) /\ for_each f l s' = (s'', Ok tt).
Proof.
  cbn [for_each]. rewrite SE_bind_ok. split.
  - intros (s' & [] & E1 & E2). eauto.
  - intros (s' & E1 & E2). eauto.
Qed.

(** An invariant of a computation that succeeds. *)
Lemma for_each_invariant {A} (P : St -> Prop) (f : A -> SE St unit) l s s' :
  (forall x s s', x ∈ l -> P s -> f x s = (s', Ok tt) -> P s') ->
  P s -> for_each f l s = (s', Ok tt) -> P s'.
Proof.
  revert s. induction l as [|x l IH]; intros s Hf Hs E.
  - by injection E as <-.
  - apply for_each_cons_ok in E as (s1 & E1 & E2). apply (IH s1); [|by eapply Hf; [left| |]|done].
    intros y t t' Hy. apply Hf. by right.
Qed.
End se.

(** ** Stable sorting *)

Section sort.
Context {A : Type} (key : A -> bytes).

Fixpoint insert_by (x : A) (l : list A) : list A :=
  match l with
  | [] => [x]
  | y :: l' => if ltb (key y) (key x) then y :: insert_by x l' else x :: l
  end.
Definition SliceStable (l : list A) : list A := foldr insert_by [] l.

(** The keys are strictly increasing. *)
Definition sorted_by (l : list A) : Prop := StronglySorted bytes_lt (map key l).

Lemma insert_by_perm x l : insert_by x l ≡ₚ x :: l.
Proof.
  induction l as [|y l IH]; simpl; [done|]. destruct (ltb _ _); [|done].
  rewrite IH. apply Permutation_swap.
Qed.

Lemma SliceStable_perm l : SliceStable l ≡ₚ l.
Proof. induction l as [|x l IH]; simpl; [done|]. by rewrite insert_by_perm, IH. Qed.

Lemma sorted_by_cons x l :
  sorted_by (x :: l) <-> (forall y, y ∈ l -> bytes_lt (key x) (key y)) /\ sorted_by l.
Proof.
  unfold sorted_by. cbn [map]. split.
  - intros [Hs Hf]%StronglySorted_inv. split; [|done]. intros y Hy. rewrite Forall_forall in Hf.
    apply Hf. by apply list_elem_of_fmap_2.
  - intros [Hf Hs]. constructor; [done|]. apply Forall_forall. intros k Hk.
    apply list_elem_of_fmap in Hk as (y & -> & Hy). by apply Hf.
Qed.

Lemma insert_by_sorted x l :
  sorted_by l -> key x ∉ map key l -> sorted_by (insert_by x l).
Proof.
  induction l as [|y l IH]; simpl; intros Hs Hx.
  { apply sorted_by_cons. split; [|done]. intros y Hy. by apply not_elem_of_nil in Hy. }
  apply not_elem_of_cons in Hx as [Hne Hx]. pose proof Hs as Hs0.
  apply sorted_by_cons in Hs as [Hlt Hs]. destruct (ltb_spec (key y) (key x)) as [H|H].
  - apply sorted_by_cons. split; [|by apply IH]. intros z Hz.
    rewrite insert_by_perm in Hz. apply elem_of_cons in Hz as [->|Hz]; [done|by apply Hlt].
  - assert (bytes_lt (key x) (key y)) as Hxy by bytes_order.
    apply sorted_by_cons. split; [|done]. intros z [->|Hz]%elem_of_cons; [done|].
    specialize (Hlt z Hz). bytes_order.
Qed.

Lemma SliceStable_sorted l : NoDup (map key l) -> sorted_by (SliceStable l).
Proof.
  induction l as [|x l IH]; cbn [map]; [intros; apply SSorted_nil|].
  intros [Hx Hl]%NoDup_cons. cbn [SliceStable foldr]. fold (SliceStable l).
  apply insert_by_sorted; [by apply IH|]. intros Hin. apply Hx.
  rewrite <- (Permutation_map key (SliceStable_perm l)). done.
Qed.

Lemma sorted_by_NoDup l : sorted_by l -> NoDup (map key l).
Proof.
  induction l as [|x l IH]; [constructor|]. intros [Hlt Hs]%sorted_by_cons. cbn [map].
  constructor; [|by apply IH]. intros (y & E & Hy)%list_elem_of_fmap.
  specialize (Hlt y Hy). rewrite E in Hlt. by apply bytes_lt_irrefl in Hlt.
Qed.

(** Only one strictly sorted list has given elements. *)
Lemma sorted_by_unique l l' : sorted_by l -> sorted_by l' -> l ≡ₚ l' -> l = l'.
Proof.
  revert l'. induction l as [|x l IH]; intros l' Hl Hl' Hp.
  { by apply Permutation_nil in Hp. }
  destruct l' as [|y l']; [by apply Permutation_sym, Permutation_nil in Hp|].
  apply sorted_by_cons in Hl as [Hx Hl]. apply sorted_by_cons in Hl' as [Hy Hl'].
  assert (x = y) as ->.
  { assert (Hxin : x ∈ y :: l') by (rewrite <- Hp; by left).
    assert (Hyin : y ∈ x :: l) by (rewrite Hp; by left).
    apply elem_of_cons in Hxin as [|Hxin]; [done|]. apply elem_of_cons in Hyin as [|Hyin]; [done|].
    specialize (Hx y Hyin). specialize (Hy x Hxin). exfalso. bytes_order. }
  f_equal. apply IH; [done|done|]. by apply Permutation_cons_inv in Hp.
Qed.

Lemma SliceStable_id l : sorted_by l -> SliceStable l = l.
Proof.
  intros Hl. apply sorted_by_unique; [|done|apply SliceStable_perm].
  apply SliceStable_sorted. by apply sorted_by_NoDup.
Qed.

Lemma SliceStable_unique l l' : NoDup (map key l) -> l ≡ₚ l' -> SliceStable l = SliceStable l'.
Proof.
  intros Hl Hp. apply sorted_by_unique.
  - by apply SliceStable_sorted.
  - apply SliceStable_sorted. by rewrite <- Hp.
  - by rewrite !SliceStable_perm.
Qed.

(** The position of a key. *)
Lemma sorted_by_lookup l i j x y :
  sorted_by l -> l !! i = Some x -> l !! j = Some y -> key x = key y -> i = j.
Proof.
  intros Hs%sorted_by_NoDup Hi Hj E. eapply (NoDup_lookup _ i j (key x) Hs).
  - by rewrite list_lookup_fmap, Hi.
  - by rewrite list_lookup_fmap, Hj, E.
Qed.
End sort.
