(* ===== verification/Handles.v ===== *)
(** * Files of snapshots and their holders (memiavl/mmap.go, snapshot.go, tree.go)

    The files of a snapshot are mapped into memory when it is opened.  The trees that read from
    it, the one it was loaded for and its copies, share it and count themselves; the last one
    to be closed unmaps the files.  Here files and mappings are resources of the operating
    system, snapshots are shared cells with a counter, and trees are handles.  [Snapshot] and
    [Tree] have the contents of a snapshot as a value: the theorems of this file say when a
    holder may read them. *)

From Stdlib Require Import Strings.Byte ZArith Lia.
From stdpp Require Import base list numbers strings gmap relations.
From S2P Require Import Prelude Binary State Snapshot.
Local Open Scope Z_scope.

(** ** The operating system *)

(** Files by descriptor, whether they are open, and mappings by address, with their data. *)
Record os : Type := { files : list bool; regions : list (option bytes) }.

Definition os_Open : SE os nat := fun o =>
  ({| files := files o ++ [true]; regions := regions o |}, Ok (length (files o))).
Definition file_Close (file : nat) : SE os unit := fun o =>
  match files o !! file with
  | Some true => ({| files := <[file := false]> (files o); regions := regions o |}, Ok tt)
  | _ => (o, Err "file already closed")
  end.
Definition mmap (data : bytes) : SE os nat := fun o =>
  ({| files := files o; regions := regions o ++ [Some data] |}, Ok (length (regions o))).
Definition Munmap (handle : nat) : SE os unit := fun o =>
  match regions o !! handle with
  | Some (Some _) => ({| files := files o; regions := <[handle := None]> (regions o) |}, Ok tt)
  | _ => (o, Err "invalid argument")
  end.

(** [errors.Join] *)
Definition err_of (r : res unit) : option error := match r with Err e => Some e | _ => None end.
Definition Join (errs : list (option error)) : res unit :=
  match omap id errs with
  | [] => Ok tt
  | e :: errs => Err (foldl (fun s e => String.append s (String.append "; " e)) e errs)
  end.

(** ** Mapped files (mmap.go) *)

Record MmapFile : Type := { mm_file : nat; mm_handle : option nat }.

(** [Mmap] of a file with its contents; a file that cannot be examined or mapped is an error.
    An empty file has no mapping. *)
Definition Mmap (data : bytes) (mmapErr : option error) : SE os (option nat) :=
  match mmapErr with
  | Some e => throw e
  | None => if zlen data =? 0 then mret None else handle ← mmap data; mret (Some handle)
  end.

Definition NewMmap (dir : Dir) (name : bytes) (mmapErr : option error) : SE os MmapFile := fun o =>
  match ReadFile dir name with
  | Ok data =>
      match os_Open o with
      | (o, Ok file) =>
          match Mmap data mmapErr o with
          | (o, Ok handle) => (o, Ok {| mm_file := file; mm_handle := handle |})
          | (o, Err e) => ((file_Close file o).1, Err e)
          | (o, Panic) => (o, Panic)
          end
      | (o, Err e) => (o, Err e)
      | (o, Panic) => (o, Panic)
      end
  | Err e => (o, Err e)
  | Panic => (o, Panic)
  end.

Definition MmapFile_Close (m : MmapFile) : SE os unit := fun o =>
  let '(o, err) := match mm_handle m with Some handle => Munmap handle o | None => (o, Ok tt) end in
  let '(o, err') := file_Close (mm_file m) o in
  (o, Join [err_of err; err_of err']).

(** The data of a mapped file; a read from an address that is not mapped is a fault. *)
Definition Data (o : os) (m : option MmapFile) : res bytes :=
  match m ≫= mm_handle with
  | None => Ok []
  | Some handle => match regions o !! handle with Some (Some data) => Ok data | _ => Panic end
  end.

(** The closing of the files that are not nil, with the errors. *)
Fixpoint close_maps (ms : list (option MmapFile)) (o : os) : os * list (option error) :=
  match ms with
  | [] => (o, [])
  | None :: ms => close_maps ms o
  | Some m :: ms =>
      let '(o, r) := MmapFile_Close m o in
      let '(o, errs) := close_maps ms o in (o, err_of r :: errs)
  end.

(** ** Snapshots *)

(** A snapshot as it is shared: its files, its version and root, and the counter, an [int32]. *)
Record snapshot_cell : Type := {
  nodesMap : option MmapFile;
  leavesMap : option MmapFile;
  kvsMap : option MmapFile;
  c_version : Z;
  c_root : option PersistedNode;
  refCount : Z
}.

Definition cell_maps (c : snapshot_cell) : list (option MmapFile) := [nodesMap c; leavesMap c; kvsMap c].
Definition empty_cell (version : Z) : snapshot_cell :=
  {| nodesMap := None; leavesMap := None; kvsMap := None; c_version := version; c_root := None; refCount := 0 |}.
Definition with_count (c : snapshot_cell) (n : Z) : snapshot_cell :=
  {| nodesMap := nodesMap c; leavesMap := leavesMap c; kvsMap := kvsMap c; c_version := c_version c; c_root := c_root c; refCount := n |}.

(** What is read through the shared snapshot. *)
Definition cell_view (o : os) (c : snapshot_cell) : res Snapshot :=
  nodes ← Data o (nodesMap c);
  leaves ← Data o (leavesMap c);
  kvs ← Data o (kvsMap c);
  Ok {| nodes := nodes; leaves_ := leaves; kvs := kvs; snap_version := c_version c; root := c_root c |}.

(** [OpenSnapshot], in parts: the metadata, and the lengths of the files. *)
Definition metadata_version (dir : Dir) : res Z :=
  bz ← ReadFile dir FileNameMetadata;
  if negb (zlen bz =? SizeMetadata) then Err "wrong metadata file size" else
  magic ← of_option (Uint32_at bz 0);
  if negb (magic =? SnapshotFileMagic) then Err "invalid metadata file magic" else
  format ← of_option (Uint32_at bz 4);
  if negb (format =? SnapshotFormat) then Err "unknown snapshot format" else
  of_option (Uint64_at bz 8).

Definition check_files (nodes leaves : bytes) : res (option PersistedNode) :=
  if negb (zlen nodes mod SizeNode =? 0) then
    Err "corrupted snapshot, nodes file size is not a multiple" else
  if negb (zlen leaves mod SizeLeaf =? 0) then
    Err "corrupted snapshot, leaves file size is not a multiple" else
  let nodesLen := zlen nodes / SizeNode in
  let leavesLen := zlen leaves / SizeLeaf in
  if ((0 <? leavesLen) && negb (nodesLen + 1 =? leavesLen))
     || ((leavesLen =? 0) && negb (nodesLen =? 0)) then
    Err "corrupted snapshot, branch nodes size don't match leaves size" else
  Ok (if 0 <? nodesLen then Some {| isLeaf := false; index := u32 (nodesLen - 1) |}
      else if 0 <? leavesLen then Some {| isLeaf := true; index := 0 |}
      else None).

(** The deferred function of an error: the files that were mapped are closed. *)
Definition fail_open {A} (ms : list (option MmapFile)) (e : error) : SE os A := fun o =>
  let '(o, errs) := close_maps ms o in
  (o, match Join (Some e :: errs) with Err e => Err e | _ => Panic end).

Definition open_cell (dir : Dir) (mmapErr : bytes -> option error) : SE os snapshot_cell := fun o =>
  match metadata_version dir with
  | Ok version =>
      match NewMmap dir FileNameNodes (mmapErr FileNameNodes) o with
      | (o, Ok nodesMap) =>
          match NewMmap dir FileNameLeaves (mmapErr FileNameLeaves) o with
          | (o, Ok leavesMap) =>
              match NewMmap dir FileNameKVs (mmapErr FileNameKVs) o with
              | (o, Ok kvsMap) =>
                  match (nodes ← Data o (Some nodesMap); leaves ← Data o (Some leavesMap); check_files nodes leaves) with
                  | Ok root =>
                      (o, Ok {| nodesMap := Some nodesMap; leavesMap := Some leavesMap; kvsMap := Some kvsMap;
                                c_version := version; c_root := root; refCount := 1 |})
                  | Err e => fail_open [Some nodesMap; Some leavesMap; Some kvsMap] e o
                  | Panic => (o, Panic)
                  end
              | (o, Err e) => fail_open [Some nodesMap; Some leavesMap; None] e o
              | (o, Panic) => (o, Panic)
              end
          | (o, Err e) => fail_open [Some nodesMap; None; None] e o
          | (o, Panic) => (o, Panic)
          end
      | (o, Err e) => fail_open [None; None; None] e o
      | (o, Panic) => (o, Panic)
      end
  | Err e => (o, Err e)
  | Panic => (o, Panic)
  end.

(** ** The process *)

(** The shared snapshots and the trees with their [snapshot] pointer; a closed tree has none.
    [releasing] are the snapshots whose counter a [Close] has brought to zero and whose files
    it has still to unmap. *)
Record world : Type := {
  w_os : os;
  cells : list snapshot_cell;
  trees : list (option nat);
  releasing : list nat
}.

Definition with_os (w : world) (o : os) : world := {| w_os := o; cells := cells w; trees := trees w; releasing := releasing w |}.
Definition with_cells (w : world) (cs : list snapshot_cell) : world := {| w_os := w_os w; cells := cs; trees := trees w; releasing := releasing w |}.
Definition with_trees (w : world) (ts : list (option nat)) : world := {| w_os := w_os w; cells := cells w; trees := ts; releasing := releasing w |}.
Definition with_releasing (w : world) (l : list nat) : world := {| w_os := w_os w; cells := cells w; trees := trees w; releasing := l |}.

Definition view (w : world) (s : nat) : res Snapshot := c ← of_option (cells w !! s); cell_view (w_os w) c.

Definition Snapshot_Open (dir : Dir) (mmapErr : bytes -> option error) : SE world nat := fun w =>
  let '(o, r) := open_cell dir mmapErr (w_os w) in
  match r with
  | Ok c => (with_cells (with_os w o) (cells w ++ [c]), Ok (length (cells w)))
  | Err e => (with_os w o, Err e)
  | Panic => (with_os w o, Panic)
  end.

Definition retain (s : nat) : SE world unit := fun w =>
  match cells w !! s with
  | Some c => (with_cells w (<[s := with_count c (i32 (refCount c + 1))]> (cells w)), Ok tt)
  | None => (w, Panic)
  end.

(** [Snapshot.Close]: the decrement, with whether the files are to be closed, and the closing. *)
Definition drop_ref (s : nat) : SE world bool := fun w =>
  match cells w !! s with
  | Some c =>
      let n := i32 (refCount c - 1) in
      (with_cells w (<[s := with_count c n]> (cells w)), Ok (negb (0 <? n)))
  | None => (w, Panic)
  end.
Definition release (s : nat) : SE world unit := fun w =>
  match cells w !! s with
  | Some c =>
      let '(o, errs) := close_maps (cell_maps c) (w_os w) in
      (with_cells (with_os w o) (<[s := empty_cell (c_version c)]> (cells w)), Join errs)
  | None => (w, Panic)
  end.
Definition Snapshot_Close (s : nat) : SE world unit := b ← drop_ref s; if (b : bool) then release s else mret tt.

(** ** Trees *)

Definition add_tree (p : option nat) : SE world nat := fun w => (with_trees w (trees w ++ [p]), Ok (length (trees w))).
Definition Tree_NewEmpty : SE world nat := add_tree None.
Definition Tree_NewFromSnapshot (s : nat) : SE world nat := add_tree (Some s).

Definition Tree_Copy (t : nat) : SE world nat :=
  p ← (w ← gets id; lift (of_option (trees w !! t)));
  t' ← add_tree p;
  match p with Some s => retain s | None => mret tt end ;;
  mret t'.

Definition clear_tree (t : nat) : SE world unit := modify (fun w => with_trees w (<[t := None]> (trees w))).
Definition Tree_Close (t : nat) : SE world unit := fun w =>
  match trees w !! t with
  | Some (Some s) => let '(w, err) := Snapshot_Close s w in ((clear_tree t w).1, err)
  | Some None => clear_tree t w
  | None => (w, Panic)
  end.

(** ** Multi-trees *)

(** A multi-tree is the names of its stores with their trees. *)
Abbreviation handles := (list (bytes * nat)).

Fixpoint MultiTree_Load (dirs : list (bytes * Dir)) (mmapErr : bytes -> option error) : SE world handles :=
  match dirs with
  | [] => mret []
  | (name, dir) :: dirs =>
      s ← Snapshot_Open dir mmapErr;
      t ← Tree_NewFromSnapshot s;
      rest ← MultiTree_Load dirs mmapErr;
      mret ((name, t) :: rest)
  end.

Fixpoint MultiTree_Copy (mt : handles) : SE world handles :=
  match mt with
  | [] => mret []
  | (name, t) :: mt => t' ← Tree_Copy t; rest ← MultiTree_Copy mt; mret ((name, t') :: rest)
  end.

Fixpoint close_trees (mt : handles) (w : world) : world * list (option error) :=
  match mt with
  | [] => (w, [])
  | (_, t) :: mt => let '(w, r) := Tree_Close t w in let '(w, errs) := close_trees mt w in (w, err_of r :: errs)
  end.
Definition MultiTree_Close (mt : handles) : SE world unit := fun w =>
  let '(w, errs) := close_trees mt w in (w, Join errs).

(** The deletion of a store in [ApplyUpgrades]: the last tree takes its place. *)
Definition delete_tree (name : bytes) (mt : handles) : res handles :=
  match list_find (fun e => e.1 = name) mt with
  | Some (i, _) =>
      last_tree ← of_option (last mt);
      Ok (take (length mt - 1) (<[i := last_tree]> mt))
  | None => Err "unknown tree name"
  end.

(** ** Interleavings *)

(** The goroutines of the process open, copy and close trees of their own at any time; only
    the snapshots are shared.  A close is two steps, the atomic decrement and the unmapping. *)
Definition close_start (t : nat) : SE world unit := fun w =>
  match trees w !! t with
  | Some (Some s) =>
      match drop_ref s w with
      | (w, Ok b) => let w := (clear_tree t w).1 in (if (b : bool) then with_releasing w (s :: releasing w) else w, Ok tt)
      | (w, Err e) => (w, Err e)
      | (w, Panic) => (w, Panic)
      end
  | Some None => clear_tree t w
  | None => (w, Panic)
  end.
Definition close_finish (s : nat) : SE world unit := fun w =>
  release s (with_releasing w (filter (fun s' => s' <> s) (releasing w))).

Definition load_tree (dir : Dir) (mmapErr : bytes -> option error) : SE world nat :=
  s ← Snapshot_Open dir mmapErr; Tree_NewFromSnapshot s.

(** The trees that share a snapshot. *)
Definition holders (w : world) (s : nat) : nat := length (filter (fun p => p = Some s) (trees w)).

(** The number of trees that share a snapshot is within the counter. *)
Inductive step (w : world) : world -> Prop :=
| st_load dir mmapErr w' r : load_tree dir mmapErr w = (w', r) -> step w w'
| st_empty w' t : Tree_NewEmpty w = (w', Ok t) -> step w w'
| st_copy t w' t' : (forall s, trees w !! t = Some (Some s) -> Z.of_nat (holders w s) + 1 < 2 ^ 31) -> Tree_Copy t w = (w', Ok t') -> step w w'
| st_close t w' : close_start t w = (w', Ok tt) -> step w w'
| st_release s w' r : s ∈ releasing w -> close_finish s w = (w', r) -> step w w'.

Definition world_start : world := {| w_os := {| files := []; regions := [] |}; cells := []; trees := []; releasing := [] |}.

(** ** Mapped files are owned once *)

(** The open files and the mappings are those of a list of mapped files, each in it once. *)
Record owned (o : os) (ms : list MmapFile) : Prop := {
  ow_files : NoDup (mm_file <$> ms);
  ow_handles : NoDup (omap mm_handle ms);
  ow_open : forall f, files o !! f = Some true <-> f ∈ mm_file <$> ms;
  ow_mapped : forall h, (exists data, regions o !! h = Some (Some data)) <-> h ∈ omap mm_handle ms
}.

(** The data of the mapped files is kept. *)
Definition keeps (ms : list MmapFile) (o o' : os) : Prop :=
  forall h data, h ∈ omap mm_handle ms -> regions o !! h = Some (Some data) -> regions o' !! h = Some (Some data).

#[export] Instance owned_perm o : Proper ((≡ₚ) ==> iff) (owned o).
Proof.
  assert (forall ms ms', ms ≡ₚ ms' -> owned o ms -> owned o ms') as H.
  { intros ms ms' Hp [H1 H2 H3 H4]. split.
    - by rewrite <- Hp.
    - by rewrite <- Hp.
    - intros f. by rewrite H3, Hp.
    - intros h. by rewrite H4, Hp. }
  intros ms ms' Hp. split; apply H; by rewrite Hp.
Qed.

Lemma Data_ok o ms m : owned o ms -> m ∈ ms -> exists data, Data o (Some m) = Ok data.
Proof.
  intros Ho Hm. unfold Data. cbn [mbind option_bind]. destruct (mm_handle m) as [h|] eqn:E; [|by eexists].
  assert (h ∈ omap mm_handle ms) as (data & ->)%(ow_mapped _ _ Ho) by (apply list_elem_of_omap; by exists m). by eexists.
Qed.

Lemma Data_keeps_app o o' ms' ms m : owned o (ms' ++ ms) -> keeps ms o o' -> m ∈ ms -> Data o' (Some m) = Data o (Some m).
Proof.
  intros Ho Hk Hm. unfold Data. cbn [mbind option_bind]. destruct (mm_handle m) as [h|] eqn:E; [|done].
  assert (Hh : h ∈ omap mm_handle ms) by (apply list_elem_of_omap; by exists m).
  destruct (proj2 (ow_mapped _ _ Ho h)) as (data & Ed); [rewrite omap_app; apply elem_of_app; by right|]. by rewrite Ed, (Hk h data Hh Ed).
Qed.

Lemma Data_keeps o o' ms m : owned o ms -> keeps ms o o' -> m ∈ ms -> Data o' (Some m) = Data o (Some m).
Proof. apply (Data_keeps_app _ _ []). Qed.

Lemma keeps_sub ms ms' o o' : ms ⊆ ms' -> keeps ms' o o' -> keeps ms o o'.
Proof.
  intros Hs Hk h data (m & Hm & E)%list_elem_of_omap. apply Hk. apply list_elem_of_omap. exists m. split; [by apply Hs|done].
Qed.

Lemma keeps_trans ms o1 o2 o3 : keeps ms o1 o2 -> keeps ms o2 o3 -> keeps ms o1 o3.
Proof. intros H1 H2 h data Hh E. by apply H2, H1. Qed.

(** *** Opening *)

Lemma owned_open o ms : owned o ms ->
  owned {| files := files o ++ [true]; regions := regions o |} ({| mm_file := length (files o); mm_handle := None |} :: ms).
Proof.
  intros [H1 H2 H3 H4]. split; cbn [fmap list_fmap omap list_omap mm_file mm_handle files regions]; [|done| |done].
  - constructor; [|done]. rewrite <- H3, lookup_ge_None_2 by lia. done.
  - intros f. rewrite elem_of_cons, <- H3, lookup_app_Some, list_lookup_singleton_Some.
    split; [intros [?|(? & ? & _)]; [by right|left; lia]|intros [->|?]; [right; split_and!; [done|lia|done]|by left]].
Qed.

Lemma owned_mmap o ms f data :
  owned o ({| mm_file := f; mm_handle := None |} :: ms) ->
  owned {| files := files o; regions := regions o ++ [Some data] |} ({| mm_file := f; mm_handle := Some (length (regions o)) |} :: ms).
Proof.
  intros [H1 H2 H3 H4]. cbn [fmap list_fmap omap list_omap mm_file mm_handle] in *. split; cbn [fmap list_fmap omap list_omap mm_file mm_handle files regions]; [done| |done|].
  - constructor; [|done]. rewrite <- H4, lookup_ge_None_2 by lia. by intros [? ?].
  - intros h. rewrite elem_of_cons, <- H4. setoid_rewrite lookup_app_Some. setoid_rewrite list_lookup_singleton_Some.
    split.
    + intros (d & [?|(? & ? & _)]); [right; by exists d|left; lia].
    + intros [->|[d ?]]; [exists data; right; split_and!; [done|lia|done]|exists d; by left].
Qed.

Lemma keeps_grow ms o fs rs : keeps ms o {| files := fs; regions := regions o ++ rs |}.
Proof. intros h data _ E. cbn. by apply lookup_app_l_Some. Qed.

(** *** Closing *)

Lemma file_Close_owned o f ms : owned o ({| mm_file := f; mm_handle := None |} :: ms) ->
  exists o', file_Close f o = (o', Ok tt) /\ owned o' ms /\ regions o' = regions o.
Proof.
  intros [H1 H2 H3 H4]. cbn [fmap list_fmap omap list_omap mm_file mm_handle] in *.
  assert (E : files o !! f = Some true) by (apply H3; left). unfold file_Close. rewrite E. eexists. split; [done|]. split; [|done].
  apply NoDup_cons in H1 as [Hf H1]. split; cbn [files regions]; [done..| |done].
  intros g. destruct (decide (f = g)) as [<-|Hne].
  - rewrite list_lookup_insert_eq by (by eapply lookup_lt_Some). split; [done|]. intros ?. done.
  - rewrite list_lookup_insert_ne by done. rewrite H3, elem_of_cons. split; [intros [->|]; done|by right].
Qed.

Lemma Munmap_owned o f h ms : owned o ({| mm_file := f; mm_handle := Some h |} :: ms) ->
  exists o', Munmap h o = (o', Ok tt) /\ owned o' ({| mm_file := f; mm_handle := None |} :: ms) /\ keeps ms o o'.
Proof.
  intros [H1 H2 H3 H4]. cbn [fmap list_fmap omap list_omap mm_file mm_handle] in *.
  destruct (proj2 (H4 h)) as (data & E); [left|]. unfold Munmap. rewrite E. eexists. split; [done|].
  apply NoDup_cons in H2 as [Hh H2]. split; [split|]; cbn [files regions fmap list_fmap omap list_omap mm_file mm_handle]; [done..| |].
  - intros g. destruct (decide (h = g)) as [<-|Hne].
    + rewrite list_lookup_insert_eq by (by eapply lookup_lt_Some). split; [intros [? [=]]|done].
    + rewrite list_lookup_insert_ne by done. rewrite H4, elem_of_cons. split; [intros [->|]; done|by right].
  - intros g data' Hg Eg. cbn. rewrite list_lookup_insert_ne; [done|]. intros ->. done.
Qed.

Lemma MmapFile_Close_owned o m ms : owned o (m :: ms) ->
  exists o', MmapFile_Close m o = (o', Ok tt) /\ owned o' ms /\ keeps ms o o'.
Proof.
  intros Ho. destruct m as [f [h|]]; unfold MmapFile_Close; cbn [mm_file mm_handle].
  - destruct (Munmap_owned _ _ _ _ Ho) as (o1 & -> & Ho1 & Hk). destruct (file_Close_owned _ _ _ Ho1) as (o2 & -> & Ho2 & Er).
    exists o2. split_and!; [done|done|]. intros g data Hg Eg. rewrite Er. by apply Hk.
  - destruct (file_Close_owned _ _ _ Ho) as (o2 & -> & Ho2 & Er). exists o2. split_and!; [done|done|]. intros g data Hg Eg. by rewrite Er.
Qed.

Lemma close_maps_owned l : forall o ms, owned o (omap id l ++ ms) ->
  exists o' errs, close_maps l o = (o', errs) /\ omap id errs = [] /\ owned o' ms /\ keeps ms o o'.
Proof.
  induction l as [|[m|] l IH]; intros o ms Ho; cbn [close_maps].
  - exists o, []. split_and!; [done|done|done|]. by intros h data.
  - change (owned o (m :: (omap id l ++ ms))) in Ho. destruct (MmapFile_Close_owned _ _ _ Ho) as (o1 & -> & Ho1 & Hk1).
    destruct (IH _ _ Ho1) as (o2 & errs & -> & He & Ho2 & Hk2). exists o2, (None :: errs). split_and!; [done|done|done|].
    eapply keeps_trans; [|done]. eapply keeps_sub; [|done]. intros x Hx. apply elem_of_app. by right.
  - by apply IH.
Qed.

(** *** Opening a snapshot *)

(** The outcome of mapping a file: it is owned and holds the contents, or nothing is left. *)
Lemma NewMmap_owned dir name err o ms o' r : owned o ms -> NewMmap dir name err o = (o', r) ->
  keeps ms o o' /\
  match r with
  | Ok m => owned o' (m :: ms) /\ Data o' (Some m) = ReadFile dir name
  | Err e => owned o' ms
  | Panic => False
  end.
Proof.
  unfold NewMmap. intros Ho. destruct (ReadFile dir name) as [data|e|] eqn:Er; cbn [os_Open].
  2:{ intros [= <- <-]. split; [by intros ? ?|done]. }
  2:{ unfold ReadFile in Er. by destruct (dir !! name). }
  pose proof (owned_open _ _ Ho) as Ho1. unfold Mmap. destruct err as [e|].
  - cbn [throw]. destruct (file_Close_owned _ _ _ Ho1) as (o2 & -> & Ho2 & Eq). intros [= <- <-]. split; [|done]. intros h d _ E. rewrite Eq. done.
  - destruct (Z.eqb_spec (zlen data) 0) as [Ez|_]; cbn [mret mbind].
    + intros [= <- <-]. split; [by intros ? ?|]. split; [done|]. unfold Data. cbn. by destruct data.
    + unfold mmap. cbn. intros [= <- <-]. split; [apply (keeps_grow ms o)|]. split; [by apply (owned_mmap _ _ _ data) in Ho1|].
      unfold Data. cbn. by rewrite lookup_app_r, Nat.sub_diag by lia.
Qed.

Lemma fail_open_owned {A} l e o ms o' (r : res A) : owned o (omap id l ++ ms) -> fail_open l e o = (o', r) ->
  owned o' ms /\ keeps ms o o' /\ exists e', r = Err e'.
Proof.
  intros Ho. unfold fail_open. destruct (close_maps_owned _ _ _ Ho) as (o2 & errs & -> & He & Ho2 & Hk).
  unfold Join. cbn [omap list_omap id]. fold (omap (M:=list) (@id (option error)) errs). rewrite He. intros [= <- <-]. split_and!; [done|done|]. by eexists.
Qed.

(** [OpenSnapshot] of the files by their contents is the one of [Snapshot]. *)
Lemma OpenSnapshot_parts dir :
  Snapshot.OpenSnapshot dir =
    (version ← metadata_version dir; nodes ← ReadFile dir FileNameNodes; leaves ← ReadFile dir FileNameLeaves; kvs ← ReadFile dir FileNameKVs;
     root ← check_files nodes leaves; Ok {| nodes := nodes; leaves_ := leaves; kvs := kvs; snap_version := version; root := root |}).
Proof.
  unfold Snapshot.OpenSnapshot, metadata_version, check_files. destruct (ReadFile dir FileNameMetadata) as [bz|e|]; [|done..]. cbn [mbind res_bind].
  destruct (negb _); [done|]. destruct (of_option (Uint32_at bz 0)); [|done..]. cbn [mbind res_bind]. destruct (negb _); [done|].
  destruct (of_option (Uint32_at bz 4)); [|done..]. cbn [mbind res_bind]. destruct (negb _); [done|].
  destruct (of_option (Uint64_at bz 8)); [|done..]. cbn [mbind res_bind].
  destruct (ReadFile dir FileNameNodes) as [nodes|e|]; [|done..]. cbn [mbind res_bind].
  destruct (ReadFile dir FileNameLeaves) as [leaves|e|]; [|done..]. cbn [mbind res_bind].
  destruct (ReadFile dir FileNameKVs) as [kvs|e|]; [|done..]. cbn [mbind res_bind].
  destruct (negb (_ mod SizeNode =? 0)); [done|]. destruct (negb (_ mod SizeLeaf =? 0)); [done|]. by destruct (_ || _).
Qed.

Lemma check_files_no_panic nodes leaves : check_files nodes leaves <> Panic.
Proof. unfold check_files. by repeat case_match. Qed.

(** The outcome of opening: the files are owned and hold the snapshot, or nothing is left. *)
Definition open_outcome (dir : Dir) (ms : list MmapFile) (o o' : os) (r : res snapshot_cell) : Prop :=
  keeps ms o o' /\
  match r with
  | Ok c => owned o' (omap id (cell_maps c) ++ ms) /\ cell_view o' c = Snapshot.OpenSnapshot dir /\ refCount c = 1
  | _ => owned o' ms
  end.

Lemma fail_outcome dir l e o1 ms o o' r :
  keeps ms o o1 -> owned o1 (omap id l ++ ms) -> fail_open l e o1 = (o', r) -> open_outcome dir ms o o' r.
Proof.
  intros K Ho E. destruct (fail_open_owned _ _ _ _ _ _ Ho E) as (Ho' & K' & e' & ->). split; [by eapply keeps_trans|done].
Qed.

Lemma open_cell_owned dir err o ms o' r : owned o ms -> open_cell dir err o = (o', r) -> open_outcome dir ms o o' r.
Proof.
  intros Ho E. unfold open_cell in E. destruct (metadata_version dir) as [version|e|] eqn:Ev.
  2,3: injection E as <- <-; split; [by intros ? ?|done].
  destruct (NewMmap dir FileNameNodes _ o) as [o1 r1] eqn:E1. destruct (NewMmap_owned _ _ _ _ _ _ _ Ho E1) as [K1 H1].
  destruct r1 as [m1|e|]; [destruct H1 as [H1 D1]|by apply (fail_outcome _ [None; None; None] e o1)|done].
  destruct (NewMmap dir FileNameLeaves _ o1) as [o2 r2] eqn:E2. destruct (NewMmap_owned _ _ _ _ _ _ _ H1 E2) as [K2 H2].
  assert (K2' : keeps ms o o2) by (eapply keeps_trans; [done|eapply keeps_sub; [|done]; set_solver]).
  destruct r2 as [m2|e|]; [destruct H2 as [H2 D2]|by apply (fail_outcome _ [Some m1; None; None] e o2)|done].
  destruct (NewMmap dir FileNameKVs _ o2) as [o3 r3] eqn:E3. destruct (NewMmap_owned _ _ _ _ _ _ _ H2 E3) as [K3 H3].
  assert (K3' : keeps ms o o3) by (eapply keeps_trans; [done|eapply keeps_sub; [|done]; set_solver]).
  destruct r3 as [m3|e|]; [destruct H3 as [H3 D3]| |done].
  2:{ apply (fail_outcome _ [Some m1; Some m2; None] e o3); [done| |done]. eapply owned_perm, H3. cbn. apply Permutation_swap. }
  assert (Hp : owned o3 (m1 :: m2 :: m3 :: ms)).
  { eapply owned_perm, H3. solve_Permutation. }
  assert (D1' : Data o3 (Some m1) = ReadFile dir FileNameNodes).
  { rewrite (Data_keeps o2 o3 _ m1 H2 K3), (Data_keeps o1 o2 _ m1 H1 K2) by set_solver. done. }
  assert (D2' : Data o3 (Some m2) = ReadFile dir FileNameLeaves) by (rewrite (Data_keeps o2 o3 _ m2 H2 K3) by set_solver; done).
  clear - Ev Hp E K3' D1' D2' D3. destruct (Data_ok _ _ m1 Hp) as (nodes & En); [set_solver|].
  destruct (Data_ok _ _ m2 Hp) as (leaves & El); [set_solver|]. destruct (Data_ok _ _ m3 Hp) as (kvs & Ek); [set_solver|].
  rewrite En, El in E. cbn [mbind res_bind] in E. pose proof (check_files_no_panic nodes leaves) as Hn.
  destruct (check_files nodes leaves) as [root|e|] eqn:Ec; [|by apply (fail_outcome _ [Some m1; Some m2; Some m3] e o3)|done].
  injection E as <- <-. split; [done|]. split; [done|]. split; [|done]. unfold cell_view. cbn [nodesMap leavesMap kvsMap c_version c_root].
  rewrite OpenSnapshot_parts, Ev, <- D1', <- D2', <- D3, En, El, Ek. cbn [mbind res_bind]. by rewrite Ec.
Qed.

(** ** The invariant *)

(** The mapped files of the snapshots. *)
Definition cells_maps (cs : list snapshot_cell) : list MmapFile := cs ≫= fun c => omap id (cell_maps c).

Record safe (w : world) : Prop := {
  sf_owned : owned (w_os w) (cells_maps (cells w));
  sf_count : forall s c, cells w !! s = Some c -> refCount c = Z.of_nat (holders w s);
  sf_bound : forall s, Z.of_nat (holders w s) < 2 ^ 31;
  sf_tree : forall t s, trees w !! t = Some (Some s) -> (s < length (cells w))%nat;
  sf_releasing : forall s, s ∈ releasing w -> holders w s = 0%nat /\ (s < length (cells w))%nat;
  sf_released : forall s c, cells w !! s = Some c -> holders w s = 0%nat -> s ∉ releasing w -> omap id (cell_maps c) = []
}.

Lemma holders_pos w t s : trees w !! t = Some (Some s) -> (0 < holders w s)%nat.
Proof.
  intros E. unfold holders. assert (Hin : Some s ∈ filter (fun p => p = Some s) (trees w)).
  { apply list_elem_of_filter. split; [done|]. by eapply list_elem_of_lookup_2. }
  destruct (filter _ _); [by apply elem_of_nil in Hin|cbn; lia].
Qed.

Lemma holders_zero w s : holders w s = 0%nat <-> forall t, trees w !! t <> Some (Some s).
Proof.
  split.
  - intros H0 t E%holders_pos. lia.
  - intros H. unfold holders. destruct (filter _ _) as [|p l] eqn:E; [done|]. exfalso.
    assert (Hp : p ∈ filter (fun p => p = Some s) (trees w)) by (rewrite E; left).
    apply list_elem_of_filter in Hp as [-> (t & Et)%list_elem_of_lookup]. by apply (H t).
Qed.

Lemma count_app (s : nat) (l : list (option nat)) p :
  length (filter (fun p => p = Some s) (l ++ [p])) = (length (filter (fun p => p = Some s) l) + if decide (p = Some s) then 1 else 0)%nat.
Proof.
  rewrite filter_app, length_app. f_equal. destruct (decide (p = Some s)) as [->|Hne]; [by rewrite filter_cons_True|by rewrite filter_cons_False].
Qed.

Lemma count_clear (s : nat) (l : list (option nat)) t p :
  l !! t = Some p ->
  (length (filter (fun p => p = Some s) (<[t := None]> l)) + (if decide (p = Some s) then 1 else 0) = length (filter (fun p => p = Some s) l))%nat.
Proof.
  intros E. rewrite insert_take_drop by (by eapply lookup_lt_Some). rewrite <- (take_drop_middle l t p E) at 3.
  rewrite !filter_app, !length_app. rewrite (filter_cons_False _ None) by done.
  destruct (decide (p = Some s)) as [->|Hne]; [rewrite filter_cons_True by done|rewrite filter_cons_False by done]; cbn; lia.
Qed.

(** A cell is replaced by one with the same files. *)
Lemma cells_maps_insert cs s c c' : cs !! s = Some c -> cell_maps c' = cell_maps c -> cells_maps (<[s := c']> cs) = cells_maps cs.
Proof.
  intros E Em. rewrite insert_take_drop by (by eapply lookup_lt_Some). rewrite <- (take_drop_middle cs s c E) at 3.
  unfold cells_maps. rewrite !bind_app, !bind_cons. by rewrite Em.
Qed.

(** The files of a cell apart from the others. *)
Lemma cells_maps_split cs s c v : cs !! s = Some c ->
  cells_maps cs ≡ₚ omap id (cell_maps c) ++ cells_maps (<[s := empty_cell v]> cs).
Proof.
  intros E. rewrite insert_take_drop by (by eapply lookup_lt_Some). rewrite <- (take_drop_middle cs s c E) at 1.
  unfold cells_maps. rewrite !bind_app, !bind_cons. change (omap id (cell_maps (empty_cell v))) with (@nil MmapFile). cbn [app].
  rewrite !app_assoc. apply Permutation_app_tail, Permutation_app_comm.
Qed.

Lemma cells_maps_in cs s c m : cs !! s = Some c -> m ∈ omap id (cell_maps c) -> m ∈ cells_maps cs.
Proof. intros E Hm. apply list_elem_of_bind. exists c. split; [done|]. by eapply list_elem_of_lookup_2. Qed.

Lemma cell_view_keeps o o' ms' ms c : owned o (ms' ++ ms) -> keeps ms o o' -> omap id (cell_maps c) ⊆ ms -> cell_view o' c = cell_view o c.
Proof.
  intros Ho Hk Hs.
  assert (HD : forall m, m ∈ cell_maps c -> Data o' m = Data o m).
  { intros [m|] Hm; [|done]. apply (Data_keeps_app _ _ _ _ _ Ho Hk), Hs, list_elem_of_omap. by exists (Some m). }
  unfold cell_view. unfold cell_maps in HD. by rewrite !HD by set_solver.
Qed.

Lemma view_ok w s c : owned (w_os w) (cells_maps (cells w)) -> cells w !! s = Some c -> exists snap, view w s = Ok snap.
Proof.
  intros Ho E.
  assert (HD : forall m, m ∈ cell_maps c -> exists data, Data (w_os w) m = Ok data).
  { intros [m|] Hm; [|by eexists]. apply (Data_ok _ _ _ Ho), (cells_maps_in _ _ _ _ E), list_elem_of_omap. by exists (Some m). }
  unfold view. rewrite E. cbn [of_option mbind res_bind]. unfold cell_view.
  destruct (HD (nodesMap c)) as [? ->]; [set_solver|]. destruct (HD (leavesMap c)) as [? ->]; [set_solver|]. destruct (HD (kvsMap c)) as [? ->]; [set_solver|]. by eexists.
Qed.

(** What a step leaves to the other trees: a tree keeps its snapshot until it is closed, and
    what is read through it. *)
Record frame (w w' : world) : Prop := {
  fr_tree : forall t p, trees w !! t = Some p -> trees w' !! t = Some p \/ trees w' !! t = Some None;
  fr_view : forall s, (0 < holders w' s)%nat -> (0 < holders w s)%nat -> view w' s = view w s
}.

(** *** Loading *)

Lemma view_keeps w w' s c :
  owned (w_os w) (cells_maps (cells w)) -> keeps (cells_maps (cells w)) (w_os w) (w_os w') ->
  cells w !! s = Some c -> cells w' !! s = Some c -> view w' s = view w s.
Proof.
  intros Ho Hk E E'. unfold view. rewrite E, E'. cbn [of_option mbind res_bind]. apply (cell_view_keeps _ _ [] (cells_maps (cells w))); [done..|].
  intros m. by apply (cells_maps_in _ s c).
Qed.

Lemma load_tree_eq dir err w :
  load_tree dir err w =
    let '(o, r) := open_cell dir err (w_os w) in
    match r with
    | Ok c => (with_trees (with_cells (with_os w o) (cells w ++ [c])) (trees w ++ [Some (length (cells w))]), Ok (length (trees w)))
    | Err e => (with_os w o, Err e)
    | Panic => (with_os w o, Panic)
    end.
Proof. unfold load_tree, Snapshot_Open, mbind, SE_bind. by destruct (open_cell _ _ _) as [o [c|e|]]. Qed.

(** A snapshot that was not opened yet has no holders. *)
Lemma holders_new w s : safe w -> (length (cells w) <= s)%nat -> holders w s = 0%nat.
Proof. intros Hs Hle. apply holders_zero. intros t E%(sf_tree _ Hs). lia. Qed.

Lemma holder_cell w s : safe w -> (0 < holders w s)%nat -> exists c, cells w !! s = Some c.
Proof.
  intros Hs Hp. apply lookup_lt_is_Some. destruct (decide (s < length (cells w))%nat); [done|]. rewrite (holders_new w s Hs) in Hp by lia. lia.
Qed.

Lemma with_os_safe w o : safe w -> owned o (cells_maps (cells w)) -> keeps (cells_maps (cells w)) (w_os w) o -> safe (with_os w o) /\ frame w (with_os w o).
Proof.
  intros Hs Ho Hk. split; [by destruct Hs|]. split; [by left|]. intros s _ (c & Ec)%(holder_cell _ _ Hs).
  by apply (view_keeps _ _ _ c (sf_owned _ Hs)).
Qed.

Lemma load_tree_safe dir err w w' r : safe w -> load_tree dir err w = (w', r) ->
  safe w' /\ frame w w' /\ (forall t, r = Ok t -> exists s, trees w' !! t = Some (Some s) /\ view w' s = Snapshot.OpenSnapshot dir).
Proof.
  intros Hs. rewrite load_tree_eq. destruct (open_cell dir err (w_os w)) as [o' r1] eqn:Eo.
  destruct (open_cell_owned _ _ _ _ _ _ (sf_owned _ Hs) Eo) as [Hk Hr].
  destruct r1 as [c|e|]; [|intros [= <- <-]; destruct (with_os_safe w o' Hs Hr Hk); split_and!; done..].
  destruct Hr as (Ho & Hv & Hc). intros [= <- <-]. set (w' := with_trees _ _).
  assert (Hh : forall s, holders w' s = (holders w s + if decide (Some (length (cells w)) = Some s) then 1 else 0)%nat) by (intros s; apply count_app).
  assert (Hold : forall s, (s < length (cells w))%nat -> holders w' s = holders w s /\ cells w' !! s = cells w !! s).
  { intros s Hlt. rewrite Hh, decide_False by (intros [= E]; lia). split; [lia|]. cbn. by apply lookup_app_l. }
  assert (Hnew : holders w' (length (cells w)) = 1%nat /\ cells w' !! length (cells w) = Some c).
  { rewrite Hh, (holders_new w _ Hs), decide_True by (done || lia). split; [done|]. cbn. by rewrite lookup_app_r, Nat.sub_diag by lia. }
  assert (Hcase : forall s c0, cells w' !! s = Some c0 -> (s < length (cells w))%nat \/ s = length (cells w)).
  { intros s c0 E%lookup_lt_Some. cbn in E. rewrite length_app in E. cbn in E. lia. }
  split; [split|split; [split|]].
  - eapply owned_perm, Ho. cbn. unfold cells_maps. rewrite bind_app, bind_cons, app_nil_r. apply Permutation_app_comm.
  - intros s c0 E. destruct (Hcase _ _ E) as [Hlt|Heq]; [destruct (Hold s Hlt) as [-> E']; apply (sf_count _ Hs); congruence|].
    subst s. destruct Hnew as [-> E']. rewrite E' in E. injection E as <-. by rewrite Hc.
  - intros s. destruct (decide (s = length (cells w))) as [->|]; [by rewrite (proj1 Hnew)|]. rewrite Hh, decide_False by congruence.
    rewrite Nat.add_0_r. apply (sf_bound _ Hs).
  - intros t s. cbn. rewrite length_app. cbn. intros [E|[_ E]]%lookup_app_Some; [apply (sf_tree _ Hs) in E; lia|].
    apply list_lookup_singleton_Some in E as [_ [= ->]]. lia.
  - intros s Hr. destruct (sf_releasing _ Hs s Hr) as [H0 Hlt]. rewrite (proj1 (Hold s Hlt)). split; [done|]. cbn. rewrite length_app. lia.
  - intros s c0 E H0 Hn. destruct (Hcase _ _ E) as [Hlt|Heq]; [|subst s; destruct Hnew as [E' _]; lia].
    destruct (Hold s Hlt) as [Eh E']. apply (sf_released _ Hs s); [congruence..|done].
  - intros t p E. left. cbn. by apply lookup_app_l_Some.
  - intros s _ Hp. destruct (holder_cell _ _ Hs Hp) as (c0 & E0). apply (view_keeps _ _ _ c0 (sf_owned _ Hs)); [done..|].
    rewrite (proj2 (Hold s ltac:(by eapply lookup_lt_Some))). done.
  - intros t [= <-]. exists (length (cells w)). split; [cbn; by rewrite lookup_app_r, Nat.sub_diag by lia|].
    unfold view. by rewrite (proj2 Hnew).
Qed.

(** *** Counting *)

(** The counter of a held snapshot follows its holders; without holders it is being released. *)
Lemma recount_safe w w' s c :
  safe w -> (0 < holders w s)%nat -> cells w !! s = Some c ->
  w_os w' = w_os w -> cells w' = <[s := with_count c (Z.of_nat (holders w' s))]> (cells w) ->
  (forall s', s' <> s -> holders w' s' = holders w s') -> Z.of_nat (holders w' s) < 2 ^ 31 ->
  (forall t s', trees w' !! t = Some (Some s') -> (s' < length (cells w))%nat) ->
  releasing w' = (if decide (holders w' s = 0)%nat then s :: releasing w else releasing w) ->
  safe w' /\ forall s', view w' s' = view w s'.
Proof.
  intros Hs Hp Ec Eo Ecs Hh Hb Ht Er. pose proof (lookup_lt_Some _ _ _ Ec) as Hlt.
  assert (Hm : cells_maps (cells w') = cells_maps (cells w)) by (rewrite Ecs; by apply (cells_maps_insert _ _ c)).
  assert (Hl : length (cells w') = length (cells w)) by (rewrite Ecs; apply length_insert).
  assert (Hnr : s ∉ releasing w) by (intros Hin; destruct (sf_releasing _ Hs s Hin); lia).
  assert (Hne : forall s', s' <> s -> cells w' !! s' = cells w !! s') by (intros s' Hn; rewrite Ecs; by apply list_lookup_insert_ne).
  assert (Heq : cells w' !! s = Some (with_count c (Z.of_nat (holders w' s)))) by (rewrite Ecs; by apply list_lookup_insert_eq).
  assert (Hrel : forall s', s' <> s -> s' ∈ releasing w' <-> s' ∈ releasing w) by (intros s' Hn; rewrite Er; case_decide; set_solver).
  split; [split|].
  - rewrite Eo, Hm. apply (sf_owned _ Hs).
  - intros s' c' E. destruct (decide (s' = s)) as [->|Hn]; [rewrite Heq in E; by injection E as <-|].
    rewrite Hh by done. apply (sf_count _ Hs). by rewrite <- Hne.
  - intros s'. destruct (decide (s' = s)) as [->|Hn]; [done|]. rewrite Hh by done. apply (sf_bound _ Hs).
  - intros t s' E. rewrite Hl. by apply (Ht t).
  - intros s' Hin. rewrite Hl. destruct (decide (s' = s)) as [->|Hn].
    + split; [|done]. rewrite Er in Hin. by case_decide.
    + rewrite Hh by done. apply (sf_releasing _ Hs). by apply Hrel.
  - intros s' c' E H0 Hn'. destruct (decide (s' = s)) as [->|Hn]; [rewrite Er, decide_True in Hn' by done; set_solver|].
    apply (sf_released _ Hs s'); [by rewrite <- Hne|by rewrite <- Hh|by rewrite <- Hrel].
  - intros s'. unfold view. rewrite Eo. destruct (decide (s' = s)) as [->|Hn]; [by rewrite Heq, Ec|by rewrite Hne].
Qed.

(** A tree without a snapshot. *)
Lemma plain_tree_safe w : safe w -> let w' := with_trees w (trees w ++ [None]) in safe w' /\ frame w w'.
Proof.
  intros Hs w'. assert (Hh : forall s, holders w' s = holders w s) by (intros s; unfold holders; cbn; rewrite count_app, decide_False by done; lia).
  split; [|split; [intros t p E; left; by apply lookup_app_l_Some|done]].
  split; [apply Hs|intros s c; rewrite Hh; apply Hs|intros s; rewrite Hh; apply Hs| |intros s; rewrite Hh; apply Hs|intros s c; rewrite Hh; apply Hs].
  intros t s. cbn. intros [E|[_ E]]%lookup_app_Some; [by apply (sf_tree _ Hs t)|]. by apply list_lookup_singleton_Some in E as [_ ?].
Qed.

(** *** Copying *)

Lemma Tree_Copy_eq t w :
  Tree_Copy t w =
    match trees w !! t with
    | Some (Some s) =>
        let w1 := with_trees w (trees w ++ [Some s]) in
        match cells w !! s with
        | Some c => (with_cells w1 (<[s := with_count c (i32 (refCount c + 1))]> (cells w)), Ok (length (trees w)))
        | None => (w1, Panic)
        end
    | Some None => (with_trees w (trees w ++ [None]), Ok (length (trees w)))
    | None => (w, Panic)
    end.
Proof.
  unfold Tree_Copy, add_tree, retain, gets, lift, id, mbind, SE_bind, mret, SE_ret. cbn.
  destruct (trees w !! t) as [[s|]|]; cbn; [by destruct (cells w !! s)|done..].
Qed.

Lemma Tree_Copy_safe t w :
  safe w -> is_Some (trees w !! t) -> (forall s, trees w !! t = Some (Some s) -> Z.of_nat (holders w s) + 1 < 2 ^ 31) ->
  exists w', Tree_Copy t w = (w', Ok (length (trees w))) /\ safe w' /\ frame w w' /\ trees w' = trees w ++ [default None (trees w !! t)].
Proof.
  intros Hs [p Et] Hb. rewrite Tree_Copy_eq, Et. destruct p as [s|].
  2:{ eexists. split; [done|]. destruct (plain_tree_safe w Hs). split_and!; done. }
  pose proof (holders_pos _ _ _ Et) as Hp. destruct (holder_cell _ _ Hs Hp) as (c & Ec). rewrite Ec. eexists. split; [done|].
  set (w' := with_cells _ _). specialize (Hb s Et).
  assert (Hh : forall s', holders w' s' = (holders w s' + if decide (Some s = Some s') then 1 else 0)%nat) by (intros s'; apply count_app).
  assert (H1 : holders w' s = S (holders w s)) by (rewrite Hh, decide_True by done; lia).
  destruct (recount_safe w w' s c) as [Hs' Hv]; [done..| | | | | |].
  - rewrite H1. unfold w'. cbn. do 3 f_equal. rewrite (sf_count _ Hs s c Ec). rewrite i32_small by lia. lia.
  - intros s' Hn. rewrite Hh, decide_False by congruence. lia.
  - rewrite H1. lia.
  - intros t' s'. cbn. intros [E|[_ E]]%lookup_app_Some; [by apply (sf_tree _ Hs t')|].
    apply list_lookup_singleton_Some in E as [_ [= ->]]. by eapply lookup_lt_Some.
  - rewrite decide_False by lia. done.
  - split_and!; [done| |done]. split; [intros t' p E; left; by apply lookup_app_l_Some|intros s' _ _; apply Hv].
Qed.

(** *** Closing *)

Lemma close_start_safe t w : safe w -> is_Some (trees w !! t) ->
  exists w', close_start t w = (w', Ok tt) /\ safe w' /\ frame w w' /\ trees w' = <[t := None]> (trees w).
Proof.
  intros Hs [p Et]. unfold close_start. rewrite Et. destruct p as [s|].
  2:{ cbn. eexists. split; [done|]. cbn. rewrite list_insert_id by done. destruct w as [o cs ts rl]. cbn in *. split_and!; [done| |done].
      split; [by left|done]. }
  pose proof (holders_pos _ _ _ Et) as Hp. destruct (holder_cell _ _ Hs Hp) as (c & Ec). unfold drop_ref. rewrite Ec, (sf_count _ Hs s c Ec).
  pose proof (sf_bound _ Hs s) as Hb. rewrite i32_small by lia. set (w' := if negb _ then _ else _).
  assert (Htr : trees w' = <[t := None]> (trees w)) by (unfold w'; by destruct (negb _)).
  exists w'. split; [done|].
  assert (Hh : forall s', (holders w' s' + (if decide (Some s = Some s') then 1 else 0) = holders w s')%nat).
  { intros s'. unfold holders. rewrite Htr. by apply count_clear. }
  assert (H1 : S (holders w' s) = holders w s) by (rewrite <- (Hh s), decide_True by done; lia).
  destruct (recount_safe w w' s c) as [Hs' Hv]; [done..| | | | | | |].
  - unfold w'. by destruct (negb _).
  - replace (Z.of_nat (holders w' s)) with (Z.of_nat (holders w s) - 1) by lia. unfold w'. by destruct (negb _).
  - intros s' Hn. rewrite <- (Hh s'), decide_False by congruence. lia.
  - lia.
  - intros t' s'. rewrite Htr. intros [[_ E]|[_ E]]%list_lookup_insert_Some; [by destruct E|by apply (sf_tree _ Hs t')].
  - case_decide as Hd; unfold w'; destruct (Z.ltb_spec 0 (Z.of_nat (holders w s) - 1)); cbn; (done || lia).
  - split_and!; [done| |done]. split; [|intros s' _ _; apply Hv]. intros t' p E. rewrite Htr. destruct (decide (t = t')) as [<-|Hn].
    + right. apply list_lookup_insert_eq. by eapply lookup_lt_Some.
    + left. by rewrite list_lookup_insert_ne.
Qed.

Lemma close_finish_safe s w : safe w -> s ∈ releasing w ->
  exists w', close_finish s w = (w', Ok tt) /\ safe w' /\ frame w w' /\ trees w' = trees w.
Proof.
  intros Hs Hr. destruct (sf_releasing _ Hs s Hr) as [H0 Hlt]. destruct (lookup_lt_is_Some_2 _ _ Hlt) as (c & Ec).
  unfold close_finish, release. cbn [with_releasing cells w_os]. rewrite Ec.
  pose proof (sf_owned _ Hs) as Ho. rewrite (cells_maps_split _ _ _ (c_version c) Ec) in Ho.
  destruct (close_maps_owned _ _ _ Ho) as (o' & errs & -> & He & Ho' & Hk). unfold Join. rewrite He. eexists. split; [done|].
  set (w' := with_cells _ _). change (holders w') with (holders w).
  assert (Hne : forall s', s' <> s -> cells w' !! s' = cells w !! s') by (intros s' Hn; cbn; by apply list_lookup_insert_ne).
  assert (Heq : cells w' !! s = Some (empty_cell (c_version c))) by (cbn; by apply list_lookup_insert_eq).
  split_and!; [split| |done].
  - done.
  - intros s' c' E. change (holders w' s') with (holders w s'). destruct (decide (s' = s)) as [->|Hn].
    + rewrite Heq in E. injection E as <-. by rewrite H0.
    + apply (sf_count _ Hs). by rewrite <- Hne.
  - apply (sf_bound _ Hs).
  - intros t s' E. cbn. rewrite length_insert. by apply (sf_tree _ Hs t).
  - intros s' [_ Hin]%list_elem_of_filter. cbn. rewrite length_insert. by apply (sf_releasing _ Hs).
  - intros s' c' E H0' Hn'. destruct (decide (s' = s)) as [->|Hn]; [rewrite Heq in E; by injection E as <-|].
    apply (sf_released _ Hs s'); [by rewrite <- Hne|done|]. intros Hin. apply Hn'. by apply list_elem_of_filter.
  - split; [by left|]. intros s' Hp _. change (holders w' s') with (holders w s') in Hp.
    assert (Hn : s' <> s) by (intros ->; lia). destruct (holder_cell _ _ Hs Hp) as (c' & Ec'). unfold view. rewrite Hne, Ec' by done. cbn [of_option mbind res_bind].
    apply (cell_view_keeps _ _ _ _ _ Ho Hk). intros m. apply (cells_maps_in _ s'). by rewrite <- Ec', <- Hne.
Qed.

(** ** Runs *)

Lemma start_safe : safe world_start.
Proof.
  split; cbn; [|done|intros s; cbn; lia|done|intros s []%elem_of_nil|done].
  split; cbn; [constructor..|intros f|intros h]; (split; [|intros []%elem_of_nil]); [done|by intros [? ?]].
Qed.

Lemma step_safe w w' : safe w -> step w w' -> safe w' /\ frame w w'.
Proof.
  intros Hs [dir err w1 r E|w1 t E|t w1 t' Hb E|t w1 E|s w1 r Hr E].
  - by destruct (load_tree_safe _ _ _ _ _ Hs E) as (? & ? & _).
  - injection E as <- _. by apply plain_tree_safe.
  - destruct (Tree_Copy_safe t w Hs) as (w2 & E2 & ? & ? & _); [|done|by rewrite E2 in E; injection E as <-].
    rewrite Tree_Copy_eq in E. by destruct (trees w !! t); [eexists|].
  - destruct (close_start_safe t w Hs) as (w2 & E2 & ? & ? & _); [|by rewrite E2 in E; injection E as <-].
    unfold close_start in E. by destruct (trees w !! t); [eexists|].
  - destruct (close_finish_safe s w Hs Hr) as (w2 & E2 & ? & ? & _). by rewrite E2 in E; injection E as <-.
Qed.

Lemma run_safe w w' : safe w -> rtc step w w' -> safe w'.
Proof. intros Hs H. induction H as [|w1 w2 w3 H12 _ IH]; [done|]. apply IH. by destruct (step_safe _ _ Hs H12). Qed.

(** A tree that is open at the end of a run was open all the time. *)
Lemma run_frame w w' t s : safe w -> rtc step w w' -> trees w !! t = Some (Some s) -> trees w' !! t = Some (Some s) -> view w' s = view w s.
Proof.
  intros Hs H. induction H as [|w1 w2 w3 H12 H23 IH]; [done|]. intros E1 E3. destruct (step_safe _ _ Hs H12) as [Hs2 Hf].
  assert (Hc : trees w2 !! t = Some (Some s)).
  { destruct (fr_tree _ _ Hf _ _ E1) as [|E2]; [done|]. exfalso.
    assert (Hn : trees w3 !! t = Some None); [|congruence]. clear - Hs2 H23 E2. induction H23 as [|w2 w4 w3 H24 _ IH]; [done|].
    destruct (step_safe _ _ Hs2 H24) as [Hs4 Hf]. apply IH; [done|]. by destruct (fr_tree _ _ Hf _ _ E2). }
  rewrite (IH Hs2 Hc E3). apply (fr_view _ _ Hf); by eapply holders_pos.
Qed.


(** ** Operations of trees and multi-trees as runs *)

Lemma filter_ne (s : nat) (l : list nat) : s ∉ l -> filter (fun s' => s' <> s) l = l.
Proof. induction l as [|a l IH]; [done|]. intros [Hn Hl]%not_elem_of_cons. rewrite filter_cons_True by done. by rewrite IH. Qed.

Lemma Tree_Close_run t w : safe w -> is_Some (trees w !! t) ->
  exists w', Tree_Close t w = (w', Ok tt) /\ rtc step w w' /\ trees w' = <[t := None]> (trees w).
Proof.
  intros Hs [p Et]. destruct (close_start_safe t w Hs) as (w1 & E1 & Hs1 & _ & Ht1); [by eexists|].
  assert (H1 : step w w1) by by eapply st_close.
  unfold Tree_Close. rewrite Et. destruct p as [s|].
  2:{ unfold close_start in E1. rewrite Et in E1. exists w1. split_and!; [done|by apply rtc_once|done]. }
  pose proof (holders_pos _ _ _ Et) as Hp. destruct (holder_cell _ _ Hs Hp) as (c & Ec).
  assert (Hnr : s ∉ releasing w) by (intros Hin; destruct (sf_releasing _ Hs s Hin); lia).
  unfold close_start in E1. rewrite Et in E1. unfold Snapshot_Close, mbind, SE_bind. unfold drop_ref in *. rewrite Ec in *.
  destruct (negb _); [|injection E1 as <-; eexists; split_and!; [done|by apply rtc_once|done]].
  assert (Hr : s ∈ releasing w1) by (injection E1 as <-; left).
  destruct (close_finish_safe s w1 Hs1 Hr) as (w2 & E2 & _ & _ & Ht2). exists w2.
  split_and!; [|by eapply rtc_l, rtc_once, st_release|by rewrite Ht2].
  revert E2. injection E1 as <-. unfold close_finish, release. cbn [clear_tree modify fst with_releasing with_trees with_cells cells w_os].
  rewrite list_lookup_insert_eq by (by eapply lookup_lt_Some). change (cell_maps (with_count c ?n)) with (cell_maps c).
  destruct (close_maps (cell_maps c) (w_os w)) as [o errs]. intros [= <- ->]. unfold with_cells, with_trees, with_os, with_releasing. cbn. do 2 f_equal.
  rewrite decide_False by naive_solver. by rewrite filter_ne.
Qed.

(** A multi-tree whose trees exist. *)
Definition handles_ok (w : world) (mt : handles) : Prop := Forall (fun e => (e.2 < length (trees w))%nat) mt.

Lemma close_trees_run mt : forall w, safe w -> handles_ok w mt ->
  exists w' errs, close_trees mt w = (w', errs) /\ omap id errs = [] /\ rtc step w w' /\ trees w' = foldl (fun ts e => <[e.2 := None]> ts) (trees w) mt.
Proof.
  induction mt as [|[name t] mt IH]; intros w Hs Hok; cbn [close_trees]; [by exists w, []|]. apply Forall_cons in Hok as [Hlt Hok].
  destruct (Tree_Close_run t w Hs) as (w1 & -> & Hr & Ht); [by apply lookup_lt_is_Some|].
  destruct (IH w1) as (w2 & errs & -> & He & Hr2 & Ht2); [by eapply run_safe|unfold handles_ok; by rewrite Ht, length_insert|].
  exists w2, (None :: errs). split_and!; [done|done|by etrans|]. by rewrite Ht2, Ht.
Qed.

Lemma MultiTree_Close_run mt w : safe w -> handles_ok w mt ->
  exists w', MultiTree_Close mt w = (w', Ok tt) /\ rtc step w w' /\ trees w' = foldl (fun ts e => <[e.2 := None]> ts) (trees w) mt.
Proof.
  intros Hs Hok. unfold MultiTree_Close. destruct (close_trees_run mt w Hs Hok) as (w' & errs & -> & He & ? & ?). exists w'. unfold Join. by rewrite He.
Qed.

Lemma MultiTree_Copy_run mt : forall w, safe w -> handles_ok w mt -> (forall s, Z.of_nat (holders w s) + zlen mt < 2 ^ 31) ->
  exists w' mt', MultiTree_Copy mt w = (w', Ok mt') /\ rtc step w w' /\
    trees w' = trees w ++ map (fun e => default None (trees w !! e.2)) mt /\
    forall i, mt' !! i = (fun e => (e.1, (length (trees w) + i)%nat)) <$> mt !! i.
Proof.
  induction mt as [|[name t] mt IH]; intros w Hs Hok Hb; cbn [MultiTree_Copy].
  - exists w, []. split_and!; [done..|by rewrite app_nil_r|done].
  - apply Forall_cons in Hok as [Hlt Hok]. cbn in Hlt.
    assert (Hb1 : forall s, Z.of_nat (holders w s) + 1 + zlen mt < 2 ^ 31) by (intros s; specialize (Hb s); lens).
    destruct (Tree_Copy_safe t w Hs) as (w1 & E1 & Hs1 & _ & Ht1); [by apply lookup_lt_is_Some|intros s _; specialize (Hb1 s); lens|].
    assert (H1 : step w w1) by (eapply st_copy; [|done]; intros s _; specialize (Hb1 s); lens).
    destruct (IH w1 Hs1) as (w2 & mt' & E2 & Hr2 & Ht2 & Hm2).
    + unfold handles_ok. rewrite Ht1, length_app. eapply Forall_impl; [done|]. cbn. lia.
    + intros s. unfold holders. rewrite Ht1, count_app. specialize (Hb1 s). unfold holders in Hb1. case_decide; lia.
    + exists w2, ((name, length (trees w)) :: mt'). unfold mbind, SE_bind. rewrite E1, E2. split_and!; [done|by eapply rtc_l|..].
      * rewrite Ht2, Ht1, <- app_assoc. cbn [map app snd]. do 2 f_equal. apply map_ext_in. intros e He%list_elem_of_In. rewrite Forall_forall in Hok.
        by rewrite lookup_app_l by (by apply Hok).
      * intros [|i]; cbn; [by rewrite Nat.add_0_r|]. rewrite Hm2, Ht1, length_app. cbn. destruct (mt !! i); cbn; [|done]. do 2 f_equal. lia.
Qed.

(** ** What holders may rely on *)

(** C11: In every interleaving of loads, copies and closes of trees: a tree that was loaded reads
    the snapshot that is in the files; what an open tree reads never faults and stays the same
    until the tree is closed, whatever the other trees that share the snapshot do; the last
    holder unmaps every file once, without an error; and when all trees are closed no file is
    open and nothing is mapped. *)
Theorem snapshot_holders_safe (w : world) :
  rtc step world_start w ->
  (forall dir err w' t, load_tree dir err w = (w', Ok t) -> exists s, trees w' !! t = Some (Some s) /\ view w' s = Snapshot.OpenSnapshot dir) /\
  (forall w' t s, rtc step w w' -> trees w !! t = Some (Some s) -> trees w' !! t = Some (Some s) -> exists snap, view w s = Ok snap /\ view w' s = Ok snap) /\
  (forall s, s ∈ releasing w -> exists w', close_finish s w = (w', Ok tt)) /\
  ((forall t s, trees w !! t <> Some (Some s)) -> releasing w = [] ->
   (forall f, files (w_os w) !! f <> Some true) /\ (forall h data, regions (w_os w) !! h <> Some (Some data))).
Proof.
  intros Hrun. pose proof (run_safe _ _ start_safe Hrun) as Hs. split_and!.
  - intros dir err w' t E. destruct (load_tree_safe _ _ _ _ _ Hs E) as (_ & _ & H). by apply H.
  - intros w' t s Hr E E'. pose proof (holders_pos _ _ _ E) as Hp. destruct (holder_cell _ _ Hs Hp) as (c & Ec).
    destruct (view_ok _ _ _ (sf_owned _ Hs) Ec) as (snap & Ev). exists snap. by rewrite (run_frame _ _ _ _ Hs Hr E E').
  - intros s Hin. destruct (close_finish_safe s w Hs Hin) as (w' & E & _). by exists w'.
  - intros Hall Hrel. assert (Hnil : cells_maps (cells w) = []).
    { destruct (cells_maps (cells w)) as [|m l] eqn:E; [done|]. exfalso.
      assert (Hm : m ∈ cells_maps (cells w)) by (rewrite E; left). apply list_elem_of_bind in Hm as (c & Hm & (s & Ec)%list_elem_of_lookup).
      rewrite (sf_released _ Hs s c Ec) in Hm; [by apply elem_of_nil in Hm|apply holders_zero; intros t; apply Hall|by rewrite Hrel; apply not_elem_of_nil]. }
    pose proof (sf_owned _ Hs) as Ho. rewrite Hnil in Ho. split.
    + intros f E%(ow_open _ _ Ho). by apply elem_of_nil in E.
    + intros h data E. assert (Hh : h ∈ omap mm_handle ([] : list MmapFile)) by (apply (ow_mapped _ _ Ho); by exists data). by apply elem_of_nil in Hh.
Qed.

Lemma clear_trees_lookup mt : forall ts t, Forall (fun e : bytes * nat => (e.2 <> t)%nat) mt -> foldl (fun (ts : list (option nat)) e => <[e.2 := None]> ts) ts mt !! t = ts !! t.
Proof.
  induction mt as [|e mt IH]; intros ts t H; [done|]. apply Forall_cons in H as [Hn H]. cbn. rewrite IH by done. by apply list_lookup_insert_ne.
Qed.

Lemma clear_trees_closed mt : forall (ts : list (option nat)) t name, (name, t) ∈ mt -> (t < length ts)%nat ->
  foldl (fun (ts : list (option nat)) (e : bytes * nat) => <[e.2 := None]> ts) ts mt !! t = Some None.
Proof.
  induction mt as [|e mt IH] using rev_ind; intros ts t name Hin Hlt; [by apply elem_of_nil in Hin|]. rewrite foldl_app. cbn.
  assert (Hl : length (foldl (fun (ts : list (option nat)) (e : bytes * nat) => <[e.2 := None]> ts) ts mt) = length ts).
  { clear. revert ts. induction mt as [|e mt IH]; intros ts; [done|]. cbn. by rewrite IH, length_insert. }
  destruct (decide (e.2 = t)) as [<-|Hn]; [apply list_lookup_insert_eq; by rewrite Hl|]. rewrite list_lookup_insert_ne by done.
  apply (IH _ _ name); [|done]. apply elem_of_app in Hin as [|Hin]; [done|]. apply list_elem_of_singleton in Hin as <-. done.
Qed.

(** A copy of a multi-tree outlives it: after the copy is made and the original closed, both
    without an error, the copy has the same stores and each reads what it read before, without
    a fault. *)
Theorem copy_outlives_original (w : world) (mt : handles) :
  rtc step world_start w -> handles_ok w mt -> (forall s, Z.of_nat (holders w s) + zlen mt < 2 ^ 31) ->
  exists w1 mt' w2, MultiTree_Copy mt w = (w1, Ok mt') /\ MultiTree_Close mt w1 = (w2, Ok tt) /\ rtc step w w2 /\
    forall i name t, mt !! i = Some (name, t) -> exists t', mt' !! i = Some (name, t') /\ trees w2 !! t = Some None /\
      trees w2 !! t' = trees w !! t /\ forall s, trees w !! t = Some (Some s) -> view w2 s = view w s /\ exists snap, view w s = Ok snap.
Proof.
  intros Hrun Hok Hb. pose proof (run_safe _ _ start_safe Hrun) as Hs.
  destruct (MultiTree_Copy_run mt w Hs Hok Hb) as (w1 & mt' & E1 & Hr1 & Ht1 & Hm). pose proof (run_safe _ _ Hs Hr1) as Hs1.
  destruct (MultiTree_Close_run mt w1 Hs1) as (w2 & E2 & Hr2 & Ht2); [unfold handles_ok; rewrite Ht1, length_app; eapply Forall_impl; [done|]; cbn; lia|].
  exists w1, mt', w2. split_and!; [done|done|by etrans|]. intros i name t Ei. exists (length (trees w) + i)%nat.
  pose proof (proj1 (Forall_lookup _ _) Hok _ _ Ei) as Hlt. cbn in Hlt. destruct (lookup_lt_is_Some_2 _ _ Hlt) as (p & Ep).
  assert (Hc1 : trees w1 !! (length (trees w) + i)%nat = Some p).
  { rewrite Ht1, lookup_app_r by lia. replace (length (trees w) + i - length (trees w))%nat with i by lia.
    rewrite (list_lookup_fmap _ mt i : map _ mt !! i = _), Ei. cbn. by rewrite Ep. }
  assert (Hc2 : trees w2 !! (length (trees w) + i)%nat = Some p).
  { rewrite Ht2, clear_trees_lookup; [done|]. eapply Forall_impl; [done|]. cbn. lia. }
  split_and!; [by rewrite Hm, Ei|rewrite Ht2; apply (clear_trees_closed _ _ _ name); [by eapply list_elem_of_lookup_2|rewrite Ht1, length_app; lia]|by rewrite Hc2|].
  intros s Es. assert (p = Some s) as -> by congruence.
  destruct (holder_cell _ _ Hs (holders_pos _ _ _ Es)) as (c & Ec). split; [|by apply (view_ok _ _ _ (sf_owned _ Hs) Ec)].
  rewrite (run_frame _ _ _ _ Hs1 Hr2 Hc1 Hc2). apply (run_frame _ _ t _ Hs Hr1 Es). rewrite Ht1. by apply lookup_app_l_Some.
Qed.

(** ** Examples *)

(** A snapshot of one leaf, and its copy outliving the tree it was loaded for. *)
Definition sample_dir : Dir :=
  <[FileNameMetadata := le_put 4 SnapshotFileMagic ++ le_put 4 0 ++ le_put 8 7]>
  (<[FileNameNodes := []]> (<[FileNameLeaves := replicate 52 x00]> (<[FileNameKVs := [x01]]> ∅))).
Definition no_error (name : bytes) : option error := None.
Definition sample_world : world := (MultiTree_Load [(str "bank", sample_dir); (str "gov", sample_dir)] no_error world_start).1.

Lemma load_tree_step dir err w w' t : load_tree dir err w = (w', Ok t) -> rtc step w w'.
Proof. intros E. by eapply rtc_once, st_load. Qed.

Lemma sample_world_run : rtc step world_start sample_world.
Proof. etrans; [apply (load_tree_step sample_dir no_error _ _ 0%nat); vm_compute; reflexivity|]. eapply (load_tree_step sample_dir no_error _ _ 1%nat). vm_compute. reflexivity. Qed.

Lemma snapshot_holders_safe_witness :
  rtc step world_start sample_world /\ exists snap, view sample_world 1 = Ok snap /\ view (Tree_Close 0 sample_world).1 1 = Ok snap.
Proof.
  split; [apply sample_world_run|]. destruct (snapshot_holders_safe sample_world sample_world_run) as (_ & H & _).
  apply (H _ 1%nat); [|vm_compute; reflexivity..].
  destruct (Tree_Close_run 0 sample_world) as (w' & E & Hr & _); [exact (run_safe _ _ start_safe sample_world_run)|by eexists|]. by rewrite E.
Defined.

Lemma copy_outlives_original_witness :
  exists w1 mt' w2, MultiTree_Copy [(str "bank", 0%nat); (str "gov", 1%nat)] sample_world = (w1, Ok mt') /\
    MultiTree_Close [(str "bank", 0%nat); (str "gov", 1%nat)] w1 = (w2, Ok tt) /\ view w2 1 = view sample_world 1.
Proof.
  destruct (copy_outlives_original sample_world [(str "bank", 0%nat); (str "gov", 1%nat)]) as (w1 & mt' & w2 & E1 & E2 & _ & H).
  - apply sample_world_run.
  - by repeat constructor; cbn; lia.
  - intros s. assert (holders sample_world s <= 2)%nat; [|change (zlen _) with 2; lia]. unfold holders. etrans; [apply length_filter|]. replace (length (trees sample_world)) with 2%nat by (vm_compute; reflexivity). lia.
  - exists w1, mt', w2. split_and!; [done|done|]. destruct (H 1%nat (str "gov") 1%nat) as (t' & _ & _ & _ & Hv); [done|]. by apply Hv.
Defined.

(** A load that fails after the first store leaves the files of that store open, and no
    multi-tree to close them with. *)
Example failed_load_leaks :
  exists w e, MultiTree_Load [(str "bank", sample_dir); (str "gov", ∅)] no_error world_start = (w, Err e) /\
    files (w_os w) = [true; true; true].
Proof. by do 2 eexists. Qed.

(** The tree of a deleted store is dropped from the multi-tree and not closed: its files stay
    open after the multi-tree is closed. *)
Example deleted_store_leaks :
  exists w mt mt' w', MultiTree_Load [(str "bank", sample_dir); (str "gov", sample_dir)] no_error world_start = (w, Ok mt) /\
    delete_tree (str "bank") mt = Ok mt' /\ MultiTree_Close mt' w = (w', Ok tt) /\
    files (w_os w') = [true; true; true; false; false; false].
Proof. do 4 eexists. split; [vm_compute; reflexivity|]. split; [vm_compute; reflexivity|]. split; vm_compute; reflexivity. Qed.
