(* ===== verification/MultiTree.v ===== *)
(** * The multi-tree (memiavl/multitree.go)

    A [MultiTree] holds the trees of the stores ordered by name, with an index by name and
    the last commit info.  Its operations return the new state with the result, also when
    they fail half-way.  A snapshot of it is a directory with a folder per store and a
    metadata file; store names are single path components. *)

From Stdlib Require Import Strings.Byte ZArith Lia.
From stdpp Require Import base list numbers strings gmap.
From S2P Require Import Prelude Binary Proto State Node Snapshot SnapshotWriter Cache Tree Wal.
Local Open Scope Z_scope.

Definition MetadataFileName : bytes := str "__metadata".

(** ** Versions and indices of the log *)

Definition nextVersion (v initialVersion : Z) : Z :=
  if (v =? 0) && (1 <? initialVersion) then i64 initialVersion else i64 (v + 1).

(** The index of the log entry of a version, and back. *)
Definition walIndex (v initialVersion : Z) : Z :=
  if 1 <? initialVersion then u64 (u64 v - initialVersion + 1) else u64 v.
Definition walVersion (index initialVersion : Z) : Z :=
  if 1 <? initialVersion then i64 (i64 (i64 index + i64 initialVersion) - 1) else i64 index.

(** ** Directories *)

Inductive fentry : Type := File (data : bytes) | Folder (d : Dir).
Abbreviation MDir := (gmap bytes fentry).

(** [os.ReadDir]: the entries ordered by name. *)
Definition ReadDir {A} (dir : gmap bytes A) : list (bytes * A) := SliceStable fst (map_to_list dir).

Definition WriteFileSync (dir : MDir) (name data : bytes) : res MDir :=
  match dir !! name with
  | Some (Folder _) => Err "is a directory"
  | _ => Ok (<[name := File data]> dir)
  end.

Definition readMetadata (dir : MDir) : res MultiTreeMetadata :=
  bz ← match dir !! MetadataFileName with
       | Some (File bz) => Ok bz
       | Some (Folder _) => Err "is a directory"
       | None => Err "file does not exist"
       end;
  metadata ← MultiTreeMetadata_Unmarshal bz;
  info ← of_option (md_CommitInfo metadata);
  if ci_Version info <? 0 then Err "commit info version is negative" else
  if md_InitialVersion metadata <? 0 then Err "initial version is negative" else
  Ok metadata.

Section multitree.
  Context `{CacheOps C}.

Record NamedTree : Type := { nt_Tree : Tree C; nt_Name : bytes }.

Record MultiTree : Type := {
  initialVersion : Z;
  mt_zeroCopy : bool;
  cacheSize : Z;
  trees : list NamedTree;
  treesByName : gmap bytes nat;
  lastCommitInfo : CommitInfo;
  metadata : MultiTreeMetadata
}.

Definition with_trees (t : MultiTree) (l : list NamedTree) : MultiTree :=
  {| initialVersion := initialVersion t; mt_zeroCopy := mt_zeroCopy t; cacheSize := cacheSize t;
     trees := l; treesByName := treesByName t; lastCommitInfo := lastCommitInfo t; metadata := metadata t |}.
Definition with_index (t : MultiTree) (m : gmap bytes nat) : MultiTree :=
  {| initialVersion := initialVersion t; mt_zeroCopy := mt_zeroCopy t; cacheSize := cacheSize t;
     trees := trees t; treesByName := m; lastCommitInfo := lastCommitInfo t; metadata := metadata t |}.
Definition with_commit (t : MultiTree) (c : CommitInfo) : MultiTree :=
  {| initialVersion := initialVersion t; mt_zeroCopy := mt_zeroCopy t; cacheSize := cacheSize t;
     trees := trees t; treesByName := treesByName t; lastCommitInfo := c; metadata := metadata t |}.
Definition with_initialVersion (t : MultiTree) (v : Z) : MultiTree :=
  {| initialVersion := v; mt_zeroCopy := mt_zeroCopy t; cacheSize := cacheSize t;
     trees := trees t; treesByName := treesByName t; lastCommitInfo := lastCommitInfo t; metadata := metadata t |}.

(** Changes to the tree of an entry. *)
Definition on_tree (f : Tree C -> Tree C) (e : NamedTree) : NamedTree :=
  {| nt_Tree := f (nt_Tree e); nt_Name := nt_Name e |}.

Definition NewEmptyMultiTree (initialVersion cacheSize : Z) : MultiTree :=
  {| initialVersion := initialVersion; mt_zeroCopy := true; cacheSize := cacheSize;
     trees := []; treesByName := ∅; lastCommitInfo := CommitInfo_zero;
     metadata := {| md_CommitInfo := None; md_InitialVersion := 0 |} |}.

(** The positions of the names, from index [i] on. *)
Fixpoint index_from (i : nat) (l : list NamedTree) (m : gmap bytes nat) : gmap bytes nat :=
  match l with
  | [] => m
  | e :: l => index_from (S i) l (<[nt_Name e := i]> m)
  end.

Definition setInitialVersion (t : MultiTree) (v : Z) : MultiTree :=
  let t := with_initialVersion t v in
  if 1 <? v then with_trees t (map (on_tree (fun tree => Tree.setInitialVersion tree v)) (trees t)) else t.

(** The loop over the folders of a snapshot. *)
Fixpoint load_trees (zeroCopy : bool) (cacheSize : Z) (l : list (bytes * fentry)) : res (list NamedTree) :=
  match l with
  | [] => Ok []
  | (_, File _) :: l => load_trees zeroCopy cacheSize l
  | (name, Folder d) :: l =>
      snapshot ← OpenSnapshot d;
      tree ← NewFromSnapshot snapshot zeroCopy cacheSize;
      trees ← load_trees zeroCopy cacheSize l;
      Ok ({| nt_Tree := tree; nt_Name := name |} :: trees)
  end.

Definition LoadMultiTree (dir : MDir) (zeroCopy : bool) (cacheSize : Z) : res MultiTree :=
  metadata ← readMetadata dir;
  loaded ← load_trees zeroCopy cacheSize (ReadDir dir);
  let trees := SliceStable nt_Name loaded in
  info ← of_option (md_CommitInfo metadata);
  let mtree := {| initialVersion := 0; mt_zeroCopy := zeroCopy; cacheSize := cacheSize;
                  trees := trees; treesByName := index_from 0 trees ∅;
                  lastCommitInfo := info; metadata := metadata |} in
  Ok (setInitialVersion mtree (u64 (md_InitialVersion metadata))).

Definition TreeByName (t : MultiTree) (name : bytes) : res (option (Tree C)) :=
  match treesByName t !! name with
  | Some i => e ← of_option (trees t !! i); Ok (Some (nt_Tree e))
  | None => Ok None
  end.

Definition Version (t : MultiTree) : Z := ci_Version (lastCommitInfo t).
Definition SnapshotVersion (t : MultiTree) : res Z :=
  info ← of_option (md_CommitInfo (metadata t)); Ok (ci_Version info).

Definition SetInitialVersion (v : Z) : SE MultiTree unit := fun t =>
  if v <? 0 then (t, Err "initial version must be non-negative") else
  if negb (Version t =? 0) then (t, Err "multi tree is not empty") else
  if existsb (fun e => negb (Tree.IsEmpty (nt_Tree e))) (trees t) then (t, Err "tree is not empty") else
  (setInitialVersion t (u64 v), Ok tt).

Definition SetZeroCopy (t : MultiTree) (zc : bool) : MultiTree :=
  {| initialVersion := initialVersion t; mt_zeroCopy := zc; cacheSize := cacheSize t;
     trees := map (on_tree (fun tree => Tree.SetZeroCopy tree zc)) (trees t);
     treesByName := treesByName t; lastCommitInfo := lastCommitInfo t; metadata := metadata t |}.

Definition Copy (t : MultiTree) (cacheSize : Z) : MultiTree :=
  let l := map (on_tree (fun tree => Tree.Copy tree cacheSize)) (trees t) in
  with_index (with_trees t l) (index_from 0 l ∅).

(** ** Upgrades *)

(** [slices.IndexFunc] on the names. *)
Definition IndexName (l : list NamedTree) (name : bytes) : option nat :=
  fst <$> list_find (fun e => nt_Name e = name) l.

(** [l[i], l[len-1] = l[len-1], l[i]; l = l[:len-1]] *)
Definition swap_delete (i : nat) (l : list NamedTree) : list NamedTree :=
  match l !! i, last l with
  | Some x, Some y => take (length l - 1) (<[(length l - 1)%nat := x]> (<[i := y]> l))
  | _, _ => l
  end.

Definition upgrade_tree (upgrade : TreeNameUpgrade) : SE MultiTree unit :=
  if up_Delete upgrade then
    l ← gets trees;
    match IndexName l (up_Name upgrade) with
    | None => throw "unknown tree name"
    | Some i => modify (fun t => with_trees t (swap_delete i (trees t)))
    end
  else if negb (bool_decide (up_RenameFrom upgrade = [])) then
    l ← gets trees;
    match IndexName l (up_RenameFrom upgrade) with
    | None => throw "unknown tree name"
    | Some i => modify (fun t => with_trees t
        (alter (fun e => {| nt_Tree := nt_Tree e; nt_Name := up_Name upgrade |}) i (trees t)))
    end
  else
    modify (fun t =>
      let tree := NewWithInitialVersion (u64 (nextVersion (Version t) (initialVersion t))) (cacheSize t) in
      with_trees t (trees t ++ [{| nt_Tree := tree; nt_Name := up_Name upgrade |}])).

(** Rebuilding the index, which fails at the first name seen twice. *)
Fixpoint rebuild_index (i : nat) (l : list NamedTree) : SE MultiTree unit :=
  match l with
  | [] => mret tt
  | e :: l =>
      m ← gets treesByName;
      match m !! nt_Name e with
      | Some _ => throw "memiavl tree name conflicts"
      | None => modify (fun t => with_index t (<[nt_Name e := i]> (treesByName t))) ;; rebuild_index (S i) l
      end
  end.

Definition ApplyUpgrades (upgrades : list TreeNameUpgrade) : SE MultiTree unit :=
  if zlen upgrades =? 0 then mret tt
  else
    modify (fun t => with_index t ∅) ;;
    for_each upgrade_tree upgrades ;;
    modify (fun t => with_trees t (SliceStable nt_Name (trees t))) ;;
    modify (fun t => with_index t ∅) ;;
    l ← gets trees;
    rebuild_index 0 l.

(** ** Change sets and versions *)

Definition ApplyChangeSet (name : bytes) (changeSet : ChangeSet) : SE MultiTree unit :=
  m ← gets treesByName;
  match m !! name with
  | None => throw "unknown tree name"
  | Some i =>
      l ← gets trees;
      _ ← lift (of_option (l !! i));
      modify (fun t => with_trees t
        (alter (on_tree (fun tree => Tree.ApplyChangeSet tree changeSet)) i (trees t)))
  end.

Definition ApplyChangeSets (changeSets : list NamedChangeSet) : SE MultiTree unit :=
  for_each (fun cs => ApplyChangeSet (ncs_Name cs) (ncs_Changeset cs)) changeSets.

Definition applyWALEntry (entry : WALEntry) : SE MultiTree unit :=
  ApplyUpgrades (Upgrades entry) ;; ApplyChangeSets (Changesets entry).

(** The store infos of the trees; [Version] of a tree panics past [int64]. *)
Fixpoint store_infos (l : list NamedTree) : res (list StoreInfo) :=
  match l with
  | [] => Ok []
  | e :: l =>
      v ← Tree.Version (nt_Tree e);
      infos ← store_infos l;
      Ok ({| si_Name := nt_Name e;
             si_CommitId := {| cid_Version := v; cid_Hash := RootHash (nt_Tree e) |} |} :: infos)
  end.

Definition buildCommitInfo (t : MultiTree) (version : Z) : res CommitInfo :=
  infos ← store_infos (trees t);
  Ok {| ci_Version := version; ci_StoreInfos := infos |}.

Definition WorkingCommitInfo (t : MultiTree) : res CommitInfo :=
  buildCommitInfo t (nextVersion (Version t) (initialVersion t)).

Definition UpdateCommitInfo : SE MultiTree unit := fun t =>
  match buildCommitInfo t (Version t) with
  | Ok info => (with_commit t info, Ok tt)
  | Err e => (t, Err e)
  | Panic => (t, Panic)
  end.

(** The loop over the trees: the first [i] have been saved. *)
Definition save_tree (updateHash : bool) (i : nat) : SE MultiTree unit := fun t =>
  match trees t !! i with
  | None => (t, Ok tt)
  | Some e =>
      match Tree.SaveVersion (nt_Tree e) updateHash with
      | Ok (_, _, tree) => (with_trees t (<[i := on_tree (fun _ => tree) e]> (trees t)), Ok tt)
      | Err e => (t, Err e)
      | Panic => (t, Panic)
      end
  end.

Definition SaveVersion (updateCommitInfo : bool) : SE MultiTree Z :=
  modify (fun t => with_commit t
    {| ci_Version := nextVersion (Version t) (initialVersion t);
       ci_StoreInfos := ci_StoreInfos (lastCommitInfo t) |}) ;;
  n ← gets (fun t => length (trees t));
  for_each (save_tree updateCommitInfo) (seq 0 n) ;;
  (if updateCommitInfo then UpdateCommitInfo
   else modify (fun t => with_commit t {| ci_Version := Version t; ci_StoreInfos := [] |})) ;;
  gets Version.

(** ** Replay of the log *)

Section catchup.
  Context `{WalOps L}.

(** The loop from index [i], [n] entries. *)
Fixpoint replay (wal : L) (i : Z) (n : nat) : SE MultiTree unit :=
  match n with
  | O => mret tt
  | S n =>
      bz ← lift (wal_Read wal i);
      entry ← lift (WALEntry_Unmarshal bz);
      applyWALEntry entry ;;
      SaveVersion false ;;
      replay wal (i + 1) n
  end.

Definition CatchupWAL (wal : L) (endVersion : Z) : SE MultiTree unit :=
  lastIndex ← lift (wal_LastIndex wal);
  firstIndex ← gets (fun t => walIndex (nextVersion (Version t) (initialVersion t)) (initialVersion t));
  if lastIndex <? firstIndex then mret tt
  else
    endIndex ← gets (fun t => if endVersion =? 0 then lastIndex else walIndex endVersion (initialVersion t));
    if endIndex <? firstIndex then throw "target index is pruned"
    else
      let endIndex := if lastIndex <? endIndex then lastIndex else endIndex in
      replay wal firstIndex (Z.to_nat (endIndex - firstIndex + 1)) ;;
      UpdateCommitInfo.
End catchup.

(** ** Snapshots *)

(** The snapshot of one store, in its own folder.  [ctx] is what the checks of its writer
    for a cancellation see. *)
Definition write_store (ctx : bytes -> Context_) (dir : MDir) (e : NamedTree) : res MDir :=
  d ← match dir !! nt_Name e with
      | None => Ok ∅
      | Some (Folder d) => Ok d
      | Some (File _) => Err "not a directory"
      end;
  d ← WriteSnapshot max_depth (ctx (nt_Name e)) d (nt_Tree e);
  Ok (<[nt_Name e := Folder d]> dir).

(** The tasks of the worker pool, in the order they run. *)
Fixpoint write_stores (ctx : bytes -> Context_) (dir : MDir) (l : list NamedTree) : res MDir :=
  match l with
  | [] => Ok dir
  | e :: l => dir ← write_store ctx dir e; write_stores ctx dir l
  end.

Definition WriteSnapshotWithContext (ctx : bytes -> Context_) (dir : MDir) (t : MultiTree) : res MDir :=
  dir ← write_stores ctx dir (trees t);
  bz ← MultiTreeMetadata_Marshal
         {| md_CommitInfo := Some (lastCommitInfo t); md_InitialVersion := i64 (initialVersion t) |};
  WriteFileSync dir MetadataFileName bz.

Definition Close (t : MultiTree) : MultiTree :=
  {| initialVersion := initialVersion t; mt_zeroCopy := mt_zeroCopy t; cacheSize := cacheSize t;
     trees := []; treesByName := ∅; lastCommitInfo := CommitInfo_zero; metadata := metadata t |}.

End multitree.
Arguments NamedTree : clear implicits.
Arguments MultiTree : clear implicits.
