(* ===== verification/MultiTreeInv.v ===== *)
(** * Invariants of the multi-tree

    The arithmetic of versions and log indices, the invariant of the state (names in order,
    an index that agrees with them, trees at the version of the multi-tree) and its
    preservation, and the map of stores the state stands for. *)

From Stdlib Require Import Strings.Byte ZArith Lia.
From stdpp Require Import base list numbers strings gmap.
From S2P Require Import Prelude Binary Proto State Node NodeInv Snapshot SnapshotWriter Cache Tree Wal MultiTree.
Local Open Scope Z_scope.

(** ** Versions and indices *)

(** A version of a chain with the given initial version; a snapshot imported at a height
    sets the initial version to the next one. *)
Definition version_ok (v initialVersion : Z) : Prop :=
  0 <= initialVersion <= MaxInt64 /\ 0 <= v <= MaxInt64 /\ (v = 0 \/ initialVersion - 1 <= v).

(** The number of versions saved so far. *)
Definition saved (v initialVersion : Z) : Z :=
  if v =? 0 then 0 else if 1 <? initialVersion then v - initialVersion + 1 else v.

Lemma walIndex_saved v init : version_ok v init -> v <> 0 -> walIndex v init = saved v init.
Proof.
  unfold version_ok, walIndex, saved, MaxInt64. intros (Hi & Hv & Hd) Hz.
  rewrite (proj2 (Z.eqb_neq _ _)) by done. destruct (Z.ltb_spec 1 init).
  - rewrite (u64_small v), u64_small by lia. done.
  - by rewrite u64_small by lia.
Qed.

Lemma walVersion_saved v init : version_ok v init -> v <> 0 -> walVersion (saved v init) init = v.
Proof.
  unfold version_ok, walVersion, saved, MaxInt64. intros (Hi & Hv & Hd) Hz.
  rewrite (proj2 (Z.eqb_neq _ _)) by done. destruct (Z.ltb_spec 1 init).
  - rewrite (i64_small (v - init + 1)), (i64_small init) by lia.
    destruct (decide (v = 2 ^ 63 - 1)) as [->|].
    + replace (2 ^ 63 - 1 - init + 1 + init) with (2 ^ 63) by lia. vm_compute. reflexivity.
    + rewrite (i64_small (v - init + 1 + init)), i64_small by lia. lia.
  - by rewrite i64_small by lia.
Qed.

Lemma nextVersion_spec v init :
  version_ok v init -> v < MaxInt64 ->
  nextVersion v init = (if (v =? 0) && (1 <? init) then init else v + 1) /\
  version_ok (nextVersion v init) init /\ nextVersion v init <> 0 /\
  saved (nextVersion v init) init = saved v init + 1.
Proof.
  unfold version_ok, MaxInt64. intros (Hi & Hv & Hd) Hlt. unfold nextVersion.
  destruct (Z.eqb_spec v 0) as [->|Hz]; cbn [andb].
  - destruct (Z.ltb_spec 1 init) as [H1|H1].
    + rewrite i64_small by lia. split; [done|]. split; [lia|]. split; [lia|].
      unfold saved. rewrite (proj2 (Z.eqb_neq _ _)), (proj2 (Z.ltb_lt _ _)) by lia. simpl. lia.
    + rewrite i64_small by lia. split; [done|]. split; [lia|]. split; [lia|].
      unfold saved. by rewrite (proj2 (Z.ltb_ge 1 init)) by lia.
  - rewrite i64_small by lia. split; [done|]. split; [lia|]. split; [lia|].
    unfold saved. rewrite !(proj2 (Z.eqb_neq _ _)) by lia. destruct (1 <? init); lia.
Qed.

Lemma walIndex_next v init :
  version_ok v init -> v < MaxInt64 -> walIndex (nextVersion v init) init = saved v init + 1.
Proof.
  intros Hv Hl. destruct (nextVersion_spec v init Hv Hl) as (_ & Hn & Hz & <-). by apply walIndex_saved.
Qed.

Section inv.
Context `{CacheOps C}.
Implicit Types (t : MultiTree C) (e : NamedTree C) (l : list (NamedTree C)).

(** ** The index *)

(** The index of names is the positions in the list. *)
Definition index_ok (m : gmap bytes nat) l : Prop := forall name i,
  m !! name = Some i <-> exists e, l !! i = Some e /\ nt_Name e = name.

Lemma index_from_lookup i l m name :
  NoDup (map nt_Name l) ->
  index_from i l m !! name =
    match list_find (fun e => nt_Name e = name) l with
    | Some (j, _) => Some (i + j)%nat
    | None => m !! name
    end.
Proof.
  revert i m. induction l as [|e l IH]; intros i m Hd; [done|]. cbn [map] in Hd.
  apply NoDup_cons in Hd as [He Hd]. cbn [index_from]. rewrite IH by done. cbn [list_find].
  case_decide as E.
  - subst name. destruct (list_find _ l) as [[j x]|] eqn:F.
    + exfalso. apply list_find_Some in F as (Hx & Ex & _). apply He. rewrite <- Ex.
      by eapply list_elem_of_fmap_2, list_elem_of_lookup_2.
    + rewrite lookup_insert_eq. f_equal. lia.
  - destruct (list_find _ l) as [[j x]|]; simpl; [f_equal; lia|]. by rewrite lookup_insert_ne.
Qed.

Lemma index_from_ok l : NoDup (map nt_Name l) -> index_ok (index_from 0 l ∅) l.
Proof.
  intros Hd name i. rewrite index_from_lookup by done. split.
  - destruct (list_find _ l) as [[j x]|] eqn:F; [|by rewrite lookup_empty].
    intros [= <-]. apply list_find_Some in F as (Hx & Ex & _). eauto.
  - intros (e & He & <-). destruct (list_find _ l) as [[j x]|] eqn:F.
    + apply list_find_Some in F as (Hx & Ex & _). f_equal. simpl.
      eapply (NoDup_lookup _ j i (nt_Name e) Hd); by rewrite list_lookup_fmap, ?Hx, ?He; simpl; rewrite ?Ex.
    + exfalso. apply list_find_None in F. rewrite Forall_lookup in F. by apply (F i e He).
Qed.

(** ** The map of stores *)

Definition to_map l : gmap bytes (Tree C) := list_to_map (map (fun e => (nt_Name e, nt_Tree e)) l).
Definition stores t : gmap bytes (Tree C) := to_map (trees t).

Lemma to_map_fst l : (map (fun e => (nt_Name e, nt_Tree e)) l).*1 = map nt_Name l.
Proof. induction l as [|e l IH]; [done|]. cbn [map]. rewrite fmap_cons, IH. done. Qed.

Lemma to_map_perm l l' : NoDup (map nt_Name l) -> l ≡ₚ l' -> to_map l = to_map l'.
Proof.
  intros Hd Hp. unfold to_map. apply list_to_map_proper; [by rewrite to_map_fst|]. by apply Permutation_map.
Qed.

Lemma to_map_cons e l : to_map (e :: l) = <[nt_Name e := nt_Tree e]> (to_map l).
Proof. done. Qed.

Lemma to_map_None l name : to_map l !! name = None <-> name ∉ map nt_Name l.
Proof. unfold to_map. rewrite <- not_elem_of_list_to_map, to_map_fst. done. Qed.

Lemma to_map_lookup l name tree :
  NoDup (map nt_Name l) ->
  to_map l !! name = Some tree <-> exists i e, l !! i = Some e /\ nt_Name e = name /\ nt_Tree e = tree.
Proof.
  intros Hd. unfold to_map. rewrite <- elem_of_list_to_map by (by rewrite to_map_fst).
  split.
  - intros (e & [= -> ->] & He)%list_elem_of_fmap. apply list_elem_of_lookup in He as [i Hi]. eauto.
  - intros (i & e & He & <- & <-). apply list_elem_of_fmap. exists e. split; [done|].
    by eapply list_elem_of_lookup_2.
Qed.

(** One entry out of a list, by position. *)
Lemma list_at {A} (l : list A) i x :
  l !! i = Some x -> exists rest, l ≡ₚ x :: rest /\ forall f, alter f i l ≡ₚ f x :: rest.
Proof.
  intros Hi. exists (take i l ++ drop (S i) l). split.
  - rewrite <- (take_drop_middle l i x Hi) at 1. by rewrite Permutation_middle.
  - intros f. assert (i < length l)%nat by (by eapply lookup_lt_Some).
    assert (E : alter f i l = take i l ++ f x :: drop (S i) l).
    { rewrite <- (take_drop_middle l i x Hi) at 1.
      assert (Hl : length (take i l) = i) by (rewrite length_take; lia).
      rewrite <- Hl at 1. rewrite <- (Nat.add_0_r (length (take i l))) at 1.
      by rewrite alter_app_r. }
    rewrite E. by rewrite Permutation_middle.
Qed.

Lemma names_on_tree f i l : map nt_Name (alter (on_tree f) i l) = map nt_Name l.
Proof.
  apply list_eq. intros j. rewrite !list_lookup_fmap. destruct (decide (i = j)) as [->|].
  - rewrite list_lookup_alter_eq. by destruct (l !! j).
  - by rewrite list_lookup_alter_ne.
Qed.

Lemma to_map_alter f i e l :
  NoDup (map nt_Name l) -> l !! i = Some e ->
  to_map (alter (on_tree f) i l) = alter f (nt_Name e) (to_map l).
Proof.
  intros Hd Hi. destruct (list_at l i e Hi) as (rest & Hp & Ha).
  rewrite (to_map_perm l (e :: rest)) by done.
  rewrite (to_map_perm (alter (on_tree f) i l) (on_tree f e :: rest)); [|by rewrite names_on_tree|apply Ha].
  rewrite !to_map_cons. cbn [on_tree nt_Name nt_Tree]. by rewrite alter_insert_eq.
Qed.

(** ** The invariant *)

(** The version of the trees of a multi-tree at version [v]. *)
Definition tree_version (v init : Z) : Z := if (v =? 0) && (1 <? init) then init - 1 else v.

Record mt_ok t : Prop := {
  mo_sorted : sorted_by nt_Name (trees t);
  mo_index : index_ok (treesByName t) (trees t);
  mo_version : version_ok (Version t) (initialVersion t);
  mo_trees : Forall (fun e => version (nt_Tree e) = tree_version (Version t) (initialVersion t)) (trees t)
}.

Lemma mo_names t : mt_ok t -> NoDup (map nt_Name (trees t)).
Proof. intros Ht. by apply sorted_by_NoDup, mo_sorted. Qed.

Lemma NewEmptyMultiTree_ok init size : 0 <= init <= MaxInt64 -> mt_ok (NewEmptyMultiTree init size).
Proof.
  intros Hi. split; [constructor| | |done].
  - intros name i. cbn [treesByName trees NewEmptyMultiTree]. rewrite lookup_empty. split; [done|].
    by intros (e & He & _).
  - split; [done|]. split; [done|]. by left.
Qed.

Lemma TreeByName_stores t name : mt_ok t -> TreeByName t name = Ok (stores t !! name).
Proof.
  intros Ht. unfold TreeByName, stores. pose proof (mo_names t Ht) as Hd.
  destruct (treesByName t !! name) as [i|] eqn:E.
  - apply (mo_index t Ht) in E as (e & He & Hn). rewrite He. cbn [of_option mbind res_bind].
    rewrite (proj2 (to_map_lookup _ name (nt_Tree e) Hd)); [done|eauto].
  - destruct (to_map (trees t) !! name) as [tree|] eqn:F; [|done]. exfalso.
    apply to_map_lookup in F as (i & e & He & Hn & _); [|done].
    assert (treesByName t !! name = Some i) as E' by (apply (mo_index t Ht); eauto). congruence.
Qed.

(** ** Change sets *)

Lemma set_version (tr : Tree C) k v : version (Tree.set tr k v) = version tr.
Proof. unfold Tree.set. by destruct (setRoot _ _ _ _). Qed.
Lemma remove_version (tr : Tree C) k : version (Tree.remove tr k) = version tr.
Proof. unfold Tree.remove. by destruct (removeRoot _ _ _) as [[??]?]. Qed.

Lemma ApplyChangeSet_version (tr : Tree C) cs : version (Tree.ApplyChangeSet tr cs) = version tr.
Proof.
  unfold Tree.ApplyChangeSet. revert tr. induction (Pairs cs) as [|p ps IH]; intros tr; [done|].
  cbn [foldl]. rewrite IH. unfold apply_pair. destruct (kv_Delete p); [apply remove_version|apply set_version].
Qed.

(** Changing the trees in place, keeping names and versions. *)
Lemma mt_ok_with_trees t l :
  mt_ok t -> map nt_Name l = map nt_Name (trees t) ->
  Forall (fun e => version (nt_Tree e) = tree_version (Version t) (initialVersion t)) l ->
  mt_ok (with_trees t l).
Proof.
  intros [Hs Hi Hv Ht] Hn Hl. split; [|..|done|done].
  - unfold sorted_by. cbn [trees with_trees]. by rewrite Hn.
  - intros name i. cbn [treesByName trees with_trees]. rewrite (Hi name i).
    assert (E : forall e l', l' !! i = Some e -> (map nt_Name l') !! i = Some (nt_Name e)).
    { intros e l' He. by rewrite list_lookup_fmap, He. }
    split; intros (e & He & <-); apply E in He; [rewrite <- Hn in He|rewrite Hn in He];
      rewrite list_lookup_fmap in He; apply fmap_Some in He as (e' & He' & En); eauto.
Qed.

Lemma ApplyChangeSet_stores t name cs :
  mt_ok t ->
  match stores t !! name with
  | None => ApplyChangeSet name cs t = (t, Err "unknown tree name")
  | Some _ => exists t', ApplyChangeSet name cs t = (t', Ok tt) /\ mt_ok t' /\
      Version t' = Version t /\ initialVersion t' = initialVersion t /\
      stores t' = alter (fun tree => Tree.ApplyChangeSet tree cs) name (stores t)
  end.
Proof.
  intros Ht. pose proof (TreeByName_stores t name Ht) as Hl. unfold TreeByName in Hl.
  unfold ApplyChangeSet, gets, mbind, SE_bind.
  destruct (treesByName t !! name) as [i|] eqn:E; [|by injection Hl as <-].
  apply (mo_index t Ht) in E as (e & He & <-). rewrite He in Hl. injection Hl as <-.
  unfold lift. rewrite He. cbn [of_option]. unfold modify. eexists. split; [done|].
  split; [|split; [done|split; [done|]]].
  - apply mt_ok_with_trees; [done|apply names_on_tree|]. apply Forall_lookup. intros j e' Hj.
    pose proof (proj1 (Forall_lookup _ _) (mo_trees t Ht)) as Hv. destruct (decide (i = j)) as [->|].
    + rewrite list_lookup_alter_eq, He in Hj. injection Hj as <-. cbn [nt_Tree on_tree].
      rewrite ApplyChangeSet_version. by eapply Hv.
    + rewrite list_lookup_alter_ne in Hj by done. by eapply Hv.
  - unfold stores. cbn [trees with_trees]. apply to_map_alter; [by apply mo_names|done].
Qed.

(** ** Saving a version *)

(** The trees with their versions incremented. *)
Definition bump (tr : Tree C) : Tree C := with_version tr (version tr + 1).

Definition infos l (v : Z) : list StoreInfo :=
  map (fun e => {| si_Name := nt_Name e; si_CommitId := {| cid_Version := v; cid_Hash := RootHash (nt_Tree e) |} |}) l.

Lemma store_infos_at l v :
  0 <= v <= MaxInt64 -> Forall (fun e => version (nt_Tree e) = v) l -> store_infos l = Ok (infos l v).
Proof.
  intros Hv. induction 1 as [|e l He Hl IH]; [done|]. cbn [store_infos infos map]. fold (infos l v).
  unfold Tree.Version. rewrite He, (proj2 (Z.ltb_ge _ _)) by lia. cbn [mbind res_bind].
  rewrite IH. cbn [mbind res_bind]. unfold MaxInt64 in *. by rewrite i64_small by lia.
Qed.

Lemma save_trees upd t v k n :
  Forall (fun e => version (nt_Tree e) = v) (drop k (trees t)) -> 0 <= v < MaxInt64 ->
  (k + n = length (trees t))%nat ->
  for_each (save_tree upd) (seq k n) t =
    (with_trees t (take k (trees t) ++ map (on_tree bump) (drop k (trees t))), Ok tt).
Proof.
  revert t k. induction n as [|n IH]; intros t k Hl Hv Hk.
  - cbn [seq for_each]. rewrite Nat.add_0_r in Hk. rewrite drop_ge, firstn_all2, app_nil_r by lia. by destruct t.
  - cbn [seq for_each]. destruct (lookup_lt_is_Some_2 (trees t) k) as [e He]; [lia|].
    rewrite (drop_S _ e _ He) in *. apply Forall_cons in Hl as [Hev Hl].
    apply for_each_cons_ok. exists (with_trees t (<[k := on_tree bump e]> (trees t))). split.
    { unfold save_tree, Tree.SaveVersion, MaxInt64 in *.
      rewrite He, Hev, u64_small, (proj2 (Z.ltb_ge _ _)) by lia.
      unfold on_tree, bump, with_version. by rewrite Hev. }
    rewrite IH; cbn [trees with_trees];
      [|by rewrite drop_insert_lt by lia|lia|rewrite length_insert; lia].
    rewrite drop_insert_lt by lia.
    rewrite (take_S_r _ k (on_tree bump e)) by (by rewrite list_lookup_insert_eq by lia).
    rewrite take_insert_ge by lia. rewrite <- app_assoc. done.
Qed.

Lemma tree_version_next v init :
  version_ok v init -> v < MaxInt64 ->
  0 <= tree_version v init < MaxInt64 /\ tree_version v init + 1 = nextVersion v init /\
  tree_version (nextVersion v init) init = nextVersion v init.
Proof.
  intros Hv Hl. destruct (nextVersion_spec v init Hv Hl) as (E & _ & Hz & _).
  unfold tree_version at 4. rewrite (proj2 (Z.eqb_neq _ _) Hz). cbn [andb]. rewrite E.
  unfold tree_version, version_ok, MaxInt64 in *. destruct (_ && _); lia.
Qed.

Definition saved_info t (upd : bool) (v : Z) : CommitInfo :=
  {| ci_Version := v; ci_StoreInfos := if upd then infos (trees t) v else [] |}.

Definition saved_state t (upd : bool) : MultiTree C :=
  let v := nextVersion (Version t) (initialVersion t) in
  let t := with_trees t (map (on_tree bump) (trees t)) in
  with_commit t (saved_info t upd v).

Lemma SaveVersion_state t upd :
  mt_ok t -> Version t < MaxInt64 ->
  SaveVersion upd t = (saved_state t upd, Ok (nextVersion (Version t) (initialVersion t))).
Proof.
  intros Ht Hlt. destruct (tree_version_next _ _ (mo_version t Ht) Hlt) as (Hb & Hn & _).
  destruct (nextVersion_spec _ _ (mo_version t Ht) Hlt) as (_ & (_ & Hr & _) & _).
  unfold SaveVersion. apply SE_bind_ok. eexists _, tt. split; [reflexivity|].
  apply SE_bind_ok. eexists _, _. split; [reflexivity|].
  apply SE_bind_ok. eexists _, tt. split.
  { apply (save_trees _ _ (tree_version (Version t) (initialVersion t))); [|done|done].
    cbn [trees with_commit]. rewrite drop_0. apply (mo_trees t Ht). }
  cbn [trees with_commit]. rewrite take_0, drop_0. cbn [app].
  set (v := nextVersion _ _) in *.
  apply SE_bind_ok. exists (saved_state t upd), tt. split; [|done].
  destruct upd; [|done]. unfold UpdateCommitInfo, buildCommitInfo. cbn [trees with_trees with_commit].
  rewrite (store_infos_at _ v Hr); [done|].
  apply Forall_map. apply (Forall_impl _ _ _ (mo_trees t Ht)). intros e He.
  cbn [nt_Tree on_tree bump with_version version]. lia.
Qed.

Lemma saved_state_ok t upd : mt_ok t -> Version t < MaxInt64 -> mt_ok (saved_state t upd).
Proof.
  intros Ht Hlt. destruct (tree_version_next _ _ (mo_version t Ht) Hlt) as (Hb & Hn & Hv).
  destruct (nextVersion_spec _ _ (mo_version t Ht) Hlt) as (_ & Hok & _).
  assert (Hnames : map nt_Name (map (on_tree bump) (trees t)) = map nt_Name (trees t)).
  { rewrite map_map. by apply map_ext. }
  unfold saved_state, saved_info. split; cbn [trees treesByName initialVersion with_commit with_trees]; unfold Version;
    cbn [lastCommitInfo with_commit ci_Version].
  - unfold sorted_by. rewrite Hnames. apply (mo_sorted t Ht).
  - intros name i. rewrite (mo_index t Ht name i), list_lookup_fmap. split.
    + intros (e & -> & <-). simpl. eauto.
    + destruct (trees t !! i) as [e|]; simpl; intros (e' & E & <-); [|done].
      injection E as <-. eauto.
  - done.
  - apply Forall_map. apply (Forall_impl _ _ _ (mo_trees t Ht)). intros e He.
    cbn [nt_Tree on_tree bump with_version version]. fold (Version t). lia.
Qed.

Lemma saved_stores t upd : stores (saved_state t upd) = bump <$> stores t.
Proof.
  unfold stores, saved_state, to_map. cbn [trees with_commit with_trees].
  rewrite <- list_to_map_fmap. f_equal. rewrite map_map. unfold fmap. 
  induction (trees t) as [|e l IH]; [done|]. cbn. f_equal. done.
Qed.

(** ** Upgrades *)

Lemma with_index_id t : with_index t (treesByName t) = t.
Proof. by destruct t. Qed.

(** Rebuilding the index succeeds exactly when the names are new and distinct. *)
Lemma rebuild_index_spec i l t t' :
  rebuild_index i l t = (t', Ok tt) <->
  NoDup (map nt_Name l) /\ (forall e, e ∈ l -> treesByName t !! nt_Name e = None) /\
  t' = with_index t (index_from i l (treesByName t)).
Proof.
  revert i t. induction l as [|e l IH]; intros i t; cbn [rebuild_index map index_from].
  { rewrite with_index_id. split.
    - intros [= <-]. split; [constructor|]. split; [|done]. by intros e ?%not_elem_of_nil.
    - by intros (_ & _ & ->). }
  unfold gets, mbind, SE_bind. rewrite NoDup_cons.
  destruct (treesByName t !! nt_Name e) as [j|] eqn:E.
  { unfold throw. split; [done|]. intros (_ & Hn & _). rewrite Hn in E by (by left). done. }
  unfold modify. rewrite IH. cbn [treesByName with_index]. split.
  - intros (Hd & Hn & ->). split; [split; [|done]|split; [|done]].
    + intros (e' & Ee & He)%list_elem_of_fmap. specialize (Hn e' He). by rewrite Ee, lookup_insert_eq in Hn.
    + intros e' [->|He]%elem_of_cons; [done|]. specialize (Hn e' He).
      by apply lookup_insert_None in Hn as [Hn _].
  - intros ([Hx Hd] & Hn & ->). split; [done|]. split; [|done]. intros e' He.
    rewrite lookup_insert_ne; [apply Hn; by right|]. intros Ee. apply Hx. rewrite Ee.
    by apply list_elem_of_fmap_2.
Qed.

Lemma swap_delete_perm i x l : l !! i = Some x -> x :: swap_delete i l ≡ₚ l.
Proof.
  intros Hi. unfold swap_delete. rewrite Hi.
  destruct l as [|y l' _] using rev_ind; [done|]. rewrite last_snoc, length_app. simpl length.
  replace (length l' + 1 - 1)%nat with (length l') by lia.
  rewrite take_insert_ge by lia. destruct (decide (i = length l')) as [->|Hne].
  - rewrite take_insert_ge by lia. rewrite take_app_length.
    rewrite lookup_app_r, Nat.sub_diag in Hi by lia. injection Hi as ->. by rewrite Permutation_cons_append.
  - assert (i < length l')%nat.
    { apply lookup_lt_Some in Hi. rewrite length_app in Hi. simpl in Hi. lia. }
    rewrite lookup_app_l in Hi by done. rewrite insert_app_l, take_app_le by (rewrite ?length_insert; lia).
    rewrite firstn_all2 by (rewrite length_insert; lia).
    rewrite <- (take_drop_middle l' i x Hi) at 2. rewrite insert_take_drop by done.
    rewrite <- Permutation_cons_append, <- !Permutation_middle. apply perm_swap.
Qed.

Lemma IndexName_spec l name i :
  IndexName l name = Some i -> exists e, l !! i = Some e /\ nt_Name e = name.
Proof.
  unfold IndexName. destruct (list_find _ l) as [[j e]|] eqn:F; [|done]. intros [= <-].
  apply list_find_Some in F as (He & Hn & _). eauto.
Qed.

Lemma IndexName_None l name : IndexName l name = None <-> name ∉ map nt_Name l.
Proof.
  unfold IndexName. rewrite fmap_None, list_find_None, Forall_forall. split.
  - intros Hf (e & -> & He)%list_elem_of_fmap. by apply (Hf e).
  - intros Hn e He <-. apply Hn. by apply list_elem_of_fmap_2.
Qed.

(** The tree a new store starts with. *)
Definition new_tree t : Tree C :=
  NewWithInitialVersion (u64 (nextVersion (Version t) (initialVersion t))) (cacheSize t).

Lemma new_tree_version t :
  version_ok (Version t) (initialVersion t) -> Version t < MaxInt64 ->
  version (new_tree t) = tree_version (Version t) (initialVersion t).
Proof.
  intros Hv Hl. destruct (tree_version_next _ _ Hv Hl) as (Hb & Hn & _).
  unfold new_tree, NewWithInitialVersion, MaxInt64 in *. rewrite <- Hn, u64_small by lia.
  destruct (Z.leb_spec (tree_version (Version t) (initialVersion t) + 1) 1); cbn [version New NewEmptyTree]; lia.
Qed.

(** What an upgrade does to the list of trees, up to the order. *)
Inductive upgraded t (u : TreeNameUpgrade) l : list (NamedTree C) -> Prop :=
| upgraded_delete e rest l' :
    up_Delete u = true -> nt_Name e = up_Name u -> l ≡ₚ e :: rest -> l' ≡ₚ rest -> upgraded t u l l'
| upgraded_rename e rest l' :
    up_Delete u = false -> up_RenameFrom u <> [] -> nt_Name e = up_RenameFrom u -> l ≡ₚ e :: rest ->
    l' ≡ₚ {| nt_Tree := nt_Tree e; nt_Name := up_Name u |} :: rest -> upgraded t u l l'
| upgraded_add l' :
    up_Delete u = false -> up_RenameFrom u = [] ->
    l' ≡ₚ {| nt_Tree := new_tree t; nt_Name := up_Name u |} :: l -> upgraded t u l l'.

Lemma upgrade_tree_spec u t t' :
  upgrade_tree u t = (t', Ok tt) -> exists l', t' = with_trees t l' /\ upgraded t u (trees t) l'.
Proof.
  unfold upgrade_tree. destruct (up_Delete u) eqn:Ed.
  - unfold gets, mbind, SE_bind. destruct (IndexName _ _) as [i|] eqn:Ei; [|done]. unfold modify.
    intros [= <-]. apply IndexName_spec in Ei as (e & He & Hn). eexists. split; [done|].
    eapply upgraded_delete; [done|done| |reflexivity]. symmetry. by apply swap_delete_perm.
  - destruct (decide (up_RenameFrom u = [])) as [Er|Er].
    + rewrite bool_decide_eq_true_2 by done. cbn [negb]. unfold modify. intros [= <-].
      eexists. split; [done|]. eapply upgraded_add; [done|done|]. by rewrite <- Permutation_cons_append.
    + rewrite bool_decide_eq_false_2 by done. cbn [negb]. unfold gets, mbind, SE_bind.
      destruct (IndexName _ _) as [i|] eqn:Ei; [|done]. unfold modify. intros [= <-].
      apply IndexName_spec in Ei as (e & He & Hn). eexists. split; [done|].
      destruct (list_at _ i e He) as (rest & Hp & Ha). by eapply upgraded_rename.
Qed.

(** The parts of the state an upgrade keeps. *)
Definition same_frame t t' : Prop :=
  initialVersion t' = initialVersion t /\ lastCommitInfo t' = lastCommitInfo t /\ cacheSize t' = cacheSize t.

Lemma new_tree_frame t t' : same_frame t t' -> new_tree t' = new_tree t.
Proof. unfold same_frame, new_tree, Version. by intros (-> & -> & ->). Qed.

Definition versions_at (v : Z) l : Prop := Forall (fun e => version (nt_Tree e) = v) l.

Lemma upgraded_versions t u l l' v :
  version (new_tree t) = v -> upgraded t u l l' -> versions_at v l -> versions_at v l'.
Proof.
  intros Hnew Hu Hl. unfold versions_at in *.
  destruct Hu as [e rest l' _ _ Hp Hp'|e rest l' _ _ _ Hp Hp'|l' _ _ Hp']; rewrite Hp'; rewrite ?Hp in Hl.
  - by apply Forall_cons in Hl as [_ Hl].
  - apply Forall_cons in Hl as [He Hl]. by constructor.
  - by constructor.
Qed.

(** The upgrades one after the other, as the loop does them. *)
Inductive upgrades_run t : list TreeNameUpgrade -> list (NamedTree C) -> list (NamedTree C) -> Prop :=
| run_nil l : upgrades_run t [] l l
| run_cons u us l l1 l2 : upgraded t u l l1 -> upgrades_run t us l1 l2 -> upgrades_run t (u :: us) l l2.

Lemma for_each_upgrades us t0 t t' :
  same_frame t0 t -> for_each upgrade_tree us t = (t', Ok tt) ->
  exists l', t' = with_trees t l' /\ upgrades_run t0 us (trees t) l'.
Proof.
  revert t. induction us as [|u us IH]; intros t Hf E.
  - injection E as <-. exists (trees t). split; [by destruct t|constructor].
  - apply for_each_cons_ok in E as (t1 & E1 & E2).
    apply upgrade_tree_spec in E1 as (l1 & -> & Hu). apply IH in E2 as (l' & -> & Hr); [|exact Hf].
    exists l'. split; [done|]. apply run_cons with l1; [|exact Hr].
    pose proof (new_tree_frame t0 t Hf) as En.
    destruct Hu; [eapply upgraded_delete|eapply upgraded_rename|eapply upgraded_add]; eauto. by rewrite <- En.
Qed.

(** The state after upgrades: sorted trees and a new index. *)
Definition upgraded_state t l : MultiTree C :=
  with_index (with_trees t (SliceStable nt_Name l)) (index_from 0 (SliceStable nt_Name l) ∅).

Lemma ApplyUpgrades_state us t t' :
  us <> [] -> ApplyUpgrades us t = (t', Ok tt) ->
  exists l, upgrades_run t us (trees t) l /\ NoDup (map nt_Name l) /\ t' = upgraded_state t l.
Proof.
  intros Hne E. unfold ApplyUpgrades in E.
  rewrite (proj2 (Z.eqb_neq _ 0)) in E by (unfold zlen; destruct us; simpl; [done|lia]).
  apply SE_bind_ok in E as (t1 & [] & [= <-] & E).
  apply SE_bind_ok in E as (t2 & [] & Hrun & E). apply (for_each_upgrades us t) in Hrun as (l & -> & Hr); [|done].
  apply SE_bind_ok in E as (t3 & [] & [= <-] & E). apply SE_bind_ok in E as (t4 & [] & [= <-] & E).
  apply SE_bind_ok in E as (t5 & l5 & [= <- <-] & E). cbn [trees with_trees with_index] in E.
  apply rebuild_index_spec in E as (Hd & _ & ->). exists l. split; [done|]. split; [|done].
  by rewrite (SliceStable_perm nt_Name l) in Hd.
Qed.

Lemma upgraded_state_ok t l :
  version_ok (Version t) (initialVersion t) -> NoDup (map nt_Name l) ->
  versions_at (tree_version (Version t) (initialVersion t)) l -> mt_ok (upgraded_state t l).
Proof.
  intros Hv Hd Hl. split; [by apply SliceStable_sorted| |done|].
  - apply index_from_ok. by rewrite (SliceStable_perm nt_Name l).
  - cbn [trees upgraded_state with_index with_trees]. unfold versions_at in Hl. by rewrite SliceStable_perm.
Qed.

Lemma upgrades_run_versions t us l l' v :
  version (new_tree t) = v -> upgrades_run t us l l' -> versions_at v l -> versions_at v l'.
Proof. intros Hn. induction 1; intros Hl; [done|]. apply IHupgrades_run. by eapply upgraded_versions. Qed.

Lemma ApplyUpgrades_ok us t t' :
  mt_ok t -> Version t < MaxInt64 -> ApplyUpgrades us t = (t', Ok tt) -> mt_ok t' /\ same_frame t t'.
Proof.
  intros Ht Hl E. destruct us as [|u us]; [by injection E as <-|].
  apply ApplyUpgrades_state in E as (l & Hr & Hd & ->); [|done]. split; [|done].
  apply upgraded_state_ok; [apply (mo_version t Ht)|done|].
  eapply upgrades_run_versions; [|exact Hr|exact (mo_trees t Ht)].
  apply new_tree_version; [apply (mo_version t Ht)|done].
Qed.

(** *** Upgrades on the map of stores *)

Definition upgrade_map (new : Tree C) (m : gmap bytes (Tree C)) (u : TreeNameUpgrade) : option (gmap bytes (Tree C)) :=
  if up_Delete u then _ ← m !! up_Name u; Some (delete (up_Name u) m)
  else if decide (up_RenameFrom u = []) then
    match m !! up_Name u with None => Some (<[up_Name u := new]> m) | Some _ => None end
  else
    tree ← m !! up_RenameFrom u;
    match delete (up_RenameFrom u) m !! up_Name u with
    | None => Some (<[up_Name u := tree]> (delete (up_RenameFrom u) m))
    | Some _ => None
    end.

Fixpoint upgrade_maps (new : Tree C) (m : gmap bytes (Tree C)) (us : list TreeNameUpgrade) : option (gmap bytes (Tree C)) :=
  match us with
  | [] => Some m
  | u :: us => m ← upgrade_map new m u; upgrade_maps new m us
  end.

Lemma upgraded_map t u l l' m' :
  NoDup (map nt_Name l) -> upgraded t u l l' -> upgrade_map (new_tree t) (to_map l) u = Some m' ->
  NoDup (map nt_Name l') /\ to_map l' = m'.
Proof.
  intros Hd Hu E. unfold upgrade_map in E.
  destruct Hu as [e rest l' Hdel Hn Hp Hp'|e rest l' Hdel Hr Hn Hp Hp'|l' Hdel Hr Hp'];
    rewrite Hdel in E; [|rewrite decide_False in E by done|rewrite decide_True in E by done];
    rewrite ?(to_map_perm l _ Hd Hp) in E; rewrite ?Hp in Hd; cbn [map] in Hd.
  - apply NoDup_cons in Hd as [Hx Hd]. split; [by rewrite Hp'|].
    rewrite (to_map_perm l' rest) by (done || by rewrite Hp').
    rewrite to_map_cons, Hn, lookup_insert_eq in E. injection E as <-.
    rewrite delete_insert_eq. symmetry. apply delete_id. apply to_map_None. by rewrite <- Hn.
  - apply NoDup_cons in Hd as [Hx Hd]. rewrite to_map_cons, <- Hn, lookup_insert_eq in E. cbn [mbind option_bind] in E.
    rewrite delete_insert_eq, delete_id in E by (by apply to_map_None).
    destruct (to_map rest !! up_Name u) eqn:F; [done|]. injection E as <-.
    assert (Hd' : NoDup (map nt_Name ({| nt_Tree := nt_Tree e; nt_Name := up_Name u |} :: rest))).
    { cbn [map nt_Name]. constructor; [by apply to_map_None|done]. }
    split; [by rewrite Hp'|]. by rewrite (to_map_perm l' _) by (done || by rewrite Hp').
  - destruct (to_map l !! up_Name u) eqn:F; [done|]. injection E as <-.
    assert (Hd' : NoDup (map nt_Name ({| nt_Tree := new_tree t; nt_Name := up_Name u |} :: l))).
    { cbn [map nt_Name]. constructor; [by apply to_map_None|done]. }
    split; [by rewrite Hp'|]. by rewrite (to_map_perm l' _) by (done || by rewrite Hp').
Qed.

(** An upgrade that makes sense on the map is done. *)
Lemma upgrade_tree_done u t m' :
  upgrade_map (new_tree t) (to_map (trees t)) u = Some m' -> exists t', upgrade_tree u t = (t', Ok tt).
Proof.
  assert (Hin : forall name tree, to_map (trees t) !! name = Some tree -> IndexName (trees t) name <> None).
  { intros name tree E Hn. apply IndexName_None, to_map_None in Hn. congruence. }
  unfold upgrade_map, upgrade_tree. destruct (up_Delete u).
  - destruct (to_map (trees t) !! up_Name u) as [tree|] eqn:E; [|done]. intros _.
    apply Hin in E. unfold gets, mbind, SE_bind. destruct (IndexName _ _); [|done]. by eexists.
  - case_decide as D.
    + intros _. rewrite bool_decide_eq_true_2 by done. by eexists.
    + rewrite bool_decide_eq_false_2 by done. cbn [negb].
      destruct (to_map (trees t) !! up_RenameFrom u) as [tree|] eqn:E; [|done]. intros _.
      apply Hin in E. unfold gets, mbind, SE_bind. destruct (IndexName _ _); [|done]. by eexists.
Qed.

Lemma for_each_upgrades_done us t0 t m' :
  same_frame t0 t -> NoDup (map nt_Name (trees t)) ->
  upgrade_maps (new_tree t0) (to_map (trees t)) us = Some m' ->
  exists t', for_each upgrade_tree us t = (t', Ok tt) /\ same_frame t0 t' /\
    NoDup (map nt_Name (trees t')) /\ to_map (trees t') = m'.
Proof.
  revert t. induction us as [|u us IH]; intros t Hf Hd E; cbn [upgrade_maps] in E.
  { injection E as <-. exists t. done. }
  destruct (upgrade_map _ _ u) as [m1|] eqn:E1; [|done]. cbn [mbind option_bind] in E.
  rewrite <- (new_tree_frame t0 t Hf) in E1.
  destruct (upgrade_tree_done u t m1 E1) as [t1 Ht1].
  pose proof Ht1 as Hs. apply upgrade_tree_spec in Hs as (l1 & -> & Hu).
  destruct (upgraded_map t u (trees t) l1 m1 Hd Hu E1) as [Hd1 <-].
  destruct (IH (with_trees t l1)) as (t' & Ht' & Hf' & Hd' & Em); [exact Hf|exact Hd1|exact E|].
  exists t'. split; [|done]. apply for_each_cons_ok. eauto.
Qed.

Lemma ApplyUpgrades_done us t m' :
  mt_ok t -> upgrade_maps (new_tree t) (stores t) us = Some m' ->
  exists t', ApplyUpgrades us t = (t', Ok tt) /\ same_frame t t' /\ stores t' = m'.
Proof.
  intros Ht E. destruct us as [|u us]; [injection E as <-; by exists t|].
  destruct (for_each_upgrades_done (u :: us) t (with_index t ∅) m') as (t1 & E1 & Hf & Hd & Em);
    [done|exact (mo_names t Ht)|exact E|].
  unfold ApplyUpgrades. rewrite (proj2 (Z.eqb_neq _ 0)) by (unfold zlen; simpl; lia).
  eexists. split; [|split].
  - apply SE_bind_ok. eexists _, tt. split; [reflexivity|].
    apply SE_bind_ok. eexists _, tt. split; [exact E1|].
    apply SE_bind_ok. eexists _, tt. split; [reflexivity|].
    apply SE_bind_ok. eexists _, tt. split; [reflexivity|].
    apply SE_bind_ok. eexists _, _. split; [reflexivity|].
    apply rebuild_index_spec. split; [|split; [|reflexivity]].
    + cbn [trees with_trees with_index]. by rewrite (SliceStable_perm nt_Name (trees t1)).
    + intros e _. apply lookup_empty.
  - exact Hf.
  - rewrite <- Em. unfold stores. cbn [trees with_trees with_index]. symmetry.
    apply to_map_perm; [done|]. symmetry. apply SliceStable_perm.
Qed.

(** ** Several change sets *)

Definition apply_named (m : gmap bytes (Tree C)) (cs : NamedChangeSet) : gmap bytes (Tree C) :=
  alter (fun tree => Tree.ApplyChangeSet tree (ncs_Changeset cs)) (ncs_Name cs) m.

Lemma ApplyChangeSets_ok css t :
  mt_ok t -> Forall (fun cs => is_Some (stores t !! ncs_Name cs)) css ->
  exists t', ApplyChangeSets css t = (t', Ok tt) /\ mt_ok t' /\
    Version t' = Version t /\ initialVersion t' = initialVersion t /\
    stores t' = foldl apply_named (stores t) css.
Proof.
  unfold ApplyChangeSets. revert t. induction css as [|cs css IH]; intros t Ht Hf; [by exists t|].
  apply Forall_cons in Hf as [[tree Hs] Hf].
  pose proof (ApplyChangeSet_stores t (ncs_Name cs) (ncs_Changeset cs) Ht) as Hc. rewrite Hs in Hc.
  destruct Hc as (t1 & E1 & Ht1 & Hv1 & Hi1 & Em1).
  destruct (IH t1 Ht1) as (t' & E' & Ht' & Hv' & Hi' & Em').
  { apply (Forall_impl _ _ _ Hf). intros cs' Hcs. rewrite Em1. by apply lookup_alter_is_Some. }
  exists t'. split; [apply for_each_cons_ok; eauto|]. split; [done|]. split; [congruence|]. split; [congruence|].
  rewrite Em'. cbn [foldl]. by rewrite Em1.
Qed.

Lemma ApplyChangeSets_inv css t t' :
  mt_ok t -> ApplyChangeSets css t = (t', Ok tt) ->
  mt_ok t' /\ Version t' = Version t /\ initialVersion t' = initialVersion t.
Proof.
  intros Ht E. revert E. unfold ApplyChangeSets.
  apply (for_each_invariant (fun s => mt_ok s /\ Version s = Version t /\ initialVersion s = initialVersion t));
    [|done].
  intros cs s s' _ (Hs & Hv & Hi) E. pose proof (ApplyChangeSet_stores s (ncs_Name cs) (ncs_Changeset cs) Hs) as Hc.
  destruct (stores s !! ncs_Name cs); [|rewrite Hc in E; done].
  destruct Hc as (t1 & E1 & Ht1 & Hv1 & Hi1 & _). rewrite E1 in E. injection E as <-.
  split; [done|]. split; congruence.
Qed.
End inv.
