(* ===== verification/MultiTreeSim.v ===== *)
(** * Replay of the log

    Two multi-trees that differ in their caches, snapshots and cached commit infos behave
    the same: every operation of the live run is simulated by the replay of the entries
    read back from the log.  So a multi-tree loaded from an old snapshot catches up with
    the state the log was written from, down to the hashes. *)

From Stdlib Require Import Strings.Byte ZArith Lia.
From stdpp Require Import base list numbers strings gmap.
From S2P Require Import Prelude Binary Proto ProtoInv ProtoCodec State Node Snapshot SnapshotWriter Cache Tree Wal.
From S2P Require Import MultiTree MultiTreeInv.
Local Open Scope Z_scope.

(** ** Simulation of computations *)

Section simulation.
Context {St : Type} (R : St -> St -> Prop).

(** When the first succeeds, so does the second, with related states and results. *)
Definition simulates {A B} (Q : A -> B -> Prop) (m1 : SE St A) (m2 : SE St B) : Prop :=
  forall s1 s2 s1' a, R s1 s2 -> m1 s1 = (s1', Ok a) ->
  exists s2' b, m2 s2 = (s2', Ok b) /\ R s1' s2' /\ Q a b.

Lemma sim_bind {A B A' B'} (Q : A -> B -> Prop) (Q' : A' -> B' -> Prop) m1 m2 f g :
  simulates Q m1 m2 -> (forall a b, Q a b -> simulates Q' (f a) (g b)) ->
  simulates Q' (m1 ≫= f) (m2 ≫= g).
Proof.
  intros Hm Hf s1 s2 s1' a HR E. apply SE_bind_ok in E as (s & a0 & E1 & E2).
  destruct (Hm _ _ _ _ HR E1) as (t & b0 & F1 & HR' & HQ).
  destruct (Hf a0 b0 HQ _ _ _ _ HR' E2) as (t' & b & F2 & HR'' & HQ').
  exists t', b. split; [|done]. apply SE_bind_ok. eauto.
Qed.

Lemma sim_modify f g : (forall s1 s2, R s1 s2 -> R (f s1) (g s2)) -> simulates eq (modify f) (modify g).
Proof. intros Hf s1 s2 s1' a HR [= <- <-]. eexists _, tt. split; [reflexivity|]. auto. Qed.

Lemma sim_gets {A B} (Q : A -> B -> Prop) f g :
  (forall s1 s2, R s1 s2 -> Q (f s1) (g s2)) -> simulates Q (gets f) (gets g).
Proof. intros Hf s1 s2 s1' a HR [= <- <-]. eexists _, _. split; [reflexivity|]. auto. Qed.

Lemma sim_ret {A B} (Q : A -> B -> Prop) a b : Q a b -> simulates Q (mret a) (mret b).
Proof. intros HQ s1 s2 s1' x HR [= <- <-]. eexists _, _. split; [reflexivity|]. auto. Qed.

Lemma sim_throw {A B} (Q : A -> B -> Prop) e m : simulates Q (throw e : SE St A) m.
Proof. by intros s1 s2 s1' x HR [=]. Qed.

Lemma sim_lift {A} (r : res A) : simulates eq (lift r) (lift r).
Proof. intros s1 s2 s1' a HR [= <- ->]. eexists _, _. split; [reflexivity|]. auto. Qed.

Lemma sim_for_each {A B} (P : A -> B -> Prop) f g l1 l2 :
  (forall a b, P a b -> simulates eq (f a) (g b)) -> Forall2 P l1 l2 ->
  simulates eq (for_each f l1) (for_each g l2).
Proof.
  intros Hf. induction 1 as [|a b l1 l2 HP Hl IH]; [by apply sim_ret|].
  eapply sim_bind; [by apply Hf|]. by intros _ _ _.
Qed.
End simulation.

Section sim.
Context `{CacheOps C}.
Implicit Types (t : MultiTree C) (e : NamedTree C) (l : list (NamedTree C)).

(** ** States that agree on the data *)

Definition same_tree (a b : Tree C) : Prop := version a = version b /\ root a = root b.
Definition same_entry (e1 e2 : NamedTree C) : Prop :=
  nt_Name e1 = nt_Name e2 /\ same_tree (nt_Tree e1) (nt_Tree e2).

Record mt_sim t1 t2 : Prop := {
  sim_init : initialVersion t1 = initialVersion t2;
  sim_version : Version t1 = Version t2;
  sim_index : treesByName t1 = treesByName t2;
  sim_trees : Forall2 same_entry (trees t1) (trees t2)
}.

#[export] Instance same_tree_equiv : Equivalence same_tree.
Proof. split; [by intros ?|by intros ?? [??]|intros ??? [??] [??]; split; congruence]. Qed.
#[export] Instance same_entry_equiv : Equivalence same_entry.
Proof.
  split.
  - intros e. split; reflexivity.
  - intros e1 e2 [Hn Ht]. split; [done|by symmetry].
  - intros e1 e2 e3 [Hn Ht] [Hn' Ht']. split; [congruence|by etrans].
Qed.
#[export] Instance mt_sim_equiv : Equivalence mt_sim.
Proof.
  split.
  - intros t. by split.
  - intros t1 t2 [Hi Hv Hx Ht]. split; [done..|by symmetry].
  - intros t1 t2 t3 [Hi Hv Hx Ht] [Hi' Hv' Hx' Ht']. split; [congruence..|by etrans].
Qed.

Lemma same_tree_pair a b p : same_tree a b -> same_tree (apply_pair a p) (apply_pair b (norm_pair p)).
Proof.
  intros [Hv Hr]. unfold apply_pair. cbn [norm_pair kv_Delete kv_Key kv_Value]. destruct (kv_Delete p).
  - unfold remove. rewrite Hv, Hr. by destruct (removeRoot _ _ _) as [[??]?].
  - unfold set. assert (default [] (norm_value (kv_Value p)) = default [] (kv_Value p)) as ->
      by (by destruct (kv_Value p) as [[|]|]).
    rewrite Hv, Hr. by destruct (setRoot _ _ _ _).
Qed.

Lemma same_tree_changes a b cs :
  same_tree a b -> same_tree (Tree.ApplyChangeSet a cs) (Tree.ApplyChangeSet b (norm_changeset cs)).
Proof.
  unfold Tree.ApplyChangeSet, norm_changeset. cbn [Pairs]. revert a b.
  induction (Pairs cs) as [|p ps IH]; intros a b Hs; [done|]. cbn [foldl map].
  by apply IH, same_tree_pair.
Qed.

(** ** Lists of entries *)

Lemma same_names l1 l2 : Forall2 same_entry l1 l2 -> map nt_Name l1 = map nt_Name l2.
Proof. induction 1 as [|e1 e2 l1 l2 [Hn _] _ IH]; [done|]. cbn [map]. congruence. Qed.

Lemma IndexName_same l1 l2 name : Forall2 same_entry l1 l2 -> IndexName l1 name = IndexName l2 name.
Proof.
  unfold IndexName. induction 1 as [|e1 e2 l1 l2 [Hn _] _ IH]; [done|]. cbn [list_find].
  rewrite <- Hn. case_decide; [done|].
  destruct (list_find _ l1) as [[??]|], (list_find _ l2) as [[??]|]; simpl in *; congruence.
Qed.

Lemma swap_delete_same i l1 l2 :
  Forall2 same_entry l1 l2 -> Forall2 same_entry (swap_delete i l1) (swap_delete i l2).
Proof.
  intros Hl. unfold swap_delete. rewrite <- (Forall2_length _ _ _ Hl), !last_lookup.
  rewrite <- (Forall2_length _ _ _ Hl).
  pose proof (proj1 (Forall2_lookup _ _ _) Hl) as Hk.
  destruct (Hk i) as [x1 x2 Hx|]; [|done].
  destruct (Hk (pred (length l1))) as [y1 y2 Hy|]; [|done].
  by apply Forall2_take, Forall2_insert; [apply Forall2_insert|].
Qed.

Lemma insert_by_same e1 e2 l1 l2 :
  same_entry e1 e2 -> Forall2 same_entry l1 l2 ->
  Forall2 same_entry (insert_by nt_Name e1 l1) (insert_by nt_Name e2 l2).
Proof.
  intros He. induction 1 as [|x1 x2 l1 l2 Hx Hl IH]; cbn [insert_by]; [by apply Forall2_cons|].
  pose proof He as [Hn _]. pose proof Hx as [Hn' _]. rewrite <- Hn, <- Hn'.
  destruct (ltb _ _); repeat (apply Forall2_cons; split); done.
Qed.

Lemma SliceStable_same l1 l2 :
  Forall2 same_entry l1 l2 -> Forall2 same_entry (SliceStable nt_Name l1) (SliceStable nt_Name l2).
Proof. induction 1; [constructor|]. by apply insert_by_same. Qed.

Lemma same_with_trees t1 t2 l1 l2 :
  mt_sim t1 t2 -> Forall2 same_entry l1 l2 -> mt_sim (with_trees t1 l1) (with_trees t2 l2).
Proof. intros [Hi Hv Hx _] Hl. by split. Qed.
Lemma same_with_index t1 t2 m : mt_sim t1 t2 -> mt_sim (with_index t1 m) (with_index t2 m).
Proof. intros [Hi Hv Hx Ht]. by split. Qed.
Lemma same_with_commit t1 t2 c1 c2 :
  mt_sim t1 t2 -> ci_Version c1 = ci_Version c2 -> mt_sim (with_commit t1 c1) (with_commit t2 c2).
Proof. intros [Hi Hv Hx Ht] Hc. by split. Qed.

(** ** Operations *)

#[local] Abbreviation sims := (simulates mt_sim eq).

Lemma upgrade_tree_sim u : sims (upgrade_tree u) (upgrade_tree u).
Proof.
  assert (Hg : simulates mt_sim (Forall2 same_entry) (gets trees) (gets trees)).
  { apply sim_gets. apply sim_trees. }
  unfold upgrade_tree. destruct (up_Delete u); [|destruct (negb _)].
  - eapply sim_bind; [exact Hg|]. intros l1 l2 Hl. rewrite (IndexName_same _ _ _ Hl).
    destruct (IndexName l2 _); [|apply sim_throw]. apply sim_modify. intros t1 t2 Hs.
    apply same_with_trees; [done|]. by apply swap_delete_same, sim_trees.
  - eapply sim_bind; [exact Hg|]. intros l1 l2 Hl. rewrite (IndexName_same _ _ _ Hl).
    destruct (IndexName l2 _); [|apply sim_throw]. apply sim_modify. intros t1 t2 Hs.
    apply same_with_trees; [done|]. apply Forall2_alter; [by apply sim_trees|].
    intros e1 e2 _ _ [_ Ht]. by split.
  - apply sim_modify. intros t1 t2 Hs. apply same_with_trees; [done|].
    apply Forall2_app; [by apply sim_trees|]. apply Forall2_cons. split; [|done]. split; [done|].
    cbn [nt_Tree]. rewrite (sim_version _ _ Hs), (sim_init _ _ Hs). unfold NewWithInitialVersion, New, NewEmptyTree.
    by destruct (_ <=? 1).
Qed.

Lemma rebuild_index_sim i l1 l2 : Forall2 same_entry l1 l2 -> sims (rebuild_index i l1) (rebuild_index i l2).
Proof.
  intros Hl. revert i. induction Hl as [|e1 e2 l1 l2 [Hn _] _ IH]; intros i; cbn [rebuild_index]; [by apply sim_ret|].
  eapply sim_bind; [apply (sim_gets _ eq); apply sim_index|]. intros m ? <-. rewrite Hn.
  destruct (m !! nt_Name e2); [apply sim_throw|].
  eapply sim_bind; [|intros _ _ _; apply IH]. apply sim_modify. intros t1 t2 Hs.
  rewrite (sim_index _ _ Hs). by apply same_with_index.
Qed.

Lemma ApplyUpgrades_sim us : sims (ApplyUpgrades us) (ApplyUpgrades us).
Proof.
  unfold ApplyUpgrades. destruct (_ =? 0); [by apply sim_ret|].
  eapply sim_bind; [apply sim_modify; intros; by apply same_with_index|intros _ _ _].
  eapply sim_bind; [|intros _ _ _].
  { apply (sim_for_each _ eq); [intros ? u <-; apply upgrade_tree_sim|].
    clear. induction us; by constructor. }
  eapply sim_bind; [|intros _ _ _].
  { apply sim_modify. intros t1 t2 Hs. apply same_with_trees; [done|]. by apply SliceStable_same, sim_trees. }
  eapply sim_bind; [apply sim_modify; intros; by apply same_with_index|intros _ _ _].
  eapply sim_bind; [apply (sim_gets _ (Forall2 same_entry)); apply sim_trees|].
  intros l1 l2 Hl. by apply rebuild_index_sim.
Qed.

Lemma ApplyChangeSet_sim name cs : sims (ApplyChangeSet name cs) (ApplyChangeSet name (norm_changeset cs)).
Proof.
  unfold ApplyChangeSet. eapply sim_bind; [apply (sim_gets _ eq); apply sim_index|]. intros m ? <-.
  destruct (m !! name) as [i|]; [|apply sim_throw].
  eapply sim_bind; [apply (sim_gets _ (Forall2 same_entry)); apply sim_trees|]. intros l1 l2 Hl.
  eapply (sim_bind _ (fun _ _ => True)).
  { intros t1 t2 t1' e Hs [= <- E]. destruct (l1 !! i) as [e1|] eqn:E1; [|done].
    destruct (Forall2_lookup_l _ _ _ _ _ Hl E1) as (e2 & E2 & _). unfold lift. rewrite E2. by eexists _, _. }
  intros _ _ _. apply sim_modify. intros t1 t2 Hs. apply same_with_trees; [done|].
  apply Forall2_alter; [by apply sim_trees|]. intros e1 e2 _ _ [Hn Ht]. split; [done|].
  by apply same_tree_changes.
Qed.

Lemma applyWALEntry_sim entry : sims (applyWALEntry entry) (applyWALEntry (norm_entry entry)).
Proof.
  unfold applyWALEntry. eapply sim_bind; [apply ApplyUpgrades_sim|]. intros _ _ _.
  unfold ApplyChangeSets, norm_entry. cbn [Changesets].
  apply (sim_for_each _ (fun a b => b = norm_named a)); [intros a b ->; apply ApplyChangeSet_sim|].
  clear. induction (Changesets entry); by constructor.
Qed.

Lemma save_tree_sim u1 u2 i : sims (save_tree u1 i) (save_tree u2 i).
Proof.
  intros t1 t2 t1' [] Hs E. unfold save_tree in *.
  pose proof (proj1 (Forall2_lookup _ _ _) (sim_trees _ _ Hs) i) as Hi.
  destruct Hi as [e1 e2 [Hn [Hv Hr]]|]; [|injection E as <-; by eexists _, _].
  unfold Tree.SaveVersion in *. rewrite <- Hv. destruct (MaxInt64 <? _); [done|]. injection E as <-.
  eexists _, _. split; [reflexivity|]. split; [|done]. apply same_with_trees; [done|].
  apply Forall2_insert; [by apply sim_trees|]. split; [done|]. by split.
Qed.

(** The commit info is up to date. *)
Definition committed t : Prop := buildCommitInfo t (Version t) = Ok (lastCommitInfo t).

Lemma UpdateCommitInfo_committed t t' : UpdateCommitInfo t = (t', Ok tt) -> committed t' /\ mt_sim t t'.
Proof.
  unfold UpdateCommitInfo. destruct (buildCommitInfo t (Version t)) as [info|e|] eqn:E; [|done|done].
  intros [= <-]. assert (Hv : ci_Version info = Version t).
  { unfold buildCommitInfo in E. apply res_bind_ok in E as (l & _ & [= <-]). done. }
  split; [|by split]. unfold committed, Version in *. cbn [lastCommitInfo with_commit]. by rewrite Hv.
Qed.

Lemma store_infos_same l1 l2 : Forall2 same_entry l1 l2 -> store_infos l1 = store_infos l2.
Proof.
  induction 1 as [|e1 e2 l1 l2 [Hn [Hv Hr]] _ IH]; [done|]. cbn [store_infos].
  unfold Tree.Version, RootHash. by rewrite IH, Hn, Hv, Hr.
Qed.

Lemma committed_same t1 t2 :
  mt_sim t1 t2 -> committed t1 -> UpdateCommitInfo t2 = (with_commit t2 (lastCommitInfo t1), Ok tt).
Proof.
  intros Hs Hc. unfold UpdateCommitInfo, committed, buildCommitInfo in *.
  by rewrite <- (store_infos_same _ _ (sim_trees _ _ Hs)), <- (sim_version _ _ Hs), Hc.
Qed.

Lemma SaveVersion_sim : sims (SaveVersion true) (SaveVersion false).
Proof.
  unfold SaveVersion. eapply sim_bind; [|intros _ _ _].
  { apply sim_modify. intros t1 t2 Hs. apply same_with_commit; [done|]. cbn [ci_Version].
    by rewrite (sim_version _ _ Hs), (sim_init _ _ Hs). }
  eapply sim_bind.
  { apply (sim_gets _ eq). intros t1 t2 Hs. by eapply Forall2_length, sim_trees. }
  intros n ? <-. eapply sim_bind; [|intros _ _ _].
  { apply (sim_for_each _ eq); [intros i ? <-; apply save_tree_sim|].
    clear. induction (seq 0 n); by constructor. }
  eapply (sim_bind _ eq); [|intros _ _ _; apply sim_gets; apply sim_version].
  intros t1 t2 t1' [] Hs E. apply UpdateCommitInfo_committed in E as [_ Hs']. eexists _, tt.
  split; [reflexivity|]. split; [|done].
  etrans; [symmetry; exact Hs'|]. etrans; [exact Hs|]. by split.
Qed.

Lemma SaveVersion_committed t t' v : SaveVersion true t = (t', Ok v) -> committed t' /\ v = Version t'.
Proof.
  unfold SaveVersion. intros E. apply SE_bind_ok in E as (t1 & [] & _ & E).
  apply SE_bind_ok in E as (t2 & n & _ & E). apply SE_bind_ok in E as (t3 & [] & _ & E).
  apply SE_bind_ok in E as (t4 & [] & E4 & E). injection E as <- <-.
  by apply UpdateCommitInfo_committed in E4 as [Hc _].
Qed.

(** ** Blocks *)

(** A block: the upgrades and change sets of a version, then the version is saved. *)
Definition commit_block (b : WALEntry) : SE (MultiTree C) unit :=
  applyWALEntry b ;; SaveVersion true ;; mret tt.
Definition run_blocks (bs : list WALEntry) : SE (MultiTree C) unit := for_each commit_block bs.

Lemma commit_block_committed b t t' : commit_block b t = (t', Ok tt) -> committed t'.
Proof.
  unfold commit_block. intros E. apply SE_bind_ok in E as (t1 & [] & _ & E).
  apply SE_bind_ok in E as (t2 & v & E2 & [= <-]). by apply SaveVersion_committed in E2 as [Hc _].
Qed.

Lemma run_blocks_committed bs t t' :
  bs <> [] -> run_blocks bs t = (t', Ok tt) -> committed t'.
Proof.
  revert t. induction bs as [|b bs IH]; intros t Hne E; [done|].
  apply for_each_cons_ok in E as (t1 & E1 & E2). destruct bs as [|b' bs]; [|by eapply IH].
  injection E2 as <-. by eapply commit_block_committed.
Qed.

Lemma run_blocks_snoc bs b t t' :
  run_blocks (bs ++ [b]) t = (t', Ok tt) <->
  exists t1, run_blocks bs t = (t1, Ok tt) /\ commit_block b t1 = (t', Ok tt).
Proof.
  revert t. induction bs as [|b0 bs IH]; intros t; cbn [app run_blocks].
  - unfold run_blocks. rewrite for_each_cons_ok. split.
    + intros (t1 & E & [= <-]). by exists t.
    + intros (t1 & [= <-] & E). by exists t'.
  - unfold run_blocks in *. rewrite for_each_cons_ok. setoid_rewrite for_each_cons_ok. setoid_rewrite IH.
    split; [intros (t1 & E1 & t2 & E2 & E3)|intros (t2 & (t1 & E1 & E2) & E3)]; eauto 6.
Qed.

(** The invariant along blocks, with the number of versions saved. *)
Lemma commit_block_ok b t t' :
  mt_ok t -> Version t < MaxInt64 -> commit_block b t = (t', Ok tt) ->
  mt_ok t' /\ initialVersion t' = initialVersion t /\ Version t' = nextVersion (Version t) (initialVersion t).
Proof.
  intros Ht Hl E. unfold commit_block, applyWALEntry in E. apply SE_bind_ok in E as (t2 & [] & E1 & E).
  apply SE_bind_ok in E1 as (t1 & [] & E0 & E1).
  apply ApplyUpgrades_ok in E0 as (Ht1 & Hi1 & Hc1 & _); [|done|done].
  assert (Hv1 : Version t1 = Version t) by (unfold Version; by rewrite Hc1).
  apply ApplyChangeSets_inv in E1 as (Ht2 & Hv2 & Hi2); [|done].
  apply SE_bind_ok in E as (t3 & v & E3 & [= <-]). rewrite SaveVersion_state in E3 by (done || congruence).
  injection E3 as <- <-. split; [apply saved_state_ok; [done|congruence]|].
  cbn [initialVersion saved_state with_commit with_trees]. unfold Version at 1.
  cbn [lastCommitInfo saved_state with_commit saved_info ci_Version]. split; congruence.
Qed.

Lemma run_blocks_ok bs t t' :
  mt_ok t -> tree_version (Version t) (initialVersion t) + zlen bs <= MaxInt64 ->
  run_blocks bs t = (t', Ok tt) ->
  mt_ok t' /\ initialVersion t' = initialVersion t /\
  saved (Version t') (initialVersion t) = saved (Version t) (initialVersion t) + zlen bs /\
  (bs <> [] -> Version t' = tree_version (Version t) (initialVersion t) + zlen bs).
Proof.
  revert t. induction bs as [|b bs IH]; intros t Ht Hl E.
  { injection E as <-. split; [done|]. split; [done|]. change (zlen []) with 0. split; [lia|done]. }
  apply for_each_cons_ok in E as (t1 & E1 & E2). rewrite zlen_cons in *. pose proof (zlen_nonneg bs).
  assert (Hlt : Version t < MaxInt64).
  { pose proof (mo_version t Ht) as (? & ? & ?). unfold tree_version in Hl.
    destruct (Z.eqb_spec (Version t) 0); [unfold MaxInt64; lia|]. simpl in Hl. lia. }
  pose proof (tree_version_next _ _ (mo_version t Ht) Hlt) as (Hb & Hn & Hn').
  pose proof (nextVersion_spec _ _ (mo_version t Ht) Hlt) as (_ & _ & _ & Hsv).
  apply commit_block_ok in E1 as (Ht1 & Hi1 & Hv1); [|done|done].
  destruct (IH t1 Ht1) as (Ht' & Hi' & Hs' & Hv'); [rewrite Hv1, Hi1, Hn'; lia|done|].
  rewrite Hi1, Hv1 in Hs', Hv'. split; [done|]. split; [congruence|]. split; [lia|]. intros _.
  destruct bs as [|b' bs]; [|rewrite Hv' by done; rewrite Hn'; lia].
  injection E2 as <-. rewrite Hv1. change (zlen []) with 0. lia.
Qed.

(** ** Catching up *)

Section catchup.
Context `{WalLaws L}.
Implicit Type log : L.

(** The log holds the blocks from index [i] on. *)
Definition logged log (i : Z) (bs : list WALEntry) : Prop := forall k b,
  bs !! k = Some b ->
  wv_read (view log) (i + Z.of_nat k) = Some (WALEntry_bytes b) /\ zlen (WALEntry_bytes b) < 2 ^ 63.

Lemma logged_cons log i b bs : logged log i (b :: bs) -> logged log (i + 1) bs.
Proof.
  intros Hl k b' Hk. specialize (Hl (S k) b' Hk). by replace (i + 1 + Z.of_nat k) with (i + Z.of_nat (S k)) by lia.
Qed.

Lemma replay_sim log bs i t1 t2 t1' :
  mt_sim t1 t2 -> logged log i bs -> run_blocks bs t1 = (t1', Ok tt) ->
  exists t2', replay log i (length bs) t2 = (t2', Ok tt) /\ mt_sim t1' t2'.
Proof.
  revert i t1 t2. induction bs as [|b bs IH]; intros i t1 t2 Hs Hl E.
  { injection E as <-. by exists t2. }
  apply for_each_cons_ok in E as (t & E1 & E2). unfold commit_block in E1.
  apply SE_bind_ok in E1 as (ta & [] & Ea & E1). apply SE_bind_ok in E1 as (tb & v & Eb & [= <-]).
  destruct (Hl O b eq_refl) as [Hr Hz]. rewrite Z.add_0_r in Hr.
  destruct (applyWALEntry_sim b _ _ _ _ Hs Ea) as (ua & [] & Fa & Ha & _).
  destruct (SaveVersion_sim _ _ _ _ Ha Eb) as (ub & w & Fb & Hb & _).
  destruct (IH (i + 1) tb ub Hb) as (t2' & F & Hs'); [by eapply logged_cons|done|].
  exists t2'. split; [|done]. cbn [length replay].
  apply SE_bind_ok. eexists _, _. split; [unfold lift; by rewrite wal_Read_view, Hr|].
  apply SE_bind_ok. eexists _, _. split; [unfold lift; by rewrite WALEntry_reads|].
  apply SE_bind_ok. eexists _, _. split; [exact Fa|].
  apply SE_bind_ok. eexists _, _. split; [exact Fb|exact F].
Qed.

(** What the final [UpdateCommitInfo] makes of the replayed state. *)
Lemma replayed_commit t1 t2 :
  mt_sim t1 t2 -> committed t1 ->
  exists t2', UpdateCommitInfo t2 = (t2', Ok tt) /\ mt_sim t1 t2' /\ lastCommitInfo t2' = lastCommitInfo t1.
Proof.
  intros Hs Hc. rewrite (committed_same t1 t2 Hs Hc). eexists. split; [done|]. split; [|done].
  destruct Hs as [Hi Hv Hx Ht]. by split.
Qed.

(** Catching up with [n] of the logged blocks, [n] the number the target asks for. *)
Lemma CatchupWAL_sim log bs t1 t2 t1' endVersion n :
  mt_ok t1 -> Version t1 < MaxInt64 -> mt_sim t1 t2 -> lastCommitInfo t1 = lastCommitInfo t2 ->
  saved (Version t1) (initialVersion t1) + zlen bs <= wv_last (view log) ->
  (endVersion = 0 /\ n = wv_last (view log) - saved (Version t1) (initialVersion t1) \/
   endVersion <> 0 /\ bs <> [] /\ walIndex endVersion (initialVersion t1) = saved (Version t1) (initialVersion t1) + n) ->
  n = zlen bs -> logged log (saved (Version t1) (initialVersion t1) + 1) bs ->
  run_blocks bs t1 = (t1', Ok tt) ->
  exists t2', CatchupWAL log endVersion t2 = (t2', Ok tt) /\ mt_sim t1' t2' /\ lastCommitInfo t2' = lastCommitInfo t1'.
Proof.
  intros Ht Hlt Hs Hc Hlast Hend Hn Hlog E. unfold CatchupWAL.
  set (i := saved (Version t1) (initialVersion t1)) in *.
  assert (Hfirst : walIndex (nextVersion (Version t2) (initialVersion t2)) (initialVersion t2) = i + 1).
  { rewrite <- (sim_version _ _ Hs), <- (sim_init _ _ Hs). apply walIndex_next; [apply (mo_version t1 Ht)|done]. }
  unfold gets, lift, mbind, SE_bind at 1. rewrite wal_LastIndex_view. unfold SE_bind at 1. rewrite Hfirst.
  destruct bs as [|b bs].
  { change (zlen []) with 0 in *. rewrite (proj2 (Z.ltb_lt _ _)) by (destruct Hend as [[_ ?]|(_ & ? & _)]; [lia|done]).
    injection E as <-. by exists t2. }
  pose proof (zlen_nonneg bs). set (bs' := b :: bs) in *.
  assert (Hpos : 0 < zlen bs') by (subst bs'; rewrite zlen_cons; lia).
  rewrite (proj2 (Z.ltb_ge _ _)) by lia. unfold SE_bind at 1.
  assert (Hidx : (if endVersion =? 0 then wv_last (view log) else walIndex endVersion (initialVersion t2)) = i + n).
  { rewrite <- (sim_init _ _ Hs). destruct Hend as [[-> ->]|(Hz & _ & Hw)]; [simpl; lia|].
    by rewrite (proj2 (Z.eqb_neq _ _)). }
  rewrite Hidx, (proj2 (Z.ltb_ge (i + n) _)) by lia. rewrite (proj2 (Z.ltb_ge (wv_last _) _)) by lia.
  replace (Z.to_nat (i + n - (i + 1) + 1)) with (length bs') by (unfold zlen in Hn; lia).
  destruct (replay_sim log bs' (i + 1) t1 t2 t1' Hs Hlog E) as (t & F & Hs').
  destruct (replayed_commit t1' t Hs') as (t2' & F' & Hs'' & Hc'); [eapply run_blocks_committed; [|exact E]; by subst bs'|].
  exists t2'. split; [|done]. unfold SE_bind. by rewrite F.
Qed.
End catchup.
End sim.
