(* ===== verification/MultiTreeSnapshot.v ===== *)
(** * Snapshots of a multi-tree

    Writing a multi-tree to a directory and loading it gives the same stores, versions,
    hashes and commit info; the order in which the worker pool writes the stores does not
    matter.  With the replay of the log this is recovery: a snapshot and the entries
    logged since give the live state. *)

From Stdlib Require Import Strings.Byte ZArith Lia.
From stdpp Require Import base list numbers strings gmap.
From S2P Require Import Prelude Binary Proto ProtoInv ProtoCodec State Node Snapshot SnapshotWriter Cache Tree Wal.
From S2P Require Import MultiTree MultiTreeInv MultiTreeSim.
Local Open Scope Z_scope.

Section snapshots.
Context `{CacheLaws C}.
Implicit Types (t : MultiTree C) (e : NamedTree C) (l : list (NamedTree C)) (dir : MDir).

(** ** Writing the stores *)

(** The tree fits the snapshot format. *)
Definition writable e : Prop :=
  snapshottable_root (root (nt_Tree e)) /\ 0 <= version (nt_Tree e) < 2 ^ 64.

(** The folder of a store holds its tree. *)
Definition folder_of (f : fentry) e : Prop :=
  exists d s, f = Folder d /\ OpenSnapshot d = Ok s /\ snap_version s = version (nt_Tree e) /\
    snapshot_of s (root (nt_Tree e)).

Lemma write_store_opens ctx dir e :
  writable e -> (forall i, ctx (nt_Name e) i = None) -> (forall bz, dir !! nt_Name e <> Some (File bz)) ->
  exists f, write_store ctx dir e = Ok (<[nt_Name e := f]> dir) /\ folder_of f e.
Proof.
  intros [Hr Hv] Hc Hd. unfold write_store.
  destruct (WriteSnapshot_opens (nt_Tree e)
    match dir !! nt_Name e with Some (Folder d) => d | _ => ∅ end
    max_depth (ctx (nt_Name e)) Hr Hv Hc (le_n _)) as (d' & s & E1 & E2 & E3 & E4).
  exists (Folder d'). split; [|by exists d', s].
  destruct (dir !! nt_Name e) as [[bz|d]|]; [by destruct (Hd bz)| |]; cbn [mbind res_bind];
    rewrite E1; reflexivity.
Qed.

Lemma write_stores_opens ctx l dir :
  NoDup (map nt_Name l) -> Forall writable l -> (forall name i, ctx name i = None) ->
  (forall name bz, name ∈ map nt_Name l -> dir !! name <> Some (File bz)) ->
  exists dir', write_stores ctx dir l = Ok dir' /\
    (forall e, e ∈ l -> exists f, dir' !! nt_Name e = Some f /\ folder_of f e) /\
    (forall name, name ∉ map nt_Name l -> dir' !! name = dir !! name).
Proof.
  intros Hd Hw Hc. revert dir. induction l as [|e l IH]; intros dir Hf.
  { exists dir. split; [done|]. split; [|done]. by intros e ?%not_elem_of_nil. }
  cbn [map] in *. apply NoDup_cons in Hd as [Hx Hd]. apply Forall_cons in Hw as [He Hw].
  destruct (write_store_opens ctx dir e He) as (f & E & Ho); [by apply Hc|intros bz; apply Hf; by left|].
  destruct (IH Hd Hw (<[nt_Name e := f]> dir)) as (dir' & E' & Hin & Hout).
  { intros name bz Hn. rewrite lookup_insert_ne; [apply Hf; by right|]. by intros <-. }
  exists dir'. cbn [write_stores]. rewrite E. cbn [mbind res_bind]. split; [done|]. split.
  - intros e' [->|He']%elem_of_cons; [|by apply Hin]. exists f. split; [|done].
    by rewrite Hout, lookup_insert_eq.
  - intros name [Hne Hn]%not_elem_of_cons. rewrite Hout by done. by rewrite lookup_insert_ne.
Qed.

(** The stores may be written in any order. *)
Lemma write_store_comm ctx dir e1 e2 l :
  nt_Name e1 <> nt_Name e2 ->
  forall r, write_stores ctx dir (e1 :: e2 :: l) = Ok r -> write_stores ctx dir (e2 :: e1 :: l) = Ok r.
Proof.
  intros Hne r E. cbn [write_stores] in *. unfold write_store in *.
  apply res_bind_ok in E as (dir1 & E1 & E). apply res_bind_ok in E1 as (d1 & F1 & E1).
  apply res_bind_ok in E1 as (d1' & G1 & [= <-]).
  apply res_bind_ok in E as (dir2 & E2 & E). apply res_bind_ok in E2 as (d2 & F2 & E2).
  apply res_bind_ok in E2 as (d2' & G2 & [= <-]). rewrite lookup_insert_ne in F2 by done.
  rewrite F2. cbn [mbind res_bind]. rewrite G2. cbn [mbind res_bind].
  rewrite lookup_insert_ne by done. rewrite F1. cbn [mbind res_bind]. rewrite G1. cbn [mbind res_bind].
  by rewrite insert_insert_ne by done.
Qed.

Lemma write_stores_perm ctx l l' :
  l ≡ₚ l' -> NoDup (map nt_Name l) ->
  forall dir r, write_stores ctx dir l = Ok r -> write_stores ctx dir l' = Ok r.
Proof.
  induction 1 as [|e l l' Hp IH|e1 e2 l|l l1 l2 Hp1 IH1 Hp2 IH2]; intros Hd dir r E; [done|..].
  - cbn [map write_stores] in *. apply NoDup_cons in Hd as [_ Hd].
    apply res_bind_ok in E as (dir1 & -> & E). cbn [mbind res_bind]. by apply IH.
  - apply (write_store_comm ctx dir e2 e1 l); [|done]. cbn [map] in Hd.
    apply NoDup_cons in Hd as [Hx _]. apply not_elem_of_cons in Hx as [Hx _]. done.
  - apply IH2; [by rewrite <- Hp1|]. by apply IH1.
Qed.

(** ** Loading *)

Definition is_folder (p : bytes * fentry) : bool := match p.2 with Folder _ => true | File _ => false end.

Lemma load_trees_filter zc size es :
  load_trees (C := C) zc size es = load_trees zc size (List.filter is_folder es).
Proof.
  induction es as [|[name [bz|d]] es IH]; [done|exact IH|]. cbn [List.filter is_folder snd load_trees].
  by rewrite IH.
Qed.

Definition loads (p : bytes * fentry) e : Prop :=
  p.1 = nt_Name e /\ folder_of p.2 e /\ snapshottable_root (root (nt_Tree e)).

Lemma load_trees_same zc size es l :
  Forall2 loads es l -> exists l', load_trees (C := C) zc size es = Ok l' /\ Forall2 same_entry l l'.
Proof.
  induction 1 as [|[name f] e es l (Hn & Hf & Hr) Hl (l' & IH & Hs)]; [by exists []|].
  destruct Hf as (d & s & Ef & Eo & Ev & Es). simpl in Ef, Hn. subst f name.
  cbn [load_trees]. rewrite Eo. cbn [mbind res_bind].
  rewrite (NewFromSnapshot_of s (root (nt_Tree e)) zc size Es Hr). cbn [mbind res_bind].
  rewrite IH. cbn [mbind res_bind]. eexists. split; [reflexivity|]. constructor; [|done].
  split; [done|]. split; [|done]. by rewrite <- Ev.
Qed.

(** The folders of a directory in order, when they are those of sorted trees. *)
Lemma ReadDir_folders dir l :
  sorted_by nt_Name l ->
  (forall e, e ∈ l -> exists f, dir !! nt_Name e = Some f /\ loads (nt_Name e, f) e) ->
  (forall name d, dir !! name = Some (Folder d) -> name ∈ map nt_Name l) ->
  Forall2 loads (List.filter is_folder (ReadDir dir)) l.
Proof.
  intros Hs Hin Hout. set (F := List.filter is_folder (ReadDir dir)).
  assert (Hmem : forall p, p ∈ F <-> dir !! p.1 = Some p.2 /\ is_folder p = true).
  { intros p. unfold F, ReadDir. rewrite <- elem_of_map_to_list, <- surjective_pairing.
    rewrite list_elem_of_In, filter_In, <- list_elem_of_In, SliceStable_perm. done. }
  assert (Hsorted : sorted_by fst F).
  { assert (Hr : sorted_by fst (ReadDir dir)).
    { apply SliceStable_sorted. apply (NoDup_fst_map_to_list dir). }
    unfold F. revert Hr. clear. induction (ReadDir dir) as [|p es IH]; [done|].
    intros [Hlt Hr]%sorted_by_cons. cbn [List.filter]. destruct (is_folder p); [|by apply IH].
    apply sorted_by_cons. split; [|by apply IH]. intros y Hy. apply Hlt.
    rewrite list_elem_of_In, filter_In, <- list_elem_of_In in Hy. by destruct Hy. }
  assert (Hnames : map fst F = map nt_Name l).
  { apply (sorted_by_unique (fun x => x)); [unfold sorted_by; by rewrite map_id..|].
    apply NoDup_Permutation; [by apply sorted_by_NoDup|by apply sorted_by_NoDup|]. intros name. split.
    - intros (p & -> & Hp)%list_elem_of_fmap. apply Hmem in Hp as [Hp Hf].
      destruct p as [n [bz|d]]; [done|]. by eapply Hout.
    - intros (e & -> & He)%list_elem_of_fmap. destruct (Hin e He) as (f & Hf & Hl).
      apply list_elem_of_fmap. exists (nt_Name e, f). split; [done|]. apply Hmem. split; [done|].
      destruct Hl as (_ & (d & s & Ef & _) & _). simpl in Ef. by subst f. }
  apply Forall2_same_length_lookup. split.
  { by rewrite <- (length_map fst F), Hnames, length_map. }
  intros i p e Hp He. assert (En : p.1 = nt_Name e).
  { assert (Ei : (map fst F) !! i = (map nt_Name l) !! i) by (by rewrite Hnames).
    rewrite !list_lookup_fmap, Hp, He in Ei. by injection Ei. }
  destruct (Hin e) as (f & Hf & Hl); [by eapply list_elem_of_lookup_2|].
  assert (Hp' : p ∈ F) by (by eapply list_elem_of_lookup_2). apply Hmem in Hp' as [Hp' _].
  destruct p as [n f']. simpl in *. subst n. rewrite Hf in Hp'. injection Hp' as <-. exact Hl.
Qed.

(** ** The round trip *)

Definition mt_metadata t : MultiTreeMetadata :=
  {| md_CommitInfo := Some (lastCommitInfo t); md_InitialVersion := initialVersion t |}.

(** A multi-tree a snapshot can hold. *)
Record mt_writable t : Prop := {
  mw_ok : mt_ok t;
  mw_trees : Forall writable (trees t);
  mw_names : MetadataFileName ∉ map nt_Name (trees t);
  mw_commit : CommitInfo_ok (lastCommitInfo t);
  mw_size : zlen (MultiTreeMetadata_bytes (mt_metadata t)) < 2 ^ 63
}.

(** The commit info of a committed multi-tree is in range. *)
Lemma committed_ok t v :
  mt_ok t -> tree_version (Version t) (initialVersion t) = v -> 0 <= v <= MaxInt64 ->
  committed t -> CommitInfo_ok (lastCommitInfo t).
Proof.
  intros Ht Hv Hr Hc. pose proof (mo_version t Ht) as (_ & Hvr & _).
  unfold committed, buildCommitInfo in Hc. rewrite (store_infos_at _ v Hr) in Hc.
  - injection Hc as Hc. rewrite <- Hc. unfold MaxInt64 in *. split; [unfold int64; simpl; lia|].
    cbn [ci_StoreInfos]. apply Forall_map, Forall_true. intros e. unfold int64. simpl. lia.
  - apply (Forall_impl _ _ _ (mo_trees t Ht)). by intros e ->.
Qed.

Lemma index_ok_unique m1 m2 l1 l2 :
  index_ok (C := C) m1 l1 -> index_ok m2 l2 -> map nt_Name l1 = map nt_Name l2 -> m1 = m2.
Proof.
  intros H1 H2 Hn. apply map_eq. intros name. apply option_eq. intros i. rewrite (H1 name i), (H2 name i).
  assert (E : forall e l, l !! i = Some e -> (map (@nt_Name C) l) !! i = Some (nt_Name e)).
  { intros e l He. by rewrite list_lookup_fmap, He. }
  split; intros (e & He & <-); apply E in He; [rewrite Hn in He|rewrite <- Hn in He];
    rewrite list_lookup_fmap in He; apply fmap_Some in He as (e' & He' & En); eauto.
Qed.

(** Loading keeps the versions of the trees. *)
Lemma load_initialVersion t l :
  mt_ok t -> Forall2 same_entry (trees t) l ->
  Forall2 same_entry (trees t) (map (on_tree (fun tree => Tree.setInitialVersion tree (initialVersion t))) l) \/
  ~ 1 < initialVersion t.
Proof.
  intros Ht Hl. destruct (Z.lt_ge_cases 1 (initialVersion t)) as [Hi|Hi]; [left|right; lia].
  pose proof (mo_version t Ht) as (_ & Hv & Hd). pose proof (mo_trees t Ht) as Hvs.
  apply Forall2_fmap_r. apply Forall2_same_length_lookup. split; [by eapply Forall2_length|].
  intros i e1 e2 H1 H2. pose proof (Forall2_lookup_lr _ _ _ _ _ _ Hl H1 H2) as [Hn [Hev Her]].
  pose proof (proj1 (Forall_lookup _ _) Hvs i e1 H1) as Hv1. simpl in Hv1.
  assert (0 < version (nt_Tree e2)).
  { rewrite <- Hev, Hv1. unfold tree_version. destruct (Z.eqb_spec (Version t) 0); simpl;
      [rewrite (proj2 (Z.ltb_lt _ _)) by lia|]; lia. }
  split; [done|]. cbn [nt_Tree on_tree]. unfold Tree.setInitialVersion.
  rewrite (proj2 (Z.ltb_lt _ _)) by lia. by split.
Qed.

Lemma readMetadata_written dir t :
  mt_writable t -> dir !! MetadataFileName = Some (File (MultiTreeMetadata_bytes (mt_metadata t))) ->
  readMetadata dir = Ok (mt_metadata t).
Proof.
  intros Hw E. pose proof (mo_version t (mw_ok t Hw)) as (Hi & Hv & _). unfold MaxInt64 in *.
  unfold readMetadata. rewrite E. cbn [mbind res_bind].
  rewrite MultiTreeMetadata_reads; [|apply (mw_size t Hw)|].
  - cbn [mbind res_bind mt_metadata md_CommitInfo md_InitialVersion of_option]. fold (Version t).
    by rewrite !(proj2 (Z.ltb_ge _ _)) by lia.
  - split; [cbn [mt_metadata md_InitialVersion]; unfold int64; lia|]. intros c [= <-]. apply (mw_commit t Hw).
Qed.

(** What a snapshot that was written holds. *)
Lemma write_folders ctx t :
  mt_writable t -> (forall name i, ctx name i = None) ->
  exists dir, WriteSnapshotWithContext ctx ∅ t = Ok dir /\ readMetadata dir = Ok (mt_metadata t) /\
    Forall2 loads (List.filter is_folder (ReadDir dir)) (trees t).
Proof.
  intros Hw Hc. pose proof (mw_ok t Hw) as Ht. pose proof (mo_version t Ht) as (Hi & Hv & _). unfold MaxInt64 in *.
  destruct (write_stores_opens ctx (trees t) ∅) as (dir & E & Hin & Hout);
    [by apply mo_names|apply (mw_trees t Hw)|done|by intros; rewrite lookup_empty|].
  set (bz := MultiTreeMetadata_bytes (mt_metadata t)).
  exists (<[MetadataFileName := File bz]> dir). unfold WriteSnapshotWithContext. rewrite E. cbn [mbind res_bind].
  rewrite i64_small by lia. fold (mt_metadata t).
  rewrite MultiTreeMetadata_Marshal_bytes by (pose proof (mw_size t Hw); lia). cbn [mbind res_bind].
  unfold WriteFileSync. rewrite Hout, lookup_empty by apply (mw_names t Hw).
  set (dir' := <[MetadataFileName := File bz]> dir). split; [done|].
  split; [apply (readMetadata_written dir' t Hw); subst dir'; by rewrite lookup_insert_eq|].
  apply ReadDir_folders; [apply (mo_sorted t Ht)| |].
  - intros e He. destruct (Hin e He) as (f & Hf & Ho). exists f. subst dir'.
    rewrite lookup_insert_ne; [|intros Hx; apply (mw_names t Hw); rewrite Hx; by apply list_elem_of_fmap_2].
    split; [done|]. split; [done|]. split; [done|].
    by apply (proj1 (Forall_forall _ _) (mw_trees t Hw)).
  - intros name d Hd. destruct (decide (name ∈ map nt_Name (trees t))) as [|Hn]; [done|]. exfalso.
    subst dir'. destruct (decide (MetadataFileName = name)) as [<-|];
      [by rewrite lookup_insert_eq in Hd|]. rewrite lookup_insert_ne, Hout, lookup_empty in Hd by done. done.
Qed.

Lemma write_load ctx t zc size :
  mt_writable t -> (forall name i, ctx name i = None) ->
  exists dir t', WriteSnapshotWithContext ctx ∅ t = Ok dir /\ LoadMultiTree dir zc size = Ok t' /\
    mt_sim t t' /\ lastCommitInfo t' = lastCommitInfo t /\ SnapshotVersion t' = Ok (Version t).
Proof.
  intros Hw Hc. pose proof (mw_ok t Hw) as Ht. pose proof (mo_version t Ht) as (Hi & Hv & _). unfold MaxInt64 in *.
  destruct (write_folders ctx t Hw Hc) as (dir & E & Em & Hf).
  destruct (load_trees_same zc size _ (trees t) Hf) as (l & El & Hl).
  assert (Hsl : SliceStable nt_Name l = l).
  { apply SliceStable_id. unfold sorted_by. rewrite <- (same_names _ _ Hl). apply (mo_sorted t Ht). }
  exists dir. eexists. split; [done|]. unfold LoadMultiTree. rewrite Em. cbn [mbind res_bind].
  rewrite load_trees_filter, El. cbn [mbind res_bind mt_metadata md_CommitInfo md_InitialVersion of_option].
  rewrite Hsl, u64_small by lia. split; [reflexivity|].
  assert (Hx : treesByName t = index_from 0 l ∅).
  { eapply index_ok_unique; [apply (mo_index t Ht)|apply index_from_ok|by apply same_names].
    rewrite <- (same_names _ _ Hl). by apply mo_names. }
  unfold setInitialVersion. destruct (load_initialVersion t l Ht Hl) as [Hs|Hn];
    (destruct (Z.ltb_spec 1 (initialVersion t)); [|]); try lia; by (split; [by split|]).
Qed.

(** A tree read from a snapshot is what the snapshot holds. *)
Definition faithful e : Prop := forall s, snapshot (nt_Tree e) = Some s -> snapshot_of s (root (nt_Tree e)).

Lemma load_trees_faithful zc size es l l' :
  Forall2 loads es l -> load_trees (C := C) zc size es = Ok l' -> Forall faithful l'.
Proof.
  intros Hl. revert l'. induction Hl as [|[name f] e es l (Hn & Hf & Hr) Hl IH]; intros l'; [by intros [= <-]|].
  destruct Hf as (d & s & Ef & Eo & Ev & Es). simpl in Ef, Hn. subst f name.
  cbn [load_trees]. rewrite Eo. cbn [mbind res_bind].
  rewrite (NewFromSnapshot_of s (root (nt_Tree e)) zc size Es Hr). cbn [mbind res_bind].
  intros (l1 & E1 & [= <-])%res_bind_ok. constructor; [|by apply IH]. by intros s' [= <-].
Qed.

(** So are the trees of a snapshot that was written. *)
Lemma write_load_faithful ctx t zc size dir t' :
  mt_writable t -> (forall name i, ctx name i = None) ->
  WriteSnapshotWithContext ctx ∅ t = Ok dir -> LoadMultiTree dir zc size = Ok t' -> Forall faithful (trees t').
Proof.
  intros Hw Hc Ew E. destruct (write_folders ctx t Hw Hc) as (dir' & Ew' & Em & Hf).
  rewrite Ew in Ew'. injection Ew' as <-. unfold LoadMultiTree in E. rewrite Em in E. cbn [mbind res_bind] in E.
  rewrite load_trees_filter in E. apply res_bind_ok in E as (l & El & E).
  apply res_bind_ok in E as (info & _ & [= <-]).
  assert (Hl : Forall faithful (SliceStable nt_Name l)).
  { rewrite SliceStable_perm. by apply (load_trees_faithful zc size _ _ l Hf). }
  unfold setInitialVersion. destruct (1 <? _); [|exact Hl]. cbn [trees with_trees with_initialVersion].
  apply Forall_map. eapply Forall_impl; [exact Hl|]. intros e He s. cbn [on_tree nt_Tree].
  unfold Tree.setInitialVersion. destruct (0 <? _); [apply He|]. destruct (_ <? 1); apply He.
Qed.
End snapshots.

(** ** States that agree on the data *)

Section similar.
Context `{CacheOps C}.
Implicit Types (t : MultiTree C).

Lemma mt_ok_sim t t' : mt_ok t -> mt_sim t t' -> mt_ok t'.
Proof.
  intros Ht [Hi Hv Hx Hl]. pose proof (same_names _ _ Hl) as Hn. split.
  - unfold sorted_by. rewrite <- Hn. apply (mo_sorted t Ht).
  - rewrite <- Hx. intros name i. rewrite (mo_index t Ht name i).
    pose proof (proj1 (Forall2_lookup _ _ _) Hl i) as Hi'.
    split; intros (e & He & <-); rewrite He in Hi'; inversion Hi' as [x y [Hxy _]|]; subst; eauto.
  - rewrite <- Hi, <- Hv. apply (mo_version t Ht).
  - rewrite <- Hi, <- Hv. apply Forall_lookup. intros i e He.
    destruct (Forall2_lookup_r _ _ _ _ _ Hl He) as (e0 & He0 & _ & <- & _).
    by apply (proj1 (Forall_lookup _ _) (mo_trees t Ht) i).
Qed.

Lemma stores_same t1 t2 name :
  mt_sim t1 t2 -> option_Forall2 same_tree (stores t1 !! name) (stores t2 !! name).
Proof.
  intros Hs. pose proof (sim_trees _ _ Hs) as Hl. unfold stores. induction Hl as [|e1 e2 l1 l2 [Hn Ht] Hl IH].
  - unfold to_map. cbn. rewrite lookup_empty. constructor.
  - rewrite !to_map_cons, <- Hn. destruct (decide (nt_Name e1 = name)) as [->|].
    + rewrite !lookup_insert_eq. by constructor.
    + by rewrite !lookup_insert_ne.
Qed.

Lemma committed_sim t t' : mt_sim t t' -> lastCommitInfo t' = lastCommitInfo t -> committed t -> committed t'.
Proof.
  intros Hs Hc Ht. unfold committed, buildCommitInfo in *.
  by rewrite <- (store_infos_same _ _ (sim_trees _ _ Hs)), <- (sim_version _ _ Hs), Hc.
Qed.
End similar.
