(* ===== verification/MultiTreeProps.v ===== *)
(** * Properties of the multi-tree *)

From Stdlib Require Import Strings.Byte ZArith Lia.
From stdpp Require Import base list numbers strings gmap.
From S2P Require Import Prelude Binary Proto ProtoInv ProtoCodec State Node NodeInv Snapshot SnapshotWriter Cache Tree Wal.
From S2P Require Import MultiTree MultiTreeInv MultiTreeSim MultiTreeSnapshot.
Local Open Scope Z_scope.

Section properties.
Context `{CacheLaws C}.
Implicit Type t : MultiTree C.

(** C40: the version and the index of its log entry determine each other, the first
    version has index 1 and the entry of the next version is the next entry. *)
Theorem walIndex_correct v init :
  version_ok v init -> v < MaxInt64 ->
  (v <> 0 -> walVersion (walIndex v init) init = v) /\
  walIndex (nextVersion v init) init = (if v =? 0 then 1 else walIndex v init + 1) /\
  walVersion (walIndex (nextVersion v init) init) init = nextVersion v init.
Proof.
  intros Hv Hl. destruct (nextVersion_spec v init Hv Hl) as (_ & Hn & Hz & _). split; [|split].
  - intros Hv0. rewrite walIndex_saved by done. by apply walVersion_saved.
  - rewrite walIndex_next by done. destruct (Z.eqb_spec v 0) as [->|]; [done|]. by rewrite walIndex_saved.
  - rewrite walIndex_saved by done. by apply walVersion_saved.
Qed.

(** upgrades that make sense one after the other on the map of stores (an added store
    is new, a renamed or deleted one exists) succeed, keep the invariant and have that
    effect on the map: a renamed store keeps its tree, a new one starts empty at the
    version of the others. *)
Theorem ApplyUpgrades_refines_map us t m :
  mt_ok t -> Version t < MaxInt64 -> upgrade_maps (new_tree t) (stores t) us = Some m ->
  exists t', ApplyUpgrades us t = (t', Ok tt) /\ mt_ok t' /\ stores t' = m /\
    Version t' = Version t /\ initialVersion t' = initialVersion t.
Proof.
  intros Ht Hl E. destruct (ApplyUpgrades_done us t m Ht E) as (t' & E' & Hf & Hm).
  pose proof (ApplyUpgrades_ok us t t' Ht Hl E') as [Ht' _]. exists t'.
  destruct Hf as (Hi & Hc & _). unfold Version. by rewrite Hc.
Qed.


(** a multi-tree written to an empty directory and loaded from it has the same
    stores with the same roots and versions, and the same commit info. *)
Theorem multitree_snapshot_roundtrip ctx t zc size :
  mt_writable t -> (forall name i, ctx name i = None) ->
  exists dir t', WriteSnapshotWithContext ctx ∅ t = Ok dir /\ LoadMultiTree dir zc size = Ok t' /\
    mt_sim t t' /\ lastCommitInfo t' = lastCommitInfo t /\ SnapshotVersion t' = Ok (Version t).
Proof. apply write_load. Qed.

(** the directory a snapshot leaves does not depend on the order in which the worker
    pool writes the stores. *)
Theorem write_order_irrelevant ctx t l dir r :
  mt_ok t -> l ≡ₚ trees t ->
  write_stores ctx dir (trees t) = Ok r -> write_stores ctx dir l = Ok r.
Proof. intros Ht Hp. apply write_stores_perm; [done|by apply mo_names]. Qed.

(** C15: recovery.  Take the snapshot of a multi-tree and the log of the blocks committed
    since.  Loading the snapshot and catching up with the log succeeds and gives the live
    state: the same stores, roots and versions, and the same commit info. *)
Theorem snapshot_and_log_recover `{WalLaws L} (log : L) ctx t zc size bs t' :
  mt_writable t -> Version t < MaxInt64 -> (forall name i, ctx name i = None) ->
  run_blocks bs t = (t', Ok tt) ->
  wv_last (view log) = saved (Version t) (initialVersion t) + zlen bs ->
  logged log (saved (Version t) (initialVersion t) + 1) bs ->
  exists dir t0 t1,
    WriteSnapshotWithContext ctx ∅ t = Ok dir /\ LoadMultiTree dir zc size = Ok t0 /\
    CatchupWAL log 0 t0 = (t1, Ok tt) /\ mt_sim t' t1 /\ lastCommitInfo t1 = lastCommitInfo t'.
Proof.
  intros Hw Hl Hc Hrun Hlast Hlog.
  destruct (write_load ctx t zc size Hw Hc) as (dir & t0 & E1 & E2 & Hs & Hi & _).
  destruct (CatchupWAL_sim log bs t t0 t' 0 (zlen bs)) as (t1 & E3 & Hs' & Hi');
    [apply (mw_ok t Hw)|done|done|done|lia|left; split; [done|lia]|done|done|done|].
  exists dir, t0, t1. done.
Qed.

(** catching up to a target version inside the log stops exactly at the state the
    live run had at that version, whatever was logged afterwards. *)
Theorem CatchupWAL_target `{WalLaws L} (log : L) t t0 bs t' :
  mt_ok t -> mt_sim t t0 -> lastCommitInfo t = lastCommitInfo t0 ->
  tree_version (Version t) (initialVersion t) + zlen bs <= MaxInt64 -> bs <> [] ->
  run_blocks bs t = (t', Ok tt) ->
  saved (Version t) (initialVersion t) + zlen bs <= wv_last (view log) ->
  logged log (saved (Version t) (initialVersion t) + 1) bs ->
  exists t1, CatchupWAL log (Version t') t0 = (t1, Ok tt) /\ mt_sim t' t1 /\
    Version t1 = Version t' /\ lastCommitInfo t1 = lastCommitInfo t'.
Proof.
  intros Ht Hs Hi Hl Hne Hrun Hlast Hlog. pose proof (zlen_nonneg bs).
  destruct (run_blocks_ok bs t t' Ht Hl Hrun) as (Ht' & Hi' & Hsv & Hv'). specialize (Hv' Hne).
  assert (0 < zlen bs) by (destruct bs; [done|rewrite zlen_cons; pose proof (zlen_nonneg bs); lia]).
  pose proof (mo_version t Ht) as (? & ? & ?).
  assert (Hz : Version t' <> 0).
  { rewrite Hv'. unfold tree_version. destruct (_ && _) eqn:E; [|lia].
    apply andb_true_iff in E as [_ ?%Z.ltb_lt]. lia. }
  destruct (CatchupWAL_sim log bs t t0 t' (Version t') (zlen bs)) as (t1 & E3 & Hs' & Hc'); try done.
  - unfold tree_version in Hl. destruct (Z.eqb_spec (Version t) 0); [unfold MaxInt64; lia|]. simpl in Hl. lia.
  - right. split; [done|]. split; [done|]. rewrite <- Hi'.
    rewrite walIndex_saved; [|apply (mo_version t' Ht')|done]. by rewrite Hi'.
  - exists t1. split; [done|]. split; [done|]. split; [by rewrite (sim_version _ _ Hs')|done].
Qed.
End properties.

(** a metadata file without a commit info, as an empty file is, makes the load panic
    where the other defects of the file are reported as errors. *)
Theorem readMetadata_empty_panics : readMetadata {[ MetadataFileName := File [] ]} = Panic.
Proof. vm_compute. reflexivity. Qed.

(** ** Samples *)

(** Decision of [writable] by evaluation. *)
Fixpoint storableb (n : Node) : bool :=
  match n with
  | Leaf v k x => (0 <=? v) && (v <? 2 ^ 64) && (zlen k <? 2 ^ 32) && (zlen x <? 2 ^ 32)
  | Branch _ _ v _ l r => (0 <=? v) && (v <? 2 ^ 64) && storableb l && storableb r
  end.
Definition snapshottableb (n : Node) : bool :=
  wfb n && storableb n && (leaves n <? 2 ^ 32) && (kv_size n <? 2 ^ 64).
Definition writableb {C} (e : NamedTree C) : bool :=
  match root (nt_Tree e) with None => true | Some n => snapshottableb n end &&
  (0 <=? version (nt_Tree e)) && (version (nt_Tree e) <? 2 ^ 64).

Lemma storableb_sound n : storableb n = true -> storable n.
Proof.
  induction n as [v k x|h s v k l IHl r IHr]; cbn [storableb storable]; rewrite !andb_true_iff, ?Z.leb_le, ?Z.ltb_lt.
  - tauto.
  - intros [[Hv Hl] Hr]. auto.
Qed.

Lemma writableb_sound {C} (l : list (NamedTree C)) : forallb writableb l = true -> Forall writable l.
Proof.
  intros E. apply Forall_forall. intros e He. rewrite forallb_forall in E.
  specialize (E e (proj1 (list_elem_of_In _ _) He)). unfold writableb in E.
  rewrite !andb_true_iff, Z.leb_le, Z.ltb_lt in E. destruct E as [[Er Hv] Hv'].
  split; [|done]. destruct (root (nt_Tree e)) as [n|]; [|done]. unfold snapshottableb in Er.
  rewrite !andb_true_iff, !Z.ltb_lt in Er. destruct Er as [[[Hw Hs] Hl] Hk].
  apply wf_snapshottable; [by apply wfb_sound|by apply storableb_sound|done|done].
Qed.

Definition sample_add (name : string) : TreeNameUpgrade :=
  {| up_Name := str name; up_RenameFrom := []; up_Delete := false |}.
Definition sample_block1 : WALEntry :=
  {| Changesets := [{| ncs_Changeset := sample_changes; ncs_Name := str "bank" |}];
     Upgrades := [sample_add "gov"; sample_add "bank"] |}.
Definition sample_block2 : WALEntry :=
  {| Changesets := [{| ncs_Changeset := sample_changes; ncs_Name := str "mint" |}];
     Upgrades := [{| up_Name := str "mint"; up_RenameFrom := str "gov"; up_Delete := false |}] |}.

(** A chain that starts at version 5 with stores bank and gov. *)
Definition sample_genesis : MultiTree lru := NewEmptyMultiTree 5 2.
Definition sample_mt : MultiTree lru := (run_blocks [sample_block1] sample_genesis).1.
Definition sample_mt2 : MultiTree lru := (run_blocks [sample_block2] sample_mt).1.

Lemma run_pair {A B} (p : A * B) b : p.2 = b -> p = (p.1, b).
Proof. intros <-. by destruct p. Qed.

Lemma sample_genesis_ok : mt_ok sample_genesis.
Proof. apply NewEmptyMultiTree_ok. unfold MaxInt64. lia. Qed.
Lemma sample_run1 : run_blocks [sample_block1] sample_genesis = (sample_mt, Ok tt).
Proof. unfold sample_mt. apply (run_pair (run_blocks _ _)). vm_compute. reflexivity. Qed.
Lemma sample_run2 : run_blocks [sample_block2] sample_mt = (sample_mt2, Ok tt).
Proof. unfold sample_mt2. apply (run_pair (run_blocks _ _)). vm_compute. reflexivity. Qed.
Lemma sample_commit1 : commit_block sample_block1 sample_genesis = (sample_mt, Ok tt).
Proof.
  pose proof sample_run1 as E. apply for_each_cons_ok in E as (t & E & [= <-]). exact E.
Qed.
Lemma sample_mt_ok : mt_ok sample_mt.
Proof. apply (commit_block_ok _ _ _ sample_genesis_ok) with (2 := sample_commit1). vm_compute. reflexivity. Qed.

Lemma sample_mt_version : Version sample_mt = 5 /\ initialVersion sample_mt = 5.
Proof. split; vm_compute; reflexivity. Qed.

Lemma sample_mt_writable : mt_writable sample_mt.
Proof.
  split.
  - exact sample_mt_ok.
  - apply writableb_sound. vm_compute. reflexivity.
  - assert (E : map nt_Name (trees sample_mt) = [str "bank"; str "gov"]) by (vm_compute; reflexivity).
    rewrite E. intros Hin. rewrite !elem_of_cons, elem_of_nil in Hin. by destruct Hin as [|[|]].
  - apply (committed_ok _ 5 sample_mt_ok); [vm_compute; reflexivity|unfold MaxInt64; lia|].
    by apply (commit_block_committed sample_block1 sample_genesis), sample_commit1.
  - vm_compute. reflexivity.
Qed.

(** The log of a chain that starts at version 5, at version 6. *)
Definition sample_log : mem_log :=
  {| ml_first := 1; ml_entries := [WALEntry_bytes sample_block1; WALEntry_bytes sample_block2] |}.

Lemma sample_logged : logged sample_log 2 [sample_block2].
Proof. intros [|k] b Hb; [|done]. injection Hb as <-. vm_compute. split; reflexivity. Qed.

(** ** Witnesses *)

Lemma walIndex_correct_witness :
  walVersion (walIndex 7 5) 5 = 7 /\ walIndex (nextVersion 0 5) 5 = 1 /\ walIndex (nextVersion 7 5) 5 = walIndex 7 5 + 1.
Proof.
  assert (H7 : version_ok 7 5) by (unfold version_ok, MaxInt64; lia).
  assert (H0 : version_ok 0 5) by (unfold version_ok, MaxInt64; lia).
  destruct (walIndex_correct 7 5 H7) as (E1 & E2 & _); [unfold MaxInt64; lia|].
  destruct (walIndex_correct 0 5 H0) as (_ & E3 & _); [unfold MaxInt64; lia|].
  split; [apply E1; lia|]. split; [exact E3|exact E2].
Defined.

Lemma ApplyUpgrades_refines_map_witness :
  exists t', ApplyUpgrades [sample_add "gov"] sample_genesis = (t', Ok tt) /\ mt_ok t' /\
    stores t' = <[str "gov" := new_tree sample_genesis]> ∅.
Proof.
  destruct (ApplyUpgrades_refines_map [sample_add "gov"] sample_genesis (<[str "gov" := new_tree sample_genesis]> ∅))
    as (t' & E & Ht' & Hm & _); [exact sample_genesis_ok|vm_compute; reflexivity|reflexivity|].
  exists t'. auto.
Defined.


Lemma multitree_snapshot_roundtrip_witness :
  exists dir t', WriteSnapshotWithContext (fun _ => Background) ∅ sample_mt = Ok dir /\
    LoadMultiTree dir false 0 = Ok t' /\ mt_sim sample_mt t'.
Proof.
  destruct (multitree_snapshot_roundtrip (fun _ => Background) sample_mt false 0 sample_mt_writable)
    as (dir & t' & E1 & E2 & Hs & _); [done|]. exists dir, t'. auto.
Defined.

Lemma write_order_irrelevant_witness :
  exists r, write_stores (fun _ => Background) ∅ (trees sample_mt) = Ok r /\
    write_stores (fun _ => Background) ∅ (reverse (trees sample_mt)) = Ok r.
Proof.
  destruct (write_stores_opens (fun _ => Background) (trees sample_mt) ∅) as (r & E & _);
    [apply (mo_names _ sample_mt_ok)|apply (mw_trees _ sample_mt_writable)|done|by intros; rewrite lookup_empty|].
  exists r. split; [exact E|].
  apply (write_order_irrelevant (fun _ => Background) sample_mt (reverse (trees sample_mt)) ∅ r sample_mt_ok);
    [apply reverse_Permutation|exact E].
Defined.

Lemma snapshot_and_log_recover_witness :
  exists dir t0 t1,
    WriteSnapshotWithContext (fun _ => Background) ∅ sample_mt = Ok dir /\ LoadMultiTree dir false 0 = Ok t0 /\
    CatchupWAL sample_log 0 t0 = (t1, Ok tt) /\ mt_sim sample_mt2 t1 /\ lastCommitInfo t1 = lastCommitInfo sample_mt2.
Proof.
  apply (snapshot_and_log_recover sample_log (fun _ => Background) sample_mt false 0 [sample_block2] sample_mt2
    sample_mt_writable).
  - vm_compute. reflexivity.
  - done.
  - exact sample_run2.
  - vm_compute. reflexivity.
  - destruct sample_mt_version as [-> ->]. exact sample_logged.
Defined.

Lemma CatchupWAL_target_witness :
  exists t1, CatchupWAL sample_log (Version sample_mt2) sample_mt = (t1, Ok tt) /\ mt_sim sample_mt2 t1.
Proof.
  destruct (CatchupWAL_target sample_log sample_mt sample_mt [sample_block2] sample_mt2) as (t1 & E & Hs & _);
    [exact sample_mt_ok|reflexivity|done|vm_compute; discriminate|done|exact sample_run2|vm_compute; discriminate| |].
  - destruct sample_mt_version as [-> ->]. exact sample_logged.
  - exists t1. auto.
Defined.
