(* ===== verification/SnapshotDir.v ===== *)
(** * The directory of a database (memiavl/db.go)

    Names of snapshots, the link to the current one, and the operations that list, look
    for and remove snapshots.  Removing goes through a temporary name. *)

From Stdlib Require Import Strings.Byte ZArith Lia.
From stdpp Require Import base list numbers strings gmap.
From S2P Require Import Prelude Binary State MultiTree.
Local Open Scope Z_scope.

Definition TmpSuffix : bytes := str "-tmp".
Definition SnapshotPrefix : bytes := str "snapshot-".
Definition SnapshotDirLen : Z := zlen SnapshotPrefix + 20.

(** ** Numbers in names *)

(** [fmt] with a width: zero-padded decimal digits. *)
Fixpoint digits (w : nat) (v : Z) : bytes :=
  match w with
  | O => []
  | S w => digits w (v / 10) ++ [byte_of_Z (48 + v mod 10)]
  end.

(** [fmt.Sprintf("%s%020d", SnapshotPrefix, version)]; the sign counts in the width. *)
Definition snapshotName (version : Z) : bytes :=
  SnapshotPrefix ++ (if version <? 0 then byte_of_Z 45 :: digits 19 (- version) else digits 20 version).

Definition HasPrefix (s prefix : bytes) : bool := bool_decide (take (length prefix) s = prefix).
Definition HasSuffix (s suffix : bytes) : bool :=
  (zlen suffix <=? zlen s) && bool_decide (drop (length s - length suffix) s = suffix).

Definition isSnapshotName (name : bytes) : bool :=
  HasPrefix name SnapshotPrefix && (zlen name =? SnapshotDirLen).

Definition ErrSyntax : error := "invalid syntax".
Definition ErrRange : error := "value out of range".

(** [strconv.ParseUint(s, 10, 64)] and [strconv.ParseInt(s, 10, 64)]. *)
Fixpoint parse_digits (s : bytes) (n : Z) : res Z :=
  match s with
  | [] => Ok n
  | c :: s =>
      let d := byte_to_Z c - 48 in
      if (d <? 0) || (9 <? d) then Err ErrSyntax else
      if 1844674407370955162 <=? n then Err ErrRange else
      let n10 := u64 (n * 10) in
      let n1 := u64 (n10 + d) in
      if n1 <? n10 then Err ErrRange else parse_digits s n1
  end.
Definition ParseUint (s : bytes) : res Z :=
  match s with [] => Err ErrSyntax | _ => parse_digits s 0 end.
Definition ParseInt (s : bytes) : res Z :=
  match s with
  | [] => Err ErrSyntax
  | c :: rest =>
      let neg := byte_to_Z c =? 45 in
      un ← ParseUint (if neg || (byte_to_Z c =? 43) then rest else s);
      if negb neg && (2 ^ 63 <=? un) then Err ErrRange else
      if neg && (2 ^ 63 <? un) then Err ErrRange else
      Ok (if neg then - un else un)
  end.

Definition parseVersion (name : bytes) : res Z :=
  if negb (isSnapshotName name) then Err "invalid snapshot name" else
  ParseInt (drop (length SnapshotPrefix) name).

(** ** The directory *)

Inductive dbentry : Type := Sub (m : MDir) | Link (target : bytes) | Other.
Abbreviation DBDir := (gmap bytes dbentry).

Definition ErrNotExist : error := "file does not exist".
Definition currentName : bytes := str "current".
Definition currentTmpName : bytes := str "current-tmp".

Definition Readlink (dir : DBDir) (name : bytes) : res bytes :=
  match dir !! name with
  | Some (Link target) => Ok target
  | Some _ => Err "invalid argument"
  | None => Err ErrNotExist
  end.

(** The directory behind a name, through a link. *)
Definition open_dir (dir : DBDir) (name : bytes) : res MDir :=
  match dir !! name with
  | Some (Sub m) => Ok m
  | Some (Link target) => match dir !! target with Some (Sub m) => Ok m | _ => Err ErrNotExist end
  | _ => Err ErrNotExist
  end.

Definition currentVersion (dir : DBDir) : res Z := Readlink dir currentName ≫= parseVersion.

(** [os.Symlink] to the temporary name, then [os.Rename] over the link. *)
Definition updateCurrentSymlink (snapshot : bytes) : SE DBDir unit := fun dir =>
  match dir !! currentTmpName with
  | Some _ => (dir, Err "file exists")
  | None =>
      match dir !! currentName with
      | Some (Sub _) => (<[currentTmpName := Link snapshot]> dir, Err "file exists")
      | _ => (<[currentName := Link snapshot]> dir, Ok tt)
      end
  end.

(** [os.Rename] of a directory: an empty directory is replaced. *)
Definition rename_dir (from to : bytes) : SE DBDir unit := fun dir =>
  match dir !! from with
  | Some (Sub m) =>
      match dir !! to with
      | None => (<[to := Sub m]> (delete from dir), Ok tt)
      | Some (Sub m') =>
          if decide (m' = ∅) then (<[to := Sub m]> (delete from dir), Ok tt)
          else (dir, Err "directory not empty")
      | Some _ => (dir, Err "not a directory")
      end
  | _ => (dir, Err ErrNotExist)
  end.

Definition atomicRemoveDir (name : bytes) : SE DBDir unit :=
  rename_dir name (name ++ TmpSuffix) ;; modify (delete (name ++ TmpSuffix)).

Definition removeTmpDirs (dir : DBDir) : DBDir :=
  filter (fun p => HasSuffix p.1 TmpSuffix = false) dir.

(** ** Traversal *)

Section traverse.
  Context {St : Type}.
  (** The callback: whether to stop. *)
  Variable callback : Z -> SE St bool.

Definition process (entry : bytes * dbentry) : SE St bool :=
  match entry with
  | (name, Sub _) =>
      if isSnapshotName name then
        version ← lift (parseVersion name);
        callback version
      else mret false
  | _ => mret false
  end.

Fixpoint process_all (entries : list (bytes * dbentry)) : SE St unit :=
  match entries with
  | [] => mret tt
  | e :: entries => stop ← process e; if stop : bool then mret tt else process_all entries
  end.

Definition traverseSnapshots (dir : DBDir) (ascending : bool) : SE St unit :=
  let entries := ReadDir dir in
  process_all (if ascending then entries else reverse entries).
End traverse.

(** The callbacks that look for a version keep it in a captured variable. *)
Definition seekSnapshot (dir : DBDir) (targetVersion : Z) : res Z :=
  if MaxInt64 <? targetVersion then Err "target version overflows int64" else
  let callback version : SE (option Z) bool := fun found =>
    if version <=? i64 targetVersion then (Some version, Ok true) else (found, Ok false) in
  let '(found, r) := traverseSnapshots callback dir false None in
  _ ← r;
  match found with None => Err "target version is pruned" | Some v => Ok v end.

Definition firstSnapshotVersion (dir : DBDir) : res Z :=
  let callback version : SE (option Z) bool := fun _ => (Some version, Ok true) in
  let '(found, r) := traverseSnapshots callback dir true None in
  _ ← r;
  match found with None => Err "empty memiavl db" | Some v => Ok v end.

Definition ClearSnapshotsBefore (height : Z) : SE DBDir unit := fun dir =>
  traverseSnapshots (fun version =>
    if version <? i64 height then atomicRemoveDir (snapshotName version) ;; mret false
    else mret true) dir true dir.

(** The traversal of the pruning: the directory, how many snapshots may still be kept, and
    the earliest one kept.  [locked] tells which snapshots are being exported. *)
Record prune_state : Type := { pr_dir : DBDir; pr_counter : Z; pr_earliest : Z }.

Definition keep_version (s : prune_state) (version : Z) : prune_state :=
  {| pr_dir := pr_dir s; pr_counter := pr_counter s;
     pr_earliest := if (pr_earliest s =? 0) || (version <? pr_earliest s) then version else pr_earliest s |}.

Definition prune_version (locked : Z -> bool) (currentVersion version : Z) : SE prune_state bool := fun s =>
  if currentVersion <=? version then (keep_version s version, Ok false)
  else if 0 <? pr_counter s then
    (keep_version {| pr_dir := pr_dir s; pr_counter := pr_counter s - 1; pr_earliest := pr_earliest s |} version,
     Ok false)
  else if locked version then (s, Ok false)
  else
    let '(dir, _) := atomicRemoveDir (snapshotName version) (pr_dir s) in
    ({| pr_dir := dir; pr_counter := pr_counter s; pr_earliest := pr_earliest s |}, Ok false).

(** The directory afterwards and the version from which the log has to be kept. *)
Definition prune_dir (locked : Z -> bool) (keepRecent : Z) (dir : DBDir) : DBDir * res Z :=
  match currentVersion dir with
  | Ok current =>
      let '(s, r) := traverseSnapshots (prune_version locked current) dir false
        {| pr_dir := dir; pr_counter := keepRecent; pr_earliest := 0 |} in
      (pr_dir s,
       _ ← r;
       if pr_earliest s =? 0 then firstSnapshotVersion (pr_dir s) else Ok (pr_earliest s))
  | Err e => (dir, Err e)
  | Panic => (dir, Panic)
  end.
