(* ===== verification/SnapshotDirInv.v ===== *)
(** * Properties of snapshot directories

    The name of a snapshot is read back as its version, and the order of names is the
    order of versions, which is what makes the traversal of a directory visit snapshots
    from the oldest to the newest or back. *)

From Stdlib Require Import Strings.Byte ZArith Lia.
From stdpp Require Import base list numbers strings gmap sorting.
From S2P Require Import Prelude Binary State MultiTree SnapshotDir.
Local Open Scope Z_scope.

(** ** Names *)

Lemma digits_length w v : length (digits w v) = w.
Proof. revert v. induction w as [|w IH]; intros v; [done|]. simpl. rewrite length_app, IH. simpl. lia. Qed.

Lemma digit_byte d : 0 <= d < 10 -> byte_to_Z (byte_of_Z (48 + d)) = 48 + d.
Proof. intros Hd. rewrite byte_to_of_Z, Z.mod_small; lia. Qed.

Lemma parse_digits_app w v rest n :
  0 <= v < 10 ^ Z.of_nat w -> 0 <= n -> n * 10 ^ Z.of_nat w + v < 2 ^ 63 ->
  parse_digits (digits w v ++ rest) n = parse_digits rest (n * 10 ^ Z.of_nat w + v).
Proof.
  revert v rest n. induction w as [|w IH]; intros v rest n Hv Hn Hb.
  - change (10 ^ Z.of_nat 0) with 1 in *. cbn [digits app]. f_equal. lia.
  - rewrite Nat2Z.inj_succ, Z.pow_succ_r in * by lia. set (p := 10 ^ Z.of_nat w) in *.
    assert (Hm : 0 <= v mod 10 < 10) by (apply Z.mod_pos_bound; lia).
    pose proof (Z.div_mod v 10 ltac:(lia)) as Hdm.
    assert (Hq : 0 <= v / 10 < p) by (split; [apply Z.div_pos|apply Z.div_lt_upper_bound]; lia).
    cbn [digits]. rewrite <- app_assoc, IH; [|done|done|nia].
    cbn [app parse_digits]. rewrite digit_byte by lia.
    replace (48 + v mod 10 - 48) with (v mod 10) by lia.
    rewrite !(proj2 (Z.ltb_ge _ _)) by lia. cbn [orb].
    assert (Hx : (n * p + v / 10) * 10 + v mod 10 = n * (10 * p) + v) by lia.
    rewrite (proj2 (Z.leb_gt _ _)) by lia.
    rewrite (u64_small ((n * p + v / 10) * 10)), u64_small by nia.
    rewrite (proj2 (Z.ltb_ge _ _)) by lia. by rewrite Hx.
Qed.

Lemma snapshotName_nonneg v : 0 <= v -> snapshotName v = SnapshotPrefix ++ digits 20 v.
Proof. intros Hv. unfold snapshotName. by rewrite (proj2 (Z.ltb_ge _ _)). Qed.

Lemma snapshotName_is v : 0 <= v -> isSnapshotName (snapshotName v) = true.
Proof.
  intros Hv. rewrite snapshotName_nonneg by done. unfold isSnapshotName, HasPrefix.
  rewrite take_app_length, bool_decide_eq_true_2 by done. cbn [andb].
  rewrite zlen_app. unfold zlen at 2. rewrite digits_length. apply Z.eqb_refl.
Qed.

Lemma ParseInt_digits v : 0 <= v < 2 ^ 63 -> ParseInt (digits 20 v) = Ok v.
Proof.
  intros Hv. pose proof (parse_digits_app 20 v [] 0 ltac:(lia) ltac:(lia) ltac:(lia)) as E.
  rewrite app_nil_r, Z.mul_0_l, Z.add_0_l in E. change (parse_digits [] v) with (Ok v) in E.
  unfold ParseInt. destruct (digits 20 v) as [|c s] eqn:Ed; [by apply (f_equal length) in Ed; rewrite digits_length in Ed|].
  assert (Hc : (byte_to_Z c =? 45) = false /\ (byte_to_Z c =? 43) = false).
  { cbn [parse_digits] in E. destruct (byte_to_Z c - 48 <? 0) eqn:F; [done|].
    apply Z.ltb_ge in F. split; apply Z.eqb_neq; lia. }
  destruct Hc as [-> ->]. cbn [orb negb andb ParseUint]. rewrite E. cbn [mbind res_bind].
  by rewrite (proj2 (Z.leb_gt _ _)) by lia.
Qed.

Lemma parseVersion_name v : 0 <= v < 2 ^ 63 -> parseVersion (snapshotName v) = Ok v.
Proof.
  intros Hv. unfold parseVersion. rewrite snapshotName_is by lia. cbn [negb].
  rewrite snapshotName_nonneg, drop_app_length by lia. by apply ParseInt_digits.
Qed.

(** ** Order *)

Lemma Compare_app x y u v :
  length x = length y ->
  Compare (x ++ u) (y ++ v) = match Compare x y with Eq => Compare u v | r => r end.
Proof.
  revert y. induction x as [|a x IH]; intros [|b y] Hl; try done. injection Hl as Hl. cbn [app Compare].
  destruct (N.compare _ _); [by apply IH|done|done].
Qed.

Lemma Compare_digits w a b :
  0 <= a < 10 ^ Z.of_nat w -> 0 <= b < 10 ^ Z.of_nat w -> Compare (digits w a) (digits w b) = Z.compare a b.
Proof.
  revert a b. induction w as [|w IH]; intros a b Ha Hb.
  - change (10 ^ Z.of_nat 0) with 1 in *. assert (a = 0) as -> by lia. by assert (b = 0) as -> by lia.
  - rewrite Nat2Z.inj_succ, Z.pow_succ_r in * by lia. cbn [digits].
    rewrite Compare_app by (by rewrite !digits_length).
    assert (Ha' : 0 <= a / 10 < 10 ^ Z.of_nat w) by (split; [apply Z.div_pos|apply Z.div_lt_upper_bound]; lia).
    assert (Hb' : 0 <= b / 10 < 10 ^ Z.of_nat w) by (split; [apply Z.div_pos|apply Z.div_lt_upper_bound]; lia).
    pose proof (Z.mod_pos_bound a 10 ltac:(lia)). pose proof (Z.mod_pos_bound b 10 ltac:(lia)).
    pose proof (Z.div_mod a 10 ltac:(lia)). pose proof (Z.div_mod b 10 ltac:(lia)).
    rewrite IH by done. destruct (Z.compare_spec (a / 10) (b / 10)) as [E|E|E]; symmetry.
    + cbn [Compare]. assert (Hn : forall d, 0 <= d < 10 -> Byte.to_N (byte_of_Z (48 + d)) = Z.to_N (48 + d)).
      { intros d Hd. apply N2Z.inj. rewrite Z2N.id by lia. by apply digit_byte. }
      rewrite !Hn by lia. rewrite Z2N.inj_compare by lia.
      destruct (Z.compare_spec (48 + a mod 10) (48 + b mod 10));
        [apply Z.compare_eq_iff|apply Z.compare_lt_iff|apply Z.compare_gt_iff]; lia.
    + apply Z.compare_lt_iff. lia.
    + apply Z.compare_gt_iff. lia.
Qed.

Lemma snapshotName_lt a b :
  0 <= a < 2 ^ 63 -> 0 <= b < 2 ^ 63 -> bytes_lt (snapshotName a) (snapshotName b) <-> a < b.
Proof.
  intros Ha Hb. rewrite !snapshotName_nonneg by lia. unfold bytes_lt.
  rewrite Compare_app by done. rewrite Compare_refl, Compare_digits by (change (Z.of_nat 20) with 20; lia).
  apply Z.compare_lt_iff.
Qed.

Lemma snapshotName_inj a b :
  0 <= a < 2 ^ 63 -> 0 <= b < 2 ^ 63 -> snapshotName a = snapshotName b -> a = b.
Proof. intros Ha Hb E. pose proof (parseVersion_name a Ha) as H1. rewrite E, parseVersion_name in H1 by done. congruence. Qed.

(** ** Traversal *)

(** Every directory with the name of a snapshot is one. *)
Definition names_ok (es : list (bytes * dbentry)) : Prop := forall name m,
  (name, Sub m) ∈ es -> isSnapshotName name = true -> exists v, 0 <= v < 2 ^ 63 /\ name = snapshotName v.
Definition dir_ok (dir : DBDir) : Prop := forall name m,
  dir !! name = Some (Sub m) -> isSnapshotName name = true -> exists v, 0 <= v < 2 ^ 63 /\ name = snapshotName v.

(** The version of an entry that is a snapshot. *)
Definition entry_version (e : bytes * dbentry) : option Z :=
  match e with
  | (name, Sub _) =>
      if isSnapshotName name then match parseVersion name with Ok v => Some v | _ => None end else None
  | _ => None
  end.
Definition versions_of (es : list (bytes * dbentry)) : list Z := omap entry_version es.
Definition snapshots (dir : DBDir) : list Z := versions_of (ReadDir dir).

Fixpoint visit {St} (callback : Z -> SE St bool) (vs : list Z) : SE St unit :=
  match vs with
  | [] => mret tt
  | v :: vs => stop ← callback v; if stop : bool then mret tt else visit callback vs
  end.

Lemma process_all_visit {St} (cb : Z -> SE St bool) es s :
  names_ok es -> process_all cb es s = visit cb (versions_of es) s.
Proof.
  revert s. induction es as [|[name e] es IH]; intros s Hok; [done|].
  assert (Hok' : names_ok es) by (intros n m Hin; apply (Hok n m); by right).
  cbn [process_all versions_of omap list_omap]. fold (versions_of es).
  destruct e as [m|target|]; [|apply (IH s Hok')..]. cbn [process entry_version].
  destruct (isSnapshotName name) eqn:En; [|apply (IH s Hok')].
  destruct (Hok name m ltac:(by left) En) as (v & Hv & ->). rewrite parseVersion_name by done.
  cbn [visit]. unfold lift, mbind, SE_bind. destruct (cb v s) as [s' [[]|e|]]; [done| |done|done]. by apply IH.
Qed.

Lemma ReadDir_elem dir name e : (name, e) ∈ ReadDir (A := dbentry) dir <-> dir !! name = Some e.
Proof. unfold ReadDir. by rewrite SliceStable_perm, elem_of_map_to_list. Qed.

Lemma ReadDir_sorted (dir : DBDir) : sorted_by fst (ReadDir dir).
Proof. apply SliceStable_sorted. apply (NoDup_fst_map_to_list dir). Qed.

Lemma versions_reverse es : versions_of (reverse es) = reverse (versions_of es).
Proof.
  induction es as [|e es IH]; [done|]. rewrite reverse_cons. unfold versions_of in *. rewrite omap_app, IH.
  cbn [omap list_omap]. destruct (entry_version e); [by rewrite reverse_cons|by rewrite app_nil_r].
Qed.

Lemma traverse_visit {St} (cb : Z -> SE St bool) dir asc s :
  dir_ok dir ->
  traverseSnapshots cb dir asc s = visit cb (if asc then snapshots dir else reverse (snapshots dir)) s.
Proof.
  intros Hok. unfold traverseSnapshots.
  assert (H : forall es, (forall p, p ∈ es -> p ∈ ReadDir dir) -> names_ok es).
  { intros es Hin name m Hm. apply Hok with m. apply ReadDir_elem. by apply Hin. }
  destruct asc; [apply process_all_visit; by apply H|].
  rewrite process_all_visit; [by rewrite versions_reverse|]. apply H. intros p. by rewrite elem_of_reverse.
Qed.

Lemma snapshots_elem dir v :
  dir_ok dir -> v ∈ snapshots dir <-> 0 <= v < 2 ^ 63 /\ exists m, dir !! snapshotName v = Some (Sub m).
Proof.
  intros Hok. unfold snapshots, versions_of. rewrite list_elem_of_omap. split.
  - intros ([name [m|?|]] & Hin & E); [|done..]. apply ReadDir_elem in Hin. cbn [entry_version] in E.
    destruct (isSnapshotName name) eqn:En; [|done]. destruct (Hok name m Hin En) as (w & Hw & ->).
    rewrite parseVersion_name in E by done. injection E as <-. eauto.
  - intros (Hv & m & Hm). exists (snapshotName v, Sub m). split; [by apply ReadDir_elem|].
    cbn [entry_version]. rewrite snapshotName_is, parseVersion_name by lia. done.
Qed.

Lemma snapshots_sorted dir : dir_ok dir -> StronglySorted Z.lt (snapshots dir).
Proof.
  intros Hok. unfold snapshots.
  assert (Hin : forall p, p ∈ ReadDir dir -> dir !! p.1 = Some p.2) by (intros [n e]; apply ReadDir_elem).
  pose proof (ReadDir_sorted dir) as Hs. induction (ReadDir dir) as [|p es IH]; [constructor|].
  apply sorted_by_cons in Hs as [Hlt Hs].
  assert (IH' : StronglySorted Z.lt (versions_of es)) by (apply IH; [intros q Hq; apply Hin; by right|done]).
  assert (Hver : forall q v, q ∈ p :: es -> entry_version q = Some v -> 0 <= v < 2 ^ 63 /\ q.1 = snapshotName v).
  { intros [n [m|?|]] v Hq E; [|done..]. cbn [entry_version] in E.
    destruct (isSnapshotName n) eqn:En; [|done]. destruct (Hok n m (Hin _ Hq) En) as (w & Hw & ->).
    rewrite parseVersion_name in E by done. by injection E as <-. }
  unfold versions_of in *. cbn [omap list_omap]. destruct (entry_version p) as [v|] eqn:Ep; [|done].
  constructor; [done|]. apply Forall_forall. intros w (q & Hq & Eq)%list_elem_of_omap.
  destruct (Hver p v ltac:(by left) Ep) as [Hv Ev]. destruct (Hver q w ltac:(by right) Eq) as [Hw Ew].
  specialize (Hlt q Hq). rewrite Ev, Ew in Hlt. by apply snapshotName_lt in Hlt.
Qed.

(** ** Looking for a snapshot *)

(** The first version, in the order of the traversal, that satisfies a test. *)
Lemma visit_find (P : Z -> bool) vs :
  visit (fun v (found : option Z) => if P v then (Some v, Ok true) else (found, Ok false)) vs None =
    (List.find P vs, Ok tt).
Proof.
  induction vs as [|v vs IH]; [done|]. cbn [visit List.find]. unfold mbind, SE_bind. by destruct (P v).
Qed.

Lemma find_reverse_max (P : Z -> bool) vs :
  StronglySorted Z.lt vs ->
  match List.find P (reverse vs) with
  | Some v => v ∈ vs /\ P v = true /\ (forall w, w ∈ vs -> P w = true -> w <= v)
  | None => forall w, w ∈ vs -> P w = false
  end.
Proof.
  intros Hs. induction vs as [|x vs IH] using rev_ind; [by intros w ?%not_elem_of_nil|].
  rewrite reverse_snoc. cbn [List.find].
  assert (Hs' : StronglySorted Z.lt vs /\ forall w, w ∈ vs -> w < x).
  { clear IH. induction vs as [|y vs IHv]; [split; [constructor|by intros w ?%not_elem_of_nil]|].
    cbn [app] in Hs. apply StronglySorted_inv in Hs as [Hs Hf]. destruct (IHv Hs) as [Hs' Hlt].
    rewrite Forall_forall in Hf. split.
    - constructor; [done|]. apply Forall_forall. intros w Hw. apply Hf. apply elem_of_app. by left.
    - intros w [->|Hw]%elem_of_cons; [|by apply Hlt]. apply Hf. apply elem_of_app. right. by left. }
  destruct Hs' as [Hs' Hlt]. destruct (P x) eqn:Px.
  - split; [apply elem_of_app; right; by left|]. split; [done|].
    intros w [Hw| ->%list_elem_of_singleton]%elem_of_app _; [|lia]. specialize (Hlt w Hw). lia.
  - specialize (IH Hs'). destruct (List.find P (reverse vs)) as [v|].
    + destruct IH as (Hv & Pv & Hmax). split; [apply elem_of_app; by left|]. split; [done|].
      intros w [Hw| ->%list_elem_of_singleton]%elem_of_app Pw; [by apply Hmax|congruence].
    + intros w [Hw| ->%list_elem_of_singleton]%elem_of_app; [by apply IH|done].
Qed.

Lemma seekSnapshot_find dir target :
  dir_ok dir -> 0 <= target <= MaxInt64 ->
  seekSnapshot dir target =
    match List.find (fun v => v <=? target) (reverse (snapshots dir)) with
    | Some v => Ok v
    | None => Err "target version is pruned"
    end.
Proof.
  intros Hok Ht. unfold seekSnapshot, MaxInt64 in *. rewrite (proj2 (Z.ltb_ge _ _)) by lia.
  rewrite traverse_visit by done. rewrite i64_small by lia.
  by rewrite (visit_find (fun v => v <=? target)).
Qed.

Lemma firstSnapshotVersion_head dir :
  dir_ok dir ->
  firstSnapshotVersion dir = match snapshots dir with v :: _ => Ok v | [] => Err "empty memiavl db" end.
Proof.
  intros Hok. unfold firstSnapshotVersion. rewrite traverse_visit by done.
  by destruct (snapshots dir).
Qed.

(** ** Pruning *)

(** The versions kept of a list from the newest to the oldest: those from the current one
    on, and [counter] older ones. *)
Fixpoint kept (current counter : Z) (vs : list Z) : list Z :=
  match vs with
  | [] => []
  | v :: vs =>
      if current <=? v then v :: kept current counter vs
      else if 0 <? counter then v :: kept current (counter - 1) vs
      else kept current counter vs
  end.

(** The number of snapshots between [v] and the current one. *)
Definition between (v current : Z) (vs : list Z) : Z :=
  zlen (List.filter (fun w => (v <? w) && (w <? current)) vs).

Lemma kept_sub current counter vs v : v ∈ kept current counter vs -> v ∈ vs.
Proof.
  revert counter. induction vs as [|x vs IH]; intros c; cbn [kept]; [done|].
  destruct (current <=? x), (0 <? c); rewrite ?elem_of_cons; naive_solver.
Qed.

Lemma kept_spec current counter vs v :
  StronglySorted Z.gt vs ->
  v ∈ kept current counter vs <-> v ∈ vs /\ (current <= v \/ between v current vs < counter).
Proof.
  intros Hs. revert counter. induction Hs as [|x vs Hs IH Hf]; intros c.
  { cbn [kept]. rewrite elem_of_nil. tauto. }
  rewrite Forall_forall in Hf. cbn [kept].
  assert (Hx : between x current (x :: vs) = 0).
  { unfold between. cbn [List.filter]. rewrite (proj2 (Z.ltb_ge x x)) by lia. cbn [andb].
    rewrite (List.filter_ext_in _ (fun _ => false)); [by rewrite filter_false|].
    intros w Hw. rewrite (proj2 (Z.ltb_ge _ _)); [done|]. specialize (Hf w). rewrite list_elem_of_In in Hf.
    specialize (Hf Hw). lia. }
  assert (Hv : forall v, v ∈ vs -> between v current (x :: vs) = (if x <? current then 1 else 0) + between v current vs).
  { intros w Hw. unfold between. cbn [List.filter]. specialize (Hf w Hw).
    rewrite (proj2 (Z.ltb_lt w x)) by lia. cbn [andb]. destruct (x <? current); [by rewrite zlen_cons|lia]. }
  assert (Hne : forall v, v ∈ vs -> v <> x) by (intros w Hw ->; specialize (Hf x Hw); lia).
  assert (Hnn : 0 <= between v current vs) by apply zlen_nonneg.
  destruct (Z.leb_spec current x) as [Hc|Hc]; [|destruct (Z.ltb_spec 0 c) as [Hp|Hp]];
    rewrite !elem_of_cons, ?IH; (split; [intros Hin|intros [Hin Hor]]).
  - destruct Hin as [->|[Hin Hor]]; [split; [by left|left; lia]|]. split; [by right|].
    rewrite Hv by done. rewrite (proj2 (Z.ltb_ge x current)) by lia. lia.
  - destruct Hin as [->|Hin]; [by left|right]. split; [done|]. rewrite Hv in Hor by done.
    rewrite (proj2 (Z.ltb_ge x current)) in Hor by lia. lia.
  - destruct Hin as [->|[Hin Hor]]; [split; [by left|right; lia]|]. split; [by right|].
    rewrite Hv by done. rewrite (proj2 (Z.ltb_lt x current)) by lia. lia.
  - destruct Hin as [->|Hin]; [by left|right]. split; [done|]. rewrite Hv in Hor by done.
    rewrite (proj2 (Z.ltb_lt x current)) in Hor by lia. lia.
  - destruct Hin as [Hin Hor]. split; [by right|]. specialize (Hf v Hin). lia.
  - destruct Hin as [->|Hin]; [rewrite Hx in Hor; lia|]. split; [done|]. rewrite Hv in Hor by done.
    rewrite (proj2 (Z.ltb_lt x current)) in Hor by lia. lia.
Qed.

Lemma app_tmp_ne (a b : bytes) : length a = length b -> a <> b ++ TmpSuffix.
Proof. intros Hl E. apply (f_equal length) in E. rewrite length_app in E. simpl in E. lia. Qed.

Lemma snapshotName_length v : 0 <= v -> length (snapshotName v) = 29%nat.
Proof. intros Hv. rewrite snapshotName_nonneg, length_app, digits_length by done. done. Qed.

Lemma atomicRemoveDir_removes name m dir :
  dir !! name = Some (Sub m) -> dir !! (name ++ TmpSuffix) = None ->
  atomicRemoveDir name dir = (delete name dir, Ok tt).
Proof.
  intros Hn Ht. unfold atomicRemoveDir, mbind, SE_bind, rename_dir, modify. rewrite Hn, Ht. f_equal.
  rewrite delete_insert_eq. apply delete_id. rewrite lookup_delete_ne; [done|].
  intros E. by destruct (app_tmp_ne name name eq_refl).
Qed.

(** The earliest version kept, as the traversal computes it. *)
Definition earliest_of (e : Z) (ks : list Z) : Z :=
  foldl (fun e v => if (e =? 0) || (v <? e) then v else e) e ks.

(** The traversal removes what is not kept and touches nothing else. *)
Lemma prune_visit current vs s :
  StronglySorted Z.gt vs -> (forall v, v ∈ vs -> 0 <= v < 2 ^ 63) ->
  (forall v, v ∈ vs -> exists m, pr_dir s !! snapshotName v = Some (Sub m)) ->
  (forall v, v ∈ vs -> pr_dir s !! (snapshotName v ++ TmpSuffix) = None) ->
  exists s', visit (prune_version (fun _ => false) current) vs s = (s', Ok tt) /\
    pr_earliest s' = earliest_of (pr_earliest s) (kept current (pr_counter s) vs) /\
    (forall v, v ∈ vs -> v ∉ kept current (pr_counter s) vs -> pr_dir s' !! snapshotName v = None) /\
    (forall name, (forall v, v ∈ vs -> v ∉ kept current (pr_counter s) vs -> name <> snapshotName v) ->
       pr_dir s' !! name = pr_dir s !! name).
Proof.
  intros Hs. revert s. induction Hs as [|x vs Hs IH Hf]; intros s Hr Hd Ht.
  { exists s. split; [done|]. split; [done|]. split; [by intros v ?%not_elem_of_nil|done]. }
  rewrite Forall_forall in Hf. cbn [visit kept]. unfold mbind, SE_bind.
  assert (Hne : forall v, v ∈ vs -> snapshotName v <> snapshotName x).
  { intros v Hv E. apply snapshotName_inj in E; [|apply Hr; by right|apply Hr; by left].
    subst v. specialize (Hf x Hv). lia. }
  assert (Hsame : forall s1, pr_dir s1 = pr_dir s -> exists s', visit (prune_version (fun _ => false) current) vs s1 = (s', Ok tt) /\
    pr_earliest s' = earliest_of (pr_earliest s1) (kept current (pr_counter s1) vs) /\
    (forall v, v ∈ x :: vs -> v ∉ x :: kept current (pr_counter s1) vs -> pr_dir s' !! snapshotName v = None) /\
    (forall name, (forall v, v ∈ x :: vs -> v ∉ x :: kept current (pr_counter s1) vs -> name <> snapshotName v) ->
       pr_dir s' !! name = pr_dir s !! name)).
  { intros s1 E1. destruct (IH s1) as (s' & E & He & Hrm & Hsm).
    { intros v Hv. apply Hr. by right. } { intros v Hv. rewrite E1. apply Hd. by right. }
    { intros v Hv. rewrite E1. apply Ht. by right. }
    exists s'. split; [done|]. split; [done|]. split.
    - intros v [->|Hv]%elem_of_cons Hk; [by destruct Hk; left|]. apply Hrm; [done|]. intros Hin. apply Hk. by right.
    - intros name Hn. rewrite <- E1. apply Hsm. intros v Hv Hk. apply Hn; [by right|].
      intros [->|Hin]%elem_of_cons; [|done]. specialize (Hf x Hv). lia. }
  unfold prune_version at 1. cbv beta. destruct (current <=? x).
  { destruct (Hsame (keep_version s x) eq_refl) as (s' & E & He & Hrest). exists s'. split; [exact E|]. split; [exact He|exact Hrest]. }
  destruct (0 <? pr_counter s).
  { destruct (Hsame (keep_version {| pr_dir := pr_dir s; pr_counter := pr_counter s - 1;
      pr_earliest := pr_earliest s |} x) eq_refl) as (s' & E & He & Hrest).
    exists s'. split; [exact E|]. split; [exact He|exact Hrest]. }
  cbv iota. destruct (Hd x ltac:(by left)) as [m Hm].
  rewrite (atomicRemoveDir_removes _ m) by (done || apply Ht; by left). cbv iota beta.
  set (s1 := {| pr_dir := delete (snapshotName x) (pr_dir s); pr_counter := pr_counter s; pr_earliest := pr_earliest s |}).
  destruct (IH s1) as (s' & E & He & Hrm & Hsm).
  { intros v Hv. apply Hr. by right. }
  { intros v Hv. subst s1. cbn [pr_dir]. rewrite lookup_delete_ne; [apply Hd; by right|]. intros E. by destruct (Hne v Hv). }
  { intros v Hv. subst s1. cbn [pr_dir]. rewrite lookup_delete_ne; [apply Ht; by right|].
    intros E. apply (app_tmp_ne (snapshotName x) (snapshotName v)); [|done].
    rewrite !snapshotName_length; [done|apply Hr; by right|apply Hr; by left]. }
  exists s'. split; [exact E|]. split; [exact He|]. split.
  - intros v [->|Hv]%elem_of_cons Hk; [|by apply Hrm].
    rewrite Hsm; [subst s1; apply lookup_delete_eq|]. intros v Hv _ Heq. by destruct (Hne v Hv).
  - intros name Hn. rewrite Hsm by (intros v Hv Hk; apply Hn; [by right|done]). subst s1. cbn [pr_dir].
    apply lookup_delete_ne. intros Hx. apply (Hn x); [by left| |done].
    intros Hin%kept_sub. specialize (Hf x Hin). lia.
Qed.

Lemma earliest_of_last e ks :
  StronglySorted Z.gt ks -> (forall v, v ∈ ks -> 0 <= v) -> (e = 0 \/ forall v, v ∈ ks -> v < e) ->
  earliest_of e ks = List.last ks e.
Proof.
  intros Hs. revert e. induction Hs as [|x ks Hs IH Hf]; intros e Hn He; [done|].
  rewrite Forall_forall in Hf. unfold earliest_of in *. cbn [foldl].
  assert (E : ((e =? 0) || (x <? e)) = true).
  { destruct He as [->|He]; [done|]. rewrite (proj2 (Z.ltb_lt x e)) by (apply He; by left). by rewrite orb_true_r. }
  rewrite E, IH.
  - destruct ks as [|y ks]; [done|]. clear. revert y. induction ks as [|z ks IHk]; intros y; [done|apply IHk].
  - intros v Hv. apply Hn. by right.
  - right. intros v Hv. specialize (Hf v Hv). lia.
Qed.

Lemma StronglySorted_snoc {A} (R : A -> A -> Prop) l x :
  StronglySorted R l -> (forall y, y ∈ l -> R y x) -> StronglySorted R (l ++ [x]).
Proof.
  induction 1 as [|y l Hs IH Hf]; intros Hx; [by repeat constructor|]. cbn [app]. constructor.
  - apply IH. intros z Hz. apply Hx. by right.
  - apply Forall_app. split; [done|]. constructor; [apply Hx; by left|constructor].
Qed.

Lemma reverse_sorted vs : StronglySorted Z.lt vs -> StronglySorted Z.gt (reverse vs).
Proof.
  induction 1 as [|x vs Hs IH Hf]; [constructor|]. rewrite reverse_cons. apply StronglySorted_snoc; [done|].
  intros y Hy. rewrite elem_of_reverse in Hy. rewrite Forall_forall in Hf. specialize (Hf y Hy). lia.
Qed.

Lemma between_reverse v current vs : between v current (reverse vs) = between v current vs.
Proof.
  unfold between, reverse. rewrite <- rev_alt, filter_rev. unfold zlen. by rewrite length_rev.
Qed.

Lemma kept_sorted current counter vs : StronglySorted Z.gt vs -> StronglySorted Z.gt (kept current counter vs).
Proof.
  intros Hs. revert counter. induction Hs as [|x vs Hs IH Hf]; intros c; cbn [kept]; [constructor|].
  rewrite Forall_forall in Hf.
  assert (H : forall c, Forall (Z.gt x) (kept current c vs)).
  { intros c'. apply Forall_forall. intros y Hy%kept_sub. by apply Hf. }
  destruct (current <=? x); [by constructor|]. destruct (0 <? c); [by constructor|done].
Qed.

Lemma last_min ks d : StronglySorted Z.gt ks -> ks <> [] -> List.last ks d ∈ ks /\ forall v, v ∈ ks -> List.last ks d <= v.
Proof.
  induction 1 as [|x ks Hs IH Hf]; intros Hne; [done|]. rewrite Forall_forall in Hf.
  destruct ks as [|y ks].
  - split; [by left|]. intros v ->%list_elem_of_singleton. simpl. lia.
  - destruct IH as [Hin Hmin]; [done|]. change (List.last (x :: y :: ks) d) with (List.last (y :: ks) d).
    split; [by right|]. intros v [->|Hv]%elem_of_cons; [|by apply Hmin]. specialize (Hf _ Hin). lia.
Qed.

(** What is left when the versions of [vs] that are not in [ks] are removed. *)
Lemma pruned_dir dir dir' (vs ks : list Z) :
  dir_ok dir -> (forall v, v ∈ vs <-> v ∈ snapshots dir) -> (forall v, v ∈ ks -> v ∈ vs) ->
  (forall v, v ∈ vs -> v ∉ ks -> dir' !! snapshotName v = None) ->
  (forall name, (forall v, v ∈ vs -> v ∉ ks -> name <> snapshotName v) -> dir' !! name = dir !! name) ->
  dir_ok dir' /\ forall v, v ∈ snapshots dir' <-> v ∈ ks.
Proof.
  intros Hok Hvs Hsub Hrm Hsm.
  assert (Hr : forall v, v ∈ vs -> 0 <= v < 2 ^ 63) by (intros v Hv%Hvs; by apply snapshots_elem in Hv as [? _]).
  assert (Hok' : dir_ok dir').
  { intros name m Hn Hi. destruct (decide (name ∈ map snapshotName (List.filter (fun v => bool_decide (v ∉ ks)) vs))) as [Hd|Hd].
    - apply list_elem_of_fmap in Hd as (v & -> & Hv). rewrite list_elem_of_In, filter_In, <- list_elem_of_In, bool_decide_eq_true in Hv.
      destruct Hv as [Hv Hk]. by rewrite Hrm in Hn.
    - rewrite Hsm in Hn; [by eapply Hok|]. intros v Hv Hk ->. apply Hd. apply list_elem_of_fmap_2.
      by rewrite list_elem_of_In, filter_In, <- list_elem_of_In, bool_decide_eq_true. }
  split; [done|]. intros v. rewrite snapshots_elem by done. split.
  - intros (Hv & m & Hm). destruct (decide (v ∈ ks)) as [|Hk]; [done|]. exfalso.
    destruct (decide (v ∈ vs)) as [Hx|Hx]; [by rewrite Hrm in Hm|]. apply Hx, Hvs, snapshots_elem; [done|].
    split; [done|]. exists m. rewrite <- Hsm; [done|]. intros w Hw _ Ew.
    apply snapshotName_inj in Ew; [by subst|done|by apply Hr].
  - intros Hk. pose proof (Hsub v Hk) as Hv. split; [by apply Hr|].
    rewrite Hsm; [by apply Hvs, snapshots_elem in Hv as [_ ?]|]. intros w Hw Hkw Ew.
    apply snapshotName_inj in Ew; [by subst|by apply Hr|by apply Hr].
Qed.

Lemma prune_dir_spec keepRecent dir current :
  dir_ok dir -> currentVersion dir = Ok current -> current ∈ snapshots dir ->
  (forall v, v ∈ snapshots dir -> dir !! (snapshotName v ++ TmpSuffix) = None) ->
  exists dir' e, prune_dir (fun _ => false) keepRecent dir = (dir', Ok e) /\ dir_ok dir' /\
    (forall v, v ∈ snapshots dir' <->
       v ∈ snapshots dir /\ (current <= v \/ between v current (snapshots dir) < keepRecent)) /\
    e ∈ snapshots dir' /\ (forall v, v ∈ snapshots dir' -> e <= v) /\
    (forall name, isSnapshotName name = false -> dir' !! name = dir !! name).
Proof.
  intros Hok Hcur Hin Htmp. unfold prune_dir. rewrite Hcur, traverse_visit by done. cbv iota.
  set (s0 := {| pr_dir := dir; pr_counter := keepRecent; pr_earliest := 0 |}).
  pose proof (reverse_sorted _ (snapshots_sorted dir Hok)) as Hs. set (vs := reverse (snapshots dir)) in *.
  assert (Hvs : forall v, v ∈ vs <-> v ∈ snapshots dir) by (intros v; apply elem_of_reverse).
  assert (Hr : forall v, v ∈ vs -> 0 <= v < 2 ^ 63) by (intros v Hv%Hvs; by apply snapshots_elem in Hv as [? _]).
  destruct (prune_visit current vs s0) as (s & E & He & Hrm & Hsm); [done|done| | |].
  { intros v Hv%Hvs. by apply snapshots_elem in Hv as [_ ?]. } { intros v Hv%Hvs. by apply Htmp. }
  rewrite E. subst s0. cbn [pr_dir pr_counter pr_earliest mbind res_bind] in *. set (ks := kept current keepRecent vs) in *.
  destruct (pruned_dir dir (pr_dir s) vs ks Hok Hvs (kept_sub current keepRecent vs) Hrm Hsm) as [Hok' Hmem].
  assert (Hks : StronglySorted Z.gt ks) by (by apply kept_sorted).
  assert (Hne : ks <> []).
  { intros E0. assert (current ∈ ks) as Hc; [|rewrite E0 in Hc; by apply elem_of_nil in Hc].
    apply kept_spec; [done|]. split; [by apply Hvs|left; lia]. }
  rewrite (earliest_of_last 0 ks Hks) in He; [|intros v Hv%kept_sub; by apply Hr|by left].
  destruct (last_min ks 0 Hks Hne) as [Hl Hmin].
  exists (pr_dir s), (List.last ks 0). split; [|split; [done|split; [|split; [by apply Hmem|split]]]].
  - f_equal. rewrite He. destruct (Z.eqb_spec (List.last ks 0) 0) as [E0|]; [|done].
    rewrite firstSnapshotVersion_head by done. pose proof (snapshots_sorted _ Hok') as Hs'.
    apply Hmem in Hl. destruct (snapshots (pr_dir s)) as [|v0 vs'] eqn:Ev; [by apply elem_of_nil in Hl|].
    f_equal. apply StronglySorted_inv in Hs' as [_ Hf]. rewrite Forall_forall in Hf.
    assert (List.last ks 0 <= v0) by (apply Hmin, Hmem; by left).
    apply elem_of_cons in Hl as [->|Hl]; [done|]. specialize (Hf _ Hl). lia.
  - intros v. rewrite Hmem. unfold ks. rewrite kept_spec, Hvs by done. unfold vs. by rewrite between_reverse.
  - intros v Hv%Hmem. by apply Hmin.
  - intros name Hi. apply Hsm. intros v Hv _ ->. rewrite snapshotName_is in Hi; [done|]. by apply Hr.
Qed.

(** *** Pruning with exports running *)

(** Names a removal of snapshots leaves alone. *)
Definition stays (current : Z) (name : bytes) : Prop :=
  name = snapshotName current \/ isSnapshotName name = false /\ HasSuffix name TmpSuffix = false.

Lemma tmp_not_snapshot v : 0 <= v -> isSnapshotName (snapshotName v ++ TmpSuffix) = false.
Proof.
  intros Hv. unfold isSnapshotName. apply andb_false_intro2. apply Z.eqb_neq. unfold zlen.
  rewrite length_app, snapshotName_length by done. done.
Qed.

Lemma HasSuffix_app a b : HasSuffix (a ++ b) b = true.
Proof.
  unfold HasSuffix. rewrite zlen_app. pose proof (zlen_nonneg a). rewrite (proj2 (Z.leb_le _ _)) by lia.
  rewrite length_app. replace (length a + length b - length b)%nat with (length a) by lia.
  rewrite drop_app_length. by apply bool_decide_eq_true_2.
Qed.

Lemma atomicRemoveDir_frame v dir dir' r current :
  dir_ok dir -> 0 <= v < current -> current < 2 ^ 63 ->
  atomicRemoveDir (snapshotName v) dir = (dir', r) ->
  dir_ok dir' /\ forall name, stays current name -> dir' !! name = dir !! name.
Proof.
  intros Hok Hv Hc E.
  assert (Hst : forall name, stays current name -> name <> snapshotName v /\ name <> snapshotName v ++ TmpSuffix).
  { intros name [->|[Hs Ht]]; split.
    - intros Ex%snapshotName_inj; lia.
    - apply app_tmp_ne. rewrite !snapshotName_length; lia.
    - intros ->. rewrite snapshotName_is in Hs by lia. done.
    - intros ->. by rewrite HasSuffix_app in Ht. }
  assert (Hins : forall m, dir_ok (<[snapshotName v ++ TmpSuffix := Sub m]> (delete (snapshotName v) dir))).
  { intros m name m' Hn Hs. destruct (decide (snapshotName v ++ TmpSuffix = name)) as [<-|];
      [rewrite tmp_not_snapshot in Hs by lia; done|].
    rewrite lookup_insert_ne in Hn by done. apply lookup_delete_Some in Hn as [_ Hn]. by eapply Hok. }
  assert (Hdel : forall d, dir_ok d -> dir_ok (delete (snapshotName v ++ TmpSuffix) d)).
  { intros d Hd name m' Hn. apply lookup_delete_Some in Hn as [_ Hn]. by eapply Hd. }
  unfold atomicRemoveDir, rename_dir, modify, mbind, SE_bind in E.
  destruct (dir !! snapshotName v) as [[m|?|]|]; [|by injection E as <- _..].
  assert (Hgood : dir_ok (delete (snapshotName v ++ TmpSuffix) (<[snapshotName v ++ TmpSuffix := Sub m]> (delete (snapshotName v) dir))) /\
    forall name, stays current name ->
      delete (snapshotName v ++ TmpSuffix) (<[snapshotName v ++ TmpSuffix := Sub m]> (delete (snapshotName v) dir)) !! name = dir !! name).
  { split; [apply Hdel, Hins|]. intros name Hn. destruct (Hst name Hn) as [H1 H2].
    by rewrite lookup_delete_ne, lookup_insert_ne, lookup_delete_ne by done. }
  destruct (dir !! (snapshotName v ++ TmpSuffix)) as [[m'|?|]|]; [case_decide|..]; injection E as <- _; done.
Qed.

(** One version: the earliest one stays below the current one once it is. *)
Lemma prune_version_keeps locked current v s :
  0 <= current < 2 ^ 63 -> 0 <= v < 2 ^ 63 -> dir_ok (pr_dir s) -> 0 <= pr_earliest s ->
  exists s1, prune_version locked current v s = (s1, Ok false) /\ dir_ok (pr_dir s1) /\
    (forall name, stays current name -> pr_dir s1 !! name = pr_dir s !! name) /\ 0 <= pr_earliest s1 /\
    (v = current \/ pr_earliest s <= current /\ v <= current -> pr_earliest s1 <= current).
Proof.
  intros Hc Hv Hok He. unfold prune_version.
  destruct (Z.leb_spec current v) as [Hcv|Hcv]; [|destruct (0 <? pr_counter s)].
  - eexists. split; [reflexivity|]. split; [done|]. split; [done|]. cbn [keep_version pr_earliest].
    destruct (Z.eqb_spec (pr_earliest s) 0), (Z.ltb_spec v (pr_earliest s)); cbn [orb]; lia.
  - eexists. split; [reflexivity|]. split; [done|]. split; [done|]. cbn [keep_version pr_earliest].
    destruct (Z.eqb_spec (pr_earliest s) 0), (Z.ltb_spec v (pr_earliest s)); cbn [orb]; lia.
  - destruct (locked v); [exists s; split; [done|]; split; [done|]; split; [done|]; lia|].
    destruct (atomicRemoveDir (snapshotName v) (pr_dir s)) as [d r] eqn:Ea.
    destruct (atomicRemoveDir_frame v (pr_dir s) d r current) as [Hok' Hsame]; [done|lia|lia|done|].
    eexists. split; [reflexivity|]. split; [done|]. split; [done|]. cbn [pr_earliest]. lia.
Qed.

Lemma prune_visit_keeps locked current vs s :
  0 <= current < 2 ^ 63 -> (forall v, v ∈ vs -> 0 <= v < 2 ^ 63) -> dir_ok (pr_dir s) -> 0 <= pr_earliest s ->
  (current ∈ vs /\ StronglySorted Z.gt vs \/ pr_earliest s <= current /\ forall v, v ∈ vs -> v <= current) ->
  exists s', visit (prune_version locked current) vs s = (s', Ok tt) /\ dir_ok (pr_dir s') /\
    (forall name, stays current name -> pr_dir s' !! name = pr_dir s !! name) /\ 0 <= pr_earliest s' <= current.
Proof.
  intros Hc. revert s. induction vs as [|v vs IH]; intros s Hr Hok He Hcase.
  { exists s. split; [done|]. split; [done|]. split; [done|].
    destruct Hcase as [[Hx _]|[Hx _]]; [by apply elem_of_nil in Hx|lia]. }
  destruct (prune_version_keeps locked current v s Hc) as (s1 & E1 & Hok1 & Hs1 & He1 & Hle1);
    [apply Hr; by left|done|done|].
  destruct (IH s1) as (s' & E & Hok' & Hs' & He'); [intros w Hw; apply Hr; by right|done|done| |].
  { destruct Hcase as [[Hin Hs]|[Hle Hall]].
    - apply StronglySorted_inv in Hs as [Hs Hf]. rewrite Forall_forall in Hf.
      apply elem_of_cons in Hin as [<-|Hin]; [right|by left]. split; [lia|]. intros w Hw. specialize (Hf w Hw). lia.
    - right. split; [apply Hle1; right; split; [done|apply Hall; by left]|]. intros w Hw. apply Hall. by right. }
  exists s'. cbn [visit]. unfold mbind, SE_bind. rewrite E1. split; [exact E|]. split; [done|].
  split; [|done]. intros name Hn. by rewrite Hs', Hs1.
Qed.

(** Whatever is being exported, pruning keeps the current snapshot and everything that is
    not a snapshot, and the log from a version that is not after the current one. *)
Lemma prune_dir_keeps locked keepRecent dir dir' r current :
  dir_ok dir -> currentVersion dir = Ok current -> current ∈ snapshots dir ->
  prune_dir locked keepRecent dir = (dir', r) ->
  dir_ok dir' /\ (forall name, stays current name -> dir' !! name = dir !! name) /\
  exists e, r = Ok e /\ 0 <= e <= current.
Proof.
  intros Hok Hcur Hin E. unfold prune_dir in E. rewrite Hcur, traverse_visit in E by done. cbv iota in E.
  assert (Hc : 0 <= current < 2 ^ 63) by (by apply snapshots_elem in Hin as [? _]).
  destruct (prune_visit_keeps locked current (reverse (snapshots dir))
    {| pr_dir := dir; pr_counter := keepRecent; pr_earliest := 0 |}) as (s & Ev & Hok' & Hs & He); [done| |done|done| |].
  { intros v Hv. rewrite elem_of_reverse in Hv. by apply snapshots_elem in Hv as [? _]. }
  { left. split; [by apply elem_of_reverse|]. by apply reverse_sorted, snapshots_sorted. }
  rewrite Ev in E. cbn [mbind res_bind pr_dir] in *. injection E as <- <-. split; [done|]. split; [done|].
  destruct (Z.eqb_spec (pr_earliest s) 0); [|by exists (pr_earliest s)].
  rewrite firstSnapshotVersion_head by done.
  assert (Hin' : current ∈ snapshots (pr_dir s)).
  { apply snapshots_elem; [done|]. split; [done|]. apply snapshots_elem in Hin as [_ [m Hm]]; [|done].
    exists m. rewrite Hs; [done|by left]. }
  pose proof (snapshots_sorted _ Hok') as Hsort. pose proof (fun v => proj1 (snapshots_elem (pr_dir s) v Hok')) as Hr.
  destruct (snapshots (pr_dir s)) as [|v0 vs] eqn:Ev0; [by apply elem_of_nil in Hin'|].
  exists v0. split; [done|]. apply StronglySorted_inv in Hsort as [_ Hf]. rewrite Forall_forall in Hf.
  split; [apply (Hr v0); by left|]. apply elem_of_cons in Hin' as [->|Hin']; [lia|]. specialize (Hf _ Hin'). lia.
Qed.
