(* ===== verification/DB.v ===== *)
(** * The database (memiavl/db.go)

    A [DB] is a multi-tree with a directory of snapshots, a write-ahead log and the changes
    of the version being built.  Its methods run under a mutex; the log writer and the
    snapshot rewrite are goroutines of their own, modelled as separate steps: the writer
    takes entries from the channel ([log_writer]), the rewrite is a job with a copy of the
    multi-tree ([run_rewrite]).  File locks, logging and the state-sync callback are left
    out. *)

From Stdlib Require Import Strings.Byte ZArith Lia.
From stdpp Require Import base list numbers strings gmap.
From S2P Require Import Prelude Binary Proto State Node Snapshot SnapshotWriter Cache Tree Wal MultiTree SnapshotDir.
Local Open Scope Z_scope.

Definition errReadOnly : error := "db is read-only".
Definition DefaultSnapshotInterval : Z := 1000.

Record walEntry : Type := { we_index : Z; we_data : WALEntry }.
Definition WALEntry_zero : WALEntry := {| Changesets := []; Upgrades := [] |}.

Record Options : Type := {
  CreateIfMissing : bool;
  InitialVersion : Z;
  ReadOnly : bool;
  InitialStores : list bytes;
  SnapshotKeepRecent : Z;
  SnapshotInterval : Z;
  TargetVersion : Z;
  AsyncCommitBuffer : Z;
  ZeroCopy : bool;
  CacheSize : Z;
  LoadForOverwriting : bool;
  HistoricalQueryLimit : Z
}.

Definition Validate (opts : Options) : res unit :=
  if ReadOnly opts && CreateIfMissing opts then Err "can't create db in read-only mode" else
  if ReadOnly opts && LoadForOverwriting opts then Err "can't rollback db in read-only mode" else
  if MaxInt64 <? InitialVersion opts then Err "initial version overflows int64" else
  if MaxInt64 <? TargetVersion opts then Err "target version overflows int64" else Ok tt.

Definition default_interval (opts : Options) : Z :=
  if SnapshotInterval opts =? 0 then DefaultSnapshotInterval else SnapshotInterval opts.

(** ** Log entries *)

Definition writeEntry (batch : list (Z * bytes)) (lastIndex : Z) (entry : walEntry) : res (list (Z * bytes)) :=
  bz ← WALEntry_Marshal (we_data entry);
  if we_index entry <=? lastIndex then Ok batch else Ok (batch ++ [(we_index entry, bz)]).

Fixpoint writeEntries (batch : list (Z * bytes)) (lastIndex : Z) (entries : list walEntry) : res (list (Z * bytes)) :=
  match entries with
  | [] => Ok batch
  | e :: entries => batch ← writeEntry batch lastIndex e; writeEntries batch lastIndex entries
  end.

(** One round of the log writer, on the entries received. *)
Definition log_write `{WalOps L} (log : L) (entries : list walEntry) : res L :=
  lastIndex ← wal_LastIndex log;
  batch ← writeEntries [] lastIndex entries;
  wal_WriteBatch log batch.

Section db.
  Context `{CacheOps C} `{WalOps L}.

(** The rewrite of a snapshot: the copy it works on, or its result, a new multi-tree, an
    error, or neither. *)
Inductive rewrite : Type :=
| Running (cloned : MultiTree C)
| Done (mtree : option (MultiTree C)) (err : option error).

Record DB : Type := {
  db_tree : MultiTree C;
  db_dir : DBDir;
  readOnly : bool;
  snapshotKeepRecent : Z;
  snapshotInterval : Z;
  db_wal : option L;
  walChanSize : Z;
  walChan : option (list walEntry);
  walQuit : option error;
  pendingLog : WALEntry;
  snapshotRewrite : option rewrite
}.

Definition with_tree (db : DB) (t : MultiTree C) : DB :=
  {| db_tree := t; db_dir := db_dir db; readOnly := readOnly db; snapshotKeepRecent := snapshotKeepRecent db;
     snapshotInterval := snapshotInterval db; db_wal := db_wal db; walChanSize := walChanSize db;
     walChan := walChan db; walQuit := walQuit db; pendingLog := pendingLog db; snapshotRewrite := snapshotRewrite db |}.
Definition with_dir (db : DB) (d : DBDir) : DB :=
  {| db_tree := db_tree db; db_dir := d; readOnly := readOnly db; snapshotKeepRecent := snapshotKeepRecent db;
     snapshotInterval := snapshotInterval db; db_wal := db_wal db; walChanSize := walChanSize db;
     walChan := walChan db; walQuit := walQuit db; pendingLog := pendingLog db; snapshotRewrite := snapshotRewrite db |}.
Definition with_pending (db : DB) (p : WALEntry) : DB :=
  {| db_tree := db_tree db; db_dir := db_dir db; readOnly := readOnly db; snapshotKeepRecent := snapshotKeepRecent db;
     snapshotInterval := snapshotInterval db; db_wal := db_wal db; walChanSize := walChanSize db;
     walChan := walChan db; walQuit := walQuit db; pendingLog := p; snapshotRewrite := snapshotRewrite db |}.
Definition with_wal (db : DB) (log : option L) (ch : option (list walEntry)) (quit : option error) : DB :=
  {| db_tree := db_tree db; db_dir := db_dir db; readOnly := readOnly db; snapshotKeepRecent := snapshotKeepRecent db;
     snapshotInterval := snapshotInterval db; db_wal := log; walChanSize := walChanSize db;
     walChan := ch; walQuit := quit; pendingLog := pendingLog db; snapshotRewrite := snapshotRewrite db |}.
Definition with_rewrite (db : DB) (r : option rewrite) : DB :=
  {| db_tree := db_tree db; db_dir := db_dir db; readOnly := readOnly db; snapshotKeepRecent := snapshotKeepRecent db;
     snapshotInterval := snapshotInterval db; db_wal := db_wal db; walChanSize := walChanSize db;
     walChan := walChan db; walQuit := walQuit db; pendingLog := pendingLog db; snapshotRewrite := r |}.

(** Operations of the embedded multi-tree and of the directory. *)
Definition on_mt {A} (m : SE (MultiTree C) A) : SE DB A := fun db =>
  let '(t, r) := m (db_tree db) in (with_tree db t, r).
Definition on_dir {A} (m : SE DBDir A) : SE DB A := fun db =>
  let '(d, r) := m (db_dir db) in (with_dir db d, r).
Definition unless_readOnly {A} (m : SE DB A) : SE DB A := fun db =>
  if readOnly db then (db, Err errReadOnly) else m db.

(** ** Snapshots on disk *)

(** Writing a snapshot under a name: into the directory that is there, or a new one. *)
Definition write_snapshot (ctx : bytes -> Context_) (name : bytes) (t : MultiTree C) : SE DBDir unit := fun dir =>
  match dir !! name with
  | Some (Link _) | Some Other => (dir, Err "not a directory")
  | sub =>
      let m := match sub with Some (Sub m) => m | _ => ∅ end in
      match WriteSnapshotWithContext ctx m t with
      | Ok m => (<[name := Sub m]> dir, Ok tt)
      | Err e => (dir, Err e)
      | Panic => (dir, Panic)
      end
  end.

Definition initEmptyDB (initialVersion : Z) : SE DBDir unit :=
  write_snapshot (fun _ => Background) (snapshotName 0) (NewEmptyMultiTree initialVersion 0) ;;
  updateCurrentSymlink (snapshotName 0).

Definition createDBIfNotExist (initialVersion : Z) : SE DBDir unit := fun dir =>
  match open_dir dir currentName with
  | Ok m => match m !! MetadataFileName with
            | Some _ => (dir, Ok tt)
            | None => initEmptyDB initialVersion dir
            end
  | _ => initEmptyDB initialVersion dir
  end.

(** Writing the multi-tree [t] to its snapshot and making it the current one. *)
Definition rewrite_snapshot (ctx : bytes -> Context_) (t : MultiTree C) : SE DBDir unit := fun dir =>
  let snapshotDir := snapshotName (Version t) in
  let tmpDir := snapshotDir ++ TmpSuffix in
  match write_snapshot ctx tmpDir t dir with
  | (dir, Ok _) => (rename_dir tmpDir snapshotDir ;; updateCurrentSymlink snapshotDir) dir
  | (dir, r) => (delete tmpDir dir, r)
  end.

Definition RewriteSnapshotWithContext (ctx : bytes -> Context_) : SE DB unit :=
  unless_readOnly (t ← gets db_tree; on_dir (rewrite_snapshot ctx t)).

(** ** Changes *)

Definition SetInitialVersion (v : Z) : SE DB unit :=
  unless_readOnly (
    t ← gets db_tree;
    if 0 <? Version t then throw "initial version can only be set before any commit"
    else
      on_mt (MultiTree.SetInitialVersion v) ;;
      t ← gets db_tree;
      on_dir (initEmptyDB (initialVersion t))).

Definition ApplyUpgrades (upgrades : list TreeNameUpgrade) : SE DB unit :=
  unless_readOnly (
    on_mt (MultiTree.ApplyUpgrades upgrades) ;;
    modify (fun db => with_pending db
      {| Changesets := Changesets (pendingLog db); Upgrades := Upgrades (pendingLog db) ++ upgrades |})).

(** Appending to the first pending change set of the store, if there is one. *)
Fixpoint merge_changes (name : bytes) (pairs : list KVPair) (l : list NamedChangeSet) : option (list NamedChangeSet) :=
  match l with
  | [] => None
  | cs :: l =>
      if decide (ncs_Name cs = name)
      then Some ({| ncs_Changeset := {| Pairs := Pairs (ncs_Changeset cs) ++ pairs |}; ncs_Name := ncs_Name cs |} :: l)
      else l ← merge_changes name pairs l; Some (cs :: l)
  end.

Definition pend_changes (name : bytes) (changeSet : ChangeSet) (l : list NamedChangeSet) : list NamedChangeSet :=
  match merge_changes name (Pairs changeSet) l with
  | Some l => l
  | None => SliceStable ncs_Name (l ++ [{| ncs_Changeset := changeSet; ncs_Name := name |}])
  end.

Definition applyChangeSet (name : bytes) (changeSet : ChangeSet) : SE DB unit :=
  if zlen (Pairs changeSet) =? 0 then mret tt
  else unless_readOnly (
    modify (fun db => with_pending db
      {| Changesets := pend_changes name changeSet (Changesets (pendingLog db)); Upgrades := Upgrades (pendingLog db) |}) ;;
    on_mt (MultiTree.ApplyChangeSet name changeSet)).

Definition ApplyChangeSet (name : bytes) (changeSet : ChangeSet) : SE DB unit :=
  if zlen (Pairs changeSet) =? 0 then mret tt else applyChangeSet name changeSet.

Definition ApplyChangeSets (changeSets : list NamedChangeSet) : SE DB unit :=
  if zlen changeSets =? 0 then mret tt
  else unless_readOnly (
    pending ← gets (fun db => Changesets (pendingLog db));
    if zlen pending =? 0 then
      modify (fun db => with_pending db {| Changesets := changeSets; Upgrades := Upgrades (pendingLog db) |}) ;;
      on_mt (MultiTree.ApplyChangeSets changeSets)
    else for_each (fun cs => applyChangeSet (ncs_Name cs) (ncs_Changeset cs)) changeSets).

(** ** The log writer *)

(** [channelBatchRecv] on a channel with [n] entries taken: at least one. *)
Definition log_writer (n : nat) : SE DB unit := fun db =>
  match db_wal db, walChan db, walQuit db with
  | Some log, Some ch, None =>
      match log_write log (take n ch) with
      | Ok log => (with_wal db (Some log) (Some (drop n ch)) None, Ok tt)
      | Err e => (with_wal db (Some log) (Some (drop n ch)) (Some e), Ok tt)
      | Panic => (db, Panic)
      end
  | _, _, _ => (db, Ok tt)
  end.

(** The writer runs until the channel is empty. *)
Definition flush : SE DB unit := fun db =>
  match walChan db with
  | Some ((_ :: _) as ch) => log_writer (length ch) db
  | _ => (db, Ok tt)
  end.

Definition waitAsyncCommit : SE DB unit := fun db =>
  match walChan db with
  | None => (db, Ok tt)
  | Some _ =>
      let '(db, r) := flush db in
      (with_wal db (db_wal db) None None, match walQuit db with Some e => Err e | None => r end)
  end.

(** ** Background rewrite of the snapshot *)

Definition CommittedVersion (db : DB) : res Z :=
  log ← of_option (db_wal db);
  lastIndex ← wal_LastIndex log;
  if lastIndex =? 0 then SnapshotVersion (db_tree db)
  else Ok (walVersion lastIndex (initialVersion (db_tree db))).

Definition reloadMultiTree (mtree : MultiTree C) : SE DB unit :=
  modify (fun db => with_tree db mtree) ;;
  pending ← gets pendingLog;
  on_mt (applyWALEntry pending).

(** The goroutine, on the current directory; errors of the truncation are only logged. *)
Definition pruneSnapshots (locked : Z -> bool) : SE DB unit := fun db =>
  let '(dir, r) := prune_dir locked (snapshotKeepRecent db) (db_dir db) in
  let db := with_dir db dir in
  match r, db_wal db with
  | Ok earliest, Some log =>
      match wal_TruncateFront log (walIndex (i64 (earliest + 1)) (initialVersion (db_tree db))) with
      | Ok log => (with_wal db (Some log) (walChan db) (walQuit db), Ok tt)
      | _ => (db, Ok tt)
      end
  | _, _ => (db, Ok tt)
  end.

Definition checkAsyncCommit (db : DB) : res unit :=
  match walQuit db with Some e => Err e | None => Ok tt end.

(** The loop that waits for the log: [fuel] rounds in which the log does not change. *)
Fixpoint wait_committed (fuel : nat) (db : DB) : res unit :=
  match fuel with
  | O => out_of_fuel
  | S fuel =>
      v ← CommittedVersion db;
      if Version (db_tree db) =? v then Ok tt else wait_committed fuel db
  end.

Definition checkBackgroundSnapshotRewrite (locked : Z -> bool) : SE DB unit := fun db =>
  match snapshotRewrite db with
  | Some (Done mtree err) =>
      let db := with_rewrite db None in
      match mtree with
      | None => (db, match err with Some e => Err e | None => Ok tt end)
      | Some mtree =>
          (flush ;;
           (fun db => (db, wait_committed 1 db)) ;;
           log ← gets db_wal;
           log ← lift (of_option log);
           mtree ← lift (let '(t, r) := CatchupWAL log 0 mtree in _ ← r; Ok t);
           reloadMultiTree mtree ;;
           pruneSnapshots locked) db
      end
  | _ => (db, Ok tt)
  end.

(** [errors.Join]: both checks run, and an error of either is returned. *)
Definition checkAsyncTasks (locked : Z -> bool) : SE DB unit := fun db =>
  let r1 := checkAsyncCommit db in
  let '(db, r2) := checkBackgroundSnapshotRewrite locked db in
  (db, match r1 with Ok _ => r2 | _ => r1 end).

Definition rewriteSnapshotBackground : SE DB unit := fun db =>
  match snapshotRewrite db with
  | Some _ => (db, Err "there's another ongoing snapshot rewriting process")
  | None => (with_rewrite db (Some (Running (MultiTree.Copy (db_tree db) 0))), Ok tt)
  end.

(** The job of the goroutine. *)
Definition run_rewrite (ctx : bytes -> Context_) : SE DB unit := fun db =>
  match snapshotRewrite db, db_wal db with
  | Some (Running cloned), Some log =>
      match rewrite_snapshot ctx cloned (db_dir db) with
      | (dir, Ok _) =>
          let result :=
            m ← open_dir dir currentName;
            mtree ← LoadMultiTree m (mt_zeroCopy cloned) 0;
            let '(t, r) := CatchupWAL log 0 mtree in _ ← r; Ok t in
          (with_rewrite (with_dir db dir)
             (Some match result with
                   | Ok mtree => Done (Some mtree) None
                   | Err e => Done None (Some e)
                   | Panic => Done None None
                   end),
           match result with Panic => Panic | _ => Ok tt end)
      | (dir, Err _) => (with_rewrite (with_dir db dir) (Some (Done None None)), Ok tt)
      | (dir, Panic) => (with_dir db dir, Panic)
      end
  | _, _ => (db, Ok tt)
  end.

Definition rewriteIfApplicable (height : Z) : SE DB unit := fun db =>
  if snapshotInterval db =? 0 then (db, Panic) else
  if negb (Z.rem height (snapshotInterval db) =? 0) then (db, Ok tt) else
  let '(db, _) := rewriteSnapshotBackground db in (db, Ok tt).

(** ** Commit *)

(** Handing the entry to the writer, or writing it. *)
Definition log_entry (entry : walEntry) : SE DB unit := fun db =>
  match db_wal db with
  | None => (db, Ok tt)
  | Some log =>
      if 0 <=? walChanSize db then
        (with_wal db (Some log) (Some (default [] (walChan db) ++ [entry])) (walQuit db), Ok tt)
      else
        match log_write log [entry] with
        | Ok log => (with_wal db (Some log) (walChan db) (walQuit db), Ok tt)
        | Err e => (db, Err e)
        | Panic => (db, Panic)
        end
  end.

Definition Commit (locked : Z -> bool) : SE DB Z :=
  unless_readOnly (
    v ← on_mt (MultiTree.SaveVersion true);
    entry ← gets (fun db => {| we_index := walIndex v (initialVersion (db_tree db)); we_data := pendingLog db |});
    log_entry entry ;;
    modify (fun db => with_pending db WALEntry_zero) ;;
    checkAsyncTasks locked ;;
    rewriteIfApplicable v ;;
    mret v).

Definition Reload : SE DB unit :=
  dir ← gets db_dir;
  t ← gets db_tree;
  m ← lift (open_dir dir currentName);
  mtree ← lift (LoadMultiTree m (mt_zeroCopy t) (cacheSize t));
  reloadMultiTree mtree.

Definition Copy (db : DB) : DB :=
  {| db_tree := MultiTree.Copy (db_tree db) (cacheSize (db_tree db)); db_dir := db_dir db; readOnly := false;
     snapshotKeepRecent := 0; snapshotInterval := 0; db_wal := None; walChanSize := 0; walChan := None;
     walQuit := None; pendingLog := WALEntry_zero; snapshotRewrite := None |}.

(** ** Methods of the multi-tree under the lock *)

Definition db_SaveVersion (updateCommitInfo : bool) : SE DB Z := unless_readOnly (on_mt (MultiTree.SaveVersion updateCommitInfo)).
Definition db_WorkingCommitInfo (db : DB) : res CommitInfo := MultiTree.WorkingCommitInfo (db_tree db).
Definition db_UpdateCommitInfo : SE DB unit := fun db =>
  if readOnly db then (db, Panic) else on_mt MultiTree.UpdateCommitInfo db.
Definition db_TreeByName (db : DB) (name : bytes) : res (option (Tree.Tree C)) := MultiTree.TreeByName (db_tree db) name.
Definition RewriteSnapshotBackground : SE DB unit := unless_readOnly rewriteSnapshotBackground.

(** [WriteSnapshotWithContext] into a directory that need not be the one of the database. *)
Definition db_WriteSnapshotWithContext (ctx : bytes -> Context_) (db : DB) (dir : MDir) : res MDir :=
  MultiTree.WriteSnapshotWithContext ctx dir (db_tree db).

(** The rewrite is cancelled; the log and the directory stay as they are. *)
Definition Close : SE DB unit := fun db =>
  let '(db, r) := waitAsyncCommit db in
  let db := with_rewrite db None in
  (with_wal (with_tree db (MultiTree.Close (db_tree db))) None (walChan db) (walQuit db), r).

(** ** Loading *)

(** Removing the snapshots after the target version. *)
Definition drop_newer (target : Z) (dir : DBDir) : SE DBDir unit :=
  traverseSnapshots (fun version =>
    if version <=? i64 target then mret true
    else fun d => let '(d, _) := atomicRemoveDir (snapshotName version) d in (d, Ok false)) dir false.

(** Rolling back to the target version: the link, the log, then the newer snapshots. *)
Definition overwrite (target : Z) (snapshot : bytes) (init : Z) (dir : DBDir) (log : L) : res (DBDir * L) :=
  currentSnapshot ← Readlink dir currentName;
  dir ← (if bool_decide (snapshot = currentSnapshot) then Ok dir
         else let '(d, r) := updateCurrentSymlink snapshot dir in _ ← r; Ok d);
  log ← wal_TruncateBack log (walIndex (i64 target) init);
  dir ← (let '(d, r) := drop_newer target dir dir in _ ← r; Ok d);
  Ok (dir, log).

(** [log] is the log that [OpenWAL] opens. *)
Definition Load (dir : DBDir) (log : L) (opts : Options) : res DB :=
  _ ← Validate opts;
  dir ← (if CreateIfMissing opts
         then let '(d, r) := createDBIfNotExist (InitialVersion opts) dir in _ ← r; Ok d
         else Ok dir);
  let dir := if ReadOnly opts then dir else removeTmpDirs dir in
  snapshot ← (if 0 <? TargetVersion opts
              then v ← seekSnapshot dir (TargetVersion opts); Ok (snapshotName v)
              else Ok currentName);
  m ← open_dir dir snapshot;
  mtree ← LoadMultiTree m (ZeroCopy opts) (CacheSize opts);
  mtree ← (if (TargetVersion opts =? 0) || (Version mtree <? i64 (TargetVersion opts))
           then let '(t, r) := CatchupWAL log (i64 (TargetVersion opts)) mtree in _ ← r; Ok t
           else Ok mtree);
  '(dir, log) ← (if LoadForOverwriting opts && (0 <? TargetVersion opts)
                 then overwrite (TargetVersion opts) snapshot (initialVersion mtree) dir log
                 else Ok (dir, log));
  let db := {| db_tree := mtree; db_dir := dir; readOnly := ReadOnly opts;
               snapshotKeepRecent := SnapshotKeepRecent opts; snapshotInterval := default_interval opts;
               db_wal := Some log; walChanSize := AsyncCommitBuffer opts; walChan := None; walQuit := None;
               pendingLog := WALEntry_zero; snapshotRewrite := None |} in
  if negb (ReadOnly opts) && (Version mtree =? 0) && (0 <? zlen (InitialStores opts)) then
    let '(db, r) := ApplyUpgrades
      (map (fun name => {| up_Name := name; up_RenameFrom := []; up_Delete := false |}) (InitialStores opts)) db in
    _ ← r; Ok db
  else Ok db.

Definition GetLatestVersion (dir : DBDir) (log : L) : res Z :=
  match m ← open_dir dir currentName; readMetadata m with
  | Ok metadata =>
      lastIndex ← wal_LastIndex log;
      Ok (walVersion lastIndex (u64 (md_InitialVersion metadata)))
  | Err e => if bool_decide (e = ErrNotExist) then Ok 0 else Err e
  | Panic => Panic
  end.
End db.
Arguments rewrite : clear implicits.
Arguments DB : clear implicits.
