(* ===== verification/DBInv.v ===== *)
(** * Pending changes and the log

    The pending log of a database replays to its working state, whatever the way its
    changes were merged, and the writer appends the queued entries to the log. *)

From Stdlib Require Import Strings.Byte ZArith Lia.
From stdpp Require Import base list numbers strings gmap.
From S2P Require Import Prelude Binary Proto ProtoInv ProtoCodec State Node Snapshot SnapshotWriter Cache Tree Wal.
From S2P Require Import MultiTree MultiTreeInv MultiTreeSim SnapshotDir DB.
Local Open Scope Z_scope.

(** ** The writer *)

(** The queued entries of consecutive blocks. *)
Fixpoint queue_of (i : Z) (bs : list WALEntry) : list walEntry :=
  match bs with
  | [] => []
  | b :: bs => {| we_index := i; we_data := b |} :: queue_of (i + 1) bs
  end.

(** The blocks fit the encoding. *)
Definition encodable (b : WALEntry) : Prop := zlen (WALEntry_bytes b) < 2 ^ 63.

Lemma queue_of_app i a b : queue_of i (a ++ b) = queue_of i a ++ queue_of (i + zlen a) b.
Proof.
  revert i. induction a as [|x a IH]; intros i; cbn [app queue_of]; [by rewrite Z.add_0_r|].
  rewrite IH, zlen_cons. do 3 f_equal. lia.
Qed.

Lemma queue_of_length i bs : length (queue_of i bs) = length bs.
Proof. revert i. induction bs as [|b bs IH]; intros i; cbn [queue_of length]; [done|]. by rewrite IH. Qed.

Lemma queue_of_take i bs n : take n (queue_of i bs) = queue_of i (take n bs).
Proof. revert i n. induction bs as [|b bs IH]; intros i [|n]; cbn [queue_of take]; [done..|]. by rewrite IH. Qed.
Lemma queue_of_drop i bs n : drop n (queue_of i bs) = queue_of (i + zlen (take n bs)) (drop n bs).
Proof.
  revert i n. induction bs as [|b bs IH]; intros i [|n]; cbn [queue_of take drop]; try done.
  - by rewrite Z.add_0_r.
  - rewrite IH, zlen_cons. f_equal. lia.
Qed.

Lemma writeEntries_new last i bs batch :
  last < i -> Forall encodable bs ->
  writeEntries batch last (queue_of i bs) =
    Ok (batch ++ map (fun e => (we_index e, WALEntry_bytes (we_data e))) (queue_of i bs)).
Proof.
  intros Hi Hb. revert i batch Hi. induction Hb as [|b bs Hb Hbs IH]; intros i batch Hi; cbn [queue_of writeEntries map].
  { by rewrite app_nil_r. }
  unfold writeEntry. cbn [we_data we_index]. unfold encodable in Hb.
  rewrite WALEntry_Marshal_bytes by lia. cbn [mbind res_bind].
  rewrite (proj2 (Z.leb_gt _ _)) by lia. cbn [mbind res_bind]. rewrite IH by lia. by rewrite <- app_assoc.
Qed.

Lemma in_order_queue i bs :
  in_order (i - 1) (map (fun e => (we_index e, WALEntry_bytes (we_data e))) (queue_of i bs)) = true.
Proof.
  revert i. induction bs as [|b bs IH]; intros i; cbn [queue_of map in_order we_index]; [done|].
  rewrite (proj2 (Z.eqb_eq _ _)) by lia. cbn [andb]. specialize (IH (i + 1)).
  by replace (i + 1 - 1) with i in IH by lia.
Qed.

Lemma queue_bytes i bs :
  (map (fun e => (we_index e, WALEntry_bytes (we_data e))) (queue_of i bs)).*2 = map WALEntry_bytes bs.
Proof. revert i. induction bs as [|b bs IH]; intros i; cbn [queue_of map]; [done|]. rewrite fmap_cons, IH. done. Qed.

Lemma log_write_appends `{WalLaws L} (log : L) bs :
  Forall encodable bs ->
  exists log', log_write log (queue_of (wv_last (view log) + 1) bs) = Ok log' /\
    view log' = wv_append (view log) (map WALEntry_bytes bs).
Proof.
  intros Hb. unfold log_write. rewrite wal_LastIndex_view. cbn [mbind res_bind].
  rewrite writeEntries_new by (done || lia). cbn [mbind res_bind app].
  set (batch := map _ _).
  assert (Ho : in_order (wv_last (view log)) batch = true).
  { subst batch. replace (wv_last (view log)) with (wv_last (view log) + 1 - 1) at 1 by lia. apply in_order_queue. }
  destruct (wal_WriteBatch_view log batch Ho) as (log' & -> & Hv). exists log'. split; [done|].
  rewrite Hv. subst batch. by rewrite queue_bytes.
Qed.

(** ** Merging changes *)

Section pending.
Context `{CacheOps C}.
Implicit Types (m : gmap bytes (Tree C)) (l : list NamedChangeSet).

Definition names_of l : list bytes := map ncs_Name l.
Definition named (name : bytes) (cs : ChangeSet) : NamedChangeSet := {| ncs_Changeset := cs; ncs_Name := name |}.

Lemma ApplyChangeSet_app (tr : Tree C) a b :
  Tree.ApplyChangeSet tr {| Pairs := a ++ b |} =
  Tree.ApplyChangeSet (Tree.ApplyChangeSet tr {| Pairs := a |}) {| Pairs := b |}.
Proof. unfold Tree.ApplyChangeSet. cbn [Pairs]. by rewrite foldl_app. Qed.

(** Changes of different stores commute. *)
Lemma apply_named_comm m c1 c2 :
  ncs_Name c1 <> ncs_Name c2 -> apply_named (apply_named m c1) c2 = apply_named (apply_named m c2) c1.
Proof. intros Hne. unfold apply_named. by rewrite alter_alter_ne. Qed.

Lemma foldl_named_last m l c :
  ncs_Name c ∉ names_of l -> foldl apply_named (apply_named m c) l = apply_named (foldl apply_named m l) c.
Proof.
  revert m. induction l as [|x l IH]; intros m Hn; [done|]. cbn [names_of map foldl] in *.
  apply not_elem_of_cons in Hn as [Hne Hn]. rewrite <- IH by done. by rewrite apply_named_comm.
Qed.

Lemma foldl_named_perm m l l' :
  NoDup (names_of l) -> l ≡ₚ l' -> foldl apply_named m l = foldl apply_named m l'.
Proof.
  intros Hd Hp. revert m Hd. induction Hp as [|x l l' Hp IH|x y l|l l1 l2 Hp1 IH1 Hp2 IH2]; intros m Hd; [done|..].
  - cbn [foldl]. apply IH. by apply NoDup_cons in Hd as [_ ?].
  - cbn [foldl]. f_equal. apply apply_named_comm. cbn [names_of map] in Hd.
    apply NoDup_cons in Hd as [Hx _]. apply not_elem_of_cons in Hx as [Hx _]. done.
  - rewrite IH1 by done. apply IH2. unfold names_of. by rewrite <- Hp1.
Qed.

Lemma merge_changes_spec name pairs l l' m :
  NoDup (names_of l) -> merge_changes name pairs l = Some l' ->
  names_of l' = names_of l /\ name ∈ names_of l /\
  foldl apply_named m l' = apply_named (foldl apply_named m l) (named name {| Pairs := pairs |}).
Proof.
  revert l' m. induction l as [|c l IH]; intros l' m Hd E; cbn [merge_changes] in E; [done|].
  cbn [names_of map] in Hd. apply NoDup_cons in Hd as [Hx Hd]. case_decide as Hn.
  - injection E as <-. split; [done|]. split; [rewrite <- Hn; by left|]. cbn [foldl]. subst name.
    rewrite <- foldl_named_last by done. f_equal. unfold apply_named, named. cbn [ncs_Name ncs_Changeset].
    rewrite alter_alter_eq. apply alter_ext. intros tr _. unfold compose.
    rewrite ApplyChangeSet_app. by destruct (ncs_Changeset c).
  - destruct (merge_changes name pairs l) as [l1|] eqn:E1; [|done]. injection E as <-.
    destruct (IH l1 (apply_named m c) Hd eq_refl) as (Hnames & Hin & Hf). cbn [foldl]. unfold names_of in *. cbn [map].
    split; [by rewrite Hnames|]. split; [by right|]. exact Hf.
Qed.

Lemma merge_changes_None name pairs l : merge_changes name pairs l = None -> name ∉ names_of l.
Proof.
  induction l as [|c l IH]; cbn [merge_changes names_of map]; [intros _; apply not_elem_of_nil|].
  case_decide; [done|]. destruct (merge_changes _ _ _); [done|]. rewrite elem_of_cons. intros _ [->|Hin]; [done|].
  by apply IH.
Qed.

(** The pending change sets stand for the changes made so far, then the new ones. *)
Lemma pend_changes_spec name cs l m :
  NoDup (names_of l) ->
  NoDup (names_of (pend_changes name cs l)) /\
  (forall n, n ∈ names_of (pend_changes name cs l) -> n = name \/ n ∈ names_of l) /\
  foldl apply_named m (pend_changes name cs l) = apply_named (foldl apply_named m l) (named name cs).
Proof.
  intros Hd. unfold pend_changes. destruct (merge_changes name (Pairs cs) l) as [l'|] eqn:E.
  - destruct (merge_changes_spec name (Pairs cs) l l' m Hd E) as (Hn & Hin & Hf). rewrite Hn.
    split; [done|]. split; [by right|]. rewrite Hf. by destruct cs.
  - apply merge_changes_None in E. change {| ncs_Changeset := cs; ncs_Name := name |} with (named name cs).
    set (l' := l ++ [named name cs]).
    assert (Hd' : NoDup (names_of l')).
    { subst l'. unfold names_of. rewrite map_app. cbn [map named ncs_Name].
      apply NoDup_app. split; [done|]. split; [|apply NoDup_singleton].
      intros x Hx ->%list_elem_of_singleton. done. }
    pose proof (SliceStable_perm ncs_Name l') as Hp. split; [|split].
    + unfold names_of. by rewrite Hp.
    + intros n. unfold names_of. rewrite Hp. fold (names_of l'). subst l'. unfold names_of. rewrite map_app.
      intros [Hn|Hn%list_elem_of_singleton]%elem_of_app; [by right|by left].
    + rewrite (foldl_named_perm m _ l') by (done || unfold names_of; by rewrite Hp). subst l'. by rewrite foldl_app.
Qed.

(** ** States with the same stores *)

Implicit Types (t base live : MultiTree C) (pend : WALEntry).

Lemma to_map_inj (l1 l2 : list (NamedTree C)) :
  sorted_by nt_Name l1 -> sorted_by nt_Name l2 -> to_map l1 = to_map l2 -> l1 = l2.
Proof.
  intros H1 H2 E. apply (sorted_by_unique nt_Name); [done|done|].
  pose proof (sorted_by_NoDup _ _ H1) as D1. pose proof (sorted_by_NoDup _ _ H2) as D2.
  apply NoDup_Permutation; [by eapply NoDup_fmap_1|by eapply NoDup_fmap_1|].
  assert (Hin : forall (l0 : list (NamedTree C)) (e : NamedTree C), NoDup (map nt_Name l0) -> e ∈ l0 <-> to_map l0 !! nt_Name e = Some (nt_Tree e)).
  { intros l0 e Hd. rewrite to_map_lookup by done. split.
    - intros [i Hi]%list_elem_of_lookup. eauto.
    - intros (i & e' & Hi & Hn & Ht). assert (e' = e) as -> by (destruct e, e'; simpl in *; congruence).
      by eapply list_elem_of_lookup_2. }
  intros e. by rewrite !Hin, E.
Qed.

Lemma stores_sim t1 t2 :
  mt_ok t1 -> mt_ok t2 -> Version t1 = Version t2 -> initialVersion t1 = initialVersion t2 ->
  stores t1 = stores t2 -> mt_sim t1 t2.
Proof.
  intros H1 H2 Hv Hi E. assert (El : trees t1 = trees t2) by (apply to_map_inj; [apply H1|apply H2|done]).
  split; [done|done| |by rewrite El]. apply map_eq. intros name. apply option_eq. intros i.
  rewrite (mo_index t1 H1 name i), (mo_index t2 H2 name i). by rewrite El.
Qed.

Lemma applyWALEntry_norm e t : applyWALEntry (norm_entry e) t = applyWALEntry e t.
Proof.
  assert (Hp : forall (tr : Tree C) p, apply_pair tr (norm_pair p) = apply_pair tr p).
  { intros tr p. unfold apply_pair. cbn [norm_pair kv_Delete kv_Key kv_Value]. destruct (kv_Delete p); [done|].
    unfold set. by destruct (kv_Value p) as [[|]|]. }
  assert (Hc : forall (tr : Tree C) cs, Tree.ApplyChangeSet tr (norm_changeset cs) = Tree.ApplyChangeSet tr cs).
  { intros tr cs. unfold Tree.ApplyChangeSet, norm_changeset. cbn [Pairs]. revert tr.
    induction (Pairs cs) as [|p ps IH]; intros tr; [done|]. cbn [map foldl]. by rewrite Hp. }
  unfold applyWALEntry, mbind, SE_bind. cbn [norm_entry Upgrades Changesets].
  destruct (MultiTree.ApplyUpgrades (Upgrades e) t) as [s [[]|err|]]; [|done|done].
  unfold MultiTree.ApplyChangeSets. revert s. induction (Changesets e) as [|cs css IH]; intros s; [done|].
  cbn [map for_each]. unfold mbind, SE_bind.
  assert (E : MultiTree.ApplyChangeSet (ncs_Name (norm_named cs)) (ncs_Changeset (norm_named cs)) s =
    MultiTree.ApplyChangeSet (ncs_Name cs) (ncs_Changeset cs) s).
  { unfold MultiTree.ApplyChangeSet, gets, lift, modify, mbind, SE_bind. cbn [norm_named ncs_Name ncs_Changeset].
    destruct (treesByName s !! ncs_Name cs) as [i|]; [|done]. destruct (of_option _); [|done|done]. do 2 f_equal.
    apply list_eq. intros j. destruct (decide (i = j)) as [->|]; [|by rewrite !list_lookup_alter_ne].
    rewrite !list_lookup_alter_eq. destruct (trees s !! j); [|done]. simpl. unfold on_tree. by rewrite Hc. }
  rewrite E. clear E. destruct (MultiTree.ApplyChangeSet (ncs_Name cs) (ncs_Changeset cs) s) as [s' [[]|err|]]; [apply IH|done|done].
Qed.

Lemma saved_state_sim t1 t2 :
  mt_sim t1 t2 -> mt_sim (saved_state t1 true) (saved_state t2 true) /\
  lastCommitInfo (saved_state t1 true) = lastCommitInfo (saved_state t2 true).
Proof.
  intros [Hi Hv Hx Ht]. assert (Hl : Forall2 same_entry (map (on_tree bump) (trees t1)) (map (on_tree bump) (trees t2))).
  { apply Forall2_fmap. apply (Forall2_impl _ _ _ _ Ht). intros e1 e2 [Hn [Hev Her]]. split; [done|].
    split; [|done]. cbn. by rewrite Hev. }
  unfold saved_state, saved_info. split.
  - split; [done| |done|done]. unfold Version. cbn. fold (Version t1) (Version t2). by rewrite Hv, Hi.
  - cbn [lastCommitInfo with_commit trees with_trees initialVersion]. rewrite Hv, Hi. f_equal.
    unfold infos. revert Hl. generalize (map (on_tree bump) (trees t1)), (map (on_tree bump) (trees t2)).
    induction 1 as [|e1 e2 l1 l2 [Hn [_ Her]] _ IH]; [done|]. cbn [map]. rewrite IH, Hn. unfold RootHash. by rewrite Her.
Qed.

(** A block on a state that agrees. *)
Lemma commit_block_sim b t1 t2 t1' :
  mt_ok t1 -> mt_ok t2 -> Version t1 < MaxInt64 -> mt_sim t1 t2 -> commit_block b t1 = (t1', Ok tt) ->
  exists t2', commit_block b t2 = (t2', Ok tt) /\ mt_sim t1' t2' /\ lastCommitInfo t1' = lastCommitInfo t2'.
Proof.
  intros H1 H2 Hl Hs E. unfold commit_block in E. apply SE_bind_ok in E as (a & [] & Ea & E).
  apply SE_bind_ok in E as (a' & v & Ev & [= <-]).
  destruct (applyWALEntry_sim b _ _ _ _ Hs Ea) as (c & [] & Ec & Hs' & _). rewrite applyWALEntry_norm in Ec.
  assert (Happ : forall t t', mt_ok t -> Version t < MaxInt64 -> applyWALEntry b t = (t', Ok tt) -> mt_ok t' /\ Version t' = Version t).
  { intros t t' Ht Hlt F. unfold applyWALEntry in F. apply SE_bind_ok in F as (x & [] & F1 & F2).
    apply ApplyUpgrades_ok in F1 as (Hx & _ & Hc & _); [|done|done].
    apply ApplyChangeSets_inv in F2 as (Ht' & Hv & _); [|done]. split; [done|]. rewrite Hv. unfold Version. by rewrite Hc. }
  destruct (Happ t1 a H1 Hl Ea) as [Ha Hva]. destruct (Happ t2 c H2) as [Hc Hvc]; [by rewrite <- (sim_version _ _ Hs)|done|].
  rewrite SaveVersion_state in Ev by (done || lia). injection Ev as <- _.
  destruct (saved_state_sim a c Hs') as [Hss Hci]. exists (saved_state c true). split; [|done].
  unfold commit_block. apply SE_bind_ok. eexists _, _. split; [exact Ec|].
  apply SE_bind_ok. eexists _, _. split; [|reflexivity]. apply SaveVersion_state; [done|].
  rewrite <- (sim_version _ _ Hs'). lia.
Qed.

(** ** The pending log *)

(** The working state is the base with the pending upgrades and changes. *)
Record pending_ok base pend live : Prop := {
  po_base : mt_ok base;
  po_live : mt_ok live;
  po_frame : same_frame base live;
  po_bound : Version base < MaxInt64;
  po_names : NoDup (names_of (Changesets pend));
  po_stores : exists m,
    upgrade_maps (new_tree base) (stores base) (Upgrades pend) = Some m /\
    Forall (fun cs => is_Some (m !! ncs_Name cs)) (Changesets pend) /\
    stores live = foldl apply_named m (Changesets pend)
}.

Lemma pending_replays base pend live :
  pending_ok base pend live -> exists w, applyWALEntry pend base = (w, Ok tt) /\ mt_ok w /\ mt_sim w live.
Proof.
  intros [Hb Hl (Hi & Hc & _) Hv Hn (m & Hu & Hf & Hs)].
  destruct (ApplyUpgrades_done _ base m Hb Hu) as (u & Eu & Hfr & Hm).
  destruct (ApplyUpgrades_ok _ base u Hb Hv Eu) as [Hu' (Hiu & Hcu & _)].
  destruct (ApplyChangeSets_ok (Changesets pend) u Hu') as (w & Ew & Hw & Hvw & Hiw & Hsw); [by rewrite Hm|].
  exists w. split; [|split; [done|]].
  - unfold applyWALEntry. apply SE_bind_ok. eauto.
  - apply stores_sim; [done|done| | |].
    + rewrite Hvw. unfold Version. by rewrite Hcu, Hc.
    + by rewrite Hiw, Hiu, Hi.
    + by rewrite Hsw, Hm, Hs.
Qed.

Lemma pending_start t : mt_ok t -> Version t < MaxInt64 -> pending_ok t WALEntry_zero t.
Proof.
  intros Ht Hv. split; [done|done|done|done|constructor|]. exists (stores t). done.
Qed.

Lemma upgrade_maps_app new m us vs :
  upgrade_maps (C := C) new m (us ++ vs) = (m ← upgrade_maps new m us; upgrade_maps new m vs).
Proof.
  revert m. induction us as [|u us IH]; intros m; cbn [app upgrade_maps]; [done|].
  destruct (upgrade_map new m u); [apply IH|done].
Qed.

Lemma same_frame_trans t1 t2 t3 : same_frame t1 t2 -> same_frame (C := C) t2 t3 -> same_frame t1 t3.
Proof. intros (?&?&?) (?&?&?). split; [congruence|]. split; congruence. Qed.

Lemma pending_upgrades base pend live us m' live' :
  pending_ok base pend live -> Changesets pend = [] ->
  upgrade_maps (new_tree live) (stores live) us = Some m' -> MultiTree.ApplyUpgrades us live = (live', Ok tt) ->
  pending_ok base {| Changesets := Changesets pend; Upgrades := Upgrades pend ++ us |} live'.
Proof.
  intros [Hb Hl Hfr Hv Hn (m & Hu & Hf & Hs)] He Hm E.
  assert (Hvl : Version live < MaxInt64) by (destruct Hfr as (_ & Hc & _); unfold Version in *; by rewrite Hc).
  destruct (ApplyUpgrades_done us live m' Hl Hm) as (l' & E' & Hfr' & Hs'). rewrite E' in E. injection E as <-.
  destruct (ApplyUpgrades_ok us live l' Hl Hvl E') as [Hl' _]. rewrite He in *.
  split; [done|done|by eapply same_frame_trans|done|constructor|].
  exists m'. split; [|done]. cbn [Upgrades]. rewrite upgrade_maps_app, Hu. cbn [mbind option_bind].
    rewrite <- (new_tree_frame base live Hfr). by rewrite Hs in Hm.
Qed.

Lemma foldl_named_dom m l name : is_Some (foldl apply_named m l !! name) <-> is_Some (m !! name).
Proof.
  revert m. induction l as [|c l IH]; intros m; [done|]. cbn [foldl]. rewrite IH. apply lookup_alter_is_Some.
Qed.

Lemma ApplyChangeSet_frame t name cs t' :
  MultiTree.ApplyChangeSet name cs t = (t', Ok tt) -> same_frame t t'.
Proof.
  unfold MultiTree.ApplyChangeSet, gets, lift, modify, throw, mbind, SE_bind.
  destruct (treesByName t !! name) as [i|]; [|done]. destruct (of_option _); [|done|done]. by intros [= <-].
Qed.

Lemma ApplyChangeSets_stores css t t' :
  mt_ok t -> MultiTree.ApplyChangeSets css t = (t', Ok tt) ->
  mt_ok t' /\ same_frame t t' /\ Forall (fun cs => is_Some (stores t !! ncs_Name cs)) css /\
  stores t' = foldl apply_named (stores t) css.
Proof.
  unfold MultiTree.ApplyChangeSets. revert t. induction css as [|c css IH]; intros t Ht E; [by injection E as <-|].
  apply for_each_cons_ok in E as (t1 & E1 & E2).
  pose proof (ApplyChangeSet_frame _ _ _ _ E1) as (Hi & Hc & Hz).
  pose proof (ApplyChangeSet_stores t (ncs_Name c) (ncs_Changeset c) Ht) as Hs.
  destruct (stores t !! ncs_Name c) as [tr|] eqn:El; [|rewrite Hs in E1; done].
  destruct Hs as (t1' & E1' & Ht1 & _ & _ & Hs1). rewrite E1' in E1. injection E1 as ->.
  destruct (IH t1 Ht1 E2) as (Ht' & (Hi' & Hc' & Hz') & Hf' & Hs'). split; [done|]. split; [split; [congruence|split; congruence]|].
  split.
  - constructor; [eauto|]. apply (Forall_impl _ _ _ Hf'). intros c'. rewrite Hs1. by rewrite lookup_alter_is_Some.
  - rewrite Hs'. cbn [foldl]. by rewrite Hs1.
Qed.

Lemma pending_changes base pend live css live' :
  pending_ok base pend live -> Changesets pend = [] -> NoDup (names_of css) ->
  MultiTree.ApplyChangeSets css live = (live', Ok tt) ->
  pending_ok base {| Changesets := css; Upgrades := Upgrades pend |} live'.
Proof.
  intros [Hb Hl Hfr Hv Hn (m & Hu & Hf & Hs)] He Hd E. rewrite He in Hs. cbn [foldl] in Hs.
  destruct (ApplyChangeSets_stores css live live' Hl E) as (Hl' & Hfr' & Hf' & Hs').
  split; [done|done|by eapply same_frame_trans|done|done|]. exists m. rewrite Hs in *. done.
Qed.

Lemma pending_change base pend live name cs live' :
  pending_ok base pend live -> MultiTree.ApplyChangeSet name cs live = (live', Ok tt) ->
  pending_ok base {| Changesets := pend_changes name cs (Changesets pend); Upgrades := Upgrades pend |} live'.
Proof.
  intros [Hb Hl Hfr Hv Hn (m & Hu & Hf & Hs)] E. pose proof (ApplyChangeSet_stores live name cs Hl) as Hc.
  destruct (stores live !! name) as [tr|] eqn:El; [|rewrite Hc in E; done].
  assert (Hnm : is_Some (m !! name)) by (apply (foldl_named_dom m (Changesets pend)); rewrite <- Hs; eauto).
  pose proof (ApplyChangeSet_frame _ _ _ _ E) as Hfr'.
  destruct Hc as (t' & E' & Ht' & _ & _ & Hs'). rewrite E' in E. injection E as <-.
  destruct (pend_changes_spec name cs (Changesets pend) m Hn) as (Hn' & Hin & Hf').
  split; [done|done|by eapply same_frame_trans|done|done|].
  exists m. split; [done|]. split.
  - apply Forall_forall. intros c Hc. destruct (Hin (ncs_Name c)) as [->|Hx]; [by apply list_elem_of_fmap_2|done|].
    apply list_elem_of_fmap in Hx as (c' & -> & Hc'). by apply (proj1 (Forall_forall _ _) Hf).
  - cbn [Changesets]. by rewrite Hs', Hf', Hs.
Qed.
End pending.
