(* ===== verification/AsyncCommit.v ===== *)
(** * The log writer as a goroutine (memiavl/db.go)

    [Commit] sends the entries of the log over a bounded channel to a goroutine that writes
    them in batches, and [WaitAsyncCommit] closes the channel and waits for the result on a
    second channel, which is unbuffered.  [DB] has the writer as an atomic step on an unbounded
    queue; here every operation on the channels and on the log is a step of its own, of the
    committer, which holds the mutex of the database, or of the writer.  The steps refine those
    of [DB].  When the log works, every run ends with all entries written; when it fails, the
    committer may wait for ever. *)

From Stdlib Require Import Strings.Byte ZArith Lia.
From stdpp Require Import base list numbers strings gmap relations.
From S2P Require Import Prelude Binary Proto ProtoInv ProtoCodec State Node Snapshot SnapshotWriter Cache Tree Wal MultiTree MultiTreeInv MultiTreeSim SnapshotDir DB DBInv.
Local Open Scope Z_scope.

(** Where the writer is; [NotStarted] is [walChan == nil].  The entries of the batch are kept. *)
Inductive writer_pc : Type :=
| NotStarted
| Receiving
| Counting (item : walEntry)
| Draining (result : list walEntry) (remaining : nat)
| Reading (entries : list walEntry)
| Encoding (entries rest : list walEntry) (lastIndex : Z) (batch : list (Z * bytes))
| Writing (entries : list walEntry) (batch : list (Z * bytes))
| Quitting (err : error)
| Closing (err : option error)
| Gone (err : option error).

(** What is done with the database: the entries that commits send, and waits. *)
Inductive action : Type := ACommit (entry : walEntry) | AWait.

(** Where the committer is; it stops at the first error. *)
Inductive committer_pc : Type :=
| Idle
| Sending (entry : walEntry)
| Checking
| Waiting
| Returned (err : option error).

(** The error of a closed channel without one. *)
Definition errQuit : error := "async wal writing goroutine quit unexpectedly".

Section async.
  Context {L : Type} `{WalOps L}.

Record async : Type := {
  as_log : L;
  as_cap : nat;
  as_queue : list walEntry;
  as_closed : bool;
  as_writer : writer_pc;
  as_committer : committer_pc;
  as_todo : list action
}.

Definition with_writer (s : async) (log : L) (q : list walEntry) (w : writer_pc) : async :=
  {| as_log := log; as_cap := as_cap s; as_queue := q; as_closed := as_closed s; as_writer := w;
     as_committer := as_committer s; as_todo := as_todo s |}.
Definition with_committer (s : async) (q : list walEntry) (closed : bool) (w : writer_pc) (c : committer_pc) (todo : list action) : async :=
  {| as_log := as_log s; as_cap := as_cap s; as_queue := q; as_closed := closed; as_writer := w; as_committer := c; as_todo := todo |}.

(** [channelBatchRecv]: a blocking receive, the number of items that are waiting, and these. *)
Definition channelBatchRecv (s : async) : option async :=
  match as_writer s with
  | Receiving =>
      match as_queue s with
      | item :: q => Some (with_writer s (as_log s) q (Counting item))
      | [] => if as_closed s then Some (with_writer s (as_log s) [] (Closing None)) else None
      end
  | Counting item => Some (with_writer s (as_log s) (as_queue s) (Draining [item] (length (as_queue s))))
  | Draining result (S remaining) =>
      match as_queue s with
      | item :: q => Some (with_writer s (as_log s) q (Draining (result ++ [item]) remaining))
      | [] => None
      end
  | Draining result O => Some (with_writer s (as_log s) (as_queue s) (Reading result))
  | _ => None
  end.

(** The goroutine of [initAsyncCommit]. *)
Definition writer_step (s : async) : option async :=
  match as_writer s with
  | Receiving | Counting _ | Draining _ _ => channelBatchRecv s
  | Reading entries =>
      match wal_LastIndex (as_log s) with
      | Ok lastIndex => Some (with_writer s (as_log s) (as_queue s) (Encoding entries entries lastIndex []))
      | Err e => Some (with_writer s (as_log s) (as_queue s) (Quitting e))
      | Panic => None
      end
  | Encoding entries (entry :: rest) lastIndex batch =>
      match writeEntry batch lastIndex entry with
      | Ok batch => Some (with_writer s (as_log s) (as_queue s) (Encoding entries rest lastIndex batch))
      | Err e => Some (with_writer s (as_log s) (as_queue s) (Quitting e))
      | Panic => None
      end
  | Encoding entries [] lastIndex batch => Some (with_writer s (as_log s) (as_queue s) (Writing entries batch))
  | Writing entries batch =>
      match wal_WriteBatch (as_log s) batch with
      | Ok log => Some (with_writer s log (as_queue s) Receiving)
      | Err e => Some (with_writer s (as_log s) (as_queue s) (Quitting e))
      | Panic => None
      end
  | Closing e => Some (with_writer s (as_log s) (as_queue s) (Gone e))
  | NotStarted | Quitting _ | Gone _ => None
  end.

(** The committer.  A send on a channel with room, or to the waiting writer when there is no
    buffer; the error is handed over when the writer is about to send it. *)
Definition committer_step (s : async) : option async :=
  match as_committer s with
  | Idle =>
      match as_todo s with
      | ACommit entry :: todo =>
          let w := match as_writer s with NotStarted => Receiving | w => w end in
          Some (with_committer s (as_queue s) (as_closed s) w (Sending entry) todo)
      | AWait :: todo =>
          match as_writer s with
          | NotStarted => Some (with_committer s (as_queue s) (as_closed s) NotStarted Idle todo)
          | w => Some (with_committer s (as_queue s) true w Waiting todo)
          end
      | [] => Some (with_committer s (as_queue s) (as_closed s) (as_writer s) (Returned None) [])
      end
  | Sending entry =>
      if (length (as_queue s) <? as_cap s)%nat
      then Some (with_committer s (as_queue s ++ [entry]) (as_closed s) (as_writer s) Checking (as_todo s))
      else match as_queue s, as_writer s with
           | [], Receiving => Some (with_committer s [] (as_closed s) (Counting entry) Checking (as_todo s))
           | _, _ => None
           end
  | Checking =>
      match as_writer s with
      | Quitting e => Some (with_committer s (as_queue s) (as_closed s) (Closing (Some e)) (Returned (Some e)) (as_todo s))
      | Gone _ => Some (with_committer s (as_queue s) (as_closed s) (as_writer s) (Returned (Some errQuit)) (as_todo s))
      | w => Some (with_committer s (as_queue s) (as_closed s) w Idle (as_todo s))
      end
  | Waiting =>
      match as_writer s with
      | Quitting e => Some (with_committer s (as_queue s) (as_closed s) (Closing (Some e)) (Returned (Some e)) (as_todo s))
      | Gone _ => Some (with_committer s [] false NotStarted Idle (as_todo s))
      | _ => None
      end
  | Returned _ => None
  end.

Definition async_step (s s' : async) : Prop := writer_step s = Some s' \/ committer_step s = Some s'.
Definition async_start (log : L) (cap : nat) (todo : list action) : async :=
  {| as_log := log; as_cap := cap; as_queue := []; as_closed := false; as_writer := NotStarted; as_committer := Idle; as_todo := todo |}.
End async.
Arguments async : clear implicits.

(** ** Runs are finite *)

Section runs.
  Context {L : Type} `{WalOps L}.
  Implicit Types (s : async L).

(** The steps the writer can still make with what it holds. *)
Definition writer_work (w : writer_pc) : nat :=
  match w with
  | NotStarted | Gone _ => 0
  | Closing _ => 1
  | Receiving | Quitting _ => 2
  | Writing _ _ => 3
  | Encoding _ rest _ _ => 4 + length rest
  | Reading entries => 5 + length entries
  | Draining result _ => 6 + length result
  | Counting _ => 8
  end.
Definition committer_work (c : committer_pc) : nat :=
  match c with Returned _ => 0 | Idle => 1 | Checking => 2 | Waiting => 4 | Sending _ => 12 end.
Definition work s : nat :=
  20 * length (as_todo s) + committer_work (as_committer s) + 8 * length (as_queue s) + writer_work (as_writer s).

Lemma writer_step_work s s' : writer_step s = Some s' -> (work s' < work s)%nat.
Proof.
  unfold writer_step, channelBatchRecv, work. intros E. repeat case_match; simplify_eq;
    cbn [with_writer as_todo as_committer as_queue as_writer writer_work]; rewrite ?length_app; cbn [length]; lia.
Qed.

Lemma writer_step_committer s s' : writer_step s = Some s' -> as_committer s' = as_committer s.
Proof. unfold writer_step, channelBatchRecv. intros E. repeat case_match; by simplify_eq. Qed.

Lemma committer_step_work s s' : committer_step s = Some s' -> (work s' < work s)%nat.
Proof.
  unfold committer_step, work. intros E. repeat case_match; simplify_eq;
    cbn [with_committer as_todo as_committer as_queue as_writer committer_work writer_work]; rewrite ?length_app; cbn [length];
    repeat match goal with E : as_writer s = _ |- _ => rewrite E | E : as_committer s = _ |- _ => rewrite E end;
    cbn [writer_work committer_work]; lia.
Qed.

Lemma async_step_work s s' : async_step s s' -> (work s' < work s)%nat.
Proof. intros [E|E]; [by apply writer_step_work|by apply committer_step_work]. Qed.

End runs.

(** ** A log that works *)

Section works.
  Context {L : Type} `{WalLaws L}.
  Implicit Types (s : async L).

(** The entries that the actions commit. *)
Definition commits (todo : list action) : list walEntry :=
  omap (fun a => match a with ACommit e => Some e | AWait => None end) todo.

Definition held (w : writer_pc) : list walEntry :=
  match w with
  | Counting item => [item]
  | Draining result _ => result
  | Reading entries | Encoding entries _ _ _ | Writing entries _ => entries
  | _ => []
  end.
Definition in_hand (c : committer_pc) : list walEntry := match c with Sending e => [e] | _ => [] end.

Definition active (w : writer_pc) : Prop :=
  match w with NotStarted | Quitting _ | Closing _ | Gone _ => False | _ => True end.

Definition encoded (e : walEntry) : Z * bytes := (we_index e, WALEntry_bytes (we_data e)).

(** What the writer knows of the batch. *)
Definition writer_ok s : Prop :=
  match as_writer s with
  | NotStarted => as_queue s = []
  | Draining _ n => (n <= length (as_queue s))%nat
  | Encoding entries rest i batch => i = wv_last (view (as_log s)) /\ exists enc, entries = enc ++ rest /\ batch = map encoded enc
  | Writing entries batch => batch = map encoded entries
  | Quitting _ => False
  | Closing e | Gone e => e = None /\ as_queue s = [] /\ as_closed s = true
  | _ => True
  end.
Definition committer_ok s : Prop :=
  match as_committer s with
  | Waiting => as_closed s = true /\ as_writer s <> NotStarted
  | Sending _ | Checking => as_closed s = false /\ active (as_writer s)
  | Idle => as_closed s = false /\ (as_writer s = NotStarted \/ active (as_writer s))
  | Returned None => as_closed s = false /\ (as_writer s = NotStarted \/ active (as_writer s)) /\ as_todo s = []
  | Returned (Some _) => False
  end.

Variables (log0 : L) (bs : list WALEntry).
Hypothesis bs_encodable : Forall encodable bs.
Let first : Z := wv_last (view log0) + 1.

(** The blocks are written, on the way, or still to be committed. *)
Record async_ok s : Prop := {
  ao_blocks : exists written flying future, bs = written ++ flying ++ future /\
    view (as_log s) = wv_append (view log0) (map WALEntry_bytes written) /\
    held (as_writer s) ++ as_queue s ++ in_hand (as_committer s) = queue_of (first + zlen written) flying /\
    commits (as_todo s) = queue_of (first + zlen written + zlen flying) future;
  ao_writer : writer_ok s;
  ao_committer : committer_ok s
}.

Lemma async_start_ok cap todo : commits todo = queue_of first bs -> async_ok (async_start log0 cap todo).
Proof.
  intros E. split; [|done|].
  - exists [], [], bs. change (zlen []) with 0. rewrite !Z.add_0_r. cbn. split; [done|]. split; [|done].
    unfold wv_append. cbn. rewrite app_nil_r. by destruct (view log0).
  - by split; [|left].
Qed.

Lemma queue_of_in i l e : e ∈ queue_of i l -> i <= we_index e /\ we_data e ∈ l.
Proof.
  revert i. induction l as [|b l IH]; intros i; cbn [queue_of]; [by intros ?%elem_of_nil|].
  intros [->|Hin]%elem_of_cons; [split; [cbn; lia|by left]|]. apply IH in Hin as [? ?]. split; [lia|by right].
Qed.

Lemma queue_prefix i l a b : a ++ b = queue_of i l -> a = queue_of i (take (length a) l) /\ b = queue_of (i + zlen a) (drop (length a) l).
Proof.
  intros E. assert (Hl : (length a <= length l)%nat) by (rewrite <- (queue_of_length i l), <- E, length_app; lia).
  rewrite <- queue_of_take, <- E, take_app_length. split; [done|].
  rewrite <- (drop_app_length a b) at 1. rewrite E, queue_of_drop. do 2 f_equal. unfold zlen. rewrite length_take. lia.
Qed.

Lemma wv_last_append w l : wv_last (wv_append w l) = wv_last w + zlen l.
Proof. unfold wv_last, wv_append. cbn. rewrite zlen_app. lia. Qed.

(** Encoding an entry that the writer holds. *)
Lemma writeEntry_held i l e batch last :
  e ∈ queue_of i l -> last < i -> Forall encodable l -> writeEntry batch last e = Ok (batch ++ [encoded e]).
Proof.
  intros [Hi Hd]%queue_of_in Hlt He. rewrite Forall_forall in He. specialize (He _ Hd). unfold encodable in He.
  unfold writeEntry. rewrite WALEntry_Marshal_bytes by lia. cbn [mbind res_bind]. by rewrite (proj2 (Z.leb_gt _ _)) by lia.
Qed.

(** A batch that the writer holds is appended. *)
Lemma WriteBatch_held log i l entries rest :
  entries ++ rest = queue_of i l -> i = wv_last (view log) + 1 ->
  exists log', wal_WriteBatch log (map encoded entries) = Ok log' /\
    view log' = wv_append (view log) (map WALEntry_bytes (take (length entries) l)).
Proof.
  intros E ->. destruct (queue_prefix _ _ _ _ E) as [Ee _]. set (l' := take _ l) in *.
  destruct (wal_WriteBatch_view log (map encoded entries)) as (log' & Ewr & Hv).
  - rewrite Ee. replace (wv_last (view log)) with (wv_last (view log) + 1 - 1) at 1 by lia. apply in_order_queue.
  - exists log'. split; [done|]. rewrite Hv, Ee. f_equal. apply queue_bytes.
Qed.

Lemma committer_ok_writer s log q w :
  committer_ok s -> active (as_writer s) -> active w -> committer_ok (with_writer s log q w).
Proof. unfold committer_ok. cbn. intros Hc Ha Hw. destruct (as_committer s) as [| | | |[]]; destruct w; naive_solver. Qed.

(** Only a committer that waits has closed the channel. *)
Lemma committer_ok_closed s log q w :
  committer_ok s -> as_closed s = true -> w <> NotStarted -> committer_ok (with_writer s log q w).
Proof. unfold committer_ok. cbn. intros Hc Ha Hw. destruct (as_committer s) as [| | | |[]]; naive_solver congruence. Qed.

Lemma writer_step_ok s s' : async_ok s -> writer_step s = Some s' -> async_ok s'.
Proof.
  intros [(written & flying & future & Ebs & Ev & Eh & Et) Hw Hc] E.
  assert (Hlast : wv_last (view (as_log s)) + 1 = first + zlen written) by (rewrite Ev, wv_last_append, zlen_map; unfold first; lia).
  assert (Hfe : Forall encodable flying) by (rewrite Ebs in bs_encodable; by apply Forall_app in bs_encodable as [_ [? _]%Forall_app]).
  unfold writer_step, channelBatchRecv, writer_ok in *. pose proof (fun log q w => committer_ok_writer s log q w Hc) as Hk.
  destruct (as_writer s) as [| |item|result n|entries|entries rest i batch|entries batch|e|e|e] eqn:Ew; try done.
  - destruct (as_queue s) as [|item q] eqn:Eq; [destruct (as_closed s) eqn:Ecl; [|done]|]; injection E as <-.
    + split; [by exists written, flying, future|done|by apply committer_ok_closed].
    + split; [by exists written, flying, future|done|by apply Hk].
  - injection E as <-. split; [by exists written, flying, future|unfold writer_ok; cbn; lia|by apply Hk].
  - destruct n as [|n]; [|destruct (as_queue s) as [|item q] eqn:Eq; [done|]]; injection E as <-.
    + split; [by exists written, flying, future|done|by apply Hk].
    + split; [|unfold writer_ok; cbn in *; lia|by apply Hk]. exists written, flying, future. cbn in *. by rewrite <- app_assoc.
  - rewrite wal_LastIndex_view in E. injection E as <-. split; [by exists written, flying, future| |by apply Hk].
    split; [done|]. by exists [].
  - destruct Hw as (-> & enc & -> & ->). destruct rest as [|entry rest].
    + injection E as <-. split; [by exists written, flying, future|unfold writer_ok; cbn; by rewrite app_nil_r|by apply Hk].
    + rewrite (writeEntry_held (first + zlen written) flying) in E; [|rewrite <- Eh; cbn; set_solver|lia|done].
      injection E as <-. split; [by exists written, flying, future| |by apply Hk].
      split; [done|]. exists (enc ++ [entry]). by rewrite <- app_assoc, map_app.
  - subst batch. cbn [held] in Eh. destruct (WriteBatch_held (as_log s) _ flying entries _ Eh) as (log' & Ewr & Hv); [lia|].
    rewrite Ewr in E. injection E as <-. split; [|done|by apply Hk]. destruct (queue_prefix _ _ _ _ Eh) as [Ee Er].
    assert (Hlen : zlen (take (length entries) flying) = zlen entries) by (rewrite Ee at 2; unfold zlen; by rewrite queue_of_length).
    assert (Hsplit : zlen flying = zlen entries + zlen (drop (length entries) flying)) by (by rewrite <- Hlen, <- zlen_app, take_drop).
    exists (written ++ take (length entries) flying), (drop (length entries) flying), future.
    cbn [with_writer as_log as_writer as_queue as_committer as_todo held app].
    split; [by rewrite <- !app_assoc, (app_assoc (take _ _)), take_drop|].
    split; [rewrite Hv, Ev, map_app; unfold wv_append; cbn; by rewrite <- app_assoc|].
    rewrite zlen_app, Hlen. split; [rewrite Er; f_equal; lia|]. rewrite Et. f_equal. lia.
  - injection E as <-. destruct Hw as (-> & Eq & Ecl). split; [by exists written, flying, future|done|by apply committer_ok_closed].
Qed.

Lemma committer_step_ok s s' : async_ok s -> committer_step s = Some s' -> async_ok s'.
Proof.
  intros [(written & flying & future & Ebs & Ev & Eh & Et) Hw Hc] E. unfold committer_step, committer_ok in *.
  destruct (as_committer s) as [|entry| | |err] eqn:Ec; [| | | |done].
  - destruct Hc as [Ecl Ha]. destruct (as_todo s) as [|[entry|] todo] eqn:Etd.
    + injection E as <-. split; [by exists written, flying, future|done|done].
    + injection E as <-. cbn in Et. destruct future as [|b future]; [done|]. cbn [queue_of] in Et. injection Et as -> Et.
      assert (Hst : match as_writer s with NotStarted => Receiving | w => w end <> NotStarted) by (by destruct (as_writer s)).
      split.
      * exists written, (flying ++ [b]), future. cbn [with_committer as_log as_writer as_queue as_committer as_todo in_hand].
        split; [by rewrite <- app_assoc|]. split; [done|]. rewrite queue_of_app, zlen_app, zlen_cons. change (zlen []) with 0. cbn [queue_of].
        split; [|etrans; [exact Et|]; f_equal; lia]. rewrite <- Eh. cbn [in_hand]. rewrite app_nil_r.
        rewrite app_assoc. f_equal. by destruct (as_writer s).
      * unfold writer_ok in *. cbn. destruct (as_writer s); try done; by destruct Ha.
      * split; [done|]. cbn. destruct Ha as [->|Ha]; [done|]. by destruct (as_writer s).
    + cbn in Et. unfold writer_ok in Hw. destruct (as_writer s) eqn:Ew; injection E as <-;
        (split; [by exists written, flying, future|first [exact Hw|by destruct Ha]|by split; auto]).
  - destruct Hc as [Ecl Ha]. destruct (Nat.ltb_spec (length (as_queue s)) (as_cap s)).
    + injection E as <-. split; [|unfold writer_ok in *; cbn; destruct (as_writer s); try done; rewrite length_app; lia|by split].
      exists written, flying, future. cbn [with_committer as_log as_writer as_queue as_committer as_todo in_hand] in *.
      by rewrite app_nil_r.
    + destruct (as_queue s) as [|e q] eqn:Eq; [|done]. destruct (as_writer s) eqn:Ew; try done. injection E as <-.
      split; [by exists written, flying, future|done|by split].
  - destruct Hc as [Ecl Ha]. unfold writer_ok in Hw. destruct (as_writer s) eqn:Ew; try done; injection E as <-;
      (split; [by exists written, flying, future|exact Hw|by split; auto]).
  - destruct Hc as [Ecl Ha]. unfold writer_ok in Hw. destruct (as_writer s) eqn:Ew; try done. injection E as <-.
    destruct Hw as (-> & Eq & _). split; [|done|by split; auto]. exists written, flying, future. by rewrite Eq in Eh.
Qed.

Lemma async_reach_ok cap todo s : commits todo = queue_of first bs -> rtc async_step (async_start log0 cap todo) s -> async_ok s.
Proof.
  intros Et Hr. apply (async_start_ok cap) in Et. revert Et. induction Hr as [|s1 s2 s3 [E|E] _ IH]; intros Hok; [done|..]; apply IH.
  - by eapply writer_step_ok.
  - by eapply committer_step_ok.
Qed.

(** Everything is written and the committer is done. *)
Definition completed s : Prop :=
  as_committer s = Returned None /\ as_queue s = [] /\ view (as_log s) = wv_append (view log0) (map WALEntry_bytes bs).

(** A state in which nobody can move is one in which all is done. *)
Lemma async_stuck_completed s : async_ok s -> writer_step s = None -> committer_step s = None -> completed s.
Proof.
  intros [(written & flying & future & Ebs & Ev & Eh & Et) Hw Hc] E1 E2.
  assert (Hlast : wv_last (view (as_log s)) + 1 = first + zlen written) by (rewrite Ev, wv_last_append, zlen_map; unfold first; lia).
  assert (Hfe : Forall encodable flying) by (rewrite Ebs in bs_encodable; by apply Forall_app in bs_encodable as [_ [? _]%Forall_app]).
  assert (Hstop : held (as_writer s) = [] /\ as_queue s = [] /\ (as_writer s = NotStarted \/ (as_writer s = Receiving /\ as_closed s = false) \/ exists e, as_writer s = Gone e)).
  { unfold writer_step, channelBatchRecv, writer_ok in *.
    destruct (as_writer s) as [| |item|result n|entries|entries rest i batch|entries batch|e|e|e] eqn:Ew; try done.
    - split; [done|]. split; [done|]. by left.
    - destruct (as_queue s); [|done]. destruct (as_closed s); [done|]. split; [done|]. split; [done|]. right. by left.
    - destruct n; [done|]. destruct (as_queue s); [cbn in Hw; lia|done].
    - by rewrite wal_LastIndex_view in E1.
    - destruct Hw as (-> & enc & -> & ->). destruct rest as [|entry rest]; [done|].
      by rewrite (writeEntry_held (first + zlen written) flying) in E1; [|rewrite <- Eh; cbn; set_solver|lia|].
    - subst batch. cbn [held] in Eh. destruct (WriteBatch_held (as_log s) _ flying entries _ Eh) as (log' & Ewr & _); [lia|]. by rewrite Ewr in E1.
    - destruct Hw as (_ & Eq & _). split; [done|]. split; [done|]. right. right. by exists e. }
  destruct Hstop as (Eheld & Eq & Hstop). rewrite Eheld, Eq in Eh. cbn [app] in Eh. unfold committer_step, committer_ok in *. rewrite Eq in E2.
  destruct (as_committer s) as [|entry| | |[err|]] eqn:Ec.
  - destruct (as_todo s) as [|[] ?]; try done. by destruct (as_writer s).
  - destruct (_ <? _)%nat; [done|]. destruct Hc as [_ Ha]. destruct Hstop as [Hst|[[Hst _]|[e Hst]]]; by rewrite Hst in *.
  - by destruct (as_writer s).
  - destruct Hc as [Ecl Hne]. destruct Hstop as [Hst|[[Hst Ecl']|[e Hst]]]; [done|congruence|by rewrite Hst in E2].
  - done.
  - destruct Hc as (_ & _ & Etd). rewrite Etd in Et. split; [done|]. split; [done|]. rewrite Ev.
    destruct flying; [|done]. destruct future; [|done]. by rewrite Ebs, !app_nil_r.
Qed.

(** A wait returns when all entries committed before are in the log. *)
Lemma async_wait_flushes s s' :
  async_ok s -> as_committer s = Waiting -> committer_step s = Some s' ->
  as_committer s' = Idle /\
  view (as_log s') = wv_append (view log0) (map WALEntry_bytes (take (length bs - length (commits (as_todo s'))) bs)).
Proof.
  intros [(written & flying & future & Ebs & Ev & Eh & Et) Hw Hc] Ec E. unfold committer_step, writer_ok in *. rewrite Ec in *.
  destruct (as_writer s); try done. injection E as <-. split; [done|]. destruct Hw as (-> & Eq & _). rewrite Eq in Eh.
  destruct flying; [|done]. cbn [with_committer as_log as_todo]. rewrite Ev, Et, queue_of_length, Ebs, length_app. cbn [app].
  replace (length written + length future - length future)%nat with (length written) by lia. by rewrite take_app_length.
Qed.

(** C12: Asynchronous commits complete.  When the log works, every run of the commits and the
    goroutine that writes the log, for any size of the channel and any interleaving, comes to
    a state in which the last call has returned without error, the channel is empty and the
    log has exactly the entries committed, in order.  A run is a sequence of steps that ends
    only where no step is possible.  Every wait on the way returns without error, when all
    entries committed before it are in the log. *)
Theorem async_commit_completes cap todo (run : nat -> async L) :
  commits todo = queue_of first bs -> run 0%nat = async_start log0 cap todo ->
  (forall i, async_step (run i) (run (S i)) \/ (run (S i) = run i /\ forall s', ~ async_step (run i) s')) ->
  (exists n, completed (run n) /\ forall s', ~ async_step (run n) s') /\
  forall i, as_committer (run i) = Waiting -> as_committer (run (S i)) <> Waiting ->
    as_committer (run (S i)) = Idle /\ view (as_log (run (S i))) =
      wv_append (view log0) (map WALEntry_bytes (take (length bs - length (commits (as_todo (run (S i))))) bs)).
Proof.
  intros Et E0 Hrun. assert (Hr : forall i, rtc async_step (async_start log0 cap todo) (run i)).
  { induction i as [|i IH]; [by rewrite E0|]. destruct (Hrun i) as [Hs|[-> _]]; [|done]. by eapply rtc_r. }
  assert (Hend : forall k i, (work (run i) < k)%nat -> exists n, forall s', ~ async_step (run n) s').
  { induction k as [|k IH]; intros i Hi; [lia|]. destruct (Hrun i) as [Hs|[_ Hst]]; [|by exists i].
    apply (IH (S i)). apply async_step_work in Hs. lia. }
  split; [destruct (Hend (S (work (run 0%nat))) 0%nat) as [n Hn]; [lia|]; exists n; split; [|done]; apply async_stuck_completed|].
  - by eapply async_reach_ok.
  - destruct (writer_step (run n)) as [s'|] eqn:E; [|done]. exfalso. apply (Hn s'). by left.
  - destruct (committer_step (run n)) as [s'|] eqn:E; [|done]. exfalso. apply (Hn s'). by right.
  - intros i Ew Ene. destruct (Hrun i) as [[E|E]|[E _]]; [| |congruence].
    + exfalso. by rewrite (writer_step_committer _ _ E) in Ene.
    + apply (async_wait_flushes (run i)); [by eapply async_reach_ok|done|done].
Qed.
End works.

(** ** A log that fails *)

Section fails.
  Context {L : Type} `{WalOps L}.

Lemma async_fill log cap q es todo entries :
  (length q + length es <= cap)%nat ->
  let s q todo := {| as_log := log; as_cap := cap; as_queue := q; as_closed := false; as_writer := Reading entries;
                     as_committer := Idle; as_todo := todo |} in
  rtc async_step (s q (map ACommit es ++ todo)) (s (q ++ es) todo).
Proof.
  intros Hl s. revert q Hl. induction es as [|e es IH]; intros q Hl; cbn [map app]; [by rewrite app_nil_r|].
  eapply rtc_l; [right; reflexivity|]. cbn in Hl.
  eapply rtc_l; [right; unfold committer_step; cbn [with_committer as_committer as_queue as_cap s]; rewrite (proj2 (Nat.ltb_lt _ _)) by lia; reflexivity|].
  eapply rtc_l; [right; reflexivity|]. replace (q ++ e :: es) with ((q ++ [e]) ++ es) by (by rewrite <- app_assoc).
  apply (IH (q ++ [e])). rewrite length_app. cbn. lia.
Qed.

Lemma async_encode log cap q entries rest last batch c todo err :
  (batch' ← writeEntries batch last rest; wal_WriteBatch log batch') = Err err ->
  let s w := {| as_log := log; as_cap := cap; as_queue := q; as_closed := false; as_writer := w; as_committer := c; as_todo := todo |} in
  rtc async_step (s (Encoding entries rest last batch)) (s (Quitting err)).
Proof.
  intros E s. revert batch E. induction rest as [|e rest IH]; intros batch; cbn [writeEntries].
  - cbn [mbind res_bind]. intros E. eapply rtc_l; [left; reflexivity|]. apply rtc_once. left. unfold writer_step, channelBatchRecv. cbn. by rewrite E.
  - destruct (writeEntry batch last e) as [b|e'|] eqn:Ew; cbn [mbind res_bind]; intros E; [| |done].
    + eapply rtc_l; [left; unfold writer_step, channelBatchRecv; cbn; rewrite Ew; reflexivity|]. by apply IH.
    + injection E as ->. apply rtc_once. left. unfold writer_step, channelBatchRecv. cbn. by rewrite Ew.
Qed.

Lemma async_fail log cap q entries c todo err :
  log_write log entries = Err err ->
  let s w := {| as_log := log; as_cap := cap; as_queue := q; as_closed := false; as_writer := w; as_committer := c; as_todo := todo |} in
  rtc async_step (s (Reading entries)) (s (Quitting err)).
Proof.
  intros E s. unfold log_write in E. destruct (wal_LastIndex log) as [i|e|] eqn:El; cbn [mbind res_bind] in E; [| |done].
  - eapply rtc_l; [left; unfold writer_step, channelBatchRecv; cbn; rewrite El; reflexivity|]. by apply async_encode.
  - injection E as ->. apply rtc_once. left. unfold writer_step, channelBatchRecv. cbn. by rewrite El.
Qed.

(** The error of the log can be lost in a deadlock.  When writing an entry fails while the
    channel is full and the next commit is already sending, the writer waits for somebody to
    take its error and the committer, which would look for it only after the send, waits for
    room in the channel: both are stuck, with the mutex of the database held.  For every size
    of the channel, also without a buffer, which is the default. *)
Theorem async_commit_deadlock log cap e0 es e err :
  log_write log [e0] = Err err -> length es = cap ->
  exists s, rtc async_step (async_start log cap (map ACommit (e0 :: es ++ [e]))) s /\
    as_committer s = Sending e /\ as_writer s = Quitting err /\ forall s', ~ async_step s s'.
Proof.
  intros Ew Hl.
  exists {| as_log := log; as_cap := cap; as_queue := es; as_closed := false; as_writer := Quitting err;
            as_committer := Sending e; as_todo := [] |}.
  split; [|split; [done|split; [done|]]].
  - assert (H0 : rtc async_step (async_start log cap (map ACommit (e0 :: es ++ [e])))
      {| as_log := log; as_cap := cap; as_queue := []; as_closed := false; as_writer := Counting e0; as_committer := Checking;
         as_todo := map ACommit (es ++ [e]) |}).
    { eapply rtc_l; [right; reflexivity|]. destruct cap as [|cap]; [apply rtc_once; right; reflexivity|].
      eapply rtc_l; [right; reflexivity|]. apply rtc_once. left. reflexivity. }
    etrans; [exact H0|]. eapply rtc_l; [right; reflexivity|]. eapply rtc_l; [left; reflexivity|]. eapply rtc_l; [left; reflexivity|].
    etrans; [rewrite map_app; apply (async_fill log cap [] es _ [e0]); cbn; lia|].
    eapply rtc_l; [right; reflexivity|]. by apply async_fail.
  - intros s' [E|E]; [done|]. unfold committer_step in E. cbn [as_committer as_queue as_cap as_writer] in E. rewrite (proj2 (Nat.ltb_ge _ _)) in E by lia. by destruct es.
Qed.
End fails.

(** ** The steps of the database *)

Section refines.
  Context `{CacheOps C} {L : Type} `{WalOps L}.
  Implicit Types (db : DB C L) (s : async L).

Definition initAsyncCommit db : DB C L :=
  match walChan db with None => with_wal db (db_wal db) (Some []) None | Some _ => db end.

(** The error that was, or is going to be, handed over. *)
Definition quit_error (w : writer_pc) : option error :=
  match w with Quitting e => Some e | Closing e | Gone e => e | _ => None end.

(** The database with the log and the channels as they are: what the writer has received but
    not written is still in the queue. *)
Definition as_db db s : DB C L :=
  match as_writer s with
  | NotStarted => with_wal db (Some (as_log s)) None None
  | w => with_wal db (Some (as_log s)) (Some (held w ++ as_queue s)) (quit_error w)
  end.

Inductive db_step db : DB C L -> Prop :=
| ds_init : db_step db (initAsyncCommit db)
| ds_send entry db' : log_entry entry db = (db', Ok tt) -> db_step db db'
| ds_write n db' : (0 < n)%nat -> log_writer n db = (db', Ok tt) -> db_step db db'
| ds_wait db' : waitAsyncCommit db = (db', Ok tt) -> db_step db db'.

Record batch_ok s : Prop := {
  bk_writer : match as_writer s with
    | NotStarted => as_queue s = []
    | Draining l _ | Reading l => l <> []
    | Encoding l rest i batch => l <> [] /\ wal_LastIndex (as_log s) = Ok i /\ writeEntries [] i l = writeEntries batch i rest
    | Writing l batch => l <> [] /\ exists i, wal_LastIndex (as_log s) = Ok i /\ writeEntries [] i l = Ok batch
    | Closing (Some e) | Gone (Some e) => as_committer s = Returned (Some e)
    | Closing None | Gone None => as_committer s = Waiting /\ as_queue s = []
    | _ => True
    end;
  bk_closed : as_closed s = true -> as_committer s = Waiting \/ exists e, as_committer s = Returned (Some e);
  bk_error : forall e, as_committer s = Returned (Some e) -> quit_error (as_writer s) = Some e;
  bk_sending : forall e, as_committer s = Sending e -> as_writer s <> NotStarted
}.

(** A round of the writer takes what it holds. *)
Lemma log_writer_held db s w l :
  as_writer s = w -> held w = l -> l <> [] -> quit_error w = None -> w <> NotStarted ->
  log_writer (length l) (as_db db s) =
    match log_write (as_log s) l with
    | Ok log => (with_wal db (Some log) (Some (as_queue s)) None, Ok tt)
    | Err e => (with_wal db (Some (as_log s)) (Some (as_queue s)) (Some e), Ok tt)
    | Panic => (as_db db s, Panic)
    end.
Proof.
  intros Ew Eh Hne Eq Hs. unfold log_writer, as_db. rewrite Ew. destruct w; try done; cbn [with_wal db_wal walChan walQuit] in *;
    rewrite Eq, Eh, take_app_length, drop_app_length; by destruct (log_write (as_log s) l).
Qed.

(** A step of the writer that only moves entries. *)
Lemma batch_ok_writer s w q :
  batch_ok s -> quit_error (as_writer s) = None -> w <> NotStarted ->
  (match w with
   | Draining l _ | Reading l => l <> []
   | Encoding l rest i batch => l <> [] /\ wal_LastIndex (as_log s) = Ok i /\ writeEntries [] i l = writeEntries batch i rest
   | Writing l batch => l <> [] /\ exists i, wal_LastIndex (as_log s) = Ok i /\ writeEntries [] i l = Ok batch
   | Closing _ | Gone _ => False
   | _ => True
   end) -> batch_ok (with_writer s (as_log s) q w).
Proof.
  intros [_ Hc He _] Eq Hs Hw. split; [cbn; by destruct w|exact Hc| |done]. cbn. intros e E. rewrite (He e E) in Eq. done.
Qed.

Lemma writer_fails db s l e :
  held (as_writer s) = l -> l <> [] -> quit_error (as_writer s) = None -> log_write (as_log s) l = Err e -> batch_ok s ->
  let s' := with_writer s (as_log s) (as_queue s) (Quitting e) in
  batch_ok s' /\ (as_db db s' = as_db db s \/ db_step (as_db db s) (as_db db s')).
Proof.
  intros Eh Hne Eq El Hok s'. split; [by apply batch_ok_writer|]. right. apply (ds_write _ (length l)); [by destruct l; cbn; [|lia]|].
  rewrite (log_writer_held db s (as_writer s)), El; try done. by intros E; rewrite E in Eh; subst.
Qed.

Lemma writer_step_refines db s s' :
  batch_ok s -> writer_step s = Some s' -> batch_ok s' /\ (as_db db s' = as_db db s \/ db_step (as_db db s) (as_db db s')).
Proof.
  intros Hok E. pose proof (bk_writer _ Hok) as Hw. unfold writer_step, channelBatchRecv in E.
  pose proof (fun l e => writer_fails db s l e) as Hfail. pose proof (fun w q => batch_ok_writer s w q Hok) as Hmove.
  assert (Hsame : forall q w, as_writer s <> NotStarted -> w <> NotStarted -> held w ++ q = held (as_writer s) ++ as_queue s ->
    quit_error w = quit_error (as_writer s) -> as_db db (with_writer s (as_log s) q w) = as_db db s).
  { intros q w H1' H2' Eh Eq. unfold as_db. cbn [with_writer as_writer as_log as_queue].
    destruct w; try done; rewrite Eh, Eq; by destruct (as_writer s). }
  destruct (as_writer s) as [| |item|result n|entries|entries rest i batch|entries batch|e|e|e] eqn:Ew; try done.
  - destruct (as_queue s) as [|item q] eqn:Eq; [destruct (as_closed s) eqn:Ecl; [|done]|]; injection E as <-.
    + split; [|left; by apply Hsame]. pose proof (bk_error _ Hok) as He. rewrite Ew in He. destruct (bk_closed _ Hok Ecl) as [Hc|[e Hc]]; [|by apply He in Hc].
      split; [done|by left| |done]. cbn. intros e Hc'. congruence.
    + split; [by apply Hmove|left; by apply Hsame].
  - injection E as <-. split; [by apply Hmove|left; by apply Hsame].
  - destruct n as [|n]; [|destruct (as_queue s) as [|item q] eqn:Eq; [done|]]; injection E as <-.
    + split; [by apply Hmove|left; by apply Hsame].
    + split; [apply Hmove; [done|done|by destruct result]|left; apply Hsame; try done]. cbn. by rewrite <- app_assoc.
  - destruct (wal_LastIndex (as_log s)) as [i|e|] eqn:El; [| |done]; injection E as <-.
    + split; [by apply Hmove|left; by apply Hsame].
    + apply (Hfail entries); try done. unfold log_write. by rewrite El.
  - destruct Hw as (Hne & El & Ewr). destruct rest as [|entry rest].
    + injection E as <-. split; [apply Hmove; try done; by eauto|left; by apply Hsame].
    + cbn [writeEntries] in Ewr. destruct (writeEntry batch i entry) as [b|e|] eqn:Eb; [| |done]; injection E as <-.
      * split; [by apply Hmove|left; by apply Hsame].
      * apply (Hfail entries); try done. unfold log_write. rewrite El. cbn [mbind res_bind]. by rewrite Ewr.
  - destruct Hw as (Hne & i & El & Ewr).
    assert (Elw : log_write (as_log s) entries = wal_WriteBatch (as_log s) batch) by (unfold log_write; rewrite El; cbn [mbind res_bind]; by rewrite Ewr).
    destruct (wal_WriteBatch (as_log s) batch) as [log|e|] eqn:Eb; [| |done]; injection E as <-; [|by apply (Hfail entries)].
    split.
    + destruct Hok as [_ Hc He _]. split; [done|exact Hc| |done]. cbn. intros e Hcm. apply He in Hcm. by rewrite Ew in Hcm.
    + right. apply (ds_write _ (length entries)); [by destruct entries; cbn; [|lia]|]. by rewrite (log_writer_held db s _ entries Ew), Elw.
  - injection E as <-. split; [|left; by apply Hsame]. destruct Hok as [_ Hc He _]. rewrite Ew in He.
    split; [cbn; by destruct e|exact Hc|exact He|done].
Qed.

(** A step of the committer that leaves the writer and the queue alone. *)
Lemma batch_ok_committer s closed c todo :
  batch_ok s -> (forall e, as_committer s <> Returned (Some e)) -> as_committer s <> Waiting ->
  (closed = true -> c = Waiting) -> (forall e, c <> Returned (Some e)) -> (forall e, c = Sending e -> as_writer s <> NotStarted) ->
  batch_ok (with_committer s (as_queue s) closed (as_writer s) c todo).
Proof.
  intros [Hw _ _ _] Hne Hnw Hcl Hc Hs. split; cbn; [|by left; auto|by intros e Ee; destruct (Hc e)|done].
  destruct (as_writer s) as [| | | | | | | |[e|]|[e|]]; try done; solve [by destruct (Hne e)|by destruct Hw].
Qed.

Lemma committer_step_refines db s s' :
  0 <= walChanSize db -> batch_ok s -> committer_step s = Some s' ->
  batch_ok s' /\ (as_db db s' = as_db db s \/ db_step (as_db db s) (as_db db s')).
Proof.
  intros Hsz Hok E. pose proof (bk_writer _ Hok) as Hw. pose proof (bk_closed _ Hok) as Hcl. pose proof (bk_sending _ Hok) as Hs.
  unfold committer_step in E. pose proof (fun closed c todo => batch_ok_committer s closed c todo Hok) as Hmove.
  destruct (as_committer s) as [|entry| | |err] eqn:Ec; [| | | |done].
  - assert (Eopen : as_closed s = false) by (destruct (as_closed s); [destruct Hcl as [?|[? ?]]; done|done]).
    destruct (as_todo s) as [|[entry|] todo] eqn:Etd.
    + injection E as <-. split; [apply Hmove; try done; congruence|by left].
    + destruct (as_writer s) eqn:Ew; injection E as <-;
        [|by (split; [apply Hmove; try done; congruence|left; unfold as_db; cbn; by rewrite Ew])..].
      split; [split; cbn; try done; congruence|]. right. unfold as_db. cbn [with_committer as_writer as_log as_queue]. rewrite Ew, Hw. apply ds_init.
    + destruct (as_writer s) eqn:Ew; injection E as <-;
        by (split; [apply Hmove; try done; congruence|left; unfold as_db; cbn; by rewrite Ew]).
  - specialize (Hs entry eq_refl). destruct (_ <? _)%nat.
    + injection E as <-. split.
      * destruct Hok as [_ _ _ _]. split; cbn; [|by intros ?%Hcl; naive_solver|done|done].
        destruct (as_writer s) as [| | | | | | | |[e|]|[e|]]; try done; by destruct Hw.
      * right. apply (ds_send _ entry). unfold log_entry, as_db. cbn [with_committer as_writer as_log as_queue].
        destruct (as_writer s); try done; cbn [with_wal db_wal walChan walChanSize walQuit default];
          rewrite (proj2 (Z.leb_le _ _)) by done; cbn [from_option id]; by rewrite <- app_assoc.
    + destruct (as_queue s) eqn:Eq; [|done]. destruct (as_writer s) eqn:Ew; try done. injection E as <-.
      split; [split; cbn; try done; by intros ?%Hcl; naive_solver|]. right. apply (ds_send _ entry).
      unfold log_entry, as_db. cbn [with_committer as_writer as_log as_queue]. rewrite Ew, Eq.
      cbn [with_wal db_wal walChan walChanSize walQuit]. by rewrite (proj2 (Z.leb_le _ _)).
  - assert (Eopen : as_closed s = false) by (destruct (as_closed s); [destruct Hcl as [?|[? ?]]; done|done]).
    destruct (as_writer s) as [| | | | | | |e| |[e|]] eqn:Ew; try done; try (by destruct Hw); injection E as <-;
      try by (split; [apply Hmove; try done; congruence|left; unfold as_db; cbn; by rewrite Ew]).
    split; [split; cbn; try done; [by eauto|naive_solver]|]. left. unfold as_db. cbn. by rewrite Ew.
  - destruct (as_writer s) as [| | | | | | |e| |[e|]] eqn:Ew; try done; injection E as <-.
    + split; [split; cbn; try done; [by eauto|naive_solver]|]. left. unfold as_db. cbn. by rewrite Ew.
    + destruct Hw as [_ Hq]. split; [split; cbn; done|]. right. apply ds_wait. unfold waitAsyncCommit, as_db.
      cbn [with_committer as_writer as_log as_queue]. rewrite Ew, Hq. done.
Qed.

(** The channel has room for what is sent. *)
Lemma async_step_cap s s' :
  async_step s s' -> as_cap s' = as_cap s /\ ((length (as_queue s) <= as_cap s)%nat -> (length (as_queue s') <= as_cap s')%nat).
Proof.
  intros [E|E]; unfold writer_step, channelBatchRecv, committer_step in E; repeat case_match; simplify_eq; cbn; (split; [done|]); try lia.
  rewrite length_app. cbn. match goal with E : (_ <? _)%nat = true |- _ => apply Nat.ltb_lt in E end. lia.
Qed.

(** C13: The goroutines refine the atomic steps.  Whatever the log does, each step on the channels
    is, for the database with the entries the writer holds put back in the queue, no step or
    one of the steps of [DB]: a channel is made, an entry is queued, the writer takes at least
    one entry and writes or fails, or a wait returns.  The channel never holds more than its
    size, and an error that the committer returns is the one that the writer left. *)
Theorem async_refines_db db log cap todo s :
  db_wal db = Some log -> walChan db = None -> walQuit db = None -> walChanSize db = Z.of_nat cap ->
  rtc async_step (async_start log cap todo) s ->
  rtc db_step db (as_db db s) /\ (length (as_queue s) <= cap)%nat /\
  forall e, as_committer s = Returned (Some e) -> checkAsyncCommit (as_db db s) = Err e.
Proof.
  intros El Ec Eq Esz Hr.
  assert (E0 : as_db db (async_start log cap todo) = db) by (unfold as_db; cbn; destruct db; cbn in *; by subst).
  assert (H0' : batch_ok (async_start log cap todo)) by done.
  assert (Hcap : as_cap (async_start log cap todo) = cap /\ (length (as_queue (async_start log cap todo)) <= cap)%nat) by (cbn; lia).
  rewrite <- E0 at 1. clear E0. revert H0' Hcap. generalize (async_start log cap todo) Hr. clear Hr. intros s0 Hr.
  induction Hr as [s|s1 s2 s3 Hs Hr IH]; intros Hok Hcap.
  { split; [done|]. split; [lia|]. intros e Ee. pose proof (bk_error _ Hok e Ee) as Hq. unfold checkAsyncCommit, as_db.
    destruct (as_writer s); try done; cbn [with_wal walQuit]; by rewrite Hq. }
  assert (Hstep : batch_ok s2 /\ (as_db db s2 = as_db db s1 \/ db_step (as_db db s1) (as_db db s2)))
    by (destruct Hs as [E|E]; [by apply writer_step_refines|apply committer_step_refines; [lia|done..]]).
  destruct Hstep as [Hok2 Hdb]. destruct IH as (IHr & IHq); [done| |].
  - destruct (async_step_cap _ _ Hs) as [Ecap Hq]. destruct Hcap as [Ec1 Hc1]. rewrite Ecap, Ec1 in *. auto.
  - split; [|done]. destruct Hdb as [<-|Hdb]; [done|by eapply rtc_l].
Qed.
End refines.

(** ** Witnesses *)

(** The writer moves when it can. *)
Definition eager {L} `{WalOps L} (s : async L) : async L :=
  match writer_step s with
  | Some s' => s'
  | None => match committer_step s with Some s' => s' | None => s end
  end.
Definition eager_run {L} `{WalOps L} (s : async L) (i : nat) : async L := Nat.iter i eager s.

Lemma eager_run_steps {L} `{WalOps L} (s : async L) i :
  async_step (eager_run s i) (eager_run s (S i)) \/
  (eager_run s (S i) = eager_run s i /\ forall s', ~ async_step (eager_run s i) s').
Proof.
  cbn. fold (eager_run s i). unfold eager, async_step. destruct (writer_step _) as [s1|] eqn:E1; [by left; left|].
  destruct (committer_step _) as [s2|] eqn:E2; [by left; right|]. right. split; [done|]. by intros s' [?|?].
Qed.

Definition sample_entry (name : string) : WALEntry :=
  {| Changesets := []; Upgrades := [{| up_Name := str name; up_RenameFrom := []; up_Delete := false |}] |}.
Definition sample_queue : list WALEntry := [sample_entry "bank"; sample_entry "gov"; sample_entry "acc"].
Definition empty_log : mem_log := {| ml_first := 1; ml_entries := [] |}.
Definition sample_todo : list action :=
  match queue_of 1 sample_queue with
  | [e1; e2; e3] => [ACommit e1; ACommit e2; AWait; ACommit e3; AWait]
  | _ => []
  end.

Lemma async_commit_completes_witness :
  exists n, completed empty_log sample_queue (eager_run (async_start empty_log 0 sample_todo) n).
Proof.
  destruct (async_commit_completes empty_log sample_queue ltac:(repeat constructor; vm_compute; reflexivity) 0 sample_todo
    (eager_run (async_start empty_log 0 sample_todo))) as [(n & Hn & _) _].
  - reflexivity.
  - reflexivity.
  - intros i. apply eager_run_steps.
  - exists n. exact Hn.
Defined.

(** The entry does not follow the log, and there is no buffer. *)
Lemma async_commit_deadlock_witness :
  exists s, rtc async_step (async_start empty_log 0
      (map ACommit [{| we_index := 7; we_data := sample_entry "bank" |}; {| we_index := 8; we_data := sample_entry "gov" |}])) s /\
    forall s', ~ async_step s s'.
Proof.
  destruct (async_commit_deadlock empty_log 0 {| we_index := 7; we_data := sample_entry "bank" |} []
    {| we_index := 8; we_data := sample_entry "gov" |} ErrOutOfOrder) as (s & Hr & _ & _ & Hs).
  - vm_compute. reflexivity.
  - reflexivity.
  - exists s. split; [exact Hr|exact Hs].
Defined.

Definition sample_async_db : DB lru mem_log :=
  {| db_tree := NewEmptyMultiTree 0 0; db_dir := ∅; readOnly := false; snapshotKeepRecent := 0; snapshotInterval := 0;
     db_wal := Some empty_log; walChanSize := 1; walChan := None; walQuit := None; pendingLog := WALEntry_zero;
     snapshotRewrite := None |}.

Lemma async_refines_db_witness :
  rtc db_step sample_async_db (as_db sample_async_db (eager_run (async_start empty_log 1 sample_todo) 12)).
Proof.
  apply (async_refines_db sample_async_db empty_log 1 sample_todo).
  - reflexivity.
  - reflexivity.
  - reflexivity.
  - reflexivity.
  - generalize 12%nat. intros n. induction n as [|n IH]; [constructor|].
    destruct (eager_run_steps (async_start empty_log 1 sample_todo) n) as [Hs|[E _]]; [exact (rtc_r _ _ _ IH Hs)|by rewrite E].
Defined.
