(* ===== verification/DBRecovery.v ===== *)
(** * Crash recovery

    A database run is a sequence of changes, commits, rounds of the log writer and
    snapshot rewrites.  The history is the list of committed blocks.  The invariant says
    that the log holds a segment of the history, the channel the rest, and the current
    snapshot the state after some prefix of it; it follows that after a crash at any
    point [Load] gives the state after the blocks that reached the log or the snapshot. *)

From Stdlib Require Import Strings.Byte ZArith Lia.
From stdpp Require Import base list numbers strings gmap.
From S2P Require Import Prelude Binary Proto ProtoInv ProtoCodec State Node Snapshot SnapshotWriter Cache Tree Wal.
From S2P Require Import MultiTree MultiTreeInv MultiTreeSim MultiTreeSnapshot SnapshotDir SnapshotDirInv DB DBInv.
Local Open Scope Z_scope.

Section agree.
Context `{CacheOps C}.
Implicit Types (t : MultiTree C).

(** The same data and the same commit info. *)
Definition agrees t t' : Prop := mt_sim t t' /\ lastCommitInfo t' = lastCommitInfo t.

#[export] Instance agrees_equiv : Equivalence agrees.
Proof.
  split.
  - intros t. by split.
  - intros t1 t2 [Hs Hc]. by split; [symmetry|].
  - intros t1 t2 t3 [Hs Hc] [Hs' Hc']. split; [by etrans|congruence].
Qed.

Lemma run_blocks_app a b t t' :
  run_blocks (a ++ b) t = (t', Ok tt) <->
  exists t1, run_blocks a t = (t1, Ok tt) /\ run_blocks b t1 = (t', Ok tt).
Proof.
  unfold run_blocks. revert t. induction a as [|x a IH]; intros t; cbn [app].
  - split; [by exists t|]. by intros (t1 & [= <-] & E).
  - rewrite for_each_cons_ok. setoid_rewrite for_each_cons_ok. setoid_rewrite IH.
    split; [intros (t1 & E1 & t2 & E2 & E3)|intros (t2 & (t1 & E1 & E2) & E3)]; eauto 6.
Qed.
End agree.

Section recovery.
Context `{CacheLaws C} `{WalLaws L}.
(** The multi-tree the log starts from. *)
Variable g : MultiTree C.
Implicit Types (t : MultiTree C) (hist : list WALEntry) (log : L) (db : DB C L) (dir : DBDir).

(** The index before the first entry of the history. *)
Definition s0 : Z := saved (Version g) (initialVersion g).

Definition state_at hist (n : nat) t : Prop := (n <= length hist)%nat /\ run_blocks (take n hist) g = (t, Ok tt).

Record hist_ok hist : Prop := {
  ho_genesis : mt_ok g;
  ho_encodable : Forall encodable hist;
  ho_bound : tree_version (Version g) (initialVersion g) + zlen hist < MaxInt64;
  ho_run : exists t, run_blocks hist g = (t, Ok tt)
}.

(** The log holds blocks [p] to [m] of the history, the queue those from [m] on. *)
Record log_ok hist log (queue : list walEntry) (p m : nat) : Prop := {
  lo_range : (p <= m <= length hist)%nat;
  lo_view : view log = {| wv_first := s0 + Z.of_nat p + 1; wv_entries := map WALEntry_bytes (drop p (take m hist)) |};
  lo_queue : queue = queue_of (s0 + Z.of_nat m + 1) (drop m hist)
}.

(** The current snapshot is the state after [k] blocks. *)
Definition snap_ok hist dir (k : nat) : Prop := exists t md,
  state_at hist k t /\
  dir !! currentName = Some (Link (snapshotName (Version t))) /\
  dir !! snapshotName (Version t) = Some (Sub md) /\
  forall zc size, exists t', LoadMultiTree md zc size = Ok t' /\ agrees t t'.

Lemma state_at_exists hist n : hist_ok hist -> (n <= length hist)%nat -> exists t, state_at hist n t.
Proof.
  intros [_ _ _ [t E]] Hn. rewrite <- (take_drop n hist) in E.
  apply run_blocks_app in E as (t1 & E1 & _). exists t1. done.
Qed.

Lemma state_at_unique hist n t t' : state_at hist n t -> state_at hist n t' -> t = t'.
Proof. intros [_ E] [_ E']. rewrite E in E'. by injection E'. Qed.

Lemma state_at_ok hist n t :
  hist_ok hist -> state_at hist n t ->
  mt_ok t /\ initialVersion t = initialVersion g /\ saved (Version t) (initialVersion g) = s0 + Z.of_nat n /\
  Version t < MaxInt64.
Proof.
  intros [Hg _ Hb _] [Hn E].
  assert (Hl : zlen (take n hist) = Z.of_nat n) by (unfold zlen; rewrite length_take; lia).
  assert (Hz : Z.of_nat n <= zlen hist) by (unfold zlen; lia).
  destruct (run_blocks_ok (take n hist) g t Hg) as (Ht & Hi & Hs & Hv); [lia|done|]. split; [done|]. split; [done|].
  split; [by rewrite Hs, Hl|]. pose proof (mo_version g Hg) as (?&?&?).
  destruct (decide (take n hist = [])) as [En|Hne].
  - rewrite En in E. injection E as <-. unfold tree_version, MaxInt64 in *.
    destruct (Z.eqb_spec (Version g) 0); [lia|]. cbn [andb] in Hb. pose proof (zlen_nonneg hist). lia.
  - rewrite Hv by done. lia.
Qed.

Lemma state_at_extend hist b n t : state_at hist n t -> state_at (hist ++ [b]) n t.
Proof. intros [Hn E]. split; [rewrite length_app; lia|]. by rewrite take_app_le. Qed.

(** Between two points of the history. *)
Lemma state_at_between hist k n t t' :
  (k <= n)%nat -> state_at hist k t -> state_at hist n t' -> run_blocks (drop k (take n hist)) t = (t', Ok tt).
Proof.
  intros Hk [_ E] [_ E']. rewrite <- (take_drop k (take n hist)), take_take, Nat.min_l in E' by done.
  apply run_blocks_app in E' as (t1 & E1 & E2). rewrite E in E1. by injection E1 as <-.
Qed.

Lemma log_last hist log q p m : log_ok hist log q p m -> wv_last (view log) = s0 + Z.of_nat m.
Proof.
  intros [Hr Hv _]. rewrite Hv. unfold wv_last. cbn [wv_first wv_entries]. unfold zlen.
  rewrite length_map, length_drop, length_take. lia.
Qed.

Lemma log_logged hist log q p m k :
  hist_ok hist -> log_ok hist log q p m -> (p <= k)%nat -> logged log (s0 + Z.of_nat k + 1) (drop k (take m hist)).
Proof.
  intros Hh [Hr Hv _] Hk j b Hb. rewrite lookup_drop in Hb. split.
  - rewrite Hv. unfold wv_read. cbn [wv_first wv_entries]. rewrite (proj2 (Z.ltb_ge _ _)) by lia.
    rewrite list_lookup_fmap, lookup_drop.
    replace (p + Z.to_nat _)%nat with (k + j)%nat by lia. by rewrite Hb.
  - apply lookup_take_Some in Hb as [Hb _]. by apply (proj1 (Forall_lookup _ _) (ho_encodable hist Hh) _ _ Hb).
Qed.

(** Catching up from the state after [k] blocks with a log that ends at block [m]. *)
Lemma catchup_at hist log q p m k t t0 :
  hist_ok hist -> log_ok hist log q p m -> (p <= k)%nat -> state_at hist k t -> agrees t t0 ->
  exists t' t1, state_at hist (Nat.max k m) t' /\ CatchupWAL log 0 t0 = (t1, Ok tt) /\ agrees t' t1.
Proof.
  intros Hh Hlog Hk Hst [Hs Hc]. pose proof (state_at_ok hist k t Hh Hst) as (Ht & Hi & Hsv & Hv).
  assert (Hkl : (k <= length hist)%nat) by apply Hst.
  pose proof (log_last _ _ _ _ _ Hlog) as Hlast. destruct (lo_range _ _ _ _ _ Hlog) as [_ Hm].
  destruct (state_at_exists hist (Nat.max k m) Hh) as [t' Ht']; [lia|].
  assert (Hsv' : saved (Version t) (initialVersion t) = s0 + Z.of_nat k) by (by rewrite Hi).
  exists t'. destruct (le_lt_dec k m) as [Hkm|Hkm].
  - rewrite Nat.max_r in * by lia.
    assert (Hz : zlen (drop k (take m hist)) = Z.of_nat m - Z.of_nat k).
    { unfold zlen. rewrite length_drop, length_take. lia. }
    destruct (CatchupWAL_sim log (drop k (take m hist)) t t0 t' 0 (Z.of_nat m - Z.of_nat k))
      as (t1 & E & Hs1 & Hc1); [done|done|done|done|lia|left; split; [done|lia]|done| | |].
    + rewrite Hsv'. by eapply log_logged.
    + by eapply state_at_between.
    + exists t1. done.
  - rewrite Nat.max_l in * by lia. assert (t' = t) as -> by (by eapply state_at_unique).
    exists t0. split; [done|]. split; [|done]. unfold CatchupWAL, lift, gets, mbind, SE_bind.
    rewrite wal_LastIndex_view, Hlast, <- (sim_version _ _ Hs), <- (sim_init _ _ Hs).
    rewrite walIndex_next by (apply (mo_version t Ht) || done). by rewrite (proj2 (Z.ltb_lt _ _)) by lia.
Qed.

(** ** Loading *)

Lemma snapshotName_not_tmp v : 0 <= v -> HasSuffix (snapshotName v) TmpSuffix = false.
Proof.
  intros Hv. unfold HasSuffix. apply andb_false_intro2, bool_decide_eq_false_2. intros E.
  assert (Hl : last (drop (length (snapshotName v) - length TmpSuffix) (snapshotName v)) = last (snapshotName v)).
  { rewrite !last_lookup, lookup_drop, length_drop, snapshotName_length by done. done. }
  rewrite E in Hl. rewrite snapshotName_nonneg in Hl by done. cbn [digits] in Hl. rewrite app_assoc, last_snoc in Hl.
  injection Hl as Hl. apply (f_equal byte_to_Z) in Hl. pose proof (Z.mod_pos_bound v 10).
  rewrite digit_byte in Hl by lia. change (byte_to_Z _) with 112 in Hl. lia.
Qed.

Lemma removeTmpDirs_keeps dir name :
  HasSuffix name TmpSuffix = false -> removeTmpDirs dir !! name = dir !! name.
Proof.
  intros Hn. unfold removeTmpDirs. destruct (dir !! name) as [e|] eqn:E.
  - by apply map_lookup_filter_Some_2.
  - apply map_lookup_filter_None_2. by left.
Qed.

Lemma snap_ok_lookups hist dir dir' k :
  hist_ok hist -> snap_ok hist dir k ->
  (forall name, HasSuffix name TmpSuffix = false -> dir' !! name = dir !! name) -> snap_ok hist dir' k.
Proof.
  intros Hh (t & md & Hst & Hc & Hs & Hl) Hd. exists t, md. split; [done|].
  pose proof (state_at_ok hist k t Hh Hst) as (Ht & _). pose proof (mo_version t Ht) as (_ & Hv & _).
  rewrite !Hd; [done|apply snapshotName_not_tmp; lia|done].
Qed.

Lemma snap_ok_created hist dir k init :
  snap_ok hist dir k -> createDBIfNotExist (C := C) init dir = (dir, Ok tt).
Proof.
  intros (t & md & _ & Hc & Hs & Hl). unfold createDBIfNotExist, open_dir. rewrite Hc, Hs.
  destruct (Hl false 0) as (t' & E & _). unfold LoadMultiTree, readMetadata in E.
  by destruct (md !! MetadataFileName) as [[bz|d]|].
Qed.

(** Options that load the latest version. *)
Definition latest (opts : Options) : Prop :=
  Validate opts = Ok tt /\ TargetVersion opts = 0 /\ InitialStores opts = [].

Lemma load_recovers hist dir log q p m k opts :
  hist_ok hist -> log_ok hist log q p m -> snap_ok hist dir k -> (p <= k)%nat -> latest opts ->
  exists t db, state_at hist (Nat.max k m) t /\ Load dir log opts = Ok db /\ agrees t (db_tree db) /\
    db_wal db = Some log /\ walChan db = None /\ snapshotRewrite db = None /\ pendingLog db = WALEntry_zero /\
    snap_ok hist (db_dir db) k /\ (dir_ok dir -> dir_ok (db_dir db)).
Proof.
  intros Hh Hlog Hsnap Hk (Hval & Htar & Hini). unfold Load. rewrite Hval. cbn [mbind res_bind].
  assert (Hcr : (if CreateIfMissing opts
     then let '(d, r) := createDBIfNotExist (C := C) (InitialVersion opts) dir in _ ← r; Ok d
     else Ok dir) = Ok dir).
  { destruct (CreateIfMissing opts); [|done]. by rewrite (snap_ok_created hist dir k). }
  rewrite Hcr. cbn [mbind res_bind]. set (dir' := if ReadOnly opts then dir else removeTmpDirs dir).
  assert (Hsnap' : snap_ok hist dir' k).
  { apply (snap_ok_lookups hist dir); [done|done|]. intros name Hn. subst dir'.
    destruct (ReadOnly opts); [done|]. by apply removeTmpDirs_keeps. }
  assert (Hdok : dir_ok dir -> dir_ok dir').
  { intros Hd name md E. apply (Hd name md). subst dir'. destruct (ReadOnly opts); [done|].
    by apply map_lookup_filter_Some in E as [E _]. }
  clearbody dir'. assert (Hsnap0 := Hsnap'). destruct Hsnap' as (t & md & Hst & Hc & Hs & Hl).
  destruct (Hl (ZeroCopy opts) (CacheSize opts)) as (t0 & E0 & Ha0).
  destruct (catchup_at hist log q p m k t t0 Hh Hlog Hk Hst Ha0) as (t' & t1 & Hst' & E1 & Ha1).
  rewrite Htar. change (0 <? 0) with false. cbn [mbind res_bind]. unfold open_dir. rewrite Hc, Hs. cbn [mbind res_bind].
  rewrite E0. cbn [mbind res_bind]. change (0 =? 0) with true. cbn [orb]. change (i64 0) with 0. rewrite E1.
  cbn [mbind res_bind]. rewrite andb_false_r. cbn [mbind res_bind]. rewrite Hini.
  change (0 <? zlen []) with false. rewrite andb_false_r.
  exists t'. eexists. split; [done|]. split; [reflexivity|]. split; [exact Ha1|done].
Qed.

(** ** The invariant of a running database *)

Definition rewrite_ok hist (k : nat) (r : option (rewrite C)) : Prop :=
  match r with
  | Some (Running t') | Some (Done (Some t') _) => exists n t, (k <= n)%nat /\ state_at hist n t /\ agrees t t'
  | _ => True
  end.

Definition tree_ok_at hist db : Prop := exists t base,
  state_at hist (length hist) t /\ agrees t base /\ pending_ok base (pendingLog db) (db_tree db).

(** The log ends at block [m] and the snapshot is at block [k]. *)
Definition disk_at hist db (m k : nat) : Prop := exists log p,
  db_wal db = Some log /\ log_ok hist log (default [] (walChan db)) p m /\
  snap_ok hist (db_dir db) k /\ (p <= k)%nat /\ rewrite_ok hist k (snapshotRewrite db) /\ dir_ok (db_dir db).
Definition disk_ok hist db : Prop := exists m k, disk_at hist db m k.

Record db_ok hist db : Prop := {
  do_hist : hist_ok hist;
  do_tree : tree_ok_at hist db;
  do_disk : disk_ok hist db
}.

(** *** The writer *)

Lemma log_ok_write hist log q p m n :
  hist_ok hist -> log_ok hist log q p m ->
  exists log' m', log_write log (take n q) = Ok log' /\ log_ok hist log' (drop n q) p m' /\ (m <= m')%nat /\
    (length q <= n -> m' = length hist)%nat.
Proof.
  intros Hh Hlog. pose proof (log_last _ _ _ _ _ Hlog) as Hlast. destruct Hlog as [Hr Hv Hq].
  assert (Henc : Forall encodable (take n (drop m hist))) by (by apply Forall_take, Forall_drop, ho_encodable).
  destruct (log_write_appends log (take n (drop m hist)) Henc) as (log' & E & Hv').
  assert (Hz : length (take n (drop m hist)) = Nat.min n (length hist - m)) by (by rewrite length_take, length_drop).
  exists log', (m + Nat.min n (length hist - m))%nat. split; [|split; [split|split]].
  - rewrite Hq, queue_of_take. by rewrite Hlast in E.
  - lia.
  - rewrite Hv', Hv. unfold wv_append. cbn [wv_first wv_entries]. f_equal. rewrite <- map_app. f_equal.
    rewrite <- (take_take_drop hist m), drop_app_le by (rewrite length_take; lia). f_equal.
    rewrite <- (firstn_all2 (n := n `min` (length hist - m)) (take n (drop m hist))) by lia.
    rewrite take_take. f_equal. lia.
  - rewrite Hq, queue_of_drop. unfold zlen. rewrite Hz. f_equal; [lia|]. rewrite drop_drop.
    destruct (le_lt_dec n (length hist - m)); [by rewrite Nat.min_l|].
    rewrite !drop_ge by lia. done.
  - lia.
  - rewrite Hq, queue_of_length, length_drop. lia.
Qed.

Lemma log_writer_ok hist db db' n :
  db_ok hist db -> log_writer n db = (db', Ok tt) -> db_ok hist db'.
Proof.
  intros [Hh Ht (m & k & log & p & Hw & Hlog & Hsn & Hpk & Hrw)] E. unfold log_writer in E. rewrite Hw in E.
  destruct (walChan db) as [ch|] eqn:Ech; [|injection E as <-; split; [done|done|exists m, k, log, p; by rewrite Ech]].
  destruct (walQuit db); [injection E as <-; split; [done|done|exists m, k, log, p; by rewrite Ech]|].
  cbn [default] in Hlog. change (default [] (Some ch)) with ch in Hlog.
  destruct (log_ok_write hist log ch p m n Hh Hlog) as (log' & m' & El & Hlog' & _). rewrite El in E. injection E as <-.
  split; [done|exact Ht|]. exists m', k, log', p. done.
Qed.

(** *** Changes *)

(** The parts on disk and in flight are the same. *)
Definition same_disk db db' : Prop :=
  db_wal db' = db_wal db /\ walChan db' = walChan db /\ db_dir db' = db_dir db /\ snapshotRewrite db' = snapshotRewrite db.

Lemma db_ok_tree hist db db' : db_ok hist db -> same_disk db db' -> tree_ok_at hist db' -> db_ok hist db'.
Proof.
  intros [Hh _ (m & k & log & p & Hd)] (Ew & Ec & Ed & Er) Ht. split; [done|done|].
  exists m, k, log, p. by rewrite Ew, Ec, Ed, Er.
Qed.

Lemma on_mt_ok {A} (f : SE (MultiTree C) A) db db' a :
  on_mt f db = (db', Ok a) -> exists t, f (db_tree db) = (t, Ok a) /\ db' = with_tree db t.
Proof. unfold on_mt. destruct (f (db_tree db)) as [t r]. intros [= <- ->]. eauto. Qed.

Lemma unless_readOnly_ok {A} (f : SE (DB C L) A) db db' a :
  unless_readOnly f db = (db', Ok a) -> readOnly db = false /\ f db = (db', Ok a).
Proof. unfold unless_readOnly. by destruct (readOnly db). Qed.

Lemma ApplyUpgrades_db hist db db' us m :
  db_ok hist db -> Changesets (pendingLog db) = [] ->
  upgrade_maps (new_tree (db_tree db)) (stores (db_tree db)) us = Some m ->
  ApplyUpgrades us db = (db', Ok tt) -> db_ok hist db'.
Proof.
  intros Hdb He Hm E. apply unless_readOnly_ok in E as [_ E].
  apply SE_bind_ok in E as (db1 & [] & E1 & [= <-]). apply on_mt_ok in E1 as (t & Et & ->).
  apply (db_ok_tree hist db); [done|done|]. destruct (do_tree _ _ Hdb) as (th & base & Hst & Ha & Hp).
  exists th, base. split; [done|]. split; [done|]. by eapply pending_upgrades.
Qed.

Lemma applyChangeSet_db hist db db' name cs :
  db_ok hist db -> applyChangeSet name cs db = (db', Ok tt) -> db_ok hist db'.
Proof.
  intros Hdb E. unfold applyChangeSet in E. destruct (_ =? 0); [by injection E as <-|].
  apply unless_readOnly_ok in E as [_ E]. apply SE_bind_ok in E as (db1 & [] & [= <-] & E).
  apply on_mt_ok in E as (t & Et & ->). apply (db_ok_tree hist db); [done|done|].
  destruct (do_tree _ _ Hdb) as (th & base & Hst & Ha & Hp).
  exists th, base. split; [done|]. split; [done|]. by eapply (pending_change base (pendingLog db)).
Qed.

Lemma ApplyChangeSets_db hist db db' css :
  db_ok hist db -> NoDup (names_of css) -> ApplyChangeSets css db = (db', Ok tt) -> db_ok hist db'.
Proof.
  intros Hdb Hd E. unfold ApplyChangeSets in E. destruct (_ =? 0); [by injection E as <-|].
  apply unless_readOnly_ok in E as [_ E]. apply SE_bind_ok in E as (db1 & pend & [= <- <-] & E).
  destruct (Z.eqb_spec (zlen (Changesets (pendingLog db))) 0) as [Hz|Hz].
  - apply SE_bind_ok in E as (db1 & [] & [= <-] & E). apply on_mt_ok in E as (t & Et & ->).
    assert (He : Changesets (pendingLog db) = []).
    { destruct (Changesets (pendingLog db)); [done|]. rewrite zlen_cons in Hz. pose proof (zlen_nonneg l). lia. }
    apply (db_ok_tree hist db); [done|done|]. destruct (do_tree _ _ Hdb) as (th & base & Hst & Ha & Hp).
    exists th, base. split; [done|]. split; [done|]. by eapply pending_changes.
  - revert E. apply for_each_invariant; [|done]. intros c s s' _ Hs Es. by eapply applyChangeSet_db.
Qed.

(** *** Commit *)

Lemma pending_zero_agrees base live : pending_ok (C := C) base WALEntry_zero live -> agrees base live.
Proof.
  intros [Hb Hl (Hi & Hc & _) Hv _ (m & [= <-] & _ & Hs)]. split; [|done].
  apply stores_sim; [done|done| |done|done]. unfold Version. by rewrite Hc.
Qed.

(** The state of the tree when nothing is pending. *)
Lemma clean_tree hist db :
  hist_ok hist -> tree_ok_at hist db -> pendingLog db = WALEntry_zero ->
  exists t, state_at hist (length hist) t /\ agrees t (db_tree db) /\ mt_ok (db_tree db).
Proof.
  intros Hh (t & base & Hst & Ha & Hp) E. rewrite E in Hp. exists t. split; [done|].
  split; [|apply (po_live _ _ _ Hp)]. etrans; [exact Ha|]. by apply pending_zero_agrees.
Qed.

Lemma clean_tree_intro hist db t :
  hist_ok hist -> pendingLog db = WALEntry_zero -> state_at hist (length hist) t -> agrees t (db_tree db) ->
  tree_ok_at hist db.
Proof.
  intros Hh E Hst Ha. exists t, (db_tree db). split; [done|]. split; [done|]. rewrite E.
  pose proof (state_at_ok hist _ t Hh Hst) as (Ht & _ & _ & Hv). apply pending_start.
  - apply (mt_ok_sim t); [done|apply Ha].
  - destruct Ha as [Hs _]. by rewrite <- (sim_version _ _ Hs).
Qed.

(** Saving the version makes the pending log a block of the history. *)
Lemma commit_saved hist db t v :
  db_ok hist db -> encodable (pendingLog db) ->
  tree_version (Version g) (initialVersion g) + zlen hist + 1 < MaxInt64 ->
  SaveVersion true (db_tree db) = (t, Ok v) ->
  let hist' := hist ++ [pendingLog db] in
  hist_ok hist' /\ walIndex v (initialVersion t) = s0 + zlen hist + 1 /\
  exists t', state_at hist' (length hist') t' /\ agrees t' t.
Proof.
  intros [Hh (th & base & Hst & [Hs Hci] & Hp) _] Henc Hb E hist'.
  pose proof (state_at_ok hist _ th Hh Hst) as (Hth & Hith & Hsv & Hvth).
  destruct (pending_replays _ _ _ Hp) as (w & Ew & Hw & Hsw).
  destruct Hp as [Hbase Hlive (Hil & Hcl & _) Hvb _ _].
  assert (Hvl : Version (db_tree db) = Version base) by (unfold Version; by rewrite Hcl).
  rewrite SaveVersion_state in E by (done || lia). injection E as <- <-.
  assert (Hvw : Version w = Version base) by (by rewrite (sim_version _ _ Hsw)).
  assert (Ecb : commit_block (pendingLog db) base = (saved_state w true, Ok tt)).
  { unfold commit_block. apply SE_bind_ok. eexists _, _. split; [exact Ew|]. apply SE_bind_ok. eexists _, _.
    split; [apply SaveVersion_state; [done|lia]|reflexivity]. }
  destruct (commit_block_sim _ base th _ Hbase Hth Hvb ltac:(by symmetry) Ecb) as (t' & Et' & Hs' & Hc').
  destruct (saved_state_sim w (db_tree db) Hsw) as [Hss Hsc].
  assert (Hrun : run_blocks hist' g = (t', Ok tt)).
  { apply run_blocks_snoc. exists th. split; [|done]. destruct Hst as [_ Hst]. by rewrite firstn_all in Hst. }
  assert (Hh' : hist_ok hist').
  { destruct Hh as [Hg He Hbd _]. split; [done| | |eauto].
    - apply Forall_app. split; [done|]. by repeat constructor.
    - unfold hist'. rewrite zlen_app. change (zlen [pendingLog db]) with 1. lia. }
  assert (Hst' : state_at hist' (length hist') t') by (split; [done|]; by rewrite firstn_all).
  split; [done|]. split.
  - cbn [initialVersion saved_state with_commit with_trees].
    rewrite walIndex_next; [|apply (mo_version _ Hlive)|lia]. rewrite Hvl, Hil.
    rewrite <- (sim_version _ _ Hs), <- (sim_init _ _ Hs), Hith, Hsv. unfold zlen. lia.
  - exists t'. split; [done|]. split; [etrans; [symmetry; exact Hs'|exact Hss]|congruence].
Qed.

Lemma snap_ok_extend hist dir k b : snap_ok hist dir k -> snap_ok (hist ++ [b]) dir k.
Proof. intros (t & md & Hst & Hrest). exists t, md. split; [by apply state_at_extend|done]. Qed.

Lemma rewrite_ok_extend hist k r b : rewrite_ok hist k r -> rewrite_ok (hist ++ [b]) k r.
Proof.
  destruct r as [[t'|[t'|] e]|]; cbn [rewrite_ok]; try done;
    intros (n & t & Hn & Hst & Ha); exists n, t; (split; [done|]); (split; [by apply state_at_extend|done]).
Qed.

(** The entry reaches the queue or the log. *)
Lemma log_entry_ok hist b db db' :
  hist_ok (hist ++ [b]) -> disk_ok hist db ->
  log_entry {| we_index := s0 + zlen hist + 1; we_data := b |} db = (db', Ok tt) ->
  disk_ok (hist ++ [b]) db' /\ db_tree db' = db_tree db.
Proof.
  intros Hh (m & k & log & p & Hw & Hlog & Hsn & Hpk & Hrw & Hd) E. unfold log_entry in E. rewrite Hw in E.
  apply (snap_ok_extend _ _ _ b) in Hsn. apply (rewrite_ok_extend _ _ _ b) in Hrw.
  pose proof (log_last _ _ _ _ _ Hlog) as Hlast. destruct Hlog as [Hr Hv Hq].
  assert (Ht : forall n, (n <= length hist)%nat -> take n (hist ++ [b]) = take n hist) by (intros; by apply take_app_le).
  destruct (0 <=? walChanSize db).
  - injection E as <-. split; [|done]. exists m, k, log, p. split; [done|]. split; [|done]. split.
    + rewrite length_app. lia.
    + by rewrite Ht by lia.
    + cbn [walChan with_wal]. change (default [] (Some ?x)) with x. rewrite Hq, drop_app_le by lia.
      rewrite queue_of_app. f_equal. cbn [queue_of]. do 2 f_equal. unfold zlen. rewrite length_drop. lia.
  - destruct (log_write log _) as [log'|e|] eqn:El; [|done|done]. injection E as <-. split; [|done].
    assert (Hm : m = length hist).
    { destruct (decide (m = length hist)) as [|Hne]; [done|]. exfalso. revert El. unfold log_write.
      rewrite wal_LastIndex_view. cbn [mbind res_bind].
      pose proof (writeEntries_new (wv_last (view log)) (s0 + zlen hist + 1) [b] []) as Hwe. cbn [queue_of] in Hwe.
      rewrite Hwe; [|unfold zlen; lia|apply ho_encodable in Hh; apply Forall_app in Hh as [_ ?]; done].
      cbn [mbind res_bind app map we_index]. rewrite wal_WriteBatch_order; [done|].
      cbn [in_order]. rewrite (proj2 (Z.eqb_neq _ _)); [done|]. unfold zlen. lia. }
    subst m. rewrite drop_ge in Hq by done.
    destruct (log_write_appends log [b]) as (log1 & E1 & Hv1); [apply ho_encodable in Hh; apply Forall_app in Hh as [_ ?]; done|].
    cbn [queue_of] in E1. rewrite Hlast in E1. unfold zlen in El. rewrite E1 in El. injection El as <-.
    exists (S (length hist)), k, log1, p. split; [done|]. split; [|done]. split.
    + rewrite length_app. simpl. lia.
    + rewrite Hv1, Hv. unfold wv_append. cbn [wv_first wv_entries]. f_equal. rewrite <- map_app. f_equal.
      rewrite firstn_all, (firstn_all2 (n := S (length hist))) by (rewrite length_app; simpl; lia).
      by rewrite drop_app_le by lia.
    + rewrite drop_ge by (rewrite length_app; simpl; lia). exact Hq.
Qed.

(** *** Pruning *)

Lemma walIndex_older v init e :
  version_ok v init -> v < MaxInt64 -> 0 <= e <= v -> walIndex (i64 (e + 1)) init < 2 ^ 63 ->
  walIndex (i64 (e + 1)) init <= saved v init + 1.
Proof.
  unfold version_ok, walIndex, saved, MaxInt64. intros (Hi & Hv & Hd) Hl He.
  rewrite i64_small, (u64_small (e + 1)) by lia.
  destruct (Z.ltb_spec 1 init) as [Hin1|Hin1]; [|destruct (Z.eqb_spec v 0); lia].
  destruct (Z.lt_ge_cases (e + 1 - init + 1) 0) as [Hneg|Hpos].
  - intros Hlt. exfalso. revert Hlt. unfold u64.
    assert (E : (e + 1 - init + 1) mod 2 ^ 64 = e + 1 - init + 1 + 2 ^ 64);
      [symmetry; apply (Z.mod_unique_pos _ _ (-1)); lia|]. rewrite E. lia.
  - rewrite u64_small by lia. destruct (Z.eqb_spec v 0); lia.
Qed.

Lemma log_ok_truncate hist log q p m i :
  log_ok hist log q p m -> s0 + Z.of_nat p + 1 <= i <= s0 + Z.of_nat m ->
  exists log' p', wal_TruncateFront log i = Ok log' /\ log_ok hist log' q p' m /\ i = s0 + Z.of_nat p' + 1.
Proof.
  intros Hlog Hi. pose proof (log_last _ _ _ _ _ Hlog) as Hlast. destruct Hlog as [Hr Hv Hq].
  destruct (wal_TruncateFront_view log i) as (log' & E & Hv'); [rewrite Hlast, Hv; cbn [wv_first]; lia|].
  exists log', (Z.to_nat (i - s0 - 1)). split; [done|]. split; [|lia]. split; [lia| |done].
  rewrite Hv', Hv. unfold wv_truncate_front. cbn [wv_first wv_entries]. f_equal; [lia|].
  rewrite skipn_map, drop_drop. do 2 f_equal. lia.
Qed.

Lemma s0_nonneg : mt_ok g -> 0 <= s0.
Proof.
  intros Hg. pose proof (mo_version g Hg) as (?&?&?). unfold s0, saved.
  destruct (Z.eqb_spec (Version g) 0); [lia|]. destruct (1 <? initialVersion g); lia.
Qed.

Lemma saved_bound v init : version_ok v init -> saved v init <= MaxInt64.
Proof. unfold version_ok, saved, MaxInt64. intros (?&?&?). destruct (v =? 0); [lia|]. destruct (1 <? init) eqn:E; [apply Z.ltb_lt in E|]; lia. Qed.

Lemma pruneSnapshots_ok hist db db' locked :
  hist_ok hist -> disk_ok hist db -> initialVersion (db_tree db) = initialVersion g ->
  pruneSnapshots locked db = (db', Ok tt) ->
  disk_ok hist db' /\ db_tree db' = db_tree db /\ pendingLog db' = pendingLog db.
Proof.
  intros Hh (m & k & log & p & Hw & Hlog & Hsn & Hpk & Hrw & Hd) Hi E. unfold pruneSnapshots in E.
  destruct Hsn as (t & md & Hst & Hc & Hs & Hl).
  pose proof (state_at_ok hist k t Hh Hst) as (Ht & Hit & Hsv & Hvt). pose proof (mo_version t Ht) as Hvok.
  assert (Hvr : 0 <= Version t < 2 ^ 63) by (destruct Hvok as (_ & ? & _); unfold MaxInt64 in *; lia).
  assert (Hcur : currentVersion (db_dir db) = Ok (Version t)).
  { unfold currentVersion, Readlink. rewrite Hc. cbn [mbind res_bind]. by apply parseVersion_name. }
  assert (Hin : Version t ∈ snapshots (db_dir db)) by (apply snapshots_elem; [done|]; eauto).
  destruct (prune_dir locked (snapshotKeepRecent db) (db_dir db)) as [dir r] eqn:Ep.
  destruct (prune_dir_keeps _ _ _ _ _ _ Hd Hcur Hin Ep) as (Hd' & Hst' & e & -> & He).
  assert (Hsn' : snap_ok hist dir k).
  { exists t, md. split; [done|]. rewrite !Hst'; [done|by left|by right]. }
  cbn [db_wal with_dir db_tree] in E. rewrite Hw, Hi in E.
  set (i := walIndex (i64 (e + 1)) (initialVersion g)) in *.
  pose proof (log_last _ _ _ _ _ Hlog) as Hlast. destruct (lo_range _ _ _ _ _ Hlog) as [_ Hm].
  destruct (decide (s0 + Z.of_nat p + 1 <= i <= s0 + Z.of_nat m)) as [Hri|Hri].
  - destruct (log_ok_truncate _ _ _ _ _ _ Hlog Hri) as (log' & p' & Et & Hlog' & Hip). rewrite Et in E.
    injection E as <-. split; [|done]. exists m, k, log', p'. split; [done|]. split; [exact Hlog'|]. split; [exact Hsn'|].
    split; [|done].
    assert (Hmax : s0 + Z.of_nat m <= MaxInt64).
    { destruct (state_at_exists hist m Hh) as [tm Htm]; [lia|].
      pose proof (state_at_ok hist m tm Hh Htm) as (Hokm & Him & Hsvm & _). rewrite <- Hsvm, <- Him.
      apply saved_bound, (mo_version tm Hokm). }
    assert (i <= saved (Version t) (initialVersion g) + 1); [|lia].
    rewrite Hit in Hvok. apply walIndex_older; [done|done|done|]. fold i. unfold MaxInt64 in *. lia.
  - rewrite wal_TruncateFront_range in E; [|rewrite Hlast, (lo_view _ _ _ _ _ Hlog); exact Hri].
    injection E as <-. split; [|done]. exists m, k, log, p. done.
Qed.

(** *** The checks of a commit *)

Lemma Copy_agrees t size : mt_ok t -> agrees t (MultiTree.Copy t size).
Proof.
  intros Ht. split; [|done]. unfold MultiTree.Copy. set (l := map _ (trees t)).
  assert (Hl : Forall2 same_entry (trees t) l).
  { subst l. clear. induction (trees t) as [|e l IH]; constructor; [by split|done]. }
  split; [done|done| |done]. cbn [treesByName with_index].
  eapply index_ok_unique; [apply (mo_index t Ht)|apply index_from_ok|by apply same_names].
  rewrite <- (same_names _ _ Hl). by apply mo_names.
Qed.

Definition clean hist db : Prop := db_ok hist db /\ pendingLog db = WALEntry_zero.

Lemma rewriteIfApplicable_ok hist db db' v :
  clean hist db -> rewriteIfApplicable v db = (db', Ok tt) -> clean hist db'.
Proof.
  intros [[Hh Ht (m & k & log & p & Hw & Hlog & Hsn & Hpk & Hrw & Hd)] Hz] E. unfold rewriteIfApplicable in E.
  assert (Hsame : clean hist db) by (split; [split; [done|done|exists m, k, log, p; done]|done]).
  destruct (_ =? 0); [done|]. destruct (negb _); [by injection E as <-|].
  unfold rewriteSnapshotBackground in E. destruct (snapshotRewrite db); [by injection E as <-|].
  injection E as <-. split; [|done]. split; [done|exact Ht|].
  exists m, k, log, p. split; [done|]. split; [done|]. split; [done|]. split; [done|]. split; [|done].
  cbn [snapshotRewrite with_rewrite rewrite_ok].
  destruct (clean_tree hist db Hh Ht Hz) as (t & Hst & Ha & Hok). exists (length hist), t.
  assert (Hk : (k <= length hist)%nat) by (destruct Hsn as (? & ? & [? _] & _); done).
  split; [done|]. split; [done|]. etrans; [exact Ha|]. by apply Copy_agrees.
Qed.

(** Once the channel is empty the log has the whole history. *)
Lemma flush_ok hist db db' m k :
  hist_ok hist -> disk_at hist db m k -> walQuit db = None -> flush db = (db', Ok tt) ->
  disk_at hist db' (length hist) k /\
  db_tree db' = db_tree db /\ pendingLog db' = pendingLog db /\ snapshotRewrite db' = snapshotRewrite db.
Proof.
  intros Hh (log & p & Hw & Hlog & Hrest) Hq E.
  assert (Hempty : default [] (walChan db) = [] -> m = length hist).
  { intros E0. pose proof (lo_queue _ _ _ _ _ Hlog) as Hqe. rewrite E0 in Hqe. apply (f_equal length) in Hqe.
    rewrite queue_of_length, length_drop in Hqe. destruct (lo_range _ _ _ _ _ Hlog). simpl in Hqe. lia. }
  assert (Hcase : default [] (walChan db) = [] /\ db' = db \/
    exists ch, walChan db = Some ch /\ log_writer (length ch) db = (db', Ok tt)).
  { unfold flush in E. destruct (walChan db) as [[|e ch]|] eqn:Ech.
    - injection E as <-. by left.
    - right. exists (e :: ch). done.
    - injection E as <-. by left. }
  destruct Hcase as [[E0 ->]|(ch & Ech & Ew)].
  - split; [|done]. rewrite Hempty in Hlog by done. exists log, p. done.
  - unfold log_writer in Ew. rewrite Hw, Hq, Ech in Ew. rewrite Ech in Hlog.
    change (default [] (Some ch)) with ch in Hlog.
    destruct (log_ok_write hist log ch p m (length ch) Hh Hlog) as (log' & m' & El & Hlog' & _ & Hm).
    rewrite El in Ew. injection Ew as <-. rewrite Hm in Hlog' by done. split; [|done]. exists log', p. done.
Qed.

(** Switching to the multi-tree of a rewrite: it catches up with the whole history. *)
Lemma switch_ok hist db db' mtree t1 k log :
  hist_ok hist -> disk_at hist db (length hist) k -> pendingLog db = WALEntry_zero ->
  rewrite_ok hist k (Some (Done (Some mtree) None)) -> db_wal db = Some log ->
  (let '(t, r) := CatchupWAL log 0 mtree in _ ← r; Ok t) = Ok t1 ->
  reloadMultiTree t1 db = (db', Ok tt) -> clean hist db' /\ initialVersion (db_tree db') = initialVersion g.
Proof.
  intros Hh (log' & p & Hw & Hlog & Hsn & Hpk & Hrw & Hd) Hz (n & t & Hn & Hst & Ha) Hw' Ec E.
  rewrite Hw in Hw'. injection Hw' as ->.
  destruct (catchup_at hist log _ p (length hist) n t mtree Hh Hlog ltac:(lia) Hst Ha) as (t' & t1' & Hst' & Ec' & Ha').
  rewrite Ec' in Ec. injection Ec as ->. assert (Hnl : (n <= length hist)%nat) by apply Hst.
  rewrite Nat.max_r in Hst' by lia. unfold reloadMultiTree in E.
  apply SE_bind_ok in E as (d1 & [] & [= <-] & E). apply SE_bind_ok in E as (d2 & pend & [= <- <-] & E).
  apply on_mt_ok in E as (t2 & Et2 & ->). cbn [pendingLog with_tree db_tree] in *. rewrite Hz in Et2.
  injection Et2 as <-. split.
  - split; [|done]. split; [done| |exists (length hist), k, log, p; done].
    by apply (clean_tree_intro hist _ t').
  - cbn [db_tree with_tree]. pose proof (state_at_ok hist _ t' Hh Hst') as (_ & <- & _).
    destruct Ha' as [Hs' _]. by rewrite (sim_init _ _ Hs').
Qed.

Lemma checkAsyncTasks_ok hist db db' locked :
  clean hist db -> checkAsyncTasks locked db = (db', Ok tt) -> clean hist db'.
Proof.
  intros [[Hh Ht (m & k & Hdisk)] Hz] E. unfold checkAsyncTasks, checkAsyncCommit in E.
  destruct (checkBackgroundSnapshotRewrite locked db) as [db1 r] eqn:Eb.
  destruct (walQuit db) eqn:Hq; [done|]. injection E as <- ->. unfold checkBackgroundSnapshotRewrite in Eb.
  assert (Hsame : clean hist db) by (split; [split; [done|done|by exists m, k]|done]).
  destruct (snapshotRewrite db) as [[cl|mtree err]|] eqn:Er; [by injection Eb as <-| |by injection Eb as <-].
  assert (Hdisk1 : disk_at hist (with_rewrite db None) m k).
  { destruct Hdisk as (log & p & Hd). exists log, p. naive_solver. }
  destruct mtree as [mtree|].
  2: { injection Eb as <- _. split; [|done]. split; [done|exact Ht|by exists m, k]. }
  apply SE_bind_ok in Eb as (d2 & [] & Ef & Eb). apply SE_bind_ok in Eb as (d3 & [] & Ew & Eb).
  injection Ew as <- _. apply SE_bind_ok in Eb as (d4 & ol & [= <- <-] & Eb).
  apply SE_bind_ok in Eb as (d5 & log & El & Eb). injection El as <- El.
  apply SE_bind_ok in Eb as (d6 & t1 & Ec & Eb). injection Ec as <- Ec.
  apply SE_bind_ok in Eb as (d7 & [] & Erl & Ep).
  destruct (flush_ok hist _ _ m k Hh Hdisk1 Hq Ef) as (Hdisk2 & Htr & Hpe & Hrw).
  assert (Hlog : db_wal d2 = Some log) by (destruct (db_wal d2); [by injection El as ->|done]).
  destruct (switch_ok hist d2 d7 mtree t1 k log Hh Hdisk2) as [[[_ Ht7 Hd7] Hz7] Hi7]; [by rewrite Hpe| |done|done|done|].
  { destruct Hdisk as (lg & p & _ & _ & _ & _ & Hrw0 & _). by rewrite Er in Hrw0. }
  destruct (pruneSnapshots_ok hist d7 db1 locked Hh Hd7 Hi7 Ep) as (Hd' & Et' & Ep').
  split; [|congruence]. split; [done| |done]. destruct (clean_tree hist d7 Hh Ht7 Hz7) as (t & Hst & Ha & _).
  apply (clean_tree_intro hist db1 t); [done|congruence|done|by rewrite Et'].
Qed.

Lemma Commit_ok hist db db' v locked :
  db_ok hist db -> encodable (pendingLog db) ->
  tree_version (Version g) (initialVersion g) + zlen hist + 1 < MaxInt64 ->
  Commit locked db = (db', Ok v) -> clean (hist ++ [pendingLog db]) db'.
Proof.
  intros Hdb Henc Hb E. unfold Commit in E. apply unless_readOnly_ok in E as [_ E].
  apply SE_bind_ok in E as (d1 & w & E1 & E). apply on_mt_ok in E1 as (t & Es & ->).
  destruct (commit_saved hist db t w Hdb Henc Hb Es) as (Hh' & Hidx & t' & Hst' & Ha').
  apply SE_bind_ok in E as (d2 & entry & [= <- <-] & E). cbn [db_tree with_tree pendingLog] in E.
  apply SE_bind_ok in E as (d3 & [] & El & E). rewrite Hidx in El.
  assert (Hdisk : disk_ok hist (with_tree db t)) by (destruct (do_disk _ _ Hdb) as (m & k & Hd); exists m, k; exact Hd).
  destruct (log_entry_ok hist (pendingLog db) _ d3 Hh' Hdisk El) as [Hd3 Ht3].
  apply SE_bind_ok in E as (d4 & [] & [= <-] & E). apply SE_bind_ok in E as (d5 & [] & Ec & E).
  apply SE_bind_ok in E as (d6 & [] & Er & [= <- _]).
  assert (Hcl : clean (hist ++ [pendingLog db]) (with_pending d3 WALEntry_zero)).
  { split; [|done]. split; [done| |destruct Hd3 as (m & k & Hd); exists m, k; exact Hd].
    apply (clean_tree_intro _ _ t'); [done|done|done|]. cbn [db_tree with_pending]. by rewrite Ht3. }
  apply (checkAsyncTasks_ok _ _ _ _ Hcl) in Ec. by apply (rewriteIfApplicable_ok _ _ _ _ Ec) in Er.
Qed.
End recovery.
