(* ===== verification/DBCrash.v ===== *)
(** * Runs of a database and its crashes

    A run starts with [Load] on an empty directory and goes on with changes, commits,
    rounds of the log writer, snapshot rewrites and restarts after a crash ([reach]).  A
    crash keeps the directory as one of the steps of the rewrite leaves it, and a prefix of
    the log.  Every reachable state satisfies the invariant of [DBRecovery], so [Load]
    recovers from every crash. *)

From Stdlib Require Import Strings.Byte ZArith Lia.
From stdpp Require Import base list numbers strings gmap.
From S2P Require Import Prelude Binary Proto ProtoInv ProtoCodec State Node Snapshot SnapshotWriter Cache Tree Wal.
From S2P Require Import MultiTree MultiTreeInv MultiTreeSim MultiTreeSnapshot SnapshotDir SnapshotDirInv DB DBInv.
From S2P Require Import DBRecovery.
Local Open Scope Z_scope.

Section rewriting.
Context `{CacheLaws C} `{WalLaws L}.
Variable g : MultiTree C.
Implicit Types (t : MultiTree C) (hist : list WALEntry) (log : L) (db : DB C L) (dir : DBDir).

(** The snapshots that hold something stay. *)
Definition keeps_snapshots dir dir' : Prop :=
  dir' !! currentName = dir !! currentName /\
  forall v md, 0 <= v -> md <> ∅ -> dir !! snapshotName v = Some (Sub md) -> dir' !! snapshotName v = Some (Sub md).

Lemma snap_ok_keeps hist dir dir' k :
  hist_ok g hist -> snap_ok g hist dir k -> keeps_snapshots dir dir' -> snap_ok g hist dir' k.
Proof.
  intros Hh (t & md & Hst & Hc & Hs & Hl) [Hc' Hs']. exists t, md. split; [done|]. rewrite Hc'. split; [done|].
  split; [|done]. pose proof (state_at_ok g hist k t Hh Hst) as (Ht & _).
  apply Hs'; [apply (mo_version t Ht)| |done]. intros ->. destruct (Hl false 0) as (t' & E & _). by vm_compute in E.
Qed.

Lemma snapshotName_current v : 0 <= v -> snapshotName v <> currentName.
Proof. intros Hv E. apply (f_equal length) in E. rewrite snapshotName_length in E by done. done. Qed.
Lemma snapshotName_currentTmp v : 0 <= v -> snapshotName v <> currentTmpName.
Proof. intros Hv E. apply (f_equal length) in E. rewrite snapshotName_length in E by done. done. Qed.
Lemma tmp_snapshotName v v' : 0 <= v -> 0 <= v' -> snapshotName v <> snapshotName v' ++ TmpSuffix.
Proof. intros. apply app_tmp_ne. by rewrite !snapshotName_length. Qed.
Lemma tmp_current v : 0 <= v -> snapshotName v ++ TmpSuffix <> currentName.
Proof. intros Hv E. apply (f_equal length) in E. rewrite length_app, snapshotName_length in E by done. done. Qed.

Lemma keeps_tmp dir v e : 0 <= v -> keeps_snapshots dir (partial_alter (fun _ => e) (snapshotName v ++ TmpSuffix) dir).
Proof.
  intros Hv. split; [by rewrite lookup_partial_alter_ne by by apply tmp_current|].
  intros v' md Hv' _ E. rewrite lookup_partial_alter_ne; [done|]. apply not_eq_sym. by apply tmp_snapshotName.
Qed.

Lemma keeps_new dir v e :
  0 <= v < 2 ^ 63 -> dir_ok dir -> (dir !! snapshotName v = None \/ dir !! snapshotName v = Some (Sub ∅)) ->
  keeps_snapshots dir (<[snapshotName v := e]> dir).
Proof.
  intros Hv Hd Hn. split; [by rewrite lookup_insert_ne by (apply snapshotName_current; lia)|].
  intros v' md Hv' Hmd E. destruct (decide (snapshotName v = snapshotName v')) as [Hx|Hx].
  - rewrite Hx in Hn. rewrite E in Hn. naive_solver.
  - by rewrite lookup_insert_ne.
Qed.

Lemma keeps_currentTmp dir e : keeps_snapshots dir (<[currentTmpName := e]> dir).
Proof.
  split; [by rewrite lookup_insert_ne|]. intros v md Hv _ E.
  rewrite lookup_insert_ne; [done|]. apply not_eq_sym. by apply snapshotName_currentTmp.
Qed.

#[local] Instance keeps_preorder : PreOrder keeps_snapshots.
Proof.
  split; [done|]. intros d1 d2 d3 [Hc Hs] [Hc' Hs']. split; [by rewrite Hc'|]. intros v md Hv Hmd E. auto.
Qed.

Lemma dir_ok_insert dir name e :
  dir_ok dir -> (isSnapshotName name = true -> exists v, 0 <= v < 2 ^ 63 /\ name = snapshotName v) ->
  dir_ok (<[name := e]> dir).
Proof.
  intros Hd Hn name' m E. apply lookup_insert_Some in E as [[<- _]|[_ E]]; [done|]. by apply (Hd name' m).
Qed.
Lemma dir_ok_delete dir name : dir_ok dir -> dir_ok (delete name dir).
Proof. intros Hd name' m E. apply lookup_delete_Some in E as [_ E]. by apply (Hd name' m). Qed.

(** ** The rewrite of a snapshot *)

(** The steps of the rewrite in which the current snapshot is still the old one: writing the
    temporary directory, renaming it, making the link under its temporary name. *)
Inductive rewriting (ctx : bytes -> Context_) (t : MultiTree C) (dir : DBDir) : DBDir -> Prop :=
| rewriting_write m : rewriting ctx t dir (<[snapshotName (Version t) ++ TmpSuffix := Sub m]> dir)
| rewriting_failed : rewriting ctx t dir (delete (snapshotName (Version t) ++ TmpSuffix) dir)
| rewriting_renamed dir1 dir2 :
    write_snapshot ctx (snapshotName (Version t) ++ TmpSuffix) t dir = (dir1, Ok tt) ->
    rename_dir (snapshotName (Version t) ++ TmpSuffix) (snapshotName (Version t)) dir1 = (dir2, Ok tt) ->
    rewriting ctx t dir dir2
| rewriting_link dir1 dir2 :
    write_snapshot ctx (snapshotName (Version t) ++ TmpSuffix) t dir = (dir1, Ok tt) ->
    rename_dir (snapshotName (Version t) ++ TmpSuffix) (snapshotName (Version t)) dir1 = (dir2, Ok tt) ->
    rewriting ctx t dir (<[currentTmpName := Link (snapshotName (Version t))]> dir2).

Lemma write_snapshot_inv ctx name t dir dir' r :
  write_snapshot ctx name t dir = (dir', r) ->
  dir' = dir /\ r <> Ok tt \/ r = Ok tt /\ exists m, dir' = <[name := Sub m]> dir.
Proof.
  unfold write_snapshot. destruct (dir !! name) as [[m|tg|]|];
    try (intros [= <- <-]; by left); destruct (WriteSnapshotWithContext ctx _ t); intros [= <- <-]; eauto.
Qed.

Lemma rename_dir_inv from to dir dir' r :
  rename_dir from to dir = (dir', r) ->
  dir' = dir /\ r <> Ok tt \/
  r = Ok tt /\ (dir !! to = None \/ dir !! to = Some (Sub ∅)) /\
  exists m, dir !! from = Some (Sub m) /\ dir' = <[to := Sub m]> (delete from dir).
Proof.
  unfold rename_dir. destruct (dir !! from) as [[m|tg|]|] eqn:Ef; try (intros [= <- <-]; by left).
  destruct (dir !! to) as [[m'|tg|]|]; try (intros [= <- <-]; by left).
  - destruct (decide (m' = ∅)) as [->|]; intros [= <- <-]; [|by left]. right. eauto 6.
  - intros [= <- <-]. right. eauto 6.
Qed.

Lemma renamed_keeps ctx t dir dir1 dir2 :
  0 <= Version t < 2 ^ 63 -> dir_ok dir ->
  write_snapshot ctx (snapshotName (Version t) ++ TmpSuffix) t dir = (dir1, Ok tt) ->
  rename_dir (snapshotName (Version t) ++ TmpSuffix) (snapshotName (Version t)) dir1 = (dir2, Ok tt) ->
  keeps_snapshots dir dir2 /\ dir_ok dir2.
Proof.
  intros Hv Hd Ew Er. apply write_snapshot_inv in Ew as [[_ ?]|(_ & m & ->)]; [done|].
  apply rename_dir_inv in Er as [[_ ?]|(_ & Hn & m' & _ & ->)]; [done|].
  assert (Hd1 : dir_ok (<[snapshotName (Version t) ++ TmpSuffix := Sub m]> dir)).
  { apply dir_ok_insert; [done|]. rewrite tmp_not_snapshot by lia. done. }
  assert (Hd2 := dir_ok_delete _ (snapshotName (Version t) ++ TmpSuffix) Hd1). split.
  - etrans; [apply (keeps_tmp dir (Version t) (Some (Sub m))); lia|].
    etrans; [apply (keeps_tmp _ (Version t) None); lia|]. apply keeps_new; [done|exact Hd2|].
    rewrite lookup_delete_ne; [exact Hn|]. apply not_eq_sym, tmp_snapshotName; lia.
  - apply dir_ok_insert; [done|]. intros _. eauto.
Qed.

Lemma rewriting_keeps ctx t dir dir' :
  0 <= Version t < 2 ^ 63 -> dir_ok dir -> rewriting ctx t dir dir' -> keeps_snapshots dir dir' /\ dir_ok dir'.
Proof.
  intros Hv Hd Hr. destruct Hr as [m| |dir1 dir2 Ew Er|dir1 dir2 Ew Er].
  - split; [apply (keeps_tmp dir (Version t) (Some (Sub m))); lia|].
    apply dir_ok_insert; [done|]. rewrite tmp_not_snapshot by lia. done.
  - split; [apply (keeps_tmp dir (Version t) None); lia|by apply dir_ok_delete].
  - by apply (renamed_keeps ctx t dir dir1).
  - destruct (renamed_keeps ctx t dir dir1 dir2 Hv Hd Ew Er) as [Hk Hd2].
    split; [etrans; [exact Hk|]; apply keeps_currentTmp|]. by apply dir_ok_insert.
Qed.

Lemma rewrite_snapshot_inv ctx t dir dir' r target :
  dir !! currentName = Some (Link target) -> 0 <= Version t -> rewrite_snapshot ctx t dir = (dir', r) ->
  r <> Ok tt /\ rewriting ctx t dir dir' \/
  r = Ok tt /\ exists dir1 dir2,
    write_snapshot ctx (snapshotName (Version t) ++ TmpSuffix) t dir = (dir1, Ok tt) /\
    rename_dir (snapshotName (Version t) ++ TmpSuffix) (snapshotName (Version t)) dir1 = (dir2, Ok tt) /\
    dir' = <[currentName := Link (snapshotName (Version t))]> dir2.
Proof.
  intros Hc Hv. unfold rewrite_snapshot. set (name := snapshotName (Version t)).
  destruct (write_snapshot ctx (name ++ TmpSuffix) t dir) as [dir1 r1] eqn:Ew.
  pose proof (write_snapshot_inv _ _ _ _ _ _ Ew) as [[-> Hr1]|(-> & m & E1)].
  { destruct r1 as [[]|e|]; [done| |]; intros [= <- <-]; left; (split; [done|apply rewriting_failed]). }
  destruct (rename_dir (name ++ TmpSuffix) name dir1) as [dir2 r2] eqn:Er. unfold mbind, SE_bind. rewrite Er.
  pose proof (rename_dir_inv _ _ _ _ _ Er) as [[-> Hr2]|(-> & _ & m' & _ & E2)].
  { destruct r2 as [[]|e|]; [done| |]; intros [= <- <-]; left; (split; [done|rewrite E1; apply rewriting_write]). }
  assert (Hc2 : dir2 !! currentName = Some (Link target)).
  { rewrite E2, lookup_insert_ne by by apply snapshotName_current.
    rewrite lookup_delete_ne, E1, lookup_insert_ne by by apply tmp_current. done. }
  unfold updateCurrentSymlink. rewrite Hc2. destruct (dir2 !! currentTmpName); intros [= <- <-].
  - left. split; [done|]. by apply (rewriting_renamed _ _ _ dir1).
  - right. split; [done|]. exists dir1, dir2. done.
Qed.

(** The directory a rewrite writes loads as the multi-tree. *)
Lemma written_loads ctx t dir dir1 name :
  mt_writable t -> (forall s i, ctx s i = None) -> dir !! name = None ->
  write_snapshot ctx name t dir = (dir1, Ok tt) ->
  exists md, dir1 = <[name := Sub md]> dir /\ forall zc size, exists t', LoadMultiTree md zc size = Ok t' /\ agrees t t'.
Proof.
  intros Hw Hctx Hn. unfold write_snapshot. rewrite Hn. destruct (WriteSnapshotWithContext ctx ∅ t) as [md| |] eqn:E; try done.
  intros [= <-]. exists md. split; [done|]. intros zc size.
  destruct (write_load ctx t zc size Hw Hctx) as (md' & t' & E' & El & Hs & Hi & _).
  rewrite E in E'. injection E' as <-. exists t'. done.
Qed.

Lemma rewrite_success hist ctx dir dir' k n t t' :
  hist_ok g hist -> snap_ok g hist dir k -> dir_ok dir -> state_at g hist n t -> agrees t t' ->
  mt_writable t' -> (forall s i, ctx s i = None) -> dir !! (snapshotName (Version t') ++ TmpSuffix) = None ->
  rewrite_snapshot ctx t' dir = (dir', Ok tt) -> snap_ok g hist dir' n /\ dir_ok dir'.
Proof.
  intros Hh (tk & mk & _ & Hc & _) Hd Hst Ha Hw Hctx Htmp E.
  pose proof (state_at_ok g hist n t Hh Hst) as (Ht & _ & _ & Hlt). pose proof (mo_version t Ht) as (_ & Hv & _).
  assert (Hvv : Version t' = Version t) by (destruct Ha as [Hs _]; by rewrite (sim_version _ _ Hs)).
  unfold MaxInt64 in *. rewrite Hvv in Htmp.
  apply rewrite_snapshot_inv with (target := snapshotName (Version tk)) in E as [[? _]|(_ & dir1 & dir2 & Ew & Er & ->)];
    [done| |done|lia].
  assert (Hd2 : dir_ok dir2) by (apply (renamed_keeps ctx t' dir dir1); [lia|done|done|done]).
  split; [|by apply dir_ok_insert]. rewrite Hvv in Ew, Er |- *.
  destruct (written_loads ctx t' dir dir1 _ Hw Hctx Htmp Ew) as (md & -> & Hl).
  apply rename_dir_inv in Er as [[_ ?]|(_ & _ & m' & Hm & ->)]; [done|].
  rewrite lookup_insert_eq in Hm. injection Hm as <-. exists t, md. split; [done|].
  split; [by rewrite lookup_insert_eq|]. split.
  - rewrite lookup_insert_ne by (apply not_eq_sym, snapshotName_current; lia). by rewrite lookup_insert_eq.
  - intros zc size. destruct (Hl zc size) as (t1 & E1 & Ha1). exists t1. split; [done|]. by etrans.
Qed.

Lemma rewrite_ok_weaken hist k n r : (k <= n)%nat -> rewrite_ok g hist n r -> rewrite_ok g hist k r.
Proof.
  intros Hkn. destruct r as [[t'|[t'|] e]|]; try done; cbn [rewrite_ok];
    intros (i & t & Hi & Hr); exists i, t; (split; [lia|done]).
Qed.

(** What the rewrite needs: a multi-tree a snapshot can hold and a free temporary name. *)
Definition rewrite_ready (ctx : bytes -> Context_) db : Prop :=
  forall t, snapshotRewrite db = Some (Running t) ->
    mt_writable t /\ (forall s i, ctx s i = None) /\ db_dir db !! (snapshotName (Version t) ++ TmpSuffix) = None.

Lemma run_rewrite_ok hist ctx db db' :
  db_ok g hist db -> rewrite_ready ctx db -> run_rewrite ctx db = (db', Ok tt) -> db_ok g hist db'.
Proof.
  intros [Hh Ht (m & k & log & p & Hw & Hlog & Hsn & Hpk & Hrw & Hd)] Hready E. unfold run_rewrite in E.
  destruct (snapshotRewrite db) as [[t'|]|] eqn:Er;
    try (injection E as <-; split; [done|done|exists m, k, log, p; by rewrite Er]).
  destruct (Hready t' Er) as (Hwr & Hctx & Htmp). rewrite Hw in E. destruct Hrw as (n & t & Hkn & Hst & Ha).
  pose proof (mo_version t' (mw_ok t' Hwr)) as (_ & Hv & _). unfold MaxInt64 in Hv.
  destruct (rewrite_snapshot ctx t' (db_dir db)) as [dir r] eqn:Es. destruct r as [[]|e|]; [|injection E as <-|done].
  - destruct (rewrite_success hist ctx _ _ k n t t' Hh Hsn Hd Hst Ha Hwr Hctx Htmp Es) as [Hsn' Hd'].
    destruct Hsn' as (tn & md & Hstn & Hc & Hs & Hl). rewrite <- (state_at_unique g _ _ _ _ Hst Hstn) in *.
    unfold open_dir in E. rewrite Hc, Hs in E. cbn [mbind res_bind] in E.
    destruct (Hl (mt_zeroCopy t') 0) as (t0 & E0 & Ha0). rewrite E0 in E. cbn [mbind res_bind] in E.
    destruct (catchup_at g hist log _ p m n t t0 Hh Hlog) as (t1 & t2 & Hst1 & E1 & Ha1); [lia|done|done|].
    rewrite E1 in E. injection E as <-. split; [done|exact Ht|].
    exists m, n, log, p. split; [done|]. split; [exact Hlog|]. split; [exists t, md; done|]. split; [lia|].
    split; [|done]. exists (Nat.max n m), t1. split; [lia|done].
  - split; [done|exact Ht|]. exists m, k, log, p. split; [done|]. split; [exact Hlog|].
    destruct Hsn as (tk & mk & Hrest) eqn:Hsn0. destruct Hrest as (? & Hc & Hr2).
    apply rewrite_snapshot_inv with (target := snapshotName (Version tk)) in Es as [[_ Hr]|[? _]]; [|done|done|lia].
    destruct (rewriting_keeps ctx t' _ _ ltac:(lia) Hd Hr) as [Hk Hd'].
    split; [by apply (snap_ok_keeps hist (db_dir db))|done].
Qed.
End rewriting.

(** ** Crashes *)

Section crash.
Context `{CacheLaws C} `{WalLaws L}.
Implicit Types (t : MultiTree C) (hist : list WALEntry) (log : L) (db : DB C L) (dir : DBDir).

(** What a crash leaves: the directory, possibly in the middle of a rewrite, and a prefix of
    the log, which is written without a sync. *)
Definition crash db dir log' : Prop :=
  (dir = db_dir db \/ exists ctx t, snapshotRewrite db = Some (Running t) /\ rewriting ctx t (db_dir db) dir) /\
  exists log n, db_wal db = Some log /\
    view log' = {| wv_first := wv_first (view log); wv_entries := take n (wv_entries (view log)) |}.

(** Nothing of the history is missing in the log. *)
Definition log_complete db log' : Prop :=
  default [] (walChan db) = [] /\ exists log, db_wal db = Some log /\ view log' = view log.

Section any_start.
Variable g : MultiTree C.

Lemma crash_disk hist db dir log' :
  db_ok g hist db -> crash db dir log' ->
  exists p m k, log_ok g hist log' (queue_of (s0 g + Z.of_nat m + 1) (drop m hist)) p m /\
    snap_ok g hist dir k /\ (p <= k)%nat /\ dir_ok dir /\ (log_complete db log' -> m = length hist).
Proof.
  intros [Hh Ht (m & k & log & p & Hw & [Hr Hv Hq] & Hsn & Hpk & Hrw & Hd)] [Hdir (log0 & n & Hw0 & Hv')].
  rewrite Hw in Hw0. injection Hw0 as <-.
  assert (Hdir' : keeps_snapshots (db_dir db) dir /\ dir_ok dir).
  { destruct Hdir as [->|(ctx & t' & Er & Hrg)]; [by split|]. rewrite Er in Hrw. destruct Hrw as (i & t & _ & Hst & Ha).
    apply (rewriting_keeps ctx t'); [|done|done]. destruct Ha as [Hs _]. rewrite <- (sim_version _ _ Hs).
    pose proof (state_at_ok g hist i t Hh Hst) as (Hok & _ & _ & ?). pose proof (mo_version t Hok) as (_ & ? & _).
    unfold MaxInt64 in *. lia. }
  set (m' := Nat.min m (p + n)). exists p, m', k. rewrite Hv in Hv'. cbn [wv_first wv_entries] in Hv'.
  split; [|split; [|split; [done|split; [apply Hdir'|]]]].
  - split; [lia| |done]. rewrite Hv'. f_equal. rewrite firstn_map. f_equal.
    rewrite take_drop_commute, take_take. f_equal. f_equal. lia.
  - by apply (snap_ok_keeps g hist (db_dir db)); [done|done|apply Hdir'].
  - intros (Hch & log1 & Hw1 & Hv1). rewrite Hw in Hw1. injection Hw1 as <-. rewrite Hch in Hq.
    assert (Hm : m = length hist).
    { apply (f_equal length) in Hq. rewrite queue_of_length, length_drop in Hq. simpl in Hq. lia. }
    rewrite Hv1, Hv in Hv'. injection Hv' as Hv'. apply (f_equal length) in Hv'.
    rewrite length_take, !length_map, !length_drop, !length_take in Hv'. lia.
Qed.

Lemma state_at_take hist n i t : (i <= n)%nat -> state_at g hist i t -> state_at g (take n hist) i t.
Proof. intros Hi [Hn E]. split; [rewrite length_take; lia|]. by rewrite take_take, Nat.min_l. Qed.

Lemma hist_ok_take hist n : hist_ok g hist -> hist_ok g (take n hist).
Proof.
  intros Hh. destruct (decide (n <= length hist)%nat); [|by rewrite firstn_all2 by lia].
  destruct (state_at_exists g hist n Hh) as (t & _ & E); [done|]. destruct Hh as [Hg He Hb _]. split.
  - done.
  - by apply Forall_take.
  - unfold zlen in *. rewrite length_take. lia.
  - by exists t.
Qed.

(** A database loaded from a log that is not behind the snapshot runs on. *)
Lemma loaded_ok hist dir log q p m k opts db :
  hist_ok g hist -> log_ok g hist log q p m -> snap_ok g hist dir k -> dir_ok dir -> (p <= k)%nat -> latest opts ->
  Load dir log opts = Ok db -> saved (Version (db_tree db)) (initialVersion g) = s0 g + Z.of_nat m ->
  db_ok g (take m hist) db.
Proof.
  intros Hh Hlog Hsn Hd Hpk Hopts E Hm.
  destruct (load_recovers g hist dir log q p m k opts Hh Hlog Hsn Hpk Hopts)
    as (t & db' & Hst & E' & Ha & Hw & Hch & Hrw & Hz & Hsn' & Hd').
  rewrite E in E'. injection E' as <-. pose proof (state_at_ok g hist _ t Hh Hst) as (Hok & Hi & Hsv & _).
  assert (Hvt : Version (db_tree db) = Version t) by (destruct Ha as [Hs _]; by rewrite (sim_version _ _ Hs)).
  rewrite Hvt, Hsv in Hm. assert (Hkm : (k <= m)%nat) by lia. rewrite Nat.max_r in Hst by done.
  destruct Hlog as [Hr Hv _]. assert (Hlen : length (take m hist) = m) by (rewrite length_take; lia).
  assert (Hh' := hist_ok_take hist m Hh). split; [done| |].
  - apply (clean_tree_intro g _ _ t); [done|done|rewrite Hlen; by apply state_at_take|done].
  - exists m, k, log, p. split; [done|]. split; [|split; [|split; [done|rewrite Hrw; split; [done|by apply Hd']]]].
    + split; [lia|by rewrite take_take, Nat.min_id|]. rewrite Hch. by rewrite drop_ge by lia.
    + destruct Hsn' as (tk & md & Hstk & Hrest). exists tk, md. split; [by apply state_at_take|done].
Qed.
End any_start.

(** ** A new database *)

Lemma put_uvarint_loop_length fuel x : (length (put_uvarint_loop fuel x) <= fuel)%nat.
Proof.
  revert x. induction fuel as [|fuel IH]; intros x; cbn [put_uvarint_loop]; [done|].
  destruct (_ <? _); cbn [length]; [lia|]. specialize (IH (Z.shiftr x 7)). lia.
Qed.

Lemma NewEmptyMultiTree_writable init : 0 <= init <= MaxInt64 -> mt_writable (C := C) (NewEmptyMultiTree init 0).
Proof.
  intros Hi. split; [by apply NewEmptyMultiTree_ok|constructor|apply not_elem_of_nil|by split|].
  unfold MultiTreeMetadata_bytes, mt_metadata. cbn [md_CommitInfo md_InitialVersion lastCommitInfo NewEmptyMultiTree initialVersion].
  rewrite zlen_app. change (zlen (field_bytes 0xa _)) with 2. unfold int_bytes. destruct (_ =? 0); [done|].
  rewrite zlen_cons. unfold zlen. pose proof (put_uvarint_loop_length 10 (u64 init)). unfold PutUvarint. lia.
Qed.

Lemma initEmptyDB_ok init :
  0 <= init <= MaxInt64 ->
  exists dir, initEmptyDB (C := C) init ∅ = (dir, Ok tt) /\ snap_ok (NewEmptyMultiTree init 0) [] dir 0 /\ dir_ok dir.
Proof.
  intros Hi. destruct (write_load (fun _ => Background) (NewEmptyMultiTree (C := C) init 0) false 0
    (NewEmptyMultiTree_writable init Hi)) as (md & t0 & Ew & _); [done|].
  assert (E0 : write_snapshot (fun _ => Background) (snapshotName 0) (NewEmptyMultiTree (C := C) init 0) ∅
    = (<[snapshotName 0 := Sub md]> ∅, Ok tt)).
  { unfold write_snapshot. rewrite lookup_empty, Ew. done. }
  exists (<[currentName := Link (snapshotName 0)]> (<[snapshotName 0 := Sub md]> ∅)). split.
  { unfold initEmptyDB, mbind, SE_bind. rewrite E0. unfold updateCurrentSymlink.
    rewrite !lookup_insert_ne, !lookup_empty by done. done. }
  split.
  - exists (NewEmptyMultiTree init 0), md. split; [by split|]. split; [by rewrite lookup_insert_eq|].
    split; [by rewrite lookup_insert_ne, lookup_insert_eq by done|].
    destruct (written_loads (fun _ => Background) (NewEmptyMultiTree (C := C) init 0) ∅
      (<[snapshotName 0 := Sub md]> ∅) (snapshotName 0)) as (md' & Emd & Hl);
      [by apply NewEmptyMultiTree_writable|done|apply lookup_empty|done|].
    apply (f_equal (lookup (snapshotName 0))) in Emd. rewrite !lookup_insert_eq in Emd. by injection Emd as ->.
  - apply dir_ok_insert; [|done]. apply dir_ok_insert; [|intros _; by exists 0].
    intros name m E. by rewrite lookup_empty in E.
Qed.

Lemma create_ok init log opts db :
  latest opts -> CreateIfMissing opts = true -> InitialVersion opts = init -> 0 <= init <= MaxInt64 ->
  view log = {| wv_first := 1; wv_entries := [] |} -> Load ∅ log opts = Ok db ->
  db_ok (NewEmptyMultiTree init 0) [] db.
Proof.
  intros Hopts Hcr Hin Hi Hv E. destruct (initEmptyDB_ok init Hi) as (dir & Ei & Hsn & Hd).
  set (g := NewEmptyMultiTree init 0) in *.
  assert (Hh : hist_ok g []).
  { split; [by apply NewEmptyMultiTree_ok|constructor| |by exists g].
    change (tree_version 0 init + 0 < MaxInt64). unfold tree_version, MaxInt64 in *. simpl.
    destruct (Z.ltb_spec 1 init); lia. }
  assert (Hlog : log_ok g [] log [] 0 0) by (by split).
  assert (El : Load dir log opts = Ok db).
  { rewrite <- E. unfold Load. rewrite Hcr, Hin. rewrite (snap_ok_created g [] dir 0 init Hsn).
    unfold createDBIfNotExist at 1. unfold open_dir. rewrite lookup_empty, Ei. done. }
  apply (loaded_ok g [] dir log [] 0 0 0 opts db Hh Hlog Hsn Hd); [done|done|done|].
  destruct (load_recovers g [] dir log [] 0 0 0 opts Hh Hlog Hsn) as (t & db' & Hst & E' & [Hs _] & _); [done|done|].
  rewrite El in E'. injection E' as <-. destruct Hst as [_ [= <-]]. by rewrite <- (sim_version _ _ Hs).
Qed.

(** The tree a database starts from. *)
Definition genesis (init : Z) : MultiTree C := NewEmptyMultiTree init 0.
End crash.
