(* ===== verification/DBTarget.v ===== *)
(** * Loading at a version and rolling back

    [Load] with a target version: the newest snapshot that is not newer is loaded and the log
    is replayed up to the target.  With [LoadForOverwriting] the versions after the target
    are removed from the log and from the directory. *)

From Stdlib Require Import Strings.Byte ZArith Lia.
From stdpp Require Import base list numbers strings gmap sorting.
From S2P Require Import Prelude Binary Proto ProtoInv ProtoCodec State Node Snapshot SnapshotWriter Cache Tree Wal.
From S2P Require Import MultiTree MultiTreeInv MultiTreeSim MultiTreeSnapshot SnapshotDir SnapshotDirInv DB DBInv DBRecovery DBCrash.
Local Open Scope Z_scope.

(** ** Directories without temporary snapshots *)

Definition no_tmp (dir : DBDir) : Prop := forall u, 0 <= u -> dir !! (snapshotName u ++ TmpSuffix) = None.

Lemma no_tmp_sub dir dir' : dir' ⊆ dir -> no_tmp dir -> no_tmp dir'.
Proof.
  intros Hs Ht u Hu. destruct (dir' !! _) as [x|] eqn:E; [|done]. pose proof (lookup_weaken _ _ _ _ E Hs) as E'.
  by rewrite (Ht u Hu) in E'.
Qed.

Lemma dir_ok_sub dir dir' : dir' ⊆ dir -> dir_ok dir -> dir_ok dir'.
Proof. intros Hs Hd name m E. apply (Hd name m). by apply (lookup_weaken _ _ _ _ E Hs). Qed.

Lemma removeTmpDirs_no_tmp dir : no_tmp (removeTmpDirs dir).
Proof.
  intros u Hu. apply map_lookup_filter_None_2. right. intros x _. cbn [fst]. by rewrite HasSuffix_app.
Qed.

Lemma visit_ext {St} (f f' : Z -> SE St bool) vs s : (forall v s, f v s = f' v s) -> visit f vs s = visit f' vs s.
Proof.
  intros Hf. revert s. induction vs as [|v vs IH]; intros s; [done|]. cbn [visit]. unfold mbind, SE_bind. rewrite Hf.
  destruct (f' v s) as [s1 [[]| |]]; [done|apply IH|done|done].
Qed.

(** Removing the snapshots of a list that satisfy a test, until one does not. *)
Lemma remove_visit (newer : Z -> bool) (ignore : bool) (vs : list Z) (dir : DBDir) :
  NoDup vs -> no_tmp dir -> (forall u, u ∈ vs -> 0 <= u < 2 ^ 63 /\ exists m, dir !! snapshotName u = Some (Sub m)) ->
  exists dir', visit (fun version => if newer version
      then (if ignore then fun d => let '(d, _) := atomicRemoveDir (snapshotName version) d in (d, Ok false)
            else atomicRemoveDir (snapshotName version) ;; mret false)
      else mret true) vs dir = (dir', Ok tt) /\ dir' ⊆ dir /\
    (forall name, (forall u, u ∈ vs -> newer u = true -> name <> snapshotName u) -> dir' !! name = dir !! name) /\
    (forall i u, vs !! i = Some u -> (forall j w, (j <= i)%nat -> vs !! j = Some w -> newer w = true) -> dir' !! snapshotName u = None).
Proof.
  intros Hnd. revert dir. induction Hnd as [|u vs Hu Hnd IH]; intros dir Ht Hin.
  { exists dir. by split. }
  cbn [visit]. destruct (newer u) eqn:En.
  - destruct (Hin u) as [Hur [m Hm]]; [by left|].
    pose proof (atomicRemoveDir_removes (snapshotName u) m dir Hm (Ht u ltac:(lia))) as Er.
    destruct (IH (delete (snapshotName u) dir)) as (dir' & E & Hsub & Hsame & Hgone).
    { eapply no_tmp_sub; [apply delete_subseteq|done]. }
    { intros w Hw. destruct (Hin w) as [Hwr [mw Hmw]]; [by right|]. split; [done|]. exists mw.
      rewrite lookup_delete_ne; [done|]. by intros ->%snapshotName_inj. }
    exists dir'. split; [|split; [|split]].
    + apply SE_bind_ok. exists (delete (snapshotName u) dir), false. split; [|exact E].
      destruct ignore; [by rewrite Er|]. apply SE_bind_ok. by exists (delete (snapshotName u) dir), tt.
    + etrans; [exact Hsub|apply delete_subseteq].
    + intros name Hn. rewrite Hsame by (intros w Hw; apply Hn; by right). apply lookup_delete_ne.
      symmetry. apply Hn; [by left|done].
    + intros [|i] w Hw Hall.
      * injection Hw as <-. destruct (dir' !! snapshotName u) as [x|] eqn:Ex; [|done].
        pose proof (lookup_weaken _ _ _ _ Ex Hsub) as E0. by rewrite lookup_delete_eq in E0.
      * apply (Hgone i w Hw). intros j x Hj Hx. by apply (Hall (S j) x); [lia|].
  - exists dir. split; [apply SE_bind_ok; by exists dir, true|]. split; [done|]. split; [done|].
    intros i w _ Hall. by rewrite (Hall 0%nat u) in En; [|lia|].
Qed.

Section target.
Context `{CacheLaws C} `{WalLaws L}.
Variable g : MultiTree C.
Implicit Types (t : MultiTree C) (db : DB C L) (dir : DBDir) (log : L) (opts : Options) (hist : list WALEntry).

(** ** Versions of the history *)

Lemma state_version hist n t :
  hist_ok g hist -> state_at g hist n t ->
  Version t = if decide (n = 0%nat) then Version g else tree_version (Version g) (initialVersion g) + Z.of_nat n.
Proof.
  intros [Hg _ Hb _] [Hn E]. assert (Hl : zlen (take n hist) = Z.of_nat n) by (unfold zlen; rewrite length_take; lia).
  destruct (decide (n = 0%nat)) as [->|Hz]; [by injection E as <-|].
  destruct (run_blocks_ok (take n hist) g t Hg) as (_ & _ & _ & Hv); [unfold zlen in *; lia|done|].
  rewrite Hv, Hl; [done|]. intros E0. rewrite E0 in Hl. change (zlen []) with 0 in Hl. lia.
Qed.

Lemma state_version_lt hist k n t t' :
  hist_ok g hist -> state_at g hist k t -> state_at g hist n t' -> (k < n)%nat -> Version t < Version t'.
Proof.
  intros Hh Hk Hn Hlt. rewrite (state_version hist k t), (state_version hist n t') by done.
  rewrite (decide_False (P := n = 0%nat)) by lia. pose proof (mo_version g (ho_genesis g hist Hh)) as (? & ? & ?).
  destruct (decide _); [|lia]. unfold tree_version.
  destruct ((Version g =? 0) && (1 <? initialVersion g)) eqn:E; [|lia].
  apply andb_true_iff in E as [?%Z.eqb_eq ?%Z.ltb_lt]. lia.
Qed.

(** Catching up to the version of block [n]. *)
Lemma catchup_to hist log q p m k n t t0 tn :
  hist_ok g hist -> log_ok g hist log q p m -> (p <= k < n)%nat -> (n <= m)%nat ->
  state_at g hist k t -> agrees t t0 -> state_at g hist n tn ->
  exists t1, CatchupWAL log (Version tn) t0 = (t1, Ok tt) /\ agrees tn t1.
Proof.
  intros Hh Hlog Hk Hn Hst [Hs Hc] Hstn. pose proof (state_at_ok g hist k t Hh Hst) as (Ht & Hi & Hsv & Hv).
  pose proof (state_at_ok g hist n tn Hh Hstn) as (Htn & Hin & Hsvn & _).
  pose proof (log_last g _ _ _ _ _ Hlog) as Hlast. pose proof (state_version_lt hist k n t tn Hh Hst Hstn ltac:(lia)) as Hlt.
  pose proof (mo_version t Ht) as (_ & [Hv0 _] & _). destruct (lo_range _ _ _ _ _ _ Hlog) as [_ Hm].
  assert (Hsv' : saved (Version t) (initialVersion t) = s0 g + Z.of_nat k) by (by rewrite Hi).
  assert (Hz : zlen (drop k (take n hist)) = Z.of_nat n - Z.of_nat k).
  { unfold zlen. rewrite length_drop, length_take. lia. }
  destruct (CatchupWAL_sim log (drop k (take n hist)) t t0 tn (Version tn) (Z.of_nat n - Z.of_nat k))
    as (t1 & E & Hs1 & Hc1); [done|done|done|done|lia| |done| | |by exists t1].
  - right. split; [lia|]. split; [intros E; rewrite E in Hz; change (zlen []) with 0 in Hz; lia|].
    rewrite Hi, <- Hin, walIndex_saved, Hin by (apply (mo_version tn Htn) || lia). lia.
  - rewrite Hsv'. intros j b Hb. apply (log_logged g hist log q p m k Hh Hlog ltac:(lia) j b).
    rewrite lookup_drop in Hb |- *. apply lookup_take_Some in Hb as [Hb Hj]. apply lookup_take_Some. split; [done|lia].
  - apply (state_at_between g hist); [lia|done|done].
Qed.

(** ** Snapshots *)

(** The snapshot that is sought for block [n] has the state after block [k]. *)
Definition seeks hist dir (n k : nat) : Prop := exists tn tk md,
  state_at g hist n tn /\ state_at g hist k tk /\ dir !! snapshotName (Version tk) = Some (Sub md) /\
  (forall zc size, exists t', LoadMultiTree md zc size = Ok t' /\ agrees tk t') /\
  (forall u, u ∈ snapshots dir -> u <= Version tn -> u <= Version tk).

Lemma seek_newest dir v target :
  dir_ok dir -> 0 <= target <= MaxInt64 -> v ∈ snapshots dir -> v <= target ->
  (forall u, u ∈ snapshots dir -> u <= target -> u <= v) -> seekSnapshot dir target = Ok v.
Proof.
  intros Hd Ht Hin Hle Hmax. rewrite seekSnapshot_find by done.
  pose proof (find_reverse_max (fun u => u <=? target) (snapshots dir) (snapshots_sorted dir Hd)) as Hf.
  destruct (List.find _ _) as [u|].
  - destruct Hf as (Hu & Hle'%Z.leb_le & Hm). specialize (Hm v Hin (proj2 (Z.leb_le v target) Hle)).
    specialize (Hmax u Hu Hle'). f_equal. lia.
  - specialize (Hf v Hin). simpl in Hf. by rewrite (proj2 (Z.leb_le v target)) in Hf.
Qed.

Lemma state_range hist n t : hist_ok g hist -> state_at g hist n t -> 0 <= Version t < 2 ^ 63 - 1.
Proof.
  intros Hh Hst. pose proof (state_at_ok g hist n t Hh Hst) as (Ht & _ & _ & Hv).
  pose proof (mo_version t Ht) as (_ & [? ?] & _). unfold MaxInt64 in *. lia.
Qed.

(** Snapshots are not temporary. *)
Lemma removeTmpDirs_snapshots dir u : dir_ok dir -> u ∈ snapshots (removeTmpDirs dir) -> u ∈ snapshots dir.
Proof.
  intros Hd Hu. assert (Hd' : dir_ok (removeTmpDirs dir)).
  { intros name m E. apply (Hd name m). by apply map_lookup_filter_Some in E as [E _]. }
  apply snapshots_elem in Hu as [Hr [m Hm]]; [|done]. apply snapshots_elem; [done|]. split; [done|].
  exists m. by apply map_lookup_filter_Some in Hm as [Hm _].
Qed.

Lemma seeks_lookups hist dir dir' n k :
  hist_ok g hist -> seeks hist dir n k -> (forall name, HasSuffix name TmpSuffix = false -> dir' !! name = dir !! name) ->
  (forall u, u ∈ snapshots dir' -> u ∈ snapshots dir) -> seeks hist dir' n k.
Proof.
  intros Hh (tn & tk & md & Hn & Hk & Hs & Hl & Hm) Hd Hsub. exists tn, tk, md. split; [done|]. split; [done|].
  pose proof (state_range hist k tk Hh Hk). rewrite Hd by (apply snapshotName_not_tmp; lia). split; [done|]. split; [done|].
  intros u Hu. by apply Hm, Hsub.
Qed.

Lemma seeks_seek hist dir n k tn tk :
  hist_ok g hist -> dir_ok dir -> (k <= n)%nat -> seeks hist dir n k -> state_at g hist n tn -> state_at g hist k tk ->
  seekSnapshot dir (Version tn) = Ok (Version tk).
Proof.
  intros Hh Hd Hkn (tn' & tk' & md & Hn & Hk & Hs & Hl & Hm) Hn' Hk'.
  rewrite (state_at_unique _ _ _ _ _ Hn Hn') in *. rewrite (state_at_unique _ _ _ _ _ Hk Hk') in *.
  pose proof (state_range hist n tn Hh Hn'). pose proof (state_range hist k tk Hh Hk').
  apply seek_newest; [done|unfold MaxInt64; lia| | |done].
  - apply snapshots_elem; [done|]. split; [lia|eauto].
  - destruct (decide (k = n)) as [->|]; [by rewrite (state_at_unique _ _ _ _ _ Hn' Hk')|].
    assert (Version tk < Version tn); [apply (state_version_lt hist k n); [done..|lia]|lia].
Qed.

(** ** Loading *)

(** The database is there, or need not be. *)
Definition opens dir opts : Prop :=
  CreateIfMissing opts = false \/ createDBIfNotExist (C := C) (InitialVersion opts) dir = (dir, Ok tt).

Definition cleaned dir opts : DBDir := if ReadOnly opts then dir else removeTmpDirs dir.

Lemma cleaned_ok dir opts : dir_ok dir -> dir_ok (cleaned dir opts).
Proof.
  intros Hd name m E. apply (Hd name m). unfold cleaned in E. destruct (ReadOnly opts); [done|].
  by apply map_lookup_filter_Some in E as [E _].
Qed.

Lemma cleaned_lookup dir opts name : HasSuffix name TmpSuffix = false -> cleaned dir opts !! name = dir !! name.
Proof. intros Hn. unfold cleaned. destruct (ReadOnly opts); [done|]. by apply removeTmpDirs_keeps. Qed.

Lemma cleaned_seeks hist dir opts n k :
  hist_ok g hist -> dir_ok dir -> seeks hist dir n k -> seeks hist (cleaned dir opts) n k.
Proof.
  intros Hh Hd Hs. apply (seeks_lookups hist dir); [done|done|apply cleaned_lookup|].
  intros u. unfold cleaned. destruct (ReadOnly opts); [done|]. by apply removeTmpDirs_snapshots.
Qed.

(** A database as [Load] makes it. *)
Definition opened opts t dir log : DB C L :=
  {| db_tree := t; db_dir := dir; readOnly := ReadOnly opts; snapshotKeepRecent := SnapshotKeepRecent opts;
     snapshotInterval := default_interval opts; db_wal := Some log; walChanSize := AsyncCommitBuffer opts;
     walChan := None; walQuit := None; pendingLog := WALEntry_zero; snapshotRewrite := None |}.

(** The tree is loaded at the target; what is left is the rollback. *)
Lemma load_tree hist dir log q p m k n tn tk opts :
  hist_ok g hist -> log_ok g hist log q p m -> dir_ok dir -> seeks hist dir n k -> (p <= k <= n)%nat -> (n <= m)%nat ->
  state_at g hist n tn -> state_at g hist k tk -> 0 < Version tn ->
  Validate opts = Ok tt -> TargetVersion opts = Version tn -> opens dir opts ->
  exists t1, agrees tn t1 /\
    Load dir log opts =
      ('(dir, log) ← (if LoadForOverwriting opts
                      then overwrite (Version tn) (snapshotName (Version tk)) (initialVersion t1) (cleaned dir opts) log
                      else Ok (cleaned dir opts, log));
       Ok (opened opts t1 dir log)).
Proof.
  intros Hh Hlog Hd Hsk Hk Hn Hstn Hstk Hpos Hval Htar Hop.
  assert (Hcr : (if CreateIfMissing opts
     then let '(d, r) := createDBIfNotExist (C := C) (InitialVersion opts) dir in _ ← r; Ok d else Ok dir) = Ok dir).
  { destruct Hop as [-> | Hop]; [done|]. destruct (CreateIfMissing opts); [|done]. by rewrite Hop. }
  pose proof (cleaned_seeks hist dir opts n k Hh Hd Hsk) as Hsk'. pose proof (cleaned_ok dir opts Hd) as Hd'.
  pose proof (seeks_seek hist _ n k tn tk Hh Hd' ltac:(lia) Hsk' Hstn Hstk) as Eseek.
  destruct Hsk' as (tn' & tk' & md & Hn' & Hk' & Hs & Hl & Hm).
  rewrite (state_at_unique _ _ _ _ _ Hk' Hstk) in *. destruct (Hl (ZeroCopy opts) (CacheSize opts)) as (t0 & E0 & Ha0).
  pose proof (state_range hist n tn Hh Hstn) as Hrn. assert (Hv0 : Version t0 = Version tk).
  { destruct Ha0 as [Hs0 _]. by rewrite (sim_version _ _ Hs0). }
  assert (Ht1 : exists t1, agrees tn t1 /\ (if (TargetVersion opts =? 0) || (Version t0 <? i64 (TargetVersion opts))
    then let '(t, r) := CatchupWAL log (i64 (TargetVersion opts)) t0 in _ ← r; Ok t else Ok t0) = Ok t1).
  { rewrite Htar, i64_small, Hv0, (proj2 (Z.eqb_neq (Version tn) 0)) by lia. cbn [orb].
    destruct (decide (k = n)) as [->|Hne].
    - rewrite (state_at_unique _ _ _ _ _ Hstk Hstn) in *. rewrite Z.ltb_irrefl. by exists t0.
    - rewrite (proj2 (Z.ltb_lt _ _)) by (apply (state_version_lt hist k n); [done..|lia]).
      destruct (catchup_to hist log q p m k n tk t0 tn) as (t1 & E1 & Ha1); [done|done|lia|done|done|done|done|].
      exists t1. by rewrite E1. }
  destruct Ht1 as (t1 & Ha1 & E1). exists t1. split; [done|].
  unfold Load. rewrite Hval. cbn [mbind res_bind]. rewrite Hcr. cbn [mbind res_bind]. fold (cleaned dir opts).
  rewrite Htar, (proj2 (Z.ltb_lt 0 (Version tn))), Eseek, <- Htar by done. cbn [mbind res_bind].
  unfold open_dir. rewrite Hs. cbn [mbind res_bind]. rewrite E0. cbn [mbind res_bind]. rewrite E1. cbn [mbind res_bind].
  rewrite andb_true_r, Htar.
  assert (Hv1 : Version t1 = Version tn) by (destruct Ha1 as [Hs1 _]; by rewrite (sim_version _ _ Hs1)).
  rewrite Hv1, (proj2 (Z.eqb_neq (Version tn) 0)), andb_false_r by lia. done.
Qed.

Lemma load_at_target hist dir log q p m k n tn opts :
  hist_ok g hist -> log_ok g hist log q p m -> dir_ok dir -> seeks hist dir n k -> (p <= k <= n)%nat -> (n <= m)%nat ->
  state_at g hist n tn -> 0 < Version tn -> Validate opts = Ok tt -> TargetVersion opts = Version tn -> opens dir opts ->
  LoadForOverwriting opts = false ->
  exists t1, agrees tn t1 /\ Load dir log opts = Ok (opened opts t1 (cleaned dir opts) log).
Proof.
  intros Hh Hlog Hd Hsk Hk Hn Hstn Hpos Hval Htar Hop Hlf.
  destruct (state_at_exists g hist k Hh) as [tk Hstk]; [pose proof (proj1 Hstn); lia|].
  destruct (load_tree hist dir log q p m k n tn tk opts) as (t1 & Ha & E); try done. rewrite Hlf in E. eauto.
Qed.

(** ** Rolling back *)

Lemma drop_newer_spec (target : Z) dir :
  0 <= target < 2 ^ 63 -> dir_ok dir -> no_tmp dir ->
  exists dir', drop_newer target dir dir = (dir', Ok tt) /\ dir' ⊆ dir /\
    (forall name, (forall u, 0 <= u < 2 ^ 63 -> target < u -> name <> snapshotName u) -> dir' !! name = dir !! name) /\
    (forall u, u ∈ snapshots dir' -> u <= target).
Proof.
  intros Ht Hd Hnt. unfold drop_newer. rewrite traverse_visit, i64_small by (done || lia).
  pose proof (reverse_sorted _ (snapshots_sorted dir Hd)) as Hs.
  assert (Hnd : NoDup (reverse (snapshots dir))).
  { clear -Hs. induction Hs as [|x l Hl IH Hx]; constructor; [|done]. intros Hin.
    pose proof (proj1 (Forall_forall _ _) Hx x Hin). simpl in *. lia. }
  destruct (remove_visit (fun u => negb (u <=? target)) true (reverse (snapshots dir)) dir) as (dir' & E & Hsub & Hsame & Hgone);
    [done|done|intros u Hu; rewrite elem_of_reverse in Hu; by apply snapshots_elem in Hu|].
  exists dir'. split.
  { rewrite <- E. apply visit_ext. intros u d. by destruct (u <=? target). }
  split; [done|]. split.
  - intros name Hn. apply Hsame. intros u Hu Hlt%negb_true_iff%Z.leb_gt. rewrite elem_of_reverse in Hu.
    apply snapshots_elem in Hu as [Hu _]; [|done]. by apply Hn.
  - intros u Hu. pose proof (dir_ok_sub _ _ Hsub Hd) as Hd'. apply snapshots_elem in Hu as [Hu [m Hm]]; [|done].
    destruct (Z.le_gt_cases u target) as [|Hlt]; [done|]. exfalso.
    assert (Hin : u ∈ reverse (snapshots dir)).
    { apply elem_of_reverse, snapshots_elem; [done|]. split; [done|]. exists m. by apply (lookup_weaken _ _ _ _ Hm Hsub). }
    apply list_elem_of_lookup in Hin as [i Hi]. rewrite (Hgone i u Hi) in Hm; [done|]. intros j w Hj Hw.
    apply negb_true_iff, Z.leb_gt. destruct (decide (j = i)) as [->|]; [congruence|].
    pose proof (StronglySorted_lookup Z.gt _ j i w u Hs Hw Hi ltac:(lia)). lia.
Qed.

(** Truncating the log after block [n]. *)
Lemma log_ok_back hist log q p m n :
  log_ok g hist log q p m -> (p < n <= m)%nat ->
  exists log', wal_TruncateBack log (s0 g + Z.of_nat n) = Ok log' /\ log_ok g (take n hist) log' [] p n.
Proof.
  intros [Hr Hv Hq] Hn. destruct (wal_TruncateBack_view log (s0 g + Z.of_nat n)) as (log' & E & Hv').
  { rewrite Hv. unfold wv_last. cbn [wv_first wv_entries]. unfold zlen. rewrite length_map, length_drop, length_take. lia. }
  exists log'. split; [done|]. split.
  - rewrite length_take. lia.
  - rewrite Hv', Hv. unfold wv_truncate_back. cbn [wv_first wv_entries]. f_equal. rewrite firstn_map. f_equal.
    rewrite take_take, Nat.min_id. replace (Z.to_nat _) with (n - p)%nat by lia.
    rewrite take_drop_commute, take_take. f_equal. f_equal. lia.
  - rewrite drop_ge; [done|]. rewrite length_take. lia.
Qed.

Lemma target_index hist n t :
  hist_ok g hist -> state_at g hist n t -> 0 < Version t -> walIndex (i64 (Version t)) (initialVersion g) = s0 g + Z.of_nat n.
Proof.
  intros Hh Hst Hpos. pose proof (state_at_ok g hist n t Hh Hst) as (Ht & Hi & Hsv & _).
  pose proof (state_range hist n t Hh Hst). rewrite i64_small, <- Hi, walIndex_saved, Hi by (apply (mo_version t Ht) || lia). done.
Qed.

Lemma overwrite_ok hist dir log q p m k n tn tk cs :
  hist_ok g hist -> log_ok g hist log q p m -> dir_ok dir -> no_tmp dir -> dir !! currentTmpName = None ->
  dir !! currentName = Some (Link cs) -> seeks hist dir n k -> (p <= k <= n)%nat -> (p < n <= m)%nat ->
  state_at g hist n tn -> state_at g hist k tk -> 0 < Version tn ->
  exists dir' log', overwrite (Version tn) (snapshotName (Version tk)) (initialVersion g) dir log = Ok (dir', log') /\
    dir_ok dir' /\ snap_ok g (take n hist) dir' k /\ log_ok g (take n hist) log' [] p n /\
    (forall u, u ∈ snapshots dir' -> u <= Version tn).
Proof.
  intros Hh Hlog Hd Hnt Hct Hcur Hsk Hk Hn Hstn Hstk Hpos.
  pose proof (state_range hist n tn Hh Hstn) as Hrn. pose proof (state_range hist k tk Hh Hstk) as Hrk.
  assert (Hle : Version tk <= Version tn).
  { destruct (decide (k = n)) as [->|]; [by rewrite (state_at_unique _ _ _ _ _ Hstn Hstk)|].
    assert (Version tk < Version tn); [apply (state_version_lt hist k n); [done..|lia]|lia]. }
  set (dir1 := <[currentName := Link (snapshotName (Version tk))]> dir).
  assert (E1 : (if bool_decide (snapshotName (Version tk) = cs) then Ok dir
     else let '(d, r) := updateCurrentSymlink (snapshotName (Version tk)) dir in _ ← r; Ok d) = Ok dir1).
  { destruct (bool_decide_reflect (snapshotName (Version tk) = cs)) as [<-|]; [unfold dir1; by rewrite insert_id|].
    unfold updateCurrentSymlink. by rewrite Hct, Hcur. }
  assert (Hd1 : dir_ok dir1) by (by apply dir_ok_insert).
  assert (Hnt1 : no_tmp dir1).
  { intros u Hu. unfold dir1. rewrite lookup_insert_ne; [by apply Hnt|]. intros E. by apply (tmp_current u). }
  destruct (log_ok_back hist log q p m n Hlog Hn) as (log' & El & Hlog').
  destruct (drop_newer_spec (Version tn) dir1 ltac:(lia) Hd1 Hnt1) as (dir' & Ed & Hsub & Hsame & Hmax).
  exists dir', log'. split; [|split; [by apply (dir_ok_sub dir1)|split; [|done]]].
  - unfold overwrite, Readlink. rewrite Hcur. cbn [mbind res_bind]. rewrite E1. cbn [mbind res_bind].
    rewrite (target_index hist n tn) by done. rewrite El. cbn [mbind res_bind]. by rewrite Ed.
  - destruct Hsk as (tn' & tk' & md & _ & Hk' & Hs & Hl & _). rewrite (state_at_unique _ _ _ _ _ Hk' Hstk) in *.
    exists tk, md. split; [apply state_at_take; [lia|done]|]. rewrite !Hsame.
    + unfold dir1. rewrite lookup_insert_eq, lookup_insert_ne by (symmetry; apply snapshotName_current; lia). done.
    + intros u Hu Hlt E%snapshotName_inj; lia.
    + intros u Hu Hlt E. by apply (snapshotName_current u); [lia|].
Qed.

(** Options that roll back to a version. *)
Definition rolls_back opts (target : Z) : Prop :=
  Validate opts = Ok tt /\ LoadForOverwriting opts = true /\ TargetVersion opts = target /\ 0 < target.

Lemma rolls_back_writes opts target : rolls_back opts target -> ReadOnly opts = false.
Proof.
  intros (Hv & Hl & _). unfold Validate in Hv. rewrite Hl in Hv. destruct (ReadOnly opts); [|done].
  by destruct (CreateIfMissing opts).
Qed.

Lemma rollback_ok hist dir log q p m k n tn opts cs :
  hist_ok g hist -> log_ok g hist log q p m -> dir_ok dir ->
  dir !! currentName = Some (Link cs) -> seeks hist dir n k -> (p <= k <= n)%nat -> (n <= m)%nat ->
  state_at g hist n tn -> rolls_back opts (Version tn) -> opens dir opts ->
  if decide (p = n) then Load (C := C) dir log opts = Err ErrOutOfRange
  else exists db, Load dir log opts = Ok db /\ agrees tn (db_tree db) /\ db_ok g (take n hist) db /\
    (forall u, u ∈ snapshots (db_dir db) -> u <= Version tn).
Proof.
  intros Hh Hlog Hd Hcur Hsk Hk Hn Hstn Hro Hop. pose proof (rolls_back_writes opts _ Hro) as Hw.
  destruct Hro as (Hval & Hlf & Htar & Hpos).
  destruct (state_at_exists g hist k Hh) as [tk Hstk]; [pose proof (proj1 Hstn); lia|].
  destruct (load_tree hist dir log q p m k n tn tk opts) as (t1 & Ha & E); try done.
  assert (Hi1 : initialVersion t1 = initialVersion g).
  { destruct Ha as [Hs _]. rewrite <- (sim_init _ _ Hs). by apply (state_at_ok g hist n tn Hh Hstn). }
  rewrite Hlf, Hi1 in E.
  assert (Hcur' : cleaned dir opts !! currentName = Some (Link cs)) by (by rewrite cleaned_lookup).
  assert (Hct' : cleaned dir opts !! currentTmpName = None).
  { unfold cleaned. rewrite Hw. apply map_lookup_filter_None_2. right. by intros e _. }
  assert (Hnt : no_tmp (cleaned dir opts)) by (unfold cleaned; rewrite Hw; apply removeTmpDirs_no_tmp).
  destruct (decide (p = n)) as [Hpn|Hpn].
  - rewrite E. unfold overwrite, Readlink. rewrite Hcur'. cbn [mbind res_bind]. unfold updateCurrentSymlink. rewrite Hct', Hcur'.
    rewrite (target_index hist n tn), wal_TruncateBack_range by (done || (rewrite (lo_view _ _ _ _ _ _ Hlog); cbn [wv_first]; lia)).
    by destruct (bool_decide _).
  - destruct (overwrite_ok hist (cleaned dir opts) log q p m k n tn tk cs) as (dir' & log' & Eo & Hd' & Hsn & Hlog' & Hmax);
      try done; [by apply cleaned_ok|by apply cleaned_seeks|lia|].
    rewrite Eo in E. cbn [mbind res_bind] in E. eexists. split; [exact E|]. split; [done|]. split; [|done].
    assert (Hlen : length (take n hist) = n) by (rewrite length_take; pose proof (proj1 Hstn); lia).
    split; [by apply hist_ok_take| |].
    + apply (clean_tree_intro g _ _ tn); [by apply hist_ok_take|done|rewrite Hlen; by apply state_at_take|done].
    + exists n, k, log', p. split; [done|]. split; [done|]. split; [done|]. split; [lia|]. split; [done|done].
Qed.

(** ** From the current snapshot *)

(** The current snapshot is the newest one that is not newer than the target. *)
Definition current_serves dir (target : Z) : Prop := exists current,
  currentVersion dir = Ok current /\ current <= target /\ forall u, u ∈ snapshots dir -> u <= target -> u <= current.

Lemma current_seeks hist dir k n tn :
  hist_ok g hist -> snap_ok g hist dir k -> state_at g hist n tn -> current_serves dir (Version tn) ->
  seeks hist dir n k /\ (k <= n)%nat.
Proof.
  intros Hh (tk & md & Hstk & Hc & Hs & Hl) Hstn (current & Ec & Hle & Hnew).
  pose proof (state_range hist k tk Hh Hstk) as Hr.
  assert (E : current = Version tk).
  { unfold currentVersion, Readlink in Ec. rewrite Hc in Ec. cbn [mbind res_bind] in Ec.
    rewrite parseVersion_name in Ec by lia. by injection Ec. }
  subst current. split; [by exists tn, tk, md|].
  destruct (decide (k <= n)%nat) as [|Hlt]; [done|].
  pose proof (state_version_lt hist n k tn tk Hh Hstn Hstk ltac:(lia)). lia.
Qed.
End target.
