(* ===== verification/DBRun.v ===== *)
(** * Runs of the database

    The databases that calls, log writes, snapshot rewrites, crashes with restarts, and
    rollbacks lead to.  Each of them has the state of its history, and loads again: at the
    latest version, at an older one, and rolled back to an older one. *)

From Stdlib Require Import Strings.Byte ZArith Lia.
From stdpp Require Import base list numbers strings gmap.
From S2P Require Import Prelude Binary Proto ProtoInv ProtoCodec State Node Snapshot SnapshotWriter Cache Tree Wal.
From S2P Require Import MultiTree MultiTreeInv MultiTreeSim MultiTreeSnapshot SnapshotDir SnapshotDirInv DB DBInv DBRecovery DBCrash DBTarget.
Local Open Scope Z_scope.

Section runs.
Context `{CacheLaws C} `{WalLaws L}.
Implicit Types (log : L) (db : DB C L) (dir : DBDir).

(** The initial version the database is created with. *)
Variable init : Z.
Hypothesis init_range : 0 <= init <= MaxInt64.

(** A rollback that succeeds leaves a database of the blocks up to the target. *)
Lemma rollback_disk hist db dir log' opts n t :
  db_ok (genesis init) hist db -> crash db dir log' -> state_at (genesis init) hist n t -> Z.of_nat n <= wv_last (view log') ->
  rolls_back opts (Version t) -> current_serves dir (Version t) ->
  if decide (wv_first (view log') = Z.of_nat n + 1) then Load (C := C) dir log' opts = Err ErrOutOfRange
  else exists db', Load dir log' opts = Ok db' /\ agrees t (db_tree db') /\ db_ok (genesis init) (take n hist) db' /\
    (forall u, u ∈ snapshots (db_dir db') -> u <= Version t).
Proof.
  intros Hdb Hc Hst Hn Ho Hcs.
  destruct (crash_disk (genesis init) hist db dir log' Hdb Hc) as (p & m & k & Hlog & Hsn & Hpk & Hd & _).
  pose proof (log_last (genesis init) _ _ _ _ _ Hlog) as Hl. change (s0 (genesis init)) with 0 in Hl.
  destruct (current_seeks (genesis init) hist dir k n t (do_hist _ _ _ Hdb) Hsn Hst Hcs) as [Hsk Hk].
  assert (Hop : opens (C := C) dir opts) by (right; by apply (snap_ok_created (genesis init) hist dir k)).
  pose proof Hsn as (tk & md & _ & Hcur & _).
  pose proof (rollback_ok (genesis init) hist dir log' _ p m k n t opts _ (do_hist _ _ _ Hdb) Hlog Hd Hcur Hsk
    ltac:(lia) ltac:(lia) Hst Ho Hop) as Hrb.
  assert (Hf : wv_first (view log') = Z.of_nat p + 1)
    by (rewrite (lo_view _ _ _ _ _ _ Hlog); cbn [wv_first]; change (s0 (genesis init)) with 0; lia).
  destruct (decide (p = n)), (decide (wv_first (view log') = Z.of_nat n + 1)); (done || lia).
Qed.

(** The states of a database with the blocks committed so far.  Upgrades come before the
    changes of a version, and a call changes a store once. *)
Inductive reach : list WALEntry -> DB C L -> Prop :=
| reach_create log opts db :
    latest opts -> CreateIfMissing opts = true -> InitialVersion opts = init ->
    view log = {| wv_first := 1; wv_entries := [] |} -> Load ∅ log opts = Ok db -> reach [] db
| reach_upgrades hist db db' us m :
    reach hist db -> Changesets (pendingLog db) = [] ->
    upgrade_maps (new_tree (db_tree db)) (stores (db_tree db)) us = Some m ->
    ApplyUpgrades us db = (db', Ok tt) -> reach hist db'
| reach_changes hist db db' css :
    reach hist db -> NoDup (names_of css) -> ApplyChangeSets css db = (db', Ok tt) -> reach hist db'
| reach_change hist db db' name cs :
    reach hist db -> ApplyChangeSet name cs db = (db', Ok tt) -> reach hist db'
| reach_commit hist db db' v locked :
    reach hist db -> encodable (pendingLog db) -> tree_version 0 init + zlen hist + 1 < MaxInt64 ->
    Commit locked db = (db', Ok v) -> reach (hist ++ [pendingLog db]) db'
| reach_writer hist db db' n :
    reach hist db -> log_writer n db = (db', Ok tt) -> reach hist db'
| reach_rewrite hist db db' ctx :
    reach hist db -> rewrite_ready ctx db -> run_rewrite ctx db = (db', Ok tt) -> reach hist db'
| reach_restart hist db dir log' opts db' :
    reach hist db -> crash db dir log' -> latest opts -> Load dir log' opts = Ok db' ->
    saved (Version (db_tree db')) init = wv_last (view log') ->
    reach (take (Z.to_nat (wv_last (view log'))) hist) db'
| reach_rollback hist db dir log' opts db' n t :
    reach hist db -> crash db dir log' -> state_at (genesis init) hist n t -> Z.of_nat n <= wv_last (view log') ->
    rolls_back opts (Version t) -> current_serves dir (Version t) -> Load dir log' opts = Ok db' ->
    reach (take n hist) db'.

Lemma reach_ok hist db : reach hist db -> db_ok (genesis init) hist db.
Proof.
  induction 1 as [log opts db Ho Hc Hi Hv E|hist db db' us m _ IH Hp Hm E|hist db db' css _ IH Hn E
    |hist db db' name cs _ IH E|hist db db' v locked _ IH He Hb E|hist db db' n _ IH E
    |hist db db' ctx _ IH Hr E|hist db dir log' opts db' _ IH Hc Ho E Hv
    |hist db dir log' opts db' n t _ IH Hc Hst Hn Ho Hcs E].
  - by eapply create_ok.
  - by eapply ApplyUpgrades_db.
  - by eapply ApplyChangeSets_db.
  - unfold ApplyChangeSet in E. destruct (_ =? 0); [by injection E as <-|]. by eapply applyChangeSet_db.
  - by apply (Commit_ok (genesis init) hist db db' v locked IH He Hb E).
  - by eapply log_writer_ok.
  - by eapply run_rewrite_ok.
  - destruct (crash_disk (genesis init) hist db dir log' IH Hc) as (p & m & k & Hlog & Hsn & Hpk & Hd & _).
    pose proof (log_last (genesis init) _ _ _ _ _ Hlog) as Hl. change (s0 (genesis init)) with 0 in Hl. rewrite Hl in Hv |- *.
    replace (Z.to_nat (0 + Z.of_nat m)) with m by lia.
    by apply (loaded_ok (genesis init) hist dir log' _ p m k opts db' (do_hist _ _ _ IH) Hlog Hsn Hd Hpk Ho E).
  - pose proof (rollback_disk hist db dir log' opts n t IH Hc Hst Hn Ho Hcs) as Hrb.
    destruct (decide _); [congruence|]. destruct Hrb as (db1 & E1 & _ & Hok & _). congruence.
Qed.

(** [Load] after a crash gives the state after a prefix of the history that contains every
    block of the log. *)
Lemma crash_loads hist db dir log' opts :
  reach hist db -> crash db dir log' -> latest opts ->
  exists n t db', (n <= length hist)%nat /\ run_blocks (take n hist) (genesis init) = (t, Ok tt) /\
    Load dir log' opts = Ok db' /\ agrees t (db_tree db') /\ db_wal db' = Some log' /\
    wv_last (view log') <= Z.of_nat n /\ (log_complete db log' -> n = length hist).
Proof.
  intros Hr Hc Ho. apply reach_ok in Hr as Hdb.
  destruct (crash_disk (genesis init) hist db dir log' Hdb Hc) as (p & m & k & Hlog & Hsn & Hpk & Hd & Hm).
  destruct (load_recovers (genesis init) hist dir log' _ p m k opts (do_hist _ _ _ Hdb) Hlog Hsn Hpk Ho)
    as (t & db' & [Hn Hrun] & E & Ha & Hw & _).
  pose proof (log_last (genesis init) _ _ _ _ _ Hlog) as Hl. change (s0 (genesis init)) with 0 in Hl.
  exists (Nat.max k m), t, db'. do 5 (split; [done|]). split; [lia|]. intros Hcomp. specialize (Hm Hcomp). lia.
Qed.

(** [Load] at an older version of the log. *)
Lemma version_loads hist db dir log' opts n t :
  reach hist db -> crash db dir log' -> state_at (genesis init) hist n t -> Z.of_nat n <= wv_last (view log') ->
  0 < Version t -> Validate opts = Ok tt -> TargetVersion opts = Version t -> LoadForOverwriting opts = false ->
  current_serves dir (Version t) ->
  exists db', Load dir log' opts = Ok db' /\ agrees t (db_tree db').
Proof.
  intros Hr Hc Hst Hn Hpos Hval Htar Hlf Hcs. apply reach_ok in Hr as Hdb.
  destruct (crash_disk (genesis init) hist db dir log' Hdb Hc) as (p & m & k & Hlog & Hsn & Hpk & Hd & _).
  pose proof (log_last (genesis init) _ _ _ _ _ Hlog) as Hl. change (s0 (genesis init)) with 0 in Hl.
  destruct (current_seeks (genesis init) hist dir k n t (do_hist _ _ _ Hdb) Hsn Hst Hcs) as [Hsk Hk].
  destruct (load_at_target (genesis init) hist dir log' _ p m k n t opts (do_hist _ _ _ Hdb) Hlog Hd Hsk
    ltac:(lia) ltac:(lia) Hst Hpos Hval Htar) as (t1 & Ha & E); [|done|].
  - right. by apply (snap_ok_created (genesis init) hist dir k).
  - eexists. split; [exact E|exact Ha].
Qed.
End runs.
