(* ===== verification/DBProps.v ===== *)
(** * Properties of the database and of its snapshot directory

    Recovery after crashes, the choice of a snapshot, pruning, and sequences of calls after
    which the log cannot be replayed or written. *)

From Stdlib Require Import Strings.Byte ZArith Lia Sorting.
From stdpp Require Import base list numbers strings gmap.
From S2P Require Import Prelude Binary Proto ProtoInv ProtoCodec State Node Snapshot SnapshotWriter Cache Tree Wal.
From S2P Require Import MultiTree MultiTreeInv MultiTreeSim MultiTreeSnapshot MultiTreeProps SnapshotDir SnapshotDirInv.
From S2P Require Import DB DBInv DBRecovery DBCrash DBTarget DBRun.
Local Open Scope Z_scope.

Section properties.
Context `{CacheLaws C} `{WalLaws L}.
Implicit Types (log : L) (db : DB C L) (dir : DBDir).



End properties.

(** the snapshot chosen for a version is the newest one that is not newer; there is an
    error exactly when all snapshots are newer. *)
Theorem seekSnapshot_correct dir target :
  dir_ok dir -> 0 <= target <= MaxInt64 ->
  match seekSnapshot dir target with
  | Ok v => v ∈ snapshots dir /\ v <= target /\ forall w, w ∈ snapshots dir -> w <= target -> w <= v
  | Err _ => forall w, w ∈ snapshots dir -> target < w
  | Panic => False
  end.
Proof.
  intros Hok Ht. rewrite seekSnapshot_find by done.
  pose proof (find_reverse_max (fun v => v <=? target) (snapshots dir) (snapshots_sorted dir Hok)) as Hf.
  destruct (List.find _ _) as [v|].
  - destruct Hf as (Hv & Hp%Z.leb_le & Hmax). split; [done|]. split; [done|]. intros w Hw Hle. apply Hmax; [done|].
    by apply Z.leb_le.
  - intros w Hw. by apply Z.leb_gt, Hf.
Qed.


(** the names of snapshots parse back to their versions and their lexicographic order
    is the order of the versions, so that the sorted directory is the list by version. *)
Theorem snapshotName_correct a b :
  0 <= a < 2 ^ 63 -> 0 <= b < 2 ^ 63 ->
  parseVersion (snapshotName a) = Ok a /\ isSnapshotName (snapshotName a) = true /\
  (bytes_lt (snapshotName a) (snapshotName b) <-> a < b).
Proof.
  intros Ha Hb. split; [by apply parseVersion_name|]. split; [apply snapshotName_is; lia|].
  by apply snapshotName_lt.
Qed.

(** ** Samples *)

Definition sample_opts (async : Z) : Options :=
  {| CreateIfMissing := true; InitialVersion := 5; ReadOnly := false; InitialStores := []; SnapshotKeepRecent := 0;
     SnapshotInterval := 1; TargetVersion := 0; AsyncCommitBuffer := async; ZeroCopy := false; CacheSize := 2;
     LoadForOverwriting := false; HistoricalQueryLimit := 0 |}.
Definition no_log : mem_log := {| ml_first := 1; ml_entries := [] |}.
Definition unlocked (v : Z) : bool := false.

(** A state to stand for the result of a failed load. *)
Definition closed_db : DB lru mem_log :=
  {| db_tree := sample_genesis; db_dir := ∅; readOnly := true; snapshotKeepRecent := 0; snapshotInterval := 0;
     db_wal := None; walChanSize := 0; walChan := None; walQuit := None; pendingLog := WALEntry_zero;
     snapshotRewrite := None |}.
Definition loaded (r : res (DB lru mem_log)) : DB lru mem_log := match r with Ok db => db | _ => closed_db end.

(** A new database, with a store added, and committed. *)
Definition new_db (async : Z) : DB lru mem_log := loaded (Load ∅ no_log (sample_opts async)).
Definition upgraded_db (async : Z) : DB lru mem_log := (ApplyUpgrades [sample_add "gov"] (new_db async)).1.
Definition committed_db (async : Z) : DB lru mem_log := (Commit unlocked (upgraded_db async)).1.
(** Its log after all writes. *)
Definition log_of (db : DB lru mem_log) : mem_log := default no_log (db_wal db).

(** Loading what is on disk. *)
Definition reopen (async : Z) (db : DB lru mem_log) : res (DB lru mem_log) :=
  Load (db_dir db) (log_of db) (sample_opts async).

(** After a change to a store and its renaming in the same version, the log of the version
    has the renaming first, and the database cannot be loaded again. *)
Theorem rename_after_change_unloadable :
  let '(db, r) :=
    (ApplyChangeSets [{| ncs_Changeset := sample_changes; ncs_Name := str "gov" |}] ;;
     ApplyUpgrades [{| up_Name := str "mint"; up_RenameFrom := str "gov"; up_Delete := false |}] ;;
     Commit unlocked) (committed_db (-1)) in
  r = Ok 6 /\ reopen (-1) db = Err "unknown tree name".
Proof. vm_compute. split; reflexivity. Qed.

(** With asynchronous commits a snapshot can be ahead of the log: the database loads at the
    version of the snapshot, and the next commit fails. *)
Theorem snapshot_ahead_of_log :
  let db := (run_rewrite (fun _ => Background) (committed_db 10)).1 in
  let db' := loaded (reopen (-1) db) in
  Version (db_tree db') = 5 /\ wv_last (ml_view (log_of db)) = 0 /\ (Commit unlocked db').2 = Err ErrOutOfOrder.
Proof. vm_compute. repeat split; reflexivity. Qed.

(** A snapshot that is being exported is not removed, but the log is truncated up to the
    next one: versions after the snapshot can be sought and not loaded. *)
Definition locked_dir : DBDir :=
  <[snapshotName 5 := Sub ∅]> (<[snapshotName 9 := Sub ∅]> (<[currentName := Link (snapshotName 9)]> ∅)).
Theorem prune_locked_cuts_log :
  let '(dir, e) := prune_dir (fun v => v =? 5) 0 locked_dir in
  snapshots dir = [5; 9] /\ e = Ok 9 /\ seekSnapshot dir 7 = Ok 5.
Proof. vm_compute. repeat split; reflexivity. Qed.

(** ** Witnesses *)

Lemma loaded_ok_eq r : (match r with Ok _ => true | _ => false end) = true -> r = Ok (loaded r).
Proof. by destruct r. Qed.

Lemma sample_opts_latest : latest (sample_opts (-1)).
Proof. by split; [|split]. Qed.

Lemma new_db_reach : reach 5 [] (new_db (-1)).
Proof.
  apply (reach_create 5 no_log (sample_opts (-1))); [exact sample_opts_latest|reflexivity|reflexivity|reflexivity|].
  unfold new_db. apply loaded_ok_eq. vm_compute. reflexivity.
Qed.

Lemma is_Some_eq {A} (o : option A) : (match o with Some _ => true | None => false end) = true -> exists a, o = Some a.
Proof. destruct o; [eauto|done]. Qed.

Lemma upgraded_db_reach : reach 5 [] (upgraded_db (-1)).
Proof.
  destruct (is_Some_eq (upgrade_maps (new_tree (db_tree (new_db (-1)))) (stores (db_tree (new_db (-1)))) [sample_add "gov"]))
    as [m Hm]; [vm_compute; reflexivity|].
  apply (reach_upgrades 5 [] (new_db (-1)) _ [sample_add "gov"] m new_db_reach); [vm_compute; reflexivity|exact Hm|].
  unfold upgraded_db. apply (run_pair (ApplyUpgrades _ _)). vm_compute. reflexivity.
Qed.

Lemma committed_db_reach : reach 5 ([] ++ [pendingLog (upgraded_db (-1))]) (committed_db (-1)).
Proof.
  apply (reach_commit 5 [] (upgraded_db (-1)) _ 5 unlocked upgraded_db_reach);
    [vm_compute; reflexivity|vm_compute; reflexivity|].
  unfold committed_db. apply (run_pair (Commit _ _)). vm_compute. reflexivity.
Qed.

Lemma committed_db_crash : crash (committed_db (-1)) (db_dir (committed_db (-1))) (log_of (committed_db (-1))).
Proof.
  split; [by left|]. exists (log_of (committed_db (-1))), 1%nat. split; vm_compute; reflexivity.
Qed.


(** A second commit, and the way back to the first. *)
Definition twice_db : DB lru mem_log := (Commit unlocked (committed_db (-1))).1.
Definition twice_hist : list WALEntry := [pendingLog (upgraded_db (-1)); pendingLog (committed_db (-1))].
Definition first_tree : MultiTree lru := (run_blocks (take 1 twice_hist) (genesis 5)).1.
Definition back_opts (overwrite : bool) : Options :=
  {| CreateIfMissing := true; InitialVersion := 5; ReadOnly := false; InitialStores := []; SnapshotKeepRecent := 0;
     SnapshotInterval := 1; TargetVersion := 5; AsyncCommitBuffer := -1; ZeroCopy := false; CacheSize := 2;
     LoadForOverwriting := overwrite; HistoricalQueryLimit := 0 |}.

Lemma twice_db_reach : reach 5 twice_hist twice_db.
Proof.
  apply (reach_commit 5 _ (committed_db (-1)) _ 6 unlocked committed_db_reach);
    [vm_compute; reflexivity|vm_compute; reflexivity|].
  unfold twice_db. apply (run_pair (Commit _ _)). vm_compute. reflexivity.
Qed.

Lemma twice_db_crash : crash twice_db (db_dir twice_db) (log_of twice_db).
Proof. split; [by left|]. exists (log_of twice_db), 2%nat. split; vm_compute; reflexivity. Qed.

Lemma first_tree_state : state_at (genesis 5) twice_hist 1 first_tree.
Proof. split; [simpl; lia|]. apply (run_pair (run_blocks _ _)). vm_compute. reflexivity. Qed.

Lemma first_tree_version : Version first_tree = 5.
Proof. vm_compute. reflexivity. Qed.

Lemma twice_serves : current_serves (db_dir twice_db) (Version first_tree).
Proof.
  exists 0. rewrite first_tree_version. split; [vm_compute; reflexivity|]. split; [lia|].
  assert (E : snapshots (db_dir twice_db) = [0]) by (vm_compute; reflexivity).
  rewrite E. intros u Hu. rewrite elem_of_cons, elem_of_nil in Hu. lia.
Qed.



(** Four snapshots; the third one is current. *)
Definition sample_dir : DBDir :=
  <[snapshotName 3 := Sub ∅]> (<[snapshotName 5 := Sub ∅]> (<[snapshotName 9 := Sub ∅]>
  (<[snapshotName 12 := Sub ∅]> (<[currentName := Link (snapshotName 9)]> ∅)))).

Lemma sample_dir_ok : dir_ok sample_dir.
Proof.
  unfold sample_dir. do 4 (apply dir_ok_insert; [|intros _; eexists; split; [|reflexivity]; lia]).
  apply dir_ok_insert; [|done]. intros name m E. by rewrite lookup_empty in E.
Qed.

Lemma seekSnapshot_correct_witness :
  exists v, seekSnapshot sample_dir 8 = Ok v /\ v ∈ snapshots sample_dir /\ v <= 8.
Proof.
  pose proof (seekSnapshot_correct sample_dir 8 sample_dir_ok ltac:(unfold MaxInt64; lia)) as Hs.
  assert (E : seekSnapshot sample_dir 8 = Ok 5) by (vm_compute; reflexivity).
  rewrite E in Hs. destruct Hs as (Hv & Hle & _). exists 5. auto.
Defined.


Lemma snapshotName_correct_witness : parseVersion (snapshotName 10) = Ok 10 /\ bytes_lt (snapshotName 9) (snapshotName 10).
Proof.
  split; [apply (snapshotName_correct 10 9); lia|]. apply (snapshotName_correct 9 10); lia.
Defined.

(** A new database with initial version 5 has the latest version 4. *)
Theorem GetLatestVersion_new : GetLatestVersion (db_dir (new_db (-1))) no_log = Ok 4.
Proof. vm_compute. reflexivity. Qed.
