(* ===== verification/StateSync.v ===== *)
(** * State sync (memiavl/export.go and memiavl/import.go on a multi-tree)

    The exporter of a multi-tree streams, for every store, its name and its nodes in
    post-order.  The importer turns such a stream into the snapshot of a height in a
    database directory.  Each store is imported by a goroutine behind a bounded channel,
    which works on a folder of its own: the model keeps the nodes that were sent and runs
    the import when the channel is closed, and a send blocks for ever when the goroutine
    is gone and the buffer is full.  What an import that fails has written to its files is
    not tracked. *)

From Stdlib Require Import Strings.Byte ZArith Lia.
From stdpp Require Import base list numbers strings gmap.
From S2P Require Import Prelude Binary Proto State Node NodeIface Iterator Snapshot SnapshotWriter Export Import Cache Tree Wal.
From S2P Require Import MultiTree SnapshotDir DB.
Local Open Scope Z_scope.

Inductive export_item : Type := ITree (name : bytes) | INode (n : ExportNode).

Definition ErrorExportDone : error := "export is complete".
(** A send that no goroutine will ever receive. *)
Definition blocked : error := "blocked forever".

(** ** The exporter *)

Section exporter.
Context `{CacheOps C} `{WalOps L}.

(** [me_nodes]: what the exporter of the current tree has not sent yet. *)
Record MultiTreeExporter : Type := {
  me_mtree : MultiTree C;
  iTree : nat;
  me_nodes : option (list ExportNode)
}.

Definition export_options (version : Z) : Options :=
  {| CreateIfMissing := false; InitialVersion := 0; ReadOnly := true; InitialStores := []; SnapshotKeepRecent := 0;
     SnapshotInterval := 0; TargetVersion := version; AsyncCommitBuffer := 0; ZeroCopy := true; CacheSize := 0;
     LoadForOverwriting := false; HistoricalQueryLimit := 0 |}.

Definition NewMultiTreeExporter (dir : DBDir) (log : L) (version : Z)
    (supportExportNonSnapshotVersion : bool) : res MultiTreeExporter :=
  if MaxInt64 <? version then Err "version overflows int64" else
  mtree ← (if supportExportNonSnapshotVersion
           then db ← Load dir log (export_options version); Ok (db_tree db)
           else
             curVersion ← currentVersion dir;
             if curVersion <? i64 version then Err "snapshot is not created yet"
             else m ← open_dir dir (snapshotName (i64 version)); LoadMultiTree m true 0);
  Ok {| me_mtree := mtree; iTree := 0; me_nodes := None |}.

(** A bound on the steps of the traversal of a tree. *)
Definition export_fuel (t : Tree C) : nat :=
  match root t with None => 1 | Some n => S (2 * node_count n) end.

(** The next tree. *)
Definition next_tree (e : MultiTreeExporter) : res (export_item * MultiTreeExporter) :=
  match trees (me_mtree e) !! iTree e with
  | None => Err ErrorExportDone
  | Some tree =>
      nodes ← Tree.Export (export_fuel (nt_Tree tree)) (nt_Tree tree);
      Ok (ITree (nt_Name tree), {| me_mtree := me_mtree e; iTree := S (iTree e); me_nodes := Some nodes |})
  end.

Definition exporter_Next (e : MultiTreeExporter) : res (export_item * MultiTreeExporter) :=
  match me_nodes e with
  | Some (n :: nodes) => Ok (INode n, {| me_mtree := me_mtree e; iTree := iTree e; me_nodes := Some nodes |})
  | Some [] => next_tree {| me_mtree := me_mtree e; iTree := iTree e; me_nodes := None |}
  | None => next_tree e
  end.
End exporter.
Arguments MultiTreeExporter : clear implicits.

(** ** The importer *)

Definition NodeChannelBuffer : Z := 2048.

(** The goroutine of one tree: it waits for nodes, has returned an error after taking some
    of them, or has panicked. *)
Inductive worker : Type := Waiting | Failed (taken : nat) | Crashed.

Fixpoint work (i : importer) (nodes : list ExportNode) : worker :=
  match nodes with
  | [] => Waiting
  | n :: nodes =>
      match importer_Add i n with
      | Ok i => match work i nodes with Failed k => Failed (S k) | w => w end
      | Err _ => Failed 1
      | Panic => Crashed
      end
  end.

(** [ti_nodes]: the nodes sent, until the channel is closed. *)
Record TreeImporter : Type := { ti_name : bytes; ti_nodes : option (list ExportNode) }.

Definition TreeImporter_Add (ti : TreeImporter) (n : ExportNode) : res TreeImporter :=
  match ti_nodes ti with
  | None => Err blocked
  | Some nodes =>
      let sent := Ok {| ti_name := ti_name ti; ti_nodes := Some (nodes ++ [n]) |} in
      match work (newImporter newSnapshotWriter) nodes with
      | Waiting => sent
      | Failed taken => if NodeChannelBuffer <=? zlen nodes - Z.of_nat taken then Err blocked else sent
      | Crashed => Panic
      end
  end.

Record MultiTreeImporter : Type := {
  mi_dir : DBDir;
  mi_height : Z;
  mi_importer : option TreeImporter
}.

Definition NewMultiTreeImporter (dir : DBDir) (height : Z) : res MultiTreeImporter :=
  if MaxInt64 <? height then Err "version overflows int64"
  else Ok {| mi_dir := dir; mi_height := i64 height; mi_importer := None |}.

Definition tmpDir (height : Z) : bytes := snapshotName height ++ TmpSuffix.

(** The import of one store into its folder of the temporary directory. *)
Definition import_store (height : Z) (name : bytes) (nodes : list ExportNode) : SE DBDir unit := fun dir =>
  match dir !! tmpDir height with
  | Some (Link _) | Some Other => (dir, Err "not a directory")
  | sub =>
      let m := match sub with Some (Sub m) => m | _ => ∅ end in
      match m !! name with
      | Some (File _) => (<[tmpDir height := Sub m]> dir, Err "not a directory")
      | folder =>
          let d := match folder with Some (Folder d) => d | _ => ∅ end in
          let into d := <[tmpDir height := Sub (<[name := Folder d]> m)]> dir in
          match doImport d height nodes with
          | Ok d => (into d, Ok tt)
          | Err e => (into d, Err e)
          | Panic => (dir, Panic)
          end
      end
  end.

(** [TreeImporter.Close] of the current importer, which tolerates a second call. *)
Definition close_importer : SE MultiTreeImporter unit := fun mti =>
  match mi_importer mti with
  | Some {| ti_name := name; ti_nodes := Some nodes |} =>
      let '(dir, r) := import_store (mi_height mti) name nodes (mi_dir mti) in
      ({| mi_dir := dir; mi_height := mi_height mti;
          mi_importer := Some {| ti_name := name; ti_nodes := None |} |}, r)
  | _ => (mti, Ok tt)
  end.

Definition set_importer (ti : option TreeImporter) (mti : MultiTreeImporter) : MultiTreeImporter :=
  {| mi_dir := mi_dir mti; mi_height := mi_height mti; mi_importer := ti |}.

Definition AddTree (name : bytes) : SE MultiTreeImporter unit :=
  close_importer ;; modify (set_importer (Some {| ti_name := name; ti_nodes := Some [] |})).

Definition AddNode (n : ExportNode) : SE MultiTreeImporter unit :=
  ti ← gets mi_importer;
  ti ← lift (of_option ti ≫= fun ti => TreeImporter_Add ti n);
  modify (set_importer (Some ti)).

Definition importer_item (item : export_item) : SE MultiTreeImporter unit :=
  match item with INode n => AddNode n | ITree name => AddTree name end.

(** The store infos of the folders of a directory. *)
Fixpoint folder_infos (height : Z) (entries : list (bytes * fentry)) : res (list StoreInfo) :=
  match entries with
  | [] => Ok []
  | (_, File _) :: entries => folder_infos height entries
  | (name, Folder d) :: entries =>
      snapshot ← OpenSnapshot d;
      hash ← Snapshot.RootHash snapshot;
      infos ← folder_infos height entries;
      Ok ({| si_Name := name; si_CommitId := {| cid_Version := height; cid_Hash := hash |} |} :: infos)
  end.

Definition updateMetadataFile (dir : MDir) (height : Z) : res MDir :=
  storeInfos ← folder_infos height (ReadDir dir);
  bz ← MultiTreeMetadata_Marshal
         {| md_CommitInfo := Some {| ci_Version := height; ci_StoreInfos := storeInfos |};
            md_InitialVersion := i64 (height + 1) |};
  WriteFileSync dir MetadataFileName bz.

(** [updateMetadataFile] on the temporary directory, which is there if a store was added. *)
Definition update_tmp (height : Z) : SE DBDir unit := fun dir =>
  match dir !! tmpDir height with
  | Some (Sub m) =>
      match updateMetadataFile m height with
      | Ok m => (<[tmpDir height := Sub m]> dir, Ok tt)
      | Err e => (dir, Err e)
      | Panic => (dir, Panic)
      end
  | _ => (dir, Err ErrNotExist)
  end.

Definition on_import_dir {A} (m : SE DBDir A) : SE MultiTreeImporter A := fun mti =>
  let '(dir, r) := m (mi_dir mti) in
  ({| mi_dir := dir; mi_height := mi_height mti; mi_importer := mi_importer mti |}, r).

Definition importer_Finalize : SE MultiTreeImporter unit :=
  close_importer ;;
  modify (set_importer None) ;;
  height ← gets mi_height;
  on_import_dir (
    update_tmp height ;;
    rename_dir (tmpDir height) (snapshotName height) ;;
    updateCurrentSymlink (snapshotName height)).
