(* ===== verification/StateSyncInv.v ===== *)
(** * State sync writes the snapshot

    Importing what a multi-tree exports leaves, byte for byte, the snapshot that the
    multi-tree itself would write, with the next version as its initial version. *)

From Stdlib Require Import Strings.Byte ZArith Lia.
From stdpp Require Import base list numbers strings gmap.
From S2P Require Import Prelude Binary Proto ProtoInv ProtoCodec State Node NodeInv NodeIface Iterator Snapshot SnapshotInv SnapshotWriter.
From S2P Require Import Export Import Cache Tree Wal MultiTree MultiTreeInv MultiTreeSim MultiTreeSnapshot.
From S2P Require Import SnapshotDir SnapshotDirInv DB DBInv DBRecovery DBCrash StateSync.
Local Open Scope Z_scope.

(** ** Nodes on the wire *)

(** The value of a branch node does not matter. *)
Record same_node (a b : ExportNode) : Prop := {
  sm_key : en_Key a = en_Key b;
  sm_height : en_Height a = en_Height b;
  sm_version : en_Version a = en_Version b;
  sm_value : en_Height a = 0 -> en_Value a = en_Value b
}.

Lemma importer_Add_same i a b : same_node a b -> importer_Add i a = importer_Add i b.
Proof.
  intros [Hk Hh Hv Hx]. unfold importer_Add. rewrite <- Hv, <- Hh, <- Hk.
  destruct (Z.eqb_spec (en_Height a) 0) as [E|]; [by rewrite (Hx E)|done].
Qed.

Lemma import_nodes_same i l l' : Forall2 same_node l l' -> import_nodes i l = import_nodes i l'.
Proof.
  intros Hl. revert i. induction Hl as [|a b l l' Hab Hl IH]; intros i; [done|]. cbn [import_nodes].
  rewrite (importer_Add_same i a b Hab). destruct (importer_Add i b); cbn [mbind res_bind]; auto.
Qed.

Lemma doImport_same d v l l' : Forall2 same_node l l' -> doImport d v l = doImport d v l'.
Proof.
  intros Hl. unfold doImport. destruct (v <? 0); [done|]. unfold writeSnapshot.
  by rewrite (import_nodes_same _ _ _ Hl).
Qed.

(** A goroutine whose stream is fine so far waits for more. *)
Lemma work_waiting i l1 l2 i' : import_nodes i (l1 ++ l2) = Ok i' -> work i l1 = Waiting.
Proof.
  revert i. induction l1 as [|n l1 IH]; intros i; [done|]. cbn [app import_nodes work].
  intros (i1 & -> & E)%res_bind_ok. by rewrite (IH i1 E).
Qed.

Section sync.
Context `{CacheLaws C}.
Implicit Types (t : MultiTree C) (e : NamedTree C) (l : list (NamedTree C)) (dir : DBDir).

(** ** Exporting *)

Definition store_items e : list export_item := ITree (nt_Name e) :: map INode (export_list (root (nt_Tree e))).
Definition export_items l : list export_item := concat (map store_items l).

(** The items an exporter still has to give. *)
Fixpoint yields (ex : MultiTreeExporter C) (items : list export_item) : Prop :=
  match items with
  | [] => exporter_Next ex = Err ErrorExportDone
  | x :: items => exists ex', exporter_Next ex = Ok (x, ex') /\ me_mtree ex' = me_mtree ex /\ yields ex' items
  end.

Lemma Export_items e : faithful e ->
  Tree.Export (export_fuel (nt_Tree e)) (nt_Tree e) = Ok (export_list (root (nt_Tree e))).
Proof.
  intros He. apply Export_post_order; [intros s Es _; by apply He|]. intros n En. unfold export_fuel. rewrite En. lia.
Qed.

Lemma nodes_yield t k ns items :
  (forall nodes, nodes = None \/ nodes = Some [] -> yields {| me_mtree := t; iTree := k; me_nodes := nodes |} items) ->
  yields {| me_mtree := t; iTree := k; me_nodes := Some ns |} (map INode ns ++ items).
Proof.
  intros Hi. induction ns as [|n ns IH]; [apply Hi; by right|].
  cbn [map app yields]. eexists. split; [reflexivity|]. done.
Qed.

Lemma exporter_yields t k nodes :
  Forall faithful (trees t) -> nodes = None \/ nodes = Some [] ->
  yields {| me_mtree := t; iTree := k; me_nodes := nodes |} (export_items (drop k (trees t))).
Proof.
  intros Hf. remember (length (trees t) - k)%nat as r eqn:Er. revert k nodes Er.
  induction r as [|r IH]; intros k nodes Er Hn.
  - rewrite drop_ge by lia. unfold export_items. cbn [map concat yields].
    assert (En : trees t !! k = None) by (apply lookup_ge_None; lia).
    destruct Hn as [-> | ->]; unfold exporter_Next, next_tree; cbn [me_nodes me_mtree iTree]; by rewrite En.
  - destruct (lookup_lt_is_Some_2 (trees t) k) as [e He]; [lia|].
    rewrite (drop_S _ e k He). unfold export_items. cbn [map concat]. fold (export_items (drop (S k) (trees t))).
    unfold store_items. cbn [app yields].
    exists {| me_mtree := t; iTree := S k; me_nodes := Some (export_list (root (nt_Tree e))) |}.
    split; [|split; [done|]].
    + unfold exporter_Next, next_tree. destruct Hn as [-> | ->]; cbn [me_nodes me_mtree iTree];
        rewrite He, Export_items by (by apply (proj1 (Forall_lookup _ _) Hf k)); reflexivity.
    + cbn [me_mtree iTree]. apply nodes_yield. intros nodes' Hn'. apply IH; [lia|done].
Qed.

(** ** Importing one store *)

(** A tree whose nodes fit the exported ones. *)
Definition sendable e : Prop := match root (nt_Tree e) with None => True | Some n => exportable n end.

Lemma doImport_store e d v :
  sendable e -> writable e -> version (nt_Tree e) = v -> 0 <= v <= MaxInt64 ->
  doImport d v (export_list (root (nt_Tree e))) = Tree.WriteSnapshot max_depth Background d (nt_Tree e).
Proof.
  intros Hs [Hw _] Ev Hv. unfold Tree.WriteSnapshot, sendable in *. rewrite Ev.
  destruct (root (nt_Tree e)) as [n|]; cbn [export_list].
  - destruct Hw. apply doImport_writes; [done..|unfold max_depth; lia].
  - unfold doImport. rewrite (proj2 (Z.ltb_ge _ _)) by lia. by rewrite (proj2 (export_version v Hv)).
Qed.

Lemma import_list_ok e : sendable e -> writable e ->
  exists i, import_nodes (newImporter newSnapshotWriter) (export_list (root (nt_Tree e))) = Ok i.
Proof.
  intros Hs [Hw _]. unfold sendable in Hs. destruct (root (nt_Tree e)) as [n|]; cbn [export_list]; [|eauto].
  destruct Hw. edestruct (import_tree n (newImporter newSnapshotWriter) 0 0) as [-> _]; [done..|lia|lia|eauto].
Qed.

(** The nodes of a store received by the importer. *)
Lemma add_nodes ns pre mti e :
  sendable e -> writable e -> Forall2 same_node (export_list (root (nt_Tree e))) (pre ++ ns) ->
  mi_importer mti = Some {| ti_name := nt_Name e; ti_nodes := Some pre |} ->
  for_each importer_item (map INode ns) mti =
    (set_importer (Some {| ti_name := nt_Name e; ti_nodes := Some (pre ++ ns) |}) mti, Ok tt).
Proof.
  intros Hs Hw. destruct (import_list_ok e Hs Hw) as [i Ei]. revert pre mti.
  induction ns as [|n ns IH]; intros pre mti Hsame Hm; cbn [map].
  { rewrite app_nil_r. destruct mti as [d h im]. simpl in Hm. subst im. done. }
  apply for_each_cons_ok. rewrite (import_nodes_same _ _ _ Hsame) in Ei.
  exists (set_importer (Some {| ti_name := nt_Name e; ti_nodes := Some (pre ++ [n]) |}) mti). split.
  - cbn [importer_item]. unfold AddNode. apply SE_bind_ok. do 2 eexists. split; [reflexivity|]. rewrite Hm.
    cbn [of_option mbind res_bind]. unfold TreeImporter_Add. cbn [ti_nodes ti_name].
    by rewrite (work_waiting _ _ _ _ Ei).
  - rewrite (IH (pre ++ [n])); [|by rewrite <- app_assoc|done]. by rewrite <- app_assoc.
Qed.

(** The items of a store as they arrive. *)
Definition received e (items : list export_item) : Prop := exists ns,
  items = ITree (nt_Name e) :: map INode ns /\ Forall2 same_node (export_list (root (nt_Tree e))) ns.

Lemma add_store e items mti mti1 :
  sendable e -> writable e -> received e items -> close_importer mti = (mti1, Ok tt) ->
  exists ns, Forall2 same_node (export_list (root (nt_Tree e))) ns /\
    for_each importer_item items mti =
      (set_importer (Some {| ti_name := nt_Name e; ti_nodes := Some ns |}) mti1, Ok tt).
Proof.
  intros Hs Hw (ns & -> & Hn) Ec. exists ns. split; [done|]. apply for_each_cons_ok.
  eexists. split.
  - cbn [importer_item]. unfold AddTree. apply SE_bind_ok. exists mti1, tt. split; [done|reflexivity].
  - by rewrite (add_nodes ns [] _ e).
Qed.

(** Closing the channel writes the folder of the store, as the snapshot writer does. *)
Lemma close_store e ns v dir m d :
  sendable e -> writable e -> version (nt_Tree e) = v -> 0 <= v <= MaxInt64 ->
  Forall2 same_node (export_list (root (nt_Tree e))) ns ->
  m = match dir !! tmpDir v with Some (Sub m) => m | _ => ∅ end ->
  (forall x, dir !! tmpDir v = Some x -> exists m, x = Sub m) ->
  write_store (fun _ => Background) m e = Ok d ->
  close_importer {| mi_dir := dir; mi_height := v; mi_importer := Some {| ti_name := nt_Name e; ti_nodes := Some ns |} |} =
    ({| mi_dir := <[tmpDir v := Sub d]> dir; mi_height := v;
        mi_importer := Some {| ti_name := nt_Name e; ti_nodes := None |} |}, Ok tt).
Proof.
  intros Hs Hw Ev Hv Hn Em Ht E. unfold close_importer. cbn [mi_importer mi_height mi_dir]. unfold import_store.
  unfold write_store in E. apply res_bind_ok in E as (d0 & E0 & E). apply res_bind_ok in E as (d1 & E1 & [= <-]).
  assert (Hi : doImport d0 v ns = Ok d1).
  { rewrite <- (doImport_same _ _ _ _ Hn), (doImport_store e) by done. exact E1. }
  destruct (dir !! tmpDir v) as [x|] eqn:Ed; [destruct (Ht x eq_refl) as [m0 ->]|]; subst m;
    (destruct (_ !! nt_Name e) as [[bz|f]|]; [done|injection E0 as <-|injection E0 as <-]; by rewrite Hi).
Qed.

(** ** Importing all stores *)

Lemma for_each_app_ok {St A} (f : A -> SE St unit) (l1 l2 : list A) s s'' :
  for_each f (l1 ++ l2) s = (s'', Ok tt) <-> exists s', for_each f l1 s = (s', Ok tt) /\ for_each f l2 s' = (s'', Ok tt).
Proof.
  revert s. induction l1 as [|x l1 IH]; intros s; cbn [app].
  - split; [eauto|]. by intros (s' & [= <-] & E).
  - rewrite for_each_cons_ok. setoid_rewrite for_each_cons_ok. setoid_rewrite IH. naive_solver.
Qed.

(** The importer has taken in stores whose folders make up [m]. *)
Definition taken dir (v : Z) (m : option MDir) (mti : MultiTreeImporter) : Prop := exists im,
  close_importer mti = ({| mi_dir := match m with Some m => <[tmpDir v := Sub m]> dir | None => dir end;
                           mi_height := v; mi_importer := im |}, Ok tt).

Lemma add_stores l stream v dir m mti m' :
  Forall sendable l -> Forall writable l -> Forall (fun e => version (nt_Tree e) = v) l -> 0 <= v <= MaxInt64 ->
  Forall2 received l stream -> dir !! tmpDir v = None -> taken dir v m mti ->
  write_stores (fun _ => Background) (default ∅ m) l = Ok m' ->
  exists mti', for_each importer_item (concat stream) mti = (mti', Ok tt) /\
    taken dir v (match l with [] => m | _ => Some m' end) mti'.
Proof.
  intros Hs Hw Hver Hv Hr Hd. revert m mti. induction Hr as [|e items l stream Hx Hr IH]; intros m mti Ht E.
  { by exists mti. }
  apply Forall_cons in Hs as [Hse Hs]. apply Forall_cons in Hw as [Hwe Hw]. apply Forall_cons in Hver as [Hve Hver].
  cbn [write_stores] in E. apply res_bind_ok in E as (m1 & E1 & E2). destruct Ht as [im Ec].
  destruct (add_store e items mti _ Hse Hwe Hx Ec) as (ns & Hn & Ea).
  set (dir1 := match m with Some m => <[tmpDir v := Sub m]> dir | None => dir end) in *.
  assert (Hd1 : <[tmpDir v := Sub m1]> dir1 = <[tmpDir v := Sub m1]> dir)
    by (unfold dir1; destruct m; [by rewrite insert_insert_eq|done]).
  destruct (IH Hs Hw Hver (Some m1)
    (set_importer (Some {| ti_name := nt_Name e; ti_nodes := Some ns |}) {| mi_dir := dir1; mi_height := v; mi_importer := im |}))
    as (mti' & Eb & Ht'); [|exact E2|].
  { eexists. rewrite <- Hd1. apply close_store with (m := default ∅ m); try done; unfold dir1.
    - destruct m as [m|]; [by rewrite lookup_insert_eq|by rewrite Hd].
    - intros x. destruct m as [m|]; [rewrite lookup_insert_eq; intros [= <-]; eauto|by rewrite Hd]. }
  exists mti'. split; [cbn [concat]; apply for_each_app_ok; eauto|].
  destruct l; [by injection E2 as <-|done].
Qed.

(** ** The metadata *)

Lemma snapshot_of_hash s r :
  snapshot_of s r -> Snapshot.RootHash s = Ok match r with None => emptyHash | Some n => HashNode n end.
Proof.
  destruct r as [n|]; cbn [snapshot_of].
  - intros (p & E & Hp & _). unfold Snapshot.RootHash, Snapshot.IsEmpty, RootNode. rewrite E. cbn [mbind res_bind of_option].
    apply (reads_Hash _ _ (persists_reads _ _ _ _ _ Hp)).
  - by intros ->.
Qed.

Lemma folder_infos_filter v es : folder_infos v es = folder_infos v (List.filter is_folder es).
Proof.
  induction es as [|[name [bz|d]] es IH]; [done|exact IH|]. cbn [List.filter is_folder snd folder_infos].
  by rewrite IH.
Qed.

Lemma folder_infos_of v es l : Forall2 loads es l -> folder_infos v es = Ok (infos l v).
Proof.
  induction 1 as [|[name f] e es l (Hn & Hf & Hr) Hl IH]; [done|].
  destruct Hf as (d & s & Ef & Eo & Ev & Es). simpl in Ef, Hn. subst f name.
  cbn [folder_infos]. rewrite Eo. cbn [mbind res_bind]. rewrite (snapshot_of_hash s _ Es). cbn [mbind res_bind].
  rewrite IH. done.
Qed.

(** What a state sync makes of a multi-tree: the next version becomes the initial one. *)
Definition imported t : MultiTree C := with_initialVersion t (Version t + 1).

Record sync_ok t : Prop := {
  so_writable : mt_writable (imported t);
  so_committed : committed t;
  so_version : 0 < Version t < MaxInt64;
  so_stores : trees t <> [];
  so_sendable : Forall sendable (trees t)
}.

Lemma sync_versions t : sync_ok t -> Forall (fun e => version (nt_Tree e) = Version t) (trees t).
Proof.
  intros Hs. pose proof (mo_trees _ (mw_ok _ (so_writable t Hs))) as Hv. pose proof (so_version t Hs).
  eapply Forall_impl; [exact Hv|]. intros e ->. unfold tree_version. change (Version (imported t)) with (Version t).
  by rewrite (proj2 (Z.eqb_neq _ _)) by lia.
Qed.

Lemma sync_infos t : sync_ok t ->
  lastCommitInfo t = {| ci_Version := Version t; ci_StoreInfos := infos (trees t) (Version t) |}.
Proof.
  intros Hs. pose proof (so_committed t Hs) as Hc. pose proof (so_version t Hs). unfold committed, buildCommitInfo in Hc.
  rewrite (store_infos_at _ (Version t)) in Hc; [by injection Hc|lia|by apply sync_versions].
Qed.

(** The folders and the metadata file are those of the multi-tree's own snapshot. *)
Lemma sync_snapshot t :
  sync_ok t -> exists m m', write_stores (fun _ => Background) ∅ (trees t) = Ok m /\
    updateMetadataFile m (Version t) = Ok m' /\
    WriteSnapshotWithContext (fun _ => Background) ∅ (imported t) = Ok m'.
Proof.
  intros Hs. pose proof (so_writable t Hs) as Hw. pose proof (mw_ok _ Hw) as Ht. pose proof (so_version t Hs).
  destruct (write_stores_opens (fun _ => Background) (trees t) ∅) as (m & E & Hin & Hout);
    [by apply (mo_names (imported t))|apply (mw_trees _ Hw)|done|by intros; rewrite lookup_empty|].
  exists m. assert (Ef : folder_infos (Version t) (ReadDir m) = Ok (infos (trees t) (Version t))).
  { rewrite folder_infos_filter. apply folder_infos_of, ReadDir_folders; [apply (mo_sorted _ Ht)| |].
    - intros e He. destruct (Hin e He) as (f & Hf & Ho). exists f. split; [done|]. split; [done|]. split; [done|].
      by apply (proj1 (Forall_forall _ _) (mw_trees _ Hw)).
    - intros name d Hd. destruct (decide (name ∈ map nt_Name (trees t))) as [|Hn]; [done|].
      by rewrite Hout, lookup_empty in Hd. }
  unfold WriteSnapshotWithContext, updateMetadataFile. change (trees (imported t)) with (trees t).
  change (lastCommitInfo (imported t)) with (lastCommitInfo t). change (initialVersion (imported t)) with (Version t + 1).
  rewrite E, Ef. cbn [mbind res_bind]. rewrite <- (sync_infos t Hs). unfold MaxInt64 in *. rewrite i64_small by lia.
  pose proof (mw_size _ Hw) as Hz.
  change {| md_CommitInfo := Some (lastCommitInfo t); md_InitialVersion := Version t + 1 |} with (mt_metadata (imported t)).
  rewrite MultiTreeMetadata_Marshal_bytes by lia. cbn [mbind res_bind]. unfold WriteFileSync.
  rewrite Hout, lookup_empty by apply (mw_names _ Hw). eauto.
Qed.

(** ** The whole import *)

(** A directory without traces of the height being imported. *)
Record fresh dir (v : Z) : Prop := {
  fr_tmp : dir !! tmpDir v = None;
  fr_name : dir !! snapshotName v = None;
  fr_currentTmp : dir !! currentTmpName = None;
  fr_current : forall m, dir !! currentName <> Some (Sub m)
}.

Definition with_snapshot (v : Z) (m : MDir) dir : DBDir :=
  <[currentName := Link (snapshotName v)]> (<[snapshotName v := Sub m]> dir).

Lemma publish_tmp v dir m m' :
  0 <= v -> fresh dir v -> updateMetadataFile m v = Ok m' ->
  (update_tmp v ;; rename_dir (tmpDir v) (snapshotName v) ;; updateCurrentSymlink (snapshotName v))
    (<[tmpDir v := Sub m]> dir) = (with_snapshot v m' dir, Ok tt).
Proof.
  intros Hv [Hf1 Hf2 Hf3 Hf4] E.
  assert (N1 : tmpDir v <> snapshotName v) by (intros X; by apply (tmp_snapshotName v v)).
  assert (N2 : tmpDir v <> currentTmpName).
  { intros X. apply (f_equal length) in X. unfold tmpDir in X. by rewrite length_app, snapshotName_length in X. }
  pose proof (tmp_current v Hv). pose proof (snapshotName_current v Hv). pose proof (snapshotName_currentTmp v Hv).
  apply SE_bind_ok. exists (<[tmpDir v := Sub m']> dir), tt. split.
  { unfold update_tmp. rewrite lookup_insert_eq, E. by rewrite insert_insert_eq. }
  apply SE_bind_ok. exists (<[snapshotName v := Sub m']> dir), tt. split.
  { unfold rename_dir. rewrite lookup_insert_eq, lookup_insert_ne, Hf2 by done. by rewrite delete_insert_id. }
  unfold updateCurrentSymlink. rewrite !lookup_insert_ne, Hf3 by done.
  destruct (dir !! currentName) as [[m0| |]|] eqn:Ec; [by destruct (Hf4 m0)|done..].
Qed.

Lemma import_received t stream dir :
  sync_ok t -> fresh dir (Version t) -> Forall2 received (trees t) stream ->
  exists mti m, (for_each importer_item (concat stream) ;; importer_Finalize)
      {| mi_dir := dir; mi_height := Version t; mi_importer := None |} = (mti, Ok tt) /\
    mi_dir mti = with_snapshot (Version t) m dir /\ mi_importer mti = None /\
    WriteSnapshotWithContext (fun _ => Background) ∅ (imported t) = Ok m.
Proof.
  intros Hs Hf Hr. pose proof (so_version t Hs) as Hv. pose proof (fr_tmp _ _ Hf). pose proof (so_writable t Hs) as Hw.
  destruct (sync_snapshot t Hs) as (m & m' & E1 & E2 & E3).
  destruct (add_stores (trees t) stream (Version t) dir None
    {| mi_dir := dir; mi_height := Version t; mi_importer := None |} m) as (mti & Ea & im & Ec);
    [apply (so_sendable t Hs)|apply (mw_trees _ Hw)|by apply sync_versions|lia|done|done|by eexists|done|].
  assert (Em : match trees t with [] => None | _ :: _ => Some m end = Some m)
    by (pose proof (so_stores t Hs); by destruct (trees t)).
  rewrite Em in Ec.
  eexists _, m'. split; [|split; [|split; [|exact E3]]].
  - apply SE_bind_ok. exists mti, tt. split; [done|]. unfold importer_Finalize. apply SE_bind_ok.
    do 2 eexists. split; [exact Ec|]. apply SE_bind_ok. do 2 eexists. split; [reflexivity|].
    apply SE_bind_ok. do 2 eexists. split; [reflexivity|]. unfold on_import_dir.
    cbn [mi_dir mi_height set_importer].
    rewrite (publish_tmp (Version t) dir m m') by (done || lia). reflexivity.
  - done.
  - done.
Qed.
End sync.
