(* ===== verification/QueryCache.v ===== *)
(** * The cache of historical versions (memiavl/rootmulti/query_cache.go)

    The root multistore answers queries at recent versions from copies of the multi-tree,
    one per published version, of which it keeps the newest ones; one more version is kept
    for the time a state-sync snapshot of it is exported.  The methods run under a mutex.
    File locks are handles; the cache keeps the one of the exporter and the model records
    the handles that were destroyed. *)

From Stdlib Require Import ZArith Lia.
From stdpp Require Import base list numbers strings gmap sorting.
From S2P Require Import Prelude State Sort Cache Tree MultiTree DB.
Local Open Scope Z_scope.

(** ** Limits *)

Definition snapshotIntervalLimit (opts : Options) : Z :=
  if SnapshotInterval opts <=? 0 then DefaultSnapshotInterval else SnapshotInterval opts.

Definition CacheLimit (opts : Options) : Z :=
  let maxInterval := snapshotIntervalLimit opts in
  let limit := HistoricalQueryLimit opts in
  let limit := if (limit <=? 0) || (maxInterval <? limit) then maxInterval else limit in
  limit + 1.

Definition clampHistoricalCacheOptions (opts : Options) : Options :=
  let maxInterval := snapshotIntervalLimit opts in
  if (HistoricalQueryLimit opts <=? 0) || (maxInterval <? HistoricalQueryLimit opts) then
    {| CreateIfMissing := CreateIfMissing opts; InitialVersion := InitialVersion opts; ReadOnly := ReadOnly opts;
       InitialStores := InitialStores opts; SnapshotKeepRecent := SnapshotKeepRecent opts;
       SnapshotInterval := SnapshotInterval opts; TargetVersion := TargetVersion opts;
       AsyncCommitBuffer := AsyncCommitBuffer opts; ZeroCopy := ZeroCopy opts; CacheSize := CacheSize opts;
       LoadForOverwriting := LoadForOverwriting opts; HistoricalQueryLimit := maxInterval |}
  else opts.

(** ** The versions in order *)

(** [copy(s[dst:], s[src:])] *)
Definition copy_within {A} (dst src : nat) (s : list A) : list A :=
  let moved := take (length s - dst) (drop src s) in
  take dst s ++ moved ++ drop (dst + length moved) s.

Definition insertVersion (version : Z) (seq : list Z) : res (list Z) :=
  match last seq with
  | None => Ok (seq ++ [version])
  | Some newest =>
      if newest <? version then Ok (seq ++ [version])
      else if version =? newest then Ok seq
      else
        idx ← Search (zlen seq) (fun i => v ← of_option (seq !! Z.to_nat i); Ok (version <=? v));
        found ← (if idx <? zlen seq
                 then v ← of_option (seq !! Z.to_nat idx); Ok (v =? version) else Ok false);
        if found : bool then Ok seq
        else Ok (<[Z.to_nat idx := version]> (copy_within (S (Z.to_nat idx)) (Z.to_nat idx) (seq ++ [0])))
  end.

(** ** The cache *)

Inductive miss : Type := NotPublished | NotFound | NotReady.

Definition classifyCacheMiss (version cacheLatest cacheLimit : Z) : miss :=
  if cacheLatest <? version then NotPublished
  else if cacheLimit <=? cacheLatest - version then NotFound
  else NotReady.

Section cache.
Context `{CacheOps C} {FL : Type}.
(** The options of the store. *)
Variable opts : Options.

Record snapshotExporter : Type := {
  se_version : Z;
  se_mtree : MultiTree C;
  se_fl : FL
}.

Record queryDBCache : Type := {
  entries : gmap Z (MultiTree C);
  qseq : list Z;
  qlatest : Z;
  exporter : option snapshotExporter;
  destroyed : list FL
}.

Definition newQueryDBCache : queryDBCache :=
  {| entries := ∅; qseq := []; qlatest := 0; exporter := None; destroyed := [] |}.

(** Closing an exporter destroys its lock. *)
Definition close_exporter (e : option snapshotExporter) (l : list FL) : list FL :=
  match e with Some e => l ++ [se_fl e] | None => l end.

Definition reset (c : queryDBCache) : queryDBCache :=
  {| entries := ∅; qseq := []; qlatest := 0; exporter := None;
     destroyed := close_exporter (exporter c) (destroyed c) |}.

Definition GetHistoricalTrees (c : queryDBCache) (version : Z) : option (MultiTree C) * Z :=
  match entries c !! version with
  | None =>
      match exporter c with
      | Some e => if se_version e =? version then (Some (MultiTree.Copy (se_mtree e) 0), qlatest c) else (None, qlatest c)
      | None => (None, qlatest c)
      end
  | Some entry => (Some (MultiTree.Copy entry 0), qlatest c)
  end.

(** The loop of the pruning: closing a tree that is not there would panic. *)
Fixpoint prune_loop (limit : Z) (seq : list Z) (entries : gmap Z (MultiTree C)) :
    res (list Z * gmap Z (MultiTree C)) :=
  match seq with
  | version :: rest =>
      if limit <? zlen seq then
        _ ← of_option (entries !! version);
        prune_loop limit rest (delete version entries)
      else Ok (seq, entries)
  | [] => Ok (seq, entries)
  end.

Definition pruneHistoricalTrees (seq : list Z) (entries : gmap Z (MultiTree C)) :
    res (list Z * gmap Z (MultiTree C)) :=
  let limit := CacheLimit opts in
  if limit <=? 0 then Ok (seq, entries) else prune_loop limit seq entries.

Definition AddHistoricalVersion (t : MultiTree C) (version : Z) (c : queryDBCache) : res queryDBCache :=
  if version <=? 0 then Ok c
  else match entries c !! version with
  | Some _ => Ok c
  | None =>
      let added := <[version := MultiTree.Copy t 0]> (entries c) in
      seq ← insertVersion version (qseq c);
      '(seq, kept) ← pruneHistoricalTrees seq added;
      Ok {| entries := kept; qseq := seq;
            qlatest := if qlatest c <? version then version else qlatest c;
            exporter := exporter c; destroyed := destroyed c |}
  end.

Definition SetSnapshotExporter (version : Z) (mtree : MultiTree C) (fl : FL) : SE queryDBCache unit := fun c =>
  if version <=? 0 then (c, Err "invalid snapshot MultiTree or version")
  else match exporter c with
  | Some _ => (c, Err "snapshot exporter already exists")
  | None =>
      ({| entries := entries c; qseq := qseq c; qlatest := qlatest c;
          exporter := Some {| se_version := version; se_mtree := mtree; se_fl := fl |};
          destroyed := destroyed c |}, Ok tt)
  end.

Definition PurgeSnapshotExporter (height : Z) (c : queryDBCache) : queryDBCache :=
  match exporter c with
  | Some e =>
      if se_version e =? height then
        {| entries := entries c; qseq := qseq c; qlatest := qlatest c; exporter := None;
           destroyed := close_exporter (exporter c) (destroyed c) |}
      else c
  | None => c
  end.
End cache.
Arguments snapshotExporter : clear implicits.
Arguments queryDBCache : clear implicits.
