(* ===== verification/QueryCacheInv.v ===== *)
(** * What the cache of historical versions serves

    The cache is compared with the finite map of everything published since the last
    reset: it serves exactly the newest versions of that map, as many as its limit. *)

From Stdlib Require Import ZArith Lia.
From stdpp Require Import base list numbers strings gmap sorting.
From S2P Require Import Prelude State Sort Cache Tree MultiTree DB QueryCache.
Local Open Scope Z_scope.

(** ** Ordered insertion *)

Fixpoint ins (v : Z) (l : list Z) : list Z :=
  match l with
  | [] => [v]
  | x :: l' => if v <? x then v :: l else if v =? x then l else x :: ins v l'
  end.

Lemma elem_of_ins v l x : x ∈ ins v l <-> x = v \/ x ∈ l.
Proof.
  induction l as [|y l IH]; cbn [ins]; [by rewrite list_elem_of_singleton, elem_of_nil; naive_solver|].
  destruct (Z.ltb_spec v y); [by rewrite elem_of_cons|].
  destruct (Z.eqb_spec v y) as [->|]; rewrite !elem_of_cons; rewrite ?IH; naive_solver.
Qed.

Lemma ins_sorted v l : StronglySorted Z.lt l -> StronglySorted Z.lt (ins v l).
Proof.
  induction 1 as [|x l Hl IH Hx]; cbn [ins]; [by repeat constructor|].
  destruct (Z.ltb_spec v x).
  - constructor; [by constructor|]. constructor; [done|]. eapply Forall_impl; [exact Hx|]. simpl. lia.
  - destruct (Z.eqb_spec v x); [by constructor|]. constructor; [done|].
    apply Forall_forall. intros y [->|Hy]%elem_of_ins; [lia|]. by apply (proj1 (Forall_forall _ _) Hx).
Qed.

Lemma ins_app_r v a b : Forall (fun x => x < v) a -> ins v (a ++ b) = a ++ ins v b.
Proof.
  induction 1 as [|x a Hx Ha IH]; [done|]. cbn [ins app].
  rewrite (proj2 (Z.ltb_ge v x)), (proj2 (Z.eqb_neq v x)) by lia. by rewrite IH.
Qed.

Lemma ins_app_l v a b : Forall (fun x => v < x) b -> ins v (a ++ b) = ins v a ++ b.
Proof.
  intros Hb. induction a as [|x a IH]; cbn [ins app].
  - destruct b as [|y b]; [done|]. apply Forall_cons in Hb as [Hy _]. cbn [ins].
    by rewrite (proj2 (Z.ltb_lt v y)) by done.
  - destruct (v <? x); [done|]. destruct (v =? x); [done|]. cbn [app]. by rewrite IH.
Qed.

Lemma ins_elem v l : StronglySorted Z.lt l -> v ∈ l -> ins v l = l.
Proof.
  induction 1 as [|x l Hl IH Hx]; [by intros ?%elem_of_nil|]. cbn [ins].
  intros [->|Hv]%elem_of_cons; [by rewrite Z.ltb_irrefl, Z.eqb_refl|].
  pose proof (proj1 (Forall_forall _ _) Hx v Hv) as Hlt. simpl in Hlt.
  rewrite (proj2 (Z.ltb_ge v x)), (proj2 (Z.eqb_neq v x)) by lia. by rewrite IH.
Qed.

Lemma ins_length v l : v ∉ l -> length (ins v l) = S (length l).
Proof.
  induction l as [|x l IH]; [done|]. intros [Hx Hv]%not_elem_of_cons. cbn [ins length].
  destruct (v <? x); [done|]. rewrite (proj2 (Z.eqb_neq v x)) by done. cbn [length]. by rewrite IH.
Qed.

Lemma copy_within_shift (l : list Z) k v :
  (k <= length l)%nat -> <[k := v]> (copy_within (S k) k (l ++ [0])) = take k l ++ v :: drop k l.
Proof.
  intros Hk. unfold copy_within. rewrite length_app, drop_app_le by done. cbn [length].
  rewrite (take_app_le (drop k l)) by (rewrite length_drop; lia).
  rewrite (take_ge (drop k l)) by (rewrite length_drop; lia). rewrite length_drop.
  rewrite (drop_ge (l ++ [0])) by (rewrite length_app; simpl; lia). rewrite app_nil_r.
  assert (E : exists y, take (S k) (l ++ [0]) = take k l ++ [y]).
  { destruct (lookup_lt_is_Some_2 (l ++ [0]) k) as [y Hy]; [rewrite length_app; simpl; lia|].
    exists y. rewrite (take_S_r _ _ y Hy). by rewrite take_app_le by done. }
  destruct E as [y ->]. rewrite <- app_assoc. cbn [app].
  rewrite insert_app_r_alt by (rewrite length_take; lia).
  rewrite length_take, Nat.min_l, Nat.sub_diag by done. done.
Qed.

(** The binary search finds where to insert. *)
Lemma search_version v l :
  StronglySorted Z.lt l ->
  exists r, Search (zlen l) (fun i => x ← of_option (l !! Z.to_nat i); Ok (v <=? x)) = Ok (Z.of_nat r) /\
    (r <= length l)%nat /\ Forall (fun x => x < v) (take r l) /\ Forall (fun x => v <= x) (drop r l).
Proof.
  intros Hs. set (g i := match l !! Z.to_nat i with Some x => v <=? x | None => false end).
  destruct (Search_least (fun i => x ← of_option (l !! Z.to_nat i); Ok (v <=? x)) g (zlen l)) as (r & E & Hr & Hlo & Hhi).
  { intros i Hi. unfold zlen in Hi. destruct (lookup_lt_is_Some_2 l (Z.to_nat i)) as [x Hx]; [lia|].
    unfold g. by rewrite Hx. }
  { intros i j Hij Hj. unfold g, zlen in *. destruct (lookup_lt_is_Some_2 l (Z.to_nat j)) as [y Hy]; [lia|].
    destruct (lookup_lt_is_Some_2 l (Z.to_nat i)) as [x Hx]; [lia|]. rewrite Hx, Hy, !Z.leb_le.
    destruct (decide (i = j)) as [->|]; [replace y with x by congruence; lia|].
    pose proof (StronglySorted_lookup Z.lt l _ _ x y Hs Hx Hy). lia. }
  { unfold zlen. lia. }
  unfold zlen in *. exists (Z.to_nat r). rewrite Z2Nat.id by lia. split; [done|]. split; [lia|].
  split; apply Forall_lookup; intros i x Hx.
  - apply lookup_take_Some in Hx as [Hx Hi]. specialize (Hlo (Z.of_nat i)). unfold g in Hlo.
    rewrite Nat2Z.id, Hx in Hlo. apply Z.leb_gt, Hlo. lia.
  - rewrite lookup_drop in Hx. specialize (Hhi (Z.of_nat (Z.to_nat r + i))). unfold g in Hhi.
    rewrite Nat2Z.id, Hx in Hhi. apply Z.leb_le, Hhi. apply lookup_lt_Some in Hx. lia.
Qed.

(** On ordered versions the code inserts in order. *)
Lemma insertVersion_ins v l : StronglySorted Z.lt l -> insertVersion v l = Ok (ins v l).
Proof.
  intros Hs. unfold insertVersion. destruct (last l) as [m|] eqn:Em; [|by apply last_None in Em as ->].
  pose proof Em as (l' & El)%last_Some.
  assert (Hl' : Forall (fun x => x < m) l').
  { rewrite El in Hs. apply StronglySorted_app in Hs as (Hc & _ & _). apply Forall_forall.
    intros x Hx. apply Hc; [done|by left]. }
  destruct (Z.ltb_spec m v) as [Hlt|Hge].
  { rewrite <- (app_nil_r l) at 2. rewrite ins_app_r; [done|]. rewrite El. apply Forall_app. split; [|by constructor].
    eapply Forall_impl; [exact Hl'|]. simpl. lia. }
  destruct (Z.eqb_spec v m) as [->|Hne].
  { rewrite ins_elem; [done|done|]. rewrite El. apply elem_of_app. right. by left. }
  destruct (search_version v l Hs) as (r & -> & Hr & Hlo & Hhi). cbn [mbind res_bind].
  rewrite Nat2Z.id. destruct (drop r l) as [|x b] eqn:Ed.
  { assert (length (drop r l) = 0)%nat as Hd by (by rewrite Ed). rewrite length_drop in Hd.
    rewrite take_ge in Hlo by lia. rewrite El in Hlo. apply Forall_app in Hlo as [_ [Hm _]%Forall_cons]. lia. }
  assert (Hx : l !! r = Some x) by (rewrite <- (Nat.add_0_r r), <- lookup_drop, Ed; done).
  rewrite (proj2 (Z.ltb_lt _ _)) by (apply lookup_lt_Some in Hx; unfold zlen; lia).
  rewrite Hx. cbn [mbind res_bind of_option]. destruct (Z.eqb_spec x v) as [->|Hxv].
  { rewrite ins_elem; [done|done|]. by eapply list_elem_of_lookup_2. }
  rewrite copy_within_shift by done. f_equal. rewrite <- (take_drop r l) at 3.
  rewrite ins_app_r by done. rewrite Ed. cbn [ins]. apply Forall_cons in Hhi as [Hvx _].
  by rewrite (proj2 (Z.ltb_lt v x)) by lia.
Qed.

(** ** The newest elements *)

Definition lastn {A} (k : nat) (l : list A) : list A := drop (length l - k) l.

Lemma lastn_length {A} k (l : list A) : (length (lastn k l) <= k)%nat.
Proof. unfold lastn. rewrite length_drop. lia. Qed.

Lemma lastn_short {A} k (l : list A) : (length l <= k)%nat -> lastn k l = l.
Proof. intros Hk. unfold lastn. by replace (length l - k)%nat with 0%nat by lia. Qed.

Lemma lastn_app {A} k (a b : list A) : (k <= length b)%nat -> lastn k (a ++ b) = lastn k b.
Proof.
  intros Hk. unfold lastn. rewrite length_app, drop_app_ge by lia. f_equal. lia.
Qed.

Lemma lastn_split {A} k (l : list A) : exists older, l = older ++ lastn k l /\ (older = [] \/ length (lastn k l) = k).
Proof.
  exists (take (length l - k) l). unfold lastn. split; [by rewrite take_drop|].
  destruct (decide (length l <= k)%nat); [left|right; rewrite length_drop; lia].
  by replace (length l - k)%nat with 0%nat by lia.
Qed.

Lemma lastn_subset {A} k (l : list A) x : x ∈ lastn k l -> x ∈ l.
Proof.
  intros Hx. destruct (lastn_split k l) as (o & El & _). rewrite El. apply elem_of_app. by right.
Qed.

(** Inserting into the newest versions and keeping the newest is the same as inserting
    into all of them. *)
Lemma lastn_ins k v l :
  StronglySorted Z.lt l -> (0 < k)%nat -> lastn k (ins v (lastn k l)) = lastn k (ins v l).
Proof.
  intros Hs Hk. destruct (lastn_split k l) as (older & El & [-> | Hlen]); [cbn [app] in El; by rewrite <- El|].
  set (q := lastn k l) in *. clearbody q. subst l. apply StronglySorted_app in Hs as (Hc & _ & Hq).
  destruct q as [|x q]; [simpl in Hlen; lia|].
  destruct (Z.lt_ge_cases v x) as [Hlt|Hge].
  - rewrite (ins_app_l v older); [rewrite lastn_app by lia|].
    + cbn [ins]. rewrite (proj2 (Z.ltb_lt v x)) by done. 
      change (v :: x :: q) with ([v] ++ x :: q). by rewrite lastn_app by lia.
    + constructor; [done|]. apply StronglySorted_inv in Hq as [_ Hq].
      eapply Forall_impl; [exact Hq|]. simpl. lia.
  - rewrite ins_app_r; [|apply Forall_forall; intros y Hy; specialize (Hc y x Hy); lapply Hc; [lia|by left]].
    rewrite lastn_app; [done|]. destruct (decide (v ∈ x :: q)) as [Hv|Hv].
    + rewrite ins_elem by done. lia.
    + rewrite ins_length by done. lia.
Qed.

Lemma filter_versions_all (P : Z -> Prop) `{!forall x, Decision (P x)} l : Forall P l -> filter P l = l.
Proof. induction 1 as [|x l Hx Hl IH]; [done|]. by rewrite filter_cons_True, IH. Qed.

Lemma filter_versions_none (P : Z -> Prop) `{!forall x, Decision (P x)} l : Forall (fun x => ~ P x) l -> filter P l = [].
Proof. induction 1 as [|x l Hx Hl IH]; [done|]. by rewrite filter_cons_False. Qed.

(** Among ordered versions, the newest [k] are those with fewer than [k] above. *)
Lemma elem_of_lastn k (v : Z) l :
  StronglySorted Z.lt l -> v ∈ lastn k l <-> v ∈ l /\ (length (filter (fun u => (v < u)%Z) l) < k)%nat.
Proof.
  intros Hs. destruct (lastn_split k l) as (older & El & Hor). pose proof (lastn_length k l) as Hk.
  set (q := lastn k l) in *. clearbody q. subst l. apply StronglySorted_app in Hs as (Hc & _ & Hq).
  rewrite filter_app, length_app, elem_of_app.
  assert (Hin : v ∈ q -> (length (filter (fun u => (v < u)%Z) q) < length q)%nat).
  { intros (a & b & ->)%list_elem_of_split. rewrite filter_app, filter_cons_False, length_app by lia.
    rewrite length_app. cbn [length]. pose proof (length_filter (fun u => v < u) a).
    pose proof (length_filter (fun u => v < u) b). lia. }
  split.
  - intros Hv. split; [by right|]. specialize (Hin Hv).
    assert (filter (fun u => v < u) older = []) as ->; [|simpl; lia].
    apply filter_versions_none, Forall_forall. intros x Hx. specialize (Hc x v Hx Hv). simpl. lia.
  - intros [[Hv|Hv] Hl]; [|done]. destruct Hor as [-> | Hlen]; [by apply elem_of_nil in Hv|].
    assert (filter (fun u => v < u) q = q) as E; [|rewrite E in Hl; lia].
    apply filter_versions_all, Forall_forall. intros x Hx. by apply Hc.
Qed.

Section cache.
Context `{CacheOps C} {FL : Type}.
Variable opts : Options.
Implicit Types (c : queryDBCache C FL) (pub : gmap Z (MultiTree C)) (t : MultiTree C).

(** ** The specification *)

(** What is served of the published versions: the newest ones. *)
Definition window pub (v : Z) : option (MultiTree C) :=
  if Z.of_nat (size (filter (fun p => v < p.1) pub)) <? CacheLimit opts then pub !! v else None.

Definition publish (t : MultiTree C) (v : Z) pub : gmap Z (MultiTree C) :=
  if v <=? 0 then pub
  else match window pub v with Some _ => pub | None => <[v := MultiTree.Copy t 0]> pub end.

(** The newest version published, or 0. *)
Definition is_newest pub (v : Z) : Prop :=
  (pub = ∅ /\ v = 0) \/ (is_Some (pub !! v) /\ forall u, is_Some (pub !! u) -> u <= v).

(** ** The invariant *)

Record cache_rep c pub : Prop := {
  cr_keys : exists l, StronglySorted Z.lt l /\ (forall v, v ∈ l <-> is_Some (pub !! v)) /\
    qseq c = lastn (Z.to_nat (CacheLimit opts)) l;
  cr_entries : forall v, entries c !! v = if decide (v ∈ qseq c) then pub !! v else None;
  cr_latest : is_newest pub (qlatest c);
  cr_positive : forall v, is_Some (pub !! v) -> 0 < v
}.

Lemma CacheLimit_pos : 0 < CacheLimit opts.
Proof.
  unfold CacheLimit, snapshotIntervalLimit, DefaultSnapshotInterval.
  destruct (Z.leb_spec (SnapshotInterval opts) 0); cbn zeta;
    (destruct (Z.leb_spec (HistoricalQueryLimit opts) 0); cbn [orb]; [lia|]);
    match goal with |- context [?a <? ?b] => destruct (Z.ltb_spec a b) end; lia.
Qed.

Lemma filter_size pub v l :
  NoDup l -> (forall u, u ∈ l <-> is_Some (pub !! u)) ->
  length (filter (fun u => v < u) l) = size (filter (fun p => v < p.1) pub).
Proof.
  intros Hnd Hl. rewrite <- size_dom, <- (size_list_to_set (C := gset Z)) by (by apply NoDup_filter).
  f_equal. apply set_eq. intros u. rewrite elem_of_list_to_set, list_elem_of_filter, Hl, elem_of_dom.
  rewrite map_lookup_filter. split.
  - intros [Hv [x Hx]]. exists x. rewrite Hx. cbn [option_bind mbind]. simpl. by rewrite option_guard_True by done.
  - intros [x Hx]. destruct (pub !! u) as [y|]; [|done]. simpl in Hx.
    destruct (decide (v < u)); [|by rewrite option_guard_False in Hx]. eauto.
Qed.

Lemma StronglySorted_lt_NoDup l : StronglySorted Z.lt l -> NoDup l.
Proof.
  induction 1 as [|x l Hl IH Hx]; constructor; [|done]. intros Hin.
  pose proof (proj1 (Forall_forall _ _) Hx x Hin). simpl in *. lia.
Qed.

Lemma entries_window c pub v : cache_rep c pub -> entries c !! v = window pub v.
Proof.
  intros [(l & Hs & Hl & Hq) He _ _]. rewrite He, Hq. unfold window.
  rewrite <- (filter_size pub v l) by (done || by apply StronglySorted_lt_NoDup).
  pose proof (elem_of_lastn (Z.to_nat (CacheLimit opts)) v l Hs) as Hw. rewrite Hl in Hw.
  pose proof CacheLimit_pos. destruct (Z.ltb_spec (Z.of_nat (length (filter (fun u => v < u) l))) (CacheLimit opts)).
  - destruct (pub !! v) as [t|]; [|by destruct (decide _)]. rewrite decide_True; [done|]. apply Hw. split; [done|lia].
  - rewrite decide_False; [done|]. rewrite Hw. lia.
Qed.

(** ** Preservation *)

Lemma prune_loop_keeps limit l (m : gmap Z (MultiTree C)) :
  0 < limit -> NoDup l -> (forall v, v ∈ l -> is_Some (m !! v)) ->
  exists m', prune_loop limit l m = Ok (lastn (Z.to_nat limit) l, m') /\
    forall v, m' !! v = if decide (v ∈ l /\ v ∉ lastn (Z.to_nat limit) l) then None else m !! v.
Proof.
  intros Hlim. revert m. induction l as [|x l IH]; intros m Hnd Hm; cbn [prune_loop].
  { exists m. split; [done|]. intros v. rewrite decide_False; [done|]. intros [?%elem_of_nil _]. done. }
  destruct (Z.ltb_spec limit (zlen (x :: l))) as [Hlt|Hge].
  - apply NoDup_cons in Hnd as [Hx Hnd]. destruct (Hm x) as [t Ht]; [by left|]. rewrite Ht. cbn [mbind res_bind of_option].
    destruct (IH (delete x m)) as (m' & E & Hm'); [done| |].
    { intros v Hv. rewrite lookup_delete_ne by (by intros ->). apply Hm. by right. }
    exists m'. assert (El : lastn (Z.to_nat limit) (x :: l) = lastn (Z.to_nat limit) l).
    { change (x :: l) with ([x] ++ l). apply lastn_app. unfold zlen in Hlt. simpl in Hlt. lia. }
    rewrite El, E. split; [done|]. intros v. rewrite Hm'.
    destruct (decide (v = x)) as [->|Hvx].
    + rewrite (decide_True (P := x ∈ x :: l /\ _)) by (split; [by left|by intros ?%lastn_subset]).
      destruct (decide _); [done|]. apply lookup_delete_eq.
    + rewrite lookup_delete_ne by done. apply decide_ext. rewrite elem_of_cons. naive_solver.
  - exists m. rewrite lastn_short by (unfold zlen in Hge; lia). split; [done|].
    intros v. rewrite decide_False; [done|]. naive_solver.
Qed.

Lemma is_newest_publish pub n v t :
  0 < v -> (forall u, is_Some (pub !! u) -> 0 < u) -> is_newest pub n ->
  is_newest (<[v := t]> pub) (if n <? v then v else n).
Proof.
  intros Hv Hpos [[-> ->]|[Hn Hmax]]; right.
  - rewrite (proj2 (Z.ltb_lt 0 v)) by done. rewrite lookup_insert_eq. split; [eauto|].
    intros u. rewrite lookup_insert_is_Some, lookup_empty. intros [->|[_ [? ?]]]; [lia|done].
  - split.
    + rewrite lookup_insert_is_Some'. destruct (n <? v); [by left|by right].
    + intros u. rewrite lookup_insert_is_Some'. intros [<-|Hu]; [|apply Hmax in Hu];
        destruct (Z.ltb_spec n v); lia.
Qed.

Lemma AddHistoricalVersion_rep t v c pub :
  cache_rep c pub -> exists c', AddHistoricalVersion opts t v c = Ok c' /\ cache_rep c' (publish t v pub) /\
    exporter c' = exporter c /\ destroyed c' = destroyed c.
Proof.
  intros Hrep. unfold AddHistoricalVersion, publish. destruct (Z.leb_spec v 0); [by exists c|].
  rewrite (entries_window c pub v Hrep). destruct (window pub v) as [t0|] eqn:Ew; [by exists c|].
  pose proof Hrep as [(l & Hs & Hl & Hq) He Hn Hp]. pose proof CacheLimit_pos as Hlim.
  set (k := Z.to_nat (CacheLimit opts)) in *.
  assert (Hvq : v ∉ qseq c).
  { intros Hv. rewrite <- (entries_window c pub v Hrep), He, decide_True in Ew by done.
    rewrite Hq in Hv. apply elem_of_lastn in Hv as [Hv _]; [|done]. apply Hl in Hv as [? ?]. congruence. }
  assert (Hsq : StronglySorted Z.lt (qseq c)).
  { rewrite Hq. destruct (lastn_split k l) as (o & El & _). rewrite El in Hs.
    by apply StronglySorted_app in Hs as (_ & _ & ?). }
  rewrite insertVersion_ins by done. cbn [mbind res_bind]. unfold pruneHistoricalTrees.
  rewrite (proj2 (Z.leb_gt _ _)) by done.
  destruct (prune_loop_keeps (CacheLimit opts) (ins v (qseq c)) (<[v := MultiTree.Copy t 0]> (entries c)))
    as (m' & -> & Hm'); [done|by apply StronglySorted_lt_NoDup, ins_sorted| |].
  { intros u [->|Hu]%elem_of_ins; [rewrite lookup_insert_eq; eauto|].
    rewrite lookup_insert_ne by (by intros <-). rewrite He, decide_True by done. apply Hl.
    rewrite Hq in Hu. by apply elem_of_lastn in Hu as [? _]. }
  cbn [mbind res_bind]. eexists. split; [reflexivity|]. split; [|done].
  assert (Elast : lastn k (ins v (qseq c)) = lastn k (ins v l)) by (rewrite Hq; apply lastn_ins; [done|lia]).
  split; cbn [entries qseq qlatest].
  - exists (ins v l). split; [by apply ins_sorted|]. split; [|done].
    intros u. rewrite elem_of_ins, Hl, lookup_insert_is_Some'. naive_solver.
  - intros u. rewrite Hm'. fold k. destruct (decide (u ∈ lastn k (ins v (qseq c)))) as [Hu|Hu].
    + rewrite decide_False by naive_solver. destruct (decide (u = v)) as [->|Huv]; [by rewrite !lookup_insert_eq|].
      rewrite !lookup_insert_ne, He, decide_True; [done| |done|done].
      by apply lastn_subset, elem_of_ins in Hu as [?|?].
    + destruct (decide (u = v)) as [->|Huv]; [rewrite decide_True by (split; [apply elem_of_ins; by left|done]); done|].
      rewrite lookup_insert_ne, He by done. destruct (decide (u ∈ qseq c)).
      * by rewrite decide_True by (split; [apply elem_of_ins; by right|done]).
      * by destruct (decide _).
  - by apply is_newest_publish.
  - intros u. rewrite lookup_insert_is_Some'. intros [<-|Hu]; [done|by apply Hp].
Qed.

(** ** Runs *)

(** The calls on a cache, from several goroutines: each runs under the mutex. *)
Inductive cache_op : Type :=
| OAdd (t : MultiTree C) (v : Z)
| OExport (v : Z) (t : MultiTree C) (fl : FL)
| OPurge (height : Z)
| OReset.

Definition cache_step (op : cache_op) c : res (queryDBCache C FL) :=
  match op with
  | OAdd t v => AddHistoricalVersion opts t v c
  | OExport v t fl => Ok (SetSnapshotExporter v t fl c).1
  | OPurge h => Ok (PurgeSnapshotExporter h c)
  | OReset => Ok (reset c)
  end.

Fixpoint cache_run (ops : list cache_op) c : res (queryDBCache C FL) :=
  match ops with
  | [] => Ok c
  | op :: ops => c ← cache_step op c; cache_run ops c
  end.

(** What has been published since the last reset. *)
Definition published_step pub (op : cache_op) : gmap Z (MultiTree C) :=
  match op with OAdd t v => publish t v pub | OReset => ∅ | _ => pub end.
Definition published (ops : list cache_op) : gmap Z (MultiTree C) := foldl published_step ∅ ops.

Lemma cache_rep_same c c' pub :
  cache_rep c pub -> entries c' = entries c -> qseq c' = qseq c -> qlatest c' = qlatest c -> cache_rep c' pub.
Proof. intros [Hk He Hn Hp] E1 E2 E3. split; rewrite ?E1, ?E2, ?E3; done. Qed.

Lemma reset_rep c : cache_rep (reset c) ∅.
Proof.
  split; cbn [reset entries qseq qlatest].
  - exists []. split; [constructor|]. split; [|done]. intros v. rewrite lookup_empty, elem_of_nil.
    split; [done|by intros [? ?]].
  - intros v. rewrite decide_False by apply not_elem_of_nil. apply lookup_empty.
  - by left.
  - intros v. rewrite lookup_empty. by intros [? ?].
Qed.

Lemma cache_step_rep op c pub :
  cache_rep c pub -> exists c', cache_step op c = Ok c' /\ cache_rep c' (published_step pub op).
Proof.
  intros Hrep. destruct op as [t v|v t fl|h|]; cbn [cache_step published_step].
  - destruct (AddHistoricalVersion_rep t v c pub Hrep) as (c' & E & Hc' & _). eauto.
  - eexists. split; [done|]. unfold SetSnapshotExporter. destruct (v <=? 0); [done|].
    destruct (exporter c); [done|]. by apply (cache_rep_same c).
  - eexists. split; [done|]. unfold PurgeSnapshotExporter. destruct (exporter c) as [e|]; [|done].
    destruct (se_version e =? h); [|done]. by apply (cache_rep_same c).
  - eexists. split; [done|]. apply reset_rep.
Qed.

Lemma cache_run_rep ops c pub :
  cache_rep c pub -> exists c', cache_run ops c = Ok c' /\ cache_rep c' (foldl published_step pub ops).
Proof.
  revert c pub. induction ops as [|op ops IH]; intros c pub Hrep; [by exists c|].
  destruct (cache_step_rep op c pub Hrep) as (c1 & E & H1). cbn [cache_run foldl]. rewrite E. by apply IH.
Qed.

(** ** What is served *)

(** A version published less than the limit below the newest one is in the window. *)
Lemma window_recent pub n v :
  is_newest pub n -> is_Some (pub !! v) -> n - v < CacheLimit opts -> window pub v = pub !! v.
Proof.
  intros [[-> _]|[_ Hmax]] Hv Hr; [rewrite lookup_empty in Hv; by destruct Hv|].
  unfold window. rewrite (proj2 (Z.ltb_lt _ _)); [done|].
  assert (Hsub : dom (filter (fun p => v < p.1) pub) ⊆ list_to_set (C := gset Z) (seqZ (v + 1) (n - v))).
  { intros u [t Hu]%elem_of_dom. apply map_lookup_filter_Some in Hu as [Hu Hvu].
    apply elem_of_list_to_set, elem_of_seqZ. simpl in Hvu. pose proof (Hmax u (ex_intro _ t Hu)). lia. }
  apply subseteq_size in Hsub. rewrite size_dom, size_list_to_set in Hsub by apply NoDup_seqZ.
  rewrite length_seqZ in Hsub. pose proof (Hmax v Hv). lia.
Qed.

(** What a lookup is expected to find among the published versions and the one being
    exported. *)
Definition lookup_spec pub (e : option (snapshotExporter C FL)) (v : Z) : option (MultiTree C) :=
  match window pub v with
  | Some t => Some (MultiTree.Copy t 0)
  | None =>
      match e with
      | Some e => if se_version e =? v then Some (MultiTree.Copy (se_mtree e) 0) else None
      | None => None
      end
  end.

Lemma GetHistoricalTrees_spec c pub v :
  cache_rep c pub -> GetHistoricalTrees c v = (lookup_spec pub (exporter c) v, qlatest c).
Proof.
  intros Hrep. unfold GetHistoricalTrees, lookup_spec. rewrite (entries_window c pub v Hrep).
  destruct (window pub v); [done|]. destruct (exporter c) as [e|]; [|done]. by destruct (se_version e =? v).
Qed.

Lemma entries_size c pub : cache_rep c pub -> Z.of_nat (size (entries c)) <= CacheLimit opts.
Proof.
  intros [(l & Hs & Hl & Hq) He _ _].
  assert (Hsub : dom (entries c) ⊆ list_to_set (C := gset Z) (qseq c)).
  { intros v [t Hv]%elem_of_dom. rewrite He in Hv. destruct (decide (v ∈ qseq c)); [|done].
    by apply elem_of_list_to_set. }
  apply subseteq_size in Hsub. rewrite size_dom, size_list_to_set in Hsub.
  - pose proof (lastn_length (Z.to_nat (CacheLimit opts)) l) as Hlen. rewrite <- Hq in Hlen.
    pose proof CacheLimit_pos. lia.
  - apply StronglySorted_lt_NoDup. rewrite Hq. destruct (lastn_split (Z.to_nat (CacheLimit opts)) l) as (o & El & _).
    rewrite El in Hs. by apply StronglySorted_app in Hs as (_ & _ & ?).
Qed.

(** ** Properties *)

(** C22: whatever the sequence of publications, exports, purges and resets, the cache never
    panics and holds at most the limit of versions; a lookup finds exactly the newest
    published versions, as many as the limit, and the version being exported; the
    advertised version is the newest one published; every version published less than the
    limit below it is found, so that a published version is missed only as too old. *)
Theorem query_cache_serves ops :
  exists c, cache_run ops newQueryDBCache = Ok c /\ Z.of_nat (size (entries c)) <= CacheLimit opts /\
    is_newest (published ops) (qlatest c) /\
    (forall v, GetHistoricalTrees c v = (lookup_spec (published ops) (exporter c) v, qlatest c)) /\
    (forall v t, published ops !! v = Some t -> qlatest c - v < CacheLimit opts ->
       GetHistoricalTrees c v = (Some (MultiTree.Copy t 0), qlatest c)) /\
    (forall v, (GetHistoricalTrees c v).1 = None -> is_Some (published ops !! v) ->
       classifyCacheMiss v (qlatest c) (CacheLimit opts) = NotFound).
Proof.
  destruct (cache_run_rep ops newQueryDBCache ∅ (reset_rep newQueryDBCache)) as (c & E & Hrep).
  fold (published ops) in Hrep. exists c. split; [done|]. split; [by eapply entries_size|].
  pose proof (cr_latest _ _ Hrep) as Hn. split; [done|]. split; [intros v; by apply GetHistoricalTrees_spec|].
  assert (Hrecent : forall v t, published ops !! v = Some t -> qlatest c - v < CacheLimit opts ->
    GetHistoricalTrees c v = (Some (MultiTree.Copy t 0), qlatest c)).
  { intros v t Ht Hr. rewrite (GetHistoricalTrees_spec c _ v Hrep). unfold lookup_spec.
    by rewrite (window_recent _ _ v Hn), Ht by eauto. }
  split; [done|]. intros v Hv [t Ht]. unfold classifyCacheMiss. destruct Hn as [[E' _]|[_ Hmax]].
  { by rewrite E', lookup_empty in Ht. }
  rewrite (proj2 (Z.ltb_ge _ _)) by (apply Hmax; eauto).
  destruct (Z.leb_spec (CacheLimit opts) (qlatest c - v)) as [|Hlt]; [done|].
  by rewrite (Hrecent v t Ht Hlt) in Hv.
Qed.

End cache.
