(* ===== verification/RootMulti.v ===== *)
(** * The root multistore (memiavl/rootmulti/store.go, snapshot.go, import.go)

    The store of an application: named stores over the trees of a memiavl database, with
    the cache of historical versions for queries and the state-sync snapshots.  A store key
    is its name, as no two keys of one name can be mounted.  The stores hold their pending
    changes; their trees are those of the database, which the code gives them again after
    every commit.  Maps are iterated in an order that is an argument.  What cosmos-sdk and
    gogoproto provide is a parameter: the proofs of a commit info, the message streams and
    the stores that are not kept in memiavl, which have no state here. *)

From Stdlib Require Import Strings.Byte ZArith Lia.
From stdpp Require Import base list numbers strings gmap.
From S2P Require Import Prelude Binary Proto State Node NodeIface Export Cache Tree Wal Merkle IavlStore.
From S2P Require Import MultiTree SnapshotDir DB StateSync QueryCache.
Local Open Scope Z_scope.

Inductive StoreType : Type := StoreTypeMulti | StoreTypeDB | StoreTypeIAVL | StoreTypeTransient | StoreTypeMemory.
Inductive KeyKind : Type := KVStoreKey | TransientStoreKey | MemoryStoreKey.
Record storeParams : Type := { sp_key : KeyKind; sp_typ : StoreType }.

(** The stores of the application: a memiavl store has a pending change set. *)
Inductive CommitStore : Type := IAVL (changeSet : ChangeSet) | Transient | Memory.

Record StoreUpgrades : Type := { su_Added : list bytes; su_Renamed : list (bytes * bytes); su_Deleted : list bytes }.

(** ** Streams of snapshot items *)

Record SnapshotIAVLItem : Type := { ii_Key : option bytes; ii_Value : option bytes; ii_Version : Z; ii_Height : Z }.
Inductive SnapshotItem : Type := SnapshotStore (name : bytes) | SnapshotIAVL (item : SnapshotIAVLItem) | SnapshotOther.

Definition EOF : error := "EOF".

(** [protoio.Writer] and [protoio.Reader] over one stream. *)
Class ProtoIO (IO : Type) := {
  WriteMsg : SnapshotItem -> IO -> res IO;
  ReadMsg : IO -> res (SnapshotItem * IO)
}.

(** ** Conversions *)

(** [strings.SplitN(s, "/", 2)], with the second part if there is one. *)
Fixpoint split_slash (s : bytes) : bytes * option bytes :=
  match s with
  | [] => ([], None)
  | b :: s =>
      if bool_decide (b = x2f) then ([], Some s)
      else let '(name, rest) := split_slash s in (b :: name, rest)
  end.

Definition parsePath (path : bytes) : res (bytes * bytes) :=
  match path with
  | b :: path =>
      if bool_decide (b = x2f) then
        let '(storeName, rest) := split_slash path in
        Ok (storeName, match rest with Some rest => x2f :: rest | None => [] end)
      else Err "invalid path"
  | [] => Err "invalid path"
  end.

Definition convertCommitInfo (c : CommitInfo) : CommitInfo :=
  {| ci_Version := ci_Version c;
     ci_StoreInfos := map (fun s => {| si_Name := si_Name s;
       si_CommitId := {| cid_Version := cid_Version (si_CommitId s); cid_Hash := cid_Hash (si_CommitId s) |} |})
       (ci_StoreInfos c) |}.

(** The error of a cache miss. *)
Definition ErrInvalidHeight (m : miss) : error :=
  match m with
  | NotPublished => "requested version is not yet published"
  | NotFound => "historical version not found"
  | NotReady => "historical version not ready"
  end.

Section rootmulti.
Context `{CacheOps C} `{WalOps L} `{Ics23Ops, PrefixEndOps} {FL : Type}.

Record Store : Type := {
  rs_db : option (DB C L);
  rs_disk : DBDir * L;
  rs_lastCommitInfo : option CommitInfo;
  storesParams : gmap bytes storeParams;
  rs_stores : gmap bytes CommitStore;
  supportExportNonSnapshotVersion : bool;
  rs_opts : Options;
  queryCache : queryDBCache C FL
}.

Definition with_rs_db (rs : Store) (db : option (DB C L)) : Store :=
  {| rs_db := db; rs_disk := rs_disk rs; rs_lastCommitInfo := rs_lastCommitInfo rs; storesParams := storesParams rs;
     rs_stores := rs_stores rs; supportExportNonSnapshotVersion := supportExportNonSnapshotVersion rs;
     rs_opts := rs_opts rs; queryCache := queryCache rs |}.
Definition with_rs_disk (rs : Store) (d : DBDir * L) : Store :=
  {| rs_db := rs_db rs; rs_disk := d; rs_lastCommitInfo := rs_lastCommitInfo rs; storesParams := storesParams rs;
     rs_stores := rs_stores rs; supportExportNonSnapshotVersion := supportExportNonSnapshotVersion rs;
     rs_opts := rs_opts rs; queryCache := queryCache rs |}.
Definition with_rs_info (rs : Store) (c : CommitInfo) : Store :=
  {| rs_db := rs_db rs; rs_disk := rs_disk rs; rs_lastCommitInfo := Some c; storesParams := storesParams rs;
     rs_stores := rs_stores rs; supportExportNonSnapshotVersion := supportExportNonSnapshotVersion rs;
     rs_opts := rs_opts rs; queryCache := queryCache rs |}.
Definition with_rs_stores (rs : Store) (m : gmap bytes CommitStore) : Store :=
  {| rs_db := rs_db rs; rs_disk := rs_disk rs; rs_lastCommitInfo := rs_lastCommitInfo rs; storesParams := storesParams rs;
     rs_stores := m; supportExportNonSnapshotVersion := supportExportNonSnapshotVersion rs;
     rs_opts := rs_opts rs; queryCache := queryCache rs |}.
Definition with_rs_opts (rs : Store) (o : Options) : Store :=
  {| rs_db := rs_db rs; rs_disk := rs_disk rs; rs_lastCommitInfo := rs_lastCommitInfo rs; storesParams := storesParams rs;
     rs_stores := rs_stores rs; supportExportNonSnapshotVersion := supportExportNonSnapshotVersion rs;
     rs_opts := o; queryCache := queryCache rs |}.
Definition with_rs_cache (rs : Store) (c : queryDBCache C FL) : Store :=
  {| rs_db := rs_db rs; rs_disk := rs_disk rs; rs_lastCommitInfo := rs_lastCommitInfo rs; storesParams := storesParams rs;
     rs_stores := rs_stores rs; supportExportNonSnapshotVersion := supportExportNonSnapshotVersion rs;
     rs_opts := rs_opts rs; queryCache := c |}.

(** The files of the store: those of the open database, or what was left on the disk. *)
Definition files (rs : Store) : DBDir * L :=
  match rs_db rs with
  | Some db => (db_dir db, default (rs_disk rs).2 (db_wal db))
  | None => rs_disk rs
  end.

(** A method of the database; a nil database cannot be dereferenced. *)
Definition on_db {A} (m : SE (DB C L) A) : SE Store A := fun rs =>
  match rs_db rs with
  | None => (rs, Panic)
  | Some db => let '(db, r) := m db in (with_rs_db rs (Some db), r)
  end.
Definition on_cache {A} (m : SE (queryDBCache C FL) A) : SE Store A := fun rs =>
  let '(c, r) := m (queryCache rs) in (with_rs_cache rs c, r).

(** [if err != nil { panic(err) }] *)
Definition must_do {St A} (m : SE St A) : SE St A := fun s => let '(s, r) := m s in (s, must r).

(** ** Mounting and options *)

Definition MountStoreWithDB (name : bytes) (key : KeyKind) (typ : StoreType) (rs : Store) : res Store :=
  match storesParams rs !! name with
  | Some _ => Panic
  | None => Ok {| rs_db := rs_db rs; rs_disk := rs_disk rs; rs_lastCommitInfo := rs_lastCommitInfo rs;
                  storesParams := <[name := {| sp_key := key; sp_typ := typ |}]> (storesParams rs);
                  rs_stores := rs_stores rs; supportExportNonSnapshotVersion := supportExportNonSnapshotVersion rs;
                  rs_opts := rs_opts rs; queryCache := queryCache rs |}
  end.

Definition SetMemIAVLOptions (opts : Options) (rs : Store) : Store :=
  with_rs_opts rs (clampHistoricalCacheOptions opts).

Definition with_version_opts (opts : Options) (initialVersion : Z) : Options :=
  {| CreateIfMissing := CreateIfMissing opts; InitialVersion := initialVersion; ReadOnly := ReadOnly opts;
     InitialStores := InitialStores opts; SnapshotKeepRecent := SnapshotKeepRecent opts;
     SnapshotInterval := SnapshotInterval opts; TargetVersion := TargetVersion opts;
     AsyncCommitBuffer := AsyncCommitBuffer opts; ZeroCopy := ZeroCopy opts; CacheSize := CacheSize opts;
     LoadForOverwriting := LoadForOverwriting opts; HistoricalQueryLimit := HistoricalQueryLimit opts |}.

Definition SetInitialVersion (version : Z) : SE Store unit :=
  on_db (DB.SetInitialVersion version) ;;
  modify (fun rs => with_rs_opts rs (with_version_opts (rs_opts rs) (u64 version))).

(** ** Writing *)

(** A write to a store, which goes to its change set. *)
Definition write_store_pair (p : KVPair) (name : bytes) (rs : Store) : res Store :=
  match rs_stores rs !! name with
  | Some (IAVL cs) => Ok (with_rs_stores rs (<[name := IAVL {| Pairs := Pairs cs ++ [p] |}]> (rs_stores rs)))
  | Some _ => Ok rs
  | None => Panic
  end.

(** The loop of [flush] over the stores, popping their change sets. *)
Fixpoint pop_all (order : list bytes) (stores : gmap bytes CommitStore) : list NamedChangeSet * gmap bytes CommitStore :=
  match order with
  | [] => ([], stores)
  | key :: order =>
      match stores !! key with
      | Some (IAVL cs) =>
          let '(changeSets, stores) := pop_all order (<[key := IAVL {| Pairs := [] |}]> stores) in
          (if 0 <? zlen (Pairs cs) then {| ncs_Changeset := cs; ncs_Name := key |} :: changeSets else changeSets, stores)
      | _ => pop_all order stores
      end
  end.

Definition flush (order : list bytes) : SE Store unit :=
  rs ← gets (fun rs => rs);
  let '(changeSets, stores) := pop_all order (rs_stores rs) in
  modify (fun rs => with_rs_stores rs stores) ;;
  on_db (DB.ApplyChangeSets (SliceStable ncs_Name changeSets)).

(** The commit info whose hash is the app hash of the working state. *)
Definition WorkingHash (order : list bytes) : SE Store CommitInfo :=
  must_do (flush order) ;;
  rs ← gets (fun rs => rs);
  db ← lift (of_option (rs_db rs));
  info ← lift (WorkingCommitInfo (db_tree db));
  mret (convertCommitInfo info).

(** Publishing a version of a multi-tree. *)
Definition add_historical (t : MultiTree C) (version : Z) : SE Store unit := fun rs =>
  match AddHistoricalVersion (rs_opts rs) t version (queryCache rs) with
  | Ok c => (with_rs_cache rs c, Ok tt)
  | Err e => (rs, Err e)
  | Panic => (rs, Panic)
  end.

(** The commit info whose hash is in the returned commit id. *)
Definition Commit (order : list bytes) (locked : Z -> bool) : SE Store CommitInfo :=
  must_do (flush order) ;;
  must_do (on_db (DB.Commit locked)) ;;
  rs ← gets (fun rs => rs);
  db ← lift (of_option (rs_db rs));
  let info := convertCommitInfo (lastCommitInfo (db_tree db)) in
  modify (fun rs => with_rs_info rs info) ;;
  add_historical (db_tree db) (ci_Version info) ;;
  mret info.

(** [LastCommitID]: the commit info, or the version on the disk. *)
Definition LastCommitID (rs : Store) : res (CommitInfo + Z) :=
  match rs_lastCommitInfo rs with
  | Some info => Ok (inl info)
  | None => let '(dir, log) := files rs in inr <$> must (GetLatestVersion dir log)
  end.

(** ** Loading *)

Definition loadCommitStoreFromParams (db : DB C L) (name : bytes) (params : storeParams) : res CommitStore :=
  match sp_typ params with
  | StoreTypeMulti | StoreTypeDB => Panic
  | StoreTypeIAVL =>
      tree ← TreeByName (db_tree db) name;
      match tree with
      | None => Err "new store is not added in upgrades"
      | Some _ => Ok (IAVL {| Pairs := [] |})
      end
  | StoreTypeTransient =>
      match sp_key params with TransientStoreKey => Ok Transient | _ => Err "unexpected key type for a TransientStoreKey" end
  | StoreTypeMemory =>
      match sp_key params with MemoryStoreKey => Ok Memory | _ => Err "unexpected key type for a MemoryStoreKey" end
  end.

Fixpoint load_stores (db : DB C L) (l : list (bytes * storeParams)) : res (gmap bytes CommitStore) :=
  match l with
  | [] => Ok ∅
  | (name, params) :: l =>
      store ← loadCommitStoreFromParams db name params;
      rest ← load_stores db l;
      Ok (<[name := store]> rest)
  end.

(** The mounted stores in the order of their names. *)
Definition storesKeys (rs : Store) : list (bytes * storeParams) := SliceStable fst (map_to_list (storesParams rs)).

Definition is_iavl (p : storeParams) : bool := match sp_typ p with StoreTypeIAVL => true | _ => false end.

Definition load_opts (opts : Options) (initialStores : list bytes) (version : Z) : Options :=
  {| CreateIfMissing := true; InitialVersion := InitialVersion opts; ReadOnly := ReadOnly opts;
     InitialStores := initialStores; SnapshotKeepRecent := SnapshotKeepRecent opts;
     SnapshotInterval := SnapshotInterval opts; TargetVersion := u64 version;
     AsyncCommitBuffer := AsyncCommitBuffer opts; ZeroCopy := ZeroCopy opts; CacheSize := CacheSize opts;
     LoadForOverwriting := LoadForOverwriting opts; HistoricalQueryLimit := HistoricalQueryLimit opts |}.

Definition tree_upgrades (upgrades : option StoreUpgrades) : list TreeNameUpgrade :=
  match upgrades with
  | None => []
  | Some u =>
      map (fun name => {| up_Name := name; up_RenameFrom := []; up_Delete := true |}) (su_Deleted u) ++
      map (fun name => {| up_Name := name; up_RenameFrom := []; up_Delete := false |}) (su_Added u) ++
      map (fun p => {| up_Name := p.2; up_RenameFrom := p.1; up_Delete := false |}) (su_Renamed u)
  end.

Definition ReadMetadata (dir : DBDir) : res MultiTreeMetadata := open_dir dir currentName ≫= readMetadata.

Definition lift_db {A} (db : DB C L) (m : SE (DB C L) A) : SE Store (DB C L) :=
  let '(db, r) := m db in lift (_ ← r; Ok db).

Definition LoadVersionAndUpgrade (version : Z) (upgrades : option StoreUpgrades) : SE Store unit :=
  modify (fun rs => with_rs_cache rs (reset (queryCache rs))) ;;
  rs ← gets (fun rs => rs);
  let initialStores := map fst (List.filter (fun p => is_iavl p.2) (storesKeys rs)) in
  let '(dir, log) := files rs in
  db ← lift (Load dir log (load_opts (rs_opts rs) initialStores version));
  metadata ← lift (ReadMetadata (db_dir db));
  modify (fun rs => with_rs_opts rs (with_version_opts (rs_opts rs) (u64 (md_InitialVersion metadata)))) ;;
  db ← (if 0 <? zlen (tree_upgrades upgrades) then lift_db db (DB.ApplyUpgrades (tree_upgrades upgrades)) else mret db);
  newStores ← lift (load_stores db (storesKeys rs));
  let info := if negb (Version (db_tree db) =? 0) then convertCommitInfo (lastCommitInfo (db_tree db)) else CommitInfo_zero in
  modify (fun rs => with_rs_info (with_rs_stores (with_rs_db rs (Some db)) newStores) info) ;;
  (if 0 <? ci_Version info then add_historical (db_tree db) (ci_Version info) else mret tt).

Definition LoadLatestVersion : SE Store unit := LoadVersionAndUpgrade 0 None.
Definition LoadLatestVersionAndUpgrade (upgrades : option StoreUpgrades) : SE Store unit := LoadVersionAndUpgrade 0 upgrades.
Definition LoadVersion (ver : Z) : SE Store unit := LoadVersionAndUpgrade ver None.

(** *** The loader of the query cache

    The goroutine that a load starts publishes the versions before the latest one.  Its
    failures are logged and end it. *)

Definition loader_opts (opts : Options) (startVersion : Z) : Options :=
  {| CreateIfMissing := CreateIfMissing opts; InitialVersion := InitialVersion opts; ReadOnly := true;
     InitialStores := InitialStores opts; SnapshotKeepRecent := SnapshotKeepRecent opts;
     SnapshotInterval := SnapshotInterval opts; TargetVersion := startVersion;
     AsyncCommitBuffer := AsyncCommitBuffer opts; ZeroCopy := ZeroCopy opts; CacheSize := CacheSize opts;
     LoadForOverwriting := LoadForOverwriting opts; HistoricalQueryLimit := HistoricalQueryLimit opts |}.

Definition loader_start (opts : Options) (latestVersion : Z) : Z :=
  let cacheLimit := CacheLimit opts in
  let startVersion := if cacheLimit <? latestVersion then u64 (latestVersion - cacheLimit + 1) else 1 in
  if 1 <? InitialVersion opts then
    let initialHeight := InitialVersion opts - 1 in
    if startVersion <? Z.max initialHeight 1 then Z.max initialHeight 1 else startVersion
  else startVersion.

(** The loop over the heights, on the loader's own tree and log. *)
Fixpoint loader_loop (fuel : nat) (log : L) (latestVersion h : Z) (t : MultiTree C) : SE Store unit :=
  match fuel with
  | O => lift out_of_fuel
  | S fuel =>
      if h <? u64 latestVersion then
        match CatchupWAL log (i64 h) t with
        | (t, Ok _) => add_historical t (i64 h) ;; loader_loop fuel log latestVersion (u64 (h + 1)) t
        | (_, Err _) => mret tt
        | (_, Panic) => lift Panic
        end
      else mret tt
  end.

Definition loadQueryCache (latestVersion : Z) : SE Store unit := fun rs =>
  if CacheLimit (rs_opts rs) <=? 0 then (rs, Ok tt) else
  let startVersion := loader_start (rs_opts rs) latestVersion in
  let '(dir, log) := files rs in
  match Load dir log (loader_opts (rs_opts rs) startVersion) with
  | Ok db => (add_historical (db_tree db) (i64 startVersion) ;;
              loader_loop (S (Z.to_nat latestVersion)) log latestVersion (u64 (startVersion + 1)) (db_tree db)) rs
  | Err _ => (rs, Ok tt)
  | Panic => (rs, Panic)
  end.

Definition rollback_opts (opts : Options) (target : Z) : Options :=
  {| CreateIfMissing := CreateIfMissing opts; InitialVersion := InitialVersion opts; ReadOnly := ReadOnly opts;
     InitialStores := InitialStores opts; SnapshotKeepRecent := SnapshotKeepRecent opts;
     SnapshotInterval := SnapshotInterval opts; TargetVersion := u64 target;
     AsyncCommitBuffer := AsyncCommitBuffer opts; ZeroCopy := ZeroCopy opts; CacheSize := CacheSize opts;
     LoadForOverwriting := true; HistoricalQueryLimit := HistoricalQueryLimit opts |}.

(** Closing the database leaves its files. *)
Definition close_db : SE Store unit := fun rs =>
  match rs_db rs with
  | None => (rs, Ok tt)
  | Some db =>
      let '(db1, _) := waitAsyncCommit db in
      let rs := with_rs_disk rs (db_dir db1, default (rs_disk rs).2 (db_wal db1)) in
      match DB.Close db with
      | (_, Ok _) => (with_rs_db rs None, Ok tt)
      | (db, r) => (with_rs_db rs (Some db), r)
      end
  end.

(** [Close] of the store. *)
Definition rs_Close : SE Store unit :=
  modify (fun rs => with_rs_cache rs (reset (queryCache rs))) ;; on_db DB.Close.

Definition RollbackToVersion (target : Z) : SE Store unit :=
  if target <=? 0 then throw "invalid rollback height target" else
  modify (fun rs => with_rs_cache rs (reset (queryCache rs))) ;;
  close_db ;;
  rs ← gets (fun rs => rs);
  let '(dir, log) := rs_disk rs in
  db ← lift (Load dir log (rollback_opts (rs_opts rs) target));
  modify (fun rs => with_rs_db rs (Some db)) ;;
  add_historical (db_tree db) (Version (db_tree db)).

(** ** Reading *)

Definition LatestVersion (rs : Store) : res Z :=
  if 0 <? qlatest (queryCache rs) then Ok (qlatest (queryCache rs))
  else db ← of_option (rs_db rs); Ok (Version (db_tree db)).

(** The multi-tree for a height, 0 for the latest one. *)
Definition historical (rs : Store) (height : Z) : res (MultiTree C) :=
  latestVersion ← LatestVersion rs;
  if latestVersion <? height then Err "requested version is greater than latest version" else
  let version := if height <=? 0 then latestVersion else height in
  match GetHistoricalTrees (queryCache rs) version with
  | (Some cloned, _) => Ok cloned
  | (None, cacheLatest) => Err (ErrInvalidHeight (classifyCacheMiss version cacheLatest (CacheLimit (rs_opts rs))))
  end.

(** The trees of the memiavl stores at a height; the other stores are the current ones. *)
Definition CacheMultiStoreWithVersion (rs : Store) (version : Z) : res (list (NamedTree C)) :=
  cloned ← historical rs version;
  if forallb (fun e => bool_decide (is_Some (storesParams rs !! nt_Name e))) (trees cloned)
  then Ok (trees cloned) else Err "unknown store key".

(** [rootmulti.RequireProof] *)
Variable RequireProof : bytes -> bool.

Definition Query (rs : Store) (req : RequestQuery) : res ResponseQuery :=
  cloned ← historical rs (rq_Height req);
  '(storeName, subpath) ← parsePath (rq_Path req);
  tree ← TreeByName cloned storeName;
  match tree with
  | None => Err "store not found"
  | Some tree =>
      '(resp, _) ← store_Query (NewStore tree)
        {| rq_Data := rq_Data req; rq_Path := subpath; rq_Height := rq_Height req; rq_Prove := rq_Prove req |};
      if negb (rq_Prove req) || negb (RequireProof subpath) then Ok resp else
      match rp_ProofOps resp with
      | None | Some [] => Err "proof is unexpectedly empty"
      | Some ops =>
          let commitInfo := convertCommitInfo (lastCommitInfo cloned) in
          Ok {| rp_Height := rp_Height resp; rp_Key := rp_Key resp; rp_Value := rp_Value resp;
                rp_ProofOps := Some (ops ++ [StoreOp commitInfo storeName]) |}
      end
  end.

(** ** State sync *)

Section sync.
Context {IO : Type} `{ProtoIO IO}.

Definition item_msg (item : export_item) : SnapshotItem :=
  match item with
  | INode n => SnapshotIAVL {| ii_Key := Some (en_Key n); ii_Value := en_Value n; ii_Version := en_Version n; ii_Height := en_Height n |}
  | ITree name => SnapshotStore name
  end.

(** The loop of [Snapshot]. *)
Fixpoint write_items (fuel : nat) (ex : MultiTreeExporter C) (w : IO) : res IO :=
  match fuel with
  | O => out_of_fuel
  | S fuel =>
      match exporter_Next ex with
      | Ok (item, ex) => w ← WriteMsg (item_msg item) w; write_items fuel ex w
      | Err e => if bool_decide (e = ErrorExportDone) then Ok w else Err e
      | Panic => Panic
      end
  end.

(** A bound on the number of items. *)
Definition items_fuel (t : MultiTree C) : nat :=
  S (sum_list_with (fun e => S (match root (nt_Tree e) with None => 0 | Some n => node_count n end)) (trees t)).

Definition destroy_lock (fl : FL) (c : queryDBCache C FL) : queryDBCache C FL :=
  {| entries := entries c; qseq := qseq c; qlatest := qlatest c; exporter := exporter c; destroyed := destroyed c ++ [fl] |}.

(** [acquire]: [AcquireExporterLock] for a height. *)
Definition Snapshot (acquire : Z -> res FL) (version : Z) (protoWriter : IO) : SE Store IO :=
  if MaxInt64 <? version then throw "version overflows int64" else
  fl ← lift (acquire (i64 version));
  fun rs =>
    let '(dir, log) := files rs in
    match (ex ← NewMultiTreeExporter dir log version (supportExportNonSnapshotVersion rs);
           w ← write_items (items_fuel (me_mtree ex)) ex protoWriter;
           Ok (MultiTree.Copy (me_mtree ex) 0, w)) with
    | Ok (cloned, w) =>
        match SetSnapshotExporter (i64 version) cloned fl (queryCache rs) with
        | (c, Ok _) => (with_rs_cache rs c, Ok w)
        | (c, Err e) => (with_rs_cache rs (destroy_lock fl c), Err e)
        | (c, Panic) => (with_rs_cache rs (destroy_lock fl c), Panic)
        end
    | Err e => (with_rs_cache rs (destroy_lock fl (queryCache rs)), Err e)
    | Panic => (with_rs_cache rs (destroy_lock fl (queryCache rs)), Panic)
    end.

Definition PruneSnapshotHeight (height : Z) (rs : Store) : Store :=
  with_rs_cache rs (PurgeSnapshotExporter height (queryCache rs)).

(** The node of an item: absent keys and leaf values are empty. *)
Definition item_node (item : SnapshotIAVLItem) : ExportNode :=
  let height := i8 (ii_Height item) in
  {| en_Key := default [] (ii_Key item);
     en_Value := if height =? 0 then Some (default [] (ii_Value item)) else ii_Value item;
     en_Version := ii_Version item; en_Height := height |}.

(** The loop of [restore]: the items up to the end of the stream or to one of another kind,
    which is returned. *)
Fixpoint read_items (fuel : nat) (r : IO) : SE MultiTreeImporter (option SnapshotItem) :=
  match fuel with
  | O => lift out_of_fuel
  | S fuel =>
      match ReadMsg r with
      | Ok (SnapshotStore name, r) => AddTree name ;; read_items fuel r
      | Ok (SnapshotIAVL item, r) =>
          if 127 <? ii_Height item then throw "node height cannot exceed 127"
          else AddNode (item_node item) ;; read_items fuel r
      | Ok (SnapshotOther, _) => mret (Some SnapshotOther)
      | Err e => if bool_decide (e = EOF) then mret None else throw "invalid protobuf message"
      | Panic => lift Panic
      end
  end.

(** [restore] on the directory. The deferred close of the importer waits for the goroutine of
    the current tree. *)
Definition restore (fuel : nat) (height : Z) (protoReader : IO) : SE DBDir (option SnapshotItem) := fun dir =>
  match NewMultiTreeImporter dir height with
  | Ok mti =>
      let '(mti, r) := (item ← read_items fuel protoReader; importer_Finalize ;; mret item) mti in
      let '(mti, _) := close_importer mti in
      (mi_dir mti, r)
  | Err e => (dir, Err e)
  | Panic => (dir, Panic)
  end.

Definition on_disk_dir {A} (m : SE DBDir A) : SE Store A := fun rs =>
  let '(dir, log) := rs_disk rs in
  let '(dir, r) := m dir in (with_rs_disk rs (dir, log), r).

Definition Restore (fuel : nat) (height : Z) (protoReader : IO) : SE Store (option SnapshotItem) :=
  close_db ;;
  item ← on_disk_dir (restore fuel height protoReader);
  on_disk_dir (ClearSnapshotsBefore height) ;;
  LoadLatestVersion ;;
  mret item.
End sync.
End rootmulti.
Arguments Store : clear implicits.
