(* ===== verification/RootMultiInv.v ===== *)
(** * The root multistore and the state of the application

    The state of an application is a finite map from stores to finite maps.  A run of the
    root multistore writes to stores and commits versions; what is committed at a version
    is what a query at that version finds, with proofs for the hash of the commit. *)

From Stdlib Require Import Strings.Byte ZArith Lia.
From stdpp Require Import base list numbers strings gmap.
From S2P Require Import Prelude Binary Proto ProtoCodec State Node NodeInv Snapshot SnapshotWriter Cache Tree Wal.
From S2P Require Import Merkle IavlStore MultiTree MultiTreeInv MultiTreeSim MultiTreeSnapshot.
From S2P Require Import SnapshotDir SnapshotDirInv DB DBInv DBRecovery DBCrash.
From S2P Require Import StateSync QueryCache QueryCacheInv RootMulti.
Local Open Scope Z_scope.

Abbreviation app := (gmap bytes (gmap bytes bytes)).

(** ** The data of trees *)

Section data.
Context `{CacheLaws C}.
Implicit Types (t : MultiTree C) (tr : Tree C) (m : gmap bytes (Tree C)).

Definition data tr : gmap bytes bytes := kv_map (contents (root tr)).

Lemma same_tree_apply a b cs : same_tree (C := C) a b -> same_tree (Tree.ApplyChangeSet a cs) (Tree.ApplyChangeSet b cs).
Proof.
  intros Hab. etrans; [by apply (same_tree_changes a b)|]. symmetry. by apply same_tree_changes.
Qed.

Definition uncached tr : Tree C :=
  {| version := version tr; root := root tr; snapshot := snapshot tr; cache := None; zeroCopy := zeroCopy tr |}.

Lemma uncached_ok tr : wf_root (root tr) -> tree_ok (uncached tr).
Proof. intros Hw. by split. Qed.

(** The changes of a set, whatever the cache of the tree. *)
Lemma changes_data tr cs :
  wf_root (root tr) -> tree_size tr + zlen (Pairs cs) < max_leaves ->
  let tr' := Tree.ApplyChangeSet tr cs in
  wf_root (root tr') /\ data tr' = foldl map_apply (data tr) (Pairs cs) /\ tree_size tr' <= tree_size tr + zlen (Pairs cs).
Proof.
  intros Hw Hs tr'. destruct (ApplyChangeSet_contents (uncached tr) cs (uncached_ok tr Hw) Hs) as [[Hw' _] Ec].
  destruct (same_tree_apply tr (uncached tr) cs) as [_ Er]; [by split|]. unfold tr', data, tree_size.
  rewrite Er, Ec. cbn [uncached root]. pose proof (wf_root_sorted _ Hw) as Hso. split; [done|].
  split; [by apply foldl_kv_apply_map|by apply foldl_kv_apply_zlen].
Qed.

(** ** Stores of a multi-tree *)

(** The application a multi-tree holds, with trees of at most [n] pairs. *)
Definition app_of t : app := data <$> stores t.
Definition sized (n : Z) t : Prop := forall name tr,
  stores t !! name = Some tr -> wf_root (root tr) /\ tree_size tr <= n.

Lemma app_of_same t1 t2 n : mt_sim t1 t2 -> sized n t1 -> app_of t2 = app_of t1 /\ sized n t2.
Proof.
  intros Hs Hz. split.
  - apply map_eq. intros name. unfold app_of. rewrite !lookup_fmap.
    destruct (stores_same t1 t2 name Hs) as [a b [_ Hr]|]; [|done]. simpl. unfold data. by rewrite Hr.
  - intros name tr E. pose proof (stores_same t1 t2 name Hs) as Ho. rewrite E in Ho.
    inversion Ho as [a b [_ Hr] Ea Eb|]. subst. destruct (Hz name a) as [Hw Hl]; [done|].
    unfold tree_size. by rewrite <- Hr.
Qed.

Lemma app_of_saved t upd n : sized n t -> app_of (saved_state t upd) = app_of t /\ sized n (saved_state t upd).
Proof.
  intros Hz. unfold app_of. split.
  - rewrite saved_stores, <- map_fmap_compose. by apply map_fmap_ext.
  - intros name tr E. rewrite saved_stores, lookup_fmap in E. apply fmap_Some in E as (tr0 & E0 & ->).
    by apply (Hz name tr0).
Qed.

(** ** Named change sets *)

Lemma foldl_named_lookup m css name :
  NoDup (names_of css) ->
  foldl apply_named m css !! name =
    match list_find (fun cs => ncs_Name cs = name) css with
    | Some (_, cs) => (fun tr => Tree.ApplyChangeSet tr (ncs_Changeset cs)) <$> m !! name
    | None => m !! name
    end.
Proof.
  revert m. induction css as [|cs css IH]; intros m Hnd; [done|].
  unfold names_of in Hnd. cbn [map] in Hnd. apply NoDup_cons in Hnd as [Hx Hnd]. cbn [foldl].
  rewrite (IH _ Hnd). cbn [list_find]. destruct (decide (ncs_Name cs = name)) as [<-|Hne].
  - assert (list_find (fun c => ncs_Name c = ncs_Name cs) css = None) as ->.
    { apply list_find_None, Forall_forall. intros c Hc E. apply Hx. rewrite <- E. by apply list_elem_of_fmap_2. }
    unfold apply_named. by rewrite lookup_alter_eq.
  - unfold apply_named at 1 2. rewrite lookup_alter_ne by done.
    destruct (list_find _ css) as [[i c]|]; done.
Qed.
End data.

(** ** Popping the change sets *)

(** The pending changes of a store. *)
Definition pend (stores : gmap bytes CommitStore) (name : bytes) : list KVPair :=
  match stores !! name with Some (IAVL cs) => Pairs cs | _ => [] end.

Definition emptied (st : CommitStore) : CommitStore :=
  match st with IAVL _ => IAVL {| Pairs := [] |} | st => st end.

Lemma pop_all_stores order stores :
  (pop_all order stores).2 = foldl (fun m name => alter emptied name m) stores order.
Proof.
  revert stores. induction order as [|key order IH]; intros stores; [done|]. cbn [pop_all foldl].
  assert (Ea : alter emptied key stores = match stores !! key with
    | Some (IAVL cs) => <[key := IAVL {| Pairs := [] |}]> stores | _ => stores end).
  { apply map_eq. intros name. destruct (stores !! key) as [[cs| |]|] eqn:E; destruct (decide (key = name)) as [<-|];
      rewrite ?lookup_alter_eq, ?lookup_alter_ne, ?lookup_insert_eq, ?lookup_insert_ne, ?E by done; done. }
  rewrite Ea, <- IH. destruct (stores !! key) as [[cs| |]|]; [|done..].
  by destruct (pop_all order _).
Qed.

Lemma pop_all_elem order stores cs :
  NoDup order -> cs ∈ (pop_all order stores).1 <->
  ncs_Name cs ∈ order /\ stores !! ncs_Name cs = Some (IAVL (ncs_Changeset cs)) /\ Pairs (ncs_Changeset cs) <> [].
Proof.
  intros Hnd. revert stores. induction Hnd as [|key order Hk Hnd IH]; intros stores.
  { cbn. rewrite !elem_of_nil. naive_solver. }
  cbn [pop_all]. rewrite elem_of_cons. destruct (stores !! key) as [[c| |]|] eqn:E.
  - specialize (IH (<[key := IAVL {| Pairs := [] |}]> stores)). destruct (pop_all order _) as [css st]. cbn [fst] in *.
    assert (Hrec : cs ∈ css <-> ncs_Name cs ∈ order /\
      stores !! ncs_Name cs = Some (IAVL (ncs_Changeset cs)) /\ Pairs (ncs_Changeset cs) <> []).
    { rewrite IH. destruct (decide (key = ncs_Name cs)) as [<-|]; [naive_solver|by rewrite lookup_insert_ne by done]. }
    assert (Hz : (0 <? zlen (Pairs c)) = negb (bool_decide (Pairs c = []))).
    { destruct (Pairs c) as [|p ps]; [done|]. rewrite bool_decide_false by done. apply Z.ltb_lt.
      rewrite zlen_cons. pose proof (zlen_nonneg ps). lia. }
    rewrite Hz. destruct (bool_decide_reflect (Pairs c = [])) as [En|Hne]; cbn [negb]; rewrite ?elem_of_cons, Hrec.
    + split; [naive_solver|]. intros [[Ek|Hin] [Hs Hp]]; [|done]. rewrite Ek, E in Hs. injection Hs as ->. done.
    + split; [intros [->|?]; [cbn; naive_solver|naive_solver]|]. intros [[Ek|Hin] [Hs Hp]]; [|by right]. left.
      rewrite Ek, E in Hs. injection Hs as Hs. destruct cs as [cc cn]. simpl in *. by subst.
  - rewrite IH. naive_solver.
  - rewrite IH. naive_solver.
  - rewrite IH. naive_solver.
Qed.

Lemma pop_all_NoDup order stores : NoDup order -> NoDup (names_of (pop_all order stores).1).
Proof.
  intros Hnd. revert stores. induction Hnd as [|key order Hk Hnd IH]; intros stores; [constructor|]. cbn [pop_all].
  destruct (stores !! key) as [[c| |]|]; [|apply IH..].
  specialize (IH (<[key := IAVL {| Pairs := [] |}]> stores)).
  pose proof (fun cs => proj1 (pop_all_elem order (<[key := IAVL {| Pairs := [] |}]> stores) cs Hnd)) as He.
  destruct (pop_all order _) as [css st]. cbn [fst] in *. destruct (0 <? _); [|done].
  unfold names_of. cbn [map]. constructor; [|done]. intros (cs & E & Hin)%list_elem_of_fmap.
  apply He in Hin as [Hin _]. by rewrite <- E in Hin.
Qed.

(** Every order of the iteration gives the same sorted change sets. *)
Lemma pop_all_order order order' stores :
  NoDup order -> order ≡ₚ order' ->
  SliceStable ncs_Name (pop_all order stores).1 = SliceStable ncs_Name (pop_all order' stores).1.
Proof.
  intros Hnd Hp. assert (Hnd' : NoDup order') by (by rewrite <- Hp).
  apply (sorted_by_unique ncs_Name); [by apply SliceStable_sorted, pop_all_NoDup..|].
  rewrite !SliceStable_perm. apply NoDup_Permutation; [by eapply NoDup_fmap_1, pop_all_NoDup..|].
  intros cs. by rewrite !pop_all_elem, Hp by done.
Qed.

(** The stores after their changes were popped. *)
Lemma pend_popped order stores name :
  name ∈ order -> pend (pop_all order stores).2 name = [].
Proof.
  intros Hin. rewrite pop_all_stores. revert stores. induction order as [|key order IH]; intros stores.
  { by apply elem_of_nil in Hin. }
  cbn [foldl]. destruct (decide (name ∈ order)) as [|Hn]; [by apply IH|].
  apply elem_of_cons in Hin as [->|]; [|done].
  assert (Hk : forall m : gmap bytes CommitStore, foldl (fun m name => alter emptied name m) m order !! key = m !! key).
  { clear -Hn. induction order as [|x order IH]; intros m; [done|]. apply not_elem_of_cons in Hn as [Hx Hn].
    cbn [foldl]. rewrite (IH Hn). by rewrite lookup_alter_ne. }
  unfold pend. rewrite Hk, lookup_alter_eq. by destruct (stores !! key) as [[]|].
Qed.

Lemma popped_dom order stores : dom (pop_all order stores).2 = dom stores.
Proof.
  rewrite pop_all_stores. revert stores. induction order as [|key order IH]; intros stores; [done|].
  cbn [foldl]. rewrite IH. apply dom_alter_L.
Qed.

(** ** The working state *)

Section working.
Context `{CacheLaws C} `{WalLaws L} {FL : Type}.
Implicit Types (t : MultiTree C) (db : DB C L) (rs : RootMulti.Store C L FL) (w : app) (pd : bytes -> list KVPair).

Lemma db_changes css db db' :
  mt_ok (db_tree db) -> Forall (fun cs => Pairs (ncs_Changeset cs) <> []) css ->
  DB.ApplyChangeSets css db = (db', Ok tt) ->
  mt_ok (db_tree db') /\ same_frame (db_tree db) (db_tree db') /\
  stores (db_tree db') = foldl apply_named (stores (db_tree db)) css.
Proof.
  intros Ht Hne E. unfold DB.ApplyChangeSets in E. destruct (zlen css =? 0) eqn:Ez.
  { injection E as <-. destruct css as [|c css]; [done|]. rewrite zlen_cons in Ez. pose proof (zlen_nonneg css). lia. }
  apply unless_readOnly_ok in E as [_ E]. apply SE_bind_ok in E as (db1 & pending & [= <- <-] & E).
  destruct (zlen (Changesets (pendingLog db)) =? 0).
  { apply SE_bind_ok in E as (db1 & [] & [= <-] & E). apply on_mt_ok in E as (t & Et & ->). cbn [db_tree with_tree].
    cbn [db_tree with_pending] in Et. by destruct (ApplyChangeSets_stores css _ t Ht Et) as (? & ? & _ & ?). }
  clear Ez. revert db Ht E. induction Hne as [|c css Hc Hne IH]; intros db Ht E; [by injection E as <-|].
  apply for_each_cons_ok in E as (db1 & E1 & E2). unfold applyChangeSet in E1.
  assert (Hz : (zlen (Pairs (ncs_Changeset c)) =? 0) = false).
  { apply Z.eqb_neq. destruct (Pairs (ncs_Changeset c)) as [|p ps]; [done|]. rewrite zlen_cons. pose proof (zlen_nonneg ps). lia. }
  rewrite Hz in E1. apply unless_readOnly_ok in E1 as [_ E1]. apply SE_bind_ok in E1 as (db2 & [] & [= <-] & E1).
  apply on_mt_ok in E1 as (t & Et & ->). cbn [db_tree with_pending] in Et.
  destruct (ApplyChangeSets_stores [c] (db_tree db) t Ht) as (Ht1 & Hf1 & _ & Hs1); [by apply for_each_cons_ok; exists t|].
  apply IH in E2 as (Ht' & Hf' & Hs'); [|exact Ht1]. split; [done|]. split; [by eapply same_frame_trans|].
  cbn [db_tree with_tree] in Hs'. by rewrite Hs', Hs1.
Qed.

(** [w] is the data of the trees with the pending changes; [n] bounds the sizes. *)
Record working (n : Z) w t pd : Prop := {
  wk_data : forall name, w !! name = (fun tr => foldl map_apply (data tr) (pd name)) <$> stores t !! name;
  wk_size : forall name tr, stores t !! name = Some tr -> wf_root (root tr) /\ tree_size tr + zlen (pd name) <= n
}.

Lemma working_ext n w t pd pd' : (forall name, pd' name = pd name) -> working n w t pd -> working n w t pd'.
Proof. intros E [Hd Hs]. split; intros name; rewrite ?E; [done|by apply Hs]. Qed.

(** Applying the pending changes. *)
Lemma working_flush n w t t' pd css :
  n < max_leaves -> working n w t pd -> NoDup (names_of css) ->
  (forall name, match list_find (fun cs => ncs_Name cs = name) css with
                | Some (_, cs) => pd name = Pairs (ncs_Changeset cs)
                | None => is_Some (stores t !! name) -> pd name = []
                end) ->
  stores t' = foldl apply_named (stores t) css -> working n w t' (fun _ => []).
Proof.
  intros Hn [Hd Hs] Hnd Hpd E. assert (El : forall name, stores t' !! name = _) by (intros name; rewrite E; by apply foldl_named_lookup).
  split.
  - intros name. rewrite Hd, El. specialize (Hpd name). destruct (list_find _ css) as [[i cs]|].
    + destruct (stores t !! name) as [tr|] eqn:Et; [|done]. cbn [fmap option_fmap option_map compose foldl]. f_equal.
      destruct (Hs name tr Et) as [Hw Hz]. rewrite Hpd in *.
      by destruct (changes_data tr (ncs_Changeset cs) Hw) as (_ & -> & _); [lia|].
    + destruct (stores t !! name) as [tr|] eqn:Et; [|done]. cbn [fmap option_fmap option_map foldl]. f_equal.
      by rewrite Hpd by eauto.
  - intros name tr'. rewrite El. specialize (Hpd name). destruct (list_find _ css) as [[i cs]|].
    + intros (tr & Et & ->)%fmap_Some. destruct (Hs name tr Et) as [Hw Hz]. rewrite Hpd in Hz.
      destruct (changes_data tr (ncs_Changeset cs) Hw) as (Hw' & _ & Hz'); [lia|]. change (zlen []) with 0. split; [done|lia].
    + intros Et. destruct (Hs name tr' Et) as [Hw Hz]. rewrite Hpd in Hz by eauto. done.
Qed.
End working.

(** ** Flushing and committing *)

Section commits.
Context `{CacheLaws C} `{WalLaws L} {FL : Type}.
Variable g : MultiTree C.
Implicit Types (t : MultiTree C) (db : DB C L) (rs : RootMulti.Store C L FL) (w : app) (hist : list WALEntry).

(** The iteration over the stores of the application. *)
Definition iterates (order : list bytes) rs : Prop :=
  NoDup order /\ forall name, name ∈ order <-> is_Some (rs_stores rs !! name).

Lemma flush_inv order rs rs' :
  flush order rs = (rs', Ok tt) ->
  exists db db', rs_db rs = Some db /\
    DB.ApplyChangeSets (SliceStable ncs_Name (pop_all order (rs_stores rs)).1) db = (db', Ok tt) /\
    rs' = with_rs_db (with_rs_stores rs (pop_all order (rs_stores rs)).2) (Some db').
Proof.
  unfold flush. intros E. apply SE_bind_ok in E as (rs1 & rs2 & [= <- <-] & E).
  destruct (pop_all order (rs_stores rs)) as [css st]. cbn [fst snd].
  apply SE_bind_ok in E as (rs1 & [] & [= <-] & E). unfold on_db in E. cbn [rs_db with_rs_stores] in E.
  destruct (rs_db rs) as [db|]; [|done]. destruct (DB.ApplyChangeSets _ db) as [db' r] eqn:Ea.
  injection E as <- ->. eauto 6.
Qed.

Lemma live_ok hist db : db_ok g hist db -> mt_ok (db_tree db) /\ Version (db_tree db) < MaxInt64.
Proof.
  intros Hdb. destruct (do_tree _ _ _ Hdb) as (t & base & _ & _ & Hp). destruct Hp as [_ Hl (_ & Hc & _) Hv _ _].
  split; [done|]. unfold Version in *. by rewrite Hc.
Qed.

Lemma flush_working order rs rs' hist db n w :
  n < max_leaves -> iterates order rs -> rs_db rs = Some db -> db_ok g hist db ->
  working n w (db_tree db) (pend (rs_stores rs)) -> flush order rs = (rs', Ok tt) ->
  exists db', rs' = with_rs_db (with_rs_stores rs (pop_all order (rs_stores rs)).2) (Some db') /\
    db_ok g hist db' /\ working n w (db_tree db') (fun _ => []) /\
    Version (db_tree db') = Version (db_tree db) /\ initialVersion (db_tree db') = initialVersion (db_tree db) /\
    (forall name, pend (rs_stores rs') name = []).
Proof.
  intros Hn [Hnd Hord] Edb Hdb Hw E. apply flush_inv in E as (db0 & db' & Edb' & Ea & ->).
  rewrite Edb in Edb'. injection Edb' as <-. set (css := (pop_all order (rs_stores rs)).1) in *.
  assert (Hnd' : NoDup (names_of (SliceStable ncs_Name css))).
  { unfold names_of. rewrite SliceStable_perm. by apply pop_all_NoDup. }
  assert (Helem : forall cs, cs ∈ SliceStable ncs_Name css <-> ncs_Name cs ∈ order /\
    rs_stores rs !! ncs_Name cs = Some (IAVL (ncs_Changeset cs)) /\ Pairs (ncs_Changeset cs) <> []).
  { intros cs. rewrite SliceStable_perm. by apply pop_all_elem. }
  destruct (live_ok hist db Hdb) as [Ht _].
  destruct (db_changes (SliceStable ncs_Name css) db db' Ht) as (Ht' & (Hi & Hc & _) & Hs); [|done|].
  { apply Forall_forall. intros cs Hcs. by apply Helem in Hcs as (_ & _ & ?). }
  exists db'. split; [done|]. split; [by eapply ApplyChangeSets_db|]. split; [|split; [|split]].
  - eapply working_flush; [done|done|exact Hnd'| |exact Hs]. intros name.
    destruct (list_find _ _) as [[i cs]|] eqn:Ef.
    + apply list_find_Some in Ef as (Ei & <- & _). apply list_elem_of_lookup_2, Helem in Ei as (_ & Ei & _).
      unfold pend. by rewrite Ei.
    + intros _. apply list_find_None in Ef. unfold pend. destruct (rs_stores rs !! name) as [[cs| |]|] eqn:Er; try done.
      destruct (Pairs cs) as [|p ps] eqn:Ep; [done|]. exfalso.
      apply (proj1 (Forall_forall _ _) Ef {| ncs_Changeset := cs; ncs_Name := name |}); [|done].
      apply Helem. cbn. split; [apply Hord; eauto|]. split; [done|]. by rewrite Ep.
  - unfold Version. by rewrite Hc.
  - done.
  - intros name. cbn [rs_stores with_rs_db with_rs_stores].
    destruct (decide (name ∈ order)) as [Hin|Hin]; [by apply pend_popped|].
    assert (Hno : (pop_all order (rs_stores rs)).2 !! name = None).
    { apply not_elem_of_dom. rewrite popped_dom. intros [x Hx]%elem_of_dom. apply Hin, Hord. eauto. }
    unfold pend. by rewrite Hno.
Qed.

Lemma committed_agrees t1 t2 : agrees t1 t2 -> committed t1 -> committed t2.
Proof.
  intros [Hs Hc] E. unfold committed, buildCommitInfo in *.
  by rewrite <- (store_infos_same _ _ (sim_trees _ _ Hs)), <- (sim_version _ _ Hs), Hc.
Qed.

(** A commit of the database keeps the data, which it may read again from the disk. *)
Lemma Commit_state hist db db' v locked :
  db_ok g hist db -> encodable (pendingLog db) ->
  tree_version (Version g) (initialVersion g) + zlen hist + 1 < MaxInt64 ->
  DB.Commit locked db = (db', Ok v) ->
  db_ok g (hist ++ [pendingLog db]) db' /\ agrees (saved_state (db_tree db) true) (db_tree db') /\
  mt_ok (db_tree db') /\ committed (db_tree db').
Proof.
  intros Hdb Henc Hb E. destruct (live_ok hist db Hdb) as [Ht Hv].
  destruct (Commit_ok g hist db db' v locked Hdb Henc Hb E) as [Hdb' Hz].
  destruct (commit_saved g hist db (saved_state (db_tree db) true) (nextVersion (Version (db_tree db)) (initialVersion (db_tree db))))
    as (Hh' & _ & t' & Hst' & Ha'); [done|done|done|by apply SaveVersion_state|].
  destruct (clean_tree g _ db' Hh' (do_tree _ _ _ Hdb') Hz) as (t & Hst & Ha & Hok).
  rewrite (state_at_unique g _ _ _ _ Hst Hst') in Ha. split; [done|].
  split; [etrans; [symmetry; exact Ha'|exact Ha]|]. split; [done|].
  apply (committed_agrees t'); [done|]. destruct Hst' as [_ Hrun]. eapply run_blocks_committed; [|exact Hrun].
  rewrite firstn_all. by destruct hist.
Qed.
End commits.
