(* ===== verification/RootMultiRun.v ===== *)
(** * Runs of the root multistore

    A store is loaded on an empty directory and then written to and committed, while the
    log writer and the snapshot rewrites of the database run in the background.  The
    invariant relates every committed version to the state of the application at its
    commit, through the cache that queries read. *)

From Stdlib Require Import Strings.Byte ZArith Lia.
From stdpp Require Import base list numbers strings gmap.
From S2P Require Import Prelude Binary Proto ProtoCodec State Node NodeInv Snapshot SnapshotWriter Cache Tree Wal.
From S2P Require Import Merkle IavlStore MultiTree MultiTreeInv MultiTreeSim MultiTreeSnapshot.
From S2P Require Import SnapshotDir SnapshotDirInv DB DBInv DBRecovery DBCrash.
From S2P Require Import StateSync QueryCache QueryCacheInv RootMulti RootMultiInv.
Local Open Scope Z_scope.

Section load.
Context `{CacheLaws C} `{WalLaws L}.
Implicit Types (db : DB C L) (dir : DBDir) (log : L) (opts : Options).

Definition no_initial opts : Options :=
  {| CreateIfMissing := CreateIfMissing opts; InitialVersion := InitialVersion opts; ReadOnly := ReadOnly opts;
     InitialStores := []; SnapshotKeepRecent := SnapshotKeepRecent opts;
     SnapshotInterval := SnapshotInterval opts; TargetVersion := TargetVersion opts;
     AsyncCommitBuffer := AsyncCommitBuffer opts; ZeroCopy := ZeroCopy opts; CacheSize := CacheSize opts;
     LoadForOverwriting := LoadForOverwriting opts; HistoricalQueryLimit := HistoricalQueryLimit opts |}.

Definition add_upgrades (names : list bytes) : list TreeNameUpgrade :=
  map (fun name => {| up_Name := name; up_RenameFrom := []; up_Delete := false |}) names.

(** Loading with initial stores is loading and then adding them, on a database without
    versions. *)
Lemma Load_initial dir log opts :
  Load (C := C) dir log opts =
  (db ← Load dir log (no_initial opts);
   if negb (ReadOnly opts) && (Version (db_tree db) =? 0) && (0 <? zlen (InitialStores opts))
   then let '(db, r) := DB.ApplyUpgrades (add_upgrades (InitialStores opts)) db in _ ← r; Ok db
   else Ok db).
Proof.
  unfold Load. change (Validate (no_initial opts)) with (Validate opts).
  cbn [no_initial CreateIfMissing InitialVersion ReadOnly InitialStores SnapshotKeepRecent SnapshotInterval TargetVersion
    AsyncCommitBuffer ZeroCopy CacheSize LoadForOverwriting].
  repeat (match goal with |- _ ≫= _ = (?x ≫= _) ≫= _ => destruct x as [?|?|]; cbn [mbind res_bind]; [|done|done] end).
  match goal with x : DBDir * L |- _ => destruct x as [dir' log'] end. change (0 <? zlen []) with false. rewrite andb_false_r. done.
Qed.

Lemma Load_clean dir log opts db :
  InitialStores opts = [] -> Load dir log opts = Ok db -> pendingLog db = WALEntry_zero.
Proof.
  intros Hi E. unfold Load in E. rewrite Hi in E. change (0 <? zlen []) with false in E.
  repeat (apply res_bind_ok in E as (? & _ & E)). rewrite andb_false_r in E.
  match type of E with context [let '(_, _) := ?x in _] => destruct x as [d lg] end. by injection E as <-.
Qed.

Lemma upgrade_maps_add (new : Tree C) (m : gmap bytes (Tree C)) names :
  NoDup names -> (forall name, name ∈ names -> m !! name = None) ->
  exists m', upgrade_maps new m (add_upgrades names) = Some m' /\
    forall name, m' !! name = if decide (name ∈ names) then Some new else m !! name.
Proof.
  intros Hnd. revert m. induction Hnd as [|x names Hx Hnd IH]; intros m Hm; cbn [add_upgrades map upgrade_maps].
  { exists m. split; [done|]. intros name. by rewrite decide_False by apply not_elem_of_nil. }
  unfold upgrade_map. cbn [up_Delete up_RenameFrom up_Name]. rewrite decide_True by done.
  rewrite (Hm x) by (by left). cbn [mbind option_bind].
  destruct (IH (<[x := new]> m)) as (m' & E & Hm').
  { intros name Hn. rewrite lookup_insert_ne by (by intros ->). apply Hm. by right. }
  exists m'. split; [exact E|]. intros name. rewrite Hm'. destruct (decide (name ∈ names)) as [Hn|Hn].
  - by rewrite decide_True by (by right).
  - destruct (decide (x = name)) as [->|Hne].
    + rewrite lookup_insert_eq. by rewrite decide_True by (by left).
    + rewrite lookup_insert_ne by done. rewrite decide_False; [done|]. by intros [->|?]%elem_of_cons.
Qed.
End load.

Section runs.
Context `{CacheLaws C} `{WalLaws L} `{Ics23Ops} `{PrefixEndOps} {FL : Type}.
(** The initial version of the chain. *)
Variable init : Z.
Hypothesis init_range : 0 <= init <= MaxInt64.
Implicit Types (t : MultiTree C) (db : DB C L) (rs : RootMulti.Store C L FL) (w : app)
  (hs : gmap Z (app * CommitInfo)) (pub : gmap Z (MultiTree C)).

(** The mounted stores that are kept in memiavl. *)
Definition mounted rs : list bytes := map fst (List.filter (fun p => is_iavl p.2) (storesKeys rs)).

Record fresh_store rs : Prop := {
  fs_closed : rs_db rs = None;
  fs_dir : (rs_disk rs).1 = ∅;
  fs_log : view (rs_disk rs).2 = {| wv_first := 1; wv_entries := [] |};
  fs_opts : Validate (load_opts (rs_opts rs) (mounted rs) 0) = Ok tt;
  fs_init : InitialVersion (rs_opts rs) = init
}.

Definition empty_app (names : list bytes) : app := gset_to_gmap ∅ (list_to_set names).

(** [rs_reach k n hs w rs]: a run of [k] commits and [n] writes; [hs] has the application and
    the commit info of every version committed, [w] is the application with all writes. *)
Inductive rs_reach : Z -> Z -> gmap Z (app * CommitInfo) -> app -> RootMulti.Store C L FL -> Prop :=
| rr_load rs0 rs :
    fresh_store rs0 -> LoadLatestVersion rs0 = (rs, Ok tt) -> rs_reach 0 0 ∅ (empty_app (mounted rs0)) rs
| rr_write k n hs w rs rs' name cs p :
    rs_reach k n hs w rs -> rs_stores rs !! name = Some (IAVL cs) ->
    write_store_pair p name rs = Ok rs' ->
    rs_reach k (n + 1) hs (alter (fun m => map_apply m p) name w) rs'
| rr_hash k n hs w rs rs' order info :
    rs_reach k n hs w rs -> iterates order rs -> WorkingHash order rs = (rs', Ok info) -> rs_reach k n hs w rs'
| rr_commit k n hs w rs rs' order locked rs1 db1 info :
    rs_reach k n hs w rs -> iterates order rs ->
    flush order rs = (rs1, Ok tt) -> rs_db rs1 = Some db1 -> encodable (pendingLog db1) ->
    tree_version 0 init + k + 1 < MaxInt64 ->
    RootMulti.Commit order locked rs = (rs', Ok info) ->
    rs_reach (k + 1) n (<[ci_Version info := (w, info)]> hs) w rs'
| rr_writer k n hs w rs db db' i :
    rs_reach k n hs w rs -> rs_db rs = Some db -> log_writer i db = (db', Ok tt) ->
    rs_reach k n hs w (with_rs_db rs (Some db'))
| rr_rewrite k n hs w rs db db' ctx :
    rs_reach k n hs w rs -> rs_db rs = Some db -> rewrite_ready ctx db -> run_rewrite ctx db = (db', Ok tt) ->
    rs_reach k n hs w (with_rs_db rs (Some db'))
| rr_export k n hs w rs v t fl :
    rs_reach k n hs w rs -> rs_reach k n hs w (with_rs_cache rs (SetSnapshotExporter v t fl (queryCache rs)).1)
| rr_purge k n hs w rs v :
    rs_reach k n hs w rs -> rs_reach k n hs w (PruneSnapshotHeight v rs).

(** What the cache holds for a committed version. *)
Record shown (n v : Z) (a : app) (info : CommitInfo) t : Prop := {
  sh_ok : mt_ok t;
  sh_version : Version t = v;
  sh_positive : 0 < v;
  sh_app : app_of t = a;
  sh_size : sized n t;
  sh_info : lastCommitInfo t = info;
  sh_committed : committed t
}.

Definition history_shown (n : Z) hs pub : Prop := forall v,
  match hs !! v, pub !! v with
  | Some (a, info), Some t => shown n v a info t
  | None, None => True
  | _, _ => False
  end.

Definition rs_ok (k n : Z) hs w rs : Prop := exists hist db pub,
  zlen hist = k /\ 0 <= n /\ rs_db rs = Some db /\ db_ok (genesis init) hist db /\
  working n w (db_tree db) (pend (rs_stores rs)) /\
  cache_rep (rs_opts rs) (queryCache rs) pub /\ history_shown n hs pub /\
  (forall v, is_Some (pub !! v) -> v <= Version (db_tree db)).

Lemma history_weaken n n' hs pub : n <= n' -> history_shown n hs pub -> history_shown n' hs pub.
Proof.
  intros Hn Hs v. specialize (Hs v). destruct (hs !! v) as [[a info]|], (pub !! v) as [t|]; try done.
  destruct Hs as [? ? ? ? Hz ? ?]. split; try done. intros name tr E. destruct (Hz name tr E). split; [done|lia].
Qed.

Lemma working_write n w t st name cs p :
  st !! name = Some (IAVL cs) -> working n w t (pend st) ->
  working (n + 1) (alter (fun m => map_apply m p) name w) t
    (pend (<[name := IAVL {| Pairs := Pairs cs ++ [p] |}]> st)).
Proof.
  intros Es [Hd Hs]. assert (Ep : forall x, pend (<[name := IAVL {| Pairs := Pairs cs ++ [p] |}]> st) x =
    if decide (name = x) then pend st x ++ [p] else pend st x).
  { intros x. unfold pend. destruct (decide (name = x)) as [<-|]; [by rewrite lookup_insert_eq, Es|by rewrite lookup_insert_ne]. }
  split; intros x; rewrite Ep.
  - destruct (decide (name = x)) as [<-|].
    + rewrite lookup_alter_eq, Hd. destruct (stores t !! name); [|done]. cbn. by rewrite foldl_snoc.
    + by rewrite lookup_alter_ne, Hd by done.
  - intros tr E. destruct (Hs x tr E) as [Hw Hz]. split; [done|]. destruct (decide _); [|lia].
    rewrite zlen_app. change (zlen [p]) with 1. lia.
Qed.

(** ** Commits *)

Lemma must_do_ok {St A} (m : SE St A) s s' a : must_do m s = (s', Ok a) -> m s = (s', Ok a).
Proof. unfold must_do. destruct (m s) as [s1 [b| |]]; cbn [must]; congruence. Qed.

Lemma on_db_ok {A} (m : SE (DB C L) A) rs rs' a :
  on_db m rs = (rs', Ok a) -> exists db db', rs_db rs = Some db /\ m db = (db', Ok a) /\ rs' = with_rs_db rs (Some db').
Proof.
  unfold on_db. destruct (rs_db rs) as [db|]; [|done]. destruct (m db) as [db' r] eqn:E. intros [= <- ->]. eauto.
Qed.

Lemma convertCommitInfo_id c : convertCommitInfo c = c.
Proof.
  destruct c as [v l]. unfold convertCommitInfo. cbn [ci_Version ci_StoreInfos]. f_equal.
  rewrite <- (map_id l) at 2. apply map_ext. by intros [name [cv ch]].
Qed.

(** The steps of a commit that succeeds. *)
Lemma Commit_inv order locked rs rs' info :
  RootMulti.Commit order locked rs = (rs', Ok info) ->
  exists rs1 db1 v db2 c, flush order rs = (rs1, Ok tt) /\ rs_db rs1 = Some db1 /\
    DB.Commit locked db1 = (db2, Ok v) /\ info = lastCommitInfo (db_tree db2) /\
    AddHistoricalVersion (rs_opts rs1) (db_tree db2) (ci_Version info) (queryCache rs1) = Ok c /\
    rs' = with_rs_cache (with_rs_info (with_rs_db rs1 (Some db2)) info) c.
Proof.
  unfold RootMulti.Commit. intros E. apply SE_bind_ok in E as (rs1 & [] & Ef%must_do_ok & E).
  apply SE_bind_ok in E as (rs2 & v & Ec%must_do_ok & E). apply on_db_ok in Ec as (db1 & db2 & Ed & Ec & ->).
  apply SE_bind_ok in E as (rs3 & rs4 & [= <- <-] & E). apply SE_bind_ok in E as (rs3 & db & Eo & E).
  cbn [rs_db with_rs_db of_option] in Eo. injection Eo as <- <-. rewrite convertCommitInfo_id in E.
  apply SE_bind_ok in E as (rs3 & [] & [= <-] & E). apply SE_bind_ok in E as (rs4 & [] & Ea & [= <- <-]).
  unfold add_historical in Ea. cbn [rs_opts queryCache with_rs_info with_rs_db] in Ea.
  destruct (AddHistoricalVersion _ _ _ _) as [c| |] eqn:Eh; [|done|done]. injection Ea as <-.
  exists rs1, db1, v, db2, c. done.
Qed.

Lemma saved_version t :
  mt_ok t -> Version t < MaxInt64 -> Version t < Version (saved_state t true) /\ 0 < Version (saved_state t true).
Proof.
  intros Ht Hv. destruct (tree_version_next _ _ (mo_version t Ht) Hv) as (Hb & Hn & _).
  change (Version (saved_state t true)) with (nextVersion (Version t) (initialVersion t)). rewrite <- Hn.
  pose proof (mo_version t Ht) as (? & ? & ?). unfold tree_version in *.
  destruct ((Version t =? 0) && (1 <? initialVersion t)) eqn:E; [|lia].
  apply andb_true_iff in E as [Ez%Z.eqb_eq Ei%Z.ltb_lt]. lia.
Qed.

Lemma working_app n w t : working n w t (fun _ => []) -> app_of t = w /\ sized n t.
Proof.
  intros [Hd Hs]. split.
  - apply map_eq. intros name. unfold app_of. rewrite lookup_fmap, Hd. by destruct (stores t !! name).
  - intros name tr E. destruct (Hs name tr E) as [Hw Hz]. change (zlen []) with 0 in Hz. split; [done|lia].
Qed.

Lemma app_working n w t : app_of t = w -> sized n t -> working n w t (fun _ => []).
Proof.
  intros <- Hz. split.
  - intros name. unfold app_of. rewrite lookup_fmap. by destruct (stores t !! name).
  - intros name tr E. destruct (Hz name tr E) as [Hw Hl]. change (zlen []) with 0. split; [done|lia].
Qed.

(** A new version is published next to the others. *)
Lemma publish_new opts n hs pub t v a info t' :
  (forall u, is_Some (pub !! u) -> u < v) -> 0 < v -> history_shown n hs pub ->
  shown n v a info t' -> MultiTree.Copy t 0 = t' ->
  history_shown n (<[v := (a, info)]> hs) (publish opts t v pub) /\
  publish opts t v pub = <[v := t']> pub.
Proof.
  intros Hnew Hv Hh Hs Et. unfold publish. rewrite (proj2 (Z.leb_gt v 0)) by done.
  assert (Hn : pub !! v = None).
  { destruct (pub !! v) as [x|] eqn:E; [|done]. specialize (Hnew v). rewrite E in Hnew. specialize (Hnew ltac:(eauto)). lia. }
  assert (Hw : window opts pub v = None) by (unfold window; destruct (_ <? _); done).
  rewrite Hw, Et. split; [|done]. intros u. specialize (Hh u). destruct (decide (v = u)) as [<-|].
  - by rewrite !lookup_insert_eq.
  - by rewrite !lookup_insert_ne by done.
Qed.

Lemma commit_step k n hs w rs rs' order locked rs1 db1 info :
  rs_ok k n hs w rs -> n < max_leaves -> iterates order rs ->
  flush order rs = (rs1, Ok tt) -> rs_db rs1 = Some db1 -> encodable (pendingLog db1) ->
  tree_version 0 init + k + 1 < MaxInt64 -> RootMulti.Commit order locked rs = (rs', Ok info) ->
  rs_ok (k + 1) n (<[ci_Version info := (w, info)]> hs) w rs'.
Proof.
  intros (hist & db & pub & Hk & Hn & Edb & Hdb & Hw & Hc & Hh & Hl) Hmax Hord Ef Edb1 Henc Hb E.
  apply Commit_inv in E as (rs1' & db1' & v & db2 & c & Ef' & Edb1' & Ec & -> & Ea & ->).
  rewrite Ef in Ef'. injection Ef' as <-. rewrite Edb1 in Edb1'. injection Edb1' as <-.
  destruct (flush_working (genesis init) order rs rs1 hist db n w Hmax Hord Edb Hdb Hw Ef)
    as (db1' & -> & Hdb1 & Hw1 & Hv1 & Hi1 & Hp1).
  cbn [rs_db with_rs_db] in Edb1. injection Edb1 as ->.
  destruct (live_ok (genesis init) hist db1 Hdb1) as [Ht1 Hlt1].
  destruct (Commit_state (genesis init) hist db1 db2 v locked Hdb1 Henc) as (Hdb2 & [Hs2 Hc2] & Ht2 & Hco2);
    [by rewrite Hk|done|].
  destruct (saved_version (db_tree db1) Ht1 Hlt1) as [Hgt Hpos].
  destruct (working_app n w (db_tree db1) Hw1) as [Ha1 Hz1].
  destruct (app_of_saved (db_tree db1) true n Hz1) as [Ha1' Hz1'].
  destruct (app_of_same _ _ n Hs2 Hz1') as [Ha2 Hz2]. rewrite (sim_version _ _ Hs2) in Hgt, Hpos.
  set (t2 := db_tree db2) in *. set (v2 := Version t2) in *.
  assert (Hsh : shown n v2 w (lastCommitInfo t2) (MultiTree.Copy t2 0)).
  { pose proof (Copy_agrees t2 0 Ht2) as Hag. destruct Hag as [Hs3 Hc3] eqn:Eag. clear Eag.
    destruct (app_of_same _ _ n Hs3 Hz2) as [Ha3 Hz3]. split.
    - by apply (mt_ok_sim t2).
    - by rewrite <- (sim_version _ _ Hs3).
    - done.
    - congruence.
    - done.
    - done.
    - by apply (committed_agrees t2). }
  change (ci_Version (lastCommitInfo t2)) with v2 in *.
  destruct (publish_new (rs_opts rs) n hs pub t2 v2 w (lastCommitInfo t2) (MultiTree.Copy t2 0)) as [Hh' Hpub]; [|done|done|exact Hsh|done|].
  { intros u Hu. specialize (Hl u Hu). rewrite <- Hv1 in Hl. lia. }
  destruct (AddHistoricalVersion_rep (rs_opts rs) t2 v2 (queryCache rs) pub Hc) as (c' & Ea' & Hc' & _).
  cbn [rs_opts queryCache with_rs_db with_rs_stores] in Ea. rewrite Ea in Ea'. injection Ea' as <-.
  exists (hist ++ [pendingLog db1]), db2, (publish (rs_opts rs) t2 v2 pub).
  split; [rewrite zlen_app; change (zlen [pendingLog db1]) with 1; lia|]. split; [done|]. split; [done|]. split; [done|].
  split; [|split; [done|split; [done|]]].
  - apply (working_ext n w t2 (fun _ => [])); [exact Hp1|]. apply app_working; [congruence|done].
  - intros u. rewrite Hpub, lookup_insert_is_Some'. intros [<-|Hu]; [done|].
    specialize (Hl u Hu). rewrite <- Hv1 in Hl. fold t2 v2. lia.
Qed.

Lemma hash_step k n hs w rs rs' order info :
  rs_ok k n hs w rs -> n < max_leaves -> iterates order rs -> WorkingHash order rs = (rs', Ok info) ->
  rs_ok k n hs w rs'.
Proof.
  intros (hist & db & pub & Hk & Hn & Edb & Hdb & Hw & Hc & Hh & Hl) Hmax Hord E. unfold WorkingHash in E.
  apply SE_bind_ok in E as (rs1 & [] & Ef%must_do_ok & E). apply SE_bind_ok in E as (rs2 & x & [= <- <-] & E).
  apply SE_bind_ok in E as (rs2 & db1 & E1 & E). injection E1 as <- E1.
  apply SE_bind_ok in E as (rs2 & i & E2 & [= <- _]). injection E2 as <- _.
  destruct (flush_working (genesis init) order rs rs1 hist db n w Hmax Hord Edb Hdb Hw Ef)
    as (db1' & -> & Hdb1 & Hw1 & Hv1 & Hi1 & Hp1).
  exists hist, db1', pub. do 4 (split; [done|]). split; [by apply (working_ext n w _ (fun _ => []))|].
  split; [done|]. split; [done|]. by rewrite Hv1.
Qed.

(** ** Loading *)

Lemma load_stores_pend db l st name : load_stores db l = Ok st -> pend st name = [].
Proof.
  revert st. induction l as [|[x params] l IH]; intros st; cbn [load_stores].
  { intros [= <-]. unfold pend. by rewrite lookup_empty. }
  intros (store & Es & E)%res_bind_ok. apply res_bind_ok in E as (rest & Er & [= <-]). unfold pend.
  destruct (decide (x = name)) as [->|]; [|rewrite lookup_insert_ne by done; by apply IH].
  rewrite lookup_insert_eq. unfold loadCommitStoreFromParams in Es.
  destruct (sp_typ params); try done.
  - apply res_bind_ok in Es as (tree & _ & Es). destruct tree; [by injection Es as <-|done].
  - destruct (sp_key params); try done. by injection Es as <-.
  - destruct (sp_key params); try done. by injection Es as <-.
Qed.

Lemma mounted_NoDup rs : NoDup (mounted rs).
Proof.
  unfold mounted, storesKeys. assert (Hnd : NoDup (map fst (SliceStable fst (map_to_list (storesParams rs))))).
  { rewrite SliceStable_perm. apply NoDup_fst_map_to_list. }
  induction (SliceStable fst (map_to_list (storesParams rs))) as [|p l IH]; [constructor|].
  cbn [map] in Hnd. apply NoDup_cons in Hnd as [Hx Hnd]. cbn [List.filter]. destruct (is_iavl p.2); [|by apply IH].
  cbn [map]. constructor; [|by apply IH]. intros (q & E & Hq)%list_elem_of_fmap. apply Hx. rewrite E.
  apply list_elem_of_fmap_2. rewrite list_elem_of_In, filter_In, <- list_elem_of_In in Hq. by destruct Hq.
Qed.

Lemma genesis_load (log : L) opts db :
  Validate opts = Ok tt -> CreateIfMissing opts = true -> TargetVersion opts = 0 -> InitialVersion opts = init ->
  view log = {| wv_first := 1; wv_entries := [] |} -> NoDup (InitialStores opts) -> Load ∅ log opts = Ok db ->
  db_ok (genesis init) [] db /\ Version (db_tree db) = 0 /\ working 0 (empty_app (InitialStores opts)) (db_tree db) (fun _ => []).
Proof.
  intros Hval Hcr Htar Hin Hlog Hnd E. rewrite Load_initial in E. apply res_bind_ok in E as (db0 & E0 & E).
  assert (Hl : latest (no_initial opts)) by done.
  pose proof (create_ok init log (no_initial opts) db0 Hl Hcr Hin init_range Hlog E0) as Hdb0.
  pose proof (Load_clean ∅ log (no_initial opts) db0 eq_refl E0) as Hz.
  destruct (clean_tree (genesis init) [] db0 (do_hist _ _ _ Hdb0) (do_tree _ _ _ Hdb0) Hz) as (t & [_ [= <-]] & [Hs _] & Ht).
  assert (Hst : stores (db_tree db0) = ∅).
  { apply map_eq. intros name. pose proof (stores_same _ _ name Hs) as Ho. rewrite lookup_empty.
    change (stores (genesis init) !! name) with (@None (Tree C)) in Ho. by inversion Ho. }
  assert (Hv : Version (db_tree db0) = 0) by (by rewrite <- (sim_version _ _ Hs)).
  assert (Hro : ReadOnly opts = false).
  { unfold Validate in Hval. rewrite Hcr in Hval. by destruct (ReadOnly opts). }
  rewrite Hv, Hro in E. cbn [negb andb Z.eqb] in E. set (names := InitialStores opts) in *.
  destruct (upgrade_maps_add (new_tree (db_tree db0)) (stores (db_tree db0)) names Hnd) as (m & Em & Hm);
    [intros; by rewrite Hst|].
  assert (Hnew : root (new_tree (db_tree db0)) = None).
  { unfold new_tree, NewWithInitialVersion. by destruct (_ <=? 1). }
  assert (Hdata : forall t, stores t = m -> working 0 (empty_app names) t (fun _ => [])).
  { intros t' Et. apply app_working.
    - apply map_eq. intros name. unfold app_of, empty_app. rewrite lookup_fmap, Et, Hm, Hst, lookup_empty.
      destruct (decide (name ∈ names)) as [Hin'|Hin'].
      + rewrite lookup_gset_to_gmap, option_guard_True by (by apply elem_of_list_to_set). cbn. unfold data. by rewrite Hnew.
      + rewrite lookup_gset_to_gmap, option_guard_False; [done|]. by rewrite elem_of_list_to_set.
    - intros name tr. rewrite Et, Hm, Hst, lookup_empty. destruct (decide _); [|done]. intros [= <-].
      unfold tree_size. by rewrite Hnew. }
  destruct (0 <? zlen names) eqn:En.
  - destruct (DB.ApplyUpgrades (add_upgrades names) db0) as [db' r] eqn:Ea.
    apply res_bind_ok in E as ([] & -> & [= <-]).
    assert (Ea' := Ea). apply unless_readOnly_ok in Ea' as [_ Ea']. apply SE_bind_ok in Ea' as (db1 & [] & Eu & [= <-]).
    apply on_mt_ok in Eu as (t' & Eu & ->).
    destruct (ApplyUpgrades_done _ _ m Ht Em) as (t1 & Eu' & (_ & Hc & _) & Hs'). rewrite Eu in Eu'. injection Eu' as <-.
    split; [|split; [|by apply Hdata]].
    + eapply ApplyUpgrades_db; [exact Hdb0|by rewrite Hz|exact Em|exact Ea].
    + cbn [db_tree with_pending with_tree]. rewrite <- Hv. unfold Version. by rewrite Hc.
  - injection E as <-. split; [done|]. split; [done|]. apply Hdata.
    destruct names as [|x names'] eqn:Enn; [by injection Em|].
    rewrite zlen_cons in En. pose proof (zlen_nonneg names'). lia.
Qed.

Lemma load_step rs0 rs :
  fresh_store rs0 -> LoadLatestVersion rs0 = (rs, Ok tt) -> rs_ok 0 0 ∅ (empty_app (mounted rs0)) rs.
Proof.
  intros [Hdb Hdir Hlog Hval Hin] E. unfold LoadLatestVersion, LoadVersionAndUpgrade in E.
  apply SE_bind_ok in E as (rs1 & [] & [= <-] & E). apply SE_bind_ok in E as (rs1 & rs2 & [= <- <-] & E).
  cbn zeta in E. unfold files in E. cbn [rs_db with_rs_cache rs_disk] in E. rewrite Hdb in E.
  destruct (rs_disk rs0) as [dir log]. cbn [fst snd] in *. subst dir.
  change (map fst (List.filter (fun p => is_iavl p.2) (storesKeys (with_rs_cache rs0 (reset (queryCache rs0))))))
    with (mounted rs0) in E. cbn [rs_opts with_rs_cache] in E.
  apply SE_bind_ok in E as (rs1 & db & El & E). injection El as <- El.
  apply SE_bind_ok in E as (rs1 & md & Em & E). injection Em as <- Em.
  apply SE_bind_ok in E as (rs1 & [] & [= <-] & E). change (0 <? zlen (tree_upgrades None)) with false in E.
  apply SE_bind_ok in E as (rs1 & db' & [= <- <-] & E). apply SE_bind_ok in E as (rs1 & st & Es & E). injection Es as <- Es.
  destruct (genesis_load log _ db Hval) as (Hok & Hv & Hw); [done|done|exact Hin|done|apply mounted_NoDup|done|].
  rewrite Hv in E. cbn [Z.eqb negb] in E. apply SE_bind_ok in E as (rs1 & [] & [= <-] & E).
  change (0 <? ci_Version CommitInfo_zero) with false in E. injection E as <-.
  exists [], db, ∅. do 4 (split; [done|]). split; [|split; [|split]].
  - apply (working_ext 0 _ _ (fun _ => [])); [|exact Hw]. intros name. by eapply load_stores_pend.
  - apply reset_rep.
  - intros v. by rewrite !lookup_empty.
  - intros v. rewrite lookup_empty. by intros [? ?].
Qed.

(** ** Reachable states *)

(** Steps of the database that keep its tree. *)
Lemma db_step k n hs w rs db db' :
  rs_ok k n hs w rs -> rs_db rs = Some db -> (forall hist, db_ok (genesis init) hist db -> db_ok (genesis init) hist db') ->
  db_tree db' = db_tree db -> rs_ok k n hs w (with_rs_db rs (Some db')).
Proof.
  intros (hist & db0 & pub & Hk & Hn & Edb & Hdb & Hw & Hc & Hh & Hl) E Hok Et. rewrite E in Edb. injection Edb as <-.
  exists hist, db', pub. rewrite Et. do 3 (split; [done|]). split; [by apply Hok|]. done.
Qed.

Lemma cache_step_ok k n hs w rs op c :
  rs_ok k n hs w rs -> cache_step (rs_opts rs) op (queryCache rs) = Ok c ->
  match op with OExport _ _ _ | OPurge _ => True | _ => False end -> rs_ok k n hs w (with_rs_cache rs c).
Proof.
  intros (hist & db & pub & Hk & Hn & Edb & Hdb & Hw & Hc & Hh & Hl) E Hop.
  destruct (cache_step_rep (rs_opts rs) op _ pub Hc) as (c' & E' & Hc'). rewrite E in E'. injection E' as <-.
  exists hist, db, pub. do 5 (split; [done|]). split; [|done]. by destruct op.
Qed.

Lemma write_step k n hs w rs rs' name cs p :
  rs_ok k n hs w rs -> rs_stores rs !! name = Some (IAVL cs) -> write_store_pair p name rs = Ok rs' ->
  rs_ok k (n + 1) hs (alter (fun m => map_apply m p) name w) rs'.
Proof.
  intros (hist & db & pub & Hk & Hn & Edb & Hdb & Hw & Hc & Hh & Hl) Es E.
  unfold write_store_pair in E. rewrite Es in E. injection E as <-. exists hist, db, pub.
  do 2 (split; [lia|]). do 2 (split; [done|]). split; [by apply working_write|]. split; [done|]. split; [|done].
  by apply (history_weaken n); [lia|].
Qed.

Lemma log_writer_tree i db db' : log_writer i db = (db', Ok tt) -> db_tree db' = db_tree db.
Proof.
  unfold log_writer. intros E. repeat (case_match; simplify_eq/=; try done).
Qed.

Lemma run_rewrite_tree ctx db db' : run_rewrite ctx db = (db', Ok tt) -> db_tree db' = db_tree db.
Proof.
  unfold run_rewrite. intros E. repeat (case_match; simplify_eq/=; try done).
Qed.

Lemma rs_reach_ok k n hs w rs : rs_reach k n hs w rs -> n < max_leaves -> rs_ok k n hs w rs.
Proof.
  intros Hr Hn. induction Hr as [rs0 rs Hf E|k n hs w rs rs' name cs p _ IH Es E|k n hs w rs rs' order info _ IH Ho E
    |k n hs w rs rs' order locked rs1 db1 info _ IH Ho Ef Ed He Hb E|k n hs w rs db db' i _ IH Ed E
    |k n hs w rs db db' ctx _ IH Ed Hc E|k n hs w rs v t fl _ IH|k n hs w rs v _ IH].
  - by apply load_step.
  - eapply write_step; [apply IH; lia|done|done].
  - eapply hash_step; [by apply IH|done|done|done].
  - eapply commit_step; [by apply IH|done..].
  - apply (db_step k n hs w rs db); [by apply IH|done| |by eapply log_writer_tree].
    intros hist Hdb. by apply (log_writer_ok _ hist db db' i).
  - apply (db_step k n hs w rs db); [by apply IH|done| |by eapply run_rewrite_tree].
    intros hist Hdb. by apply (run_rewrite_ok _ hist ctx db db').
  - by apply (cache_step_ok k n hs w rs (OExport v t fl)); [apply IH|..].
  - by apply (cache_step_ok k n hs w rs (OPurge v)); [apply IH|..].
Qed.
End runs.
