(* ===== verification/RootMultiProps.v ===== *)
(** * What queries of the root multistore return

    A query at a committed height returns what the application had written at the commit of
    that height, with a proof for the hash that the commit recorded for the store. *)

From Stdlib Require Import Strings.Byte ZArith Lia.
From stdpp Require Import base list numbers strings gmap.
From S2P Require Import Prelude Binary Proto KVProto ProtoCodec State Node NodeInv NodeIface Snapshot SnapshotWriter Cache Tree Wal.
From S2P Require Import Merkle IavlStore MultiTree MultiTreeInv MultiTreeSim MultiTreeSnapshot.
From S2P Require Import SnapshotDir SnapshotDirInv DB DBInv DBRecovery DBCrash DBProps.
From S2P Require Import StateSync QueryCache QueryCacheInv RootMulti RootMultiInv RootMultiRun.
Local Open Scope Z_scope.

(** ** Proofs about finite maps *)

Section proofs.
Context `{Ics23Ops}.
Implicit Types (m : gmap bytes bytes) (hash key : bytes).

(** The proof is for a pair, under a root hash. *)
Definition proves_pair hash (p : ExistenceProof) (k v : bytes) : Prop :=
  ep_Key p = k /\ ep_Value p = Some v /\ (k <> [] -> v <> [] -> Calculate p = Ok hash).

(** The proof is for the pair of [m] that is the nearest on one side, where there is one. *)
Definition proves_nearest hash m (side : bytes -> Prop) (closer : bytes -> bytes -> Prop) (o : option ExistenceProof) : Prop :=
  match o with
  | Some p => exists k v, m !! k = Some v /\ side k /\ proves_pair hash p k v /\
                forall k', is_Some (m !! k') -> side k' -> k' = k \/ closer k k'
  | None => forall k', side k' -> m !! k' = None
  end.

(** The operation is a proof of what [m] has for the key, under a root hash. *)
Definition op_proves hash m key (op : ProofOp) : Prop :=
  match m !! key, op with
  | Some v, IavlOp k (Exist p) => k = key /\ proves_pair hash p key v
  | None, IavlOp k (Nonexist p) =>
      k = key /\ np_Key p = key /\
      proves_nearest hash m (fun k => bytes_lt k key) (fun a b => bytes_lt b a) (np_Left p) /\
      proves_nearest hash m (fun k => bytes_lt key k) bytes_lt (np_Right p)
  | _, _ => False
  end.

(** The commit info has the root hash of a store. *)
Definition records_hash (info : CommitInfo) (name hash : bytes) : Prop :=
  exists si, si ∈ ci_StoreInfos info /\ si_Name si = name /\ cid_Hash (si_CommitId si) = hash.

Context `{!CacheOps C}.
Implicit Types (tr : Tree C).

Lemma proves_proves_pair tr p k v : proves tr p k v -> proves_pair (RootHash tr) p k v.
Proof. by intros [? ? ?]. Qed.

Lemma keys_split (l r : list (bytes * bytes)) key k :
  Forall (fun x => bytes_lt x key) l.*1 -> Forall (fun x => bytes_lt key x) r.*1 -> is_Some (kv_lookup k (l ++ r)) ->
  (bytes_lt k key -> k ∈ l.*1) /\ (bytes_lt key k -> k ∈ r.*1).
Proof.
  intros Hl Hr [v E]. rewrite kv_lookup_app in E. destruct (kv_lookup k l) as [u|] eqn:El.
  - apply kv_lookup_elem in El. split; [done|]. intros Hlt. pose proof (proj1 (Forall_forall _ _) Hl k El) as Hk.
    destruct (bytes_lt_irrefl k). by trans key.
  - apply kv_lookup_elem in E. split; [|done]. intros Hlt. pose proof (proj1 (Forall_forall _ _) Hr k E) as Hk.
    destruct (bytes_lt_irrefl k). by trans key.
Qed.

Lemma absence_nearest tr p key :
  wf_root (root tr) -> proves_absence tr p key ->
  np_Key p = key /\
  proves_nearest (RootHash tr) (data tr) (fun k => bytes_lt k key) (fun a b => bytes_lt b a) (np_Left p) /\
  proves_nearest (RootHash tr) (data tr) (fun k => bytes_lt key k) bytes_lt (np_Right p).
Proof.
  intros Hw (Hk & l & r & Ec & Hl & Hr & HL & HR). split; [done|].
  pose proof (wf_root_sorted _ Hw) as Hs. rewrite Ec in Hs.
  pose proof (fun k => keys_split l r key k Hl Hr) as Hkeys.
  assert (Hd : forall k, data tr !! k = kv_lookup k (l ++ r)) by (intros k; unfold data; by rewrite kv_map_lookup, Ec).
  unfold proves_nearest, proof_at in *. split.
  - destruct (np_Left p) as [q|], (last l) as [[k v]|] eqn:El; try done.
    + apply last_Some in El as [l' ->]. exists k, v. rewrite Hd.
      split; [apply kv_elem_lookup; [done|]; rewrite !elem_of_app; left; right; by left|].
      split; [apply (proj1 (Forall_forall _ _) Hl); rewrite fmap_app, elem_of_app; right; by left|]. split; [by apply proves_proves_pair|].
      intros k' Hk' Hlt. rewrite Hd in Hk'. apply Hkeys in Hk' as [Hin _]. specialize (Hin Hlt).
      apply kv_sorted_app in Hs as [Hs _]. apply kv_sorted_app in Hs as (_ & _ & Hs).
      rewrite fmap_app, elem_of_app in Hin. destruct Hin as [Hin|Hin]; [right; apply Hs; [done|by left]|].
      left. by apply list_elem_of_singleton in Hin.
    + apply last_None in El as ->. intros k' Hlt. apply eq_None_not_Some. rewrite Hd. intros Hk'.
      apply Hkeys in Hk' as [Hin _]. by apply Hin, elem_of_nil in Hlt.
  - destruct (np_Right p) as [q|], r as [|[k v] r]; try done.
    + exists k, v. rewrite Hd. split; [apply kv_elem_lookup; [done|]; rewrite elem_of_app; right; by left|].
      split; [apply (proj1 (Forall_forall _ _) Hr); by left|]. split; [by apply proves_proves_pair|].
      intros k' Hk' Hlt. rewrite Hd in Hk'. apply Hkeys in Hk' as [_ Hin]. specialize (Hin Hlt).
      apply kv_sorted_app in Hs as (_ & Hs & _). apply kv_sorted_cons in Hs as [_ Hs].
      apply elem_of_cons in Hin as [->|Hin]; [by left|right]. by apply Hs.
    + intros k' Hlt. apply eq_None_not_Some. rewrite Hd. intros Hk'.
      apply Hkeys in Hk' as [_ Hin]. by apply Hin, elem_of_nil in Hlt.
Qed.

Lemma query_op_proves tr key op : wf_root (root tr) -> query_proof tr key op -> op_proves (RootHash tr) (data tr) key op.
Proof.
  intros Hw Hq. unfold op_proves, query_proof in *. unfold data at 1. rewrite kv_map_lookup.
  destruct (kv_lookup key (contents (root tr))) as [v|], op as [k [p|p]|]; try done; destruct Hq as [-> Hp]; split; try done.
  - by apply proves_proves_pair.
  - by apply absence_nearest.
Qed.
End proofs.

(** ** Queries *)

Section queries.
Context `{CacheLaws C} `{WalLaws L} `{Ics23Laws} `{PrefixEndLaws} {FL : Type}.
Variable init : Z.
Hypothesis init_range : 0 <= init <= MaxInt64.
Implicit Types (t : MultiTree C) (rs : RootMulti.Store C L FL) (w a : app) (hs : gmap Z (app * CommitInfo)).

(** The height that a request asks for; 0 is the latest one. *)
Definition asks rs (height h : Z) : Prop := height = h \/ (height <= 0 /\ h = qlatest (queryCache rs)).

(** A committed height that is recent enough. *)
Definition recent rs hs (h : Z) a (info : CommitInfo) : Prop :=
  hs !! h = Some (a, info) /\ qlatest (queryCache rs) - h < CacheLimit (rs_opts rs).

Lemma split_slash_name name rest : x2f ∉ name -> split_slash (name ++ x2f :: rest) = (name, Some rest).
Proof.
  induction name as [|b name IH]; cbn [Datatypes.app split_slash]; [by rewrite bool_decide_true|].
  intros [Hb Hn]%not_elem_of_cons. rewrite bool_decide_false by done. by rewrite IH.
Qed.

Lemma parsePath_name name rest :
  x2f ∉ name -> parsePath (x2f :: name ++ x2f :: rest) = Ok (name, x2f :: rest).
Proof. intros Hn. cbn [parsePath]. rewrite bool_decide_true by done. by rewrite split_slash_name. Qed.

(** The multi-tree that is served for a committed height. *)
Lemma historical_shown k n hs w rs h height a info :
  rs_ok init k n hs w rs -> recent rs hs h a info -> asks rs height h ->
  exists t, historical rs height = Ok t /\ shown n h a info t /\
    forall name tr, stores t !! name = Some tr -> cache tr = None.
Proof.
  intros (hist & db & pub & _ & _ & _ & _ & _ & Hc & Hh & _) [Eh Hr] Has.
  specialize (Hh h). rewrite Eh in Hh. destruct (pub !! h) as [t|] eqn:Ep; [|done].
  pose proof (cr_latest _ _ _ Hc) as Hn. set (last := qlatest (queryCache rs)) in *.
  assert (Hlast : h <= last).
  { destruct Hn as [[-> _]|[_ Hm]]; [by rewrite lookup_empty in Ep|]. apply Hm. eauto. }
  pose proof (sh_positive _ _ _ _ _ Hh) as Hpos. exists (MultiTree.Copy t 0).
  pose proof (sh_ok _ _ _ _ _ Hh) as Hok. destruct (Copy_agrees t 0 Hok) as [Hs Hli]. split; [|split].
  - unfold historical, LatestVersion. fold last. rewrite (proj2 (Z.ltb_lt 0 last)) by lia. cbn [mbind res_bind].
    assert (Hv : (last <? height) = false /\ (if height <=? 0 then last else height) = h).
    { destruct Has as [->|[Hz ->]].
      - rewrite (proj2 (Z.ltb_ge _ _)), (proj2 (Z.leb_gt _ _)) by lia. done.
      - rewrite (proj2 (Z.ltb_ge _ _)), (proj2 (Z.leb_le _ _)) by (fold last in Hpos; lia). done. }
    destruct Hv as [-> ->]. rewrite (GetHistoricalTrees_spec (rs_opts rs) _ _ h Hc). unfold lookup_spec.
    by rewrite (window_recent _ _ last h Hn), Ep by eauto.
  - destruct Hh as [_ Hv _ Ha Hz Hi Hcm]. destruct (app_of_same _ _ n Hs Hz) as [Ha' Hz']. split.
    + by apply (mt_ok_sim t).
    + by rewrite <- (sim_version _ _ Hs).
    + done.
    + congruence.
    + done.
    + by rewrite <- Hi.
    + by apply (committed_agrees t).
  - intros name tr E. assert (Hok' : mt_ok (MultiTree.Copy t 0)) by (by apply (mt_ok_sim t)).
    unfold stores in E. apply to_map_lookup in E as (i & e & He & _ & <-); [|by apply mo_names].
    unfold MultiTree.Copy in He. cbn [trees with_index with_trees] in He.
    rewrite list_lookup_fmap in He. apply fmap_Some in He as (e0 & _ & ->). done.
Qed.

(** The store of a version that is served. *)
Lemma shown_store n h a info t name m :
  shown n h a info t -> (forall name tr, stores t !! name = Some tr -> cache tr = None) -> a !! name = Some m ->
  exists tr, TreeByName t name = Ok (Some tr) /\ tree_ok tr /\ tree_size tr <= n /\ version tr = h /\
    data tr = m /\ records_hash info name (RootHash tr) /\ 0 <= h <= MaxInt64.
Proof.
  intros [Hok Hv Hpos Ha Hz Hi Hc] Hca Hm. rewrite <- Ha in Hm. unfold app_of in Hm. rewrite lookup_fmap in Hm.
  apply fmap_Some in Hm as (tr & Et & ->). exists tr. rewrite TreeByName_stores, Et by done.
  destruct (Hz name tr Et) as [Hw Hsz]. pose proof (mo_version t Hok) as (_ & Hv1 & _). rewrite Hv in Hv1.
  assert (Htv : tree_version (Version t) (initialVersion t) = h).
  { unfold tree_version. rewrite Hv. by rewrite (proj2 (Z.eqb_neq h 0)) by lia. }
  pose proof (mo_trees t Hok) as Hall. rewrite Htv in Hall.
  assert (Hin := Et). unfold stores in Hin. apply to_map_lookup in Hin as (i & e & He & En & Ee); [|by apply mo_names].
  split; [done|]. split; [split; [done|]; intros c k v Ec; by rewrite (Hca name tr Et) in Ec|]. split; [done|].
  split; [rewrite <- Ee; apply (proj1 (Forall_forall _ _) Hall e); by eapply list_elem_of_lookup_2|].
  split; [done|]. split; [|done]. unfold committed, buildCommitInfo in Hc. rewrite (store_infos_at _ h) in Hc by done.
  cbn [mbind res_bind] in Hc. injection Hc as Hc. exists {| si_Name := name; si_CommitId := {| cid_Version := h; cid_Hash := RootHash tr |} |}.
  split; [|done]. rewrite <- Hi, <- Hc. cbn [ci_StoreInfos]. unfold infos. rewrite <- En, <- Ee.
  apply list_elem_of_fmap. exists e. split; [done|]. by eapply list_elem_of_lookup_2.
Qed.


(** a query for a subspace at such a height returns, encoded in the order of the keys,
    exactly the pairs under the prefix that the application had at the commit. *)
Theorem query_subspace_correct k n hs w rs RequireProof h height a info name m prefix :
  rs_reach init k n hs w rs -> n < 2 ^ 32 ->
  recent rs hs h a info -> asks rs height h -> a !! name = Some m -> x2f ∉ name -> prefix <> [] ->
  (forall l, kv_sorted l -> kv_map l = m -> zlen (Pairs_bytes (under prefix l)) < 2 ^ 63) ->
  exists resp bz l,
    Query RequireProof rs {| rq_Data := prefix; rq_Path := str "/" ++ name ++ str "/subspace"; rq_Height := height; rq_Prove := false |}
      = Ok resp /\
    rp_Height resp = h /\ rp_Value resp = Some bz /\ Pairs_Unmarshal bz = Ok (under prefix l) /\ kv_sorted l /\ kv_map l = m.
Proof.
  intros Hreach Hn Hrec Has Hm Hname Hkey Hsize.
  pose proof (rs_reach_ok init init_range _ _ _ _ _ Hreach ltac:(unfold max_leaves; lia)) as Hok.
  destruct (historical_shown _ _ _ _ _ _ _ _ _ Hok Hrec Has) as (t & Eh & Hsh & Hca).
  destruct (shown_store _ _ _ _ _ _ _ Hsh Hca Hm) as (tr & Et & Htr & Hsz & Hv & Hd & Hrh & Hh0).
  unfold Query. cbn [rq_Height rq_Path rq_Prove rq_Data]. rewrite Eh. cbn [mbind res_bind].
  change (str "/" ++ name ++ str "/subspace") with (x2f :: name ++ x2f :: str "subspace"). rewrite parsePath_name by done.
  cbn [mbind res_bind]. rewrite Et. cbn [mbind res_bind]. change (x2f :: str "subspace") with (str "/subspace").
  set (req := {| rq_Data := prefix; rq_Path := str "/subspace"; rq_Height := height; rq_Prove := false |}).
  pose proof (wf_root_sorted _ (to_wf _ Htr)) as Hso.
  destruct (store_Query_subspace (NewStore tr) req) as (resp & bz & -> & Eht & Ev & Eu); [|done|by apply Hsize|].
  { split; [done|cbn; lia|done|]. cbn. destruct Has as [->|[? _]]; [right; lia|by left]. }
  cbn [mbind res_bind negb orb]. cbn [st_tree NewStore rq_Data req] in *. exists resp, bz, (contents (root tr)).
  split; [done|]. split; [congruence|]. done.
Qed.

End queries.

(** ** A sample run *)

(** The stores of the sample: two trees and a transient store. *)
Definition sample_params : gmap bytes storeParams :=
  <[str "bank" := {| sp_key := KVStoreKey; sp_typ := StoreTypeIAVL |}]>
  (<[str "gov" := {| sp_key := KVStoreKey; sp_typ := StoreTypeIAVL |}]>
  (<[str "tmp" := {| sp_key := TransientStoreKey; sp_typ := StoreTypeTransient |}]> ∅)).

Definition sample_closed : RootMulti.Store lru mem_log unit :=
  {| rs_db := None; rs_disk := (∅, no_log); rs_lastCommitInfo := None; storesParams := sample_params; rs_stores := ∅;
     supportExportNonSnapshotVersion := true; rs_opts := sample_opts (-1); queryCache := newQueryDBCache |}.
Definition sample_open : RootMulti.Store lru mem_log unit := (LoadLatestVersion sample_closed).1.

Definition write_of (key value : bytes) : KVPair := {| kv_Delete := false; kv_Key := key; kv_Value := Some value |}.
Definition stored (r : res (RootMulti.Store lru mem_log unit)) : RootMulti.Store lru mem_log unit :=
  match r with Ok rs => rs | _ => sample_closed end.
Definition sample_write (name key value : string) (rs : RootMulti.Store lru mem_log unit) : RootMulti.Store lru mem_log unit :=
  stored (write_store_pair (write_of (str key) (str value)) (str name) rs).
Definition sample_order : list bytes := [str "gov"; str "tmp"; str "bank"].
Definition sample_commit (rs : RootMulti.Store lru mem_log unit) : RootMulti.Store lru mem_log unit :=
  (RootMulti.Commit sample_order unlocked rs).1.
Definition info_of (r : res CommitInfo) : CommitInfo := match r with Ok c => c | _ => CommitInfo_zero end.

(** Two commits, with a write before each. *)
Definition sample_first := sample_write "bank" "alice" "10" sample_open.
Definition sample_second := sample_write "bank" "bob" "7" (sample_commit sample_first).
Definition sample_done := sample_commit sample_second.
Definition sample_info := info_of (RootMulti.Commit sample_order unlocked sample_first).2.
Definition sample_info2 := info_of (RootMulti.Commit sample_order unlocked sample_second).2.
Definition sample_apps : list app :=
  let a0 := empty_app (mounted sample_closed) in
  let a1 := alter (fun m => map_apply m (write_of (str "alice") (str "10"))) (str "bank") a0 in
  [a0; a1; alter (fun m => map_apply m (write_of (str "bob") (str "7"))) (str "bank") a1].
Definition sample_app (i : nat) : app := default ∅ (sample_apps !! i).

Lemma SE_pair {St A} (p : St * res A) (a : A) : p.2 = Ok a -> p = (p.1, Ok a).
Proof. destruct p. by intros <-. Qed.
Lemma stored_ok r : (match r with Ok _ => true | _ => false end) = true -> r = Ok (stored r).
Proof. by destruct r. Qed.
Lemma info_ok (p : RootMulti.Store lru mem_log unit * res CommitInfo) :
  (match p.2 with Ok _ => true | _ => false end) = true -> p = (p.1, Ok (info_of p.2)).
Proof. by destruct p as [s [|e|]]. Qed.

Lemma default_ok {A} (d : A) o : bool_decide (is_Some o) = true -> o = Some (default d o).
Proof. by intros [x ->]%bool_decide_eq_true_1. Qed.

Lemma sample_iterates (rs : RootMulti.Store lru mem_log unit) :
  bool_decide (dom (rs_stores rs) = list_to_set sample_order) = true -> iterates sample_order rs.
Proof.
  intros E%bool_decide_eq_true_1. split; [by vm_compute; repeat constructor; vm_compute; set_solver|].
  intros name. by rewrite <- elem_of_dom, E, elem_of_list_to_set.
Qed.

Lemma sample_open_reach : rs_reach 5 0 0 ∅ (sample_app 0) sample_open.
Proof.
  apply (rr_load 5 sample_closed sample_open).
  - split; vm_compute; reflexivity.
  - unfold sample_open. apply (SE_pair (LoadLatestVersion sample_closed)). vm_compute. reflexivity.
Qed.

Lemma sample_commit_reach k n hs w rs db1 :
  rs_reach 5 k n hs w rs -> bool_decide (dom (rs_stores rs) = list_to_set sample_order) = true -> 0 <= k < 1000 ->
  (flush sample_order rs).2 = Ok tt -> rs_db (flush sample_order rs).1 = Some db1 ->
  encodable (pendingLog db1) ->
  (match (RootMulti.Commit sample_order unlocked rs).2 with Ok _ => true | _ => false end) = true ->
  let info := info_of (RootMulti.Commit sample_order unlocked rs).2 in
  rs_reach 5 (k + 1) n (<[ci_Version info := (w, info)]> hs) w (sample_commit rs).
Proof.
  intros Hr Hd Hk Hf Hdb He Hc info.
  apply (rr_commit 5 k n hs w rs (sample_commit rs) sample_order unlocked (flush sample_order rs).1 db1 info Hr).
  - by apply sample_iterates.
  - by apply SE_pair.
  - done.
  - done.
  - change (tree_version 0 5) with 4. unfold MaxInt64. lia.
  - by apply info_ok.
Qed.

Definition db_of (rs : RootMulti.Store lru mem_log unit) : DB lru mem_log := default closed_db (rs_db rs).
Lemma db_of_eq rs : (match rs_db rs with Some _ => true | None => false end) = true -> rs_db rs = Some (db_of rs).
Proof. unfold db_of. by destruct (rs_db rs). Qed.

Lemma sample_first_reach :
  rs_reach 5 1 1 (<[ci_Version sample_info := (sample_app 1, sample_info)]> ∅) (sample_app 1) (sample_commit sample_first).
Proof.
  apply (sample_commit_reach 0 1 ∅ (sample_app 1) sample_first (db_of (flush sample_order sample_first).1));
    [|vm_compute; reflexivity|lia|vm_compute; reflexivity|apply db_of_eq; vm_compute; reflexivity|vm_compute; reflexivity|vm_compute; reflexivity].
  eapply (rr_write 5 0 0 ∅ (sample_app 0) sample_open sample_first (str "bank") _ _ sample_open_reach); [vm_compute; reflexivity|].
  apply stored_ok. vm_compute. reflexivity.
Qed.

Definition sample_history : gmap Z (app * CommitInfo) :=
  <[ci_Version sample_info2 := (sample_app 2, sample_info2)]> (<[ci_Version sample_info := (sample_app 1, sample_info)]> ∅).

Lemma sample_done_reach : rs_reach 5 2 2 sample_history (sample_app 2) sample_done.
Proof.
  apply (sample_commit_reach 1 2 _ (sample_app 2) sample_second (db_of (flush sample_order sample_second).1));
    [|vm_compute; reflexivity|lia|vm_compute; reflexivity|apply db_of_eq; vm_compute; reflexivity|vm_compute; reflexivity|vm_compute; reflexivity].
  eapply (rr_write 5 1 1 _ (sample_app 1) _ sample_second (str "bank") _ _ sample_first_reach); [vm_compute; reflexivity|].
  apply stored_ok. vm_compute. reflexivity.
Qed.

Lemma sample_versions : ci_Version sample_info = 5 /\ ci_Version sample_info2 = 6.
Proof. split; vm_compute; reflexivity. Qed.

Lemma sample_history_5 : sample_history !! 5 = Some (sample_app 1, sample_info).
Proof.
  unfold sample_history. destruct sample_versions as [-> ->]. rewrite lookup_insert_ne by done. apply lookup_insert_eq.
Qed.
Lemma sample_history_6 : sample_history !! 6 = Some (sample_app 2, sample_info2).
Proof. unfold sample_history. destruct sample_versions as [_ ->]. apply lookup_insert_eq. Qed.


Lemma kv_map_inj (l1 l2 : list (bytes * bytes)) : kv_sorted l1 -> kv_sorted l2 -> kv_map l1 = kv_map l2 -> l1 = l2.
Proof.
  intros H1 H2 E. apply (sorted_by_unique fst); [done|done|].
  rewrite <- (map_to_list_to_map l1) by (by apply kv_sorted_NoDup).
  rewrite <- (map_to_list_to_map l2) by (by apply kv_sorted_NoDup). unfold kv_map in E. by rewrite E.
Qed.

Lemma query_subspace_correct_witness :
  exists resp bz,
    Query (fun _ => true) sample_done
      {| rq_Data := str "al"; rq_Path := str "/bank/subspace"; rq_Height := 0; rq_Prove := false |} = Ok resp /\
    rp_Value resp = Some bz /\ Pairs_Unmarshal bz = Ok [{| p_Key := str "alice"; p_Value := str "10" |}].
Proof.
  pose (l := [(str "alice", str "10"); (str "bob", str "7")]).
  assert (Hl : kv_sorted l) by (repeat constructor).
  assert (Hm : kv_map l = default ∅ (sample_app 2 !! str "bank")).
  { apply (bool_decide_eq_true_1 _). vm_compute. reflexivity. }
  destruct (query_subspace_correct 5 ltac:(unfold MaxInt64; lia) 2 2 sample_history (sample_app 2) sample_done (fun _ => true)
    6 0 (sample_app 2) sample_info2 (str "bank") (default ∅ (sample_app 2 !! str "bank")) (str "al"))
    as (resp & bz & l' & E & _ & Hv & Hu & Hs & Hl').
  - exact sample_done_reach.
  - lia.
  - split; [exact sample_history_6|vm_compute; reflexivity].
  - right. split; [lia|vm_compute; reflexivity].
  - apply default_ok. vm_compute. reflexivity.
  - apply (bool_decide_unpack _). vm_compute. reflexivity.
  - discriminate.
  - intros l' Hs Hl'. rewrite (kv_map_inj l' l Hs Hl (eq_trans Hl' (eq_sym Hm))). vm_compute. reflexivity.
  - exists resp, bz. split; [exact E|]. split; [exact Hv|]. rewrite Hu, (kv_map_inj l' l Hs Hl (eq_trans Hl' (eq_sym Hm))).
    vm_compute. reflexivity.
Defined.

