(* ===== verification/StateSyncProps.v ===== *)
(** * State sync of the root multistore

    A node that restores the snapshot streamed by another one has its application, its
    commit info and its hashes, and runs on from there. *)

From Stdlib Require Import Strings.Byte ZArith Lia.
From stdpp Require Import base list numbers strings gmap sorting.
From S2P Require Import Prelude Binary Proto ProtoInv ProtoCodec State Node NodeInv NodeIface Iterator Snapshot SnapshotWriter Export Import Cache Tree Wal.
From S2P Require Import Merkle IavlStore MultiTree MultiTreeInv MultiTreeSim MultiTreeSnapshot MultiTreeProps.
From S2P Require Import SnapshotDir SnapshotDirInv DB DBInv DBRecovery DBCrash DBTarget DBProps.
From S2P Require Import StateSync StateSyncInv QueryCache QueryCacheInv RootMulti RootMultiInv RootMultiRun RootMultiProps.
Local Open Scope Z_scope.

(** ** Streams *)

(** Messages that are the same once encoded: absent bytes are empty. *)
Definition same_msg (a b : SnapshotItem) : Prop :=
  match a, b with
  | SnapshotStore name, SnapshotStore name' => name = name'
  | SnapshotIAVL i, SnapshotIAVL j =>
      default [] (ii_Key i) = default [] (ii_Key j) /\ default [] (ii_Value i) = default [] (ii_Value j) /\
      ii_Version i = ii_Version j /\ ii_Height i = ii_Height j
  | SnapshotOther, SnapshotOther => True
  | _, _ => False
  end.

(** A stream without faults: messages up to the size limit of the reader are read in the
    order in which they were written, up to their encoding. *)
Class ProtoIOLaws (IO : Type) `{ProtoIO IO} := {
  unread : IO -> list SnapshotItem;
  within_limit : SnapshotItem -> Prop;
  WriteMsg_appends : forall m s, exists s', WriteMsg m s = Ok s' /\ unread s' = unread s ++ [m];
  ReadMsg_next : forall s m l, unread s = m :: l -> within_limit m ->
    exists m' s', ReadMsg s = Ok (m', s') /\ same_msg m m' /\ unread s' = l;
  ReadMsg_end : forall s, unread s = [] -> ReadMsg s = Err EOF
}.

(** A stream in memory, which has no absent bytes left when read. *)
Definition wire_bytes (o : option bytes) : option bytes := match o with Some [] => None | o => o end.
Definition wire (m : SnapshotItem) : SnapshotItem :=
  match m with
  | SnapshotIAVL i => SnapshotIAVL {| ii_Key := wire_bytes (ii_Key i); ii_Value := wire_bytes (ii_Value i);
                                      ii_Version := ii_Version i; ii_Height := ii_Height i |}
  | m => m
  end.
#[export] Instance list_io : ProtoIO (list SnapshotItem) := {|
  WriteMsg m s := Ok (s ++ [m]);
  ReadMsg s := match s with m :: s => Ok (wire m, s) | [] => Err EOF end
|}.
Lemma wire_bytes_same o : default [] o = default [] (wire_bytes o).
Proof. by destruct o as [[|]|]. Qed.

#[export] Instance list_io_laws : ProtoIOLaws (list SnapshotItem).
Proof.
  refine {| unread (s : list SnapshotItem) := s; within_limit _ := True |}.
  - intros m s. by exists (s ++ [m]).
  - intros s m l -> _. exists (wire m), l. split; [done|]. split; [|done].
    destruct m as [name|i|]; cbn; [done|by rewrite <- !wire_bytes_same|done].
  - by intros s ->.
Defined.

(** ** Sending and receiving *)

Section streams.
Context `{CacheLaws C} `{ProtoIOLaws IO}.
Implicit Types (t : MultiTree C) (l : list (NamedTree C)) (items : list export_item) (s : IO) (ex : MultiTreeExporter C).

(** An item that arrives for one that was sent. *)
Definition same_item (a b : export_item) : Prop :=
  match a, b with
  | ITree name, ITree name' => name = name'
  | INode n, INode n' => same_node n n'
  | _, _ => False
  end.

(** Nodes of a tree as they are exported. *)
Definition sent_node (n : ExportNode) : Prop := -128 <= en_Height n < 128 /\ (en_Height n = 0 -> is_Some (en_Value n)).
Definition sent_item (x : export_item) : Prop := match x with ITree _ => True | INode n => sent_node n end.

Lemma write_items_sends fuel ex s items :
  yields ex items -> (length items < fuel)%nat ->
  exists s', write_items fuel ex s = Ok s' /\ unread s' = unread s ++ map item_msg items.
Proof.
  revert fuel ex s. induction items as [|x items IH]; intros [|fuel] ex s Hy Hf; cbn [length] in Hf; try lia.
  - cbn [write_items yields] in *. rewrite Hy, bool_decide_true by done. exists s. by rewrite app_nil_r.
  - cbn [write_items yields] in *. destruct Hy as (ex' & -> & _ & Hy).
    destruct (WriteMsg_appends (item_msg x) s) as (s1 & -> & E1). cbn [mbind res_bind].
    destruct (IH fuel ex' s1 Hy) as (s' & -> & E'); [lia|]. exists s'. split; [done|].
    rewrite E', E1, <- app_assoc. done.
Qed.

(** The node made of a message that arrives. *)
Lemma item_node_same n i :
  sent_node n -> same_msg (item_msg (INode n)) (SnapshotIAVL i) ->
  ii_Height i <= 127 /\ same_node n (item_node i).
Proof.
  intros [Hh Hv] (Ek & Ev & Ever & Eh). cbn in Ek, Ev, Ever, Eh. rewrite <- Eh. split; [lia|].
  split; unfold item_node; cbn [en_Key en_Height en_Version en_Value].
  - done.
  - by rewrite <- Eh, i8_small.
  - done.
  - intros E0. rewrite <- Eh, i8_small, E0 by done. destruct (Hv E0) as [x Ex]. rewrite Ex in Ev |- *. simpl in *. congruence.
Qed.

(** Reading a stream up to its end is importing its items. *)
Lemma read_items_imports fuel s items mti :
  unread s = map item_msg items -> (length items < fuel)%nat -> Forall sent_item items ->
  Forall (fun x => within_limit (item_msg x)) items ->
  exists items', Forall2 same_item items items' /\
    forall mti', for_each importer_item items' mti = (mti', Ok tt) -> read_items fuel s mti = (mti', Ok None).
Proof.
  revert fuel s mti. induction items as [|x items IH]; intros [|fuel] s mti Es Hf Hs Hl; cbn [length] in Hf; try lia.
  - exists []. split; [done|]. cbn [map read_items] in *. intros mti' [= ->]. rewrite (ReadMsg_end s Es).
    by rewrite bool_decide_true.
  - apply Forall_cons in Hs as [Hx Hs]. apply Forall_cons in Hl as [Hlx Hl]. cbn [map] in Es.
    destruct (ReadMsg_next s _ _ Es Hlx) as (m' & s' & Er & Hm & Es').
    set (y := match m' with SnapshotStore name => ITree name | SnapshotIAVL i => INode (item_node i) | SnapshotOther => x end).
    destruct (importer_item y mti) as [mti1 r] eqn:Ey.
    destruct (IH fuel s' mti1 Es') as (items' & Hsame & Hread); [lia|done|done|].
    exists (y :: items'). split.
    + constructor; [|done]. subst y. destruct x as [name|n], m' as [name'|i|]; try done.
      by apply item_node_same.
    + intros mti' (mti2 & E1 & E2)%for_each_cons_ok. rewrite Ey in E1. injection E1 as -> ->.
      specialize (Hread mti' E2). cbn [read_items]. rewrite Er. subst y. destruct x as [name|n], m' as [name'|i|]; try done.
      * cbn [importer_item] in Ey. apply SE_bind_ok. eauto.
      * destruct (item_node_same n i Hx Hm) as [Hh _]. rewrite (proj2 (Z.ltb_ge _ _)) by done.
        cbn [importer_item] in Ey. apply SE_bind_ok. eauto.
Qed.

(** ** The items of a multi-tree *)

Lemma post_order_sent n : exportable n -> Forall sent_node (map export_node (post_order n)).
Proof.
  induction n as [v k x|h sz v k l IHl r IHr]; cbn [exportable post_order].
  - intros Hv. constructor; [|done]. split; [done|]. by exists x.
  - intros (Hh & Hv & Hl & Hr). rewrite !map_app, !Forall_app. split; [by apply IHl|]. split; [by apply IHr|].
    constructor; [|done]. unfold sent_node, export_node. cbn [en_Height en_Value Height]. split.
    + unfold i8. match goal with |- context [?a mod ?b] => pose proof (Z.mod_pos_bound a b ltac:(lia)) end. lia.
    + intros E. by destruct (i8_nonzero h Hh).
Qed.

Lemma export_items_sent l : Forall sendable l -> Forall sent_item (export_items l).
Proof.
  intros Hs. unfold export_items. apply Forall_concat, Forall_map. eapply Forall_impl; [exact Hs|].
  intros e He. unfold store_items. constructor; [done|]. apply Forall_map. unfold sendable in He.
  destruct (root (nt_Tree e)) as [n|]; cbn [export_list]; [|done].
  eapply Forall_impl; [by apply post_order_sent|]. done.
Qed.

Lemma post_order_length n : length (post_order n) = node_count n.
Proof.
  induction n as [|h sz v k l IHl r IHr]; cbn [post_order node_count]; [done|]. rewrite !length_app, IHl, IHr. cbn [length]. lia.
Qed.

Lemma export_items_length t : (length (export_items (trees t)) < items_fuel t)%nat.
Proof.
  unfold items_fuel. apply Nat.lt_succ_r. induction (trees t) as [|e l IH]; [done|].
  unfold export_items in *. cbn [map concat sum_list_with]. rewrite length_app. unfold store_items at 1. cbn [length].
  rewrite length_map. destruct (root (nt_Tree e)) as [n|]; cbn [export_list length]; [|lia].
  rewrite length_map, post_order_length. lia.
Qed.

(** Items that arrive for those of the stores. *)
Lemma received_stores l items :
  Forall2 same_item (export_items l) items -> exists stream, Forall2 received l stream /\ concat stream = items.
Proof.
  revert items. induction l as [|e l IH]; intros items Hi.
  { exists []. split; [done|]. by inversion Hi. }
  unfold export_items in Hi. cbn [map concat] in Hi. apply Forall2_app_inv_l in Hi as (i1 & i2 & H1' & H2' & ->).
  destruct (IH i2 H2') as (stream & Hr & <-). exists (i1 :: stream). split; [|done]. constructor; [|done].
  unfold store_items in H1'. apply Forall2_cons_inv_l in H1' as (y & i1' & Hy & Hn & ->).
  destruct y as [name|]; [|done]. simpl in Hy. subst name.
  assert (Hns : exists ns, i1' = map INode ns /\ Forall2 same_node (export_list (root (nt_Tree e))) ns).
  { clear -Hn. revert i1' Hn. induction (export_list (root (nt_Tree e))) as [|n ns IH]; intros i1' Hn; cbn [map] in Hn.
    - apply Forall2_nil_inv_l in Hn as ->. by exists [].
    - apply Forall2_cons_inv_l in Hn as (y & i1 & Hy & Hn & ->). destruct y as [|n']; [done|].
      destruct (IH i1 Hn) as (ns' & -> & Hs). exists (n' :: ns'). split; [done|]. by constructor. }
  destruct Hns as (ns & -> & Hs). by exists ns.
Qed.
End streams.

(** ** Clearing older snapshots *)

Lemma ClearSnapshotsBefore_spec (v : Z) (dir : DBDir) :
  0 <= v < 2 ^ 63 -> dir_ok dir -> no_tmp dir ->
  exists dir', ClearSnapshotsBefore v dir = (dir', Ok tt) /\ dir_ok dir' /\
    (forall name, stays v name -> dir' !! name = dir !! name) /\ (forall u, u ∈ snapshots dir' -> v <= u).
Proof.
  intros Hv Hd Ht. unfold ClearSnapshotsBefore. rewrite traverse_visit, i64_small by (done || lia).
  pose proof (snapshots_sorted dir Hd) as Hs.
  destruct (remove_visit (fun u => u <? v) false (snapshots dir) dir) as (dir' & E & Hsub & Hsame & Hgone);
    [by apply StronglySorted_lt_NoDup|done|by intros u ?%snapshots_elem|].
  exists dir'. split; [exact E|]. pose proof (dir_ok_sub _ _ Hsub Hd) as Hd'. split; [done|]. split.
  - intros name Hn. apply Hsame. intros u Hu Hlt%Z.ltb_lt. apply snapshots_elem in Hu as [Hu _]; [|done].
    destruct Hn as [->|[Hn _]]; [intros Ex%snapshotName_inj; lia|]. intros ->. rewrite snapshotName_is in Hn by lia. done.
  - intros u [Hu [m Hm]]%snapshots_elem; [|done]. destruct (Z.lt_ge_cases u v) as [Hlt|]; [|done]. exfalso.
    assert (Hin : u ∈ snapshots dir).
    { apply snapshots_elem; [done|]. split; [done|]. exists m. by apply (lookup_weaken _ _ _ _ Hm Hsub). }
    apply list_elem_of_lookup in Hin as [i Hi]. rewrite (Hgone i u Hi) in Hm; [done|]. intros j w Hj Hw.
    apply Z.ltb_lt. destruct (decide (j = i)) as [->|]; [congruence|].
    pose proof (StronglySorted_lookup Z.lt _ j i w u Hs Hw Hi ltac:(lia)). lia.
Qed.

(** ** The source *)

Section source.
Context `{CacheLaws C} `{WalLaws L}.
Implicit Types (t : MultiTree C) (dir : DBDir) (log : L).

(** A committed multi-tree that a snapshot and a stream can hold. *)
Record sync_source t : Prop := {
  ss_writable : mt_writable t;
  ss_committed : committed t;
  ss_version : 0 < Version t < MaxInt64;
  ss_stores : trees t <> [];
  ss_sendable : Forall sendable (trees t);
  ss_size : zlen (MultiTreeMetadata_bytes (mt_metadata (imported t))) < 2 ^ 63
}.

Lemma imported_writable t : sync_source t -> mt_writable (imported t).
Proof.
  intros [[[Hs Hx Hv Ht] Htr Hn Hc _] _ Hver _ _ Hz]. split; try done. split; try done.
  - change (Version (imported t)) with (Version t). change (initialVersion (imported t)) with (Version t + 1).
    split; [unfold MaxInt64 in *; lia|]. split; [unfold MaxInt64 in *; lia|right; lia].
  - change (trees (imported t)) with (trees t). eapply Forall_impl; [exact Ht|]. intros e ->.
    unfold tree_version. change (Version (imported t)) with (Version t). by rewrite !(proj2 (Z.eqb_neq (Version t) 0)) by lia.
Qed.

Lemma sync_source_ok t : sync_source t -> sync_ok t.
Proof. intros Hs. assert (Hw := imported_writable t Hs). by destruct Hs. Qed.

(** The directory has the snapshot of a source. *)
Definition has_snapshot dir t : Prop := exists ctx m, (forall name i, ctx name i = None) /\
  WriteSnapshotWithContext ctx ∅ t = Ok m /\ dir !! snapshotName (Version t) = Some (Sub m).

Lemma seek_exact dir v : dir_ok dir -> 0 <= v <= MaxInt64 -> v ∈ snapshots dir -> seekSnapshot dir v = Ok v.
Proof.
  intros Hd Hv Hin. rewrite seekSnapshot_find by done.
  pose proof (find_reverse_max (fun u => u <=? v) (snapshots dir) (snapshots_sorted dir Hd)) as Hf.
  destruct (List.find _ _) as [u|].
  - destruct Hf as (_ & Hle%Z.leb_le & Hmax). specialize (Hmax v Hin (proj2 (Z.leb_le v v) (Z.le_refl v))). f_equal. lia.
  - specialize (Hf v Hin). simpl in Hf. rewrite Z.leb_refl in Hf. done.
Qed.

(** Both ways of opening the exporter load the snapshot. *)
Lemma exporter_opens t dir log (support : bool) :
  sync_source t -> dir_ok dir -> has_snapshot dir t ->
  (support = true \/ exists current, currentVersion dir = Ok current /\ Version t <= current) ->
  exists t0, NewMultiTreeExporter dir log (Version t) support = Ok {| me_mtree := t0; iTree := 0; me_nodes := None |} /\
    agrees t t0 /\ Forall faithful (trees t0).
Proof.
  intros Hsrc Hd (ctx & m & Hctx & Ew & Em) Hsup. pose proof (ss_version t Hsrc) as Hv.
  destruct (write_load ctx t true 0 (ss_writable t Hsrc) Hctx) as (m' & t0 & Ew' & El & Hs & Hi & _).
  rewrite Ew in Ew'. injection Ew' as <-.
  pose proof (write_load_faithful ctx t true 0 m t0 (ss_writable t Hsrc) Hctx Ew El) as Hf.
  exists t0. split; [|by split].
  unfold NewMultiTreeExporter. rewrite (proj2 (Z.ltb_ge _ _)) by (unfold MaxInt64 in *; lia). destruct support.
  - assert (Eload : Load (C := C) dir log (export_options (Version t)) = Ok
      {| db_tree := t0; db_dir := dir; readOnly := true; snapshotKeepRecent := 0;
         snapshotInterval := DefaultSnapshotInterval; db_wal := Some log; walChanSize := 0; walChan := None;
         walQuit := None; pendingLog := WALEntry_zero; snapshotRewrite := None |}); [|by rewrite Eload].
    unfold Load, Validate, export_options. cbn [ReadOnly CreateIfMissing LoadForOverwriting InitialVersion TargetVersion andb].
    change (MaxInt64 <? 0) with false. rewrite (proj2 (Z.ltb_ge MaxInt64 _)) by lia. cbn [mbind res_bind].
    rewrite (proj2 (Z.ltb_lt 0 (Version t))) by lia. rewrite seek_exact; [|done|unfold MaxInt64 in *; lia|].
    + cbn [mbind res_bind]. unfold open_dir. rewrite Em. cbn [mbind res_bind ZeroCopy CacheSize]. rewrite El.
      cbn [mbind res_bind]. rewrite <- (sim_version _ _ Hs). unfold MaxInt64 in Hv. rewrite i64_small by lia.
      rewrite (proj2 (Z.eqb_neq (Version t) 0)), (Z.ltb_irrefl (Version t)) by lia. done.
    + apply snapshots_elem; [done|]. unfold MaxInt64 in Hv. split; [lia|eauto].
  - destruct Hsup as [|(current & -> & Hcur)]; [done|]. cbn [mbind res_bind]. unfold MaxInt64 in Hv. rewrite i64_small by lia.
    rewrite (proj2 (Z.ltb_ge current _)) by done. unfold open_dir. rewrite Em. cbn [mbind res_bind]. by rewrite El.
Qed.
End source.

(** ** Snapshot and restore *)

Section restore.
Context `{CacheLaws C} `{WalLaws L} `{Ics23Ops} `{PrefixEndOps} {FL : Type} `{ProtoIOLaws IO}.
Implicit Types (t : MultiTree C) (db : DB C L) (dir : DBDir) (log : L) (rs tgt : RootMulti.Store C L FL) (s : IO).

Lemma export_items_same l l' : Forall2 same_entry l l' -> export_items (C := C) l' = export_items l.
Proof.
  induction 1 as [|e e' l l' (Hn & _ & Hr) Hl IH]; [done|]. unfold export_items in *. cbn [map concat]. rewrite IH.
  f_equal. unfold store_items. by rewrite Hn, Hr.
Qed.

(** A root multistore that has the snapshot of [t] and exports nothing. *)
Record snapshotting rs t : Prop := {
  sn_source : sync_source t;
  sn_dir : dir_ok (files rs).1;
  sn_snapshot : has_snapshot (files rs).1 t;
  sn_support : supportExportNonSnapshotVersion rs = true \/
    exists current, currentVersion (files rs).1 = Ok current /\ Version t <= current;
  sn_exporter : exporter (queryCache rs) = None
}.

Lemma Snapshot_sends rs t acquire fl s :
  snapshotting rs t -> acquire (Version t) = Ok fl ->
  exists rs' s', Snapshot acquire (Version t) s rs = (rs', Ok s') /\
    unread s' = unread s ++ map item_msg (export_items (trees t)).
Proof.
  intros [Hsrc Hd Hsn Hsup Hex] Hacq. pose proof (ss_version t Hsrc) as Hv. unfold MaxInt64 in Hv.
  destruct (files rs) as [dir log] eqn:Ef. cbn [fst] in *.
  destruct (exporter_opens t dir log _ Hsrc Hd Hsn Hsup) as (t0 & Ee & [Hs _] & Hfa).
  pose proof (exporter_yields t0 0 None Hfa (or_introl eq_refl)) as Hy. rewrite drop_0 in Hy.
  destruct (write_items_sends (items_fuel t0) _ s _ Hy (export_items_length t0)) as (s' & Ew & Eu).
  eexists _, s'. split; [|by rewrite Eu, (export_items_same _ _ (sim_trees _ _ Hs))].
  unfold Snapshot. rewrite (proj2 (Z.ltb_ge _ _)) by (unfold MaxInt64; lia). rewrite i64_small by lia.
  apply SE_bind_ok. exists rs, fl. split; [by rewrite Hacq|]. rewrite Ef, Ee. cbn [mbind res_bind me_mtree].
  rewrite Ew. cbn [mbind res_bind]. unfold SetSnapshotExporter. rewrite (proj2 (Z.leb_gt _ _)) by lia. by rewrite Hex.
Qed.

(** The mounted stores are there. *)
Definition mountable tgt t : Prop := forall name params, storesParams tgt !! name = Some params ->
  match sp_typ params with
  | StoreTypeIAVL => is_Some (stores t !! name)
  | StoreTypeTransient => sp_key params = TransientStoreKey
  | StoreTypeMemory => sp_key params = MemoryStoreKey
  | _ => False
  end.

(** A root multistore that a snapshot of height [v] can be restored to. *)
Record restorable tgt (v : Z) : Prop := {
  rt_dir : fresh (rs_disk (close_db tgt).1).1 v;
  rt_names : dir_ok (rs_disk (close_db tgt).1).1;
  rt_tmp : no_tmp (rs_disk (close_db tgt).1).1;
  rt_log : view (rs_disk (close_db tgt).1).2 = {| wv_first := 1; wv_entries := [] |};
  rt_close : (close_db tgt).2 = Ok tt;
  rt_opts : Validate (load_opts (rs_opts tgt) (mounted tgt) 0) = Ok tt
}.

Lemma close_db_frame tgt tgt1 :
  close_db tgt = (tgt1, Ok tt) ->
  rs_db tgt1 = None /\ rs_opts tgt1 = rs_opts tgt /\ storesParams tgt1 = storesParams tgt.
Proof.
  unfold close_db. intros E. destruct (rs_db tgt) as [db|] eqn:Edb; [|by injection E as <-].
  destruct (waitAsyncCommit db) as [db1 r1]. destruct (DB.Close db) as [db2 [[]|e|]]; [|done|done]. by injection E as <-.
Qed.

Lemma load_stores_ok db l :
  (forall name params, (name, params) ∈ l -> exists st, loadCommitStoreFromParams db name params = Ok st) ->
  exists m, load_stores db l = Ok m.
Proof.
  induction l as [|[name params] l IH]; intros Hl; [by exists ∅|]. cbn [load_stores].
  destruct (Hl name params) as [st ->]; [by left|]. destruct IH as [m ->]; [intros n p Hp; apply Hl; by right|].
  eexists. reflexivity.
Qed.

Lemma mountable_loads tgt t db :
  mt_ok (db_tree db) -> mt_sim t (db_tree db) -> mountable tgt t -> exists m, load_stores db (storesKeys tgt) = Ok m.
Proof.
  intros Hok Hs Hm. apply load_stores_ok. intros name params Hin. unfold storesKeys in Hin.
  rewrite SliceStable_perm in Hin. apply elem_of_map_to_list in Hin. specialize (Hm name params Hin).
  unfold loadCommitStoreFromParams. destruct (sp_typ params); try done.
  - rewrite TreeByName_stores by done. cbn [mbind res_bind]. destruct Hm as [tr Htr].
    pose proof (stores_same t (db_tree db) name Hs) as Ho. rewrite Htr in Ho. inversion Ho as [a b _ E1 E2|]. eauto.
  - rewrite Hm. eauto.
  - rewrite Hm. eauto.
Qed.

(** What is sent for a multi-tree, within the limit of the reader. *)
Definition sendable_stream t : Prop := Forall (fun x => within_limit (item_msg x)) (export_items (trees t)).

(** The import of the stream of a multi-tree writes its snapshot. *)
Lemma restore_writes t s dir fuel :
  sync_ok t -> fresh dir (Version t) -> unread s = map item_msg (export_items (trees t)) ->
  sendable_stream t -> (length (export_items (trees t)) < fuel)%nat ->
  exists m, restore fuel (Version t) s dir = (with_snapshot (Version t) m dir, Ok None) /\
    WriteSnapshotWithContext (fun _ => Background) ∅ (imported t) = Ok m.
Proof.
  intros Hok Hf Hu Hl Hfuel. pose proof (so_version t Hok) as Hv. unfold MaxInt64 in Hv.
  set (mti0 := {| mi_dir := dir; mi_height := Version t; mi_importer := None |}).
  destruct (read_items_imports fuel s (export_items (trees t)) mti0 Hu Hfuel) as (items & Hsame & Hread);
    [by apply export_items_sent, so_sendable|done|].
  destruct (received_stores (trees t) items Hsame) as (stream & Hr & <-).
  destruct (import_received t stream dir Hok Hf Hr) as (mti & m & E & Hm & Hi & Ew).
  apply SE_bind_ok in E as (mti1 & [] & E1 & E2). exists m. split; [|done]. unfold restore, NewMultiTreeImporter.
  rewrite (proj2 (Z.ltb_ge _ _)) by (unfold MaxInt64; lia). rewrite i64_small by lia. fold mti0.
  assert (Er : (item ← read_items fuel s; importer_Finalize ;; mret item) mti0 = (mti, Ok None)).
  { apply SE_bind_ok. exists mti1, None. split; [by apply Hread|]. apply SE_bind_ok. by exists mti, tt. }
  rewrite Er. unfold close_importer. rewrite Hi. by rewrite Hm.
Qed.

Lemma imported_hist t : sync_ok t -> hist_ok (imported t) [].
Proof.
  intros Hok. pose proof (so_version t Hok) as Hv.
  split; [apply (mw_ok _ (so_writable t Hok))|constructor| |by exists (imported t)].
  change (zlen []) with 0. unfold tree_version. change (Version (imported t)) with (Version t).
  rewrite (proj2 (Z.eqb_neq (Version t) 0)) by lia. cbn [andb]. lia.
Qed.

Lemma imported_log t log : sync_ok t ->
  view log = {| wv_first := 1; wv_entries := [] |} -> log_ok (imported t) [] log [] 0 0.
Proof.
  intros Hok Hl. pose proof (so_version t Hok) as Hv. split; [done| |done]. rewrite Hl. f_equal.
  unfold s0, saved. change (Version (imported t)) with (Version t). change (initialVersion (imported t)) with (Version t + 1).
  rewrite (proj2 (Z.eqb_neq (Version t) 0)), (proj2 (Z.ltb_lt 1 _)) by lia. lia.
Qed.

(** Loading the snapshot of an import from an empty log. *)
Lemma load_imported t dir log opts m :
  sync_ok t -> dir_ok dir -> view log = {| wv_first := 1; wv_entries := [] |} -> Validate opts = Ok tt -> TargetVersion opts = 0 ->
  WriteSnapshotWithContext (fun _ => Background) ∅ (imported t) = Ok m ->
  dir !! currentName = Some (Link (snapshotName (Version t))) -> dir !! snapshotName (Version t) = Some (Sub m) ->
  exists db md, Load dir log opts = Ok db /\ agrees (imported t) (db_tree db) /\ db_ok (imported t) [] db /\
    ReadMetadata (db_dir db) = Ok md.
Proof.
  intros Hok Hd Hlog Hval Htar Ew Hc Hs. pose proof (so_version t Hok) as Hv.
  assert (Hsn : snap_ok (imported t) [] dir 0).
  { exists (imported t), m. split; [by split|]. split; [done|]. split; [done|]. intros zc size.
    destruct (write_load (fun _ => Background) (imported t) zc size (so_writable t Hok)) as (m' & t' & Ew' & El & Hsim & Hi & _); [done|].
    rewrite Ew in Ew'. injection Ew' as <-. by exists t'. }
  assert (Hl : latest (no_initial opts)) by done.
  destruct (load_recovers _ [] dir log [] 0 0 0 _ (imported_hist t Hok) (imported_log t log Hok Hlog) Hsn (le_n _) Hl)
    as (g & db & [_ Hg] & E & Ha & _ & _ & _ & _ & Hsn' & _). cbn in Hg. injection Hg as <-.
  assert (Hve : Version (db_tree db) = Version t) by (destruct Ha as [Hsim _]; by rewrite <- (sim_version _ _ Hsim)).
  destruct Hsn' as (g & md & [_ Hg] & Hc' & Hs' & Hload). cbn in Hg. injection Hg as <-.
  destruct (Hload false 0) as (t' & El & _). unfold LoadMultiTree in El. apply res_bind_ok in El as (md' & Emd & _).
  exists db, md'. split; [|split; [done|split]].
  - rewrite Load_initial, E. cbn [mbind res_bind]. rewrite Hve, (proj2 (Z.eqb_neq (Version t) 0)) by lia.
    by rewrite andb_false_r.
  - apply (loaded_ok _ [] dir log [] 0 0 0 (no_initial opts) db (imported_hist t Hok) (imported_log t log Hok Hlog) Hsn Hd
      (le_n _) Hl E). rewrite Hve. unfold s0. change (Version (imported t)) with (Version t). lia.
  - unfold ReadMetadata, open_dir. rewrite Hc', Hs'. done.
Qed.

(** The state after a restore: the database runs on from the imported multi-tree, and
    queries read it. *)
Record restored tgt t db : Prop := {
  rd_db : rs_db tgt = Some db;
  rd_tree : agrees (imported t) (db_tree db);
  rd_ok : db_ok (imported t) [] db;
  rd_info : rs_lastCommitInfo tgt = Some (lastCommitInfo t);
  rd_query : forall height, height <= 0 \/ height = Version t ->
    exists t', historical tgt height = Ok t' /\ agrees (imported t) t'
}.

Lemma published_once opts (c c' : queryDBCache C FL) t v :
  0 < v -> mt_ok t -> AddHistoricalVersion opts t v (reset c) = Ok c' ->
  qlatest c' = v /\ exists t', GetHistoricalTrees c' v = (Some t', v) /\ agrees t t'.
Proof.
  intros Hv Ht E. destruct (AddHistoricalVersion_rep opts t v (reset c) ∅ (reset_rep opts c)) as (c1 & E1 & Hrep & _).
  rewrite E in E1. injection E1 as <-. unfold publish in Hrep. rewrite (proj2 (Z.leb_gt v 0)) in Hrep by done.
  assert (Hw : window (C := C) opts ∅ v = None) by (unfold window; by destruct (_ <? _)). rewrite Hw in Hrep.
  pose proof (cr_latest _ _ _ Hrep) as Hn.
  assert (Hq : qlatest c' = v).
  { destruct Hn as [[E0 _]|[[x Hx] _]]; [by apply insert_non_empty in E0|].
    by apply lookup_insert_Some in Hx as [[-> _]|[_ Hx]]; [|rewrite lookup_empty in Hx]. }
  split; [done|]. rewrite (GetHistoricalTrees_spec opts c' _ v Hrep), Hq. unfold lookup_spec.
  rewrite (window_recent opts _ v v), lookup_insert_eq; [|by rewrite Hq in Hn|rewrite lookup_insert_eq; eauto|].
  - eexists. split; [reflexivity|]. pose proof (Copy_agrees t 0 Ht) as Ha. etrans; [exact Ha|].
    apply Copy_agrees. destruct Ha as [Hs _]. by apply (mt_ok_sim t).
  - pose proof (CacheLimit_pos opts). lia.
Qed.

Lemma LoadLatest_imported tgt t dir log m :
  rs_db tgt = None -> rs_disk tgt = (dir, log) -> sync_ok t -> dir_ok dir ->
  view log = {| wv_first := 1; wv_entries := [] |} -> Validate (load_opts (rs_opts tgt) (mounted tgt) 0) = Ok tt ->
  WriteSnapshotWithContext (fun _ => Background) ∅ (imported t) = Ok m ->
  dir !! currentName = Some (Link (snapshotName (Version t))) -> dir !! snapshotName (Version t) = Some (Sub m) ->
  mountable tgt t ->
  exists tgt' db, LoadLatestVersion tgt = (tgt', Ok tt) /\ restored tgt' t db.
Proof.
  intros Hdb Hdisk Hok Hd Hlog Hval Ew Hc Hs Hm. pose proof (so_version t Hok) as Hv.
  destruct (load_imported t dir log _ m Hok Hd Hlog Hval eq_refl Ew Hc Hs) as (db & md & El & Ha & Hdbok & Emd).
  assert (Ht : mt_ok (db_tree db)) by (destruct Ha as [Hsim _]; apply (mt_ok_sim (imported t)); [apply (mw_ok _ (so_writable t Hok))|done]).
  assert (Hinfo : lastCommitInfo (db_tree db) = lastCommitInfo t) by apply Ha.
  assert (Hve : Version (db_tree db) = Version t) by (unfold Version; by rewrite Hinfo).
  destruct (mountable_loads tgt (imported t) db Ht (proj1 Ha) Hm) as [st Est].
  set (opts := with_version_opts (rs_opts tgt) (u64 (md_InitialVersion md))).
  destruct (AddHistoricalVersion_rep opts (db_tree db) (Version t) (reset (queryCache tgt)) ∅ (reset_rep opts _)) as (c & Ec & _ & _).
  destruct (published_once opts (queryCache tgt) c (db_tree db) (Version t)) as (Hq & t' & Eg & Ha'); [lia|done|done|].
  pose (tgt' := with_rs_cache (with_rs_info (with_rs_stores (with_rs_db (with_rs_opts (with_rs_cache tgt (reset (queryCache tgt))) opts)
    (Some db)) st) (lastCommitInfo t)) c).
  exists tgt', db. split; [|split; try done].
  - unfold LoadLatestVersion, LoadVersionAndUpgrade. apply SE_bind_ok. do 2 eexists. split; [reflexivity|].
    apply SE_bind_ok. do 2 eexists. split; [reflexivity|]. cbn zeta. unfold files. cbn [rs_db with_rs_cache rs_disk].
    rewrite Hdb, Hdisk. apply SE_bind_ok. eexists _, db. split; [unfold lift; by rewrite <- El|].
    apply SE_bind_ok. eexists _, md. split; [unfold lift; by rewrite Emd|].
    apply SE_bind_ok. do 2 eexists. split; [reflexivity|]. change (0 <? zlen (tree_upgrades None)) with false.
    apply SE_bind_ok. do 2 eexists. split; [reflexivity|]. apply SE_bind_ok. eexists _, st. split; [unfold lift; by rewrite <- Est|].
    rewrite Hve, (proj2 (Z.eqb_neq (Version t) 0)), Hinfo, convertCommitInfo_id by lia. cbn [negb].
    apply SE_bind_ok. do 2 eexists. split; [reflexivity|]. change (ci_Version (lastCommitInfo t)) with (Version t).
    rewrite (proj2 (Z.ltb_lt 0 (Version t))) by lia. unfold add_historical.
    cbn [rs_opts queryCache with_rs_info with_rs_stores with_rs_db with_rs_opts with_rs_cache]. fold opts. by rewrite Ec.
  - intros height Hh. exists t'. split; [|by etrans]. unfold historical, LatestVersion.
    cbn [tgt' queryCache with_rs_cache]. rewrite Hq, (proj2 (Z.ltb_lt 0 (Version t))) by lia. cbn [mbind res_bind].
    assert (Hx : (Version t <? height) = false /\ (if height <=? 0 then Version t else height) = Version t).
    { destruct Hh as [Hz| ->]; [rewrite (proj2 (Z.ltb_ge _ _)), (proj2 (Z.leb_le height 0)) by lia|
        rewrite Z.ltb_irrefl, (proj2 (Z.leb_gt _ _)) by lia]; done. }
    destruct Hx as [-> ->]. by rewrite Eg.
Qed.

Lemma Restore_receives tgt t s fuel :
  restorable tgt (Version t) -> sync_ok t -> mountable tgt t -> unread s = map item_msg (export_items (trees t)) ->
  sendable_stream t -> (length (export_items (trees t)) < fuel)%nat ->
  exists tgt' db, Restore fuel (Version t) s tgt = (tgt', Ok None) /\ restored tgt' t db.
Proof.
  intros [Hf Hd Htmp Hlog Hcl Hval] Hok Hm Hu Hl Hfuel. pose proof (so_version t Hok) as Hv. unfold MaxInt64 in Hv.
  destruct (close_db tgt) as [tgt1 r] eqn:Ecl. cbn [fst snd] in *. subst r.
  destruct (close_db_frame tgt tgt1 Ecl) as (Hdb1 & Hopts1 & Hp1).
  destruct (rs_disk tgt1) as [dir log] eqn:Edisk. cbn [fst snd] in *.
  destruct (restore_writes t s dir fuel Hok Hf Hu Hl Hfuel) as (m & Er & Ew).
  set (dir1 := with_snapshot (Version t) m dir) in *.
  assert (Hd1 : dir_ok dir1).
  { apply dir_ok_insert; [|done]. apply dir_ok_insert; [done|]. intros _. exists (Version t). split; [lia|done]. }
  assert (Htmp1 : no_tmp dir1).
  { intros u Hu0. unfold dir1, with_snapshot. rewrite !lookup_insert_ne; [by apply Htmp| |].
    - by apply tmp_snapshotName; lia.
    - intros E. by apply (tmp_current u). }
  destruct (ClearSnapshotsBefore_spec (Version t) dir1 ltac:(lia) Hd1 Htmp1) as (dir2 & Ec & Hd2 & Hst & _).
  assert (Hc2 : dir2 !! currentName = Some (Link (snapshotName (Version t)))).
  { rewrite Hst by (right; split; vm_compute; reflexivity). apply lookup_insert_eq. }
  assert (Hs2 : dir2 !! snapshotName (Version t) = Some (Sub m)).
  { rewrite Hst by (by left). unfold dir1, with_snapshot.
    rewrite lookup_insert_ne, lookup_insert_eq; [done|]. symmetry. apply snapshotName_current. lia. }
  pose (tgt2 := with_rs_disk (with_rs_disk tgt1 (dir1, log)) (dir2, log)).
  destruct (LoadLatest_imported tgt2 t dir2 log m) as (tgt' & db & El & Hrd); try done.
  { cbn [tgt2 rs_opts with_rs_disk]. unfold mounted, storesKeys in *. cbn [tgt2 storesParams with_rs_disk]. by rewrite Hopts1, Hp1. }
  { intros name params. cbn [tgt2 storesParams with_rs_disk]. rewrite Hp1. apply Hm. }
  exists tgt', db. split; [|done]. unfold Restore. apply SE_bind_ok. exists tgt1, tt. split; [done|].
  apply SE_bind_ok. exists (with_rs_disk tgt1 (dir1, log)), None. split; [unfold on_disk_dir; by rewrite Edisk, Er|].
  apply SE_bind_ok. exists tgt2, tt. split; [unfold on_disk_dir; cbn [rs_disk with_rs_disk]; by rewrite Ec|].
  apply SE_bind_ok. by exists tgt', tt.
Qed.

(** C3: a node that has the snapshot of a multi-tree streams it, whichever way the exporter
    is opened, and a node with an empty log that restores the stream has the same stores with
    the same contents, the same commit info and the queries of that height; its database is
    in a state from which commits, crashes and recoveries go on, with the next version as its
    initial one. *)
Theorem state_sync_correct rs tgt t acquire fl s fuel :
  snapshotting rs t -> acquire (Version t) = Ok fl -> unread s = [] -> sendable_stream t ->
  restorable tgt (Version t) -> mountable tgt t -> (length (export_items (trees t)) < fuel)%nat ->
  exists rs' s' tgt' db,
    Snapshot acquire (Version t) s rs = (rs', Ok s') /\ Restore fuel (Version t) s' tgt = (tgt', Ok None) /\
    restored tgt' t db.
Proof.
  intros Hsn Hacq Hs Hl Hr Hm Hf. destruct (Snapshot_sends rs t acquire fl s Hsn Hacq) as (rs' & s' & E & Hu).
  rewrite Hs in Hu. destruct (Restore_receives tgt t s' fuel Hr (sync_source_ok t (sn_source _ _ Hsn)) Hm Hu Hl Hf)
    as (tgt' & db & E' & Hrd). by exists rs', s', tgt', db.
Qed.
End restore.

(** ** A sample state sync *)

Fixpoint exportableb (n : Node) : bool :=
  match n with
  | Leaf v _ _ => (0 <=? v) && (v <=? MaxInt64)
  | Branch h _ v _ l r => (0 <? h) && (h <? 256) && ((0 <=? v) && (v <=? MaxInt64)) && exportableb l && exportableb r
  end.
Lemma exportableb_sound n : exportableb n = true -> exportable n.
Proof.
  induction n as [v k x|h sz v k l IHl r IHr]; cbn [exportableb exportable]; rewrite !andb_true_iff, ?Z.ltb_lt, !Z.leb_le; naive_solver.
Qed.
Definition sendableb (e : NamedTree lru) : bool :=
  match root (nt_Tree e) with None => true | Some n => exportableb n end.
Lemma sendableb_sound l : forallb sendableb l = true -> Forall sendable l.
Proof.
  intros Hl. apply Is_true_true, forallb_True in Hl. eapply Forall_impl; [exact Hl|]. intros e He. unfold sendable, sendableb in *. destruct (root (nt_Tree e)); [|done]. apply exportableb_sound. by apply Is_true_true.
Qed.

Lemma sample_source : sync_source sample_mt.
Proof.
  split.
  - exact sample_mt_writable.
  - by apply (commit_block_committed sample_block1 sample_genesis), sample_commit1.
  - vm_compute. split; reflexivity.
  - vm_compute. discriminate.
  - apply sendableb_sound. vm_compute. reflexivity.
  - vm_compute. reflexivity.
Qed.

(** The files of the sample's snapshot, and a node that has it. *)
Definition written (r : res MDir) : MDir := match r with Ok m => m | _ => ∅ end.
Lemma written_ok r : (match r with Ok _ => true | _ => false end) = true -> r = Ok (written r).
Proof. by destruct r. Qed.
Definition snapshot_files : MDir := written (WriteSnapshotWithContext (fun _ => Background) ∅ sample_mt).
Definition sample_provider : RootMulti.Store lru mem_log unit :=
  with_rs_disk sample_closed (with_snapshot 5 snapshot_files ∅, no_log).

Lemma sample_snapshotting : snapshotting sample_provider sample_mt.
Proof.
  split.
  - exact sample_source.
  - apply dir_ok_insert; [|done]. apply dir_ok_insert; [|intros _; exists 5; split; [lia|done]].
    intros name m E. by rewrite lookup_empty in E.
  - exists (fun _ => Background), snapshot_files. split; [done|].
    split; [apply written_ok; vm_compute; reflexivity|]. rewrite (proj1 sample_mt_version).
    cbn [sample_provider files rs_db rs_disk with_rs_disk sample_closed fst]. unfold with_snapshot.
    rewrite lookup_insert_ne by by apply not_eq_sym, snapshotName_current. apply lookup_insert_eq.
  - by left.
  - done.
Qed.

(** A new node has the link and the snapshot it points to. *)
Definition new_dir : DBDir := (rs_disk (close_db sample_open).1).1.

Lemma new_dir_names name x : new_dir !! name = Some x -> name = currentName \/ name = snapshotName 0.
Proof.
  assert (E : bool_decide (dom new_dir = {[currentName; snapshotName 0]}) = true) by (vm_compute; reflexivity).
  apply bool_decide_eq_true_1 in E. intros Hx. assert (Hd : name ∈ dom new_dir) by (apply elem_of_dom; eauto).
  rewrite E in Hd. by apply elem_of_union in Hd as [->%elem_of_singleton| ->%elem_of_singleton]; [left|right].
Qed.

Lemma new_dir_absent name : name <> currentName -> name <> snapshotName 0 -> new_dir !! name = None.
Proof. intros Hc Hs. destruct (new_dir !! name) as [x|] eqn:E; [|done]. by apply new_dir_names in E as [?|?]. Qed.

Lemma sample_restorable : restorable sample_open (Version sample_mt).
Proof.
  rewrite (proj1 sample_mt_version). split; fold new_dir.
  - split; [apply new_dir_absent; vm_compute; discriminate..|]. intros m.
    assert (E : (match new_dir !! currentName with Some (Sub _) => true | _ => false end) = false) by (vm_compute; reflexivity).
    intros E'. rewrite E' in E. discriminate E.
  - intros name m E Hn. apply new_dir_names in E as [->| ->]; [by vm_compute in Hn|]. exists 0. split; [lia|done].
  - intros u Hu. apply new_dir_absent; [by apply tmp_current|].
    intros E. by apply (tmp_snapshotName 0 u).
  - vm_compute. reflexivity.
  - vm_compute. reflexivity.
  - vm_compute. reflexivity.
Qed.

Lemma sample_mountable : mountable sample_open sample_mt.
Proof.
  intros name params E. change (storesParams sample_open) with sample_params in E. unfold sample_params in E.
  apply lookup_insert_Some in E as [[<- <-]|[_ E]]; [eexists; vm_compute; reflexivity|].
  apply lookup_insert_Some in E as [[<- <-]|[_ E]]; [eexists; vm_compute; reflexivity|].
  apply lookup_insert_Some in E as [[<- <-]|[_ E]]; [done|]. by rewrite lookup_empty in E.
Qed.

Lemma state_sync_correct_witness :
  exists rs' s' tgt' db,
    Snapshot (fun _ => Ok tt) 5 [] sample_provider = (rs', Ok s') /\ Restore 100 5 s' sample_open = (tgt', Ok None) /\
    rs_db tgt' = Some db /\ Version (db_tree db) = 5 /\ lastCommitInfo (db_tree db) = lastCommitInfo sample_mt.
Proof.
  destruct (state_sync_correct (IO := list SnapshotItem) sample_provider sample_open sample_mt (fun _ => Ok tt) tt [] 100
    sample_snapshotting) as (rs' & s' & tgt' & db & E & E' & [Hdb [Hs Hi] _ _ _]).
  - reflexivity.
  - reflexivity.
  - apply Forall_true. done.
  - exact sample_restorable.
  - exact sample_mountable.
  - apply Nat.ltb_lt. vm_compute. reflexivity.
  - exists rs', s', tgt', db. split; [exact E|]. split; [exact E'|]. split; [exact Hdb|].
    split; [|exact Hi]. rewrite <- (sim_version _ _ Hs). vm_compute. reflexivity.
Defined.
