(* ===== verification/Codec.v ===== *)
(** * Decoders of self-delimiting formats

    A decoder takes the bytes a reader has left.  It decodes [bz] to [a] when it reads [a]
    off every stream that starts with [bz], and returns an error on a stream that ends
    inside of [bz].  The decoders of a sequence decode the concatenation. *)

From Stdlib Require Import Strings.Byte ZArith Lia.
From stdpp Require Import base list numbers strings.
From S2P Require Import Prelude Binary.
Local Open Scope Z_scope.

(** The largest allocation of the runtime on 64-bit machines; [make] panics beyond it. *)
Definition maxAlloc : Z := 2 ^ 48.
Definition make_bytes (n : Z) : res unit := if maxAlloc <? n then Panic else Ok tt.

Create HintDb codec.

Definition fails {A} (r : res A) : Prop := exists e, r = Err e.

Record decodes {A} (dec : bytes -> res (A * bytes)) (bz : bytes) (a : A) : Prop := {
  dec_app : forall rest, dec (bz ++ rest) = Ok (a, rest);
  dec_cut : forall r s, bz = r ++ s -> s <> [] -> fails (dec r)
}.

Lemma decodes_ret {A} (a : A) : decodes (fun r => Ok (a, r)) [] a.
Proof. split; [done|]. intros r s E Hs. by apply eq_sym, app_eq_nil in E as [_ ->]. Qed.

(** A stream that ends in the second part of a sequence has the whole first part. *)
Lemma app_cut (b1 b2 r s : bytes) :
  b1 ++ b2 = r ++ s -> (exists s', b1 = r ++ s' /\ s' <> []) \/ exists r', r = b1 ++ r' /\ b2 = r' ++ s.
Proof.
  intros E. apply app_eq_app in E as (l & [[E1 E2]|[E1 E2]]); [|right; eauto].
  destruct l as [|x l]; [right; exists []; rewrite app_nil_r in *; by subst|left; exists (x :: l); done].
Qed.

Lemma decodes_bind {A B} (d1 : bytes -> res (A * bytes)) (d2 : A -> bytes -> res (B * bytes)) b1 b2 a b :
  decodes d1 b1 a -> decodes (d2 a) b2 b -> decodes (fun r => '(x, r) ← d1 r; d2 x r) (b1 ++ b2) b.
Proof.
  intros [Ha Hc] [Ha' Hc']. split.
  - intros rest. rewrite <- app_assoc, Ha. cbn [mbind res_bind]. apply Ha'.
  - intros r s E Hs. apply app_cut in E as [(s' & E & Hs')|(r' & -> & E)].
    + destruct (Hc r s' E Hs') as [e Ee]. exists e. by rewrite Ee.
    + rewrite Ha. cbn [mbind res_bind]. by apply (Hc' r' s).
Qed.

Lemma decodes_fmap {A B} (d : bytes -> res (A * bytes)) (f : A -> B) bz a :
  decodes d bz a -> decodes (fun r => '(x, r) ← d r; Ok (f x, r)) bz (f a).
Proof.
  intros Hd. rewrite <- (app_nil_r bz). apply (decodes_bind d (fun x r => Ok (f x, r)) _ _ a); [done|].
  apply decodes_ret.
Qed.

Lemma decodes_ext {A} (d d' : bytes -> res (A * bytes)) bz a :
  (forall r, d r = d' r) -> decodes d bz a -> decodes d' bz a.
Proof. intros Hd [Ha Hc]. split; intros; rewrite <- Hd; eauto. Qed.

(** A check between two reads. *)
Lemma decodes_guard {A B} (c : res B) (d : bytes -> res (A * bytes)) bz a b :
  c = Ok b -> decodes d bz a -> decodes (fun r => _ ← c; d r) bz a.
Proof. intros ->. by apply decodes_ext. Qed.

Lemma decodes_ReadByte b : decodes ReadByte [b] b.
Proof.
  split; [done|]. intros [|x r] s E Hs; [by eexists|].
  injection E as -> E. by apply eq_sym, app_eq_nil in E as [_ ->].
Qed.

Lemma decodes_ReadFull bz : decodes (ReadFull (zlen bz)) bz bz.
Proof.
  split; [apply ReadFull_app|]. intros r s -> Hs. unfold ReadFull. rewrite zlen_app.
  assert (0 < zlen s) by (destruct s; [done|rewrite zlen_cons; pose proof (zlen_nonneg s); lia]).
  pose proof (zlen_nonneg r). rewrite (proj2 (Z.leb_gt _ _)) by lia.
  destruct (_ =? _); [by eexists|]. rewrite (proj2 (Z.ltb_lt _ _)) by lia. by eexists.
Qed.

(** Varints: every byte but the last one has the continuation bit. *)
Lemma put_uvarint_cut fuel x r s :
  0 <= x -> put_uvarint_loop fuel x = r ++ s -> s <> [] -> Forall (fun b => 128 <= byte_to_Z b) r.
Proof.
  revert x r. induction fuel as [|fuel IH]; intros x r Hx E Hs.
  { apply eq_sym, app_eq_nil in E as [_ ->]. done. }
  cbn [put_uvarint_loop] in E. destruct (x <? 128).
  - destruct r as [|b r]; [constructor|]. injection E as _ E. by apply eq_sym, app_eq_nil in E as [_ ->].
  - destruct r as [|b r]; [constructor|]. injection E as <- E. constructor.
    + rewrite byte_to_of_Z, lor_128 by done. pose proof (Z.mod_pos_bound x 128). lia.
    + apply (IH (Z.shiftr x 7)); [|done|done]. by apply Z.shiftr_nonneg.
Qed.

Lemma read_uvarint_cut r i x s :
  Forall (fun b => 128 <= byte_to_Z b) r -> fails (read_uvarint_loop r i x s).
Proof.
  revert i x s. induction r as [|b r IH]; intros i x s Hr; cbn [read_uvarint_loop];
    (destruct (i =? MaxVarintLen64); [by eexists|]); [by eexists|].
  inversion Hr as [|? ? Hb Hr']; subst. rewrite (proj2 (Z.ltb_ge _ _)) by done. by apply IH.
Qed.

Lemma decodes_ReadUvarint x : 0 <= x < 2 ^ 64 -> decodes ReadUvarint (PutUvarint x) x.
Proof.
  intros Hx. split; [intros; by apply ReadUvarint_PutUvarint|]. intros r s E Hs.
  apply read_uvarint_cut. apply (put_uvarint_cut 10 x r s); [lia|done|done].
Qed.

Lemma maxAlloc_u64 (bz : bytes) : zlen bz <= maxAlloc -> 0 <= zlen bz < 2 ^ 64.
Proof. pose proof (zlen_nonneg bz). unfold maxAlloc. lia. Qed.

Lemma make_bytes_ok n : n <= maxAlloc -> make_bytes n = Ok tt.
Proof. intros H. unfold make_bytes. by rewrite (proj2 (Z.ltb_ge _ _)). Qed.

#[export] Hint Resolve maxAlloc_u64 make_bytes_ok : codec.
#[export] Hint Resolve decodes_ret decodes_ReadByte decodes_ReadFull decodes_ReadUvarint : codec.
