(* ===== verification/GoHeap.v ===== *)
(** * The binary heaps of Go's container/heap

    The operations on a slice with a comparison, and their specification: the heap order and
    the elements they keep.  The comparison has to be a strict weak order only on the
    elements that satisfy [P]. *)

From Stdlib Require Import ZArith Lia.
From stdpp Require Import base list numbers.
From S2P Require Import Prelude.

Section heap.
  Context {A : Type} (less : A -> A -> bool).
  Implicit Types (l : list A).

Definition Swap (i j : nat) l : res (list A) :=
  a ← of_option (l !! i); b ← of_option (l !! j); Ok (<[i:=b]> (<[j:=a]> l)).

Definition less_at l (i j : nat) : res bool :=
  a ← of_option (l !! i); b ← of_option (l !! j); Ok (less a b).

(** The slice and the index where the element ends; fewer than [n] rounds. *)
Fixpoint down (fuel i n : nat) l : res (list A * nat) :=
  match fuel with
  | O => out_of_fuel
  | S fuel =>
      let j1 := (2 * i + 1)%nat in
      if (n <=? j1)%nat then Ok (l, i) else
      let j2 := (j1 + 1)%nat in
      j ← (if (j2 <? n)%nat then b ← less_at l j2 j1; Ok (if b : bool then j2 else j1) else Ok j1);
      b ← less_at l j i;
      if negb b then Ok (l, i) else l ← Swap i j l; down fuel j n l
  end.

Fixpoint up (fuel j : nat) l : res (list A) :=
  match fuel with
  | O => out_of_fuel
  | S fuel =>
      let i := ((j - 1) / 2)%nat in
      if (i =? j)%nat then Ok l else
      b ← less_at l j i;
      if negb b then Ok l else l ← Swap i j l; up fuel i l
  end.

Definition down_or_up (i n : nat) l : res (list A) :=
  '(l, i') ← down (S n) i n l;
  if (i <? i')%nat then Ok l else up (S i) i l.

(** The loop of [heap.Init] with [k] rounds left. *)
Fixpoint init_loop (k n : nat) l : res (list A) :=
  match k with
  | O => Ok l
  | S i => '(l, _) ← down (S n) i n l; init_loop i n l
  end.
Definition heap_Init l : res (list A) := init_loop (length l / 2) (length l) l.

Definition heap_Fix (i : nat) l : res (list A) := down_or_up i (length l) l.

(** The slice without the element. *)
Definition heap_Remove (i : nat) l : res (list A) :=
  match length l with
  | O => Panic
  | S n =>
      l ← (if (n =? i)%nat then Ok l else l ← Swap i n l; down_or_up i n l);
      Ok (take n l)
  end.

(** ** Exchanges *)

Lemma Swap_ok i j l a b :
  l !! i = Some a -> l !! j = Some b -> Swap i j l = Ok (<[i:=b]> (<[j:=a]> l)).
Proof. intros Ea Eb. unfold Swap. by rewrite Ea, Eb. Qed.

Lemma less_at_ok l i j a b : l !! i = Some a -> l !! j = Some b -> less_at l i j = Ok (less a b).
Proof. intros Ea Eb. unfold less_at. by rewrite Ea, Eb. Qed.

Lemma exchange_perm l i j a b :
  i <> j -> l !! i = Some a -> l !! j = Some b -> <[i:=b]> (<[j:=a]> l) ≡ₚ l.
Proof.
  intros Hij Ha Hb. assert (Hi : l !! i = Some a) by done.
  rewrite <- (take_drop_middle l j b Hb) at 2.
  pose proof (lookup_lt_Some _ _ _ Ha). pose proof (lookup_lt_Some _ _ _ Hb).
  rewrite (insert_take_drop l j a) by done.
  destruct (decide (i < j)%nat) as [Hlt|Hge].
  - rewrite insert_app_l by (rewrite length_take; lia).
    rewrite <- (take_drop_middle (take j l) i a) at 2 by (by rewrite lookup_take_lt).
    rewrite (insert_take_drop (take j l) i b) by (rewrite length_take; lia). solve_Permutation.
  - replace i with (length (take j l) + S (i - j - 1))%nat by (rewrite length_take; lia).
    rewrite insert_app_r. cbn [insert list_insert].
    assert (Hd : drop (S j) l !! (i - j - 1)%nat = Some a) by (rewrite lookup_drop; rewrite <- Ha; f_equal; lia).
    rewrite <- (take_drop_middle (drop (S j) l) _ a Hd) at 2.
    rewrite (insert_take_drop (drop (S j) l) _ b) by (by apply lookup_lt_Some in Hd). solve_Permutation.
Qed.

(** ** The heap order *)

Variable P : A -> Prop.
Hypothesis less_asym : forall a b, P a -> P b -> less a b = true -> less b a = false.
Hypothesis less_trans : forall a b c, P a -> P b -> P c -> less b a = false -> less c b = false -> less c a = false.

Definition le_at l (i j : nat) : Prop := forall x y, l !! i = Some x -> l !! j = Some y -> less y x = false.
Definition child (p c : nat) : Prop := c = (2 * p + 1)%nat \/ c = (2 * p + 2)%nat.
(** The elements from [k] on are in order with their children. *)
Definition heap_from (k n : nat) l : Prop := forall p c, (k <= p)%nat -> (c < n)%nat -> child p c -> le_at l p c.

(** The elements that are compared. *)
Definition all_P (n : nat) l : Prop := forall k a, (k < n)%nat -> l !! k = Some a -> P a.

Lemma less_refl a : P a -> less a a = false.
Proof. intros Ha. destruct (less a a) eqn:E; [|done]. by rewrite <- E, (less_asym a a). Qed.

(** The order holds from [i0] on but for the children of [i]. *)
Record sifting (i0 i n : nat) l : Prop := {
  sift_other : forall p c, (i0 <= p)%nat -> p <> i -> (c < n)%nat -> child p c -> le_at l p c;
  sift_parent : forall p c, (i0 <= p)%nat -> child p i -> (c < n)%nat -> child i c -> le_at l p c
}.

(** The smaller child. *)
Record smaller_child (l : list A) (i n j : nat) : Prop := {
  smc_child : child i j;
  smc_range : (j < n)%nat;
  smc_least : forall c, child i c -> (c < n)%nat -> le_at l j c
}.

Lemma choose_child l i n :
  all_P n l -> (n <= length l)%nat -> (2 * i + 1 < n)%nat ->
  exists j, (if (2 * i + 1 + 1 <? n)%nat then b ← less_at l (2 * i + 1 + 1) (2 * i + 1);
             Ok (if b : bool then (2 * i + 1 + 1)%nat else (2 * i + 1)%nat)
             else Ok (2 * i + 1)%nat) = Ok j /\ smaller_child l i n j.
Proof.
  intros HP Hn Hi.
  destruct (lookup_lt_is_Some_2 l (2 * i + 1)%nat) as [x Hx]; [lia|].
  destruct (Nat.ltb_spec (2 * i + 1 + 1) n) as [H2|H2].
  - destruct (lookup_lt_is_Some_2 l (2 * i + 1 + 1)%nat) as [y Hy]; [lia|].
    rewrite (less_at_ok _ _ _ y x) by done. cbn [mbind res_bind]. destruct (less y x) eqn:E.
    + exists (2 * i + 1 + 1)%nat. split; [done|]. split; [right; lia|lia|].
      intros c [->| ->] _ u w Hu Hw; simplify_eq.
      * apply less_asym; [by eapply (HP (2 * i + 1 + 1)%nat)|by eapply (HP (2 * i + 1)%nat)|done].
      * replace (2 * i + 2)%nat with (2 * i + 1 + 1)%nat in Hw by lia. simplify_eq. by eapply less_refl, (HP (2 * i + 1 + 1)%nat).
    + exists (2 * i + 1)%nat. split; [done|]. split; [by left|lia|].
      intros c [->| ->] _ u w Hu Hw; simplify_eq; [by eapply less_refl, (HP (2 * i + 1)%nat)|].
      replace (2 * i + 2)%nat with (2 * i + 1 + 1)%nat in Hw by lia. by simplify_eq.
  - exists (2 * i + 1)%nat. split; [done|]. split; [by left|lia|].
    intros c [->| ->] Hc u w Hu Hw; [|lia]. simplify_eq. by eapply less_refl, (HP (2 * i + 1)%nat).
Qed.

(** Exchanging the element with its smaller child moves the gap down. *)
Lemma sifting_step i0 i j n l x y :
  all_P n l -> (i0 <= i)%nat -> sifting i0 i n l -> smaller_child l i n j ->
  l !! i = Some x -> l !! j = Some y -> less y x = true ->
  sifting i0 j n (<[i:=y]> (<[j:=x]> l)).
Proof.
  intros HP Hi [Ho Hp] [Hc Hj Hl] Hx Hy Hlt.
  assert (Hij : (i < j)%nat) by (destruct Hc; lia).
  pose proof (lookup_lt_Some _ _ _ Hx). pose proof (lookup_lt_Some _ _ _ Hy).
  assert (Li : <[i:=y]> (<[j:=x]> l) !! i = Some y) by (rewrite list_lookup_insert_eq; [done|rewrite length_insert; done]).
  assert (Lj : <[i:=y]> (<[j:=x]> l) !! j = Some x) by (rewrite list_lookup_insert_ne, list_lookup_insert_eq by lia; done).
  assert (Lk : forall k, k <> i -> k <> j -> <[i:=y]> (<[j:=x]> l) !! k = l !! k)
    by (intros k ??; rewrite !list_lookup_insert_ne by done; done).
  split.
  - intros p c Hp0 Hpj Hcn Hpc u w Hu Hw. destruct (decide (p = i)) as [->|Hpi].
    + rewrite Li in Hu. injection Hu as <-. destruct (decide (c = j)) as [->|Hcj].
      * rewrite Lj in Hw. injection Hw as <-. apply less_asym; [by apply (HP j)|by apply (HP i); [lia|]|done].
      * rewrite Lk in Hw by (done || destruct Hpc; lia). by apply (Hl c Hpc Hcn).
    + assert (Hc' : c <> j) by (unfold child in *; lia). rewrite (Lk p) in Hu by done.
      destruct (decide (c = i)) as [->|Hci].
      * rewrite Li in Hw. injection Hw as <-. by apply (Hp p j Hp0 Hpc Hj Hc).
      * rewrite Lk in Hw by done. by apply (Ho p c).
  - intros p c Hp0 Hpj Hcn Hjc u w Hu Hw. assert (p = i) as -> by (unfold child in *; lia).
    rewrite Li in Hu. injection Hu as <-. rewrite Lk in Hw by (unfold child in *; lia).
    by apply (Ho j c); [lia|lia|done|done| |].
Qed.

Lemma all_P_exchange i j n l x y :
  (i < n)%nat -> (j < n)%nat -> all_P n l -> l !! i = Some x -> l !! j = Some y -> all_P n (<[i:=y]> (<[j:=x]> l)).
Proof.
  intros Hi Hj HP Hx Hy k a Hk E. apply list_lookup_insert_Some in E as [(<- & <- & _)|[_ E]]; [by apply (HP j)|].
  apply list_lookup_insert_Some in E as [(<- & <- & _)|[_ E]]; [by apply (HP i)|by apply (HP k)].
Qed.

Lemma all_P_Forall l : Forall P l -> all_P (length l) l.
Proof. intros HP k a _ E. rewrite Forall_lookup in HP. eauto. Qed.

Lemma down_spec fuel i0 i n l :
  all_P n l -> (n <= length l)%nat -> (i0 <= i)%nat -> (n - i < fuel)%nat -> sifting i0 i n l ->
  exists l' i', down fuel i n l = Ok (l', i') /\ l' ≡ₚ l /\ heap_from i0 n l' /\
    (forall k, (n <= k)%nat -> l' !! k = l !! k).
Proof.
  revert i l. induction fuel as [|fuel IH]; intros i l HP Hn Hi Hf Hs; [lia|]. cbn [down].
  destruct (Nat.leb_spec n (2 * i + 1)) as [Hle|Hgt].
  { exists l, i. split; [done|]. split; [done|]. split; [|done]. intros p c Hp0 Hcn Hpc.
    apply (sift_other _ _ _ _ Hs); [done| |done|done]. intros ->. destruct Hpc; lia. }
  destruct (choose_child l i n HP Hn Hgt) as (j & Ej & Hj). rewrite Ej. cbn [mbind res_bind].
  pose proof (smc_child _ _ _ _ Hj) as Hc. pose proof (smc_range _ _ _ _ Hj) as Hjn.
  destruct (lookup_lt_is_Some_2 l i) as [x Hx]; [destruct Hc; lia|].
  destruct (lookup_lt_is_Some_2 l j) as [y Hy]; [lia|].
  rewrite (less_at_ok _ _ _ y x) by done. cbn [mbind res_bind]. destruct (less y x) eqn:E; cbn [negb].
  - rewrite (Swap_ok i j l x y) by done. cbn [mbind res_bind].
    assert (Hperm : <[i:=y]> (<[j:=x]> l) ≡ₚ l) by (apply exchange_perm; [destruct Hc; lia|done|done]).
    destruct (IH j (<[i:=y]> (<[j:=x]> l))) as (l' & i' & Ed & Hp & Hh & Hk).
    { by apply all_P_exchange; [destruct Hc; lia|..]. } { by rewrite !length_insert. } { destruct Hc; lia. } { destruct Hc; lia. }
    { by apply sifting_step. }
    exists l', i'. split; [done|]. split; [by rewrite Hp|]. split; [done|]. intros k Hkn. rewrite Hk by done.
    rewrite !list_lookup_insert_ne by (destruct Hc; lia). done.
  - exists l, i. split; [done|]. split; [done|]. split; [|done].
    intros p c Hp0 Hcn Hpc. destruct (decide (p = i)) as [->|Hpi]; [|by apply (sift_other _ _ _ _ Hs)].
    intros u w Hu Hw. simplify_eq.
    apply (less_trans x y w); [by apply (HP i); [destruct Hc; lia|]|by apply (HP j)|by apply (HP c)|done|]. by apply (smc_least _ _ _ _ Hj c Hpc Hcn).
Qed.

(** ** Specifications *)

Lemma init_loop_spec k n l :
  Forall P l -> n = length l -> heap_from k n l ->
  exists l', init_loop k n l = Ok l' /\ l' ≡ₚ l /\ heap_from 0 n l'.
Proof.
  revert l. induction k as [|i IH]; intros l HP -> Hh; cbn [init_loop]; [by exists l|].
  destruct (down_spec (S (length l)) i i (length l) l) as (l1 & i' & E & Hp & Hh1 & _);
    [by apply all_P_Forall|done|done|lia| |].
  { split; [|intros p c Hp0 Hpi; destruct Hpi; lia]. intros p c Hp0 Hpi. apply Hh. lia. }
  rewrite E. cbn [mbind res_bind].
  destruct (IH l1) as (l' & E' & Hp' & Hh'); [by rewrite Hp|by rewrite (Permutation_length Hp)|done|].
  exists l'. split; [done|]. split; [by rewrite Hp'|done].
Qed.

Lemma heap_Init_spec l :
  Forall P l -> exists l', heap_Init l = Ok l' /\ l' ≡ₚ l /\ heap_from 0 (length l') l'.
Proof.
  intros HP. destruct (init_loop_spec (length l / 2) (length l) l HP eq_refl) as (l' & E & Hp & Hh).
  { intros p c Hp Hc Hpc. pose proof (Nat.div_mod (length l) 2 ltac:(lia)).
    pose proof (Nat.mod_upper_bound (length l) 2 ltac:(lia)). destruct Hpc; lia. }
  exists l'. split; [exact E|]. split; [done|]. by rewrite (Permutation_length Hp).
Qed.

Lemma down_or_up_root n l :
  all_P n l -> (n <= length l)%nat -> heap_from 1 n l ->
  exists l', down_or_up 0 n l = Ok l' /\ l' ≡ₚ l /\ heap_from 0 n l' /\ (forall k, (n <= k)%nat -> l' !! k = l !! k).
Proof.
  intros HP Hn Hh. unfold down_or_up.
  destruct (down_spec (S n) 0 0 n l) as (l' & i' & E & Hp & Hh' & Hk); [done|done|done|lia| |].
  { split; [|intros p c Hp0 Hpi; destruct Hpi; lia]. intros p c Hp0 Hpi. apply Hh. lia. }
  rewrite E. cbn [mbind res_bind]. exists l'. destruct (0 <? i')%nat; done.
Qed.

(** Restoring the order after a change of the root. *)
Lemma heap_Fix_root x l :
  Forall P (x :: l) -> heap_from 1 (S (length l)) (x :: l) ->
  exists l', heap_Fix 0 (x :: l) = Ok l' /\ l' ≡ₚ x :: l /\ heap_from 0 (length l') l'.
Proof.
  intros HP Hh. destruct (down_or_up_root (S (length l)) (x :: l)) as (l' & E & Hp & Hh' & _);
    [by apply (all_P_Forall (x :: l))|done|done|].
  exists l'. split; [exact E|]. split; [done|]. by rewrite (Permutation_length Hp).
Qed.

Lemma heap_from_ext k n l l' :
  (forall i, (k <= i < n)%nat -> l' !! i = l !! i) -> heap_from k n l -> heap_from k n l'.
Proof.
  intros Hl Hh p c Hp Hc Hpc x y Hx Hy. rewrite Hl in Hx by (destruct Hpc; lia). rewrite Hl in Hy by (destruct Hpc; lia).
  by apply (Hh p c).
Qed.

Lemma heap_from_weaken k k' n n' l : (k <= k')%nat -> (n' <= n)%nat -> heap_from k n l -> heap_from k' n' l.
Proof. intros Hk Hn Hh p c Hp Hc. apply Hh; lia. Qed.

(** The last element goes to the root and the old root to the end. *)
Lemma Swap_root_last x l z : Swap 0 (length (l ++ [z])) (x :: l ++ [z]) = Ok ((z :: l) ++ [x]).
Proof.
  rewrite (Swap_ok _ _ _ x z); [|done|rewrite length_app, Nat.add_1_r; change ((l ++ [z]) !! length l = Some z); by rewrite lookup_app_r, Nat.sub_diag].
  rewrite length_app, Nat.add_1_r. change (Ok (z :: <[length l:=x]> (l ++ [z])) = Ok ((z :: l) ++ [x])).
  replace (length l) with (length l + 0)%nat by lia. rewrite insert_app_r. done.
Qed.

(** Removing the root; its value does not matter. *)
Lemma heap_Remove_root x l :
  Forall P l -> heap_from 1 (S (length l)) (x :: l) ->
  exists l', heap_Remove 0 (x :: l) = Ok l' /\ l' ≡ₚ l /\ heap_from 0 (length l') l'.
Proof.
  intros HP Hh. unfold heap_Remove. cbn [length]. destruct l as [|z l _] using rev_ind.
  { exists []. split; [done|]. split; [done|]. intros p c _ Hc. simpl in Hc. lia. }
  rewrite (proj2 (Nat.eqb_neq _ _)) by (rewrite length_app; simpl; lia).
  rewrite Swap_root_last. cbn [mbind res_bind]. set (l1 := z :: l).
  assert (Hlen : length (l ++ [z]) = length l1) by (rewrite length_app; simpl; lia). rewrite Hlen in *.
  assert (HP1 : Forall P l1) by (apply Forall_app in HP as [? Hz]; inversion Hz; by constructor).
  destruct (down_or_up_root (length l1) (l1 ++ [x])) as (l' & E & Hp & Hh' & Hk).
  - intros k a Hk E. rewrite lookup_app_l in E by done. by apply (all_P_Forall l1 HP1 k).
  - rewrite length_app. lia.
  - apply (heap_from_ext _ _ (x :: l ++ [z])); [|eapply heap_from_weaken; [| |exact Hh]; lia].
    intros [|i] Hi; [lia|]. rewrite lookup_app_l by lia. change (l !! i = (l ++ [z]) !! i). simpl in Hi. by rewrite lookup_app_l by lia.
  - rewrite E. cbn [mbind res_bind]. exists (take (length l1) l'). split; [done|].
    assert (Hl' : length l' = S (length l1)) by (rewrite (Permutation_length Hp), length_app; simpl; lia).
    assert (Ed : drop (length l1) l' = [x]).
    { apply list_eq. intros i. rewrite lookup_drop, Hk by lia. rewrite lookup_app_r by lia. f_equal. lia. }
    split.
    + apply (Permutation_app_inv_r [x]). rewrite <- Ed at 1. rewrite take_drop, Hp. subst l1. solve_Permutation.
    + rewrite length_take, Nat.min_l by lia. apply (heap_from_ext _ _ l'); [|done]. intros i Hi. by rewrite lookup_take_lt by lia.
Qed.

(** The root is the least element. *)
Lemma heap_root_least l x y :
  Forall P l -> heap_from 0 (length l) l -> l !! 0%nat = Some x -> y ∈ l -> less y x = false.
Proof.
  intros HP Hh Hx (i & Hi)%list_elem_of_lookup. pose proof (all_P_Forall l HP) as HP'.
  revert y Hi. induction i as [i IH] using lt_wf_ind. intros y Hi. pose proof (lookup_lt_Some _ _ _ Hi) as Hlt.
  destruct i as [|i]; [simplify_eq; by eapply less_refl, (HP' 0%nat)|].
  set (p := (i / 2)%nat). assert (Hc : child p (S i)).
  { pose proof (Nat.div_mod i 2 ltac:(lia)). pose proof (Nat.mod_upper_bound i 2 ltac:(lia)). unfold child, p. lia. }
  destruct (lookup_lt_is_Some_2 l p) as [z Hz]; [destruct Hc; lia|].
  apply (less_trans x z y); [by apply (HP' 0%nat); [lia|]|by apply (HP' p); [destruct Hc; lia|]|by apply (HP' (S i))| |].
  - apply (IH p); [destruct Hc; lia|done].
  - by apply (Hh p (S i)); [lia| | | |].
Qed.
End heap.
