(* ===== verification/ExtSort.v ===== *)
(** * The external sorter (versiondb/extsort)

    [DeltaEncoder] and [DeltaDecoder], the k-way merge on [container/heap], and [ExtSorter]:
    its chunks are sorted and written by goroutines, which finish in any order and may fail.
    A temporary file is its contents; snappy is a parameter. *)

From Stdlib Require Import Strings.Byte ZArith Lia.
From stdpp Require Import base list numbers strings.
From S2P Require Import Prelude Binary Codec GoHeap Sort.
Local Open Scope Z_scope.

(** ** Delta encoding *)

Fixpoint diffOffset (a b : bytes) : nat :=
  match a, b with
  | x :: a, y :: b => if bool_decide (x = y) then S (diffOffset a b) else O
  | _, _ => O
  end.

(** The bytes written, and [de.last] afterwards. *)
Definition DeltaEncoder_Write (last key : bytes) : bytes * bytes :=
  let shared := diffOffset last key in
  let nonShared := (length key - shared)%nat in
  (PutUvarint (Z.of_nat shared) ++ PutUvarint (Z.of_nat nonShared) ++ drop shared key, key).

(** [dd.last] afterwards is the item. *)
Definition DeltaDecoder_Read (last : bytes) (reader : bytes) : res (bytes * bytes) :=
  '(shared, reader) ← ReadUvarint reader;
  '(nonShared, reader) ← ReadUvarint reader;
  let size := u64 (shared + nonShared) in
  _ ← make_bytes size;
  if size <? shared then Panic
  else
    prefix ← of_option (slice last 0 shared);
    '(tail, reader) ← ReadFull (size - shared) reader;
    Ok (prefix ++ tail, reader).

(** ** The k-way merge *)

Section MultiWayMerge.
  Context {Str : Type}.
  (** [NextFunc]: the next item, nil at the end, with the stream that is left. *)
  Variable next : Str -> res (option bytes * Str).
  Variable lesserFunc : bytes -> bytes -> bool.

Record heapEntry := { stream : Str; value : option bytes }.

Definition newHeapEntry (s : Str) : res (option heapEntry) :=
  '(v, s) ← next s;
  Ok (match v with None => None | Some _ => Some {| stream := s; value := v |} end).

Definition update (e : heapEntry) : res heapEntry :=
  '(v, s) ← next (stream e); Ok {| stream := s; value := v |}.

Definition Less (a b : heapEntry) : bool := lesserFunc (default [] (value a)) (default [] (value b)).

Fixpoint newHeapEntries (streams : list Str) (entries : list heapEntry) : res (list heapEntry) :=
  match streams with
  | [] => Ok entries
  | s :: streams =>
      entry ← newHeapEntry s;
      newHeapEntries streams (match entry with Some e => entries ++ [e] | None => entries end)
  end.

Definition NewMultiWayMerge (streams : list Str) : res (list heapEntry) :=
  entries ← newHeapEntries streams [];
  heap_Init Less entries.

Definition merge_Next (entries : list heapEntry) : res (option bytes * list heapEntry) :=
  match entries with
  | [] => Ok (None, [])
  | minEntry :: rest =>
      let result := value minEntry in
      minEntry ← update minEntry;
      entries ← (match value minEntry with
                 | None => heap_Remove Less 0 (minEntry :: rest)
                 | Some _ => heap_Fix Less 0 (minEntry :: rest)
                 end);
      Ok (result, entries)
  end.

(** The loop of [Spawn] that sends the items. *)
Fixpoint drain (fuel : nat) (reader : list heapEntry) : res (list bytes) :=
  match fuel with
  | O => out_of_fuel
  | S fuel =>
      '(item, reader) ← merge_Next reader;
      match item with
      | None => Ok []
      | Some item => items ← drain fuel reader; Ok (item :: items)
      end
  end.
End MultiWayMerge.

(** ** The sorter *)

Record Options := {
  DeltaEncoding : bool;
  SnappyCompression : bool;
  MaxChunkSize : Z;
  LesserFunc : bytes -> bytes -> bool
}.

(** [github.com/golang/snappy]: what the buffered writer leaves in the file, and what the
    reader makes of it. *)
Class SnappyOps := { snappy_encode : bytes -> bytes; snappy_decode : bytes -> res bytes }.
Class SnappyLaws `{SnappyOps} := { snappy_decode_encode : forall bz, snappy_decode (snappy_encode bz) = Ok bz }.

(** [running] are the chunks whose goroutines have not returned. *)
Record ExtSorter := {
  currentChunk : list bytes;
  currentChunkSize : Z;
  running : list (list bytes);
  chunkFiles : list bytes;
  failures : list error
}.

Definition New : ExtSorter :=
  {| currentChunk := []; currentChunkSize := 0; running := []; chunkFiles := []; failures := [] |}.

Section ExtSorter.
  Context `{SortOps, SnappyOps}.
  Variable opts : Options.

Fixpoint write_delta (last : bytes) (chunk : list bytes) : bytes :=
  match chunk with
  | [] => []
  | item :: chunk => let '(bz, last) := DeltaEncoder_Write last item in bz ++ write_delta last chunk
  end.

Fixpoint write_plain (chunk : list bytes) : bytes :=
  match chunk with
  | [] => []
  | item :: chunk => PutUvarint (zlen item) ++ item ++ write_plain chunk
  end.

(** The contents of the chunk file. *)
Definition sortAndSaveChunk (chunk : list bytes) : bytes :=
  let chunk := sort_Slice (LesserFunc opts) chunk in
  let out := if DeltaEncoding opts then write_delta [] chunk else write_plain chunk in
  if SnappyCompression opts then snappy_encode out else out.

Definition sortChunkAndRotate (s : ExtSorter) : ExtSorter :=
  {| currentChunk := []; currentChunkSize := 0; running := running s ++ [currentChunk s];
     chunkFiles := chunkFiles s; failures := failures s |}.

(** The goroutine of the [i]-th running chunk returns, with the error of a failed write. *)
Definition job_done (i : nat) (err : option error) (s : ExtSorter) : ExtSorter :=
  match running s !! i with
  | None => s
  | Some chunk =>
      {| currentChunk := currentChunk s; currentChunkSize := currentChunkSize s; running := delete i (running s);
         chunkFiles := match err with None => chunkFiles s ++ [sortAndSaveChunk chunk] | Some _ => chunkFiles s end;
         failures := match err with None => failures s | Some e => failures s ++ [e] end |}
  end.

Definition ErrItemLength : error := "item length overflows uint32".

Definition Feed (item : bytes) (s : ExtSorter) : res ExtSorter :=
  if MaxUint32 <? zlen item then Err ErrItemLength
  else
    let s := {| currentChunk := currentChunk s ++ [item];
                currentChunkSize := i64 (currentChunkSize s + (zlen item + 4));
                running := running s; chunkFiles := chunkFiles s; failures := failures s |} in
    if MaxChunkSize opts <=? currentChunkSize s then Ok (sortChunkAndRotate s) else Ok s.

(** [s.chunkWG.Wait()]: the running chunks return in the order of the schedule, which says
    which of those that still run returns next, and how; without one, the first one does. *)
Fixpoint wait (n : nat) (sched : list (nat * option error)) (s : ExtSorter) : ExtSorter :=
  match n with
  | O => s
  | S n =>
      let '(i, err) := default (O, None) (head sched) in
      wait n (tail sched) (job_done (i mod length (running s)) err s)
  end.

Record chunkStream := { cs_reader : bytes; cs_last : bytes }.

(** The [NextFunc] of a chunk file. *)
Definition chunk_next (c : chunkStream) : res (option bytes * chunkStream) :=
  if DeltaEncoding opts then
    match DeltaDecoder_Read (cs_last c) (cs_reader c) with
    | Ok (item, reader) => Ok (Some item, {| cs_reader := reader; cs_last := item |})
    | Err e => if bool_decide (e = EOF) then Ok (None, c) else Err e
    | Panic => Panic
    end
  else
    match ReadUvarint (cs_reader c) with
    | Ok (size, reader) =>
        _ ← make_bytes size;
        '(item, reader) ← ReadFull size reader;
        Ok (Some item, {| cs_reader := reader; cs_last := cs_last c |})
    | Err e => if bool_decide (e = EOF) then Ok (None, c) else Err e
    | Panic => Panic
    end.

Fixpoint open_chunks (files : list bytes) : res (list chunkStream) :=
  match files with
  | [] => Ok []
  | f :: files =>
      reader ← (if SnappyCompression opts then snappy_decode f else Ok f);
      streams ← open_chunks files;
      Ok ({| cs_reader := reader; cs_last := [] |} :: streams)
  end.

(** [strings.Join(failures, "\n")] *)
Definition join_failures (l : list error) : error := String.concat (String (Ascii.ascii_of_nat 10) EmptyString) l.

Definition Finalize (sched : list (nat * option error)) (s : ExtSorter) : res (list heapEntry) :=
  let s := if 0 <? currentChunkSize s then sortChunkAndRotate s else s in
  let s := wait (length (running s)) sched s in
  match failures s with
  | _ :: _ => Err (join_failures (failures s))
  | [] =>
      streams ← open_chunks (chunkFiles s);
      NewMultiWayMerge chunk_next (LesserFunc opts) streams
  end.

(** What the goroutine of [Spawn] sees: an item from the channel, or in between a chunk that
    is done. *)
Inductive event := EFeed (item : bytes) | EDone (i : nat) (err : option error).

Fixpoint feed_all (events : list event) (s : ExtSorter) : res ExtSorter :=
  match events with
  | [] => Ok s
  | EFeed item :: events => s ← Feed item s; feed_all events s
  | EDone i err :: events => feed_all events (job_done i err s)
  end.

Definition fed (events : list event) : list bytes :=
  omap (fun e => match e with EFeed item => Some item | _ => None end) events.

(** The items sent to the output channel.  An item was fed for each. *)
Definition Spawn (events : list event) (sched : list (nat * option error)) : res (list bytes) :=
  s ← must (feed_all events New);
  reader ← must (Finalize sched s);
  must (drain chunk_next (LesserFunc opts) (S (length (fed events))) reader).
End ExtSorter.
