(* ===== verification/ExtSortInv.v ===== *)
(** * The external sorter sorts

    The items sent are a sorted permutation of the items fed, however the chunks are split and
    in whatever order their goroutines finish; a chunk that could not be written is reported. *)

From Stdlib Require Import Strings.Byte ZArith Lia.
From stdpp Require Import base list numbers strings sorting.
From S2P Require Import Prelude Binary Codec GoHeap Sort ExtSort.
Local Open Scope Z_scope.

(** ** Delta encoding *)

Lemma diffOffset_take a b : take (diffOffset a b) a = take (diffOffset a b) b.
Proof.
  revert b. induction a as [|x a IH]; intros [|y b]; simpl; try done. case_bool_decide; [|done].
  simpl. subst. by rewrite IH.
Qed.

Lemma diffOffset_le a b : (diffOffset a b <= length a /\ diffOffset a b <= length b)%nat.
Proof.
  revert b. induction a as [|x a IH]; intros [|y b]; simpl; try lia. case_bool_decide; [|lia].
  specialize (IH b). lia.
Qed.

Lemma slice_take {A} (l : list A) n : (n <= length l)%nat -> slice l 0 (Z.of_nat n) = Some (take n l).
Proof.
  intros Hn. unfold slice, zlen. rewrite (proj2 (Z.leb_le 0 (Z.of_nat n))), (proj2 (Z.leb_le (Z.of_nat n) (Z.of_nat (length l)))) by lia.
  simpl. rewrite drop_0, Z.sub_0_r. by rewrite Nat2Z.id.
Qed.

(** The decoder reads off the item that was written, for encoder and decoder with the same
    last item. *)
Lemma decodes_DeltaDecoder_Read last key :
  zlen key <= maxAlloc -> decodes (DeltaDecoder_Read last) (DeltaEncoder_Write last key).1 key.
Proof.
  intros Hk. unfold DeltaDecoder_Read, DeltaEncoder_Write. cbn [fst].
  destruct (diffOffset_le last key) as [Hl Hk']. pose proof (diffOffset_take last key) as Ht.
  set (n := diffOffset last key) in *. unfold maxAlloc, zlen in Hk.
  eapply decodes_bind; [apply decodes_ReadUvarint; lia|].
  eapply decodes_bind; [apply decodes_ReadUvarint; lia|].
  rewrite u64_small by lia. replace (Z.of_nat n + _) with (zlen key) by (unfold zlen; lia).
  eapply decodes_guard; [by apply make_bytes_ok|].
  rewrite (proj2 (Z.ltb_ge _ _)) by (unfold zlen; lia). rewrite slice_take by done. cbn [of_option].
  replace (zlen key - Z.of_nat n) with (zlen (drop n key)) by (unfold zlen; rewrite length_drop; lia).
  pose proof (decodes_fmap _ (app (take n key)) _ _ (decodes_ReadFull (drop n key))) as Hd.
  rewrite take_drop in Hd. by rewrite Ht.
Qed.

(** ** Streams *)

Section merge.
  Context {Str : Type} (next : Str -> res (option bytes * Str)) (less : bytes -> bytes -> bool) (P : bytes -> Prop).
  Hypothesis Ho : weak_order P less.

(** The items a stream yields until it ends. *)
Inductive yields : Str -> list bytes -> Prop :=
| yields_end s s' : next s = Ok (None, s') -> yields s []
| yields_item s s' x l : next s = Ok (Some x, s') -> yields s' l -> yields s (x :: l).

(** An entry of the merge holds the next item of its stream. *)
Record entry_yields (e : heapEntry) (l : list bytes) : Prop := {
  ey_yields : exists v l', l = v :: l' /\ value e = Some v /\ yields (stream e) l';
  ey_ordered : ordered less l;
  ey_P : Forall P l
}.

Definition stream_ok (s : Str) (l : list bytes) : Prop := yields s l /\ ordered less l /\ Forall P l.

Definition entry_P (e : heapEntry (Str:=Str)) : Prop := P (default [] (value e)).

Lemma Less_weak_order : weak_order entry_P (Less less).
Proof.
  destruct Ho as [Ha Ht]. split; unfold entry_P, Less; [intros a b; apply Ha|intros a b c; apply Ht].
Qed.

Lemma entry_yields_P e l : entry_yields e l -> entry_P e.
Proof. intros [(v & l' & -> & Ev & _) _ HP]. unfold entry_P. rewrite Ev. by apply Forall_cons in HP as [? _]. Qed.

Lemma entries_P entries ls : Forall2 entry_yields entries ls -> Forall entry_P entries.
Proof. induction 1; constructor; eauto using entry_yields_P. Qed.

(** The entries of the merge and what is left in them. *)
Record merging (entries : list heapEntry) (items : list bytes) : Prop := {
  mg_lists : exists ls, Forall2 entry_yields entries ls /\ items ≡ₚ concat ls;
  mg_heap : heap_from (Less less) 0 (length entries) entries
}.

(** The heap operations permute the entries. *)
Lemma merging_perm entries entries' ls :
  entries' ≡ₚ entries -> Forall2 entry_yields entries ls -> heap_from (Less less) 0 (length entries') entries' ->
  merging entries' (concat ls).
Proof.
  intros Hp HF Hh. split; [|done]. destruct (Permutation_Forall2 (symmetry Hp) HF) as (ls' & Hp' & HF').
  exists ls'. split; [done|]. by apply concat_perm.
Qed.

(** What [stream()] gives at the start of a stream. *)
Lemma stream_ok_next s l :
  stream_ok s l ->
  exists s', (l = [] /\ next s = Ok (None, s')) \/
    exists v l', l = v :: l' /\ next s = Ok (Some v, s') /\ entry_yields {| stream := s'; value := Some v |} l.
Proof.
  intros (Hy & Hl & HP). inversion Hy as [? s' E|? s' v l' E Hy']; subst; exists s'; [by left|right].
  exists v, l'. split; [done|]. split; [done|]. split; [|done|done]. by exists v, l'.
Qed.

Lemma newHeapEntries_ok streams ls entries ls0 :
  Forall2 stream_ok streams ls -> Forall2 entry_yields entries ls0 ->
  exists entries' ls', newHeapEntries next streams entries = Ok entries' /\
    Forall2 entry_yields entries' ls' /\ concat ls' = concat ls0 ++ concat ls.
Proof.
  intros HF. revert entries ls0. induction HF as [|s l streams ls Hs HF IH]; intros entries ls0 H0.
  { exists entries, ls0. by rewrite app_nil_r. }
  cbn [newHeapEntries]. unfold newHeapEntry.
  destruct (stream_ok_next s l Hs) as (s' & [[-> ->]|(v & l' & -> & -> & He)]); cbn [mbind res_bind].
  - by apply IH.
  - destruct (IH (entries ++ [{| stream := s'; value := Some v |}]) (ls0 ++ [v :: l'])) as (es & ls' & E & HF' & Ec).
    { apply Forall2_app; [done|]. constructor; [done|constructor]. }
    exists es, ls'. split; [done|]. split; [done|]. rewrite Ec, concat_app, <- app_assoc. cbn [concat].
    by rewrite app_nil_r.
Qed.

Lemma NewMultiWayMerge_ok streams ls :
  Forall2 stream_ok streams ls ->
  exists entries, NewMultiWayMerge next less streams = Ok entries /\ merging entries (concat ls).
Proof.
  intros HF. destruct (newHeapEntries_ok streams ls [] [] HF) as (es & ls' & E & HF' & Ec); [constructor|].
  destruct (heap_Init_spec (Less less) entry_P (wo_asym _ _ Less_weak_order) (wo_trans _ _ Less_weak_order) es)
    as (es' & Ei & Hp & Hh); [by eapply entries_P|].
  exists es'. unfold NewMultiWayMerge. rewrite E. cbn [mbind res_bind]. split; [done|].
  change (concat ls) with (concat (@nil (list bytes)) ++ concat ls). rewrite <- Ec. by eapply merging_perm.
Qed.

(** The item at the root is least. *)
Lemma merging_least e rest v l lrest y :
  heap_from (Less less) 0 (S (length rest)) (e :: rest) -> Forall2 entry_yields (e :: rest) ((v :: l) :: lrest) ->
  y ∈ l ++ concat lrest -> P v /\ P y /\ less y v = false.
Proof.
  intros Hh HF Hy. pose proof (entries_P _ _ HF) as HP. assert (HPv := Forall_inv HP). unfold entry_P in HPv.
  inversion HF as [|? ? ? ? [(v' & l' & E & Ev & _) Hs Hl] HF']; subst. injection E as <- <-. rewrite Ev in HPv.
  simpl in HPv. split; [done|]. apply elem_of_app in Hy as [Hy|Hy].
  - apply Forall_cons in Hl as [_ Hl]. rewrite Forall_forall in Hl.
    apply StronglySorted_inv in Hs as [_ Hs]. rewrite Forall_forall in Hs. auto.
  - apply list_elem_of_In, in_concat in Hy as (ly & Hly & Hy). apply list_elem_of_In in Hy, Hly.
    apply list_elem_of_lookup in Hly as [i Hi].
    destruct (Forall2_lookup_r _ _ _ _ _ HF' Hi) as (e' & He' & [(w & l'' & -> & Ew & _) Hs' Hl']).
    assert (Hroot : less w v = false).
    { pose proof (heap_root_least (Less less) entry_P (wo_asym _ _ Less_weak_order) (wo_trans _ _ Less_weak_order)
        (e :: rest) e e' HP Hh eq_refl) as Hr. unfold Less in Hr. rewrite Ev, Ew in Hr. apply Hr.
      apply elem_of_cons. right. by eapply list_elem_of_lookup_2. }
    apply Forall_cons in Hl' as [Hw Hl']. rewrite Forall_forall in Hl'.
    apply elem_of_cons in Hy as [->|Hy]; [done|]. split; [by apply Hl'|].
    apply StronglySorted_inv in Hs' as [_ Hs']. rewrite Forall_forall in Hs'.
    apply (wo_trans _ _ Ho v w y); auto.
Qed.

Lemma merge_Next_ok entries items :
  merging entries items ->
  (items = [] /\ merge_Next next less entries = Ok (None, [])) \/
  exists v items' entries', merge_Next next less entries = Ok (Some v, entries') /\ items ≡ₚ v :: items' /\
    merging entries' items' /\ P v /\ Forall (fun y => less y v = false) items'.
Proof.
  intros [(ls & HF & Hp) Hh]. destruct HF as [|e l rest lrest He HF].
  { left. split; [|done]. by apply Permutation_nil_r in Hp. }
  right. pose proof He as [(v & l' & -> & Ev & Hy) Hs Hl]. exists v, (l' ++ concat lrest).
  assert (Hleast := fun y => merging_least e rest v l' lrest y Hh ltac:(by constructor)).
  assert (HPv : P v) by (by apply Forall_cons in Hl as [? _]).
  assert (Hall : Forall (fun y => less y v = false) (l' ++ concat lrest)).
  { apply Forall_forall. intros y Hyy. by apply Hleast. }
  assert (Hs' : stream_ok (stream e) l').
  { split; [done|]. apply StronglySorted_inv in Hs as [? _]. by apply Forall_cons in Hl as [_ ?]. }
  assert (Hh1 : forall e', heap_from (Less less) 1 (S (length rest)) (e' :: rest)).
  { intros e'. apply (heap_from_ext _ _ _ (e :: rest)); [|apply (heap_from_weaken _ 0 _ (S (length rest))); [lia|lia|done]].
    intros [|i] Hi; [lia|done]. }
  cbn [merge_Next]. unfold update.
  destruct (stream_ok_next _ _ Hs') as (s' & [[-> ->]|(w & l'' & -> & -> & He')]); cbn [mbind res_bind value].
  - destruct (heap_Remove_root (Less less) entry_P (wo_asym _ _ Less_weak_order) (wo_trans _ _ Less_weak_order)
      {| stream := s'; value := None |} rest) as (es & -> & Hp' & Hh'); [by eapply entries_P|by apply Hh1|].
    exists es. rewrite Ev. split; [done|]. split; [done|]. split; [by eapply merging_perm|done].
  - destruct (heap_Fix_root (Less less) entry_P (wo_asym _ _ Less_weak_order) (wo_trans _ _ Less_weak_order)
      {| stream := s'; value := Some w |} rest) as (es & -> & Hp' & Hh');
      [by eapply (entries_P _ ((w :: l'') :: lrest)); constructor|by apply Hh1|].
    exists es. rewrite Ev. split; [done|]. split; [done|]. split; [|done].
    apply (merging_perm _ _ ((w :: l'') :: lrest) Hp'); [by constructor|done].
Qed.

(** The merge yields every item, in order. *)
Lemma drain_ok fuel entries items :
  merging entries items -> (length items < fuel)%nat ->
  exists out, drain next less fuel entries = Ok out /\ out ≡ₚ items /\ ordered less out.
Proof.
  revert entries items. induction fuel as [|fuel IH]; intros entries items Hm Hf; [lia|]. cbn [drain].
  destruct (merge_Next_ok _ _ Hm) as [[-> ->]|(v & items' & es & -> & Hp & Hm' & HP & Hl)]; cbn [mbind res_bind].
  { exists []. split; [done|]. split; [done|constructor]. }
  rewrite (Permutation_length Hp) in Hf. destruct (IH es items' Hm') as (out & -> & Ho' & Hs); [simpl in Hf; lia|].
  exists (v :: out). split; [done|]. split; [by rewrite Hp, Ho'|]. constructor; [done|]. by rewrite Ho'.
Qed.
End merge.

(** ** Chunk files *)

Definition item_ok (item : bytes) : Prop := zlen item <= MaxUint32.

Lemma item_ok_alloc item : item_ok item -> zlen item <= maxAlloc.
Proof. unfold item_ok, MaxUint32, maxAlloc. lia. Qed.
#[local] Hint Resolve item_ok_alloc : codec.

Section sorter.
  Context `{SortLaws, SnappyLaws} (opts : Options).
  Abbreviation less := (LesserFunc opts).

Lemma plain_yields chunk last :
  DeltaEncoding opts = false -> Forall item_ok chunk ->
  yields (chunk_next opts) {| cs_reader := write_plain chunk; cs_last := last |} chunk.
Proof.
  intros Hd. induction 1 as [|item chunk Hi Hc IH]; [eapply yields_end; unfold chunk_next; by rewrite Hd|].
  eapply yields_item; [|exact IH]. unfold chunk_next. rewrite Hd. cbn [cs_reader write_plain].
  rewrite ReadUvarint_PutUvarint by auto with codec. rewrite make_bytes_ok by auto with codec. cbn [mbind res_bind].
  by rewrite ReadFull_app.
Qed.

Lemma delta_yields chunk last :
  DeltaEncoding opts = true -> Forall item_ok chunk ->
  yields (chunk_next opts) {| cs_reader := write_delta last chunk; cs_last := last |} chunk.
Proof.
  intros Hd Hc. revert last. induction Hc as [|item chunk Hi Hc IH]; intros last.
  { eapply yields_end. unfold chunk_next. by rewrite Hd. }
  eapply yields_item; [|exact (IH item)]. unfold chunk_next. rewrite Hd. cbn [cs_reader write_delta cs_last].
  pose proof (dec_app _ _ _ (decodes_DeltaDecoder_Read last item (item_ok_alloc _ Hi)) (write_delta item chunk)) as E.
  unfold DeltaEncoder_Write in *. cbn [fst] in E. by rewrite E.
Qed.

Variable P : bytes -> Prop.
Hypothesis Ho : weak_order P less.

Lemma open_chunks_ok chunks :
  Forall (Forall item_ok) chunks -> Forall (Forall P) chunks ->
  exists streams ls, open_chunks opts (sortAndSaveChunk opts <$> chunks) = Ok streams /\
    Forall2 (stream_ok (chunk_next opts) less P) streams ls /\ concat ls ≡ₚ concat chunks.
Proof.
  induction chunks as [|chunk chunks IH]; intros Hi HP; [by exists [], []|].
  apply Forall_cons in Hi as [Hi Hi'], HP as [HP HP']. destruct (IH Hi' HP') as (ss & ls & E & HF & Hp).
  pose proof (sort_perm less chunk) as Hs. set (sorted := sort_Slice less chunk) in *.
  set (out := if DeltaEncoding opts then write_delta [] sorted else write_plain sorted).
  exists ({| cs_reader := out; cs_last := [] |} :: ss), (sorted :: ls). split; [|split].
  - cbn [fmap list_fmap open_chunks]. rewrite E. unfold sortAndSaveChunk. fold sorted out.
    destruct (SnappyCompression opts); [rewrite snappy_decode_encode|]; done.
  - constructor; [|done]. split; [|split].
    + unfold out. destruct (DeltaEncoding opts) eqn:Ed; [apply delta_yields|apply plain_yields]; try done; by rewrite Hs.
    + by apply (sort_ordered P).
    + by rewrite Hs.
  - cbn [concat]. by rewrite Hs, Hp.
Qed.

(** ** The states of the sorter *)

Definition chunk_size (chunk : list bytes) : Z := foldr (fun item n => zlen item + 4 + n) 0 chunk.

(** The items fed so far are in the chunks, unless a failure has been recorded. *)
Record sorting (s : ExtSorter) (items : list bytes) : Prop := {
  so_items : failures s = [] -> exists chunks, chunkFiles s = sortAndSaveChunk opts <$> chunks /\
    items ≡ₚ concat chunks ++ concat (running s) ++ currentChunk s;
  so_size : currentChunkSize s = chunk_size (currentChunk s);
  so_bound : currentChunk s = [] \/ chunk_size (currentChunk s) < MaxChunkSize opts
}.

Lemma chunk_size_nonneg chunk : 0 <= chunk_size chunk.
Proof. induction chunk as [|item chunk IH]; simpl; [done|]. pose proof (zlen_nonneg item). lia. Qed.

Lemma chunk_size_snoc chunk item : chunk_size (chunk ++ [item]) = chunk_size chunk + (zlen item + 4).
Proof. induction chunk as [|x chunk IH]; simpl; [lia|]. unfold chunk_size in *. lia. Qed.

Lemma New_sorting : sorting New [].
Proof. split; [intros _; by exists []|done|by left]. Qed.

Lemma rotate_items s items :
  (failures s = [] -> exists chunks, chunkFiles s = sortAndSaveChunk opts <$> chunks /\
    items ≡ₚ concat chunks ++ concat (running s) ++ currentChunk s) ->
  sorting (sortChunkAndRotate s) items.
Proof.
  intros Hi. split; [|done|by left]. intros Hf. destruct (Hi Hf) as (chunks & Ef & Hp). exists chunks.
  split; [done|]. cbn [sortChunkAndRotate running currentChunk].
  rewrite concat_app, app_nil_r. cbn [concat]. by rewrite app_nil_r.
Qed.

Lemma Feed_sorting s items item :
  sorting s items -> MaxChunkSize opts <= 2 ^ 62 -> item_ok item ->
  exists s', Feed opts item s = Ok s' /\ sorting s' (items ++ [item]) /\ failures s' = failures s.
Proof.
  intros [Hi Hs Hb] Hm Hit. unfold Feed, item_ok in *. rewrite (proj2 (Z.ltb_ge _ _)) by done.
  pose proof (zlen_nonneg item). pose proof (chunk_size_nonneg (currentChunk s)).
  assert (Hsz : i64 (currentChunkSize s + (zlen item + 4)) = chunk_size (currentChunk s ++ [item])).
  { rewrite chunk_size_snoc, Hs. apply i64_small. unfold MaxUint32 in *. destruct Hb as [->|Hb]; simpl; lia. }
  set (s1 := {| currentChunk := _ |}). assert (Hi1 : failures s1 = [] -> exists chunks,
    chunkFiles s1 = sortAndSaveChunk opts <$> chunks /\ items ++ [item] ≡ₚ concat chunks ++ concat (running s1) ++ currentChunk s1).
  { intros Hf. destruct (Hi Hf) as (chunks & Ef & Hp). exists chunks. split; [done|]. simpl. by rewrite Hp, <- !app_assoc. }
  destruct (Z.leb_spec (MaxChunkSize opts) (currentChunkSize s1)) as [Hle|Hlt].
  - exists (sortChunkAndRotate s1). split; [done|]. split; [by apply rotate_items|done].
  - exists s1. split; [done|]. split; [|done]. split; [done|exact Hsz|right]. cbn [currentChunk s1]. by rewrite <- Hsz.
Qed.

Lemma concat_delete {A} (ls : list (list A)) i l : ls !! i = Some l -> concat ls ≡ₚ l ++ concat (delete i ls).
Proof.
  revert i. induction ls as [|x ls IH]; intros [|i] Hi; simplify_eq/=; [done|]. rewrite (IH i Hi), !app_assoc.
  by apply Permutation_app_tail, Permutation_app_comm.
Qed.

Lemma job_done_sorting i err s items : sorting s items -> sorting (job_done opts i err s) items.
Proof.
  intros [Hi Hs Hb]. unfold job_done. destruct (running s !! i) as [chunk|] eqn:E; [|done].
  split; [|done|done]. cbn [failures chunkFiles running currentChunk].
  intros Hf. destruct err as [e|]; [by apply app_eq_nil in Hf as [_ ?]|]. destruct (Hi Hf) as (chunks & -> & Hp).
  exists (chunks ++ [chunk]). split; [by rewrite fmap_app|]. rewrite Hp, (concat_delete _ _ _ E), concat_app.
  cbn [concat]. by rewrite app_nil_r, <- !app_assoc.
Qed.

(** A failure is recorded for good, and only when a goroutine reports one. *)
Lemma job_done_failures i err s :
  (failures s <> [] -> failures (job_done opts i err s) <> []) /\
  (err = None -> failures (job_done opts i err s) = failures s).
Proof.
  unfold job_done. destruct (running s !! i), err as [e|]; cbn [failures]; split; try done.
  intros _ Hf. by apply app_eq_nil in Hf as [_ ?].
Qed.

Lemma wait_sorting n sched s items :
  sorting s items -> length (running s) = n ->
  sorting (wait opts n sched s) items /\ running (wait opts n sched s) = [] /\
  currentChunk (wait opts n sched s) = currentChunk s /\
  (Forall (fun x => x.2 = None) sched -> failures (wait opts n sched s) = failures s).
Proof.
  revert sched s. induction n as [|n IH]; intros sched s Hs Hn.
  { simpl. apply length_zero_iff_nil in Hn. done. }
  cbn [wait]. destruct (default (O, None) (head sched)) as [i err] eqn:Ed.
  set (k := (i mod length (running s))%nat). set (s1 := job_done opts k err s).
  assert (Hk : (k < length (running s))%nat) by (apply Nat.mod_upper_bound; lia).
  destruct (lookup_lt_is_Some_2 _ _ Hk) as [chunk Ek].
  assert (Hl : length (running s1) = n).
  { unfold s1, job_done. rewrite Ek. cbn [running]. rewrite length_delete by eauto. lia. }
  destruct (IH (tail sched) s1) as (Hs1 & Hr & Hc & Hf); [by apply job_done_sorting|done|].
  split; [done|]. split; [done|]. split; [rewrite Hc; unfold s1, job_done; by rewrite Ek|].
  intros Hsched. rewrite Hf by (by apply Forall_tail). apply job_done_failures.
  destruct sched as [|[i' err'] sched]; simplify_eq/=; [done|]. by apply Forall_cons in Hsched as [? _].
Qed.

(** The errors that goroutines report while items are fed and while [Finalize] waits. *)
Definition reported (events : list event) (sched : list (nat * option error)) : list error :=
  omap (fun e => match e with EDone _ err => err | _ => None end) events ++ omap snd sched.

Lemma feed_all_sorting events s items :
  sorting s items -> MaxChunkSize opts <= 2 ^ 62 -> Forall item_ok (fed events) ->
  exists s', feed_all opts events s = Ok s' /\ sorting s' (items ++ fed events) /\
    (reported events [] = [] -> failures s' = failures s).
Proof.
  intros Hs Hm. revert s items Hs. induction events as [|[item|i err] events IH]; intros s items Hs Hf.
  - exists s. by rewrite app_nil_r.
  - apply Forall_cons in Hf as [Hi Hf]. destruct (Feed_sorting s items item Hs Hm Hi) as (s1 & E & Hs1 & Ef).
    destruct (IH s1 (items ++ [item]) Hs1 Hf) as (s' & E' & Hs' & Hr). exists s'. cbn [feed_all]. rewrite E.
    split; [done|]. split; [by rewrite <- app_assoc in Hs'|]. by rewrite <- Ef.
  - destruct (IH (job_done opts i err s) items) as (s' & E' & Hs' & Hr); [by apply job_done_sorting|done|].
    exists s'. split; [done|]. split; [done|]. unfold reported in *. cbn [omap list_omap].
    destruct err as [e|]; [done|]. intros Hn. rewrite Hr by done. by apply job_done_failures.
Qed.

Lemma clean_sched (sched : list (nat * option error)) : omap snd sched = [] -> Forall (fun x => x.2 = None) sched.
Proof. induction sched as [|[i [e|]] sched IH]; simpl; [constructor|done|]. intros. constructor; auto. Qed.

Lemma Forall_concat_inv {A} (Q : A -> Prop) ls : Forall Q (concat ls) -> Forall (Forall Q) ls.
Proof. induction ls as [|l ls IH]; simpl; [constructor|]. rewrite Forall_app. intros [? ?]. constructor; auto. Qed.

Lemma Finalize_merging sched s items :
  sorting s items -> Forall item_ok items -> Forall P items ->
  (exists reader, Finalize opts sched s = Ok reader /\ merging (chunk_next opts) less P reader items) \/
  ((exists e, Finalize opts sched s = Err e) /\ ~ (failures s = [] /\ omap snd sched = [])).
Proof.
  intros Hs Hi HP. unfold Finalize.
  set (s1 := if 0 <? currentChunkSize s then sortChunkAndRotate s else s).
  assert (Hs1 : sorting s1 items /\ currentChunk s1 = [] /\ failures s1 = failures s).
  { unfold s1. destruct (Z.ltb_spec 0 (currentChunkSize s)) as [Hlt|Hle].
    - split; [|done]. apply rotate_items, so_items, Hs.
    - split; [done|]. split; [|done]. rewrite (so_size _ _ Hs) in Hle. destruct (currentChunk s) as [|x c]; [done|].
      simpl in Hle. pose proof (zlen_nonneg x). pose proof (chunk_size_nonneg c). unfold chunk_size in *. lia. }
  destruct Hs1 as (Hs1 & Hc1 & Hf1).
  destruct (wait_sorting _ sched s1 items Hs1 eq_refl) as (Hs2 & Hr2 & Hc2 & Hf2). set (s2 := wait _ _ _ _) in *.
  destruct (failures s2) as [|e l] eqn:Ef.
  - left. destruct (so_items _ _ Hs2 Ef) as (chunks & -> & Hp). rewrite Hr2, Hc2, Hc1, !app_nil_r in Hp.
    destruct (open_chunks_ok chunks) as (ss & ls & -> & HF & Hpl);
      [by apply Forall_concat_inv; rewrite <- Hp|by apply Forall_concat_inv; rewrite <- Hp|].
    destruct (NewMultiWayMerge_ok _ _ P Ho ss ls HF) as (es & E & [(ls' & HF' & Hp') Hh]).
    exists es. split; [exact E|]. split; [|done]. exists ls'. split; [done|]. by rewrite Hp, <- Hpl.
  - right. split; [by eexists|]. intros [Hf Hn]. specialize (Hf2 (clean_sched _ Hn)). congruence.
Qed.

Lemma Spawn_cases events sched :
  MaxChunkSize opts <= 2 ^ 62 -> Forall item_ok (fed events) -> Forall P (fed events) ->
  (exists out, Spawn opts events sched = Ok out /\ out ≡ₚ fed events /\ ordered less out) \/
  (Spawn opts events sched = Panic /\ reported events sched <> []).
Proof.
  intros Hm Hi HP. unfold Spawn.
  destruct (feed_all_sorting events New [] New_sorting Hm Hi) as (s & -> & Hs & Hf). cbn [must mbind res_bind].
  destruct (Finalize_merging sched s _ Hs Hi HP) as [(reader & -> & Hr)|[[e ->] Hn]]; cbn [must mbind res_bind].
  - left. destruct (drain_ok _ _ _ Ho (S (length (fed events))) reader _ Hr) as (out & -> & Hp & Hs'); [simpl; lia|].
    by exists out.
  - right. split; [done|]. intros Hrep. apply Hn. unfold reported in Hrep.
    apply app_eq_nil in Hrep as [Hrep ?]. split; [|done]. rewrite Hf; [done|]. unfold reported. by rewrite Hrep.
Qed.
End sorter.

(** ** The properties *)


(** A codec that stores the bytes. *)
#[export] Instance stored_ops : SnappyOps := {| snappy_encode bz := bz; snappy_decode bz := Ok bz |}.
#[export] Instance stored_laws : SnappyLaws.
Proof. by split. Qed.

Definition shorter (a b : bytes) : bool := zlen a <? zlen b.

Lemma shorter_weak_order : weak_order (fun _ => True) shorter.
Proof. unfold shorter. split; intros; rewrite ?Z.ltb_lt, ?Z.ltb_ge in *; lia. Qed.

Definition sample_opts : Options :=
  {| DeltaEncoding := true; SnappyCompression := true; MaxChunkSize := 14; LesserFunc := shorter |}.
Definition sample_events : list event :=
  [EFeed (str "abcd"); EFeed (str "ab"); EFeed (str "abc"); EDone 0 None; EFeed []; EFeed (str "a")].


Lemma extsort_sample :
  Spawn sample_opts sample_events [(3%nat, None)] = Ok [[]; str "a"; str "ab"; str "abc"; str "abcd"].
Proof. reflexivity. Qed.
