(* ===== verification/Rocks.v ===== *)
(** * RocksDB with user-defined timestamps (github.com/linxGnu/grocksdb)

    What the version database uses of RocksDB, as an interface: a default column family and one
    whose keys carry a timestamp.  A write batch is atomic; a read at a timestamp sees for each
    key the newest entry that is not newer, unless it is a deletion; an iterator walks over the
    keys that such a read sees, in their order.  [mem_rocks] is an implementation in memory. *)

From Stdlib Require Import Strings.Byte ZArith Lia.
From stdpp Require Import base gmap list numbers strings sorting.
From S2P Require Import Prelude Binary State.
Local Open Scope Z_scope.

(** Timestamps are eight little-endian bytes. *)
Inductive batch_op :=
| Put (key value : bytes)
| PutCFWithTS (key ts value : bytes)
| DeleteCFWithTS (key ts : bytes).

(** ** The contents of the timestamped column family *)

Abbreviation history := (gmap (bytes * Z) (option bytes)).

(** The newest entry of a key at a timestamp; [None] as its value is a deletion. *)
Definition newer (k : bytes) (t : Z) (e : bytes * Z * option bytes) (acc : option (Z * option bytes))
    : option (Z * option bytes) :=
  let '(k', ts, o) := e in
  if bool_decide (k' = k) && (ts <=? t) && match acc with None => true | Some (ts', _) => ts' <? ts end
  then Some (ts, o) else acc.

Definition newest (m : history) (k : bytes) (t : Z) : option (Z * option bytes) :=
  foldr (newer k t) None (map_to_list m).

(** What a read sees: the value and its timestamp. *)
Definition visible (m : history) (k : bytes) (t : Z) : option (bytes * Z) :=
  match newest m k t with Some (ts, Some v) => Some (v, ts) | _ => None end.

Definition apply_op (m : history) (op : batch_op) : history :=
  match op with
  | Put _ _ => m
  | PutCFWithTS k ts v => <[(k, le_get ts) := Some v]> m
  | DeleteCFWithTS k ts => <[(k, le_get ts) := None]> m
  end.

Definition apply_default (m : gmap bytes bytes) (op : batch_op) : gmap bytes bytes :=
  match op with Put k v => <[k := v]> m | _ => m end.

Lemma newest_list_spec (l : list (bytes * Z * option bytes)) k t :
  match foldr (newer k t) None l with
  | Some (ts, o) => (k, ts, o) ∈ l /\ ts <= t /\ forall ts' o', (k, ts', o') ∈ l -> ts' <= t -> ts' <= ts
  | None => forall ts o, (k, ts, o) ∈ l -> t < ts
  end.
Proof.
  induction l as [|[[k' ts] o] l IH]; cbn [foldr].
  { intros ts o H. by apply elem_of_nil in H. }
  unfold newer at 1. case_bool_decide as Hk; [subst k'|]; simpl.
  - destruct (Z.leb_spec ts t) as [Hle|Hlt]; simpl.
    + destruct (foldr _ _ _) as [[ts1 o1]|].
      * destruct IH as (Hin & H1 & Hm). destruct (Z.ltb_spec ts1 ts); (split; [by constructor|]); (split; [done|]);
          intros ts' o' [E|Hin']%elem_of_cons Hle'; [simplify_eq; lia|specialize (Hm _ _ Hin' Hle'); lia|simplify_eq; lia|by eapply Hm].
      * split; [by constructor|]. split; [done|]. intros ts' o' [E|Hin']%elem_of_cons Hle'; [simplify_eq; lia|].
        specialize (IH _ _ Hin'). lia.
    + destruct (foldr _ _ _) as [[ts1 o1]|].
      * destruct IH as (Hin & H1 & Hm). split; [by constructor|]. split; [done|].
        intros ts' o' [E|Hin']%elem_of_cons Hle'; [simplify_eq; lia|by eapply Hm].
      * intros ts' o' [E|Hin']%elem_of_cons; [by simplify_eq|by eapply IH].
  - destruct (foldr _ _ _) as [[ts1 o1]|].
    + destruct IH as (Hin & H1 & Hm). split; [by constructor|]. split; [done|].
      intros ts' o' [E|Hin']%elem_of_cons Hle'; [by simplify_eq|by eapply Hm].
    + intros ts' o' [E|Hin']%elem_of_cons; [by simplify_eq|by eapply IH].
Qed.

Lemma newest_Some m k t ts o :
  newest m k t = Some (ts, o) <->
  m !! (k, ts) = Some o /\ ts <= t /\ forall ts', ts < ts' <= t -> m !! (k, ts') = None.
Proof.
  pose proof (newest_list_spec (map_to_list m) k t) as Hs. fold (newest m k t) in Hs. split.
  - intros E. rewrite E in Hs. destruct Hs as (Hin & Hle & Hm). split; [by apply elem_of_map_to_list in Hin|].
    split; [done|]. intros ts' Hts. destruct (m !! (k, ts')) as [o'|] eqn:Em; [|done].
    apply elem_of_map_to_list in Em. specialize (Hm _ _ Em). lia.
  - intros (Hin & Hle & Hm). destruct (newest m k t) as [[ts1 o1]|].
    + destruct Hs as (Hin1 & Hle1 & Hm1). apply elem_of_map_to_list in Hin1.
      assert (ts1 = ts) as ->; [|by simplify_eq]. pose proof (Hm1 ts o) as Hts. rewrite elem_of_map_to_list in Hts.
      destruct (Z_lt_dec ts ts1) as [Hlt|]; [|specialize (Hts Hin Hle); lia]. by rewrite Hm in Hin1.
    + apply elem_of_map_to_list in Hin. apply Hs in Hin. lia.
Qed.

Lemma newest_None m k t : newest m k t = None -> forall ts, ts <= t -> m !! (k, ts) = None.
Proof.
  intros E ts Hts. pose proof (newest_list_spec (map_to_list m) k t) as Hs. fold (newest m k t) in Hs. rewrite E in Hs.
  destruct (m !! (k, ts)) as [o|] eqn:Em; [|done]. apply elem_of_map_to_list in Em. apply Hs in Em. lia.
Qed.

(** The newest entry of a key depends on the entries of the key only. *)
Lemma newest_ext m m' k t : (forall ts, m' !! (k, ts) = m !! (k, ts)) -> newest m' k t = newest m k t.
Proof. intros E. apply option_eq. intros [ts o]. rewrite !newest_Some, E. by setoid_rewrite E. Qed.

(** The latest write is the newest entry of its key. *)
Lemma newest_insert m k h o k' t :
  (forall ts o', m !! (k, ts) = Some o' -> ts <= h) ->
  newest (<[(k, h) := o]> m) k' t = if bool_decide (k' = k) && (h <=? t) then Some (h, o) else newest m k' t.
Proof.
  intros Hh. case_bool_decide as Hk; [subst k'; destruct (Z.leb_spec h t) as [Hle|Hlt]|]; simpl.
  - apply newest_Some. rewrite lookup_insert_eq. split; [done|]. split; [done|]. intros ts' Hts.
    rewrite lookup_insert_ne by (intros [=]; lia). destruct (m !! (k, ts')) as [o'|] eqn:E; [|done].
    apply Hh in E. lia.
  - apply option_eq. intros [ts o1]. rewrite !newest_Some. split; intros (E & Hle & Hm).
    + rewrite lookup_insert_ne in E by (intros [=]; lia). split; [done|]. split; [done|]. intros ts' Hts.
      specialize (Hm _ Hts). by rewrite lookup_insert_ne in Hm by (intros [=]; lia).
    + rewrite lookup_insert_ne by (intros [=]; lia). split; [done|]. split; [done|]. intros ts' Hts.
      rewrite lookup_insert_ne by (intros [=]; lia). by apply Hm.
  - apply option_eq. intros [ts o1]. rewrite !newest_Some.
    assert (Hne : forall ts, <[(k, h):=o]> m !! (k', ts) = m !! (k', ts)) by (intros; by rewrite lookup_insert_ne by congruence).
    rewrite Hne. setoid_rewrite Hne. done.
Qed.

(** ** The interface *)

Class RocksOps (DB Iter : Type) := {
  db_Write : list batch_op -> SE DB unit;
  db_GetBytes : DB -> bytes -> res (option bytes);
  (** The value if there is one, and its timestamp. *)
  db_GetCFWithTS : DB -> bytes -> bytes -> res (option bytes * bytes);
  db_NewIteratorCF : DB -> bytes -> Iter;
  (** [OpenDbAndTrimHistory] *)
  db_TrimHistory : DB -> bytes -> DB;
  it_SeekToFirst : Iter -> Iter;
  it_SeekToLast : Iter -> Iter;
  it_Seek : bytes -> Iter -> Iter;
  it_Next : Iter -> Iter;
  it_Prev : Iter -> Iter;
  it_Valid : Iter -> bool;
  it_Err : Iter -> option error;
  it_Key : Iter -> bytes;
  it_Value : Iter -> bytes;
  it_Timestamp : Iter -> bytes
}.

(** An entry that a read at the timestamp of the iterator sees. *)
Record ientry := { ie_key : bytes; ie_value : bytes; ie_ts : Z }.

Definition lists (m : history) (t : Z) (l : list ientry) : Prop :=
  StronglySorted bytes_lt (ie_key <$> l) /\ forall e, e ∈ l <-> visible m (ie_key e) t = Some (ie_value e, ie_ts e).

(** The index of the first key that is not smaller. *)
Fixpoint seek_index (k : bytes) (l : list ientry) : nat :=
  match l with
  | [] => O
  | e :: l => if ltb (ie_key e) k then S (seek_index k l) else O
  end.

Definition index_of {A} (l : list A) (i : nat) : option nat := if (i <? length l)%nat then Some i else None.

Class RocksLaws DB Iter `{RocksOps DB Iter} := {
  (** The contents of the two column families. *)
  db_default : DB -> gmap bytes bytes;
  db_entries : DB -> history;
  (** The entries an iterator walks over, and where it is. *)
  it_list : Iter -> list ientry;
  it_pos : Iter -> option nat;

  Write_atomic : forall batch db,
    (exists db', db_Write batch db = (db', Ok tt) /\ db_default db' = foldl apply_default (db_default db) batch /\
      db_entries db' = foldl apply_op (db_entries db) batch) \/
    (exists db' e, db_Write batch db = (db', Err e) /\ db_default db' = db_default db /\ db_entries db' = db_entries db);
  GetBytes_lookup : forall db k, db_GetBytes db k = Ok (db_default db !! k);
  GetCF_visible : forall db ts k, exists ts', db_GetCFWithTS db ts k = Ok (fst <$> visible (db_entries db) k (le_get ts), ts') /\
    forall v t, visible (db_entries db) k (le_get ts) = Some (v, t) -> ts' = le_u64 t;
  (** The histories newer than the timestamp go; the default column family has none. *)
  TrimHistory_entries : forall db ts, db_entries (db_TrimHistory db ts) = filter (fun e => e.1.2 <= le_get ts) (db_entries db);
  TrimHistory_default : forall db ts, db_default (db_TrimHistory db ts) = db_default db;

  NewIterator_lists : forall db ts, lists (db_entries db) (le_get ts) (it_list (db_NewIteratorCF db ts));
  SeekToFirst_list : forall it, it_list (it_SeekToFirst it) = it_list it;
  SeekToFirst_pos : forall it, it_pos (it_SeekToFirst it) = index_of (it_list it) 0;
  SeekToLast_list : forall it, it_list (it_SeekToLast it) = it_list it;
  SeekToLast_pos : forall it, it_pos (it_SeekToLast it) = index_of (it_list it) (pred (length (it_list it)));
  Seek_list : forall k it, it_list (it_Seek k it) = it_list it;
  Seek_pos : forall k it, it_pos (it_Seek k it) = index_of (it_list it) (seek_index k (it_list it));
  Next_list : forall it, it_list (it_Next it) = it_list it;
  Next_pos : forall it i, it_pos it = Some i -> it_pos (it_Next it) = index_of (it_list it) (S i);
  Prev_list : forall it, it_list (it_Prev it) = it_list it;
  Prev_pos : forall it i, it_pos it = Some i -> it_pos (it_Prev it) = match i with O => None | S i => Some i end;
  Valid_pos : forall it, it_Valid it = bool_decide (is_Some (it_pos it));
  Err_none : forall it, it_Err it = None;
  entry_at : forall it i e, it_pos it = Some i -> it_list it !! i = Some e ->
    it_Key it = ie_key e /\ it_Value it = ie_value e /\ it_Timestamp it = le_u64 (ie_ts e)
}.

(** ** An implementation in memory *)

Record memDB := { mem_default : gmap bytes bytes; mem_entries : history }.
Record memIter := { mi_list : list ientry; mi_pos : option nat }.

Definition mem_empty : memDB := {| mem_default := ∅; mem_entries := ∅ |}.

(** The keys of [l] that a read sees. *)
Definition see_keys (m : history) (t : Z) (l : list (bytes * Z * option bytes)) : list (bytes * (bytes * Z)) :=
  foldr (fun e acc => match visible m e.1.1 t with Some vt => kv_insert e.1.1 vt acc | None => acc end) [] l.

Definition mem_list (m : history) (t : Z) : list ientry :=
  (fun x => {| ie_key := x.1; ie_value := x.2.1; ie_ts := x.2.2 |}) <$> see_keys m t (map_to_list m).

Definition mem_move (it : memIter) (pos : option nat) : memIter := {| mi_list := mi_list it; mi_pos := pos |}.
Definition mem_entry (it : memIter) : option ientry := mi_pos it ≫= fun i => mi_list it !! i.

#[export] Instance mem_rocks : RocksOps memDB memIter := {|
  db_Write batch db := ({| mem_default := foldl apply_default (mem_default db) batch;
                           mem_entries := foldl apply_op (mem_entries db) batch |}, Ok tt);
  db_GetBytes db k := Ok (mem_default db !! k);
  db_GetCFWithTS db ts k := let o := visible (mem_entries db) k (le_get ts) in
    Ok (fst <$> o, match o with Some (_, t) => le_u64 t | None => [] end);
  db_NewIteratorCF db ts := {| mi_list := mem_list (mem_entries db) (le_get ts); mi_pos := None |};
  db_TrimHistory db ts := {| mem_default := mem_default db;
                             mem_entries := filter (fun e => e.1.2 <= le_get ts) (mem_entries db) |};
  it_SeekToFirst it := mem_move it (index_of (mi_list it) 0);
  it_SeekToLast it := mem_move it (index_of (mi_list it) (pred (length (mi_list it))));
  it_Seek k it := mem_move it (index_of (mi_list it) (seek_index k (mi_list it)));
  it_Next it := mem_move it (mi_pos it ≫= fun i => index_of (mi_list it) (S i));
  it_Prev it := mem_move it (mi_pos it ≫= fun i => match i with O => None | S i => Some i end);
  it_Valid it := bool_decide (is_Some (mi_pos it));
  it_Err it := None;
  it_Key it := match mem_entry it with Some e => ie_key e | None => [] end;
  it_Value it := match mem_entry it with Some e => ie_value e | None => [] end;
  it_Timestamp it := match mem_entry it with Some e => le_u64 (ie_ts e) | None => [] end
|}.

Lemma see_keys_spec m t l :
  kv_sorted (see_keys m t l) /\
  forall k, kv_lookup k (see_keys m t l) = if bool_decide (k ∈ (fun e => e.1.1) <$> l) then visible m k t else None.
Proof.
  induction l as [|e l [Hs Hl]]; cbn [see_keys foldr]; [split; [constructor|]; intros k; by rewrite bool_decide_false by (by intros ?%elem_of_nil)|].
  fold (see_keys m t l). destruct (visible m e.1.1 t) as [vt|] eqn:E.
  - split; [by apply kv_insert_sorted|]. intros k. rewrite kv_lookup_insert by done. case_decide as Hk.
    + subst k. rewrite E. by rewrite bool_decide_true by (by left).
    + rewrite Hl. rewrite (bool_decide_ext (k ∈ (fun e => e.1.1) <$> e :: l) (k ∈ (fun e => e.1.1) <$> l)); [done|].
      cbn [fmap list_fmap]. rewrite elem_of_cons. naive_solver.
  - split; [done|]. intros k. rewrite Hl. cbn [fmap list_fmap]. case_bool_decide as H1; case_bool_decide as H2; try done.
    + destruct H2. by right.
    + apply elem_of_cons in H2 as [->|?]; [by rewrite E|done].
Qed.

Lemma visible_key m k t vt : visible m k t = Some vt -> k ∈ (fun e => e.1.1) <$> map_to_list m.
Proof.
  unfold visible. destruct (newest m k t) as [[ts o]|] eqn:E; [|done]. intros _.
  apply newest_Some in E as (E & _). apply elem_of_map_to_list in E. apply list_elem_of_fmap. by exists (k, ts, o).
Qed.

Lemma mem_list_lists m t : lists m t (mem_list m t).
Proof.
  destruct (see_keys_spec m t (map_to_list m)) as [Hs Hl]. unfold lists, mem_list. split.
  - rewrite <- list_fmap_compose. done.
  - intros [k v ts]. cbn [ie_key ie_value ie_ts].
    assert (Hv : visible m k t = kv_lookup k (see_keys m t (map_to_list m))).
    { rewrite Hl. case_bool_decide as Hk; [done|]. destruct (visible m k t) as [vt|] eqn:E; [|done].
      by apply visible_key in E. }
    rewrite Hv, <- kv_elem_lookup by done. rewrite list_elem_of_fmap. split.
    + intros ([k' [v' ts']] & E & Hin). by simplify_eq/=.
    + intros Hin. by exists (k, (v, ts)).
Qed.

#[export] Program Instance mem_rocks_laws : RocksLaws memDB memIter := {|
  db_default := mem_default; db_entries := mem_entries; it_list := mi_list; it_pos := mi_pos |}.
Next Obligation. intros batch db. left. by eexists. Qed.
Next Obligation. done. Qed.
Next Obligation. intros db ts k. eexists. split; [done|]. by intros v t ->. Qed.
Next Obligation. done. Qed.
Next Obligation. done. Qed.
Next Obligation. intros. apply mem_list_lists. Qed.
Next Obligation. done. Qed.
Next Obligation. done. Qed.
Next Obligation. done. Qed.
Next Obligation. done. Qed.
Next Obligation. done. Qed.
Next Obligation. done. Qed.
Next Obligation. done. Qed.
Next Obligation. intros it i Hi. cbn. by rewrite Hi. Qed.
Next Obligation. done. Qed.
Next Obligation. intros it i Hi. cbn. by rewrite Hi. Qed.
Next Obligation. done. Qed.
Next Obligation. done. Qed.
Next Obligation. intros it i e Hi He. cbn. unfold mem_entry. rewrite Hi. cbn [mbind option_bind]. by rewrite He. Qed.
