(* ===== verification/VersionDB.v ===== *)
(** * The version database (versiondb, versiondb/tsrocksdb)

    The timestamp comparator, the store over RocksDB with its iterator, the repair of entries
    written at version zero, and the read-only [KVStore] and the streaming service on top of it.
    A Go string and a byte slice are [bytes]; a nil slice is [None] where it differs from an
    empty one. *)

From Stdlib Require Import Strings.Byte ZArith Lia.
From stdpp Require Import base gmap list numbers strings.
From S2P Require Import Prelude Binary Proto State Rocks.
Local Open Scope Z_scope.

Definition TimestampSize : Z := 8.
Definition latestVersionKey : bytes := str "s/latest".
Definition ImportCommitBatchSize : nat := Z.to_nat 10000.

(** ** The comparator (comparator.go) *)

Definition cmp_int (c : comparison) : Z := match c with Lt => -1 | Eq => 0 | Gt => 1 end.

Definition compareTS (bz1 bz2 : bytes) : res Z :=
  ts1 ← of_option (Uint64_at bz1 0);
  ts2 ← of_option (Uint64_at bz2 0);
  Ok (if ts1 <? ts2 then -1 else if ts2 <? ts1 then 1 else 0).

Definition compareWithoutTS (a : bytes) (aHasTS : bool) (b : bytes) (bHasTS : bool) : res Z :=
  a ← (if aHasTS then of_option (slice a 0 (zlen a - TimestampSize)) else Ok a);
  b ← (if bHasTS then of_option (slice b 0 (zlen b - TimestampSize)) else Ok b);
  Ok (cmp_int (Compare a b)).

Definition compare (a b : bytes) : res Z :=
  ret ← compareWithoutTS a true b true;
  if negb (ret =? 0) then Ok ret
  else
    ta ← of_option (slice a (zlen a - TimestampSize) (zlen a));
    tb ← of_option (slice b (zlen b - TimestampSize) (zlen b));
    c ← compareTS ta tb;
    Ok (- c).

(** ** Keys (store.go) *)

(** [StorePrefixTpl] is "s/k:%s/". *)
Definition storePrefix (storeKey : bytes) : bytes := str "s/k:" ++ storeKey ++ str "/".
Definition prependStoreKey (storeKey key : bytes) : bytes := storePrefix storeKey ++ key.
Definition cloneAppend (bz tail : bytes) : bytes := bz ++ tail.

(** The loop at index [i - 1]. *)
Fixpoint cpIncr_loop (i : nat) (ret : bytes) : option bytes :=
  match i with
  | O => None
  | S i =>
      match ret !! i with
      | None => None
      | Some b =>
          if byte_to_Z b <? 255 then Some (<[i := byte_of_Z (byte_to_Z b + 1)]> ret)
          else
            let ret := <[i := x00]> ret in
            if (i =? 0)%nat then None else cpIncr_loop i ret
      end
  end.

Definition cpIncr (bz : bytes) : res (option bytes) :=
  if zlen bz =? 0 then Panic else Ok (cpIncr_loop (length bz) bz).

Definition iterateWithPrefix (prefix : bytes) (begin end_ : option bytes) : res (option bytes * option bytes) :=
  if zlen prefix =? 0 then Ok (begin, end_)
  else
    let begin := cloneAppend prefix (default [] begin) in
    end_ ← match end_ with
           | None => cpIncr prefix
           | Some e => Ok (Some (cloneAppend prefix e))
           end;
    Ok (Some begin, end_).

(** A version as a timestamp; no version is the largest one. *)
Definition version_ts (version : Z) : bytes := le_u64 (u64 version).
Definition newTSReadOptions (version : option Z) : bytes :=
  le_u64 (match version with None => MaxUint64 | Some v => u64 v end).

(** [types.StoreKVPair] *)
Record StoreKVPair := { skv_StoreKey : bytes; skv_Delete : bool; skv_Key : bytes; skv_Value : bytes }.

(** ** The iterator (iterator.go) *)

Section store.
  Context {DB Iter : Type} `{RocksOps DB Iter}.

Record rocksDBIterator := {
  source : Iter;
  itr_prefix : bytes;
  itr_start : option bytes;
  itr_end : option bytes;
  isReverse : bool;
  isInvalid : bool;
  itr_skipVersionZero : bool
}.

Definition with_source (itr : rocksDBIterator) (s : Iter) : rocksDBIterator :=
  {| source := s; itr_prefix := itr_prefix itr; itr_start := itr_start itr; itr_end := itr_end itr;
     isReverse := isReverse itr; isInvalid := isInvalid itr; itr_skipVersionZero := itr_skipVersionZero itr |}.

Definition invalidate (itr : rocksDBIterator) : rocksDBIterator :=
  {| source := source itr; itr_prefix := itr_prefix itr; itr_start := itr_start itr; itr_end := itr_end itr;
     isReverse := isReverse itr; isInvalid := true; itr_skipVersionZero := itr_skipVersionZero itr |}.

(** The iterator remembers that it has become invalid. *)
Definition Valid (itr : rocksDBIterator) : rocksDBIterator * bool :=
  if isInvalid itr then (itr, false)
  else match it_Err (source itr) with
  | Some _ => (invalidate itr, false)
  | None =>
      if negb (it_Valid (source itr)) then (invalidate itr, false)
      else
        let key := it_Key (source itr) in
        if isReverse itr then
          match itr_start itr with
          | Some start => if ltb key start then (invalidate itr, false) else (itr, true)
          | None => (itr, true)
          end
        else
          match itr_end itr with
          | Some end_ => if negb (ltb key end_) then (invalidate itr, false) else (itr, true)
          | None => (itr, true)
          end
  end.

Definition assertIsValid (itr : rocksDBIterator) : res rocksDBIterator :=
  let '(itr, ok) := Valid itr in if ok : bool then Ok itr else Panic.

Definition timestamp (itr : rocksDBIterator) : res Z := of_option (Uint64_at (it_Timestamp (source itr)) 0).

(** [source.Prev] or [source.Next], by the direction. *)
Definition advance (itr : rocksDBIterator) : rocksDBIterator :=
  with_source itr (if isReverse itr then it_Prev (source itr) else it_Next (source itr)).

(** Every round moves on; an entry of the database is enough fuel for one round. *)
Fixpoint skip_zero_loop (fuel : nat) (itr : rocksDBIterator) : res rocksDBIterator :=
  match fuel with
  | O => out_of_fuel
  | S fuel =>
      let '(itr, ok) := Valid itr in
      if ok : bool then
        ts ← timestamp itr;
        if ts =? 0 then skip_zero_loop fuel (advance itr) else Ok itr
      else Ok itr
  end.

Definition trySkipZeroVersion (fuel : nat) (itr : rocksDBIterator) : res rocksDBIterator :=
  if itr_skipVersionZero itr then skip_zero_loop fuel itr else Ok itr.

Definition newRocksDBIterator (fuel : nat) (s : Iter) (prefix : bytes) (start end_ : option bytes)
    (isReverse skipVersionZero : bool) : res rocksDBIterator :=
  let s :=
    if isReverse then
      match end_ with
      | None => it_SeekToLast s
      | Some e =>
          let s := it_Seek e s in
          if it_Valid s then
            let eoakey := it_Key s in
            if negb (ltb eoakey e) then it_Prev s else s
          else it_SeekToLast s
      end
    else
      match start with
      | None => it_SeekToFirst s
      | Some st => it_Seek st s
      end in
  trySkipZeroVersion fuel
    {| source := s; itr_prefix := prefix; itr_start := start; itr_end := end_; isReverse := isReverse;
       isInvalid := false; itr_skipVersionZero := skipVersionZero |}.

Definition Timestamp (itr : rocksDBIterator) : res (rocksDBIterator * bytes) :=
  itr ← assertIsValid itr; Ok (itr, it_Timestamp (source itr)).

Definition Key (itr : rocksDBIterator) : res (rocksDBIterator * bytes) :=
  itr ← assertIsValid itr;
  let key := it_Key (source itr) in
  k ← of_option (slice key (zlen (itr_prefix itr)) (zlen key));
  Ok (itr, k).

Definition Value (itr : rocksDBIterator) : res (rocksDBIterator * bytes) :=
  itr ← assertIsValid itr; Ok (itr, it_Value (source itr)).

Definition Next (fuel : nat) (itr : rocksDBIterator) : res rocksDBIterator :=
  itr ← assertIsValid itr;
  trySkipZeroVersion fuel (advance itr).

(** ** The store (store.go) *)

Record Store := { db : DB; skipVersionZero : bool }.

Definition NewStore (d : DB) : Store := {| db := d; skipVersionZero := false |}.
Definition NewStoreAtVersion (d : DB) (version : Z) : Store :=
  {| db := db_TrimHistory d (version_ts version); skipVersionZero := false |}.
Definition SetSkipVersionZero (skip : bool) (s : Store) : Store := {| db := db s; skipVersionZero := skip |}.

(** [s.db.Write(batch)] *)
Definition Write (batch : list batch_op) : SE Store unit := fun s =>
  let '(d, r) := db_Write batch (db s) in ({| db := d; skipVersionZero := skipVersionZero s |}, r).

Definition SetLatestVersion (version : Z) : SE Store unit := Write [Put latestVersionKey (version_ts version)].

Definition put_pair (ts : bytes) (p : StoreKVPair) : batch_op :=
  let key := prependStoreKey (skv_StoreKey p) (skv_Key p) in
  if skv_Delete p then DeleteCFWithTS key ts else PutCFWithTS key ts (skv_Value p).

Definition PutAtVersion (version : Z) (changeSet : list StoreKVPair) : SE Store unit :=
  let ts := version_ts version in
  Write (Put latestVersionKey ts :: (put_pair ts <$> changeSet)).

Definition GetAtVersionSlice (s : Store) (storeKey key : bytes) (version : option Z) : res (option bytes) :=
  '(value, ts) ← db_GetCFWithTS (db s) (newTSReadOptions version) (prependStoreKey storeKey key);
  match value with
  | Some _ =>
      if skipVersionZero s then
        t ← of_option (Uint64_at ts 0);
        if t =? 0 then Ok None else Ok value
      else Ok value
  | None => Ok value
  end.

Definition GetAtVersion (s : Store) (storeKey key : bytes) (version : option Z) : res (option bytes) :=
  GetAtVersionSlice s storeKey key version.

Definition HasAtVersion (s : Store) (storeKey key : bytes) (version : option Z) : res bool :=
  slice ← GetAtVersionSlice s storeKey key version; Ok (bool_decide (is_Some slice)).

Definition GetLatestVersion (s : Store) : res Z :=
  bz ← db_GetBytes (db s) latestVersionKey;
  if zlen (default [] bz) =? 0 then Ok 0
  else v ← of_option (Uint64_at (default [] bz) 0); Ok (i64 v).

Definition errKeyEmpty : error := "key cannot be empty".

Definition iteratorAtVersion (fuel : nat) (s : Store) (storeKey : bytes) (start end_ : option bytes)
    (version : option Z) (reverse : bool) : res rocksDBIterator :=
  if bool_decide (start = Some []) || bool_decide (end_ = Some []) then Err errKeyEmpty
  else
    let prefix := storePrefix storeKey in
    '(start, end_) ← iterateWithPrefix prefix start end_;
    let itr := db_NewIteratorCF (db s) (newTSReadOptions version) in
    newRocksDBIterator fuel itr prefix start end_ reverse (skipVersionZero s).

Definition IteratorAtVersion (fuel : nat) (s : Store) storeKey start end_ version : res rocksDBIterator :=
  iteratorAtVersion fuel s storeKey start end_ version false.
Definition ReverseIteratorAtVersion (fuel : nat) (s : Store) storeKey start end_ version : res rocksDBIterator :=
  iteratorAtVersion fuel s storeKey start end_ version true.

Definition feed_pair (prefix ts : bytes) (p : KVPair) : batch_op :=
  let key := cloneAppend prefix (kv_Key p) in
  if kv_Delete p then DeleteCFWithTS key ts else PutCFWithTS key ts (default [] (kv_Value p)).

Definition FeedChangeSet (version : Z) (storeKey : bytes) (changeSet : ChangeSet) : SE Store unit :=
  Write (feed_pair (storePrefix storeKey) (version_ts version) <$> Pairs changeSet).

Record ImportEntry := { imp_StoreKey : bytes; imp_Key : bytes; imp_Value : bytes }.

(** The loop over the channel, with the batch and the counter. *)
Fixpoint import_loop (ts : bytes) (ch : list ImportEntry) (batch : list batch_op) (counter : nat)
    : SE Store (list batch_op) :=
  match ch with
  | [] => mret batch
  | entry :: ch =>
      let key := cloneAppend (storePrefix (imp_StoreKey entry)) (imp_Key entry) in
      let batch := batch ++ [PutCFWithTS key ts (imp_Value entry)] in
      let counter := S counter in
      if (counter mod ImportCommitBatchSize =? 0)%nat
      then Write batch ;; import_loop ts ch [] counter
      else import_loop ts ch batch counter
  end.

Definition Import (version : Z) (ch : list ImportEntry) : SE Store unit :=
  batch ← import_loop (version_ts version) ch [] 0;
  (match batch with [] => mret tt | _ => Write batch end) ;;
  SetLatestVersion version.

(** ** Repairs *)

Record KVPairWithTS := { kvt_Key : bytes; kvt_Value : bytes; kvt_Timestamp : bytes }.

Definition ErrKeyLength : error := "invalid key length".

(** The loop of [loadWrongData]. *)
Fixpoint load_loop (fuel : nat) (iter : rocksDBIterator) (pairs : list KVPairWithTS) : res (list KVPairWithTS) :=
  match fuel with
  | O => out_of_fuel
  | S fuel' =>
      let '(iter, ok) := Valid iter in
      if ok : bool then
        '(iter, t) ← Timestamp iter;
        t ← of_option (Uint64_at t 0);
        if negb (t =? 0) then iter ← Next fuel iter; load_loop fuel' iter pairs
        else
          '(iter, key) ← Key iter;
          if zlen key <? TimestampSize then Err ErrKeyLength
          else
            ts ← of_option (slice key (zlen key - TimestampSize) (zlen key));
            key ← of_option (slice key 0 (zlen key - TimestampSize));
            '(iter, value) ← Value iter;
            iter ← Next fuel iter;
            load_loop fuel' iter (pairs ++ [{| kvt_Key := key; kvt_Value := value; kvt_Timestamp := ts |}])
      else Ok pairs
  end.

Definition loadWrongData (fuel : nat) (s : Store) (storeName : bytes) : res (list KVPairWithTS) :=
  iter ← IteratorAtVersion fuel s storeName None None (Some 0);
  load_loop fuel iter [].

(** The writes of [fixDataStore]. *)
Fixpoint fix_batch (s : Store) (prefix : bytes) (pairs : list KVPairWithTS) : res (list batch_op) :=
  match pairs with
  | [] => Ok []
  | p :: pairs =>
      let realKey := cloneAppend prefix (kvt_Key p) in
      '(oldValue, oldTimestamp) ← db_GetCFWithTS (db s) (kvt_Timestamp p) realKey;
      let clean := bool_decide (default [] oldValue = kvt_Value p) && bool_decide (oldTimestamp = kvt_Timestamp p) in
      batch ← fix_batch s prefix pairs;
      Ok (if clean then batch else PutCFWithTS realKey (kvt_Timestamp p) (kvt_Value p) :: batch)
  end.

Definition fixDataStore (fuel : nat) (storeName : bytes) (dryRun : bool) : SE Store unit := fun s =>
  match loadWrongData fuel s storeName with
  | Ok pairs =>
      match fix_batch s (storePrefix storeName) pairs with
      | Ok batch => if dryRun then (s, Ok tt) else Write batch s
      | Err e => (s, Err e)
      | Panic => (s, Panic)
      end
  | Err e => (s, Err e)
  | Panic => (s, Panic)
  end.

(** Without the flush of the memtables. *)
Definition FixData (fuel : nat) (storeNames : list bytes) (dryRun : bool) : SE Store unit :=
  for_each (fun storeName => fixDataStore fuel storeName dryRun) storeNames.

(** ** The key-value store at a version (versiondb/store.go) *)

Record KVStore := { kv_store : Store; kv_name : bytes; kv_version : option Z }.

Definition NewKVStore (store : Store) (storeKey : bytes) (version : option Z) : KVStore :=
  {| kv_store := store; kv_name := storeKey; kv_version := version |}.

Definition kv_Get (st : KVStore) (key : bytes) : res (option bytes) :=
  must (GetAtVersion (kv_store st) (kv_name st) key (kv_version st)).
Definition kv_Has (st : KVStore) (key : bytes) : res bool :=
  must (HasAtVersion (kv_store st) (kv_name st) key (kv_version st)).
Definition kv_Iterator (fuel : nat) (st : KVStore) (start end_ : option bytes) : res rocksDBIterator :=
  must (IteratorAtVersion fuel (kv_store st) (kv_name st) start end_ (kv_version st)).
Definition kv_ReverseIterator (fuel : nat) (st : KVStore) (start end_ : option bytes) : res rocksDBIterator :=
  must (ReverseIteratorAtVersion fuel (kv_store st) (kv_name st) start end_ (kv_version st)).
Definition kv_Set (st : KVStore) (key value : bytes) : res KVStore := Panic.
Definition kv_Delete_key (st : KVStore) (key : bytes) : res KVStore := Panic.

(** ** The streaming service (versiondb/streaming_service.go) *)

Record StreamingService := { versionStore : Store; currentBlockNumber : Z }.

Definition NewStreamingService (s : Store) : StreamingService := {| versionStore := s; currentBlockNumber := 0 |}.

Definition ListenFinalizeBlock (height : Z) : SE StreamingService unit := fun fss =>
  ({| versionStore := versionStore fss; currentBlockNumber := height |}, Ok tt).

Definition ListenCommit (changeSet : list StoreKVPair) : SE StreamingService unit := fun fss =>
  let '(s, r) := PutAtVersion (currentBlockNumber fss) changeSet (versionStore fss) in
  ({| versionStore := s; currentBlockNumber := currentBlockNumber fss |}, r).
End store.
