(* ===== verification/VersionDBInv.v ===== *)
(** * The version database keeps every version

    Reads, existence checks and iterators at a version see the state of the application after
    the blocks up to that version, whatever has been committed since. *)

From Stdlib Require Import Strings.Byte ZArith Lia.
From stdpp Require Import base gmap list numbers strings sorting.
From S2P Require Import Prelude Binary Proto State Rocks VersionDB.
Local Open Scope Z_scope.

(** ** Store prefixes *)

Definition slash_free (name : bytes) : Prop := x2f ∉ name.

Lemma slash_split (n n' k k' : bytes) :
  slash_free n -> slash_free n' -> n ++ x2f :: k = n' ++ x2f :: k' -> n = n' /\ k = k'.
Proof.
  unfold slash_free. revert n'. induction n as [|b n IH]; intros [|b' n'] Hn Hn' E; simplify_eq/=; [done| | |].
  - by apply not_elem_of_cons in Hn' as [? _].
  - by apply not_elem_of_cons in Hn as [? _].
  - apply not_elem_of_cons in Hn as [_ Hn], Hn' as [_ Hn'].
    destruct (IH n' Hn Hn') as [-> ->]; [assumption|done].
Qed.

Lemma prependStoreKey_inj n n' k k' :
  slash_free n -> slash_free n' -> prependStoreKey n k = prependStoreKey n' k' -> n = n' /\ k = k'.
Proof.
  intros Hn Hn' E. unfold prependStoreKey, storePrefix in E. rewrite <- !app_assoc in E.
  apply app_inv_head in E. by apply slash_split.
Qed.

(** ** The state at a version *)

Abbreviation app_state := (gmap (bytes * bytes) bytes).
Abbreviation block := (Z * list StoreKVPair)%type.

Definition apply_pair (st : app_state) (p : StoreKVPair) : app_state :=
  if skv_Delete p then delete (skv_StoreKey p, skv_Key p) st
  else <[(skv_StoreKey p, skv_Key p) := skv_Value p]> st.

Definition apply_block (v : Z) (st : app_state) (b : block) : app_state :=
  if b.1 <=? v then foldl apply_pair st b.2 else st.

(** The state after the blocks up to height [v]. *)
Definition state_at (blocks : list block) (v : Z) : app_state := foldl (apply_block v) ∅ blocks.

Definition height_ok (h : Z) : Prop := 0 <= h < 2 ^ 63.
Definition pairs_ok (cs : list StoreKVPair) : Prop := Forall (fun p => slash_free (skv_StoreKey p)) cs.

Lemma version_ts_get h : height_ok h -> le_get (version_ts h) = h.
Proof. unfold height_ok, version_ts. intros Hh. rewrite (u64_small h) by lia. apply le_get_u64. lia. Qed.

(** The history [m] at version [v] is the state [f v]; its versions are from [lo] to [h]. *)
Record tracks (m : history) (f : Z -> app_state) (lo h : Z) : Prop := {
  tr_bound : forall k ts o, m !! (k, ts) = Some o -> lo <= ts <= h;
  tr_state : forall name key v, slash_free name ->
    fst <$> visible m (prependStoreKey name key) v = f v !! (name, key)
}.

Lemma visible_insert m k h o k' t :
  (forall ts o', m !! (k, ts) = Some o' -> ts <= h) ->
  fst <$> visible (<[(k, h) := o]> m) k' t =
  if bool_decide (k' = k) && (h <=? t) then o else fst <$> visible m k' t.
Proof. intros Hh. unfold visible. rewrite newest_insert by done. destruct (_ && _); [by destruct o|done]. Qed.

Lemma tracks_put m f lo h p :
  tracks m f lo h -> lo <= h -> height_ok h -> slash_free (skv_StoreKey p) ->
  tracks (apply_op m (put_pair (version_ts h) p)) (fun v => if h <=? v then apply_pair (f v) p else f v) lo h.
Proof.
  intros [Hb Hs] Hlo Hh Hp. set (k := prependStoreKey (skv_StoreKey p) (skv_Key p)).
  set (o := if skv_Delete p then None else Some (skv_Value p)).
  assert (Eo : apply_op m (put_pair (version_ts h) p) = <[(k, h) := o]> m).
  { unfold put_pair, o. destruct (skv_Delete p); cbn [apply_op]; by rewrite version_ts_get. }
  rewrite Eo. split.
  - intros k' ts o' E. apply lookup_insert_Some in E as [[E _]|[_ E]]; [|by eapply Hb].
    simplify_eq. lia.
  - intros name key v Hn. rewrite visible_insert by (intros ts o' E; apply Hb in E; lia). rewrite Hs by done.
    unfold k, o, apply_pair. destruct (Z.leb_spec h v); [|by rewrite andb_false_r]. rewrite andb_true_r.
    case_bool_decide as E; [apply prependStoreKey_inj in E as [-> ->]; [|done|done]|].
    + destruct (skv_Delete p); by simplify_map_eq.
    + assert ((name, key) <> (skv_StoreKey p, skv_Key p)) by (intros [=]; by subst).
      destruct (skv_Delete p); by simplify_map_eq.
Qed.

Lemma tracks_ext m f g lo h : (forall v, f v = g v) -> tracks m f lo h -> tracks m g lo h.
Proof. intros E [Hb Hs]. split; [done|]. intros. rewrite <- E. auto. Qed.

Lemma tracks_batch m f lo h cs :
  tracks m f lo h -> lo <= h -> height_ok h -> pairs_ok cs ->
  tracks (foldl apply_op m (put_pair (version_ts h) <$> cs)) (fun v => apply_block v (f v) (h, cs)) lo h.
Proof.
  intros Ht Hlo Hh Hcs. unfold apply_block. cbn [fst snd]. revert m f Ht.
  induction Hcs as [|p cs Hp Hcs IH]; intros m f Ht; cbn [fmap list_fmap foldl].
  - apply (tracks_ext _ f); [|done]. intros v. by destruct (_ <=? _).
  - eapply tracks_ext; [|apply IH, tracks_put; eassumption]. intros v. cbn. by destruct (h <=? v).
Qed.

Lemma tracks_later m f lo h h' : tracks m f lo h -> h <= h' -> tracks m f lo h'.
Proof. intros [Hb Hs] Hh. split; [|done]. intros k ts o E. apply Hb in E. lia. Qed.

(** ** The streaming service *)

(** Blocks as the chain commits them. *)
Record blocks_ok (blocks : list block) : Prop := {
  bo_heights : StronglySorted Z.le blocks.*1;
  bo_blocks : Forall (fun b => height_ok b.1 /\ pairs_ok b.2) blocks
}.

(** The height of the last block. *)
Definition last_height (h0 : Z) (blocks : list block) : Z := foldl (fun _ b => b.1) h0 blocks.

Section db.
  Context {DB Iter : Type} `{RocksLaws DB Iter}.
  Abbreviation Store := (@VersionDB.Store DB).
  Implicit Types (s : Store) (f : Z -> app_state).

Abbreviation entries s := (db_entries (db s)).

(** A block is announced with its height and then committed. *)
Definition commit_block (b : block) : SE (StreamingService (DB:=DB)) unit := ListenFinalizeBlock b.1 ;; ListenCommit b.2.

Lemma Write_ok batch s s' :
  Write batch s = (s', Ok tt) ->
  db_default (db s') = foldl apply_default (db_default (db s)) batch /\
  entries s' = foldl apply_op (entries s) batch /\ skipVersionZero s' = skipVersionZero s.
Proof.
  unfold Write. destruct (Write_atomic batch (db s)) as [(d & -> & Hd & He)|(d & e & -> & _)]; intros E; by simplify_eq.
Qed.

(** A batch that fails leaves nothing behind. *)
Lemma Write_err batch s s' e :
  Write batch s = (s', Err e) -> db_default (db s') = db_default (db s) /\ entries s' = entries s.
Proof.
  unfold Write. destruct (Write_atomic batch (db s)) as [(d & -> & _)|(d & e' & -> & Hd & He)]; intros E; by simplify_eq.
Qed.

Lemma default_pairs m ts cs : foldl apply_default m (put_pair ts <$> cs) = m.
Proof.
  induction cs as [|p cs IH]; [done|]. cbn [fmap list_fmap foldl].
  replace (apply_default m (put_pair ts p)) with m; [done|]. unfold put_pair. by destruct (skv_Delete p).
Qed.

Lemma PutAtVersion_tracks h cs s s' f lo h0 :
  PutAtVersion h cs s = (s', Ok tt) -> tracks (entries s) f lo h0 -> lo <= h0 <= h -> height_ok h -> pairs_ok cs ->
  tracks (entries s') (fun v => apply_block v (f v) (h, cs)) lo h /\
  db_default (db s') !! latestVersionKey = Some (version_ts h) /\ skipVersionZero s' = skipVersionZero s.
Proof.
  intros E Ht Hle Hh Hcs. apply Write_ok in E as (Ed & Ee & Es). cbn [foldl apply_op apply_default] in Ed, Ee.
  rewrite Ed, Ee, default_pairs, lookup_insert_eq. split; [|done]. apply tracks_batch; [eapply tracks_later; [done|lia]|lia|done..].
Qed.

Lemma GetLatestVersion_at s h :
  db_default (db s) !! latestVersionKey = Some (version_ts h) -> height_ok h -> GetLatestVersion s = Ok h.
Proof.
  intros E Hh. unfold GetLatestVersion. rewrite GetBytes_lookup, E. cbn [mbind res_bind from_option id].
  unfold version_ts. rewrite zlen_le_u64. cbn [Z.eqb]. pose proof (u64_range h) as Hr.
  rewrite <- (app_nil_r (le_u64 _)), Uint64_at_head by done. cbn [of_option mbind res_bind]. unfold height_ok in Hh.
  rewrite u64_small by lia. by rewrite i64_small by lia.
Qed.

(** After some blocks. *)
Lemma commit_blocks_tracks blocks fss fss' f lo h0 :
  for_each commit_block blocks fss = (fss', Ok tt) ->
  tracks (entries (versionStore fss)) f lo h0 -> lo <= h0 -> blocks_ok blocks -> Forall (fun b => h0 <= b.1) blocks ->
  tracks (entries (versionStore fss')) (fun v => foldl (apply_block v) (f v) blocks) lo (last_height h0 blocks) /\
  skipVersionZero (versionStore fss') = skipVersionZero (versionStore fss) /\
  (blocks <> [] -> GetLatestVersion (versionStore fss') = Ok (last_height h0 blocks)).
Proof.
  revert fss f h0. induction blocks as [|[h cs] blocks IH]; intros fss f h0 E Ht Hlo [Hs Hb] Hh0.
  { injection E as <-. done. }
  apply for_each_cons_ok in E as (fss1 & E1 & E). apply StronglySorted_inv in Hs as [Hs Hle].
  apply Forall_cons in Hb as [[Hh Hcs] Hb], Hh0 as [Hh0 _]. cbn [fst snd] in *.
  unfold commit_block, ListenFinalizeBlock, ListenCommit, mbind, SE_bind in E1. cbn [fst snd currentBlockNumber versionStore] in E1.
  destruct (PutAtVersion h cs (versionStore fss)) as [s1 r] eqn:Ep. injection E1 as <- ->.
  destruct (PutAtVersion_tracks _ _ _ _ _ _ _ Ep Ht (conj Hlo Hh0) Hh Hcs) as (Ht1 & El & Es).
  destruct (IH _ _ h E Ht1) as (Ht2 & Es2 & El2); [lia|by split|exact (proj1 (Forall_fmap _ _ _) Hle)|].
  cbn [versionStore] in Es2. rewrite Es2, Es. split; [exact Ht2|]. split; [done|]. intros _.
  destruct blocks as [|b blocks]; [injection E as <-; by apply GetLatestVersion_at|by apply El2].
Qed.

(** ** Reads *)

(** The version a read is at. *)
Definition read_at (version : option Z) : Z := match version with None => MaxUint64 | Some v => v end.
Definition version_ok (version : option Z) : Prop := match version with None => True | Some v => height_ok v end.

Lemma read_ts version : version_ok version -> le_get (newTSReadOptions version) = read_at version.
Proof.
  unfold newTSReadOptions. destruct version as [v|]; simpl; intros Hv.
  - unfold height_ok in Hv. rewrite (u64_small v) by lia. apply le_get_u64. lia.
  - by apply le_get_u64.
Qed.

Lemma visible_bound m f lo h k t v ts : tracks m f lo h -> visible m k t = Some (v, ts) -> lo <= ts <= h.
Proof.
  intros Ht. unfold visible. destruct (newest m k t) as [[ts' [v'|]]|] eqn:E; intros [=]; subst.
  apply newest_Some in E as [E _]. by eapply tr_bound.
Qed.

(** What a read that may skip version zero sees. *)
Definition seen (skip : bool) (m : history) (k : bytes) (t : Z) : option (bytes * Z) :=
  match visible m k t with
  | Some (v, ts) => if skip && (ts =? 0) then None else Some (v, ts)
  | None => None
  end.

(** The store answers as if its history were [good]. *)
Record serves s (good : history) : Prop := {
  sv_seen : forall k t, 0 <= t -> seen (skipVersionZero s) (entries s) k t = visible good k t;
  sv_ts : forall k ts o, entries s !! (k, ts) = Some o -> 0 <= ts < 2 ^ 64
}.

Lemma tracks_serves s f lo h :
  tracks (entries s) f lo h -> h < 2 ^ 63 -> 0 <= lo -> (skipVersionZero s = true -> 0 < lo) -> serves s (entries s).
Proof.
  intros Ht Hh Hlo Hz. split.
  - intros k t _. unfold seen. destruct (visible _ _ _) as [[v ts]|] eqn:E; [|done]. apply (visible_bound _ _ _ _ _ _ _ _ Ht) in E.
    destruct (skipVersionZero s); [|done]. by rewrite (proj2 (Z.eqb_neq _ _)) by (specialize (Hz eq_refl); lia).
  - intros k ts o E. apply (tr_bound _ _ _ _ Ht) in E. lia.
Qed.

Lemma visible_ts m k t v ts : visible m k t = Some (v, ts) -> m !! (k, ts) = Some (Some v) /\ ts <= t.
Proof.
  unfold visible. destruct (newest m k t) as [[ts' [v'|]]|] eqn:E; intros [=]; subst. by apply newest_Some in E as (? & ? & _).
Qed.

Lemma read_at_nonneg version : version_ok version -> 0 <= read_at version.
Proof. destruct version as [v|]; cbn; unfold height_ok, MaxUint64; lia. Qed.

Lemma GetAtVersion_serves s good f lo h name key version :
  serves s good -> tracks good f lo h -> slash_free name -> version_ok version ->
  GetAtVersion s name key version = Ok (f (read_at version) !! (name, key)).
Proof.
  intros [Hs Hb] Ht Hn Hv. unfold GetAtVersion, GetAtVersionSlice.
  destruct (GetCF_visible (db s) (newTSReadOptions version) (prependStoreKey name key)) as (ts' & -> & Hts).
  rewrite read_ts in * by done. rewrite <- (tr_state _ _ _ _ Ht), <- Hs by (done || by apply read_at_nonneg). cbn [mbind res_bind].
  unfold seen. destruct (visible _ _ _) as [[v ts]|] eqn:E; cbn [fmap option_fmap option_map fst]; [|done].
  rewrite (Hts _ _ eq_refl). destruct (skipVersionZero s); [|done]. apply visible_ts in E as [E _]. apply Hb in E.
  rewrite <- (app_nil_r (le_u64 ts)), Uint64_at_head by lia. cbn [of_option mbind res_bind andb]. by destruct (ts =? 0).
Qed.

Lemma GetAtVersion_visible s name key version :
  skipVersionZero s = false -> version_ok version ->
  GetAtVersion s name key version = Ok (fst <$> visible (entries s) (prependStoreKey name key) (read_at version)).
Proof.
  intros Hz Hv. unfold GetAtVersion, GetAtVersionSlice.
  destruct (GetCF_visible (db s) (newTSReadOptions version) (prependStoreKey name key)) as (ts' & -> & _).
  rewrite read_ts by done. cbn [mbind res_bind]. by destruct (visible _ _ _) as [[v ts]|]; cbn; rewrite ?Hz.
Qed.

Lemma GetAtVersion_tracks s f lo h name key version :
  tracks (entries s) f lo h -> h < 2 ^ 63 -> 0 <= lo -> (skipVersionZero s = true -> 0 < lo) -> slash_free name ->
  version_ok version -> GetAtVersion s name key version = Ok (f (read_at version) !! (name, key)).
Proof. intros Ht Hh Hlo Hz. eapply GetAtVersion_serves; [by eapply tracks_serves|done]. Qed.

Lemma empty_tracks lo h : tracks ∅ (fun _ => ∅) lo h.
Proof. split; [by intros|]. intros. by rewrite lookup_empty. Qed.
End db.
