(* ===== verification/VersionDBIter.v ===== *)
(** * Iterators over the version database

    An iterator over a store at a version yields the keys of the domain that a read at that
    version sees, in ascending or descending order, and skips those written at version zero
    when it is told to. *)

From Stdlib Require Import Strings.Byte ZArith Lia.
From stdpp Require Import base gmap list numbers strings sorting.
From S2P Require Import Prelude Binary Proto State Rocks VersionDB VersionDBInv.
Local Open Scope Z_scope.

(** ** Ranges of keys with a prefix *)

Lemma Compare_prefix p a b : Compare (p ++ a) (p ++ b) = Compare a b.
Proof. induction p as [|x p IH]; simpl; [done|]. by rewrite N.compare_refl. Qed.

Lemma ltb_app p a b : ltb (p ++ a) (p ++ b) = ltb a b.
Proof. unfold ltb. by rewrite Compare_prefix. Qed.

Lemma ltb_lt a b : ltb a b = true <-> bytes_lt a b.
Proof. destruct (ltb_spec a b); naive_solver. Qed.
Lemma ltb_ge a b : ltb a b = false <-> bytes_le b a.
Proof.
  destruct (ltb_spec a b) as [Hlt|Hge]; split; try done.
  - intros Hle. exfalso. bytes_order.
  - intros _. bytes_order.
Qed.

(** The keys from [p ++ [b]] up to [p ++ [b + 1]] are those with that prefix. *)
Lemma prefix_range p b x :
  byte_to_Z b < 255 ->
  (ltb x (p ++ [b]) = false /\ ltb x (p ++ [byte_of_Z (byte_to_Z b + 1)]) = true) <-> exists k, x = (p ++ [b]) ++ k.
Proof.
  intros Hb. assert (Eb : byte_to_Z (byte_of_Z (byte_to_Z b + 1)) = byte_to_Z b + 1).
  { rewrite byte_to_of_Z. pose proof (byte_to_Z_range b). apply Z.mod_small. lia. }
  unfold byte_to_Z in *. revert x. induction p as [|y p IH]; intros x.
  - split.
    + destruct x as [|c x]; [by intros [? _]|]. unfold ltb. cbn [app Compare].
      destruct (N.compare_spec (Byte.to_N c) (Byte.to_N b)) as [E|E|E]; [|by intros [? _]|].
      * intros _. exists x. by apply to_N_inj in E as ->.
      * intros [_ Hlt]. exfalso. destruct (N.compare_spec (Byte.to_N c) (Byte.to_N (byte_of_Z (Z.of_N (Byte.to_N b) + 1))))
          as [E'|E'|E']; [by destruct x|lia|done].
    + intros [k ->]. unfold ltb. cbn [app Compare]. rewrite N.compare_refl.
      rewrite (proj2 (N.compare_lt_iff _ _)) by lia. by destruct k.
  - destruct x as [|c x]; [split; [by intros [? _]|by intros [k ?]]|]. unfold ltb in *. cbn [app Compare].
    destruct (N.compare_spec (Byte.to_N c) (Byte.to_N y)) as [E|E|E].
    + apply to_N_inj in E as ->. rewrite IH. split; intros [k Hk]; exists k; by simplify_eq/=.
    + split; [by intros [? _]|]. intros [k [= -> _]]. lia.
    + split; [by intros [_ ?]|]. intros [k [= -> _]]. lia.
Qed.

Lemma cpIncr_last p b :
  byte_to_Z b < 255 -> cpIncr (p ++ [b]) = Ok (Some (p ++ [byte_of_Z (byte_to_Z b + 1)])).
Proof.
  intros Hb. unfold cpIncr. rewrite zlen_app, (proj2 (Z.eqb_neq _ _)) by (pose proof (zlen_nonneg p); unfold zlen at 2; simpl; lia).
  rewrite length_app, Nat.add_1_r. cbn [cpIncr_loop]. rewrite list_lookup_middle by done.
  rewrite (proj2 (Z.ltb_lt _ _)) by done. do 2 f_equal. by rewrite insert_app_r_alt, Nat.sub_diag by lia.
Qed.

Definition in_domain (start end_ : option bytes) (k : bytes) : bool :=
  match start with None => true | Some st => negb (ltb k st) end &&
  match end_ with None => true | Some e => ltb k e end.

(** The range of the iterator is the domain in the store. *)
Lemma iterateWithPrefix_range name start end_ :
  exists st en, iterateWithPrefix (storePrefix name) start end_ = Ok (Some st, Some en) /\
  forall x, (ltb x st = false /\ ltb x en = true) <-> exists k, x = prependStoreKey name k /\ in_domain start end_ k = true.
Proof.
  set (p := str "s/k:" ++ name). assert (Ep : storePrefix name = p ++ [x2f]) by (unfold storePrefix, p; by rewrite <- app_assoc).
  assert (Hc : cpIncr (storePrefix name) = Ok (Some (p ++ [x30]))) by (rewrite Ep; by apply cpIncr_last).
  pose proof (fun x => prefix_range p x2f x eq_refl) as Hr. change (byte_of_Z (byte_to_Z x2f + 1)) with x30 in Hr.
  rewrite <- Ep in Hr. unfold iterateWithPrefix, cloneAppend, prependStoreKey.
  rewrite (proj2 (Z.eqb_neq _ _)) by (unfold zlen, storePrefix; simpl; lia).
  exists (storePrefix name ++ default [] start), (match end_ with None => p ++ [x30] | Some e => storePrefix name ++ e end).
  split; [destruct end_; [done|by rewrite Hc]|]. intros x.
  assert (Hge : ltb x (storePrefix name ++ default [] start) = false -> ltb x (storePrefix name) = false).
  { rewrite !ltb_ge. intros Hx. enough (bytes_le (storePrefix name) (storePrefix name ++ default [] start)) by bytes_order.
    apply ltb_ge. rewrite <- (app_nil_r (storePrefix name)) at 2. rewrite ltb_app. by destruct (default [] start). }
  assert (Hst : forall k, ltb (storePrefix name ++ k) (storePrefix name ++ default [] start) = false <->
    match start with None => true | Some st => negb (ltb k st) end = true).
  { intros k. rewrite ltb_app. destruct start as [st|]; simpl; [by rewrite negb_true_iff|by destruct k]. }
  unfold in_domain. destruct end_ as [e|].
  - split.
    + intros [Hx Hlt]. assert (Hp : ltb x (p ++ [x30]) = true).
      { apply ltb_lt. apply ltb_lt in Hlt. enough (bytes_lt (storePrefix name ++ e) (p ++ [x30])) by bytes_order.
        apply ltb_lt. by apply (Hr (storePrefix name ++ e)); eexists. }
      destruct (proj1 (Hr x)) as [k ->]; [by auto|]. exists k. split; [done|]. apply Hst in Hx. rewrite Hx. simpl.
      by rewrite ltb_app in Hlt.
    + intros (k & -> & [Hs He]%andb_true_iff). split; [by apply Hst|]. by rewrite ltb_app.
  - setoid_rewrite andb_true_r. split.
    + intros [Hx Hlt]. destruct (proj1 (Hr x)) as [k ->]; [by auto|]. exists k. split; [done|]. by apply Hst.
    + intros (k & -> & Hs). split; [by apply Hst|]. apply (Hr (storePrefix name ++ k)). by eexists.
Qed.

(** ** The order of stores *)

Definition slash : Byte.byte := x2f.

Lemma Compare_sep s1 s2 x y :
  slash ∉ s1 -> slash ∉ s2 -> s1 <> s2 ->
  Compare (s1 ++ slash :: x) (s2 ++ slash :: y) = Compare (s1 ++ [slash]) (s2 ++ [slash]) /\
  Compare (s1 ++ [slash]) (s2 ++ [slash]) <> Eq.
Proof.
  revert s2. induction s1 as [|a s1 IH]; intros [|b s2] H1 H2 Hne; cbn [app]; [done|..].
  - apply not_elem_of_cons in H2 as [Hb _]. cbn [Compare]. destruct (N.compare_spec (Byte.to_N slash) (Byte.to_N b)) as [E| |]; [|done..].
    apply (f_equal Byte.of_N) in E. rewrite !Byte.of_to_N in E. congruence.
  - apply not_elem_of_cons in H1 as [Ha _]. cbn [Compare]. destruct (N.compare_spec (Byte.to_N a) (Byte.to_N slash)) as [E| |]; [|done..].
    apply (f_equal Byte.of_N) in E. rewrite !Byte.of_to_N in E. congruence.
  - cbn [Compare]. destruct (N.compare_spec (Byte.to_N a) (Byte.to_N b)) as [E| |]; [|done..].
    apply (f_equal Byte.of_N) in E. rewrite !Byte.of_to_N in E. injection E as ->.
    apply not_elem_of_cons in H1 as [_ H1]. apply not_elem_of_cons in H2 as [_ H2]. apply IH; [done..|congruence].
Qed.

(** The keys of a store are all before or all after those of another. *)
Lemma storePrefix_order s1 s2 :
  slash ∉ s1 -> slash ∉ s2 -> s1 <> s2 ->
  (forall x y, bytes_lt (storePrefix s1 ++ x) (storePrefix s2 ++ y)) \/ (forall x y, bytes_lt (storePrefix s2 ++ y) (storePrefix s1 ++ x)).
Proof.
  intros H1 H2 Hne.
  assert (E : forall x y, Compare (storePrefix s1 ++ x) (storePrefix s2 ++ y) = Compare (s1 ++ [slash]) (s2 ++ [slash])).
  { intros x y. unfold storePrefix. rewrite <- !app_assoc, Compare_prefix. by apply Compare_sep. }
  destruct (Compare_sep s1 s2 [] [] H1 H2 Hne) as [_ Hc]. unfold bytes_lt.
  destruct (Compare (s1 ++ [slash]) (s2 ++ [slash])) eqn:Ec; [done|left|right]; intros x y; [apply E|]. by rewrite Compare_opp, E.
Qed.

(** ** Walks *)

(** The elements up to the first that fails the test. *)
Fixpoint take_while {A} (p : A -> bool) (l : list A) : list A :=
  match l with
  | [] => []
  | x :: l => if p x then x :: take_while p l else []
  end.

Definition sorted_entries (l : list ientry) : Prop := StronglySorted bytes_lt (ie_key <$> l).
Definition below (k : bytes) (e : ientry) : Prop := ltb (ie_key e) k = true.
Definition from (k : bytes) (e : ientry) : Prop := ltb (ie_key e) k = false.

#[export] Instance below_dec k e : Decision (below k e).
Proof. unfold below. apply _. Defined.
#[export] Instance from_dec k e : Decision (from k e).
Proof. unfold from. apply _. Defined.

Lemma sorted_entries_cons e l :
  sorted_entries (e :: l) -> sorted_entries l /\ forall k, from k e -> Forall (from k) l.
Proof.
  intros [Hs Hf]%StronglySorted_inv. split; [done|]. intros k Hk. rewrite Forall_forall in Hf.
  apply Forall_forall. intros x Hx. apply ltb_ge. apply ltb_ge in Hk.
  assert (bytes_lt (ie_key e) (ie_key x)) by (apply Hf, list_elem_of_fmap_2, Hx). bytes_order.
Qed.

Lemma from_below k l : Forall (from k) l -> filter (below k) l = [] /\ filter (from k) l = l.
Proof.
  induction 1 as [|x l Hx Hl [IH1 IH2]]; [done|]. rewrite filter_cons_False, filter_cons_True by (unfold below, from in *; congruence).
  by rewrite IH1, IH2.
Qed.

(** A seek splits the entries at the key. *)
Lemma seek_split k l :
  sorted_entries l -> take (seek_index k l) l = filter (below k) l /\ drop (seek_index k l) l = filter (from k) l.
Proof.
  induction l as [|e l IH]; [done|]. intros [Hs Hf]%sorted_entries_cons. destruct (IH Hs) as [IH1 IH2]. cbn [seek_index].
  destruct (ltb (ie_key e) k) eqn:E; cbn [take drop].
  - rewrite filter_cons_True, filter_cons_False by (unfold below, from; congruence). by rewrite IH1, IH2.
  - destruct (from_below k (e :: l)) as [-> ->]; [constructor; [done|by apply Hf]|done].
Qed.

Lemma take_while_below k l : sorted_entries l -> take_while (fun e => ltb (ie_key e) k) l = filter (below k) l.
Proof.
  induction l as [|e l IH]; [done|]. intros [Hs Hf]%sorted_entries_cons. cbn [take_while].
  destruct (ltb (ie_key e) k) eqn:E; [by rewrite filter_cons_True, IH|].
  by rewrite (proj1 (from_below k (e :: l) (Forall_cons_2 _ _ _ E (Hf k E)))).
Qed.

Lemma take_while_all {A} (p : A -> bool) l r : Forall (fun x => p x = true) l -> take_while p (l ++ r) = l ++ take_while p r.
Proof. induction 1 as [|x l Hx Hl IH]; [done|]. simpl. by rewrite Hx, IH. Qed.

Lemma take_while_from k l :
  sorted_entries l -> take_while (fun e => negb (ltb (ie_key e) k)) (reverse l) = reverse (filter (from k) l).
Proof.
  induction l as [|e l IH]; [done|]. intros [Hs Hf]%sorted_entries_cons. rewrite reverse_cons.
  destruct (ltb (ie_key e) k) eqn:E.
  - rewrite filter_cons_False by (unfold from; congruence). rewrite <- IH by done. generalize (reverse l). intros r.
    induction r as [|x r IHr]; simpl; [by rewrite E|]. destruct (negb _); [by rewrite IHr|done].
  - destruct (from_below k (e :: l) (Forall_cons_2 _ _ _ E (Hf k E))) as [_ ->]. rewrite <- reverse_cons.
    rewrite <- (app_nil_r (reverse (e :: l))), take_while_all; [done|]. apply Forall_reverse. constructor; [by rewrite E|].
    eapply Forall_impl; [exact (Hf k E)|]. intros x Hx. unfold from in Hx. by rewrite Hx.
Qed.

Section walk.
  Context {DB Iter : Type} `{RocksLaws DB Iter}.
  Abbreviation iterator := (@rocksDBIterator Iter).
  Implicit Types (itr : iterator) (e : ientry) (l : list ientry).

(** The entries from the position of the source on, in the direction of the iterator. *)
Definition ahead itr : list ientry :=
  match it_pos (source itr) with
  | None => []
  | Some i => if isReverse itr then reverse (take (S i) (it_list (source itr))) else drop i (it_list (source itr))
  end.

(** The source is at an entry or invalid. *)
Definition at_entry itr : Prop :=
  forall i, it_pos (source itr) = Some i -> (i < length (it_list (source itr)))%nat.

Definition in_bound itr e : bool :=
  if isReverse itr then match itr_start itr with Some st => negb (ltb (ie_key e) st) | None => true end
  else match itr_end itr with Some en => ltb (ie_key e) en | None => true end.

(** The entries the iterator is still to visit. *)
Definition todo itr : list ientry := if isInvalid itr then [] else take_while (in_bound itr) (ahead itr).

Lemma ahead_cases itr :
  at_entry itr ->
  (it_pos (source itr) = None /\ ahead itr = []) \/
  exists i e l, it_pos (source itr) = Some i /\ it_list (source itr) !! i = Some e /\ ahead itr = e :: l /\
    at_entry (advance itr) /\ ahead (advance itr) = l.
Proof.
  unfold at_entry, ahead. intros Hat. destruct (it_pos (source itr)) as [i|] eqn:Ei; [right|by left].
  destruct (lookup_lt_is_Some_2 _ _ (Hat i eq_refl)) as [e He]. exists i, e.
  unfold advance, with_source. cbn [source isReverse]. destruct (isReverse itr).
  - rewrite (Prev_pos _ _ Ei), Prev_list. rewrite (take_S_r _ _ _ He), reverse_snoc.
    exists (reverse (take i (it_list (source itr)))). pose proof (lookup_lt_Some _ _ _ He).
    do 3 (split; [done|]). destruct i as [|i]; [by rewrite take_0|]. split; [intros j [=]; subst; lia|done].
  - rewrite (Next_pos _ _ Ei), Next_list. exists (drop (S i) (it_list (source itr))). unfold index_of.
    rewrite (drop_S _ _ _ He). do 3 (split; [done|]). destruct (Nat.ltb_spec (S i) (length (it_list (source itr)))).
    + split; [intros j [=]; by subst|done].
    + split; [done|]. by rewrite drop_ge by lia.
Qed.

(** [Valid] tells whether there is an entry to visit. *)
Lemma Valid_todo itr :
  at_entry itr ->
  (todo itr = [] /\ exists itr', Valid itr = (itr', false) /\ (itr' = itr \/ itr' = invalidate itr)) \/
  exists e l, todo itr = e :: l /\ Valid itr = (itr, true) /\ it_Key (source itr) = ie_key e /\
    it_Value (source itr) = ie_value e /\ it_Timestamp (source itr) = le_u64 (ie_ts e) /\
    at_entry (advance itr) /\ todo (advance itr) = l.
Proof.
  intros Hat. unfold todo. destruct (isInvalid itr) eqn:Einv.
  { left. split; [done|]. unfold Valid. rewrite Einv. by eauto. }
  destruct (ahead_cases itr Hat) as [[Ei ->]|(i & e & l & Ei & He & -> & Hat' & Ha)].
  { left. split; [done|]. unfold Valid. rewrite Einv, Err_none, Valid_pos, Ei. by eauto. }
  destruct (entry_at _ _ _ Ei He) as (Ek & Ev & Et).
  assert (Hv : Valid itr = if in_bound itr e then (itr, true) else (invalidate itr, false)).
  { unfold Valid, in_bound. rewrite Einv, Err_none, Valid_pos, Ei, Ek, bool_decide_true by eauto. cbn [negb].
    destruct (isReverse itr); [destruct (itr_start itr) as [st|]; [destruct (ltb _ st)|]|
      destruct (itr_end itr) as [en|]; [destruct (ltb _ en)|]]; done. }
  rewrite Hv. cbn [take_while]. destruct (in_bound itr e); [right|by left; eauto 6].
  exists e, (take_while (in_bound itr) l). do 6 (split; [done|]).
  change (isInvalid (advance itr)) with (isInvalid itr). by rewrite Einv, Ha.
Qed.

Definition conf itr : bytes * bool := (itr_prefix itr, itr_skipVersionZero itr).
Definition ts_ok e : Prop := 0 <= ie_ts e < 2 ^ 64.

(** The entries that the caller gets to see. *)
Definition wanted itr : list ientry :=
  if itr_skipVersionZero itr then filter (fun e => ie_ts e <> 0) (todo itr) else todo itr.

(** The iterator is at an entry to be seen. *)
Record settled itr : Prop := {
  se_at : at_entry itr;
  se_ts : Forall ts_ok (todo itr);
  se_head : itr_skipVersionZero itr = true -> forall e l, todo itr = e :: l -> ie_ts e <> 0
}.

Lemma Uint64_le_u64 ts : 0 <= ts < 2 ^ 64 -> Uint64_at (le_u64 ts) 0 = Some ts.
Proof. intros Hts. rewrite <- (app_nil_r (le_u64 ts)). by apply Uint64_at_head. Qed.

Lemma settled_nil itr itr' :
  at_entry itr -> todo itr = [] -> itr' = itr \/ itr' = invalidate itr -> settled itr' /\ todo itr' = [] /\ conf itr' = conf itr.
Proof.
  intros Hat Ht Hi. assert (Hn : todo itr' = []) by (by destruct Hi as [-> | ->]).
  split; [|split; [done|by destruct Hi as [-> | ->]]].
  split; [by destruct Hi as [-> | ->]|by rewrite Hn|by rewrite Hn].
Qed.

Lemma skip_zero_loop_ok fuel itr :
  at_entry itr -> Forall ts_ok (todo itr) -> (length (todo itr) < fuel)%nat ->
  exists itr', skip_zero_loop fuel itr = Ok itr' /\ settled itr' /\ conf itr' = conf itr /\
    filter (fun e => ie_ts e <> 0) (todo itr') = filter (fun e => ie_ts e <> 0) (todo itr) /\
    todo itr' `suffix_of` todo itr.
Proof.
  revert itr. induction fuel as [|fuel IH]; intros itr Hat Hts Hf; [lia|]. cbn [skip_zero_loop].
  destruct (Valid_todo itr Hat) as [(Ht & itr' & -> & Hi)|(e & l & Ht & -> & _ & _ & Et & Hat' & Hl)].
  { destruct (settled_nil _ _ Hat Ht Hi) as (Hs & Hn & Hc). exists itr'. by rewrite Hn, Ht. }
  unfold timestamp. rewrite Ht in *. apply Forall_cons in Hts as [He Hts]. rewrite Et, Uint64_le_u64 by done.
  cbn [of_option mbind res_bind]. destruct (Z.eqb_spec (ie_ts e) 0) as [E|E].
  - rewrite <- Hl in Hts, Hf. destruct (IH (advance itr) Hat' Hts) as (itr' & -> & Hs & Hc & Hfi & Hle); [simpl in Hf; lia|].
    exists itr'. split; [done|]. split; [done|]. split; [done|]. rewrite Hfi, Hl in *.
    rewrite (filter_cons_False _ e) by (by intros []). split; [done|]. by apply suffix_cons_r.
  - exists itr. rewrite Ht. split; [done|]. split; [|by split]. split; [done|rewrite Ht; by constructor|].
    intros _ e' l' E'. rewrite Ht in E'. by simplify_eq.
Qed.

Lemma trySkip_ok fuel itr :
  at_entry itr -> Forall ts_ok (todo itr) -> (length (todo itr) < fuel)%nat ->
  exists itr', trySkipZeroVersion fuel itr = Ok itr' /\ settled itr' /\ conf itr' = conf itr /\ wanted itr' = wanted itr /\
    todo itr' `suffix_of` todo itr.
Proof.
  intros Hat Hts Hf. unfold trySkipZeroVersion, wanted. destruct (itr_skipVersionZero itr) eqn:Ez.
  - destruct (skip_zero_loop_ok fuel itr Hat Hts Hf) as (itr' & E & Hs & Hc & Hfi & Hle). exists itr'.
    split; [done|]. split; [done|]. split; [done|]. injection Hc as _ Hc. by rewrite Hc, Ez.
  - exists itr. rewrite Ez. split; [done|]. split; [|done]. split; [done|done|]. by rewrite Ez.
Qed.

(** The loop of a caller. *)
Fixpoint collect (fuel : nat) itr : res (list (bytes * bytes)) :=
  match fuel with
  | O => out_of_fuel
  | S fuel' =>
      let '(itr, ok) := Valid itr in
      if ok : bool then
        '(itr, k) ← Key itr;
        '(itr, v) ← Value itr;
        itr ← Next fuel itr;
        rest ← collect fuel' itr;
        Ok ((k, v) :: rest)
      else Ok []
  end.

(** The key without the prefix of the store, and the value. *)
Definition strip (prefix : bytes) e : bytes * bytes := (drop (length prefix) (ie_key e), ie_value e).

Lemma Key_todo itr e l :
  at_entry itr -> todo itr = e :: l -> (exists k, ie_key e = itr_prefix itr ++ k) ->
  Key itr = Ok (itr, (strip (itr_prefix itr) e).1).
Proof.
  intros Hat Ht [k Hk]. unfold Key, assertIsValid, strip.
  destruct (Valid_todo itr Hat) as [(Ht' & _)|(e' & l' & Ht' & -> & Ek & _)]; rewrite Ht in Ht'; simplify_eq/=.
  rewrite Ek, Hk, drop_app_length. by rewrite (slice_end (itr_prefix itr) k) by (rewrite ?zlen_app; lia).
Qed.

Lemma Next_todo fuel itr e l :
  settled itr -> todo itr = e :: l -> (length l < fuel)%nat ->
  exists itr', Next fuel itr = Ok itr' /\ settled itr' /\ conf itr' = conf itr /\ wanted itr = e :: wanted itr' /\
    todo itr' `suffix_of` l.
Proof.
  intros [Hat Hts Hh] Ht Hf. unfold Next, assertIsValid.
  destruct (Valid_todo itr Hat) as [(Ht' & _)|(e' & l' & Ht' & -> & _ & _ & _ & Hat' & Ha)];
    rewrite Ht in Ht'; simplify_eq/=.
  rewrite Ht in Hts. apply Forall_cons in Hts as [_ Hts].
  destruct (trySkip_ok fuel (advance itr) Hat') as (itr' & -> & Hs & Hc & Hw & Hle); [done|done|].
  exists itr'. split; [done|]. split; [done|]. split; [done|]. split; [|done]. rewrite Hw. unfold wanted.
  change (itr_skipVersionZero (advance itr)) with (itr_skipVersionZero itr). rewrite Ht.
  destruct (itr_skipVersionZero itr); [|done]. by rewrite filter_cons_True by (by apply (Hh eq_refl _ _ Ht)).
Qed.

(** A caller sees the entries that are wanted. *)
Lemma collect_wanted fuel itr :
  settled itr -> (length (todo itr) < fuel)%nat -> Forall (fun e => exists k, ie_key e = itr_prefix itr ++ k) (todo itr) ->
  collect fuel itr = Ok (strip (itr_prefix itr) <$> wanted itr).
Proof.
  revert itr. induction fuel as [|fuel IH]; intros itr Hs Hf Hp; [lia|]. cbn [collect].
  destruct (Valid_todo itr (se_at _ Hs)) as [(Ht & itr' & -> & _)|(e & l & Ht & -> & _ & Ev & _ & _)].
  { unfold wanted. rewrite Ht. by destruct (itr_skipVersionZero itr). }
  rewrite Ht in *. apply Forall_cons in Hp as [He Hp]. rewrite (Key_todo itr e l (se_at _ Hs) Ht He). cbn [mbind res_bind].
  unfold Value, assertIsValid. destruct (Valid_todo itr (se_at _ Hs)) as [(Ht' & _)|(_ & _ & _ & -> & _)]; [congruence|].
  cbn [mbind res_bind]. destruct (Next_todo (S fuel) itr e l Hs Ht) as (itr' & -> & Hs' & Hc & Hw & Hle); [simpl in Hf; lia|].
  injection Hc as Hpre _. cbn [mbind res_bind]. rewrite IH; [|done|apply suffix_length in Hle; simpl in Hf; lia|].
  - cbn [mbind res_bind]. by rewrite Hw, Ev, Hpre.
  - rewrite Hpre. destruct Hle as [l' ->]. by apply Forall_app in Hp as [_ ?].
Qed.

(** ** New iterators *)

(** The entries from [st] to [en], in the direction of the iterator. *)
Definition range_entries (st en : bytes) (rev : bool) l : list ientry :=
  let l := filter (below en) (filter (from st) l) in if rev then reverse l else l.

Lemma sorted_filter (P : ientry -> Prop) `{!forall e, Decision (P e)} l : sorted_entries l -> sorted_entries (filter P l).
Proof.
  unfold sorted_entries. induction l as [|e l IH]; [done|]. intros [Hs Hf]%StronglySorted_inv. specialize (IH Hs).
  destruct (decide (P e)) as [He|He]; [rewrite filter_cons_True by done|by rewrite filter_cons_False].
  constructor; [done|]. rewrite Forall_forall in Hf. apply Forall_forall. intros k (x & -> & Hx)%list_elem_of_fmap.
  apply Hf, list_elem_of_fmap_2. by apply list_elem_of_filter in Hx as [_ ?].
Qed.

Lemma seek_index_le k l : (seek_index k l <= length l)%nat.
Proof. induction l as [|e l IH]; simpl; [lia|]. destruct (ltb _ _); lia. Qed.

Lemma filter_comm (P Q : ientry -> Prop) `{!forall e, Decision (P e), !forall e, Decision (Q e)} l :
  filter P (filter Q l) = filter Q (filter P l).
Proof. rewrite !list_filter_filter. apply list_filter_iff. intros x. tauto. Qed.

(** Where the source is after the seek. *)
Lemma seek_forward st it :
  sorted_entries (it_list it) ->
  (it_pos (it_Seek st it) = None /\ filter (from st) (it_list it) = []) \/
  exists i, it_pos (it_Seek st it) = Some i /\ (i < length (it_list it))%nat /\ drop i (it_list it) = filter (from st) (it_list it).
Proof.
  intros Hs. rewrite Seek_pos. unfold index_of. destruct (seek_split st _ Hs) as [_ Hd].
  destruct (Nat.ltb_spec (seek_index st (it_list it)) (length (it_list it))); [by right; eauto|left].
  by rewrite <- Hd, drop_ge.
Qed.

(** The source is moved to the last entry below [en]. *)
Definition seek_before (en : bytes) (s : Iter) : Iter :=
  let s := it_Seek en s in
  if it_Valid s then if negb (ltb (it_Key s) en) then it_Prev s else s else it_SeekToLast s.

Lemma seek_backward en it :
  sorted_entries (it_list it) ->
  it_list (seek_before en it) = it_list it /\
  ((it_pos (seek_before en it) = None /\ filter (below en) (it_list it) = []) \/
   exists i, it_pos (seek_before en it) = Some i /\ (i < length (it_list it))%nat /\
     take (S i) (it_list it) = filter (below en) (it_list it)).
Proof.
  intros Hs. destruct (seek_split en _ Hs) as [Ht Hd]. unfold seek_before. rewrite Valid_pos, Seek_pos.
  set (n := seek_index en (it_list it)) in *. unfold index_of.
  destruct (Nat.ltb_spec n (length (it_list it))) as [Hlt|Hge].
  - rewrite bool_decide_true by eauto. destruct (lookup_lt_is_Some_2 _ _ Hlt) as [e He].
    assert (Hpos : it_pos (it_Seek en it) = Some n) by (rewrite Seek_pos; unfold index_of; by rewrite (proj2 (Nat.ltb_lt _ _))).
    destruct (entry_at (it_Seek en it) n e Hpos) as (-> & _); [by rewrite Seek_list|].
    assert (Hen : ltb (ie_key e) en = false).
    { assert (Hin : e ∈ filter (from en) (it_list it)) by (rewrite <- Hd, (drop_S _ _ _ He); by left).
      by apply list_elem_of_filter in Hin as [? _]. }
    rewrite Hen. cbn [negb]. rewrite Prev_list, Seek_list, (Prev_pos _ _ Hpos). split; [done|].
    destruct n as [|n]; [left; split; [done|by rewrite <- Ht, take_0]|right]. exists n. split; [done|]. split; [lia|done].
  - rewrite bool_decide_false by (by intros [? ?]). rewrite SeekToLast_pos, SeekToLast_list, !Seek_list. split; [done|].
    rewrite take_ge in Ht by done. unfold index_of. destruct (it_list it) as [|e l]; [by left|right].
    exists (length l). cbn [length pred]. rewrite (proj2 (Nat.ltb_lt _ _)) by lia. split; [done|]. split; [lia|].
    by rewrite take_ge by (simpl; lia).
Qed.

Lemma newRocksDBIterator_wanted fuel it prefix st en rev skip :
  sorted_entries (it_list it) -> Forall ts_ok (it_list it) -> (length (it_list it) < fuel)%nat ->
  exists itr, newRocksDBIterator fuel it prefix (Some st) (Some en) rev skip = Ok itr /\ settled itr /\
    conf itr = (prefix, skip) /\ todo itr `suffix_of` range_entries st en rev (it_list it) /\
    wanted itr = if skip then filter (fun e => ie_ts e <> 0) (range_entries st en rev (it_list it))
                 else range_entries st en rev (it_list it).
Proof.
  intros Hs Hts Hf. unfold newRocksDBIterator. set (s := if rev then _ else _). set (itr0 := {| source := s |}).
  assert (Hinit : at_entry itr0 /\ todo itr0 = range_entries st en rev (it_list it)).
  { unfold at_entry, todo, ahead, in_bound, range_entries. cbn [source itr0 isInvalid isReverse itr_start itr_end].
    destruct rev; subst s; cbn iota.
    - change (if it_Valid (it_Seek en it) then _ else _) with (seek_before en it).
      destruct (seek_backward en it Hs) as (-> & [[-> E]|(i & -> & Hi & E)]).
      + split; [done|]. by rewrite filter_comm, E.
      + split; [intros j [=]; by subst|]. rewrite E, filter_comm, take_while_from; [done|by apply sorted_filter].
    - rewrite Seek_list. destruct (seek_forward st it Hs) as [[-> E]|(i & -> & Hi & E)].
      + split; [done|]. by rewrite E.
      + split; [intros j [=]; by subst|]. rewrite E, take_while_below; [done|by apply sorted_filter]. }
  destruct Hinit as [Hat Ht]. assert (Hsub : forall e, e ∈ todo itr0 -> e ∈ it_list it).
  { intros e. rewrite Ht. unfold range_entries. destruct rev; rewrite ?elem_of_reverse, !list_elem_of_filter; by intros (_ & _ & ?). }
  destruct (trySkip_ok fuel itr0 Hat) as (itr & -> & Hse & [= Hp Hz] & Hw & Hsuf).
  - apply Forall_forall. intros e He. rewrite Forall_forall in Hts. auto.
  - rewrite Ht. unfold range_entries. enough (length (filter (below en) (filter (from st) (it_list it))) <= length (it_list it))%nat
      by (destruct rev; rewrite ?length_reverse; lia). etrans; [apply length_filter|apply length_filter].
  - exists itr. split; [done|]. split; [done|]. split; [unfold conf; by rewrite Hp, Hz|]. rewrite <- Ht. split; [done|]. rewrite Hw. done.
Qed.

(** ** Iterators at a version *)

(** Every key an iterator lists has an entry of its own. *)
Lemma lists_length m t l : lists m t l -> (length l <= size m)%nat.
Proof.
  intros [Hs Hl]. rewrite <- size_dom. rewrite <- (length_fmap (fun e => (ie_key e, ie_ts e)) l).
  rewrite <- (size_list_to_set (C:=gset (bytes * Z))).
  - apply subseteq_size. intros x (e & -> & He)%elem_of_list_to_set%list_elem_of_fmap. apply Hl in He. unfold visible in He.
    destruct (newest m _ t) as [[ts [v|]]|] eqn:E; simplify_eq. apply newest_Some in E as [E _]. by eapply elem_of_dom_2.
  - apply (NoDup_fmap_1 fst), kv_sorted_NoDup. unfold kv_sorted. rewrite <- list_fmap_compose. exact Hs.
Qed.

Lemma strip_sorted p l :
  sorted_entries l -> Forall (fun e => exists k, ie_key e = p ++ k) l -> kv_sorted (strip p <$> l).
Proof.
  unfold kv_sorted. induction l as [|e l IH]; [constructor|]. intros [Hs Hf]%StronglySorted_inv Hp.
  apply Forall_cons in Hp as [[k Hk] Hp]. cbn [fmap list_fmap]. constructor; [by apply IH|].
  rewrite Forall_forall in Hf. rewrite Forall_forall in Hp. apply Forall_forall.
  intros k' (x & -> & (e' & -> & He')%list_elem_of_fmap)%list_elem_of_fmap. destruct (Hp e' He') as [k2 Hk2].
  specialize (Hf (ie_key e') (list_elem_of_fmap_2 _ _ _ He')). unfold strip. cbn [fst]. rewrite Hk, Hk2 in *.
  rewrite !drop_app_length. unfold bytes_lt in *. by rewrite Compare_prefix in Hf.
Qed.

Lemma filter_id (P : ientry -> Prop) `{!forall e, Decision (P e)} l : Forall P l -> filter P l = l.
Proof. induction 1 as [|x l Hx Hl IH]; [done|]. by rewrite filter_cons_True, IH. Qed.

(** What a domain of a store lists at a version. *)
Lemma domain_listed m f lo h l name start end_ st en t :
  tracks m f lo h -> lists m t l -> slash_free name ->
  (forall x, (ltb x st = false /\ ltb x en = true) <-> exists k, x = prependStoreKey name k /\ in_domain start end_ k = true) ->
  let sel := filter (below en) (filter (from st) l) in
  Forall (fun e => exists k, ie_key e = storePrefix name ++ k) sel /\
  forall k v, (k, v) ∈ (strip (storePrefix name) <$> sel) <-> f t !! (name, k) = Some v /\ in_domain start end_ k = true.
Proof.
  intros Ht [Hs Hl] Hn Hr sel. assert (Hsel : forall e, e ∈ sel <->
    e ∈ l /\ exists k, ie_key e = prependStoreKey name k /\ in_domain start end_ k = true).
  { intros e. unfold sel. rewrite !list_elem_of_filter. specialize (Hr (ie_key e)). unfold below, from. tauto. }
  split; [apply Forall_forall; intros e He; apply Hsel in He as (_ & k & Hk & _); by exists k|].
  intros k v. rewrite list_elem_of_fmap, <- (tr_state _ _ _ _ Ht) by done. split.
  - intros (e & E & He). apply Hsel in He as (He & k' & Hk' & Hd). unfold strip in E. rewrite Hk' in E.
    unfold prependStoreKey in E. rewrite drop_app_length in E. injection E as -> ->. split; [|done].
    rewrite <- Hk'. apply Hl in He. by rewrite He.
  - intros [Hv Hd]. destruct (visible m (prependStoreKey name k) t) as [[v' ts]|] eqn:E; [|done]. injection Hv as ->.
    exists {| ie_key := prependStoreKey name k; ie_value := v; ie_ts := ts |}. split.
    + unfold strip, prependStoreKey. cbn [ie_key ie_value]. by rewrite drop_app_length.
    + apply Hsel. split; [by apply Hl|by exists k].
Qed.

(** Of the entries listed, those that are seen are those of the history that is served. *)
Lemma lists_seen m good skip t l :
  (forall k, seen skip m k t = visible good k t) -> lists m t l ->
  lists good t (if skip then filter (fun e => ie_ts e <> 0) l else l).
Proof.
  intros Hg [Hs Hl]. unfold seen in Hg. split; [destruct skip; [by apply sorted_filter|done]|]. intros e. rewrite <- Hg. destruct skip.
  - rewrite list_elem_of_filter, Hl. destruct (visible m (ie_key e) t) as [[v ts]|]; [|naive_solver].
    cbn [andb]. destruct (Z.eqb_spec ts 0); naive_solver.
  - rewrite Hl. by destruct (visible m (ie_key e) t) as [[]|].
Qed.

Lemma iteratorAtVersion_serves fuel (s : Store (DB:=DB)) good f lo h name start end_ version reverse_ :
  serves s good -> tracks good f lo h -> slash_free name ->
  version_ok version -> start <> Some [] -> end_ <> Some [] -> (size (db_entries (db s)) < fuel)%nat ->
  exists itr kvs, iteratorAtVersion fuel s name start end_ version reverse_ = Ok itr /\
    collect fuel itr = Ok (if reverse_ then reverse kvs else kvs) /\ kv_sorted kvs /\
    forall k v, (k, v) ∈ kvs <-> f (read_at version) !! (name, k) = Some v /\ in_domain start end_ k = true.
Proof.
  intros [Hg Hb] Ht Hn Hv Hst Hen Hfuel. unfold iteratorAtVersion. rewrite !bool_decide_false by done. cbn [orb].
  destruct (iterateWithPrefix_range name start end_) as (st & en & -> & Hr). cbn [mbind res_bind].
  pose proof (NewIterator_lists (db s) (newTSReadOptions version)) as Hl. rewrite read_ts in Hl by done.
  set (it := db_NewIteratorCF _ _) in *. pose proof (lists_length _ _ _ Hl) as Hlen.
  assert (Hts : Forall ts_ok (it_list it)).
  { apply Forall_forall. intros e He. apply Hl, visible_ts in He as [He _]. by apply Hb in He. }
  destruct (newRocksDBIterator_wanted fuel it (storePrefix name) st en reverse_ (skipVersionZero s))
    as (itr & -> & Hs & [= Hp _] & Hsuf & Hw); [apply Hl|done|lia|].
  pose proof (lists_seen _ good (skipVersionZero s) _ _ (fun k => Hg k _ (read_at_nonneg _ Hv)) Hl) as Hl'.
  set (l' := if skipVersionZero s then _ else _) in Hl'.
  destruct (domain_listed _ _ _ _ _ name start end_ st en _ Ht Hl' Hn Hr) as [_ Hin].
  assert (Hw' : wanted itr = range_entries st en reverse_ l').
  { rewrite Hw. unfold l', range_entries. destruct (skipVersionZero s); [|done].
    rewrite (filter_comm (below en)), (filter_comm (from st)), !(filter_comm _ (fun e => ie_ts e <> 0)).
    by destruct reverse_; rewrite ?filter_reverse. }
  assert (Hpre : Forall (fun e => exists k, ie_key e = storePrefix name ++ k) (filter (below en) (filter (from st) (it_list it)))).
  { apply Forall_forall. intros e. rewrite !list_elem_of_filter. unfold below, from. intros (He1 & He2 & _).
    destruct (proj1 (Hr (ie_key e))) as (k & Hk & _); [done|]. by exists k. }
  set (sel := filter (below en) (filter (from st) l')) in *.
  exists itr, (strip (storePrefix name) <$> sel). split; [done|]. split.
  - rewrite collect_wanted, Hw', Hp; [unfold range_entries; fold sel; destruct reverse_; by rewrite ?fmap_reverse|done| |].
    + apply suffix_length in Hsuf. enough (length (range_entries st en reverse_ (it_list it)) <= length (it_list it))%nat by lia.
      unfold range_entries. destruct reverse_; rewrite ?length_reverse; (etrans; [apply length_filter|apply length_filter]).
    + rewrite Hp. destruct Hsuf as [l0 E]. rewrite Forall_forall in Hpre. apply Forall_forall. intros e He.
      apply Hpre. assert (Hin' : e ∈ range_entries st en reverse_ (it_list it)) by (rewrite E; apply elem_of_app; by right).
      unfold range_entries in Hin'. destruct reverse_; by rewrite ?elem_of_reverse in Hin'.
  - split; [|done]. apply strip_sorted; [apply sorted_filter, sorted_filter, Hl'|]. apply Forall_forall. intros e.
    unfold sel. rewrite !list_elem_of_filter. unfold below, from. intros (He1 & He2 & _).
    destruct (proj1 (Hr (ie_key e))) as (k & Hk & _); [done|]. by exists k.
Qed.

Lemma iteratorAtVersion_collects fuel (s : Store (DB:=DB)) f lo h name start end_ version reverse_ :
  tracks (db_entries (db s)) f lo h -> h < 2 ^ 63 -> 0 <= lo -> (skipVersionZero s = true -> 0 < lo) -> slash_free name ->
  version_ok version -> start <> Some [] -> end_ <> Some [] -> (size (db_entries (db s)) < fuel)%nat ->
  exists itr kvs, iteratorAtVersion fuel s name start end_ version reverse_ = Ok itr /\
    collect fuel itr = Ok (if reverse_ then reverse kvs else kvs) /\ kv_sorted kvs /\
    forall k v, (k, v) ∈ kvs <-> f (read_at version) !! (name, k) = Some v /\ in_domain start end_ k = true.
Proof. intros Ht Hh Hlo Hz. eapply iteratorAtVersion_serves; [by eapply tracks_serves|done]. Qed.
End walk.
