(* ===== verification/VersionDBProps.v ===== *)
(** * The properties of the version database *)

From Stdlib Require Import Strings.Byte ZArith Lia.
From stdpp Require Import base gmap list numbers strings sorting.
From S2P Require Import Prelude Binary Proto State Rocks VersionDB VersionDBInv VersionDBIter.
Local Open Scope Z_scope.

(** ** Trimmed histories *)

Lemma newest_trim m v k t : newest (filter (fun e => e.1.2 <= v) m) k t = newest m k (Z.min v t).
Proof.
  assert (Hl : forall ts, filter (fun e => e.1.2 <= v) m !! (k, ts) = if ts <=? v then m !! (k, ts) else None).
  { intros ts. destruct (Z.leb_spec ts v) as [Hle|Hlt].
    - destruct (m !! (k, ts)) as [o|] eqn:E; [by apply map_lookup_filter_Some|by apply map_lookup_filter_None_2; left].
    - apply map_lookup_filter_None_2. right. intros o _. simpl. lia. }
  apply option_eq. intros [ts o]. rewrite !newest_Some, Hl. setoid_rewrite Hl. split; intros (E & Hle & Hm).
  - destruct (Z.leb_spec ts v); [|done]. split; [done|]. split; [lia|]. intros ts' Hts. specialize (Hm ts' ltac:(lia)).
    by destruct (Z.leb_spec ts' v); [|lia].
  - rewrite (proj2 (Z.leb_le _ _)) by lia. split; [done|]. split; [lia|]. intros ts' Hts.
    destruct (Z.leb_spec ts' v); [apply Hm; lia|done].
Qed.

Lemma tracks_trim m f lo h v : tracks m f lo h -> tracks (filter (fun e => e.1.2 <= v) m) (fun w => f (Z.min v w)) lo h.
Proof.
  intros [Hb Hs]. split.
  - intros k ts o E. apply map_lookup_filter_Some in E as [E _]. by eapply Hb.
  - intros name key w Hn. unfold visible. rewrite newest_trim. by apply Hs.
Qed.

Section served.
  Context {DB Iter : Type} `{RocksLaws DB Iter}.

(** The blocks have been committed to an empty database. *)
Definition committed (d : DB) (blocks : list block) (fss : StreamingService (DB:=DB)) : Prop :=
  db_entries d = ∅ /\ blocks_ok blocks /\
  for_each commit_block blocks (NewStreamingService (NewStore d)) = (fss, Ok tt).

(** No block is at the version that is skipped. *)
Definition skip_ok (skip : bool) (blocks : list block) : Prop := skip = true -> Forall (fun b => 0 < b.1) blocks.

Lemma last_height_bound h0 blocks :
  0 <= h0 < 2 ^ 63 -> Forall (fun b => height_ok b.1 /\ pairs_ok b.2) blocks -> 0 <= last_height h0 blocks < 2 ^ 63.
Proof. intros Hh Hb. revert h0 Hh. induction Hb as [|b blocks [Hb _] _ IH]; intros h0 Hh; [done|]. by apply IH. Qed.

Lemma committed_tracks d blocks fss skip :
  committed d blocks fss -> skip_ok skip blocks ->
  let s := SetSkipVersionZero skip (versionStore fss) in
  exists lo h, tracks (db_entries (db s)) (state_at blocks) lo h /\ 0 <= lo /\ h < 2 ^ 63 /\ (skipVersionZero s = true -> 0 < lo).
Proof.
  intros (Hd & Hb & E) Hz s. set (lo := if skip then 1 else 0).
  assert (Hlo : Forall (fun b => lo <= b.1) blocks).
  { pose proof (bo_blocks _ Hb) as Hall. unfold skip_ok, lo in *. destruct skip.
    - eapply Forall_impl; [exact (Hz eq_refl)|simpl; lia].
    - eapply Forall_impl; [exact Hall|]. intros b [[? ?] _]. done. }
  destruct (commit_blocks_tracks blocks _ fss (fun _ => ∅) lo lo E) as (Ht & _ & _);
    [cbn; rewrite Hd; apply empty_tracks|lia|done|done|].
  exists lo, (last_height lo blocks). split; [exact Ht|].
  pose proof (last_height_bound lo blocks) as Hl. unfold lo in *. split; [by destruct skip|].
  split; [apply Hl; [by destruct skip|apply Hb]|]. unfold s. cbn. by intros ->.
Qed.

(** C19: Multi-version reads: a store that blocks have been committed to answers at every version,
    and for no version, with the state after the blocks up to it: the value of a key, whether
    the key exists, and the latest version.  Deletions, several writes of a key in a block and
    stores whose names are prefixes of each other included. *)
Theorem versiondb_reads d blocks fss skip name key version :
  committed d blocks fss -> skip_ok skip blocks -> slash_free name -> version_ok version ->
  let s := SetSkipVersionZero skip (versionStore fss) in
  let value := state_at blocks (read_at version) !! (name, key) in
  kv_Get (NewKVStore s name version) key = Ok value /\
  kv_Has (NewKVStore s name version) key = Ok (bool_decide (is_Some value)) /\
  (blocks <> [] -> GetLatestVersion s = Ok (last_height 0 blocks)).
Proof.
  intros Hc Hz Hn Hv s value. destruct (committed_tracks d blocks fss skip Hc Hz) as (lo & h & Ht & Hlo & Hh & Hskip).
  pose proof (GetAtVersion_tracks s (state_at blocks) lo h name key version Ht Hh Hlo Hskip Hn Hv) as Eg.
  unfold kv_Get, kv_Has, HasAtVersion, GetAtVersion in *. cbn [kv_store kv_name kv_version NewKVStore]. rewrite Eg. split; [done|]. split; [done|]. intros Hne.
  destruct Hc as (Hd & Hb & E). destruct (commit_blocks_tracks blocks _ fss (fun _ => ∅) 0 0 E) as (_ & _ & Hl);
    [cbn; rewrite Hd; apply empty_tracks|lia|done| |by apply Hl].
  eapply Forall_impl; [apply Hb|]. intros b [[? ?] _]. done.
Qed.

(** C20: Iterators at a version list the keys of a store that are in the domain, each once, in
    ascending or descending order and with the values of that version; empty bounds are refused. *)
Theorem versiondb_iterators d blocks fss skip name start end_ version fuel rev :
  committed d blocks fss -> skip_ok skip blocks -> slash_free name -> version_ok version ->
  let s := SetSkipVersionZero skip (versionStore fss) in
  (size (db_entries (db s)) < fuel)%nat ->
  if bool_decide (start = Some []) || bool_decide (end_ = Some []) then
    iteratorAtVersion fuel s name start end_ version rev = Err errKeyEmpty
  else exists itr kvs,
    iteratorAtVersion fuel s name start end_ version rev = Ok itr /\
    collect fuel itr = Ok (if rev : bool then reverse kvs else kvs) /\ kv_sorted kvs /\
    forall k v, (k, v) ∈ kvs <-> state_at blocks (read_at version) !! (name, k) = Some v /\ in_domain start end_ k = true.
Proof.
  intros Hc Hz Hn Hv s Hf. destruct (committed_tracks d blocks fss skip Hc Hz) as (lo & h & Ht & Hlo & Hh & Hskip).
  destruct (bool_decide (start = Some []) || bool_decide (end_ = Some [])) eqn:E.
  - unfold iteratorAtVersion. by rewrite E.
  - apply orb_false_iff in E as [E1%bool_decide_eq_false E2%bool_decide_eq_false].
    by apply (iteratorAtVersion_collects fuel s (state_at blocks) lo h).
Qed.

(** Rollback: the database reopened at a version serves every later version, and no version,
    with the state at the version it was opened at; the latest version it reports is still the
    one before the rollback. *)
Theorem NewStoreAtVersion_rolls_back d blocks fss name key version v :
  committed d blocks fss -> blocks <> [] -> slash_free name -> version_ok version -> height_ok v ->
  let s := NewStoreAtVersion (db (versionStore fss)) v in
  GetAtVersion s name key version = Ok (state_at blocks (Z.min v (read_at version)) !! (name, key)) /\
  GetLatestVersion s = Ok (last_height 0 blocks).
Proof.
  intros Hc Hne Hn Hv Hvv s. destruct (committed_tracks d blocks fss false Hc) as (lo & h & Ht & Hlo & Hh & _); [done|].
  cbn [db SetSkipVersionZero] in Ht. split.
  - apply (GetAtVersion_tracks s (fun w => state_at blocks (Z.min v w)) lo h); [|done|done|done|done|done].
    unfold s, NewStoreAtVersion. cbn [db]. rewrite TrimHistory_entries, version_ts_get by done. by apply tracks_trim.
  - destruct Hc as (Hd & Hb & E). destruct (commit_blocks_tracks blocks _ fss (fun _ => ∅) 0 0 E) as (_ & _ & Hl);
      [cbn; rewrite Hd; apply empty_tracks|lia|done|eapply Forall_impl; [apply Hb|by intros b [[? ?] _]]|].
    specialize (Hl Hne). unfold GetLatestVersion, s, NewStoreAtVersion in *. cbn [db].
    rewrite GetBytes_lookup, TrimHistory_default in *. exact Hl.
Qed.
End served.

(** ** Witnesses *)

Definition spair (store key : string) (value : option string) : StoreKVPair :=
  {| skv_StoreKey := str store; skv_Delete := bool_decide (value = None); skv_Key := str key;
     skv_Value := match value with Some v => str v | None => [] end |}.

Definition sample_blocks : list block :=
  [(1, [spair "acc" "a" (Some "1"); spair "acc" "b" (Some "2"); spair "acc2" "a" (Some "3")]);
   (3, [spair "acc" "a" None; spair "acc" "c" (Some "4")]);
   (4, [spair "acc" "a" (Some "5")])].
Definition sample_fss : StreamingService (DB:=memDB) :=
  (for_each commit_block sample_blocks (NewStreamingService (NewStore mem_empty))).1.

Lemma sample_committed : committed (Iter:=memIter) mem_empty sample_blocks sample_fss.
Proof.
  split; [done|]. split; [|by vm_compute].
  split; [repeat constructor; by vm_compute|].
  repeat (apply Forall_cons; split; [split; [by vm_compute|repeat constructor; by apply (bool_decide_unpack _); vm_compute]|]).
  constructor.
Defined.

Lemma versiondb_reads_witness :
  kv_Get (NewKVStore (SetSkipVersionZero true (versionStore sample_fss)) (str "acc") (Some 3)) (str "a") =
    Ok (state_at sample_blocks 3 !! (str "acc", str "a")) /\
  kv_Has (NewKVStore (SetSkipVersionZero true (versionStore sample_fss)) (str "acc") (Some 3)) (str "a") =
    Ok (bool_decide (is_Some (state_at sample_blocks 3 !! (str "acc", str "a")))) /\
  GetLatestVersion (SetSkipVersionZero true (versionStore sample_fss)) = Ok 4.
Proof.
  destruct (versiondb_reads (Iter:=memIter) mem_empty sample_blocks sample_fss true (str "acc") (str "a") (Some 3))
    as (Hg & Hh & Hl).
  - exact sample_committed.
  - intros _. repeat constructor.
  - unfold slash_free. by apply (bool_decide_unpack _); vm_compute.
  - by vm_compute.
  - split; [exact Hg|]. split; [exact Hh|]. by apply Hl.
Defined.

Lemma versiondb_iterators_witness :
  exists itr kvs,
    iteratorAtVersion 9 (SetSkipVersionZero false (versionStore sample_fss)) (str "acc") (Some (str "b")) None None true = Ok itr /\
    collect 9 itr = Ok (reverse kvs) /\ kv_sorted kvs /\ (str "c", str "4") ∈ kvs.
Proof.
  destruct (versiondb_iterators mem_empty sample_blocks sample_fss false (str "acc") (Some (str "b")) None None 9 true)
    as (itr & kvs & Hi & Hc & Hs & Hin).
  - exact sample_committed.
  - done.
  - unfold slash_free. by apply (bool_decide_unpack _); vm_compute.
  - done.
  - apply Nat.ltb_lt. by vm_compute.
  - exists itr, kvs. split; [exact Hi|]. split; [exact Hc|]. split; [exact Hs|]. apply Hin. by vm_compute.
Defined.

Lemma NewStoreAtVersion_rolls_back_witness :
  GetAtVersion (NewStoreAtVersion (db (versionStore sample_fss)) 2) (str "acc") (str "a") (Some 4) =
    Ok (state_at sample_blocks 2 !! (str "acc", str "a")) /\
  GetLatestVersion (NewStoreAtVersion (db (versionStore sample_fss)) 2) = Ok 4.
Proof.
  apply (NewStoreAtVersion_rolls_back mem_empty sample_blocks sample_fss (str "acc") (str "a") (Some 4) 2).
  - exact sample_committed.
  - done.
  - unfold slash_free. by apply (bool_decide_unpack _); vm_compute.
  - by vm_compute.
  - by vm_compute.
Defined.
