(* ===== verification/FixDataInv.v ===== *)
(** * Repairing entries at wrong timestamps (versiondb/tsrocksdb/store.go)

    Entries that were written with the timestamp at the end of the key, at version zero, are
    written again at the version they belong to.  Afterwards a store that skips version zero
    serves the history that was meant, for reads and for iterators; a repair that is cut
    short, or was done before, does no harm. *)

From Stdlib Require Import Strings.Byte ZArith Lia.
From stdpp Require Import base gmap list numbers strings sorting.
From S2P Require Import Prelude Binary Proto State Rocks VersionDB VersionDBInv VersionDBIter VersionDBProps.
Local Open Scope Z_scope.

(** [bad] is the history [good] in which the puts [moved] are at
    version zero with their timestamps appended to their keys; some of them may have been
    written again at their versions.  Empty values are left out: of a key that is not there a
    read gives one as well. *)
Record misplaced (moved : gset (bytes * bytes * Z)) (good bad : history) : Prop := {
  mp_good : forall k ts o, good !! (k, ts) = Some o -> 0 < ts < 2 ^ 63;
  mp_moved : forall name k t, (name, k, t) ∈ moved -> slash_free name /\
    exists v, v <> [] /\ good !! (prependStoreKey name k, t) = Some (Some v);
  mp_zero : forall key o, bad !! (key, 0) = Some o <->
    exists name k t, (name, k, t) ∈ moved /\ key = prependStoreKey name (k ++ le_u64 t) /\ good !! (prependStoreKey name k, t) = Some o;
  mp_later : forall key t, t <> 0 -> bad !! (key, t) = good !! (key, t) \/
    (bad !! (key, t) = None /\ exists name k, key = prependStoreKey name k /\ (name, k, t) ∈ moved)
}.

(** The puts of a store are at their versions. *)
Definition repaired (moved : gset (bytes * bytes * Z)) (good m : history) (name : bytes) : Prop :=
  forall k t, (name, k, t) ∈ moved -> m !! (prependStoreKey name k, t) = good !! (prependStoreKey name k, t).

Lemma misplaced_ts moved good bad k ts o : misplaced moved good bad -> bad !! (k, ts) = Some o -> 0 <= ts < 2 ^ 63.
Proof.
  intros Hm E. destruct (decide (ts = 0)) as [->|Hne]; [lia|].
  destruct (mp_later _ _ _ Hm k ts Hne) as [E'|[E' _]]; rewrite E in E'; [|done]. symmetry in E'. apply (mp_good _ _ _ Hm) in E'. lia.
Qed.

(** Without the entries at version zero nothing is missing any more. *)
Lemma repaired_seen moved good bad names k t :
  misplaced moved good bad -> (forall name k t, (name, k, t) ∈ moved -> name ∈ names) ->
  Forall (repaired moved good bad) names -> 0 <= t -> seen true bad k t = visible good k t.
Proof.
  intros Hm Hn Hr Ht. rewrite Forall_forall in Hr.
  assert (Hl : forall ts, ts <> 0 -> bad !! (k, ts) = good !! (k, ts)).
  { intros ts Hts. destruct (mp_later _ _ _ Hm k ts Hts) as [E|(_ & name & k' & -> & Hin)]; [done|]. apply (Hr name); [by eapply Hn|done]. }
  assert (Hg0 : good !! (k, 0) = None) by (destruct (good !! (k, 0)) eqn:E; [apply (mp_good _ _ _ Hm) in E; lia|done]).
  unfold seen, visible. destruct (newest good k t) as [[ts o]|] eqn:E.
  - apply newest_Some in E as (E & Hle & Hmax). pose proof (mp_good _ _ _ Hm _ _ _ E) as Hts.
    assert (Eb : newest bad k t = Some (ts, o)).
    { apply newest_Some. rewrite Hl by lia. split; [done|]. split; [done|]. intros ts' Hts'. rewrite Hl by lia. by apply Hmax. }
    rewrite Eb. destruct o; [|done]. by rewrite (proj2 (Z.eqb_neq ts 0)), andb_false_r by lia.
  - destruct (newest bad k t) as [[ts o]|] eqn:Eb; [|done]. apply newest_Some in Eb as (Eb & Hle & _).
    destruct (decide (ts = 0)) as [->|Hne]; [by destruct o|]. exfalso. rewrite Hl in Eb by done.
    by rewrite (newest_None _ _ _ E ts Hle) in Eb.
Qed.

Lemma size_list_to_set_le `{Countable A} (l : list A) : (size (list_to_set l : gset A) <= length l)%nat.
Proof.
  induction l as [|x l IH]; [done|]. cbn [list_to_set length]. rewrite size_union_alt, size_singleton.
  etrans; [apply Nat.add_le_mono_l, subseteq_size, subseteq_difference_l; reflexivity|]. lia.
Qed.

Lemma misplaced_size moved good bad : misplaced moved good bad -> (size bad <= size good + size moved)%nat.
Proof.
  intros Hm. set (f := fun x : bytes * bytes * Z => (prependStoreKey x.1.1 (x.1.2 ++ le_u64 x.2), 0)).
  rewrite <- (size_dom good), <- (size_dom bad). etrans; [apply (subseteq_size _ (dom good ∪ set_map f moved))|].
  - intros [key t] [o E]%elem_of_dom. apply elem_of_union. destruct (decide (t = 0)) as [->|Hne].
    + right. apply (mp_zero _ _ _ Hm) in E as (name & k & t & Hin & -> & _). apply elem_of_map. by exists (name, k, t).
    + left. apply elem_of_dom. destruct (mp_later _ _ _ Hm key t Hne) as [E'|[E' _]]; [rewrite <- E'; eauto|congruence].
  - rewrite size_union_alt. apply Nat.add_le_mono_l. etrans; [apply subseteq_size, subseteq_difference_l; reflexivity|].
    unfold set_map. etrans; [apply size_list_to_set_le|]. by rewrite length_fmap.
Qed.

(** ** Writing again *)

(** The op writes a put of [good]. *)
Definition writes_good (good : history) (op : batch_op) : Prop :=
  match op with PutCFWithTS k ts v => good !! (k, le_get ts) = Some (Some v) | _ => False end.
Definition written (op : batch_op) : option (bytes * Z) :=
  match op with PutCFWithTS k ts _ => Some (k, le_get ts) | _ => None end.

Lemma batch_good good m batch x :
  Forall (writes_good good) batch ->
  foldl apply_op m batch !! x = if bool_decide (Some x ∈ (written <$> batch)) then good !! x else m !! x.
Proof.
  intros Hb. revert m. induction Hb as [|op batch Hop _ IH]; intros m; [done|]. cbn [foldl fmap list_fmap]. rewrite IH.
  destruct op as [|k ts v|]; [done| |done]. cbn [writes_good written apply_op] in *.
  destruct (decide (x = (k, le_get ts))) as [->|Hne].
  - rewrite (bool_decide_true (_ ∈ _ :: _)) by (by left). rewrite lookup_insert_eq, Hop. by case_bool_decide.
  - rewrite lookup_insert_ne by done. apply (f_equal (fun b : bool => if b then _ else _)). apply bool_decide_ext.
    rewrite elem_of_cons. naive_solver.
Qed.

Lemma batch_misplaced moved good m batch :
  misplaced moved good m -> Forall (writes_good good) batch -> misplaced moved good (foldl apply_op m batch).
Proof.
  intros Hm Hb. split; [apply Hm|apply Hm| |].
  - intros key o. rewrite (batch_good good) by done. rewrite <- (mp_zero _ _ _ Hm). case_bool_decide as Hin; [|done]. exfalso.
    apply list_elem_of_fmap in Hin as (op & E & Hop). rewrite Forall_forall in Hb. specialize (Hb op Hop).
    destruct op as [|k ts v|]; cbn [written writes_good] in *; simplify_eq. apply (mp_good _ _ _ Hm) in Hb. lia.
  - intros key t Ht. rewrite (batch_good good) by done. case_bool_decide; [by left|]. by apply Hm.
Qed.

Section repair.
  Context {DB Iter : Type} `{RocksLaws DB Iter}.
  Abbreviation Store := (@VersionDB.Store DB).
  Abbreviation entries s := (db_entries (db s)).
  Implicit Types (s : Store) (e : ientry).

(** ** Loading the wrong entries *)

Definition wrong_pair (prefix : bytes) e : KVPairWithTS :=
  let key := drop (length prefix) (ie_key e) in
  {| kvt_Key := take (length key - 8) key; kvt_Value := ie_value e; kvt_Timestamp := drop (length key - 8) key |}.

Definition is_wrong (prefix : bytes) e : Prop := ie_ts e = 0 /\ exists k t, ie_key e = prefix ++ k ++ le_u64 t.

Lemma wrong_pair_eq prefix e k t :
  ie_key e = prefix ++ k ++ le_u64 t ->
  wrong_pair prefix e = {| kvt_Key := k; kvt_Value := ie_value e; kvt_Timestamp := le_u64 t |}.
Proof.
  intros E. unfold wrong_pair. rewrite E, drop_app_length, length_app.
  replace (length k + length (le_u64 t) - 8)%nat with (length k) by (unfold le_u64; rewrite length_le_put; lia).
  by rewrite take_app_length, drop_app_length.
Qed.

Lemma load_loop_ok fuel (itr : rocksDBIterator (Iter := Iter)) acc :
  settled itr -> itr_skipVersionZero itr = false -> (length (todo itr) < fuel)%nat ->
  Forall (is_wrong (itr_prefix itr)) (todo itr) ->
  load_loop fuel itr acc = Ok (acc ++ map (wrong_pair (itr_prefix itr)) (todo itr)).
Proof.
  revert itr acc. induction fuel as [|fuel IH]; intros itr acc Hs Hz Hf Hw; [lia|]. cbn [load_loop].
  destruct (Valid_todo itr (se_at _ Hs)) as [(Ht & itr' & -> & _)|(e & l & Ht & Hv & _ & Ev & Et & _)].
  { by rewrite Ht, app_nil_r. }
  rewrite Ht in *. apply Forall_cons in Hw as [[Hts (k & t & Hk)] Hw]. rewrite Hv.
  unfold Timestamp, Value, assertIsValid. rewrite Hv. cbn [mbind res_bind]. rewrite Et, Hts, Uint64_le_u64 by lia.
  cbn [of_option mbind res_bind Z.eqb negb]. rewrite (Key_todo itr e l (se_at _ Hs) Ht) by eauto. cbn [mbind res_bind].
  unfold strip. cbn [fst]. rewrite Hk, drop_app_length. unfold TimestampSize.
  rewrite zlen_app, zlen_le_u64, (proj2 (Z.ltb_ge _ _)) by lens.
  replace (zlen k + 8 - 8) with (zlen k) by lia.
  rewrite (slice_end k (le_u64 t) (zlen k)) by (rewrite ?zlen_le_u64; lia). cbn [of_option mbind res_bind].
  change (k ++ le_u64 t) with ([] ++ k ++ le_u64 t) at 1. rewrite (slice_app [] k (le_u64 t) 0 (zlen k) eq_refl) by lia. cbn [of_option mbind res_bind]. rewrite Hv. cbn [mbind res_bind]. rewrite ?Ev.
  destruct (Next_todo (S fuel) itr e l Hs Ht) as (itr' & -> & Hs' & [= Hp Hz'] & Hwa & Hle); [simpl in Hf; lia|].
  cbn [mbind res_bind]. unfold wanted in Hwa. rewrite Hz' , Hz, Ht in Hwa. injection Hwa as Hl.
  rewrite IH; [|done|congruence|rewrite <- Hl; simpl in Hf; lia|by rewrite Hp, <- Hl].
  rewrite <- app_assoc, Hp, <- Hl. cbn [app map]. by rewrite (wrong_pair_eq _ _ _ _ Hk).
Qed.

(** The pairs of a store that are loaded are those that were moved. *)
Lemma loadWrongData_ok fuel s moved good name :
  misplaced moved good (entries s) -> skipVersionZero s = false -> slash_free name -> (size (entries s) < fuel)%nat ->
  exists pairs, loadWrongData fuel s name = Ok pairs /\
    (forall p, p ∈ pairs -> exists k t v, p = {| kvt_Key := k; kvt_Value := v; kvt_Timestamp := le_u64 t |} /\
      (name, k, t) ∈ moved /\ good !! (prependStoreKey name k, t) = Some (Some v)) /\
    (forall k t v, (name, k, t) ∈ moved -> good !! (prependStoreKey name k, t) = Some (Some v) ->
      {| kvt_Key := k; kvt_Value := v; kvt_Timestamp := le_u64 t |} ∈ pairs).
Proof.
  intros Hm Hz Hn Hf. unfold loadWrongData, IteratorAtVersion, iteratorAtVersion. cbn [bool_decide orb]. rewrite !bool_decide_false by done.
  cbn [orb]. destruct (iterateWithPrefix_range name None None) as (st & en & -> & Hr). cbn [mbind res_bind].
  pose proof (NewIterator_lists (db s) (newTSReadOptions (Some 0))) as Hl. rewrite read_ts in Hl by (cbn; unfold height_ok; lia).
  cbn [read_at] in Hl. set (it := db_NewIteratorCF _ _) in *. pose proof (lists_length _ _ _ Hl) as Hlen.
  assert (Hzero : forall e, e ∈ it_list it -> ie_ts e = 0 /\ entries s !! (ie_key e, 0) = Some (Some (ie_value e))).
  { intros e He. apply Hl, visible_ts in He as [E Hle]. pose proof (misplaced_ts _ _ _ _ _ _ Hm E).
    assert (E0 : ie_ts e = 0) by lia. by rewrite E0 in E. }
  destruct (newRocksDBIterator_wanted fuel it (storePrefix name) st en false (skipVersionZero s)) as (itr & -> & Hs & [= Hp Hzi] & Hsuf & Hw);
    [apply Hl| |lia|].
  { apply Forall_forall. intros e [E _]%Hzero. unfold ts_ok. lia. }
  cbn [mbind res_bind]. unfold wanted in Hw. rewrite Hzi, Hz in Hw. rewrite Hz in Hzi.
  assert (Hin : forall e, e ∈ todo itr <-> e ∈ it_list it /\ exists k, ie_key e = prependStoreKey name k).
  { intros e. rewrite Hw. unfold range_entries. rewrite !list_elem_of_filter. specialize (Hr (ie_key e)). unfold below, from.
    cbn [in_domain andb] in Hr. naive_solver. }
  assert (Hmv : forall e, e ∈ todo itr -> exists k t, ie_key e = storePrefix name ++ k ++ le_u64 t /\ (name, k, t) ∈ moved /\
    good !! (prependStoreKey name k, t) = Some (Some (ie_value e))).
  { intros e ([_ E]%Hzero & k' & Hk')%Hin. apply (mp_zero _ _ _ Hm) in E as (name' & k & t & Hmo & Hk & Hg). rewrite Hk' in Hk.
    apply prependStoreKey_inj in Hk as [<- ->]; [|done|by apply (mp_moved _ _ _ Hm) in Hmo as [? _]]. by exists k, t. }
  rewrite load_loop_ok; [|done|done| |].
  - eexists. split; [done|]. rewrite Hp. split.
    + intros p Hp'. cbn [app] in Hp'. apply list_elem_of_fmap in Hp' as (e & -> & He). destruct (Hmv e He) as (k & t & Hk & Hmo & Hg).
      exists k, t, (ie_value e). by rewrite (wrong_pair_eq _ _ _ _ Hk).
    + intros k t v Hmo Hg. cbn [app]. apply list_elem_of_fmap.
      exists {| ie_key := prependStoreKey name (k ++ le_u64 t); ie_value := v; ie_ts := 0 |}.
      split; [by rewrite (wrong_pair_eq _ _ k t)|]. apply Hin. split; [|by eexists]. apply Hl. cbn [ie_key ie_value ie_ts].
      assert (E : entries s !! (prependStoreKey name (k ++ le_u64 t), 0) = Some (Some v)) by (apply (mp_zero _ _ _ Hm); eauto 6).
      assert (En : newest (entries s) (prependStoreKey name (k ++ le_u64 t)) 0 = Some (0, Some v))
        by (apply newest_Some; split; [done|]; split; [done|]; intros; lia).
      unfold visible. by rewrite En.
  - apply suffix_length in Hsuf. enough (length (range_entries st en false (it_list it)) <= length (it_list it))%nat by lia.
    unfold range_entries. etrans; [apply length_filter|apply length_filter].
  - apply Forall_forall. intros e He. rewrite Hp. destruct (Hmv e He) as (k & t & Hk & _). apply Hin in He as [He _].
    split; [by apply Hzero|by eauto].
Qed.

(** ** The batch *)


Lemma with_ts_inj k v t k' v' t' :
  0 < t < 2 ^ 63 -> 0 < t' < 2 ^ 63 ->
  {| kvt_Key := k; kvt_Value := v; kvt_Timestamp := le_u64 t |} = {| kvt_Key := k'; kvt_Value := v'; kvt_Timestamp := le_u64 t' |} ->
  k = k' /\ v = v' /\ t = t'.
Proof.
  intros Ht Ht' E. pose proof (f_equal kvt_Key E) as Ek. pose proof (f_equal kvt_Value E) as Ev. cbn [kvt_Key kvt_Value] in Ek, Ev.
  split; [done|]. split; [done|]. apply le_u64_inj; [lia|lia|]. exact (f_equal kvt_Timestamp E).
Qed.

Lemma fix_batch_ok s good name pairs :
  (forall k ts o, entries s !! (k, ts) = Some o -> 0 <= ts < 2 ^ 63) ->
  (forall p, p ∈ pairs -> exists k t v, p = {| kvt_Key := k; kvt_Value := v; kvt_Timestamp := le_u64 t |} /\ 0 < t < 2 ^ 63 /\
    v <> [] /\ good !! (prependStoreKey name k, t) = Some (Some v)) ->
  exists batch, fix_batch s (storePrefix name) pairs = Ok batch /\ Forall (writes_good good) batch /\
    forall k t v, {| kvt_Key := k; kvt_Value := v; kvt_Timestamp := le_u64 t |} ∈ pairs -> 0 < t < 2 ^ 63 ->
      Some (prependStoreKey name k, t) ∈ (written <$> batch) \/ entries s !! (prependStoreKey name k, t) = Some (Some v).
Proof.
  intros Hbd. induction pairs as [|p pairs IH]; intros Hp; cbn [fix_batch].
  { exists []. split; [done|]. split; [done|]. by intros k t v ?%elem_of_nil. }
  destruct IH as (batch & E & Hb & Hcov); [intros; apply Hp; by right|].
  destruct (Hp p) as (k & t & v & -> & Ht & Hv & Hg); [by left|]. cbn [kvt_Key kvt_Value kvt_Timestamp].
  destruct (GetCF_visible (db s) (le_u64 t) (cloneAppend (storePrefix name) k)) as (ts' & -> & Hts). cbn [mbind res_bind].
  rewrite E. rewrite le_get_u64 in * by lia. cbn [mbind res_bind]. set (clean := _ && _). destruct clean eqn:Ec.
  - exists batch. split; [done|]. split; [done|]. intros k' t' v' [Eq|Hin]%elem_of_cons Ht'; [|by apply Hcov].
    apply with_ts_inj in Eq as (-> & -> & ->); [|done|done]. right. subst clean.
    apply andb_true_iff in Ec as [E1%bool_decide_eq_true E2%bool_decide_eq_true].
    destruct (visible (entries s) _ t) as [[v0 t0]|] eqn:Ev; cbn in E1; [subst v0|done].
    rewrite (Hts _ _ eq_refl) in E2. apply visible_ts in Ev as [Ev Hle].
    pose proof (Hbd _ _ _ Ev). apply le_u64_inj in E2 as ->; [done|lia|lia].
  - eexists. split; [done|]. split.
    + constructor; [|done]. cbn [writes_good]. by rewrite le_get_u64 by lia.
    + intros k' t' v' [Eq|Hin]%elem_of_cons Ht'; [left|destruct (Hcov _ _ _ Hin Ht'); [left; by right|by right]].
      apply with_ts_inj in Eq as (-> & -> & ->); [|done|done]. cbn [fmap list_fmap written]. rewrite le_get_u64 by lia. by left.
Qed.

(** ** The repair of the stores *)

(** A store is repaired, or the write of the batch fails and nothing changes. *)
Lemma fixDataStore_ok fuel s moved good name :
  misplaced moved good (entries s) -> skipVersionZero s = false -> slash_free name -> (size (entries s) < fuel)%nat ->
  fixDataStore fuel name true s = (s, Ok tt) /\
  exists s' r, fixDataStore fuel name false s = (s', r) /\ misplaced moved good (entries s') /\
    skipVersionZero s' = false /\ db_default (db s') = db_default (db s) /\
    (forall other, repaired moved good (entries s) other -> repaired moved good (entries s') other) /\
    ((r = Ok tt /\ repaired moved good (entries s') name) \/ exists (e : error) batch, r = Err e /\ (db_Write batch (db s)).2 = Err e).
Proof.
  intros Hm Hz Hn Hf. unfold fixDataStore. destruct (loadWrongData_ok fuel s moved good name Hm Hz Hn Hf) as (pairs & -> & Hin & Hall).
  destruct (fix_batch_ok s good name pairs) as (batch & -> & Hb & Hcov).
  { intros k ts o. by apply misplaced_ts with (1 := Hm). }
  { intros p (k & t & v & -> & Hmo & Hg)%Hin. pose proof (mp_good _ _ _ Hm _ _ _ Hg).
    destruct (mp_moved _ _ _ Hm _ _ _ Hmo) as (_ & v' & Hv' & Hg'). exists k, t, v. naive_solver. }
  split; [done|]. unfold Write. destruct (Write_atomic batch (db s)) as [(d & -> & Hd & He)|(d & e & Ew & Hd & He)].
  - eexists _, _. split; [done|]. cbn [db skipVersionZero]. rewrite Hd, He. split; [by apply batch_misplaced|]. split; [done|].
    split; [|split; [|left; split; [done|]]].
    + clear -Hb. induction Hb as [|op batch Hop _ IH]; [done|]. cbn [foldl]. by destruct op.
    + intros other Hr k t Hmo. rewrite (batch_good good) by done. case_bool_decide; [done|by apply Hr].
    + intros k t Hmo. rewrite (batch_good good) by done. case_bool_decide as Hw; [done|].
      destruct (mp_moved _ _ _ Hm _ _ _ Hmo) as (_ & v & _ & Hg). pose proof (mp_good _ _ _ Hm _ _ _ Hg).
      destruct (Hcov k t v (Hall _ _ _ Hmo Hg)) as [?|E]; [lia|done|congruence].
  - rewrite Ew. eexists _, _. split; [done|]. cbn [db skipVersionZero]. rewrite Hd, He. do 4 (split; [done|]). right. exists e, batch. by rewrite Ew.
Qed.

Lemma FixData_ok fuel s moved good names :
  misplaced moved good (entries s) -> skipVersionZero s = false -> Forall slash_free names ->
  (size good + size moved < fuel)%nat ->
  FixData fuel names true s = (s, Ok tt) /\
  exists s' r, FixData fuel names false s = (s', r) /\ misplaced moved good (entries s') /\
    skipVersionZero s' = false /\ db_default (db s') = db_default (db s) /\
    (forall other, repaired moved good (entries s) other -> repaired moved good (entries s') other) /\
    ((r = Ok tt /\ Forall (repaired moved good (entries s')) names) \/ exists (e : error) batch d, r = Err e /\ (db_Write batch d).2 = Err e).
Proof.
  intros Hm Hz Hn Hf. revert s Hm Hz. induction Hn as [|name names Hname Hn IH]; intros s Hm Hz.
  { split; [done|]. exists s, (Ok tt). do 5 (split; [done|]). by left. }
  assert (Hfs : (size (entries s) < fuel)%nat) by (pose proof (misplaced_size _ _ _ Hm); lia).
  destruct (fixDataStore_ok fuel s moved good name Hm Hz Hname Hfs) as [Hdry (s1 & r1 & E1 & Hm1 & Hz1 & Hd1 & Hr1 & Hres)].
  split; [apply for_each_cons_ok; exists s; split; [done|by apply IH]|].
  unfold FixData in *. cbn [for_each]. unfold mbind at 1, SE_bind at 1. rewrite E1.
  destruct Hres as [[-> Hrep]|(e & batch & -> & Ee)]; [|by exists s1, (Err e); eauto 12].
  destruct (IH s1 Hm1 Hz1) as [_ (s2 & r2 & E2 & Hm2 & Hz2 & Hd2 & Hr2 & Hres)]. exists s2, r2. split; [done|]. split; [done|]. split; [done|].
  split; [congruence|]. split; [by auto|]. destruct Hres as [[-> Hrest]|Herr]; [left|by right]. split; [done|]. constructor; [by apply Hr2|done].
Qed.

(** C30: [fixdata] of the stores whose puts were written to keys with the timestamp appended, at
    version zero.  A dry run changes nothing; otherwise the repair completes, or a write to
    the database fails and the repair can be run again.  Afterwards a store that skips
    version zero answers reads and iterators at every version with the states that were
    meant, and the latest version is as before. *)
Theorem fixdata_correct fuel s moved good f lo h names :
  misplaced moved good (entries s) -> tracks good f lo h -> (forall name k t, (name, k, t) ∈ moved -> name ∈ names) ->
  Forall slash_free names -> skipVersionZero s = false -> (size good + size moved < fuel)%nat ->
  FixData fuel names true s = (s, Ok tt) /\
  exists s' r, FixData fuel names false s = (s', r) /\ misplaced moved good (entries s') /\
    GetLatestVersion s' = GetLatestVersion s /\
    ((exists (e : error) batch d, r = Err e /\ (db_Write batch d).2 = Err e) \/
     (r = Ok tt /\ let st := SetSkipVersionZero true s' in forall name version, slash_free name -> version_ok version ->
       (forall key, kv_Get (NewKVStore st name version) key = Ok (f (read_at version) !! (name, key))) /\
       forall start end_ rev, start <> Some [] -> end_ <> Some [] ->
         exists itr kvs, iteratorAtVersion fuel st name start end_ version rev = Ok itr /\
           collect fuel itr = Ok (if rev : bool then reverse kvs else kvs) /\ kv_sorted kvs /\
           forall k v, (k, v) ∈ kvs <-> f (read_at version) !! (name, k) = Some v /\ in_domain start end_ k = true)).
Proof.
  intros Hm Ht Hcov Hn Hz Hf. destruct (FixData_ok fuel s moved good names Hm Hz Hn Hf) as [Hdry (s' & r & E & Hm' & _ & Hd & _ & Hres)].
  split; [done|]. exists s', r. split; [done|]. split; [done|].
  split; [unfold GetLatestVersion; by rewrite !GetBytes_lookup, Hd|].
  destruct Hres as [[-> Hrep]|Herr]; [right|by left]. split; [done|]. intros st name version Hname Hv.
  assert (Hserves : serves st good).
  { split.
    - intros k t Hnn. exact (repaired_seen moved good (entries s') names k t Hm' Hcov Hrep Hnn).
    - intros k ts o Eo. cbn [st db SetSkipVersionZero] in Eo. apply (misplaced_ts _ _ _ _ _ _ Hm') in Eo. lia. }
  split.
  - intros key. unfold kv_Get. cbn [kv_store kv_name kv_version NewKVStore]. by rewrite (GetAtVersion_serves st good f lo h).
  - intros start end_ rev Hs He. apply (iteratorAtVersion_serves fuel st good f lo h); try done.
    cbn [st db SetSkipVersionZero]. pose proof (misplaced_size _ _ _ Hm'). lia.
Qed.
End repair.

(** ** Witness *)

Definition sample_good : history := mem_entries (db (versionStore sample_fss)).
Definition sample_moved : gset (bytes * bytes * Z) := {[ (str "acc", str "b", 1); (str "acc", str "c", 3) ]}.
Definition key_b : bytes := prependStoreKey (str "acc") (str "b").
Definition key_c : bytes := prependStoreKey (str "acc") (str "c").
Definition sample_bad : history :=
  <[(prependStoreKey (str "acc") (str "b" ++ le_u64 1), 0) := Some (str "2")]>
  (<[(prependStoreKey (str "acc") (str "c" ++ le_u64 3), 0) := Some (str "4")]>
  (delete (key_b, 1) (delete (key_c, 3) sample_good))).
Definition sample_wrong : VersionDB.Store (DB := memDB) := NewStore {| mem_default := ∅; mem_entries := sample_bad |}.

Lemma sample_good_b : sample_good !! (key_b, 1) = Some (Some (str "2")).
Proof. vm_compute. reflexivity. Qed.
Lemma sample_good_c : sample_good !! (key_c, 3) = Some (Some (str "4")).
Proof. vm_compute. reflexivity. Qed.
Lemma sample_good_ts k ts o : sample_good !! (k, ts) = Some o -> 0 < ts < 2 ^ 63.
Proof.
  assert (Hall : map_Forall (fun (x : bytes * Z) _ => 0 < x.2 < 2 ^ 63) sample_good) by (apply (bool_decide_unpack _); vm_compute; reflexivity).
  intros E. exact (Hall _ _ E).
Qed.

Lemma sample_misplaced : misplaced sample_moved sample_good sample_bad.
Proof.
  assert (Hin : forall name k t, (name, k, t) ∈ sample_moved <->
    (name, k, t) = (str "acc", str "b", 1) \/ (name, k, t) = (str "acc", str "c", 3)) by (unfold sample_moved; set_solver).
  split.
  - exact sample_good_ts.
  - intros name k t [[= -> -> ->]|[= -> -> ->]]%Hin; (split; [unfold slash_free; apply (bool_decide_unpack _); vm_compute; reflexivity|]).
    + exists (str "2"). split; [done|exact sample_good_b].
    + exists (str "4"). split; [done|exact sample_good_c].
  - intros key o. unfold sample_bad. split.
    + rewrite !lookup_insert_Some, !lookup_delete_Some.
      intros [[[= <-] <-]|(_ & [[[= <-] <-]|(_ & _ & _ & E)])]; [| |apply sample_good_ts in E; lia].
      * exists (str "acc"), (str "b"), 1. split; [apply Hin; by left|]. split; [done|exact sample_good_b].
      * exists (str "acc"), (str "c"), 3. split; [apply Hin; by right|]. split; [done|exact sample_good_c].
    + intros (name & k & t & [[= -> -> ->]|[= -> -> ->]]%Hin & -> & Hg).
      * rewrite lookup_insert_eq. rewrite <- Hg. symmetry. exact sample_good_b.
      * rewrite lookup_insert_ne, lookup_insert_eq by (intros [=]). rewrite <- Hg. symmetry. exact sample_good_c.
  - intros key t Ht. unfold sample_bad. rewrite !lookup_insert_ne by congruence.
    destruct (decide ((key, t) = (key_b, 1))) as [[= -> ->]|Hb]; [right|].
    + split; [by rewrite lookup_delete_eq|]. exists (str "acc"), (str "b"). split; [done|]. apply Hin. by left.
    + rewrite lookup_delete_ne by congruence. destruct (decide ((key, t) = (key_c, 3))) as [[= -> ->]|Hc]; [right|left].
      * split; [by rewrite lookup_delete_eq|]. exists (str "acc"), (str "c"). split; [done|]. apply Hin. by right.
      * by rewrite lookup_delete_ne by congruence.
Qed.

(** The value is found after the repair, and was not before. *)
Lemma fixdata_correct_witness :
  exists s', (FixData 20 [str "acc"] false sample_wrong).1 = s' /\
    kv_Get (NewKVStore (SetSkipVersionZero true s') (str "acc") (Some 2)) (str "b") = Ok (Some (str "2")) /\
    kv_Get (NewKVStore (SetSkipVersionZero true sample_wrong) (str "acc") (Some 2)) (str "b") = Ok None.
Proof.
  destruct (committed_tracks mem_empty sample_blocks sample_fss false sample_committed) as (lo & h & Ht & _); [discriminate|].
  destruct (fixdata_correct 20 sample_wrong sample_moved sample_good (state_at sample_blocks) lo h [str "acc"]) as (_ & s' & r & E & _ & _ & Hres).
  - exact sample_misplaced.
  - exact Ht.
  - unfold sample_moved. set_solver.
  - repeat constructor; unfold slash_free; apply (bool_decide_unpack _); vm_compute; reflexivity.
  - reflexivity.
  - apply Nat.ltb_lt. vm_compute. reflexivity.
  - exists s'. split; [by rewrite E|]. split; [|vm_compute; reflexivity].
    destruct Hres as [(e & batch & d & -> & Ew)|[-> Hres]]; [discriminate|].
    destruct (Hres (str "acc") (Some 2)) as [Hg _].
    + unfold slash_free. apply (bool_decide_unpack _). vm_compute. reflexivity.
    + cbn. unfold height_ok. lia.
    + rewrite Hg. vm_compute. reflexivity.
Defined.
