(* ===== verification/Restore.v ===== *)
(** * Restoring the version database from a snapshot (client/changeset/restore.go)

    The command [restore-versiondb] reads the items of a state-sync snapshot and imports
    them into the version database at the height of the snapshot.  It sends every node of a
    tree to the import, not only the leaves: an inner node has the key of a leaf and no
    value, and comes after that leaf. *)

From Stdlib Require Import Strings.Byte ZArith Lia.
From stdpp Require Import base gmap list numbers strings sorting.
From S2P Require Import Prelude Binary Proto State Node NodeInv Iterator SnapshotWriter Export Cache Tree Wal.
From S2P Require Import Merkle IavlStore MultiTree MultiTreeInv MultiTreeSnapshot MultiTreeProps DBProps.
From S2P Require Import StateSync StateSyncInv RootMulti RootMultiProps StateSyncProps Rocks VersionDB VersionDBInv.
Local Open Scope Z_scope.

(** ** The command *)

Section command.
Context {IO : Type} `{ProtoIO IO} {DB Iter : Type} `{RocksOps DB Iter}.

(** The loop of [readSnapshotEntries]; the state is what was sent to the channel.  The error
    for a node before the first store wraps a nil error, which is nil. *)
Fixpoint read_entries (fuel : nat) (protoReader : IO) (storeKey : bytes) : SE (list ImportEntry) unit :=
  match fuel with
  | O => lift out_of_fuel
  | S fuel =>
      match ReadMsg protoReader with
      | Err e => if bool_decide (e = EOF) then mret tt else throw "invalid protobuf message"
      | Panic => lift Panic
      | Ok (SnapshotStore name, protoReader) => read_entries fuel protoReader name
      | Ok (SnapshotIAVL item, protoReader) =>
          if bool_decide (storeKey = []) then mret tt
          else if 127 <? ii_Height item then throw "node height cannot exceed 127"
          else
            modify (fun ch => ch ++ [{| imp_StoreKey := storeKey; imp_Key := default [] (ii_Key item);
                                        imp_Value := default [] (ii_Value item) |}]) ;;
            read_entries fuel protoReader storeKey
      | Ok (SnapshotOther, _) => mret tt
      end
  end.

Definition readSnapshotEntries (fuel : nat) (protoReader : IO) : SE (list ImportEntry) unit :=
  read_entries fuel protoReader [].

(** The snapshot of the height is a stream of its items.  An error of the reader is logged,
    and what was read before is imported. *)
Definition RestoreVersionDB (fuel : nat) (height : Z) (streamReader : IO) : SE (VersionDB.Store (DB := DB)) unit :=
  match readSnapshotEntries fuel streamReader [] with
  | (_, Panic) => lift Panic
  | (ch, _) => Import height ch
  end.
End command.

(** ** The import *)

Definition entry_pair (e : ImportEntry) : StoreKVPair :=
  {| skv_StoreKey := imp_StoreKey e; skv_Delete := false; skv_Key := imp_Key e; skv_Value := imp_Value e |}.

Section import.
Context {DB Iter : Type} `{RocksLaws DB Iter}.
Implicit Types (s : VersionDB.Store (DB := DB)).

(** The batches together. *)
Lemma import_loop_ok ts ch batch n s s' batch' :
  import_loop ts ch batch n s = (s', Ok batch') ->
  foldl apply_op (db_entries (db s')) batch' =
    foldl apply_op (db_entries (db s)) (batch ++ (put_pair ts <$> map entry_pair ch)) /\
  skipVersionZero s' = skipVersionZero s.
Proof.
  revert batch n s. induction ch as [|e ch IH]; intros batch n s E; cbn [import_loop] in E.
  { injection E as <- <-. by rewrite app_nil_r. }
  set (op := PutCFWithTS _ _ _) in E.
  assert (Hop : put_pair ts <$> map entry_pair (e :: ch) = op :: (put_pair ts <$> map entry_pair ch)) by done.
  rewrite Hop. destruct (_ =? 0)%nat.
  - apply SE_bind_ok in E as (s1 & [] & E1%Write_ok & E2). destruct E1 as (_ & He & Hz).
    destruct (IH _ _ _ E2) as [IH1 IH2]. split; [|congruence]. rewrite IH1, He, <- foldl_app, <- app_assoc. done.
  - destruct (IH _ _ _ E) as [IH1 IH2]. split; [|done]. by rewrite IH1, <- app_assoc.
Qed.

Lemma import_loop_returns ts ch batch n s : (import_loop ts ch batch n s).2 <> Panic.
Proof.
  revert batch n s. induction ch as [|e ch IH]; intros batch n s; cbn [import_loop]; [done|].
  destruct (_ =? 0)%nat; [|apply IH]. unfold mbind, SE_bind.
  destruct (Write _ s) as [s1 [[]|err|]] eqn:E; [apply IH|done|]. unfold Write in E.
  by destruct (Write_atomic (batch ++ [PutCFWithTS (cloneAppend (storePrefix (imp_StoreKey e)) (imp_Key e)) ts (imp_Value e)]) (db s))
    as [(d & Ew & _)|(d & er & Ew & _)]; rewrite Ew in E.
Qed.

Lemma Import_ok h ch s s' :
  Import h ch s = (s', Ok tt) ->
  db_entries (db s') = foldl apply_op (db_entries (db s)) (put_pair (version_ts h) <$> map entry_pair ch) /\
  db_default (db s') !! latestVersionKey = Some (version_ts h) /\ skipVersionZero s' = skipVersionZero s.
Proof.
  unfold Import. intros (s1 & batch & E1 & (s2 & [] & E2 & E3)%SE_bind_ok)%SE_bind_ok.
  apply import_loop_ok in E1 as [He Hz]. apply Write_ok in E3 as (Hd & He3 & Hz3). cbn [foldl apply_op apply_default] in He3, Hd.
  assert (H2 : db_entries (db s2) = foldl apply_op (db_entries (db s1)) batch /\ skipVersionZero s2 = skipVersionZero s1).
  { destruct batch; [by injection E2 as <-|]. by apply Write_ok in E2 as (_ & He2 & Hz2). }
  destruct H2 as [He2 Hz2]. split; [by rewrite He3, He2, He|]. split; [by rewrite Hd, lookup_insert_eq|congruence].
Qed.

Lemma Import_returns h ch s : (Import h ch s).2 <> Panic.
Proof.
  assert (Hw : forall batch s, (Write batch s).2 <> Panic).
  { intros batch s0. unfold Write. by destruct (Write_atomic batch (db s0)) as [(d & -> & _)|(d & e & -> & _)]. }
  unfold Import, mbind, SE_bind at 1. pose proof (import_loop_returns (version_ts h) ch [] 0 s) as Hl.
  destruct (import_loop _ _ _ _ _) as [s1 [batch|e|]]; [|done|done]. unfold mbind, SE_bind.
  destruct batch as [|op batch]; [apply Hw|]. specialize (Hw (op :: batch) s1).
  destruct (Write _ s1) as [s2 [[]|e|]] eqn:E; [|done|done].
  unfold SetLatestVersion, Write. by destruct (Write_atomic [Put latestVersionKey (version_ts h)] (db s2)) as [(d & -> & _)|(d & e & -> & _)].
Qed.

(** An import into an empty database gives the last value of every key. *)
Lemma Import_tracks h ch s s' :
  db_entries (db s) = ∅ -> height_ok h -> Forall (fun e => slash_free (imp_StoreKey e)) ch ->
  Import h ch s = (s', Ok tt) ->
  tracks (db_entries (db s')) (fun v => if h <=? v then foldl apply_pair ∅ (map entry_pair ch) else ∅) h h /\
  GetLatestVersion s' = Ok h /\ skipVersionZero s' = skipVersionZero s.
Proof.
  intros Hd Hh Hn (He & Hl & Hz)%Import_ok. split; [|split; [by apply GetLatestVersion_at|done]]. rewrite He, Hd.
  apply (tracks_batch ∅ (fun _ => ∅) h h (map entry_pair ch) (empty_tracks h h)); [lia|done|].
  unfold pairs_ok. by apply Forall_map.
Qed.
End import.

(** ** The last entry of a key *)

Section last.
Context {K V : Type} `{EqDecision K}.
Implicit Types (l : list (K * V)).

Definition last_of (k : K) l : option V := foldl (fun acc p => if decide (p.1 = k) then Some p.2 else acc) None l.

Lemma last_of_app k l1 l2 : last_of k (l1 ++ l2) = match last_of k l2 with Some v => Some v | None => last_of k l1 end.
Proof.
  unfold last_of. rewrite foldl_app. generalize (foldl (fun acc p => if decide (p.1 = k) then Some p.2 else acc) None l1).
  induction l2 as [|p l2 IH] using rev_ind; intros o; [done|]. rewrite !foldl_app. cbn [foldl]. by case_decide.
Qed.

Lemma last_of_cons k p l : last_of k (p :: l) = match last_of k l with Some v => Some v | None => if decide (p.1 = k) then Some p.2 else None end.
Proof. apply (last_of_app k [p] l). Qed.

Lemma last_of_None k l : k ∉ l.*1 -> last_of k l = None.
Proof.
  induction l as [|p l IH]; intros Hk; [done|]. rewrite last_of_cons, IH by set_solver. by rewrite decide_False by set_solver.
Qed.
End last.

Definition entry_kv (e : ImportEntry) : (bytes * bytes) * bytes := ((imp_StoreKey e, imp_Key e), imp_Value e).

Lemma apply_entries st ch x :
  foldl apply_pair st (map entry_pair ch) !! x = match last_of x (map entry_kv ch) with Some v => Some v | None => st !! x end.
Proof.
  revert st. induction ch as [|e ch IH]; intros st; [done|]. cbn [map foldl]. rewrite IH, last_of_cons.
  destruct (last_of x (map entry_kv ch)); [done|]. cbn [apply_pair entry_pair skv_Delete skv_StoreKey skv_Key skv_Value entry_kv fst snd].
  case_decide as Hx; [by rewrite <- Hx, lookup_insert_eq|by rewrite lookup_insert_ne].
Qed.

(** ** The nodes of a tree in post-order *)

(** The keys of the inner nodes. *)
Fixpoint inner_keys (n : Node) : list bytes :=
  match n with
  | Leaf _ _ _ => []
  | Branch _ _ _ k l r => inner_keys l ++ inner_keys r ++ [k]
  end.

Definition node_kv (n : Node) : bytes * bytes := (Node.Key n, default [] (Node.Value n)).

Lemma inner_keys_elements n : fields_ok n -> forall k, k ∈ inner_keys n -> k ∈ (elements n).*1.
Proof.
  induction n as [|h s v k l IHl r IHr]; cbn [inner_keys elements fields_ok]; [set_solver|].
  intros (_ & _ & -> & Hl & Hr) k0. rewrite !elem_of_app, list_elem_of_singleton, fmap_app, elem_of_app.
  intros [?|[?| ->]]; [left; auto|right; auto|right; apply min_key_elem].
Qed.

(** An inner node comes after the leaf of its key, and blanks it. *)
Lemma post_order_last n k : wf n ->
  last_of k (map node_kv (post_order n)) =
  (v ← kv_lookup k (elements n); Some (if decide (k ∈ inner_keys n) then [] else v)).
Proof.
  induction n as [v0 k0 x|h s v0 k0 l IHl r IHr]; intros Hwf; cbn [post_order inner_keys elements map].
  { cbn. rewrite (decide_ext (k0 = k) (k = k0)) by done. by case_decide. }
  destruct (branch_split _ _ _ _ _ _ Hwf) as (Hk0 & Hlt & Hge & Hsl & Hsr). destruct (wf_children _ _ _ _ _ _ Hwf) as [Hwl Hwr].
  rewrite !map_app, last_of_app, last_of_app, (IHl Hwl), (IHr Hwr), kv_lookup_app. cbn [map].
  pose proof (inner_keys_elements l (wf_fields l Hwl) k) as Hil. pose proof (inner_keys_elements r (wf_fields r Hwr) k) as Hir.
  assert (Hlr : k ∈ (elements l).*1 -> k ∉ (elements r).*1).
  { intros H1 H2. apply Hlt in H1. apply Hge in H2. bytes_order. }
  assert (Hin : k ∈ inner_keys l ++ inner_keys r ++ [k0] <-> k ∈ inner_keys l \/ k ∈ inner_keys r \/ k = k0).
  { by rewrite !elem_of_app, list_elem_of_singleton. }
  assert (Hb : last_of k [node_kv (Branch h s v0 k0 l r)] = if decide (k0 = k) then Some [] else None) by done.
  rewrite Hb. clear Hb. destruct (decide (k0 = k)) as [<-|Hne].
  - destruct (kv_lookup k0 (elements l)) as [v|] eqn:El;
      [apply kv_lookup_elem, Hlt, bytes_lt_irrefl in El; done|].
    destruct (kv_lookup k0 (elements r)) as [v|] eqn:Er; [cbn [mbind option_bind]; by rewrite decide_True by tauto|].
    apply kv_lookup_None in Er. destruct Er. rewrite Hk0. apply min_key_elem.
  - assert (Hne' : k <> k0) by congruence.
    destruct (kv_lookup k (elements r)) as [v|] eqn:Er; cbn [mbind option_bind].
    + apply kv_lookup_elem in Er as Hr. destruct (kv_lookup k (elements l)) as [v'|] eqn:El; [by apply kv_lookup_elem, Hlr in El|].
      apply kv_lookup_None in El. cbn [mbind option_bind].
      destruct (decide (k ∈ inner_keys r)), (decide (k ∈ inner_keys l ++ _)); (done || tauto).
    + apply kv_lookup_None in Er. destruct (kv_lookup k (elements l)) as [v'|] eqn:El; [|done]. cbn [mbind option_bind].
      destruct (decide (k ∈ inner_keys l)), (decide (k ∈ inner_keys l ++ _)); (done || tauto).
Qed.

(** ** The entries of a snapshot *)

(** The entries sent for items, in the store of name [storeKey] at first. *)
Fixpoint item_entries (storeKey : bytes) (items : list export_item) : list ImportEntry :=
  match items with
  | [] => []
  | ITree name :: items => item_entries name items
  | INode n :: items =>
      {| imp_StoreKey := storeKey; imp_Key := en_Key n; imp_Value := default [] (en_Value n) |} :: item_entries storeKey items
  end.

(** Every node comes after the name of a store. *)
Fixpoint named (storeKey : bytes) (items : list export_item) : Prop :=
  match items with
  | [] => True
  | ITree name :: items => named name items
  | INode _ :: items => storeKey <> [] /\ named storeKey items
  end.

Lemma item_entries_nodes name ns items :
  item_entries name (map INode ns ++ items) =
  map (fun n => {| imp_StoreKey := name; imp_Key := en_Key n; imp_Value := default [] (en_Value n) |}) ns ++ item_entries name items.
Proof. induction ns as [|n ns IH]; [done|]. cbn. by rewrite IH. Qed.

Lemma named_nodes name ns items : name <> [] -> named name items -> named name (map INode ns ++ items).
Proof. intros Hn Hi. induction ns as [|n ns IH]; [done|]. cbn. done. Qed.

Section entries.
Context `{CacheLaws C} `{ProtoIOLaws IO}.
Implicit Types (e : NamedTree C) (l : list (NamedTree C)) (s : IO).

Definition store_entries e : list ImportEntry :=
  map (fun n => {| imp_StoreKey := nt_Name e; imp_Key := en_Key n; imp_Value := default [] (en_Value n) |})
    (export_list (root (nt_Tree e))).

Lemma item_entries_stores key l : item_entries key (export_items l) = concat (map store_entries l).
Proof.
  revert key. induction l as [|e l IH]; intros key; [done|]. unfold export_items in *. cbn [map concat]. unfold store_items at 1.
  cbn [app item_entries]. rewrite item_entries_nodes, IH. done.
Qed.

Lemma named_items key l : Forall (fun e => nt_Name e <> []) l -> named key (export_items l).
Proof.
  intros Hl. revert key. induction Hl as [|e l He Hl IH]; intros key; [done|]. unfold export_items in *. cbn [map concat].
  unfold store_items at 1. cbn. by apply named_nodes.
Qed.

Lemma read_entries_items fuel s items key ch :
  unread s = map item_msg items -> (length items < fuel)%nat -> Forall sent_item items ->
  Forall (fun x => within_limit (item_msg x)) items -> named key items ->
  read_entries fuel s key ch = (ch ++ item_entries key items, Ok tt).
Proof.
  revert fuel s key ch. induction items as [|x items IH]; intros [|fuel] s key ch Es Hf Hs Hl Hn; cbn [length] in Hf; try lia.
  - cbn [read_entries map] in *. rewrite (ReadMsg_end s Es), bool_decide_true by done. by rewrite app_nil_r.
  - apply Forall_cons in Hs as [Hx Hs]. apply Forall_cons in Hl as [Hlx Hl]. cbn [map] in Es.
    destruct (ReadMsg_next s _ _ Es Hlx) as (m' & s' & Er & Hm & Es'). cbn [read_entries]. rewrite Er.
    destruct x as [name|n]; destruct m' as [name'|i|]; try done.
    + cbn in Hm. subst name'. cbn [item_entries named] in *. apply IH; try done. lia.
    + destruct Hn as [Hk Hn]. destruct (item_node_same n i Hx Hm) as [Hh _]. rewrite bool_decide_false by done.
      rewrite (proj2 (Z.ltb_ge _ _)) by done. unfold modify, mbind, SE_bind. rewrite (IH fuel s' key); [|done|lia|done..].
      cbn [item_entries]. rewrite <- app_assoc. cbn [app]. destruct Hm as (Ek & Ev & _). cbn in Ek, Ev. by rewrite <- Ek, <- Ev.
Qed.

(** What the entries of a multi-tree leave for a key of a store. *)
Definition blanked (r : option Node) (k : bytes) : option bytes :=
  match r with
  | None => None
  | Some n => v ← kv_lookup k (elements n); Some (if decide (k ∈ inner_keys n) then [] else v)
  end.

Lemma store_entries_last e name k : wf_root (root (nt_Tree e)) ->
  last_of (name, k) (map entry_kv (store_entries e)) = if decide (nt_Name e = name) then blanked (root (nt_Tree e)) k else None.
Proof.
  intros Hwf. unfold store_entries. rewrite map_map.
  assert (Hl : forall ns, last_of (name, k) (map (fun n => entry_kv {| imp_StoreKey := nt_Name e; imp_Key := en_Key n;
      imp_Value := default [] (en_Value n) |}) (map export_node ns)) =
    if decide (nt_Name e = name) then last_of k (map node_kv ns) else None).
  { induction ns as [|n ns IH]; [by case_decide|]. cbn [map]. rewrite !last_of_cons, IH.
    cbn [entry_kv imp_StoreKey imp_Key imp_Value en_Key en_Value export_node node_kv fst snd].
    destruct (decide (nt_Name e = name)) as [<-|Hn]; [|by rewrite decide_False by congruence]. destruct (last_of k (map node_kv ns)); [done|].
    do 2 case_decide; congruence. }
  destruct (root (nt_Tree e)) as [n|]; cbn [export_list blanked]; [|by case_decide].
  rewrite Hl. case_decide; [|done]. by apply post_order_last.
Qed.

Lemma entries_last l name k : NoDup (map nt_Name l) -> Forall (fun e => wf_root (root (nt_Tree e))) l ->
  last_of (name, k) (map entry_kv (concat (map store_entries l))) =
  (tree ← (to_map l : gmap bytes (Tree C)) !! name; blanked (root tree) k).
Proof.
  induction l as [|e l IH]; intros Hd Hwf; [done|]. apply Forall_cons in Hwf as [He Hwf].
  cbn [map] in Hd. apply NoDup_cons in Hd as [Hin Hd]. cbn [map concat]. rewrite map_app, last_of_app, (IH Hd Hwf), (store_entries_last e name k He).
  rewrite to_map_cons. case_decide as Hn.
  - subst name. rewrite lookup_insert_eq. by rewrite (proj2 (to_map_None l (nt_Name e)) Hin).
  - rewrite lookup_insert_ne by done. by destruct (_ ≫= _).
Qed.
End entries.

(** ** The command after a snapshot *)

Section restored.
Context `{CacheLaws C} `{WalLaws L} `{Ics23Ops} `{PrefixEndOps} {FL : Type} `{ProtoIOLaws IO} {DB Iter : Type} `{RocksLaws DB Iter}.
Implicit Types (t : MultiTree C) (rs : RootMulti.Store C L FL) (s : IO) (d : DB).

(** A multi-tree whose trees are well-formed and whose stores have the names of store keys. *)
Definition named_stores t : Prop :=
  Forall (fun e => wf_root (root (nt_Tree e)) /\ nt_Name e <> [] /\ slash_free (nt_Name e)) (trees t).

Lemma restored_entries t s fuel :
  mt_writable t -> Forall sendable (trees t) -> named_stores t -> sendable_stream (IO := IO) t ->
  unread s = map item_msg (export_items (trees t)) -> (length (export_items (trees t)) < fuel)%nat ->
  readSnapshotEntries fuel s [] = (concat (map store_entries (trees t)), Ok tt).
Proof.
  intros Hw Hse Hn Hl Hu Hf. unfold readSnapshotEntries.
  rewrite (read_entries_items fuel s (export_items (trees t))); [by rewrite item_entries_stores|done|done|by apply export_items_sent|done|].
  apply named_items. eapply Forall_impl; [exact Hn|]. by intros e (_ & ? & _).
Qed.

(** [restore-versiondb] after the snapshot of a multi-tree.  All entries are imported, and
    the database then serves the stores of the multi-tree at its version and later: the keys
    are those of the stores, but the value of a key that is the key of an inner node is
    empty, as the nodes without a value are imported after the leaves. *)
Theorem restore_versiondb_blanks rs t acquire fl s fuel d :
  snapshotting rs t -> acquire (Version t) = Ok fl -> unread s = [] -> sendable_stream (IO := IO) t -> named_stores t ->
  (length (export_items (trees t)) < fuel)%nat -> db_entries d = ∅ ->
  exists rs' s', Snapshot acquire (Version t) s rs = (rs', Ok s') /\
    match RestoreVersionDB fuel (Version t) s' (NewStore d) with
    | (vs, Ok _) => GetLatestVersion vs = Ok (Version t) /\
        forall name tree key version, stores t !! name = Some tree -> version_ok version ->
          GetAtVersion vs name key version = Ok (if Version t <=? read_at version then blanked (root tree) key else None)
    | (_, Err _) => True
    | (_, Panic) => False
    end.
Proof.
  intros Hsn Hacq Hs Hl Hn Hf Hd. destruct (Snapshot_sends rs t acquire fl s Hsn Hacq) as (rs' & s' & E & Hu).
  exists rs', s'. split; [done|]. rewrite Hs in Hu. destruct (sn_source _ _ Hsn) as [Hw _ Hv _ Hse _].
  unfold RestoreVersionDB. rewrite (restored_entries t s' fuel Hw Hse Hn Hl Hu Hf).
  set (ch := concat _). pose proof (Import_returns (Version t) ch (NewStore d)) as Hret.
  destruct (Import _ _ _) as [vs [[]|e|]] eqn:Ei; [|done|done]. unfold MaxInt64 in Hv.
  assert (Hch : Forall (fun e => slash_free (imp_StoreKey e)) ch).
  { apply Forall_concat, Forall_map. eapply Forall_impl; [exact Hn|]. intros e (_ & _ & He). by apply Forall_map, Forall_true. }
  destruct (Import_tracks (Version t) ch (NewStore d) vs Hd ltac:(unfold height_ok; lia) Hch Ei) as (Ht & Hlv & Hz).
  split; [done|]. intros name tree key version Hname Hver.
  assert (Hnm : slash_free name).
  { apply to_map_lookup in Hname as (i & e & He & <- & _); [|apply mo_names, Hw].
    by apply (Forall_lookup_1 _ _ _ _ Hn) in He as (_ & _ & ?). }
  rewrite (GetAtVersion_tracks vs _ _ _ name key version Ht) by (done || lia || (rewrite Hz; done)).
  destruct (_ <=? _); [|done]. f_equal. unfold ch. rewrite apply_entries, entries_last.
  - unfold stores in Hname. rewrite Hname. cbn [mbind option_bind]. by destruct (blanked _ _).
  - apply mo_names, Hw.
  - eapply Forall_impl; [exact Hn|]. by intros e (? & _).
Qed.
End restored.

(** ** Witness *)

Definition named_storeb {C} (e : NamedTree C) : bool :=
  match root (nt_Tree e) with None => true | Some n => wfb n end &&
  bool_decide (nt_Name e <> []) && bool_decide (x2f ∉ nt_Name e).

Lemma sample_named : named_stores sample_mt.
Proof.
  assert (Hb : forallb named_storeb (trees sample_mt) = true) by (vm_compute; reflexivity).
  apply Is_true_true, forallb_True in Hb. eapply Forall_impl; [exact Hb|]. intros e He%Is_true_true.
  unfold named_storeb in He. apply andb_true_iff in He as [[Hr Hn]%andb_true_iff Hs].
  apply bool_decide_eq_true_1 in Hn, Hs. split; [|by split].
  destruct (root (nt_Tree e)); [by apply wfb_sound|done].
Qed.

(** The root node of a store of the sample. *)
Definition sample_root (name : string) : option Node := stores sample_mt !! str name ≫= root.

(** A key of the sample whose value is lost. *)
Lemma restore_versiondb_blanks_witness :
  (sample_root "bank" ≫= fun n => kv_lookup (str "c") (elements n)) = Some (str "3") /\
  exists rs' s', Snapshot (fun _ => Ok tt) 5 [] sample_provider = (rs', Ok s') /\
    GetAtVersion (RestoreVersionDB 100 5 s' (NewStore mem_empty)).1 (str "bank") (str "c") (Some 5) = Ok (Some []).
Proof.
  split; [vm_compute; reflexivity|].
  destruct (restore_versiondb_blanks (IO := list SnapshotItem) sample_provider sample_mt (fun _ => Ok tt) tt [] 100 mem_empty
    sample_snapshotting) as (rs' & s' & E & Hres).
  - reflexivity.
  - reflexivity.
  - apply Forall_true. done.
  - exact sample_named.
  - apply Nat.ltb_lt. vm_compute. reflexivity.
  - reflexivity.
  - rewrite (proj1 sample_mt_version) in E, Hres. exists rs', s'. split; [exact E|].
    assert (Hok : match Snapshot (fun _ => Ok tt) 5 [] sample_provider with
      | (_, Ok s) => match RestoreVersionDB 100 5 s (NewStore mem_empty) with (_, Ok _) => true | _ => false end
      | _ => false end = true) by (vm_compute; reflexivity).
    rewrite E in Hok. destruct (RestoreVersionDB 100 5 s' (NewStore mem_empty)) as [vs [[]|e|]]; [|discriminate Hok..].
    destruct Hres as [_ Hres]. destruct (stores sample_mt !! str "bank") as [tree|] eqn:Et.
    + cbn [fst]. rewrite (Hres (str "bank") tree (str "c") (Some 5) Et) by (split; reflexivity || discriminate). cbn [read_at].
      assert (Hb : (stores sample_mt !! str "bank" ≫= fun tree => blanked (root tree) (str "c")) = Some []) by (vm_compute; reflexivity).
      rewrite Et in Hb. rewrite (proj2 (Z.leb_le 5 5)) by lia. f_equal. exact Hb.
    + assert (Hb : bool_decide (is_Some (stores sample_mt !! str "bank")) = true) by (vm_compute; reflexivity).
      rewrite Et in Hb. discriminate Hb.
Defined.
