(* ===== verification/ChangeSetFile.v ===== *)
(** * Change set files (client/changeset/changeset.go)

    A file is a sequence of versions, each with a header of sixteen bytes (version and size
    of the payload) and the pairs of its change set.  A reader is the bytes it has left.
    The pairs of [iavl.ChangeSet] have the fields of [KVPair]. *)

From Stdlib Require Import Strings.Byte ZArith Lia.
From stdpp Require Import base list numbers strings.
From S2P Require Import Prelude Binary Codec Proto State.
Local Open Scope Z_scope.

(** [bits.Len64] *)
Definition Len64 (x : Z) : Z := if x =? 0 then 0 else Z.log2 x + 1.

Definition uvarintSize (num : Z) : Z :=
  let b := Len64 num in
  let size := Z.quot b 7 in
  if (0 <? Z.rem b 7) || (size =? 0) then size + 1 else size.

Definition value_of (p : KVPair) : bytes := default [] (kv_Value p).

Definition encodedSizeOfKVPair (pair : KVPair) : Z :=
  let keyLen := zlen (kv_Key pair) in
  let size := 1 + uvarintSize keyLen + keyLen in
  if kv_Delete pair then size
  else size + uvarintSize (zlen (value_of pair)) + zlen (value_of pair).

(** [binary.PutUvarint(buf[off:], x)] writes the whole varint or panics. *)
Definition put_uvarint_at (buf : bytes) (off x : Z) : res (bytes * Z) :=
  let bz := PutUvarint x in
  if zlen buf <? off + zlen bz then Panic
  else buf ← copy_at buf off bz; Ok (buf, zlen bz).

Definition encodeKVPair (pair : KVPair) : res bytes :=
  let buf := replicate (Z.to_nat (encodedSizeOfKVPair pair)) x00 in
  let offset := 1 in
  let keyLen := zlen (kv_Key pair) in
  '(buf, n) ← put_uvarint_at buf offset keyLen;
  let offset := offset + n in
  buf ← copy_at buf offset (kv_Key pair);
  if kv_Delete pair then set_byte buf 0 x01
  else
    let offset := offset + keyLen in
    '(buf, n) ← put_uvarint_at buf offset (zlen (value_of pair));
    let offset := offset + n in
    copy_at buf offset (value_of pair).

Fixpoint encode_pairs (pairs : list KVPair) : res (list bytes) :=
  match pairs with
  | [] => Ok []
  | p :: pairs => buf ← encodeKVPair p; items ← encode_pairs pairs; Ok (buf :: items)
  end.

(** The bytes written for a version. *)
Definition WriteChangeSet (version : Z) (cs : ChangeSet) : res bytes :=
  items ← encode_pairs (Pairs cs);
  let size := foldl (fun size buf => size + zlen buf) 0 items in
  Ok (le_u64 (u64 version) ++ le_u64 (u64 size) ++ concat items).

Definition readKVPair (reader : bytes) : res (KVPair * bytes) :=
  '(deletion, reader) ← ReadByte reader;
  '(keyLen, reader) ← ReadUvarint reader;
  _ ← make_bytes keyLen;
  '(key, reader) ← ReadFull keyLen reader;
  if bool_decide (deletion = x01)
  then Ok ({| kv_Delete := true; kv_Key := key; kv_Value := None |}, reader)
  else
    '(valueLen, reader) ← ReadUvarint reader;
    _ ← make_bytes valueLen;
    '(value, reader) ← ReadFull valueLen reader;
    Ok ({| kv_Delete := false; kv_Key := key; kv_Value := Some value |}, reader).

(** The loop over the payload; a pair takes at least two bytes. *)
Fixpoint read_pairs (fuel : nat) (size offset : Z) (pairs : list KVPair) (reader : bytes)
    : res (Z * list KVPair * bytes) :=
  if offset <? size then
    match fuel with
    | O => out_of_fuel
    | S fuel =>
        '(p, reader) ← readKVPair reader;
        read_pairs fuel size (i64 (offset + encodedSizeOfKVPair p)) (pairs ++ [p]) reader
    end
  else Ok (offset, pairs, reader).

(** [io.CopyN(io.Discard, reader, n)] *)
Definition discard (n : Z) (reader : bytes) : res bytes :=
  if n <=? 0 then Ok reader
  else if zlen reader <? n then Err EOF else Ok (drop (Z.to_nat n) reader).

Definition ErrBeyondPayload : error := "read beyond payload size limit".

(** The version, the number of bytes read, the change set, and the rest of the reader. *)
Definition ReadChangeSet (reader : bytes) (parseChangeset : bool) : res (Z * Z * ChangeSet * bytes) :=
  '(versionHeader, reader) ← ReadFull 16 reader;
  let version := le_get (take 8 versionHeader) in
  let size := i64 (le_get (drop 8 versionHeader)) in
  if size =? 0 then Ok (i64 version, 16, {| Pairs := [] |}, reader)
  else if parseChangeset then
    '(offset, pairs, rest) ← read_pairs (S (length reader)) size 0 [] reader;
    if negb (offset =? size) then Err ErrBeyondPayload
    else Ok (i64 version, i64 (size + 16), {| Pairs := pairs |}, rest)
  else
    reader ← discard size reader;
    Ok (i64 version, i64 (size + 16), {| Pairs := [] |}, reader).

(** ** Iteration *)

(** The end of the file is not an error. *)
Definition eof_nil (e : error) : option error := if bool_decide (e = EOF) then None else Some e.

Section iterate.
  Context {St : Type}.
  (** The callback: whether to continue. *)
  Variable fn : Z -> ChangeSet -> SE St bool.

(** The state of the callback, the offset after the last complete version, and the error.
    A version takes at least sixteen bytes. *)
Fixpoint iterate_loop (parse : bool) (fuel : nat) (reader : bytes) (last : Z) (st : St) : res (St * Z * option error) :=
  match fuel with
  | O => out_of_fuel
  | S fuel =>
      match ReadChangeSet reader parse with
      | Panic => Panic
      | Err e => Ok (st, last, eof_nil e)
      | Ok (version, offset, changeSet, reader) =>
          match fn version changeSet st with
          | (_, Panic) => Panic
          | (st, Err e) => Ok (st, last, eof_nil e)
          | (st, Ok cont) =>
              let last := i64 (last + offset) in
              if cont : bool then iterate_loop parse fuel reader last st else Ok (st, last, None)
          end
      end
  end.
End iterate.

Definition IterateChangeSets {St} (fn : Z -> ChangeSet -> SE St bool) (reader : bytes) (st : St)
    : res (St * Z * option error) :=
  iterate_loop fn true (S (length reader)) reader 0 st.

Definition IterateVersions {St} (fn : Z -> SE St bool) (reader : bytes) (st : St) : res (St * Z * option error) :=
  iterate_loop (fun version _ => fn version) false (S (length reader)) reader 0 st.

(** The version of the first header of the file. *)
Definition ReadFirstVersion (reader : bytes) : res Z :=
  '(versionBuf, _) ← ReadFull 8 reader;
  Ok (le_get versionBuf).
