(* ===== verification/ChangeSetFileInv.v ===== *)
(** * Correctness of change set files

    The bytes the writer produces, their decoding, and iteration over files, complete or cut
    off inside of a version. *)

From Stdlib Require Import Strings.Byte ZArith Lia.
From stdpp Require Import base list numbers strings.
From S2P Require Import Prelude Binary Proto ProtoInv State Codec ChangeSetFile.
Local Open Scope Z_scope.

(** ** Sizes *)

Lemma uvarintSize_sov x : 0 <= x < 2 ^ 64 -> uvarintSize x = sov x.
Proof.
  intros Hx. unfold uvarintSize, sov, Len64. destruct (Z.eqb_spec x 0) as [->|Hn]; [done|].
  assert (E : Z.log2 (Z.lor x 1) = Z.log2 x).
  { rewrite Z.log2_lor by lia. change (Z.log2 1) with 0. pose proof (Z.log2_nonneg x). lia. }
  rewrite E. set (b := Z.log2 x + 1). pose proof (Z.log2_nonneg x).
  rewrite Z.quot_div_nonneg, Z.rem_mod_nonneg by lia.
  pose proof (Z.div_mod b 7 ltac:(lia)). pose proof (Z.mod_pos_bound b 7 ltac:(lia)).
  destruct (Z.ltb_spec 0 (b mod 7)); cbn [orb].
  - apply (Z.div_unique (b + 6) 7 _ (b mod 7 - 1)); lia.
  - destruct (Z.eqb_spec (b / 7) 0); [lia|]. apply (Z.div_unique (b + 6) 7 _ 6); lia.
Qed.

Lemma uvarintSize_len x : 0 <= x < 2 ^ 64 -> uvarintSize x = zlen (PutUvarint x).
Proof. intros Hx. by rewrite uvarintSize_sov, zlen_PutUvarint_sov. Qed.

(** ** The bytes of a pair *)

Definition pair_bytes (p : KVPair) : bytes :=
  [if kv_Delete p then x01 else x00] ++ PutUvarint (zlen (kv_Key p)) ++ kv_Key p ++
  if kv_Delete p then [] else PutUvarint (zlen (value_of p)) ++ value_of p.

(** What can be allocated when reading. *)
Record pair_ok (p : KVPair) : Prop := {
  pk_key : zlen (kv_Key p) <= maxAlloc;
  pk_value : zlen (value_of p) <= maxAlloc
}.

#[local] Hint Resolve pk_key pk_value : codec.

Lemma encodedSize_len p : pair_ok p -> encodedSizeOfKVPair p = zlen (pair_bytes p).
Proof.
  intros Hp. unfold encodedSizeOfKVPair, pair_bytes. rewrite !zlen_app.
  rewrite (uvarintSize_len (zlen (kv_Key p))) by auto with codec.
  destruct (kv_Delete p); [unfold zlen; simpl; lia|].
  rewrite uvarintSize_len, zlen_app by auto with codec. unfold zlen; simpl; lia.
Qed.

Lemma copy_at_app pre mid post bz :
  length mid = length bz -> copy_at (pre ++ mid ++ post) (zlen pre) bz = Ok (pre ++ bz ++ post).
Proof.
  intros Hl. unfold copy_at. pose proof (zlen_nonneg pre). rewrite zlen_app. pose proof (zlen_nonneg (mid ++ post)).
  rewrite !(proj2 (Z.ltb_ge _ _)) by lia. cbn [orb]. unfold zlen. rewrite Nat2Z.id, !length_app, Hl.
  replace (length bz `min` _)%nat with (length bz) by lia.
  by rewrite take_app_length, firstn_all, <- Hl, drop_app_add, drop_app_length.
Qed.

Lemma put_uvarint_at_app pre mid post x :
  length mid = length (PutUvarint x) ->
  put_uvarint_at (pre ++ mid ++ post) (zlen pre) x = Ok (pre ++ PutUvarint x ++ post, zlen (PutUvarint x)).
Proof.
  intros Hl. unfold put_uvarint_at. rewrite (proj2 (Z.ltb_ge _ _)), copy_at_app by (unfold zlen in *; rewrite ?length_app; lia).
  done.
Qed.

Lemma encodeKVPair_bytes p : pair_ok p -> encodeKVPair p = Ok (pair_bytes p).
Proof.
  intros Hp. unfold encodeKVPair. rewrite encodedSize_len by done.
  replace (Z.to_nat (zlen (pair_bytes p))) with (length (pair_bytes p)) by (unfold zlen; lia).
  unfold pair_bytes at 1. rewrite !length_app, !replicate_add. cbn [length replicate].
  set (kl := PutUvarint (zlen (kv_Key p))). set (r1 := replicate (length kl) x00). set (r2 := replicate (length (kv_Key p)) x00).
  set (r3 := replicate _ x00).
  change 1 with (zlen [x00]) at 1. rewrite put_uvarint_at_app by apply length_replicate. cbn [mbind res_bind].
  fold kl. replace (1 + zlen kl) with (zlen ([x00] ++ kl)) by (rewrite zlen_app; done).
  rewrite (app_assoc [x00]), copy_at_app by apply length_replicate. cbn [mbind res_bind].
  destruct (kv_Delete p) eqn:Ed.
  - subst r3. cbn [length replicate]. unfold pair_bytes. rewrite Ed, !app_nil_r. cbn [app].
    apply (set_byte_app [] x00).
  - replace (zlen ([x00] ++ kl) + zlen (kv_Key p)) with (zlen (([x00] ++ kl) ++ kv_Key p)) by (by rewrite (zlen_app ([x00] ++ kl))).
    subst r3. rewrite length_app, replicate_add, (app_assoc ([x00] ++ kl)).
    rewrite put_uvarint_at_app by apply length_replicate. cbn [mbind res_bind].
    rewrite (app_assoc (([x00] ++ kl) ++ _)), <- !zlen_app.
        rewrite <- (app_nil_r (replicate (length (value_of p)) x00)), copy_at_app by apply length_replicate.
    unfold pair_bytes. rewrite Ed, app_nil_r, <- !app_assoc. done.
Qed.

(** ** Reading *)

(** A pair is read back with its value present exactly when it is not a deletion. *)
Definition read_back (p : KVPair) : KVPair :=
  {| kv_Delete := kv_Delete p; kv_Key := kv_Key p;
     kv_Value := if kv_Delete p then None else Some (value_of p) |}.

Lemma read_back_size p : encodedSizeOfKVPair (read_back p) = encodedSizeOfKVPair p.
Proof. unfold encodedSizeOfKVPair, read_back, value_of. cbn [kv_Delete kv_Key kv_Value]. by destruct (kv_Delete p). Qed.

Lemma decodes_readKVPair p : pair_ok p -> decodes readKVPair (pair_bytes p) (read_back p).
Proof.
  intros Hp. unfold readKVPair, pair_bytes, read_back. eapply decodes_bind; [apply decodes_ReadByte|].
  eapply decodes_bind; [auto with codec|]. eapply decodes_guard; [auto with codec|].
  eapply decodes_bind; [auto with codec|]. destruct (kv_Delete p); [apply decodes_ret|].
  eapply decodes_bind; [auto with codec|]. eapply decodes_guard; [auto with codec|].
  apply (decodes_fmap _ (fun v => {| kv_Delete := false; kv_Key := kv_Key p; kv_Value := Some v |})). auto with codec.
Qed.

Definition payload (cs : ChangeSet) : bytes := concat (map pair_bytes (Pairs cs)).
Definition version_bytes (v : Z) (cs : ChangeSet) : bytes := le_u64 (u64 v) ++ le_u64 (zlen (payload cs)) ++ payload cs.

Record version_ok (v : Z) (cs : ChangeSet) : Prop := {
  vo_version : - 2 ^ 63 <= v < 2 ^ 63;
  vo_pairs : Forall pair_ok (Pairs cs);
  vo_size : zlen (version_bytes v cs) < 2 ^ 63
}.

Lemma encode_pairs_bytes l : Forall pair_ok l -> encode_pairs l = Ok (map pair_bytes l).
Proof.
  induction 1 as [|p l Hp _ IH]; [done|]. cbn [encode_pairs map]. by rewrite encodeKVPair_bytes, IH.
Qed.

Lemma foldl_size (l : list bytes) n : foldl (fun size buf => size + zlen buf) n l = n + zlen (concat l).
Proof.
  revert n. induction l as [|x l IH]; intros n; cbn [foldl concat]; [unfold zlen; simpl; lia|].
  rewrite IH, zlen_app. lia.
Qed.

Lemma payload_range v cs : version_ok v cs -> 0 <= zlen (payload cs) < 2 ^ 63 - 16.
Proof.
  intros [_ _ Hs]. unfold version_bytes in Hs. rewrite !zlen_app, !zlen_le_u64 in Hs.
  pose proof (zlen_nonneg (payload cs)). lia.
Qed.

Lemma WriteChangeSet_bytes v cs : version_ok v cs -> WriteChangeSet v cs = Ok (version_bytes v cs).
Proof.
  intros Hv. pose proof (payload_range v cs Hv). destruct Hv as [_ Hp _].
  unfold WriteChangeSet. rewrite encode_pairs_bytes by done. cbn [mbind res_bind].
  rewrite foldl_size. fold (payload cs). rewrite Z.add_0_l, (u64_small (zlen (payload cs))) by lia. done.
Qed.

Lemma pair_bytes_length p : (2 <= length (pair_bytes p))%nat.
Proof.
  unfold pair_bytes. rewrite !length_app. cbn [length].
  pose proof (PutUvarint_nonempty (zlen (kv_Key p))). destruct (PutUvarint (zlen (kv_Key p))); [done|]. simpl. lia.
Qed.

(** The loop over the payload, on a stream that may end inside of it. *)
Lemma read_pairs_app l fuel off acc rest :
  Forall pair_ok l -> (length l <= fuel)%nat -> 0 <= off -> off + zlen (concat (map pair_bytes l)) < 2 ^ 63 ->
  read_pairs fuel (off + zlen (concat (map pair_bytes l))) off acc (concat (map pair_bytes l) ++ rest) =
  Ok (off + zlen (concat (map pair_bytes l)), acc ++ map read_back l, rest).
Proof.
  intros Hl. revert fuel off acc. induction Hl as [|p l Hp Hl IH]; intros fuel off acc Hf Ho Hb.
  - cbn [map concat app]. change (zlen []) with 0. rewrite Z.add_0_r, app_nil_r.
    destruct fuel; cbn [read_pairs]; by rewrite (proj2 (Z.ltb_ge off off)) by lia.
  - destruct fuel as [|fuel]; [simpl in Hf; lia|]. cbn [map concat] in *. rewrite zlen_app in *.
    pose proof (pair_bytes_length p). pose proof (zlen_nonneg (concat (map pair_bytes l))).
    assert (2 <= zlen (pair_bytes p)) by (unfold zlen; lia).
    cbn [read_pairs]. rewrite (proj2 (Z.ltb_lt _ _)) by lia.
    rewrite <- app_assoc, (dec_app _ _ _ (decodes_readKVPair p Hp)). cbn [mbind res_bind].
    rewrite read_back_size, encodedSize_len, i64_small by (done || lia).
    rewrite Z.add_assoc, IH by (simpl in Hf; lia). by rewrite <- app_assoc.
Qed.

Lemma read_pairs_cut l fuel size off acc r s :
  Forall pair_ok l -> concat (map pair_bytes l) = r ++ s -> s <> [] -> (length r < fuel)%nat ->
  0 <= off -> size = off + zlen (concat (map pair_bytes l)) -> size < 2 ^ 63 -> fails (read_pairs fuel size off acc r).
Proof.
  intros Hl. revert fuel off acc r. induction Hl as [|p l Hp Hl IH]; intros fuel off acc r E Hs Hf Ho -> Hb.
  { apply eq_sym, app_eq_nil in E as [_ ->]. done. }
  destruct fuel as [|fuel]; [lia|]. cbn [map concat] in *. rewrite zlen_app in *.
  pose proof (pair_bytes_length p). pose proof (zlen_nonneg (concat (map pair_bytes l))).
  assert (2 <= zlen (pair_bytes p)) by (unfold zlen; lia).
  cbn [read_pairs]. rewrite (proj2 (Z.ltb_lt _ _)) by lia.
  apply app_cut in E as [(s' & E & Hs')|(r' & -> & E)].
  - destruct (dec_cut _ _ _ (decodes_readKVPair p Hp) r s' E Hs') as [e Ee]. exists e. by rewrite Ee.
  - rewrite (dec_app _ _ _ (decodes_readKVPair p Hp)). cbn [mbind res_bind].
    rewrite read_back_size, encodedSize_len, i64_small by (done || lia).
    apply IH; [done|done| |lia|lia|lia]. rewrite length_app in Hf. lia.
Qed.

Lemma payload_count l : (length l <= length (concat (map pair_bytes l)))%nat.
Proof.
  induction l as [|p l IH]; [done|]. cbn [map concat length]. rewrite length_app. pose proof (pair_bytes_length p). lia.
Qed.

Lemma decodes_discard bz : decodes (fun r => r ← discard (zlen bz) r; Ok (tt, r)) bz tt.
Proof.
  split.
  - intros rest. unfold discard. destruct (Z.leb_spec (zlen bz) 0) as [Hz|Hz].
    + destruct bz; [done|]. rewrite zlen_cons in Hz. pose proof (zlen_nonneg bz). lia.
    + rewrite zlen_app. pose proof (zlen_nonneg rest). rewrite (proj2 (Z.ltb_ge _ _)) by lia. cbn [mbind res_bind].
      unfold zlen. by rewrite Nat2Z.id, drop_app_length.
  - intros r s -> Hs. unfold discard. rewrite zlen_app.
    assert (0 < zlen s) by (destruct s; [done|rewrite zlen_cons; pose proof (zlen_nonneg s); lia]).
    pose proof (zlen_nonneg r). rewrite (proj2 (Z.leb_gt _ _)), (proj2 (Z.ltb_lt _ _)) by lia. by exists EOF.
Qed.

(** What is read of a version: the change set only when it is parsed. *)
Definition read_version (parse : bool) (v : Z) (cs : ChangeSet) : Z * Z * ChangeSet :=
  (v, zlen (version_bytes v cs), {| Pairs := if parse then map read_back (Pairs cs) else [] |}).

(** The part of the reader after the header. *)
Definition read_payload (parse : bool) (v size : Z) (reader : bytes) : res (Z * Z * ChangeSet * bytes) :=
  if size =? 0 then Ok (v, 16, {| Pairs := [] |}, reader)
  else if parse then
    '(offset, pairs, rest) ← read_pairs (S (length reader)) size 0 [] reader;
    if negb (offset =? size) then Err ErrBeyondPayload else Ok (v, i64 (size + 16), {| Pairs := pairs |}, rest)
  else
    reader ← discard size reader; Ok (v, i64 (size + 16), {| Pairs := [] |}, reader).

Lemma decodes_payload parse v cs :
  version_ok v cs -> decodes (read_payload parse v (zlen (payload cs))) (payload cs) (read_version parse v cs).
Proof.
  intros Hv. pose proof (payload_range v cs Hv) as Hr. destruct Hv as [_ Hp _]. unfold read_payload, read_version.
  assert (Hvl : zlen (version_bytes v cs) = zlen (payload cs) + 16).
  { unfold version_bytes. rewrite !zlen_app, !zlen_le_u64. lia. }
  rewrite Hvl. destruct (Z.eqb_spec (zlen (payload cs)) 0) as [Hz|Hz].
  - assert (Hnil : payload cs = []) by (destruct (payload cs); [done|rewrite zlen_cons in Hz; pose proof (zlen_nonneg l); lia]).
    assert (Hpairs : Pairs cs = []).
    { pose proof (payload_count (Pairs cs)) as Hc. fold (payload cs) in Hc. rewrite Hnil in Hc.
      destruct (Pairs cs); [done|simpl in Hc; lia]. }
    rewrite Hnil, Hpairs. change (zlen [] + 16) with 16. destruct parse; apply (decodes_ret (v, 16, {| Pairs := [] |})).
  - rewrite i64_small by lia. destruct parse.
    + unfold payload in *. split.
      * intros rest. pose proof (read_pairs_app (Pairs cs) (S (length (concat (map pair_bytes (Pairs cs)) ++ rest))) 0 [] rest Hp) as E.
        rewrite Z.add_0_l in E. rewrite E; [|pose proof (payload_count (Pairs cs)); rewrite length_app; lia|lia|lia].
        cbn [mbind res_bind app]. by rewrite Z.eqb_refl.
      * intros r s E Hs. destruct (read_pairs_cut (Pairs cs) (S (length r)) (zlen (concat (map pair_bytes (Pairs cs)))) 0 [] r s Hp E Hs)
          as [e Ee]; [lia|lia|lia|lia|]. exists e. by rewrite Ee.
    + pose proof (decodes_fmap _ (fun _ : unit => (v, zlen (payload cs) + 16, {| Pairs := [] |})) _ _
        (decodes_discard (payload cs))) as Hd. revert Hd. apply decodes_ext. intros r. by destruct (discard _ r).
Qed.

Lemma decodes_ReadChangeSet parse v cs :
  version_ok v cs -> decodes (fun r => ReadChangeSet r parse) (version_bytes v cs) (read_version parse v cs).
Proof.
  intros Hv. pose proof (payload_range v cs Hv) as Hr. unfold version_bytes at 1. rewrite app_assoc.
  set (header := le_u64 (u64 v) ++ le_u64 (zlen (payload cs))).
  assert (Hl : zlen header = 16) by (subst header; by rewrite zlen_app, !zlen_le_u64).
  apply (decodes_bind (ReadFull 16) (fun h r => read_payload parse (i64 (le_get (take 8 h))) (i64 (le_get (drop 8 h))) r) _ _ header).
  { rewrite <- Hl. apply decodes_ReadFull. }
  subst header. change 8%nat with (length (le_u64 (u64 v))) at 1 2. rewrite take_app_length, drop_app_length.
  rewrite !le_get_u64 by (apply u64_range || lia). rewrite (i64_small (zlen _)) by lia.
  replace (i64 (u64 v)) with v; [by apply decodes_payload|].
  destruct Hv as [Hver _ _]. unfold i64, u64. rewrite Z.add_mod_idemp_l by lia. symmetry. apply i64_small. lia.
Qed.

(** ** Files *)

Definition file_bytes (vs : list (Z * ChangeSet)) : bytes := concat (map (fun '(v, cs) => version_bytes v cs) vs).
Definition file_ok (vs : list (Z * ChangeSet)) : Prop := Forall (fun '(v, cs) => version_ok v cs) vs.

(** Writing the versions one after the other. *)
Fixpoint write_file (vs : list (Z * ChangeSet)) : res bytes :=
  match vs with
  | [] => Ok []
  | (v, cs) :: vs => bz ← WriteChangeSet v cs; rest ← write_file vs; Ok (bz ++ rest)
  end.

Lemma write_file_bytes vs : file_ok vs -> write_file vs = Ok (file_bytes vs).
Proof.
  induction 1 as [|[v cs] vs Hv _ IH]; [done|]. cbn [write_file]. by rewrite WriteChangeSet_bytes, IH.
Qed.

(** The end of a file: nothing, or a version that is cut off. *)
Definition cut_off (tail : bytes) : Prop :=
  exists v cs rest, version_ok v cs /\ version_bytes v cs = tail ++ rest /\ rest <> [].

Section visit.
  Context {St : Type} (fn : Z -> ChangeSet -> SE St bool).

(** The calls of the callback on a list of versions with their sizes, and the error at the
    end of the list. *)
Fixpoint visit_versions (end_ : option error) (vs : list (Z * Z * ChangeSet)) (last : Z) (st : St)
    : res (St * Z * option error) :=
  match vs with
  | [] => Ok (st, last, end_)
  | (version, size, changeSet) :: vs =>
      match fn version changeSet st with
      | (_, Panic) => Panic
      | (st, Err e) => Ok (st, last, eof_nil e)
      | (st, Ok cont) => if cont : bool then visit_versions end_ vs (last + size) st else Ok (st, last + size, None)
      end
  end.

Lemma iterate_loop_visit parse vs tail fuel last st :
  file_ok vs -> cut_off tail -> (length (file_bytes vs ++ tail) < fuel)%nat ->
  0 <= last -> last + zlen (file_bytes vs) < 2 ^ 63 ->
  exists end_, iterate_loop fn parse fuel (file_bytes vs ++ tail) last st =
    visit_versions end_ (map (fun '(v, cs) => read_version parse v cs) vs) last st /\ (tail = [] -> end_ = None).
Proof.
  intros Hvs Htail. revert fuel last st. induction Hvs as [|[v cs] vs Hv Hvs IH]; intros fuel last st Hf Hl Hb.
  - destruct fuel as [|fuel]; [simpl in Hf; lia|]. cbn [file_bytes map concat app iterate_loop visit_versions].
    destruct Htail as (v & cs & rest & Hv & E & Hr).
    destruct (dec_cut _ _ _ (decodes_ReadChangeSet parse v cs Hv) tail rest E Hr) as [e Ee].
    exists (eof_nil e). rewrite Ee. split; [done|]. intros ->. by injection Ee as <-.
  - destruct fuel as [|fuel]; [lia|]. unfold file_bytes in *. cbn [map concat] in *. rewrite zlen_app in Hb.
    rewrite <- app_assoc in *. cbn [iterate_loop]. rewrite (dec_app _ _ _ (decodes_ReadChangeSet parse v cs Hv)).
    unfold read_version at 1. cbn [map visit_versions].
    pose proof (zlen_nonneg (version_bytes v cs)). pose proof (zlen_nonneg (concat (map (fun '(v, cs) => version_bytes v cs) vs))).
    assert (Hpos : (0 < length (version_bytes v cs))%nat).
    { unfold version_bytes. rewrite !length_app. unfold le_u64 at 1. rewrite length_le_put. lia. }
    rewrite length_app in Hf. rewrite i64_small by lia.
    destruct (IH fuel (last + zlen (version_bytes v cs)) (fn v {| Pairs := if parse then map read_back (Pairs cs) else [] |} st).1)
      as (end_ & E & He); [lia|lia|lia|]. exists end_. split; [|done]. unfold read_version at 1.
    destruct (fn v _ st) as [st' [[]|e|]]; [exact E|done|done|done].
Qed.
End visit.

(** ** Properties *)

(** Reading back a change set file.  The file has the bytes [WriteChangeSet] writes for a
    list of versions, possibly followed by a version that is cut off anywhere.  Iterating
    over it makes the calls of the callback for exactly the complete versions, in order,
    with their change sets, and stops, fails and counts bytes as the callback says; without
    a cut off version the end is no error.  Skipping the payloads visits the same versions
    at the same offsets. *)
Theorem changeset_file_roundtrip {St} (fn : Z -> ChangeSet -> SE St bool) (fv : Z -> SE St bool) vs tail st :
  file_ok vs -> cut_off tail -> zlen (file_bytes vs) < 2 ^ 63 ->
  exists file, write_file vs = Ok file /\ exists end_ end_v,
    IterateChangeSets fn (file ++ tail) st =
      visit_versions fn end_ (map (fun '(v, cs) => (v, zlen (version_bytes v cs), {| Pairs := map read_back (Pairs cs) |})) vs) 0 st /\
    IterateVersions fv (file ++ tail) st =
      visit_versions (fun v _ => fv v) end_v (map (fun '(v, cs) => (v, zlen (version_bytes v cs), {| Pairs := [] |})) vs) 0 st /\
    (tail = [] -> end_ = None /\ end_v = None).
Proof.
  intros Hvs Ht Hl. exists (file_bytes vs). split; [by apply write_file_bytes|]. unfold IterateChangeSets, IterateVersions.
  destruct (iterate_loop_visit fn true vs tail (S (length (file_bytes vs ++ tail))) 0 st) as (e1 & E1 & H1); [done|done|lia|lia|lia|].
  destruct (iterate_loop_visit (fun v _ => fv v) false vs tail (S (length (file_bytes vs ++ tail))) 0 st)
    as (e2 & E2 & H2); [done|done|lia|lia|lia|].
  exists e1, e2. split; [exact E1|]. split; [exact E2|]. auto.
Qed.

Definition sample_file : list (Z * ChangeSet) :=
  [(1, {| Pairs := [{| kv_Delete := false; kv_Key := str "a"; kv_Value := Some (str "1") |};
                    {| kv_Delete := true; kv_Key := str "b"; kv_Value := None |}] |});
   (2, {| Pairs := [] |})].
Lemma sample_file_ok : file_ok sample_file.
Proof.
  repeat constructor; cbn [kv_Key kv_Value value_of default]; by vm_compute.
Qed.

Lemma changeset_file_roundtrip_witness :
  exists file end_, write_file sample_file = Ok file /\
    IterateChangeSets (fun v _ l => (l ++ [v], Ok true)) (file ++ take 5 (version_bytes 3 {| Pairs := [] |})) [] =
    Ok ([1; 2], 40, end_).
Proof.
  destruct (changeset_file_roundtrip (fun v _ l => (l ++ [v], Ok true)) (fun v l => (l, Ok true)) sample_file
    (take 5 (version_bytes 3 {| Pairs := [] |})) [] sample_file_ok) as (file & Ef & e1 & e2 & E & _).
  - exists 3, {| Pairs := [] |}, (drop 5 (version_bytes 3 {| Pairs := [] |})).
    split; [repeat constructor; by vm_compute|]. split; [by rewrite take_drop|by vm_compute].
  - vm_compute. reflexivity.
  - exists file, e1. split; [exact Ef|]. rewrite E. vm_compute. reflexivity.
Defined.
