(* ===== verification/Convert.v ===== *)
(** * Building SST files from change sets (client/changeset/convert_to_sst.go)

    The pairs of the change set files of a store go through the external sorter into SST files
    that RocksDB can ingest.  [grocksdb.SSTFileWriter] is an interface. *)

From Stdlib Require Import Strings.Byte ZArith Lia.
From stdpp Require Import base list numbers strings.
From S2P Require Import Prelude Binary Codec Proto State Sort ExtSort VersionDB ChangeSetFile.
Local Open Scope Z_scope.

Definition SizeKeyLength : Z := 4.

(** ** Items of the sorter *)

Definition sizeOfSorterItem (pair : KVPair) : Z :=
  let size := zlen (kv_Key pair) + TimestampSize + 1 + SizeKeyLength in
  if kv_Delete pair then size else size + zlen (value_of pair).

(** [binary.LittleEndian.PutUint64(item[offset:], v)]; panics when it does not fit. *)
Definition put_at (item : bytes) (offset : Z) (bz : bytes) : res bytes :=
  if zlen item <? offset + zlen bz then Panic else copy_at item offset bz.

Definition encodeSorterItem (version : Z) (pair : KVPair) : res bytes :=
  let item := replicate (Z.to_nat (sizeOfSorterItem pair)) x00 in
  item ← copy_at item 0 (kv_Key pair);
  let offset := zlen (kv_Key pair) in
  item ← put_at item offset (le_u64 version);
  let offset := offset + TimestampSize in
  '(item, offset) ← (
    if kv_Delete pair then
      item ← set_byte item offset x01; Ok (item, offset + 1)
    else
      item ← copy_at item (offset + 1) (value_of pair); Ok (item, offset + (zlen (value_of pair) + 1)));
  put_at item offset (le_u32 (u32 (zlen (kv_Key pair)))).

(** The version and the pair; [offset] is a [uint32]. *)
Definition decodeSorterItem (item : bytes) : res (bytes * KVPair) :=
  keyLen ← of_option (Uint32_at item (zlen item - SizeKeyLength));
  key ← of_option (slice item 0 keyLen);
  let offset := keyLen in
  version ← of_option (slice item offset (u32 (offset + TimestampSize)));
  let offset := u32 (offset + TimestampSize) in
  b ← of_option (item !! Z.to_nat offset);
  let delete := bool_decide (b = x01) in
  value ← (if delete then Ok None
           else
             let offset := u32 (offset + 1) in
             v ← of_option (slice item offset (zlen item - SizeKeyLength)); Ok (Some v));
  Ok (version, {| kv_Delete := delete; kv_Key := key; kv_Value := value |}).

Definition compareSorterItem (a b : bytes) : res bool :=
  aKeyLen ← of_option (Uint32_at a (zlen a - SizeKeyLength));
  bKeyLen ← of_option (Uint32_at b (zlen b - SizeKeyLength));
  ka ← of_option (slice a 0 aKeyLen);
  kb ← of_option (slice b 0 bKeyLen);
  let ret := cmp_int (Compare ka kb) in
  if negb (ret =? 0) then Ok (ret =? -1)
  else
    aVersion ← of_option (Uint64_at a aKeyLen);
    bVersion ← of_option (Uint64_at b bKeyLen);
    Ok (bVersion <? aVersion).

(** As the comparison of the sorter, whose items come from [encodeSorterItem]. *)
Definition lesserItem (a b : bytes) : bool := match compareSorterItem a b with Ok c => c | _ => false end.

(** ** The writer of SST files *)

(** An entry: a deletion has no value. *)
Record sst_entry := { se_key : bytes; se_ts : bytes; se_value : option bytes }.

Class SstOps (W : Type) := {
  sst_Open : SE W unit;
  sst_PutWithTS : bytes -> bytes -> bytes -> SE W unit;
  sst_DeleteWithTS : bytes -> bytes -> SE W unit;
  sst_Finish : SE W unit;
  sst_FileSize : W -> Z
}.

(** The entries of a file are added in the strict order of the comparator; an empty file
    cannot be finished. *)
Definition can_add (file : list sst_entry) (key ts : bytes) : Prop :=
  match last file with
  | None => True
  | Some e => compare (se_key e ++ se_ts e) (key ++ ts) = Ok (-1)
  end.

Class SstLaws W `{SstOps W} := {
  sst_files : W -> list (list sst_entry);
  sst_current : W -> option (list sst_entry);
  Open_ok : forall w, sst_current w = None ->
    exists w', sst_Open w = (w', Ok tt) /\ sst_files w' = sst_files w /\ sst_current w' = Some [];
  Put_ok : forall w file key ts v, sst_current w = Some file -> can_add file key ts ->
    exists w', sst_PutWithTS key ts v w = (w', Ok tt) /\ sst_files w' = sst_files w /\
      sst_current w' = Some (file ++ [{| se_key := key; se_ts := ts; se_value := Some v |}]);
  Delete_ok : forall w file key ts, sst_current w = Some file -> can_add file key ts ->
    exists w', sst_DeleteWithTS key ts w = (w', Ok tt) /\ sst_files w' = sst_files w /\
      sst_current w' = Some (file ++ [{| se_key := key; se_ts := ts; se_value := None |}]);
  Finish_ok : forall w file, sst_current w = Some file -> file <> [] ->
    exists w', sst_Finish w = (w', Ok tt) /\ sst_files w' = sst_files w ++ [file] /\ sst_current w' = None;
  FileSize_empty : forall w, sst_current w = Some [] -> sst_FileSize w = 0
}.

(** ** Files *)

(** [SortFilesByFirstVerson]: the files that are not empty, with their first versions. *)
Fixpoint nonEmptyFiles (files : list bytes) : res (list (bytes * Z)) :=
  match files with
  | [] => Ok []
  | f :: files =>
      match ReadFirstVersion f with
      | Ok version => rest ← nonEmptyFiles files; Ok ((f, version) :: rest)
      | Err e => if bool_decide (e = EOF) then nonEmptyFiles files else Err e
      | Panic => Panic
      end
  end.

Section convert.
  Context `{SortOps, SnappyOps} {W : Type} `{SstOps W}.

Definition SortFilesByFirstVerson (files : list bytes) : res (list (bytes * Z)) :=
  l ← nonEmptyFiles files;
  Ok (sort_Slice (fun a b => a.2 <? b.2) l).

(** The callback that sends the pairs of a change set to the sorter. *)
Fixpoint send_pairs (version : Z) (pairs : list KVPair) : SE (list bytes) unit :=
  match pairs with
  | [] => mret tt
  | p :: pairs =>
      item ← lift (encodeSorterItem (u64 version) p);
      modify (fun items => items ++ [item]) ;;
      send_pairs version pairs
  end.

Definition send_changeset (version : Z) (changeSet : ChangeSet) : SE (list bytes) bool :=
  send_pairs version (Pairs changeSet) ;; mret true.

(** The items sent, and the error that stops the loop over the files. *)
Fixpoint send_files (files : list (bytes * Z)) (items : list bytes) : res (list bytes * option error) :=
  match files with
  | [] => Ok (items, None)
  | (f, _) :: files =>
      '(items, _, err) ← IterateChangeSets send_changeset f items;
      match err with
      | Some e => Ok (items, Some e)
      | None => send_files files items
      end
  end.

Fixpoint write_items (prefix : bytes) (sstFileSize : Z) (lastKey : bytes) (items : list bytes) : SE W unit :=
  match items with
  | [] => mret tt
  | item :: items =>
      '(ts, p) ← lift (decodeSorterItem item);
      size ← gets sst_FileSize;
      (if (sstFileSize <=? size) && negb (bool_decide (lastKey = kv_Key p))
       then sst_Finish ;; sst_Open else mret tt) ;;
      let key := cloneAppend prefix (kv_Key p) in
      (if kv_Delete p then sst_DeleteWithTS key ts else sst_PutWithTS key ts (value_of p)) ;;
      write_items prefix sstFileSize (kv_Key p) items
  end.

Definition sorter_opts (sorterChunkSize : Z) : Options :=
  {| MaxChunkSize := sorterChunkSize; LesserFunc := lesserItem; DeltaEncoding := true; SnappyCompression := true |}.

(** The files in order.  The items reach the sorter as [weave] mixes them with the chunks
    that are done. *)
Definition convert_files (store : bytes) (csFiles : list (bytes * Z)) (sstFileSize sorterChunkSize : Z)
    (weave : list bytes -> list event) (sched : list (nat * option error)) : SE W unit :=
  match csFiles with
  | [] => mret tt
  | _ =>
      let prefix := storePrefix store in
      '(items, err) ← lift (send_files csFiles []);
      match err with
      | Some e => throw e
      | None =>
          match items with
          | [] => mret tt
          | _ =>
              output ← lift (Spawn (sorter_opts sorterChunkSize) (weave items) sched);
              sst_Open ;; write_items prefix sstFileSize [] output ;; sst_Finish
          end
      end
  end.

(** With the contents of the files of a store. *)
Definition convertSingleStore (store : bytes) (files : list bytes) (sstFileSize sorterChunkSize : Z)
    (weave : list bytes -> list event) (sched : list (nat * option error)) : SE W unit :=
  csFiles ← lift (SortFilesByFirstVerson files);
  convert_files store csFiles sstFileSize sorterChunkSize weave sched.
End convert.
