(* ===== verification/ConvertInv.v ===== *)
(** * The SST files hold the change sets, in the order of the comparator *)

From Stdlib Require Import Strings.Byte ZArith Lia.
From stdpp Require Import base gmap list numbers strings sorting.
From S2P Require Import Prelude Binary Codec Proto ProtoInv State Sort ExtSort ExtSortInv Rocks VersionDB VersionDBInv VersionDBIter ChangeSetFile ChangeSetFileInv Convert.
Local Open Scope Z_scope.

(** ** Items *)

Definition item_bytes (version : Z) (p : KVPair) : bytes :=
  kv_Key p ++ le_u64 version ++ [if kv_Delete p then x01 else x00] ++
  (if kv_Delete p then [] else value_of p) ++ le_u32 (zlen (kv_Key p)).

(** The item fits into a chunk of the sorter. *)
Definition small_pair (p : KVPair) : Prop := zlen (kv_Key p) + zlen (value_of p) + 13 <= MaxUint32.

Lemma copy_at_head mid post bz : length mid = length bz -> copy_at (mid ++ post) 0 bz = Ok (bz ++ post).
Proof. intros Hl. apply (copy_at_app [] mid post bz Hl). Qed.

Lemma put_at_app pre mid post bz :
  length mid = length bz -> put_at (pre ++ mid ++ post) (zlen pre) bz = Ok (pre ++ bz ++ post).
Proof.
  intros Hl. unfold put_at. rewrite (proj2 (Z.ltb_ge _ _)), copy_at_app by (unfold zlen in *; rewrite ?length_app; lia). done.
Qed.

Lemma sizeOfSorterItem_len v p : sizeOfSorterItem p = zlen (item_bytes v p).
Proof.
  unfold sizeOfSorterItem, item_bytes, TimestampSize, SizeKeyLength. rewrite !zlen_app, zlen_le_u64, zlen_le_u32.
  destruct (kv_Delete p); unfold zlen; simpl; lia.
Qed.

Lemma encodeSorterItem_bytes v p :
  0 <= v < 2 ^ 64 -> small_pair p -> encodeSorterItem v p = Ok (item_bytes v p).
Proof.
  intros Hv Hp. unfold small_pair, MaxUint32 in Hp. pose proof (zlen_nonneg (kv_Key p)). pose proof (zlen_nonneg (value_of p)).
  unfold encodeSorterItem. rewrite (sizeOfSorterItem_len v), u32_small by lia.
  replace (Z.to_nat (zlen (item_bytes v p))) with (length (item_bytes v p)) by (unfold zlen; lia).
  unfold item_bytes at 1. rewrite !length_app, !replicate_add, copy_at_head by apply length_replicate.
  cbn [mbind res_bind]. rewrite put_at_app by apply length_replicate. cbn [mbind res_bind].
  unfold TimestampSize. set (pre := kv_Key p ++ le_u64 v).
  assert (Hpre : zlen (kv_Key p) + 8 = zlen pre) by (unfold pre; by rewrite zlen_app, zlen_le_u64). rewrite Hpre, !(app_assoc (kv_Key p)).
  fold pre. unfold item_bytes. destruct (kv_Delete p); cbn [length replicate app].
  - rewrite set_byte_app. cbn [mbind res_bind]. replace (zlen pre + 1) with (zlen (pre ++ [x01])) by (by rewrite zlen_app).
    rewrite (cons_middle x01 pre), app_assoc, <- (app_nil_r (replicate _ _)), put_at_app by apply length_replicate.
    rewrite app_nil_r, <- !app_assoc. unfold pre. by rewrite <- app_assoc.
  - replace (zlen pre + 1) with (zlen (pre ++ [x00])) by (by rewrite zlen_app).
    rewrite (cons_middle x00 pre), app_assoc, copy_at_app by apply length_replicate. cbn [mbind res_bind].
    replace (zlen pre + (zlen (value_of p) + 1)) with (zlen ((pre ++ [x00]) ++ value_of p))
      by (rewrite !zlen_app; change (zlen [x00]) with 1; lia).
    rewrite (app_assoc _ (value_of p)), <- (app_nil_r (replicate _ _)), put_at_app by apply length_replicate.
    rewrite app_nil_r, <- !app_assoc. unfold pre. by rewrite <- app_assoc.
Qed.

Lemma item_keyLen v p : small_pair p -> Uint32_at (item_bytes v p) (zlen (item_bytes v p) - SizeKeyLength) = Some (zlen (kv_Key p)).
Proof.
  intros Hp. unfold small_pair, MaxUint32 in Hp. pose proof (zlen_nonneg (kv_Key p)). pose proof (zlen_nonneg (value_of p)).
  unfold item_bytes. rewrite !app_assoc.
  match goal with |- Uint32_at (?a ++ le_u32 ?n) _ = _ => rewrite <- (app_nil_r (le_u32 n)) at 1; apply (Uint32_at_app a n) end; [|lia]. rewrite zlen_app, zlen_le_u32. unfold SizeKeyLength. lia.
Qed.

Lemma item_key v p : slice (item_bytes v p) 0 (zlen (kv_Key p)) = Some (kv_Key p).
Proof. unfold item_bytes. apply (slice_app [] (kv_Key p)); [done|lia]. Qed.

Lemma decodeSorterItem_bytes v p : small_pair p -> decodeSorterItem (item_bytes v p) = Ok (le_u64 v, read_back p).
Proof.
  intros Hp. unfold decodeSorterItem. rewrite (item_keyLen v p Hp). cbn [of_option mbind res_bind]. rewrite item_key.
  cbn [of_option mbind res_bind]. unfold small_pair, MaxUint32 in Hp. pose proof (zlen_nonneg (kv_Key p)). pose proof (zlen_nonneg (value_of p)).
  unfold TimestampSize. rewrite (u32_small (zlen (kv_Key p) + 8)) by lia.
  assert (slice (item_bytes v p) (zlen (kv_Key p)) (zlen (kv_Key p) + 8) = Some (le_u64 v)) as ->
    by (apply slice_app; [done|by rewrite zlen_le_u64]). cbn [of_option mbind res_bind].
  set (pre := kv_Key p ++ le_u64 v). assert (Hpre : zlen (kv_Key p) + 8 = zlen pre) by (unfold pre; by rewrite zlen_app, zlen_le_u64).
  rewrite Hpre in *. assert (Ei : item_bytes v p = pre ++ (if kv_Delete p then x01 else x00) ::
    (if kv_Delete p then [] else value_of p) ++ le_u32 (zlen (kv_Key p))) by (unfold item_bytes, pre; by rewrite <- app_assoc).
  rewrite Ei. replace (Z.to_nat (zlen pre)) with (length pre) by (unfold zlen; lia). rewrite list_lookup_middle by done.
  cbn [of_option mbind res_bind]. unfold read_back. destruct (kv_Delete p); [done|]. cbn [bool_decide mbind res_bind].
  rewrite u32_small by lia. rewrite (cons_middle x00 pre), app_assoc.
  rewrite (slice_app (pre ++ [x00]) (value_of p)); [done|rewrite zlen_app; done|].
  rewrite !zlen_app, zlen_le_u32. unfold SizeKeyLength. change (zlen [x00]) with 1. lia.
Qed.

(** The order of the items: ascending keys, newest version first. *)
Definition item_lt (v : Z) (p : KVPair) (w : Z) (q : KVPair) : bool :=
  match Compare (kv_Key p) (kv_Key q) with Lt => true | Gt => false | Eq => w <? v end.

Lemma compareSorterItem_bytes v p w q :
  small_pair p -> small_pair q -> 0 <= v < 2 ^ 64 -> 0 <= w < 2 ^ 64 ->
  compareSorterItem (item_bytes v p) (item_bytes w q) = Ok (item_lt v p w q).
Proof.
  intros Hp Hq Hv Hw. unfold compareSorterItem. rewrite (item_keyLen v p Hp), (item_keyLen w q Hq).
  cbn [of_option mbind res_bind]. rewrite !item_key. cbn [of_option mbind res_bind]. unfold item_lt.
  destruct (Compare (kv_Key p) (kv_Key q)); try done. cbn [cmp_int Z.eqb negb]. unfold item_bytes.
  by rewrite !Uint64_at_app.
Qed.

(** The comparator of the database has the same order. *)
Lemma compare_app a b v w :
  0 <= v < 2 ^ 64 -> 0 <= w < 2 ^ 64 ->
  compare (a ++ le_u64 v) (b ++ le_u64 w) =
  Ok (match Compare a b with Lt => -1 | Gt => 1 | Eq => if v <? w then 1 else if w <? v then -1 else 0 end).
Proof.
  intros Hv Hw. unfold compare, compareWithoutTS, TimestampSize.
  assert (Hs : forall (c : bytes) x, slice (c ++ le_u64 x) 0 (zlen (c ++ le_u64 x) - 8) = Some c /\
    slice (c ++ le_u64 x) (zlen (c ++ le_u64 x) - 8) (zlen (c ++ le_u64 x)) = Some (le_u64 x)).
  { intros c x. rewrite zlen_app, zlen_le_u64. split; [apply (slice_app [] c); [done|lia]|].
    apply slice_end; rewrite ?zlen_le_u64; lia. }
  destruct (Hs a v) as [-> ->], (Hs b w) as [-> ->]. cbn [of_option mbind res_bind].
  destruct (Compare a b); cbn [cmp_int Z.eqb negb]; try done. unfold compareTS.
  rewrite !Uint64_le_u64 by done. cbn [of_option mbind res_bind].
  destruct (Z.ltb_spec v w), (Z.ltb_spec w v); try done; lia.
Qed.

(** The items of a conversion. *)
Record item_of (item : bytes) (v : Z) (p : KVPair) : Prop := {
  io_bytes : item = item_bytes v p;
  io_small : small_pair p;
  io_version : 0 <= v < 2 ^ 64
}.
Definition is_item (item : bytes) : Prop := exists v p, item_of item v p.

Lemma lesserItem_bytes a b v p w q : item_of a v p -> item_of b w q -> lesserItem a b = item_lt v p w q.
Proof. intros [-> Hp Hv] [-> Hq Hw]. unfold lesserItem. by rewrite compareSorterItem_bytes. Qed.

Lemma lesserItem_weak_order : weak_order is_item lesserItem.
Proof.
  split.
  - intros a b (v & p & Ha) (w & q & Hb). rewrite (lesserItem_bytes _ _ _ _ _ _ Ha Hb), (lesserItem_bytes _ _ _ _ _ _ Hb Ha).
    unfold item_lt. rewrite (Compare_opp (kv_Key p) (kv_Key q)). destruct (Compare (kv_Key p) (kv_Key q)); cbn [CompOpp]; try done.
    intros ?%Z.ltb_lt. apply Z.ltb_ge. lia.
  - intros a b c (v & p & Ha) (w & q & Hb) (u & r & Hc).
    rewrite (lesserItem_bytes _ _ _ _ _ _ Hb Ha), (lesserItem_bytes _ _ _ _ _ _ Hc Hb), (lesserItem_bytes _ _ _ _ _ _ Hc Ha).
    unfold item_lt. intros H1 H2.
    destruct (Compare_spec (kv_Key q) (kv_Key p)) as [E1|E1|E1]; [|done|];
      destruct (Compare_spec (kv_Key r) (kv_Key q)) as [E2|E2|E2]; try done;
      destruct (Compare_spec (kv_Key r) (kv_Key p)) as [E3|E3|E3]; try done; try (exfalso; bytes_order).
    rewrite Z.ltb_ge in *. lia.
Qed.

(** ** The items sent *)

(** The pairs of the versions of a file, with their timestamps. *)
Definition version_pairs (vs : list (Z * ChangeSet)) : list (Z * KVPair) :=
  concat (map (fun '(v, cs) => map (pair (u64 v)) (Pairs cs)) vs).
Definition item (x : Z * KVPair) : bytes := item_bytes x.1 x.2.

Lemma value_read_back p : value_of (read_back p) = if kv_Delete p then [] else value_of p.
Proof. unfold value_of, read_back. simpl. by destruct (kv_Delete p). Qed.

Lemma item_read_back v p : item_bytes v (read_back p) = item_bytes v p.
Proof. unfold item_bytes. rewrite value_read_back. simpl. by destruct (kv_Delete p). Qed.

Lemma small_read_back p : small_pair p -> small_pair (read_back p).
Proof.
  unfold small_pair. rewrite value_read_back. cbn [kv_Key read_back]. destruct (kv_Delete p); [|done].
  pose proof (zlen_nonneg (value_of p)). change (zlen []) with 0. lia.
Qed.

Lemma send_pairs_ok v pairs items :
  Forall small_pair pairs -> send_pairs v (map read_back pairs) items = (items ++ map (item_bytes (u64 v)) pairs, Ok tt).
Proof.
  intros Hp. revert items. induction Hp as [|p pairs Hp _ IH]; intros items; [by rewrite app_nil_r|].
  cbn [map send_pairs]. unfold mbind, SE_bind, lift, modify.
  rewrite encodeSorterItem_bytes, item_read_back by (apply u64_range || by apply small_read_back).
  rewrite IH. by rewrite <- app_assoc.
Qed.

Definition small_file (vs : list (Z * ChangeSet)) : Prop := Forall (fun '(v, cs) => Forall small_pair (Pairs cs)) vs.

Lemma visit_send vs size items :
  small_file vs -> exists size',
  visit_versions send_changeset None (map (fun '(v, cs) => read_version true v cs) vs) size items =
  Ok (items ++ map item (version_pairs vs), size', None).
Proof.
  intros Hs. revert size items. induction Hs as [|[v cs] vs Hv _ IH]; intros size items; cbn [map visit_versions].
  { exists size. by rewrite app_nil_r. }
  unfold read_version at 1. unfold send_changeset at 1. unfold mbind, SE_bind, mret, SE_ret. cbn [Pairs].
  rewrite send_pairs_ok by done.
  destruct (IH (size + zlen (version_bytes v cs)) (items ++ map (item_bytes (u64 v)) (Pairs cs))) as [size' ->].
  exists size'. unfold version_pairs. cbn [map concat]. rewrite map_app, map_map, <- app_assoc. done.
Qed.

(** A complete file. *)
Record good_file (vs : list (Z * ChangeSet)) : Prop := {
  gf_ok : file_ok vs;
  gf_small : small_file vs;
  gf_size : zlen (file_bytes vs) < 2 ^ 63
}.

Lemma cut_off_nil : cut_off [].
Proof.
  exists 0, {| Pairs := [] |}, (version_bytes 0 {| Pairs := [] |}).
  split; [split; [lia|constructor|by vm_compute]|]. split; [done|by vm_compute].
Qed.

Lemma IterateChangeSets_send vs items :
  good_file vs -> exists size, IterateChangeSets send_changeset (file_bytes vs) items =
    Ok (items ++ map item (version_pairs vs), size, None).
Proof.
  intros [Hok Hs Hl]. unfold IterateChangeSets.
  destruct (iterate_loop_visit send_changeset true vs [] (S (length (file_bytes vs))) 0 items Hok cut_off_nil)
    as (end_ & E & Hend); [rewrite app_nil_r; lia|lia|lia|].
  rewrite app_nil_r in E. rewrite E, (Hend eq_refl). by apply visit_send.
Qed.

Lemma send_files_ok (files : list (list (Z * ChangeSet) * Z)) items :
  Forall (fun f => good_file f.1) files ->
  send_files (map (fun f => (file_bytes f.1, f.2)) files) items =
  Ok (items ++ map item (concat (map (fun f => version_pairs f.1) files)), None).
Proof.
  intros Hf. revert items. induction Hf as [|f files Hf _ IH]; intros items; cbn [map send_files]; [by rewrite app_nil_r|].
  destruct (IterateChangeSets_send f.1 items Hf) as [size ->]. cbn [mbind res_bind]. rewrite IH. cbn [concat].
  by rewrite map_app, <- app_assoc.
Qed.

(** Empty files are left out. *)
Lemma ReadFirstVersion_file vs :
  (vs = [] /\ ReadFirstVersion (file_bytes vs) = Err EOF) \/ (vs <> [] /\ exists v, ReadFirstVersion (file_bytes vs) = Ok v).
Proof.
  destruct vs as [|[v cs] vs]; [by left|right]. split; [done|]. unfold ReadFirstVersion, file_bytes. cbn [map concat].
  unfold version_bytes at 1. rewrite <- app_assoc. pose proof (fun rest => ReadFull_app (le_u64 (u64 v)) rest) as E.
  rewrite zlen_le_u64 in E. rewrite E. by eexists.
Qed.

Lemma SortFiles_ok `{SortLaws} vss :
  exists files, SortFilesByFirstVerson (map file_bytes vss) = Ok (map (fun f => (file_bytes f.1, f.2)) files) /\
    map fst files ≡ₚ filter (fun vs => vs <> []) vss.
Proof.
  unfold SortFilesByFirstVerson.
  assert (Hn : exists files, nonEmptyFiles (map file_bytes vss) = Ok (map (fun f => (file_bytes f.1, f.2)) files) /\
    map fst files = filter (fun vs => vs <> []) vss).
  { induction vss as [|vs vss (files & IH & Hf)]; [by exists []|]. cbn [map nonEmptyFiles].
    destruct (ReadFirstVersion_file vs) as [[-> ->]|[Hne [v ->]]].
    - rewrite bool_decide_true by done. exists files. split; [done|]. by rewrite filter_cons_False by (by intros []).
    - rewrite IH. exists ((vs, v) :: files). split; [done|]. rewrite filter_cons_True by done. cbn [map fst]. by rewrite Hf. }
  destruct Hn as (files & -> & Hf). cbn [mbind res_bind].
  destruct (Permutation_map_inv _ _ (sort_perm (fun a b => a.2 <? b.2) (map (fun f => (file_bytes f.1, f.2)) files)))
    as (files' & -> & Hp). exists files'. split; [done|]. rewrite <- Hf. by apply Permutation_map.
Qed.

(** ** The files written *)

Definition entry_lt (a b : sst_entry) : Prop := compare (se_key a ++ se_ts a) (se_key b ++ se_ts b) = Ok (-1).

(** The user keys of a file are before those of another. *)
Definition files_before (f g : list sst_entry) : Prop := forall x y, x ∈ f -> y ∈ g -> bytes_lt (se_key x) (se_key y).

(** The entry of a pair of a store. *)
Definition entry_of (prefix : bytes) (x : Z * KVPair) : sst_entry :=
  {| se_key := prefix ++ kv_Key x.2; se_ts := le_u64 x.1;
     se_value := if kv_Delete x.2 then None else Some (value_of x.2) |}.

Definition pair_lt (x y : Z * KVPair) : Prop := item_lt x.1 x.2 y.1 y.2 = true.
Definition pair_in (x : Z * KVPair) : Prop := 0 <= x.1 < 2 ^ 64 /\ small_pair x.2.

Lemma entry_lt_pair prefix x y : pair_in x -> pair_in y -> pair_lt x y -> entry_lt (entry_of prefix x) (entry_of prefix y).
Proof.
  intros [Hx _] [Hy _] Hlt. unfold entry_lt, pair_lt, item_lt in *. cbn [entry_of se_key se_ts]. rewrite compare_app by done.
  rewrite Compare_prefix. destruct (Compare _ _); [|done|done]. apply Z.ltb_lt in Hlt.
  by rewrite (proj2 (Z.ltb_ge _ _)), (proj2 (Z.ltb_lt _ _)) by lia.
Qed.

Lemma pair_lt_key x y : pair_lt x y -> bytes_le (kv_Key x.2) (kv_Key y.2).
Proof. unfold pair_lt, item_lt. destruct (Compare_spec (kv_Key x.2) (kv_Key y.2)); [by right|by left|done]. Qed.

(** A file that ends before another key has no key in common with the next one. *)
Lemma boundary file x l y :
  StronglySorted pair_lt (file ++ x :: l) -> last file = Some y -> kv_Key y.2 <> kv_Key x.2 ->
  forall a b, a ∈ file -> b ∈ x :: l -> bytes_lt (kv_Key a.2) (kv_Key b.2).
Proof.
  intros Hs Hy Hne a b Ha Hb. apply last_Some in Hy as [file0 ->]. apply StronglySorted_app in Hs as (Hc & Hf & Hl).
  assert (Hyx : bytes_lt (kv_Key y.2) (kv_Key x.2)).
  { destruct (pair_lt_key y x) as [?|E]; [apply Hc; [apply elem_of_app; right; by left|by left]|done|done]. }
  assert (Hay : bytes_le (kv_Key a.2) (kv_Key y.2)).
  { apply elem_of_app in Ha as [Ha|Ha%list_elem_of_singleton]; [|subst; by right].
    apply StronglySorted_app in Hf as (Hf & _). apply pair_lt_key, Hf; [done|by left]. }
  assert (Hxb : bytes_le (kv_Key x.2) (kv_Key b.2)).
  { apply elem_of_cons in Hb as [->|Hb]; [by right|]. apply StronglySorted_inv in Hl as [_ Hl].
    rewrite Forall_forall in Hl. by apply pair_lt_key, Hl. }
  bytes_order.
Qed.

Section writing.
  Context {W : Type} `{SstLaws W}.
  Variable prefix : bytes.
  Variable sstFileSize : Z.
  Hypothesis Hsize : 0 < sstFileSize.

(** The entry goes to the current file. *)
Lemma add_ok w x file :
  sst_current w = Some (map (entry_of prefix) file) -> pair_in x -> Forall pair_in file ->
  (forall y, last file = Some y -> pair_lt y x) ->
  exists w', (if kv_Delete (read_back x.2) then sst_DeleteWithTS (cloneAppend prefix (kv_Key (read_back x.2))) (le_u64 x.1)
     else sst_PutWithTS (cloneAppend prefix (kv_Key (read_back x.2))) (le_u64 x.1) (value_of (read_back x.2))) w = (w', Ok tt) /\
    sst_files w' = sst_files w /\ sst_current w' = Some (map (entry_of prefix) (file ++ [x])).
Proof.
  intros Hc Hx Hf Hl. assert (Ha : can_add (map (entry_of prefix) file) (prefix ++ kv_Key x.2) (le_u64 x.1)).
  { unfold can_add. change (map (entry_of prefix) file) with (entry_of prefix <$> file). rewrite fmap_last. destruct (last file) as [y|] eqn:El; [|done]. cbn [fmap option_fmap option_map].
    apply (entry_lt_pair prefix y x); [|done|by apply Hl]. rewrite Forall_forall in Hf. apply Hf. by apply last_Some_elem_of. }
  rewrite value_read_back. cbn [read_back kv_Delete kv_Key]. unfold cloneAppend. rewrite map_app. cbn [map].
  change (entry_of prefix x) with {| se_key := prefix ++ kv_Key x.2; se_ts := le_u64 x.1;
    se_value := if kv_Delete x.2 then None else Some (value_of x.2) |}.
  destruct (kv_Delete x.2); [by apply Delete_ok|by apply Put_ok].
Qed.

(** What the loop makes of the items: the finished files and the last one. *)
Record written (w w' : W) (entries : list (Z * KVPair)) (files : list (list (Z * KVPair))) (file : list (Z * KVPair)) : Prop := {
  wr_files : sst_files w' = sst_files w ++ map (map (entry_of prefix)) files;
  wr_current : sst_current w' = Some (map (entry_of prefix) file);
  wr_concat : concat (files ++ [file]) = entries;
  wr_nonempty : entries <> [] -> Forall (fun f => f <> []) (files ++ [file]);
  wr_before : StronglySorted (fun f g => forall x y, x ∈ f -> y ∈ g -> bytes_lt (kv_Key x.2) (kv_Key y.2)) (files ++ [file])
}.

Lemma split_ok w file :
  sst_current w = Some (map (entry_of prefix) file) -> file <> [] ->
  exists w', (sst_Finish ;; sst_Open) w = (w', Ok tt) /\ sst_files w' = sst_files w ++ [map (entry_of prefix) file] /\
    sst_current w' = Some [].
Proof.
  intros Hc Hf. destruct (Finish_ok w _ Hc) as (w1 & E1 & Hf1 & Hc1); [by destruct file|].
  destruct (Open_ok w1 Hc1) as (w2 & E2 & Hf2 & Hc2). exists w2. unfold mbind, SE_bind. rewrite E1, E2.
  split; [done|]. by rewrite Hf2, Hf1.
Qed.

Lemma written_split w w1 w' file l files file' :
  file <> [] -> sst_files w1 = sst_files w ++ [map (entry_of prefix) file] ->
  (forall x y, x ∈ file -> y ∈ l -> bytes_lt (kv_Key x.2) (kv_Key y.2)) -> l <> [] ->
  written w1 w' l files file' -> written w w' (file ++ l) (file :: files) file'.
Proof.
  intros Hne Hf Hb Hl [Hfi Hc Hco Hn Hs]. split; [|done| | |].
  - rewrite Hfi, Hf, <- app_assoc. done.
  - cbn [app concat]. by rewrite Hco.
  - intros _. constructor; [done|by apply Hn].
  - cbn [app]. constructor; [done|]. apply Forall_forall. intros g Hg x y Hx Hy. apply Hb; [done|].
    rewrite <- Hco. apply list_elem_of_In, in_concat. exists g. by rewrite <- !list_elem_of_In.
Qed.

Lemma write_items_ok l w file lastKey :
  sst_current w = Some (map (entry_of prefix) file) -> Forall pair_in (file ++ l) -> StronglySorted pair_lt (file ++ l) ->
  (forall y, last file = Some y -> lastKey = kv_Key y.2) ->
  exists w' files file', write_items prefix sstFileSize lastKey (map item l) w = (w', Ok tt) /\
    written w w' (file ++ l) files file'.
Proof.
  revert w file lastKey. induction l as [|x l IH]; intros w file lastKey Hc Hin Hs Hk.
  { exists w, [], file. rewrite app_nil_r in *. split; [done|]. split; [by rewrite app_nil_r|done|by apply app_nil_r| |].
    - intros Hne. by repeat constructor.
    - repeat constructor. }
  assert (Hx : pair_in x /\ Forall pair_in file) by (apply Forall_app in Hin as [? Hin]; by apply Forall_cons in Hin as [? _]).
  destruct Hx as [Hx Hf]. pose proof Hs as Hs'. apply StronglySorted_app in Hs' as (Hcross & _ & Hsl).
  assert (Hlast : forall y, last file = Some y -> pair_lt y x).
  { intros y Hy. apply Hcross; [by apply last_Some_elem_of|by left]. }
  cbn [map write_items]. unfold lift, gets. unfold mbind at 1, SE_bind at 1. unfold item at 1. rewrite decodeSorterItem_bytes by apply Hx.
  unfold mbind at 1, SE_bind at 1. destruct ((sstFileSize <=? sst_FileSize w) && negb (bool_decide (lastKey = kv_Key (read_back x.2)))) eqn:Esp.
  - apply andb_true_iff in Esp as [Hle%Z.leb_le Hne%negb_true_iff%bool_decide_eq_false].
    assert (Hfne : file <> []).
    { intros ->. rewrite (FileSize_empty w Hc) in Hle. lia. }
    destruct (split_ok w file Hc Hfne) as (w1 & E1 & Hf1 & Hc1).
    destruct (add_ok w1 x [] Hc1 Hx) as (w2 & E2 & Hf2 & Hc2); [constructor|done|].
    destruct (IH w2 [x] (kv_Key x.2) Hc2) as (w' & files & file' & E & Hw);
      [by apply Forall_app in Hin as [_ ?]|done|intros y [=]; by subst|].
    exists w', (file :: files), file'. split.
    + unfold mbind at 1, SE_bind at 1. rewrite E1. unfold mbind at 1, SE_bind at 1. by rewrite E2.
    + apply (written_split w w2); [done|by rewrite Hf2, Hf1| |done|done].
      destruct (last file) as [y|] eqn:El; [|by apply last_None in El].
      apply (boundary file x l y); [done|done|]. by rewrite <- (Hk y eq_refl).
  - destruct (add_ok w x file Hc Hx Hf Hlast) as (w2 & E2 & Hf2 & Hc2).
    destruct (IH w2 (file ++ [x]) (kv_Key x.2) Hc2) as (w' & files & file' & E & Hw); rewrite <- ?app_assoc; [done|done| |].
    { intros y. rewrite last_snoc. intros [=]. by subst. }
    exists w', files, file'. split.
    + unfold mbind at 1, SE_bind at 1. cbn [mret SE_ret]. unfold mret, SE_ret. unfold mbind at 1, SE_bind at 1. by rewrite E2.
    + rewrite <- app_assoc in Hw. destruct Hw as [Hw1 Hw2 Hw3 Hw4 Hw5]. split; [by rewrite Hw1, Hf2|done..].
Qed.
End writing.

(** ** The sorted pairs *)

(** The user key and the timestamp of a pair. *)
Definition pair_id (x : Z * KVPair) : bytes * Z := (kv_Key x.2, x.1).

Lemma pair_item_of x : pair_in x -> item_of (item x) x.1 x.2.
Proof. by intros [Hv Hp]. Qed.

Lemma ordered_strict l :
  Forall pair_in l -> NoDup (map pair_id l) -> ordered lesserItem (map item l) -> StronglySorted pair_lt l.
Proof.
  induction 1 as [|x l Hx Hl IH]; intros Hd Ho; [constructor|]. cbn [map] in *. apply NoDup_cons in Hd as [Hd Hd'].
  apply StronglySorted_inv in Ho as [Ho Hf]. constructor; [by apply IH|]. rewrite Forall_forall in Hl. rewrite Forall_forall in Hf.
  apply Forall_forall. intros y Hy. specialize (Hf (item y) (list_elem_of_fmap_2 item l y Hy)).
  rewrite (lesserItem_bytes _ _ _ _ _ _ (pair_item_of y (Hl y Hy)) (pair_item_of x Hx)) in Hf.
  unfold pair_lt, item_lt in *. rewrite (Compare_opp (kv_Key x.2) (kv_Key y.2)) in Hf.
  destruct (Compare (kv_Key x.2) (kv_Key y.2)) eqn:E; cbn [CompOpp] in Hf; [|done|done].
  apply Compare_eq in E. apply Z.ltb_ge in Hf. apply Z.ltb_lt.
  assert (x.1 <> y.1); [|lia]. intros Ev. apply Hd. replace (pair_id x) with (pair_id y) by (unfold pair_id; congruence).
  by apply (list_elem_of_fmap_2 pair_id).
Qed.

(** The write that ingesting an entry amounts to. *)
Definition entry_op (e : sst_entry) : batch_op :=
  match se_value e with Some v => PutCFWithTS (se_key e) (se_ts e) v | None => DeleteCFWithTS (se_key e) (se_ts e) end.

Lemma apply_entry m prefix x :
  pair_in x -> apply_op m (entry_op (entry_of prefix x)) =
  <[(prefix ++ kv_Key x.2, x.1) := if kv_Delete x.2 then None else Some (value_of x.2)]> m.
Proof.
  intros [Hv _]. unfold entry_op, entry_of. cbn [se_value se_key se_ts]. destruct (kv_Delete x.2); cbn [apply_op]; by rewrite le_get_u64.
Qed.

(** The order of writes to different entries does not matter. *)
Lemma apply_entries_perm prefix l l' :
  l ≡ₚ l' -> Forall pair_in l -> NoDup (map pair_id l) -> forall m,
  foldl apply_op m (map entry_op (map (entry_of prefix) l)) = foldl apply_op m (map entry_op (map (entry_of prefix) l')).
Proof.
  induction 1 as [|x l l' Hp IH|x y l|l l1 l' Hp1 IH1 Hp2 IH2]; intros Hin Hd m; cbn [map foldl] in *; [done| | |].
  - apply Forall_cons in Hin as [_ Hin]. apply NoDup_cons in Hd as [_ Hd]. by apply IH.
  - apply Forall_cons in Hin as [Hy Hin]. apply Forall_cons in Hin as [Hx Hin]. rewrite !apply_entry by done.
    f_equal. apply insert_insert_ne. intros E. injection E as E1%app_inv_head E2.
    apply NoDup_cons in Hd as [Hd _]. apply Hd.
    replace (pair_id y) with (pair_id x) by (unfold pair_id; congruence). by left.
  - rewrite IH1 by done. apply IH2; [by rewrite <- Hp1|]. change (NoDup (pair_id <$> l1)). by rewrite <- Hp1.
Qed.

Lemma version_pairs_app vs vs' : version_pairs (vs ++ vs') = version_pairs vs ++ version_pairs vs'.
Proof. unfold version_pairs. by rewrite map_app, concat_app. Qed.

Lemma concat_nonempty_files vss :
  concat (map version_pairs (filter (fun vs => vs <> []) vss)) = version_pairs (concat vss).
Proof.
  induction vss as [|vs vss IH]; [done|]. cbn [concat]. rewrite version_pairs_app, <- IH.
  destruct (decide (vs <> [])) as [Hne|He]; [by rewrite filter_cons_True|]. rewrite filter_cons_False by done.
  by apply dec_stable in He as ->.
Qed.

Lemma version_pairs_in vss : Forall good_file vss -> Forall pair_in (version_pairs (concat vss)).
Proof.
  intros Hg. apply Forall_forall. intros [v p] Hin. unfold version_pairs in Hin.
  apply list_elem_of_In, in_concat in Hin as (ps & Hps & Hin). apply in_map_iff in Hps as ([w cs] & <- & Hcs).
  apply in_map_iff in Hin as (q & [= <- <-] & Hq). apply in_concat in Hcs as (vs & Hvs & Hcs).
  rewrite Forall_forall in Hg. destruct (Hg vs) as [_ Hs _]; [by apply list_elem_of_In|].
  unfold small_file in Hs. rewrite Forall_forall in Hs. apply list_elem_of_In in Hcs, Hq. specialize (Hs _ Hcs). cbn in Hs.
  rewrite Forall_forall in Hs. split; [apply u64_range|by apply Hs].
Qed.

(** The writes of [FeedChangeSet] for the versions. *)
Definition feed_ops (store : bytes) (vs : list (Z * ChangeSet)) : list batch_op :=
  concat (map (fun '(v, cs) => map (feed_pair (storePrefix store) (version_ts v)) (Pairs cs)) vs).

Lemma feed_ops_entries store vs :
  feed_ops store vs = map entry_op (map (entry_of (storePrefix store)) (version_pairs vs)).
Proof.
  induction vs as [|[v cs] vs IH]; [done|]. unfold feed_ops, version_pairs in *. cbn [map concat]. rewrite IH, !map_app, !map_map.
  f_equal. apply map_ext. intros p. unfold feed_pair, entry_op, entry_of, cloneAppend, version_ts, value_of.
  cbn [fst snd se_value se_key se_ts]. by destruct (kv_Delete p).
Qed.

(** ** The conversion *)

Section conversion.
  Context `{SortLaws, SnappyLaws} {W : Type} `{SstLaws W}.

(** A run of the sorter in which no chunk fails. *)
Record fair (weave : list bytes -> list event) (sched : list (nat * option error)) : Prop := {
  fr_fed : forall items, fed (weave items) = items;
  fr_clean : forall items, reported (weave items) sched = []
}.

Lemma sorted_pairs chunkSize weave sched l :
  fair weave sched -> chunkSize <= 2 ^ 62 -> Forall pair_in l -> NoDup (map pair_id l) ->
  exists l', Spawn (sorter_opts chunkSize) (weave (map item l)) sched = Ok (map item l') /\ l' ≡ₚ l /\ StronglySorted pair_lt l'.
Proof.
  intros [Hfed Hcl] Hc Hin Hd.
  destruct (Spawn_cases (sorter_opts chunkSize) is_item lesserItem_weak_order (weave (map item l)) sched)
    as [(out & E & Hp & Ho)|[_ Hr]]; [done| | |rewrite Hfed in Hp|by rewrite Hcl in Hr].
  - rewrite Hfed. apply Forall_map. eapply Forall_impl; [exact Hin|]. intros [v p] [Hv Hs]. unfold item_ok, item.
    rewrite <- sizeOfSorterItem_len. unfold small_pair, sizeOfSorterItem, TimestampSize, SizeKeyLength in *. cbn [fst snd] in *.
    pose proof (zlen_nonneg (value_of p)). destruct (kv_Delete p); lia.
  - rewrite Hfed. apply Forall_map. eapply Forall_impl; [exact Hin|]. intros x Hx. exists x.1, x.2. by apply pair_item_of.
  - destruct (Permutation_map_inv _ _ Hp) as (l' & -> & Hp'). exists l'. split; [done|]. split; [done|].
    apply ordered_strict; [by rewrite <- Hp'| |done]. change (NoDup (pair_id <$> l')). by rewrite <- Hp'.
Qed.

Lemma write_sorted prefix sstFileSize w l :
  0 < sstFileSize -> sst_current w = None -> l <> [] -> Forall pair_in l -> StronglySorted pair_lt l ->
  exists w' files, (sst_Open ;; write_items prefix sstFileSize [] (map item l) ;; sst_Finish) w = (w', Ok tt) /\
    sst_files w' = sst_files w ++ map (map (entry_of prefix)) files /\ sst_current w' = None /\ concat files = l /\
    Forall (fun f => f <> []) files /\
    StronglySorted (fun f g => forall x y, x ∈ f -> y ∈ g -> bytes_lt (kv_Key x.2) (kv_Key y.2)) files.
Proof.
  intros Hsz Hc Hne Hin Hs. destruct (Open_ok w Hc) as (w1 & E1 & Hf1 & Hc1).
  destruct (write_items_ok prefix sstFileSize Hsz l w1 [] [] Hc1 Hin Hs) as (w2 & files & file & E2 & [Hf2 Hc2 Hco Hn Hb]); [done|].
  destruct (Finish_ok w2 _ Hc2) as (w3 & E3 & Hf3 & Hc3).
  { specialize (Hn Hne). apply Forall_app in Hn as [_ Hn]. apply Forall_cons in Hn as [Hn _]. by destruct file. }
  exists w3, (files ++ [file]). split; [unfold mbind, SE_bind; by rewrite E1, E2|].
  rewrite Hf3, Hf2, Hf1, map_app, <- app_assoc. split; [done|]. split; [done|]. split; [exact Hco|]. split; [by apply Hn|done].
Qed.

Lemma StronglySorted_fmap {A B} (f : A -> B) (R : A -> A -> Prop) (S : B -> B -> Prop) l :
  (forall x y, x ∈ l -> y ∈ l -> R x y -> S (f x) (f y)) -> StronglySorted R l -> StronglySorted S (map f l).
Proof.
  intros Hf. induction 1 as [|x l Hs IH Hx]; cbn [map]; constructor.
  - apply IH. intros. apply Hf; [by right..|done].
  - rewrite Forall_forall in Hx. apply Forall_map, Forall_forall. intros y Hy. apply Hf; [by left|by right|by apply Hx].
Qed.

(** What SST files must be for the change sets [vs] of a store. *)
Record loads (store : bytes) (vs : list (Z * ChangeSet)) (files : list (list sst_entry)) : Prop := {
  (** Ingesting them gives the database that feeding the change sets gives. *)
  ld_same : forall m, foldl apply_op m (map entry_op (concat files)) = foldl apply_op m (feed_ops store vs);
  (** The entries are in the strict order of the comparator. *)
  ld_ordered : StronglySorted entry_lt (concat files);
  ld_nonempty : Forall (fun f => f <> []) files;
  (** No user key is in two files. *)
  ld_apart : StronglySorted files_before files;
  ld_prefix : Forall (Forall (fun e => exists k, se_key e = storePrefix store ++ k)) files
}.

Lemma loads_pairs store vs files :
  concat files ≡ₚ version_pairs vs -> Forall pair_in (version_pairs vs) -> NoDup (map pair_id (version_pairs vs)) ->
  StronglySorted pair_lt (concat files) -> Forall (fun f => f <> []) files ->
  StronglySorted (fun f g => forall x y, x ∈ f -> y ∈ g -> bytes_lt (kv_Key x.2) (kv_Key y.2)) files ->
  loads store vs (map (map (entry_of (storePrefix store))) files).
Proof.
  intros Hp Hin Hd Hs Hn Hb. assert (Hin' : Forall pair_in (concat files)) by (by rewrite Hp). split.
  - intros m. rewrite feed_ops_entries, <- concat_map. apply apply_entries_perm; [done|done|].
    change (NoDup (pair_id <$> concat files)). by rewrite Hp.
  - rewrite <- concat_map. rewrite Forall_forall in Hin'. apply (StronglySorted_fmap _ pair_lt); [|done].
    intros x y Hx Hy. apply entry_lt_pair; auto.
  - apply Forall_map. eapply Forall_impl; [exact Hn|]. by intros [|x f].
  - eapply StronglySorted_fmap; [|exact Hb]. intros f g _ _ Hfg x y Hx Hy.
    apply list_elem_of_In, in_map_iff in Hx as (a & <- & Ha). apply list_elem_of_In, in_map_iff in Hy as (b & <- & Hb').
    cbn [entry_of se_key]. unfold bytes_lt. rewrite Compare_prefix. apply Hfg; by apply list_elem_of_In.
  - apply Forall_map, Forall_true. intros f. apply Forall_map, Forall_true. intros x. by eexists.
Qed.

(** The files of a store, in some order and some of them left out when they are empty. *)
Lemma convert_files_ok store (files : list (list (Z * ChangeSet) * Z)) vs sstFileSize chunkSize weave sched w :
  fair weave sched -> chunkSize <= 2 ^ 62 -> 0 < sstFileSize -> sst_current w = None ->
  Forall (fun f => good_file f.1) files -> concat (map (fun f => version_pairs f.1) files) ≡ₚ version_pairs vs ->
  Forall pair_in (version_pairs vs) -> NoDup (map pair_id (version_pairs vs)) ->
  exists w' fs, convert_files store (map (fun f => (file_bytes f.1, f.2)) files) sstFileSize chunkSize weave sched w = (w', Ok tt) /\
    sst_files w' = sst_files w ++ fs /\ sst_current w' = None /\ loads store vs fs.
Proof.
  intros Hfair Hc Hsz Hw Hg Hsent Hin Hd. unfold convert_files. pose proof (send_files_ok files [] Hg) as Hsend.
  set (sent := concat (map (fun f => version_pairs f.1) files)) in *.
  assert (Hnil : sent = [] -> loads store vs []).
  { intros E. rewrite E in Hsent. by apply (loads_pairs store vs []); [| | |constructor..]. }
  destruct files as [|f files]; [exists w, []; split; [done|]; rewrite app_nil_r; by auto|]. clearbody sent.
  cbn [map] in *. unfold mbind at 1, SE_bind at 1, lift at 1. rewrite Hsend.
  destruct sent as [|x sent]; [exists w, []; split; [done|]; rewrite app_nil_r; by auto|].
  assert (Hd' : NoDup (map pair_id (x :: sent))) by (change (NoDup (pair_id <$> x :: sent)); by rewrite Hsent).
  destruct (sorted_pairs chunkSize weave sched (x :: sent) Hfair Hc) as (l & Esp & Hpl & Hsl); [by rewrite Hsent|done|].
  destruct (write_sorted (storePrefix store) sstFileSize w l Hsz Hw) as (w' & fs & E & Hf & Hc' & <- & Hn & Hb);
    [by intros ->; apply Permutation_nil_cons in Hpl|by rewrite Hpl, Hsent|done|].
  exists w', (map (map (entry_of (storePrefix store))) fs). cbn [map app] in *. unfold mbind at 1, SE_bind at 1, lift at 1.
  rewrite Esp. split; [exact E|]. split; [done|]. split; [done|]. apply loads_pairs; try done. by rewrite Hpl.
Qed.

(** Bulk loading: converting the change set files of a store writes SST files that load the
    change sets.  Their entries are those of [FeedChangeSet] for every version, so that
    ingesting the files gives the same database as feeding the change sets.  Within the files
    and from file to file the entries are in the strict order of the comparator (ascending
    keys, newest version first), as the writer of SST files requires; no file is empty; and no
    user key is in two files, as the ingestion requires.  This holds for every chunk and file
    size and however the sorter interleaves. *)
Theorem convert_loads_changesets store (vss : list (list (Z * ChangeSet))) sstFileSize chunkSize weave sched w :
  fair weave sched -> chunkSize <= 2 ^ 62 -> 0 < sstFileSize -> sst_current w = None ->
  Forall good_file vss -> NoDup (map pair_id (version_pairs (concat vss))) ->
  exists w' files, convertSingleStore store (map file_bytes vss) sstFileSize chunkSize weave sched w = (w', Ok tt) /\
    sst_files w' = sst_files w ++ files /\ loads store (concat vss) files.
Proof.
  intros Hfair Hc Hsz Hw Hg Hd. unfold convertSingleStore. destruct (SortFiles_ok vss) as (files & Es & Hp).
  unfold mbind at 1, SE_bind at 1, lift at 1. rewrite Es.
  destruct (convert_files_ok store files (concat vss) sstFileSize chunkSize weave sched w) as (w' & fs & E & Hf & _ & Hl); try done.
  - apply (proj1 (Forall_map fst good_file files)). rewrite Hp. rewrite Forall_forall in *. intros vs Hvs. apply Hg.
    by apply list_elem_of_filter in Hvs as [_ ?].
  - rewrite <- concat_nonempty_files, <- map_map. apply concat_perm, Permutation_map, Hp.
  - by apply version_pairs_in.
  - by exists w', fs.
Qed.
End conversion.

(** ** A writer in memory *)

Record memSst := { ms_files : list (list sst_entry); ms_current : option (list sst_entry) }.

Definition add_check (file : list sst_entry) (key ts : bytes) : bool :=
  match last file with
  | None => true
  | Some e => match compare (se_key e ++ se_ts e) (key ++ ts) with Ok c => c =? -1 | _ => false end
  end.

Definition mem_add (e : sst_entry) : SE memSst unit := fun w =>
  match ms_current w with
  | Some file =>
      if add_check file (se_key e) (se_ts e) then ({| ms_files := ms_files w; ms_current := Some (file ++ [e]) |}, Ok tt)
      else (w, Err "keys must be added in strict ascending order")
  | None => (w, Err "file is not opened")
  end.

#[export] Instance mem_sst : SstOps memSst := {|
  sst_Open w := match ms_current w with
    | None => ({| ms_files := ms_files w; ms_current := Some [] |}, Ok tt)
    | Some _ => (w, Err "file is open") end;
  sst_PutWithTS key ts v := mem_add {| se_key := key; se_ts := ts; se_value := Some v |};
  sst_DeleteWithTS key ts := mem_add {| se_key := key; se_ts := ts; se_value := None |};
  sst_Finish w := match ms_current w with
    | Some ((_ :: _) as file) => ({| ms_files := ms_files w ++ [file]; ms_current := None |}, Ok tt)
    | _ => (w, Err "cannot create sst file with no entries") end;
  sst_FileSize w := 32 * zlen (default [] (ms_current w))
|}.

Lemma mem_add_ok w file e :
  ms_current w = Some file -> can_add file (se_key e) (se_ts e) ->
  exists w', mem_add e w = (w', Ok tt) /\ ms_files w' = ms_files w /\ ms_current w' = Some (file ++ [e]).
Proof.
  intros Hc Ha. unfold mem_add. rewrite Hc. replace (add_check file (se_key e) (se_ts e)) with true; [by eexists|].
  unfold can_add, add_check in *. destruct (last file); [by rewrite Ha|done].
Qed.

#[export] Instance mem_sst_laws : SstLaws memSst.
Proof.
  refine {| sst_files := ms_files; sst_current := ms_current |}.
  - intros w Hc. cbn. rewrite Hc. by eexists.
  - intros w file key ts v Hc Ha. by apply mem_add_ok.
  - intros w file key ts Hc Ha. by apply mem_add_ok.
  - intros w file Hc Hf. cbn. rewrite Hc. destruct file; [done|]. by eexists.
  - intros w Hc. cbn. by rewrite Hc.
Defined.

Definition kvp (key : string) (value : option string) : KVPair :=
  {| kv_Delete := bool_decide (value = None); kv_Key := str key; kv_Value := str <$> value |}.
Definition sample_files : list (list (Z * ChangeSet)) :=
  [[(5, {| Pairs := [kvp "b" (Some "4"); kvp "a" None] |})]; [];
   [(1, {| Pairs := [kvp "a" (Some "1"); kvp "b" (Some "2")] |}); (2, {| Pairs := [kvp "ab" (Some "3")] |})]].
Definition sample_sst : memSst := {| ms_files := []; ms_current := None |}.

Lemma sample_good : Forall good_file sample_files.
Proof.
  repeat (apply Forall_cons; split; [|]); [..|constructor]; (split; [|repeat constructor; by vm_compute|by vm_compute]);
    repeat constructor; by vm_compute.
Qed.

Lemma feed_fair : fair (map EFeed) [].
Proof.
  split.
  - induction items as [|x l IH]; [done|]. unfold fed in *. cbn. by rewrite IH.
  - unfold reported. induction items as [|x l IH]; [done|]. done.
Qed.

Lemma convert_loads_changesets_witness :
  exists w' files, convertSingleStore (str "acc") (map file_bytes sample_files) 64 30 (map EFeed) [] sample_sst = (w', Ok tt) /\
    ms_files w' = files /\ loads (str "acc") (concat sample_files) files.
Proof.
  destruct (convert_loads_changesets (str "acc") sample_files 64 30 (map EFeed) [] sample_sst) as (w' & files & E & Hf & Hl).
  - exact feed_fair.
  - lia.
  - lia.
  - reflexivity.
  - exact sample_good.
  - apply (bool_decide_unpack _). by vm_compute.
  - exists w', files. split; [exact E|]. split; [exact Hf|exact Hl].
Defined.

(** Two files; all versions of a key are in one of them. *)
Lemma convert_sample :
  map (map (fun e => (se_key e, le_get (se_ts e))))
    (ms_files (convertSingleStore (str "acc") (map file_bytes sample_files) 64 30 (map EFeed) [] sample_sst).1) =
  [[(str "s/k:acc/a", 5); (str "s/k:acc/a", 1)]; [(str "s/k:acc/ab", 2); (str "s/k:acc/b", 5); (str "s/k:acc/b", 1)]].
Proof. vm_compute. reflexivity. Qed.
