(* ===== verification/ChangeSetDir.v ===== *)
(** * Directories of change set files (client/changeset/changeset.go, convert_to_sst.go)

    The change set files of a store are in a directory of its name, plain or compressed as
    their suffix says.  Of [compress/zlib] and of snappy the model has the contents a whole
    stream decodes to. *)

From Stdlib Require Import Strings.Byte ZArith Lia.
From stdpp Require Import base list numbers strings gmap sorting.
From S2P Require Import Prelude Binary Codec Proto State Sort ExtSort MultiTree SnapshotDir ChangeSetFile ChangeSetFileInv Convert ConvertInv.
Local Open Scope Z_scope.

Definition ZlibFileSuffix : bytes := str ".zz".
Definition SnappyFileSuffix : bytes := str ".snappy".

(** [compress/zlib]: what a writer of a level leaves, and what a reader makes of it. *)
Class ZlibOps := { zlib_encode : Z -> bytes -> bytes; zlib_decode : bytes -> res bytes }.
Class ZlibLaws `{ZlibOps} := {
  zlib_decode_encode : forall level bz, -2 <= level <= 9 -> zlib_decode (zlib_encode level bz) = Ok bz
}.

(** Streams that are not compressed. *)
#[export] Instance stored_zlib : ZlibOps := {| zlib_encode _ bz := bz; zlib_decode bz := Ok bz |}.
#[export] Instance stored_zlib_laws : ZlibLaws := {| zlib_decode_encode _ _ _ := eq_refl |}.

(** The directories of the stores, with their files. *)
Abbreviation changeSetDir := (gmap bytes (gmap bytes bytes)).

Section files.
  Context `{SortOps, SnappyOps, ZlibOps}.

(** What the reader of a file gives. *)
Definition openChangeSetFile (fileName data : bytes) : res bytes :=
  if HasSuffix fileName ZlibFileSuffix then zlib_decode data
  else if HasSuffix fileName SnappyFileSuffix then snappy_decode data
  else Ok data.

(** [SortFilesByFirstVerson] on names: the files that are not empty, as their contents, with
    their first versions. *)
Fixpoint nonEmptyNames (files : list (bytes * bytes)) : res (list (bytes * Z)) :=
  match files with
  | [] => Ok []
  | (name, data) :: files =>
      match (contents ← openChangeSetFile name data; version ← ReadFirstVersion contents; Ok (contents, version)) with
      | Ok f => rest ← nonEmptyNames files; Ok (f :: rest)
      | Err e => if bool_decide (e = EOF) then nonEmptyNames files else Err e
      | Panic => Panic
      end
  end.

Definition scanChangeSetFiles (dir : changeSetDir) (store : bytes) : res (list (bytes * Z)) :=
  match dir !! store with
  | None => Ok []
  | Some files => l ← nonEmptyNames (ReadDir files); Ok (sort_Slice (fun a b => a.2 <? b.2) l)
  end.

(** ** Files that are intact *)

Definition intact (f : bytes * bytes) (vs : list (Z * ChangeSet)) : Prop := openChangeSetFile f.1 f.2 = Ok (file_bytes vs).

(** The first version of a file that is not empty. *)
Definition first_version (vs : list (Z * ChangeSet)) : Z := match vs with [] => 0 | (v, _) :: _ => u64 v end.

Lemma ReadFirstVersion_first v cs vs : ReadFirstVersion (file_bytes ((v, cs) :: vs)) = Ok (u64 v).
Proof.
  unfold ReadFirstVersion, file_bytes. cbn [map concat]. unfold version_bytes at 1. rewrite <- app_assoc.
  pose proof (fun rest => ReadFull_app (le_u64 (u64 v)) rest) as E. rewrite zlen_le_u64 in E. rewrite E.
  cbn [mbind res_bind]. by rewrite le_get_u64 by apply u64_range.
Qed.

Lemma nonEmptyNames_intact files vss :
  Forall2 intact files vss ->
  nonEmptyNames files = Ok (map (fun vs => (file_bytes vs, first_version vs)) (filter (fun vs => vs <> []) vss)).
Proof.
  induction 1 as [|[name data] vs files vss Hf Hfs IH]; [done|]. cbn [nonEmptyNames]. unfold intact in Hf. cbn [fst snd] in Hf.
  rewrite Hf. cbn [mbind res_bind]. destruct vs as [|[v cs] vs].
  - assert (E0 : ReadFirstVersion (file_bytes []) = Err EOF) by done. rewrite E0. cbn [mbind res_bind]. rewrite bool_decide_true by done.
    rewrite filter_cons_False by (by intros []). exact IH.
  - rewrite ReadFirstVersion_first. cbn [mbind res_bind]. rewrite IH. rewrite filter_cons_True by done. done.
Qed.
End files.

(** ** Sorting by the first version *)

Section sorting.
  Context `{SortLaws, SnappyOps, ZlibOps}.

Definition by_version (a b : bytes * Z) : bool := a.2 <? b.2.

Lemma by_version_weak_order : weak_order (fun _ => True) by_version.
Proof. unfold by_version. split; intros *; rewrite ?Z.ltb_lt, !Z.ltb_ge; lia. Qed.

(** Sorting finds the order of distinct versions. *)
Lemma sort_versions (l l' : list (bytes * Z)) :
  l ≡ₚ l' -> StronglySorted (fun a b => a.2 < b.2) l' -> sort_Slice by_version l = l'.
Proof.
  intros Hp Hs. apply (StronglySorted_unique_strong (fun a b => by_version b a = false)).
  - intros x y Hx Hy Hxy%Z.ltb_ge Hyx%Z.ltb_ge. rewrite (sort_perm by_version l), Hp in Hx.
    apply list_elem_of_lookup in Hx as [i Hi]. apply list_elem_of_lookup in Hy as [j Hj].
    destruct (Nat.lt_trichotomy i j) as [Hij|[-> |Hij]]; [|congruence|].
    + pose proof (StronglySorted_lookup _ _ i j x y Hs Hi Hj Hij). simpl in *. lia.
    + pose proof (StronglySorted_lookup _ _ j i y x Hs Hj Hi Hij). simpl in *. lia.
  - apply (sort_ordered (fun _ => True)); [apply by_version_weak_order|by apply Forall_true].
  - clear -Hs. induction Hs as [|a l' Hs IH Hf]; constructor; [done|]. eapply Forall_impl; [exact Hf|].
    intros b Hb. apply Z.ltb_ge. simpl in Hb. lia.
  - etrans; [apply sort_perm|exact Hp].
Qed.

(** The files of a store in the order of their versions. *)
Lemma scan_intact dir store files vss vss' :
  dir !! store = Some files -> Forall2 intact (ReadDir files) vss ->
  filter (fun vs => vs <> []) vss ≡ₚ vss' -> StronglySorted (fun a b => first_version a < first_version b) vss' ->
  scanChangeSetFiles dir store = Ok (map (fun vs => (file_bytes vs, first_version vs)) vss').
Proof.
  intros Hd Hi Hp Hs. unfold scanChangeSetFiles. rewrite Hd, (nonEmptyNames_intact _ _ Hi). cbn [mbind res_bind]. f_equal.
  apply sort_versions; [by apply Permutation_map|]. clear -Hs.
  induction Hs as [|vs vss Hs IH Hf]; [constructor|]. constructor; [done|]. apply Forall_map. exact Hf.
Qed.
End sorting.
