(* ===== verification/Dump.v ===== *)
(** * Dumping change sets (client/changeset/dump.go)

    The command [dump] extracts the change sets of the versions of the IAVL trees of an
    application into change set files.  The versions of a store are cut into chunks, one
    file each; a chunk is cut into ranges, which tasks write to temporary files that are
    then concatenated.  [cosmos/iavl] is an interface: its trees, the keys of its database
    and their formats. *)

From Stdlib Require Import Strings.Byte ZArith Lia.
From stdpp Require Import base list numbers strings pretty gmap sorting.
From S2P Require Import Prelude Binary Codec Proto State Sort ExtSort MultiTree SnapshotDir VersionDB.
From S2P Require Import ChangeSetFile ChangeSetFileInv Convert ConvertInv ChangeSetDir.
Local Open Scope Z_scope.

(** [%d] *)
Definition decimal (v : Z) : bytes := str (pretty v).

(** [binary.BigEndian] on the first bytes of a slice; a short slice panics. *)
Definition be_get (bz : bytes) : Z := le_get (reverse bz).
Definition be_at (n : nat) (bz : bytes) : res Z := if (length bz <? n)%nat then Panic else Ok (be_get (take n bz)).

Class IavlOps (D : Type) := {
  (** [LoadVersion(0)] of the tree of a prefix. *)
  iavl_LoadLatest : D -> bytes -> res Z;
  (** The calls of the callback, the end of the range included. *)
  TraverseStateChanges : D -> bytes -> Z -> Z -> res (list (Z * ChangeSet));
  (** The keys of an iterator over the database of a prefix. *)
  prefix_Iterator : D -> bytes -> bytes -> bytes -> res (list bytes);
  rootKey : Z -> bytes;
  rootKey_Scan : bytes -> Z;
  nodeKeyV1 : Z -> bytes;
  nodeKeyV1_Scan : bytes -> bytes
}.

(** ** Ranges *)

(** [Start] included, [End_] excluded. *)
Record Range := { Start : Z; End_ : Z }.

(** The loop that cuts from [i] to [end_]. *)
Fixpoint split_loop (fuel : nat) (chunkSize i end_ : Z) : res (list Range) :=
  if i <? end_ then
    match fuel with
    | O => out_of_fuel
    | S fuel =>
        let next := i64 (i + chunkSize) in
        rest ← split_loop fuel chunkSize next end_;
        Ok ({| Start := i; End_ := if end_ <? next then end_ else next |} :: rest)
    end
  else Ok [].

(** A range has at least one version when the loop ends. *)
Definition splitWorkLoad (workers : Z) (full : Range) : res (list Range) :=
  if workers =? 0 then Panic
  else
    let chunkSize := Z.quot (i64 (End_ full - Start full + workers - 1)) workers in
    split_loop (Z.to_nat (End_ full - Start full)) chunkSize (Start full) (End_ full).

(** The cutting into chunks has the same loop. *)
Definition split_chunks (chunkSize start end_ : Z) : res (list Range) :=
  split_loop (S (Z.to_nat (Z.div (end_ - start) chunkSize))) chunkSize start end_.

(** ** Files *)

Record OutDir := { od_tmp : gmap bytes bytes; od_stores : changeSetDir }.

Definition with_tmp (o : OutDir) (m : gmap bytes bytes) : OutDir := {| od_tmp := m; od_stores := od_stores o |}.

Record chunk := { ck_beginVersion : Z; ck_taskFiles : list bytes; ck_err : option error }.

Definition task_file (store : bytes) (start : Z) : bytes := str "tmp-" ++ store ++ str "-" ++ decimal start ++ SnappyFileSuffix.
Definition chunk_file (beginVersion zlibLevel : Z) : bytes :=
  str "block-" ++ decimal beginVersion ++ if 0 <? zlibLevel then ZlibFileSuffix else [].

Section dump.
  Context `{SnappyOps, ZlibOps} {D : Type} `{IavlOps D}.
  Variable db : D.
  Variable store : bytes.

(** A task; what a task that fails leaves in its file is not tracked. *)
Definition dumpRangeBlocks (outputFile : bytes) (blockRange : Range) : SE OutDir unit :=
  changes ← lift (TraverseStateChanges db (storePrefix store) (Start blockRange) (i64 (End_ blockRange - 1)));
  data ← lift (write_file changes);
  modify (fun o => with_tmp o (<[outputFile := snappy_encode data]> (od_tmp o))).

(** The tasks of a chunk: their files, and the error of the group. *)
Fixpoint run_tasks (ranges : list Range) : SE OutDir (list bytes * option error) :=
  match ranges with
  | [] => mret ([], None)
  | r :: ranges => fun o =>
      let taskFile := task_file store (Start r) in
      match dumpRangeBlocks taskFile r o with
      | (o, Panic) => (o, Panic)
      | (o, Ok _) => ('(files, err) ← run_tasks ranges; mret (taskFile :: files, err)) o
      | (o, Err e) => ('(files, err) ← run_tasks ranges; mret (taskFile :: files, Some e)) o
      end
  end.

Fixpoint submit_chunks (concurrency : Z) (chunks : list Range) : SE OutDir (list chunk) :=
  match chunks with
  | [] => mret []
  | r :: chunks =>
      ranges ← lift (splitWorkLoad concurrency r);
      '(files, err) ← run_tasks ranges;
      rest ← submit_chunks concurrency chunks;
      mret ({| ck_beginVersion := Start r; ck_taskFiles := files; ck_err := err |} :: rest)
  end.

(** [copyTmpFile] and the removal, for the files of a chunk. *)
Fixpoint copy_tmp (taskFiles : list bytes) : SE OutDir bytes :=
  match taskFiles with
  | [] => mret []
  | f :: taskFiles =>
      o ← gets (fun o => o);
      match od_tmp o !! f with
      | None => throw ErrNotExist
      | Some bz =>
          data ← lift (snappy_decode bz);
          modify (fun o => with_tmp o (delete f (od_tmp o))) ;;
          rest ← copy_tmp taskFiles;
          mret (data ++ rest)
      end
  end.

(** A write to a file of the directory of the store. *)
Definition put_file (output data : bytes) : SE OutDir unit :=
  modify (fun o => {| od_tmp := od_tmp o;
    od_stores := <[store := <[output := data]> (default ∅ (od_stores o !! store))]> (od_stores o) |}).

(** [MkdirAll] of the directory of the store. *)
Definition make_dir : SE OutDir unit :=
  modify (fun o => {| od_tmp := od_tmp o; od_stores := <[store := default ∅ (od_stores o !! store)]> (od_stores o) |}).

(** The buffered writers are flushed at the end; after an error the file is incomplete, and
    the model has none of the data in it. *)
Definition collect (zlibLevel : Z) (c : chunk) : SE OutDir unit :=
  make_dir ;;
  let output := chunk_file (ck_beginVersion c) zlibLevel in
  match ck_err c with
  | Some e => throw e
  | None =>
      put_file output [] ;;
      (if 9 <? zlibLevel then throw "zlib: invalid compression level" else mret tt) ;;
      data ← copy_tmp (ck_taskFiles c);
      put_file output (if 0 <? zlibLevel then zlib_encode zlibLevel data else data)
  end.

Definition dump_store (start end_ chunkSize concurrency zlibLevel : Z) : SE OutDir unit :=
  ranges ← lift (split_chunks chunkSize start end_);
  chunks ← submit_chunks concurrency ranges;
  for_each (collect zlibLevel) chunks.

(** ** The first version *)

Definition IAVLV0 : Z := 0.

(** The first root: the node of nonce 1 of a version. *)
Fixpoint first_root (keys : list bytes) : res Z :=
  match keys with
  | [] => Ok 0
  | key :: keys =>
      let nk := nodeKeyV1_Scan key in
      version ← be_at 8 nk;
      nonce ← be_at 4 (drop 8 nk);
      if nonce =? 1 then Ok (i64 version) else first_root keys
  end.

Definition getFirstVersion (iavlVersion : Z) : res Z :=
  if iavlVersion =? IAVLV0 then
    keys ← prefix_Iterator db (storePrefix store) (rootKey 1) (rootKey MaxInt64);
    match keys with [] => Ok 0 | key :: _ => Ok (rootKey_Scan key) end
  else
    keys ← prefix_Iterator db (storePrefix store) (nodeKeyV1 1) (nodeKeyV1 MaxInt64);
    first_root keys.
End dump.

(** ** The command *)

Section command.
  Context `{SnappyOps, ZlibOps} {D : Type} `{IavlOps D}.

Definition DumpChangeSet (db : D) (stores : list bytes) (startVersion endVersion concurrency chunkSize zlibLevel iavlVersion : Z)
    : SE OutDir unit :=
  endVersion ← (if endVersion =? 0 then
                  store ← lift (of_option (head stores));
                  latestVersion ← lift (iavl_LoadLatest db (storePrefix store));
                  mret (i64 (latestVersion + 1))
                else mret endVersion);
  for_each (fun store =>
    storeStartVersion ← lift (getFirstVersion db store iavlVersion);
    if storeStartVersion =? 0 then mret tt
    else
      let storeStartVersion := if storeStartVersion <? startVersion then startVersion else storeStartVersion in
      dump_store db store storeStartVersion endVersion chunkSize concurrency zlibLevel) stores.
End command.
