(* ===== verification/DumpInv.v ===== *)
(** * The dumped files have every change set

    The ranges of the tasks are a partition of the versions, the chunk files have the change
    sets of their versions, and scanning the directory of a store gives all of them in the
    order of the versions. *)

From Stdlib Require Import Strings.Byte ZArith Lia.
From stdpp Require Import base list numbers strings pretty gmap sorting.
From S2P Require Import Prelude Binary Codec Proto State Sort ExtSort MultiTree SnapshotDir SnapshotDirInv VersionDB.
From S2P Require Import ExtSortInv ChangeSetFile ChangeSetFileInv Convert ConvertInv ChangeSetDir Dump.
Local Open Scope Z_scope.

(** ** Partitions *)

(** Ranges that are not empty and follow each other from [a] to [b]. *)
Fixpoint contiguous (a : Z) (rs : list Range) (b : Z) : Prop :=
  match rs with
  | [] => a = b
  | r :: rs => Start r = a /\ a < End_ r /\ contiguous (End_ r) rs b
  end.

Lemma contiguous_le a rs b : contiguous a rs b -> a <= b.
Proof. revert a. induction rs as [|r rs IH]; intros a; cbn [contiguous]; [lia|]. intros (_ & Hlt & Hc). apply IH in Hc. lia. Qed.

(** The loop ends after as many rounds as steps of [chunkSize] are needed. *)
Lemma split_loop_ok fuel chunkSize i end_ :
  0 < chunkSize -> 0 <= i -> end_ + chunkSize < 2 ^ 63 -> end_ <= i + Z.of_nat fuel * chunkSize ->
  exists rs, split_loop fuel chunkSize i end_ = Ok rs /\ contiguous i rs (Z.max i end_) /\
    (forall n, end_ <= i + Z.of_nat n * chunkSize -> (length rs <= n)%nat).
Proof.
  intros Hc. revert i. induction fuel as [|fuel IH]; intros i Hi He Hf; cbn [split_loop].
  - rewrite (proj2 (Z.ltb_ge _ _)) by lia. exists []. split; [done|]. split; [cbn; lia|]. intros. cbn. lia.
  - destruct (Z.ltb_spec i end_) as [Hlt|Hge]; [|exists []; split; [done|]; split; [cbn; lia|]; intros; cbn; lia].
    rewrite i64_small by lia. destruct (IH (i + chunkSize)) as (rs & -> & Hrs & Hlen); [lia|lia|lia|]. cbn [mbind res_bind].
    eexists. split; [done|]. split.
    + cbn [contiguous Start End_]. split; [done|]. destruct (Z.ltb_spec end_ (i + chunkSize)); split; try lia.
      * destruct rs as [|r rs]; cbn [contiguous] in *; [lia|]. destruct Hrs as (_ & Hl & Hrs%contiguous_le). lia.
      * replace (Z.max i end_) with (Z.max (i + chunkSize) end_) by lia. done.
    + intros [|n] Hn; [lia|]. cbn [length]. apply le_n_S, Hlen. lia.
Qed.

Definition range_ok (r : Range) : Prop := 0 <= Start r <= End_ r /\ End_ r < 2 ^ 62.

(** The work of a range is cut into at most as many contiguous ranges as there are workers. *)
Lemma splitWorkLoad_ok workers full :
  1 <= workers < 2 ^ 31 -> range_ok full ->
  exists rs, splitWorkLoad workers full = Ok rs /\ contiguous (Start full) rs (End_ full) /\ zlen rs <= workers.
Proof.
  intros Hw [Hs He]. unfold splitWorkLoad. rewrite (proj2 (Z.eqb_neq _ _)) by lia. rewrite i64_small by lia.
  set (n := End_ full - Start full) in *. replace (n + workers - 1) with (n + (workers - 1)) by lia.
  set (c := Z.quot (n + (workers - 1)) workers).
  assert (Hc : n <= workers * c <= n + (workers - 1)).
  { subst c. rewrite Z.quot_div_nonneg by lia. pose proof (Z.div_mod (n + (workers - 1)) workers ltac:(lia)).
    pose proof (Z.mod_pos_bound (n + (workers - 1)) workers ltac:(lia)). lia. }
  destruct (Z.eq_dec n 0) as [Hz|Hnz].
  - exists []. replace (Z.to_nat n) with 0%nat by lia. cbn [split_loop]. rewrite (proj2 (Z.ltb_ge _ _)) by lia.
    split; [done|]. split; [cbn; lia|]. unfold zlen. cbn. lia.
  - assert (Hpos : 0 < c) by nia.
    destruct (split_loop_ok (Z.to_nat n) c (Start full) (End_ full)) as (rs & E & Hrs & Hlen); [done|lia|nia|nia|].
    exists rs. split; [done|]. rewrite Z.max_r in Hrs by lia. split; [done|].
    specialize (Hlen (Z.to_nat workers)). unfold zlen. specialize (Hlen ltac:(nia)). lia.
Qed.

(** ** The trees of cosmos/iavl *)

(** The key of a node: its version and its nonce, in big-endian order. *)
Definition node_key (x : Z * Z) : bytes := reverse (le_u64 x.1) ++ reverse (le_u32 x.2).

(** Iterating over the keys of the node format gives a key for every node, in the order of
    versions and nonces; the root of a version has nonce 1. *)
Class IavlLaws (D : Type) `{IavlOps D} := {
  (** The change set that led to a version. *)
  changes : D -> bytes -> Z -> option ChangeSet;
  TraverseStateChanges_lists : forall d p a b, 0 < a -> b < MaxInt64 ->
    TraverseStateChanges d p a b = Ok (omap (fun v => pair v <$> changes d p v) (seqZ a (b - a + 1)));
  LoadLatest_last : forall d p, exists v, iavl_LoadLatest d p = Ok v /\ 0 <= v < MaxInt64 /\
    forall w, v < w -> changes d p w = None;
  iavl_roots : D -> bytes -> list Z;
  roots_sorted : forall d p, StronglySorted Z.lt (iavl_roots d p);
  roots_changes : forall d p v, v ∈ iavl_roots d p <-> 1 <= v < MaxInt64 /\ is_Some (changes d p v);
  rootKeys_listed : forall d p, exists keys,
    prefix_Iterator d p (rootKey 1) (rootKey MaxInt64) = Ok keys /\ map rootKey_Scan keys = iavl_roots d p;
  iavl_nodes : D -> bytes -> list (Z * Z);
  nodes_sorted : forall d p, StronglySorted (fun x y => x.1 <= y.1) (iavl_nodes d p);
  nodes_range : forall d p v n, (v, n) ∈ iavl_nodes d p -> 1 <= v < MaxInt64 /\ 0 <= n < 2 ^ 32;
  nodes_changes : forall d p v, (v, 1) ∈ iavl_nodes d p <-> 1 <= v < MaxInt64 /\ is_Some (changes d p v);
  nodeKeys_listed : forall d p, exists keys,
    prefix_Iterator d p (nodeKeyV1 1) (nodeKeyV1 MaxInt64) = Ok keys /\
    map nodeKeyV1_Scan keys = map node_key (iavl_nodes d p)
}.

Section dumped.
  Context `{SortLaws, SnappyLaws, ZlibLaws} {D : Type} `{IavlLaws D}.
  Variable db : D.
  Variable store : bytes.
  Implicit Types (a b : Z) (o : OutDir) (r : Range) (rs qs : list Range) (c : chunk).

(** The change sets of the versions from [a], [b] excluded. *)
Definition change_list (a b : Z) : list (Z * ChangeSet) :=
  omap (fun v => pair v <$> changes db (storePrefix store) v) (seqZ a (b - a)).
Definition range_changes r : list (Z * ChangeSet) := change_list (Start r) (End_ r).

Lemma change_list_app (a b c : Z) : a <= b <= c -> change_list a c = change_list a b ++ change_list b c.
Proof.
  intros Hb. unfold change_list. rewrite <- omap_app. f_equal. replace (c - a) with ((b - a) + (c - b)) by lia.
  rewrite seqZ_app by lia. do 2 f_equal. lia.
Qed.

Lemma change_list_nil a : change_list a a = [].
Proof. unfold change_list. by rewrite Z.sub_diag. Qed.

Lemma change_list_elem a b v cs : (v, cs) ∈ change_list a b -> a <= v < b.
Proof.
  unfold change_list. intros (w & Hw%elem_of_seqZ & E)%list_elem_of_omap.
  destruct (changes _ _ w); [|done]. injection E as -> _. lia.
Qed.

Lemma contiguous_changes a rs b : contiguous a rs b -> concat (map range_changes rs) = change_list a b.
Proof.
  revert a. induction rs as [|r rs IH]; intros a; cbn [contiguous map concat]; [by intros ->; rewrite change_list_nil|].
  intros (<- & Hlt & Hc). rewrite (IH _ Hc). unfold range_changes. apply contiguous_le in Hc.
  rewrite <- change_list_app by lia. done.
Qed.

Lemma file_ok_app vs vs' : file_ok (vs ++ vs') <-> file_ok vs /\ file_ok vs'.
Proof. apply Forall_app. Qed.

Lemma file_bytes_concat vss : file_bytes (concat vss) = concat (map file_bytes vss).
Proof. induction vss as [|vs vss IH]; [done|]. cbn [concat map]. rewrite <- IH. unfold file_bytes. by rewrite map_app, concat_app. Qed.

(** ** Tasks *)

Lemma str_inj s s' : str s = str s' -> s = s'.
Proof.
  unfold str. intros E. rewrite <- (String.string_of_list_byte_of_string s), <- (String.string_of_list_byte_of_string s').
  by rewrite E.
Qed.

Lemma decimal_inj v w : decimal v = decimal w -> v = w.
Proof. intros E%str_inj. by apply (inj pretty) in E. Qed.

Lemma task_file_inj v w : task_file store v = task_file store w -> v = w.
Proof. unfold task_file. intros E. apply app_inv_head, app_inv_head, app_inv_head, app_inv_tail in E. by apply decimal_inj. Qed.

Lemma dumpRangeBlocks_ok f r o :
  0 < Start r <= End_ r -> End_ r < 2 ^ 62 -> file_ok (range_changes r) ->
  dumpRangeBlocks db store f r o = (with_tmp o (<[f := snappy_encode (file_bytes (range_changes r))]> (od_tmp o)), Ok tt).
Proof.
  intros Hs He Hok. unfold dumpRangeBlocks, lift, mbind, SE_bind. rewrite i64_small by lia.
  rewrite TraverseStateChanges_lists by (unfold MaxInt64; lia).
  replace (End_ r - 1 - Start r + 1) with (End_ r - Start r) by lia. fold (change_list (Start r) (End_ r)). fold (range_changes r).
  rewrite write_file_bytes by done. done.
Qed.

(** The temporary files of a list of ranges. *)
Definition tmp_of r : bytes * bytes := (task_file store (Start r), snappy_encode (file_bytes (range_changes r))).

Lemma run_tasks_ok a rs b o :
  contiguous a rs b -> 0 < a -> b < 2 ^ 62 -> file_ok (change_list a b) ->
  exists o', run_tasks db store rs o = (o', Ok (map (fun r => task_file store (Start r)) rs, None)) /\
    od_stores o' = od_stores o /\ od_tmp o' = foldl (fun m r => <[(tmp_of r).1 := (tmp_of r).2]> m) (od_tmp o) rs.
Proof.
  revert a o. induction rs as [|r rs IH]; intros a o; cbn [contiguous run_tasks map foldl]; [by exists o|].
  intros (Hs & Hlt & Hc) Ha Hb Hok. pose proof (contiguous_le _ _ _ Hc) as Hle.
  rewrite (change_list_app a (End_ r) b), file_ok_app in Hok by lia. destruct Hok as [Hok1 Hok2].
  rewrite dumpRangeBlocks_ok; [|lia|lia|unfold range_changes; by rewrite Hs].
  destruct (IH (End_ r) (with_tmp o (<[(tmp_of r).1 := (tmp_of r).2]> (od_tmp o))) Hc) as (o' & E & Hst & Htmp); [lia|done|done|].
  exists o'. split; [|done]. unfold mbind, SE_bind. cbn [tmp_of fst snd] in E. by rewrite E.
Qed.

Lemma contiguous_starts a rs b r : contiguous a rs b -> r ∈ rs -> a <= Start r < b.
Proof.
  revert a. induction rs as [|q rs IH]; intros a; cbn [contiguous]; [by intros _ ?%elem_of_nil|].
  intros (Hs & Hlt & Hc) [->|Hr]%elem_of_cons; [apply contiguous_le in Hc; lia|]. specialize (IH _ Hc Hr). lia.
Qed.

Lemma tmp_foldl a rs b (m : gmap bytes bytes) :
  contiguous a rs b ->
  let m' := foldl (fun m r => <[(tmp_of r).1 := (tmp_of r).2]> m) m rs in
  (forall r, r ∈ rs -> m' !! (tmp_of r).1 = Some (tmp_of r).2) /\
  (forall f, f ∉ map (fun r => task_file store (Start r)) rs -> m' !! f = m !! f).
Proof.
  revert a m. induction rs as [|q rs IH]; intros a m; cbn [contiguous map foldl].
  { intros _. split; [by intros r ?%elem_of_nil|done]. }
  intros (Hs & Hlt & Hc). destruct (IH _ (<[(tmp_of q).1 := (tmp_of q).2]> m) Hc) as [Hin Hout]. split.
  - intros r [->|Hr]%elem_of_cons; [|by apply Hin]. rewrite Hout, lookup_insert_eq; [done|].
    intros (r' & E & Hr')%list_elem_of_fmap. apply task_file_inj in E.
    pose proof (contiguous_starts _ _ _ _ Hc Hr'). lia.
  - intros f Hf. apply not_elem_of_cons in Hf as [Hne Hf]. rewrite Hout, lookup_insert_ne; [done|by apply not_eq_sym|done].
Qed.

(** A chunk whose tasks are done. *)
Definition chunk_ok o r c : Prop :=
  ck_beginVersion c = Start r /\ ck_err c = None /\ exists qs,
    contiguous (Start r) qs (End_ r) /\ ck_taskFiles c = map (fun q => task_file store (Start q)) qs /\
    forall q, q ∈ qs -> od_tmp o !! (tmp_of q).1 = Some (tmp_of q).2.

Lemma chunk_ok_files o r c f : chunk_ok o r c -> f ∈ ck_taskFiles c -> exists s, f = task_file store s /\ Start r <= s < End_ r.
Proof.
  intros (_ & _ & qs & Hc & -> & _) (q & -> & Hq)%list_elem_of_fmap. exists (Start q). split; [done|].
  by apply (contiguous_starts _ _ _ _ Hc).
Qed.

(** The other temporary files do not matter. *)
Lemma chunk_ok_frame o o' r c :
  (forall f, f ∈ ck_taskFiles c -> od_tmp o' !! f = od_tmp o !! f) -> chunk_ok o r c -> chunk_ok o' r c.
Proof.
  intros Hf (Hb & He & qs & Hc & Ht & Hq). split; [done|]. split; [done|]. exists qs. split; [done|]. split; [done|].
  intros q Hqin. rewrite Hf; [by apply Hq|]. rewrite Ht. by apply (list_elem_of_fmap_2 (fun q => task_file store (Start q))).
Qed.

Definition temps (cs : list chunk) : list bytes := concat (map ck_taskFiles cs).

Lemma submit_chunks_ok concurrency a rs b o :
  1 <= concurrency < 2 ^ 31 -> contiguous a rs b -> 0 < a -> b < 2 ^ 62 -> file_ok (change_list a b) ->
  exists o' cs, submit_chunks db store concurrency rs o = (o', Ok cs) /\ od_stores o' = od_stores o /\
    Forall2 (chunk_ok o') rs cs /\ (forall f, f ∉ temps cs -> od_tmp o' !! f = od_tmp o !! f) /\
    (forall f, f ∈ temps cs -> exists s, f = task_file store s /\ a <= s < b).
Proof.
  intros Hw. revert a o. induction rs as [|r rs IH]; intros a o; cbn [contiguous submit_chunks].
  { exists o, []. do 4 (split; [done|]). by intros f ?%elem_of_nil. }
  intros (Hs & Hlt & Hc) Ha Hb Hok. pose proof (contiguous_le _ _ _ Hc) as Hle. subst a.
  rewrite (change_list_app (Start r) (End_ r) b), file_ok_app in Hok by lia. destruct Hok as [Hok1 Hok2].
  destruct (splitWorkLoad_ok concurrency r Hw) as (qs & Es & Hqs & _); [split; lia|].
  destruct (run_tasks_ok (Start r) qs (End_ r) o Hqs) as (o1 & E1 & Hst1 & Htmp1); [lia|lia|done|].
  destruct (tmp_foldl (Start r) qs (End_ r) (od_tmp o) Hqs) as [Hin Hout]. rewrite <- Htmp1 in Hin, Hout.
  destruct (IH (End_ r) o1 Hc) as (o' & cs & E2 & Hst2 & Hcs & Hrest & Htemps); [lia|done|done|].
  set (c := {| ck_beginVersion := Start r; ck_taskFiles := map (fun q => task_file store (Start q)) qs; ck_err := None |}).
  assert (Hc1 : chunk_ok o1 r c) by (split; [done|]; split; [done|]; by exists qs).
  exists o', (c :: cs). split; [|split; [congruence|split; [|split]]].
  - unfold lift, mbind, SE_bind. rewrite Es, E1, E2. done.
  - constructor; [|done]. apply (chunk_ok_frame o1); [|done]. intros f Hf. apply Hrest. intros Hf'.
    destruct (chunk_ok_files _ _ _ _ Hc1 Hf) as (s & -> & Hs1). destruct (Htemps _ Hf') as (s' & E & Hs2).
    apply task_file_inj in E. lia.
  - intros f Hf. unfold temps in Hf. cbn [map concat] in Hf. apply not_elem_of_app in Hf as [Hf1 Hf2].
    rewrite Hrest by done. by apply Hout.
  - intros f. unfold temps. cbn [map concat]. rewrite elem_of_app. intros [Hf|Hf].
    + destruct (chunk_ok_files _ _ _ _ Hc1 Hf) as (s & -> & Hs1). exists s. split; [done|lia].
    + destruct (Htemps _ Hf) as (s & -> & Hs2). exists s. split; [done|lia].
Qed.

(** ** Collecting *)

Lemma copy_tmp_ok a qs b o :
  contiguous a qs b -> (forall q, q ∈ qs -> od_tmp o !! (tmp_of q).1 = Some (tmp_of q).2) ->
  exists o', copy_tmp (map (fun q => task_file store (Start q)) qs) o = (o', Ok (file_bytes (change_list a b))) /\
    od_stores o' = od_stores o /\
    forall f, od_tmp o' !! f = if decide (f ∈ map (fun q => task_file store (Start q)) qs) then None else od_tmp o !! f.
Proof.
  revert a o. induction qs as [|q qs IH]; intros a o; cbn [contiguous map copy_tmp].
  { intros -> _. exists o. rewrite change_list_nil. split; [done|]. split; [done|]. intros f. by rewrite decide_False by (by intros ?%elem_of_nil). }
  intros (Hs & Hlt & Hc) Hq. pose proof (Hq q ltac:(by left)) as E. cbn [tmp_of fst snd] in E.
  set (o1 := with_tmp o (delete (task_file store (Start q)) (od_tmp o))).
  assert (Hne : forall q', q' ∈ qs -> task_file store (Start q) <> task_file store (Start q')).
  { intros q' Hq' Ef%task_file_inj. pose proof (contiguous_starts _ _ _ _ Hc Hq'). lia. }
  destruct (IH (End_ q) o1 Hc) as (o' & E' & Hst & Htmp).
  { intros q' Hq'. cbn [o1 od_tmp with_tmp tmp_of fst]. rewrite lookup_delete_ne by by apply Hne. apply Hq. by right. }
  exists o'. split; [|split; [done|]].
  - unfold gets, lift, modify, mbind, SE_bind. rewrite E, snappy_decode_encode. fold o1. rewrite E'. do 2 f_equal.
    unfold range_changes. rewrite Hs. rewrite (change_list_app a (End_ q) b) by (apply contiguous_le in Hc; lia).
    unfold file_bytes. by rewrite map_app, concat_app.
  - intros f. rewrite Htmp. cbn [o1 od_tmp with_tmp].
    destruct (decide (f = task_file store (Start q))) as [->|Hf].
    + rewrite (decide_True (P := _ ∈ _ :: _)) by by left. rewrite lookup_delete_eq. by case_decide.
    + rewrite lookup_delete_ne by by apply not_eq_sym. do 2 case_decide; try done; set_solver.
Qed.

(** The file of a chunk. *)
Definition file_of (zlibLevel : Z) r : bytes * bytes :=
  (chunk_file (Start r) zlibLevel,
   if 0 <? zlibLevel then zlib_encode zlibLevel (file_bytes (range_changes r)) else file_bytes (range_changes r)).

Definition add_file (zlibLevel : Z) (m : gmap bytes bytes) r : gmap bytes bytes :=
  <[(file_of zlibLevel r).1 := (file_of zlibLevel r).2]> m.

Lemma collect_ok zlibLevel r c o :
  zlibLevel <= 9 -> chunk_ok o r c ->
  exists o', collect store zlibLevel c o = (o', Ok tt) /\
    od_stores o' = <[store := add_file zlibLevel (default ∅ (od_stores o !! store)) r]> (od_stores o) /\
    forall f, od_tmp o' !! f = if decide (f ∈ ck_taskFiles c) then None else od_tmp o !! f.
Proof.
  intros Hl (Hb & He & qs & Hc & Ht & Hq).
  set (o1 := {| od_tmp := od_tmp o; od_stores := <[store := <[chunk_file (Start r) zlibLevel := []]> (default ∅ (od_stores o !! store))]>
    (<[store := default ∅ (od_stores o !! store)]> (od_stores o)) |}).
  destruct (copy_tmp_ok (Start r) qs (End_ r) o1 Hc Hq) as (o2 & E & Hst & Htmp).
  eexists. split; [|split].
  - unfold collect. rewrite He, Hb, Ht. unfold make_dir, put_file, modify, mbind, SE_bind. cbn [od_tmp od_stores].
    rewrite (proj2 (Z.ltb_ge 9 zlibLevel)) by lia. cbn [mret SE_ret]. rewrite !lookup_insert_eq. cbn [default from_option id].
    fold o1. rewrite E. reflexivity.
  - cbn [od_stores]. rewrite Hst. cbn [o1 od_stores]. rewrite !lookup_insert_eq, !insert_insert_eq. cbn [default from_option id].
    rewrite insert_insert_eq. done.
  - cbn [od_tmp]. rewrite Ht. exact Htmp.
Qed.

Lemma collect_all_ok zlibLevel rs cs o a b :
  zlibLevel <= 9 -> contiguous a rs b -> Forall2 (chunk_ok o) rs cs ->
  exists o', for_each (collect store zlibLevel) cs o = (o', Ok tt) /\
    od_stores o' = match rs with [] => od_stores o
      | _ => <[store := foldl (add_file zlibLevel) (default ∅ (od_stores o !! store)) rs]> (od_stores o) end /\
    forall f, od_tmp o' !! f = if decide (f ∈ temps cs) then None else od_tmp o !! f.
Proof.
  intros Hl. revert cs o a. induction rs as [|r rs IH]; intros cs o a Hc Hcs.
  { apply Forall2_nil_inv_l in Hcs as ->. exists o. split; [done|]. split; [done|]. intros f.
    by rewrite decide_False by (by intros ?%elem_of_nil). }
  apply Forall2_cons_inv_l in Hcs as (c & cs' & Hr & Hcs & ->). destruct Hc as (_ & Hlt & Hc).
  destruct (collect_ok zlibLevel r c o Hl Hr) as (o1 & E1 & Hst1 & Htmp1).
  assert (Hcs1 : Forall2 (chunk_ok o1) rs cs').
  { apply Forall2_same_length_lookup_2; [by eapply Forall2_length|]. intros i r' c' Hi Hi'.
    apply (chunk_ok_frame o); [|by eapply (Forall2_lookup_lr (chunk_ok o))]. intros f Hf. rewrite Htmp1, decide_False; [done|]. intros Hf1.
    pose proof (Forall2_lookup_lr _ _ _ _ _ _ Hcs Hi Hi') as Hr'.
    destruct (chunk_ok_files _ _ _ _ Hr Hf1) as (s & -> & Hs1). destruct (chunk_ok_files _ _ _ _ Hr' Hf) as (s' & E & Hs2).
    apply task_file_inj in E. pose proof (contiguous_starts _ _ _ _ Hc (list_elem_of_lookup_2 _ _ _ Hi)). lia. }
  destruct (IH cs' o1 (End_ r) Hc Hcs1) as (o' & E2 & Hst2 & Htmp2). exists o'.
  split; [apply for_each_cons_ok; eauto|]. split.
  - rewrite Hst2, Hst1. destruct rs; [done|]. cbn [foldl]. rewrite lookup_insert_eq, insert_insert_eq. done.
  - intros f. rewrite Htmp2, Htmp1. unfold temps. cbn [map concat].
    destruct (decide (f ∈ ck_taskFiles c)) as [Hf|Hf].
    + rewrite (decide_True (P := f ∈ _ ++ _)) by (apply elem_of_app; by left). by case_decide.
    + rewrite (decide_ext (f ∈ ck_taskFiles c ++ concat (map ck_taskFiles cs')) (f ∈ concat (map ck_taskFiles cs'))); [done|].
      rewrite elem_of_app. tauto.
Qed.

(** ** Names *)

Lemma chunk_file_inj zlibLevel v w : chunk_file v zlibLevel = chunk_file w zlibLevel -> v = w.
Proof. unfold chunk_file. intros E%app_inv_head%app_inv_tail. by apply decimal_inj. Qed.

Lemma list_byte_app s s' : str (s +:+ s') = str s ++ str s'.
Proof.
  unfold str, String.list_byte_of_string. rewrite <- map_app. f_equal. induction s as [|c s IH]; [done|]. exact (f_equal (cons c) IH).
Qed.

Lemma pretty_N_go_suffix x s : exists pre, pretty_N_go x s = pre +:+ s.
Proof.
  revert s. induction (N.lt_wf_0 x) as [x _ IH]; intros s. assert (x = 0 \/ 0 < x)%N as [->|Hx] by lia.
  { exists EmptyString. by rewrite pretty_N_go_0. }
  rewrite pretty_N_go_step by done. destruct (IH (x `div` 10)%N ltac:(apply N.div_lt; lia) (String (pretty_N_char (x `mod` 10)) s)) as [pre ->].
  exists (pre +:+ String (pretty_N_char (x `mod` 10)) EmptyString). clear. induction pre as [|c pre IH]; [done|]. exact (f_equal (String c) IH).
Qed.

(** A number ends with a digit. *)
Lemma decimal_last v : 0 < v -> exists l d, decimal v = l ++ [d] /\ d <> x7a /\ d <> x79.
Proof.
  intros Hv. destruct v as [|p|p]; [lia| |lia]. unfold decimal. change (pretty (Z.pos p)) with (pretty_N_go (N.pos p) EmptyString).
  rewrite pretty_N_go_step by lia.
  destruct (pretty_N_go_suffix (N.pos p `div` 10) (String (pretty_N_char (N.pos p `mod` 10)) EmptyString)) as [pre ->].
  rewrite list_byte_app. eexists (str pre), _. split; [reflexivity|].
  assert (Hm : (N.pos p `mod` 10 < 10)%N) by (apply N.mod_lt; lia). revert Hm. generalize (N.pos p `mod` 10)%N. intros m Hm.
  assert (m = 0 \/ m = 1 \/ m = 2 \/ m = 3 \/ m = 4 \/ m = 5 \/ m = 6 \/ m = 7 \/ m = 8 \/ m = 9)%N as Hd by lia.
  repeat destruct Hd as [->|Hd]; try subst m; by vm_compute.
Qed.

Lemma HasSuffix_last s d suffix d' : d <> d' -> HasSuffix (s ++ [d]) (suffix ++ [d']) = false.
Proof.
  intros Hd. unfold HasSuffix. apply andb_false_iff. right. apply bool_decide_eq_false. intros E.
  apply (f_equal last) in E. rewrite last_snoc in E. rewrite length_app in E.
  destruct (decide (length (suffix ++ [d']) <= length s + length [d])%nat) as [Hle|Hgt].
  - rewrite drop_app_le, last_snoc in E by (rewrite !length_app in *; cbn in *; lia). congruence.
  - rewrite (proj2 (Nat.sub_0_le _ _)), drop_0, last_snoc in E by lia. congruence.
Qed.

Lemma file_of_intact zlibLevel r :
  zlibLevel <= 9 -> 0 < Start r -> intact (file_of zlibLevel r) (range_changes r).
Proof.
  intros Hl Hs. unfold intact, file_of, openChangeSetFile, chunk_file. cbn [fst snd].
  destruct (Z.ltb_spec 0 zlibLevel).
  - rewrite app_assoc, HasSuffix_app. apply zlib_decode_encode. lia.
  - destruct (decimal_last (Start r) Hs) as (l & d & -> & Hz & Hy). rewrite app_nil_r, app_assoc.
    rewrite (HasSuffix_last _ d (str ".z") x7a Hz : HasSuffix _ ZlibFileSuffix = false).
    by rewrite (HasSuffix_last _ d (str ".snapp") x79 Hy : HasSuffix _ SnappyFileSuffix = false).
Qed.

Lemma files_intact zlibLevel rs :
  zlibLevel <= 9 -> Forall (fun r => 0 < Start r) rs -> Forall2 intact (map (file_of zlibLevel) rs) (map range_changes rs).
Proof. intros Hl. induction 1; constructor; [by apply file_of_intact|done]. Qed.

(** ** Scanning *)

Lemma contiguous_NoDup a rs b : contiguous a rs b -> NoDup (map Start rs).
Proof.
  revert a. induction rs as [|r rs IH]; intros a; cbn [contiguous map]; [constructor|]. intros (Hs & Hlt & Hc).
  constructor; [|by eapply IH]. intros (q & E & Hq)%list_elem_of_fmap. pose proof (contiguous_starts _ _ _ _ Hc Hq). lia.
Qed.

Lemma files_listed zlibLevel rs :
  NoDup (map Start rs) -> ReadDir (foldl (add_file zlibLevel) ∅ rs) ≡ₚ map (file_of zlibLevel) rs.
Proof.
  intros Hd. unfold ReadDir. rewrite SliceStable_perm. induction rs as [|r rs IH] using rev_ind; [done|].
  rewrite map_app in Hd. apply NoDup_app in Hd as (Hd & Hn & _). rewrite foldl_snoc, map_app. unfold add_file at 1.
  assert (Hf : forall m, m !! (file_of zlibLevel r).1 = None ->
    (forall q, q ∈ rs -> Start q <> Start r) -> foldl (add_file zlibLevel) m rs !! (file_of zlibLevel r).1 = None).
  { clear. induction rs as [|q rs IH]; intros m Hm Hq; [done|]. cbn [foldl]. apply IH.
    - unfold add_file. rewrite lookup_insert_ne; [done|]. intros E%chunk_file_inj. by apply (Hq q); [left|].
    - intros q' Hq'. apply Hq. by right. }
  rewrite map_to_list_insert; [|apply Hf; [apply lookup_empty|]].
  - rewrite (IH Hd). cbn [map]. rewrite <- surjective_pairing. apply Permutation_cons_append.
  - intros q Hq E. apply (Hn (Start q)); [by apply (list_elem_of_fmap_2 Start)|]. rewrite E. by left.
Qed.

Lemma first_version_range a b vs : vs = change_list a b -> vs <> [] -> 0 < a -> b < 2 ^ 62 -> a <= first_version vs < b.
Proof.
  intros E Hne Ha Hb. destruct vs as [|[v cs] vs]; [done|]. cbn [first_version].
  assert (Hv : a <= v < b) by (apply (change_list_elem a b v cs); rewrite <- E; by left). by rewrite u64_small by lia.
Qed.

Lemma nonempty_sorted a rs b :
  contiguous a rs b -> 0 < a -> b < 2 ^ 62 ->
  StronglySorted (fun x y => first_version x < first_version y) (filter (fun vs => vs <> []) (map range_changes rs)) /\
  Forall (fun vs => a <= first_version vs) (filter (fun vs => vs <> []) (map range_changes rs)).
Proof.
  revert a. induction rs as [|r rs IH]; intros a; cbn [contiguous map]; [by repeat constructor|].
  intros (<- & Hlt & Hc) Ha Hb. pose proof (contiguous_le _ _ _ Hc). destruct (IH _ Hc) as [Hs Hf]; [lia|done|].
  assert (Hf' : Forall (fun vs => Start r <= first_version vs) (filter (fun vs => vs <> []) (map range_changes rs))).
  { eapply Forall_impl; [exact Hf|]. simpl. lia. }
  destruct (decide (range_changes r <> [])) as [Hne|He]; [|by rewrite filter_cons_False].
  rewrite filter_cons_True by done. pose proof (first_version_range _ _ _ eq_refl Hne Ha ltac:(lia)) as Hv.
  fold (range_changes r) in Hv. split; constructor; [done| |lia|done].
  eapply Forall_impl; [exact Hf|]. intros vs Hvs. simpl in Hvs. lia.
Qed.

Lemma concat_filter_nonempty {A} (l : list (list A)) : concat (filter (fun x => x <> []) l) = concat l.
Proof.
  induction l as [|x l IH]; [done|]. destruct (decide (x <> [])) as [Hne|He].
  - rewrite filter_cons_True by done. cbn [concat]. by rewrite IH.
  - rewrite filter_cons_False by done. apply dec_stable in He as ->. exact IH.
Qed.

(** ** A store *)

(** What scanning the directory of the store finds. *)
Definition holds (dir : changeSetDir) (vs : list (Z * ChangeSet)) : Prop := exists vss,
  scanChangeSetFiles dir store = Ok (map (fun vs => (file_bytes vs, first_version vs)) vss) /\
  Forall (fun vs => vs <> []) vss /\ concat vss = vs.

Lemma dump_store_ok start end_ chunkSize concurrency zlibLevel o :
  0 < start -> end_ < 2 ^ 61 -> start < 2 ^ 61 -> 0 < chunkSize < 2 ^ 61 -> 1 <= concurrency < 2 ^ 31 -> zlibLevel <= 9 ->
  file_ok (change_list start end_) -> od_stores o !! store = None -> (forall v, od_tmp o !! task_file store v = None) ->
  exists o', dump_store db store start end_ chunkSize concurrency zlibLevel o = (o', Ok tt) /\
    od_tmp o' = od_tmp o /\ (forall other, other <> store -> od_stores o' !! other = od_stores o !! other) /\
    holds (od_stores o') (change_list start end_).
Proof.
  intros Hs He Hs1 Hcs Hw Hl Hok Hdir Htmp.
  destruct (split_loop_ok (S (Z.to_nat ((end_ - start) / chunkSize))) chunkSize start end_) as (rs & Er & Hrs & _); [lia|lia|lia| |].
  { destruct (Z.le_gt_cases end_ start); [nia|]. pose proof (Z.div_mod (end_ - start) chunkSize ltac:(lia)).
    pose proof (Z.mod_pos_bound (end_ - start) chunkSize ltac:(lia)). pose proof (Z.div_pos (end_ - start) chunkSize ltac:(lia) ltac:(lia)). nia. }
  assert (Hch : change_list start (Z.max start end_) = change_list start end_).
  { destruct (Z.le_gt_cases start end_); [by rewrite Z.max_r|]. rewrite Z.max_l, change_list_nil by lia. unfold change_list.
    by rewrite seqZ_nil by lia. }
  destruct (submit_chunks_ok concurrency start rs (Z.max start end_) o Hw Hrs Hs) as (o1 & cs & E1 & Hst1 & Hc1 & Hf1 & Ht1); [lia|by rewrite Hch|].
  destruct (collect_all_ok zlibLevel rs cs o1 start (Z.max start end_) Hl Hrs Hc1) as (o2 & E2 & Hst2 & Hf2).
  exists o2. split; [|split; [|split]].
  - unfold dump_store, split_chunks, lift, mbind, SE_bind. by rewrite Er, E1, E2.
  - apply map_eq. intros f. rewrite Hf2. case_decide as Hf; [|by apply Hf1]. destruct (Ht1 f Hf) as (v & -> & _). by rewrite Htmp.
  - intros other Hne. rewrite Hst2, Hst1. destruct rs; [done|]. by rewrite lookup_insert_ne by by apply not_eq_sym.
  - exists (filter (fun vs => vs <> []) (map range_changes rs)).
    split; [|split; [|by rewrite concat_filter_nonempty, <- Hch; apply contiguous_changes]].
    + destruct rs as [|r rs].
      { unfold scanChangeSetFiles. by rewrite Hst2, Hst1, Hdir. }
      pose proof (files_listed zlibLevel (r :: rs) (contiguous_NoDup _ _ _ Hrs)) as Hp.
      apply Permutation_map_inv in Hp as (rs' & Hp & Hrs').
      apply (scan_intact _ _ (foldl (add_file zlibLevel) ∅ (r :: rs)) (map range_changes rs')).
      * rewrite Hst2, Hst1, lookup_insert_eq, Hdir. done.
      * rewrite Hp. apply files_intact; [done|]. apply Forall_forall. intros q Hq. rewrite <- Hrs' in Hq.
        pose proof (contiguous_starts _ _ _ _ Hrs Hq). lia.
      * by rewrite Hrs'.
      * by apply (nonempty_sorted start (r :: rs) (Z.max start end_)); [done|done|lia].
    + apply Forall_forall. intros vs Hvs. by apply list_elem_of_filter in Hvs as [? _].
Qed.

(** ** The first version *)

Lemma be_at_app n x rest : length x = n -> be_at n (reverse x ++ rest) = Ok (le_get x).
Proof.
  intros <-. unfold be_at. rewrite length_app, length_reverse, (proj2 (Nat.ltb_ge _ _)) by lia. f_equal. unfold be_get.
  rewrite take_app_length' by (by rewrite length_reverse). by rewrite reverse_involutive.
Qed.

Lemma first_root_ok keys nodes :
  map nodeKeyV1_Scan keys = map node_key nodes ->
  StronglySorted (fun x y => x.1 <= y.1) nodes -> (forall v n, (v, n) ∈ nodes -> 1 <= v < MaxInt64 /\ 0 <= n < 2 ^ 32) ->
  exists v, first_root keys = Ok v /\
    ((v = 0 /\ forall w, (w, 1) ∉ nodes) \/ (1 <= v < MaxInt64 /\ forall w, (w, 1) ∈ nodes -> v <= w)).
Proof.
  intros E Hs Hr. revert keys E. induction Hs as [|[v n] nodes Hs IH Hf]; intros [|key keys] E; try done.
  { exists 0. split; [done|]. left. split; [done|]. intros w Hw. by apply elem_of_nil in Hw. }
  injection E as Ek E. destruct (Hr v n ltac:(by left)) as [Hv Hn]. unfold MaxInt64 in *.
  destruct (IH ltac:(intros; apply Hr; by right) keys E) as (v' & E' & Hv'). cbn [first_root]. rewrite Ek. unfold node_key. cbn [fst snd].
  rewrite be_at_app by apply length_le_put. cbn [mbind res_bind].
  replace (drop 8 (reverse (le_u64 v) ++ reverse (le_u32 n))) with (reverse (le_u32 n) ++ [])
    by (by rewrite app_nil_r, drop_app_length'; rewrite ?length_reverse, ?length_le_put).
  rewrite be_at_app by apply length_le_put. cbn [mbind res_bind]. rewrite le_get_u64, le_get_u32 by lia.
  destruct (Z.eqb_spec n 1) as [->|Hn1].
  - exists v. rewrite i64_small by lia. split; [done|]. right. split; [lia|]. intros w [[= ->]|Hw]%elem_of_cons; [lia|].
    rewrite Forall_forall in Hf. by apply (Hf (w, 1)).
  - exists v'. split; [done|]. destruct Hv' as [[-> Hno]|[Hr' Hmin]]; [left|right]; (split; [done|]).
    + intros w [[= _ ?]|Hw]%elem_of_cons; [lia|]. by apply (Hno w).
    + intros w [[= _ ?]|Hw]%elem_of_cons; [lia|]. by apply Hmin.
Qed.

(** The first version of a store: no version before it has a change set; it is 0 when there
    is none. *)
Lemma getFirstVersion_ok iavlVersion :
  exists v, getFirstVersion db store iavlVersion = Ok v /\
    ((v = 0 /\ forall w, 1 <= w < MaxInt64 -> changes db (storePrefix store) w = None) \/
     (1 <= v < MaxInt64 /\ forall w, 1 <= w < v -> changes db (storePrefix store) w = None)).
Proof.
  unfold getFirstVersion. destruct (iavlVersion =? IAVLV0).
  - destruct (rootKeys_listed db (storePrefix store)) as (keys & -> & Ek). cbn [mbind res_bind].
    pose proof (roots_changes db (storePrefix store)) as Hc. pose proof (roots_sorted db (storePrefix store)) as Hs. rewrite <- Ek in Hc, Hs.
    destruct keys as [|key keys]; cbn [map] in *.
    + exists 0. split; [done|]. left. split; [done|]. intros w Hw. apply eq_None_not_Some. intros Hsome.
      by apply (elem_of_nil w), Hc.
    + exists (rootKey_Scan key). split; [done|]. right. destruct (proj1 (Hc _) (list_elem_of_here _ _)) as [Hr _]. split; [done|].
      intros w Hw. apply eq_None_not_Some. intros Hsome.
      assert (Hin : w ∈ rootKey_Scan key :: map rootKey_Scan keys) by (apply Hc; split; [lia|done]).
      apply elem_of_cons in Hin as [->|Hin]; [lia|]. apply StronglySorted_inv in Hs as [_ Hf]. rewrite Forall_forall in Hf.
      specialize (Hf w Hin). lia.
  - destruct (nodeKeys_listed db (storePrefix store)) as (keys & -> & Ek). cbn [mbind res_bind].
    destruct (first_root_ok keys _ Ek (nodes_sorted _ _) (nodes_range _ _)) as (v & -> & Hv). exists v. split; [done|].
    pose proof (nodes_changes db (storePrefix store)) as Hc.
    destruct Hv as [[-> Hno]|[Hr Hmin]]; [left|right]; (split; [done|]); intros w Hw; apply eq_None_not_Some; intros Hsome.
    + apply (Hno w), Hc. done.
    + assert (Hin : (w, 1) ∈ iavl_nodes db (storePrefix store)) by (apply Hc; split; [lia|done]). apply Hmin in Hin. lia.
Qed.

(** Nothing is missed before the first version. *)
Lemma change_list_skip (a b c : Z) : a <= b -> (forall w, a <= w < b -> changes db (storePrefix store) w = None) -> change_list a c = change_list b c.
Proof.
  intros Hab Hno. assert (Hnil : forall b', b' <= b -> change_list a b' = []).
  { intros b' Hb'. destruct (change_list a b') as [|[v cs] l] eqn:E; [done|].
    assert (Hv : (v, cs) ∈ change_list a b') by (rewrite E; by left). pose proof (change_list_elem _ _ _ _ Hv) as Hr.
    unfold change_list in Hv. apply list_elem_of_omap in Hv as (w & Hw%elem_of_seqZ & Ew). rewrite Hno in Ew by lia. done. }
  destruct (Z.le_gt_cases b c) as [Hle|Hgt].
  - rewrite (change_list_app a b c) by lia. by rewrite Hnil.
  - rewrite Hnil by lia. unfold change_list. by rewrite seqZ_nil by lia.
Qed.
End dumped.

(** ** The command *)

Section command.
  Context `{SortLaws, SnappyLaws, ZlibLaws} {D : Type} `{IavlLaws D}.
  Implicit Types (db : D) (o : OutDir) (store : bytes) (stores : list bytes).

(** The end of the dump: what is given, or after the latest version of the first store. *)
Definition dump_end db stores (endVersion end_ : Z) : Prop :=
  if endVersion =? 0 then exists store, head stores = Some store /\ iavl_LoadLatest db (storePrefix store) = Ok (end_ - 1)
  else end_ = endVersion.

(** Nothing of the store is in the directory. *)
Definition absent o store : Prop := od_stores o !! store = None /\ forall v, od_tmp o !! task_file store v = None.

Record dump_flags (concurrency chunkSize zlibLevel : Z) : Prop := {
  df_concurrency : 1 <= concurrency < 2 ^ 31;
  df_chunkSize : 0 < chunkSize < 2 ^ 61;
  df_zlibLevel : zlibLevel <= 9
}.

(** The dump of one store. *)
Lemma dump_one db store startVersion end_ concurrency chunkSize zlibLevel iavlVersion o :
  dump_flags concurrency chunkSize zlibLevel -> 0 <= startVersion < 2 ^ 61 -> end_ < 2 ^ 61 ->
  file_ok (change_list db store (Z.max 1 startVersion) end_) -> absent o store ->
  exists o', (storeStartVersion ← lift (getFirstVersion db store iavlVersion);
      if storeStartVersion =? 0 then mret tt
      else dump_store db store (if storeStartVersion <? startVersion then startVersion else storeStartVersion)
             end_ chunkSize concurrency zlibLevel) o = (o', Ok tt) /\
    od_tmp o' = od_tmp o /\ (forall other, other <> store -> od_stores o' !! other = od_stores o !! other) /\
    holds store (od_stores o') (change_list db store (Z.max 1 startVersion) end_).
Proof.
  intros [Hw Hc Hl] Hs He Hok [Hd Ht]. destruct (getFirstVersion_ok db store iavlVersion) as (v & Ev & Hv).
  unfold lift. unfold mbind at 1, SE_bind at 1. rewrite Ev. unfold MaxInt64 in Hv. destruct Hv as [[-> Hno]|[Hr Hno]].
  - exists o. split; [done|]. split; [done|]. split; [done|]. exists []. unfold scanChangeSetFiles. rewrite Hd.
    split; [done|]. split; [done|]. destruct (Z.le_gt_cases (Z.max 1 startVersion) end_).
    + rewrite (change_list_skip db store _ end_ end_), change_list_nil; [done|lia|]. intros w Hw'. apply Hno. lia.
    + unfold change_list. by rewrite seqZ_nil by lia.
  - rewrite (proj2 (Z.eqb_neq v 0)) by lia.
    set (start := if v <? startVersion then startVersion else v).
    assert (Hst : Z.max 1 startVersion <= start /\ 0 < start /\ (start = startVersion \/ start = v)).
    { subst start. destruct (Z.ltb_spec v startVersion); lia. }
    assert (Hch : change_list db store (Z.max 1 startVersion) end_ = change_list db store start end_).
    { apply change_list_skip; [lia|]. intros w Hw'. apply Hno. lia. }
    destruct (Z.lt_ge_cases start (2 ^ 61)) as [Hlt|Hge].
    + rewrite Hch in *. by apply dump_store_ok; try lia.
    + exists o. assert (Hnil : change_list db store start end_ = []) by (unfold change_list; by rewrite seqZ_nil by lia).
      split; [|split; [done|split; [done|]]].
      * unfold dump_store, split_chunks, lift, mbind, SE_bind. cbn [split_loop]. by rewrite (proj2 (Z.ltb_ge start end_)) by lia.
      * rewrite Hch, Hnil. exists []. unfold scanChangeSetFiles. by rewrite Hd.
Qed.

Lemma holds_lookup store (dir dir' : changeSetDir) vs : dir !! store = dir' !! store -> holds store dir vs -> holds store dir' vs.
Proof. intros E (vss & Hs & Hv). exists vss. split; [|done]. unfold scanChangeSetFiles in *. by rewrite <- E. Qed.

(** The loop over the stores. *)
Lemma dump_stores db stores startVersion end_ concurrency chunkSize zlibLevel iavlVersion o :
  dump_flags concurrency chunkSize zlibLevel -> 0 <= startVersion < 2 ^ 61 -> end_ < 2 ^ 61 ->
  NoDup stores -> Forall (absent o) stores ->
  Forall (fun store => file_ok (change_list db store (Z.max 1 startVersion) end_)) stores ->
  exists o', for_each (fun store =>
      storeStartVersion ← lift (getFirstVersion db store iavlVersion);
      if storeStartVersion =? 0 then mret tt
      else dump_store db store (if storeStartVersion <? startVersion then startVersion else storeStartVersion)
             end_ chunkSize concurrency zlibLevel) stores o = (o', Ok tt) /\
    od_tmp o' = od_tmp o /\ (forall other, other ∉ stores -> od_stores o' !! other = od_stores o !! other) /\
    Forall (fun store => holds store (od_stores o') (change_list db store (Z.max 1 startVersion) end_)) stores.
Proof.
  intros Hfl Hs He Hnd. revert o. induction Hnd as [|store stores Hin Hnd IH]; intros o Hab Hok; [by exists o|].
  apply Forall_cons in Hab as [Ha Hab]. apply Forall_cons in Hok as [Hok1 Hok].
  destruct (dump_one db store startVersion end_ concurrency chunkSize zlibLevel iavlVersion o Hfl Hs He Hok1 Ha) as (o1 & E1 & Ht1 & Ho1 & Hh1).
  assert (Hab1 : Forall (absent o1) stores).
  { rewrite Forall_forall in *. intros st Hst. destruct (Hab st Hst) as [H1' H2']. split; [|by intros v; rewrite Ht1].
    rewrite Ho1; [done|]. by intros ->. }
  destruct (IH o1 Hab1 Hok) as (o' & E2 & Ht2 & Ho2 & Hh2). exists o'. split; [apply for_each_cons_ok; eauto|].
  split; [congruence|]. split; [|constructor; [|done]].
  - intros other Ho. apply not_elem_of_cons in Ho as [Hne Ho]. rewrite Ho2, Ho1 by done. done.
  - apply (holds_lookup store (od_stores o1)); [|done]. by rewrite Ho2.
Qed.

Lemma DumpChangeSet_ok db stores startVersion endVersion end_ concurrency chunkSize zlibLevel iavlVersion o :
  dump_flags concurrency chunkSize zlibLevel -> 0 <= startVersion < 2 ^ 61 -> end_ < 2 ^ 61 -> dump_end db stores endVersion end_ ->
  NoDup stores -> Forall (absent o) stores ->
  Forall (fun store => file_ok (change_list db store (Z.max 1 startVersion) end_)) stores ->
  exists o', DumpChangeSet db stores startVersion endVersion concurrency chunkSize zlibLevel iavlVersion o = (o', Ok tt) /\
    od_tmp o' = od_tmp o /\
    Forall (fun store => holds store (od_stores o') (change_list db store (Z.max 1 startVersion) end_)) stores.
Proof.
  intros Hfl Hs He Hend Hnd Hab Hok. unfold DumpChangeSet.
  set (endM := if endVersion =? 0 then _ else _).
  assert (Eend : endM o = (o, Ok end_)).
  { unfold endM, dump_end in *. destruct (endVersion =? 0); [|by subst]. destruct Hend as (st & Hst & El).
    unfold lift, mbind, SE_bind. rewrite Hst. cbn [of_option]. rewrite El. cbn [mret SE_ret].
    destruct (LoadLatest_last db (storePrefix st)) as (v & Ev & Hv & _). rewrite El in Ev. injection Ev as Ev.
    unfold MaxInt64 in Hv. replace (end_ - 1 + 1) with end_ by lia. by rewrite i64_small by lia. }
  unfold mbind at 1, SE_bind at 1. rewrite Eend.
  destruct (dump_stores db stores startVersion end_ concurrency chunkSize zlibLevel iavlVersion o) as (o' & E & Ht & _ & Hh); try done.
  by exists o'.
Qed.
(** C27: [dump] and reading back.  The command cuts the versions of every store into chunks and
    tasks, and leaves no temporary file; scanning the directory of a store then gives the
    files in the order of the versions, and together they have the change sets of all
    versions from the start to the end, each once and in order, for both formats of the
    database, any chunk size, number of workers and compression. *)
Theorem dump_correct db stores startVersion endVersion end_ concurrency chunkSize zlibLevel iavlVersion o :
  dump_flags concurrency chunkSize zlibLevel -> 0 <= startVersion < 2 ^ 61 -> end_ < 2 ^ 61 -> dump_end db stores endVersion end_ ->
  NoDup stores -> Forall (absent o) stores ->
  Forall (fun store => file_ok (change_list db store (Z.max 1 startVersion) end_)) stores ->
  exists o', DumpChangeSet db stores startVersion endVersion concurrency chunkSize zlibLevel iavlVersion o = (o', Ok tt) /\
    od_tmp o' = od_tmp o /\
    Forall (fun store => holds store (od_stores o') (change_list db store (Z.max 1 startVersion) end_)) stores.
Proof. apply DumpChangeSet_ok. Qed.
End command.

(** ** Trees in memory *)

(** The change sets of the versions from 1, the same for every store. *)
Definition mem_latest (d : list ChangeSet) : Z := Z.min (zlen d) (MaxInt64 - 1).
Definition mem_changes (d : list ChangeSet) (v : Z) : option ChangeSet :=
  if (1 <=? v) && (v <=? mem_latest d) then d !! Z.to_nat (v - 1) else None.
Definition mem_nodes (d : list ChangeSet) : list (Z * Z) := v ← seqZ 1 (mem_latest d); [(v, 1); (v, 2)].

#[export] Instance mem_iavl : IavlOps (list ChangeSet) := {|
  iavl_LoadLatest d _ := Ok (mem_latest d);
  TraverseStateChanges d _ a b := Ok (omap (fun v => pair v <$> mem_changes d v) (seqZ a (b - a + 1)));
  prefix_Iterator d _ start _ :=
    Ok (if bool_decide (head start = Some x72) then map (fun v => x72 :: le_u64 v) (seqZ 1 (mem_latest d))
        else map (fun x => x73 :: node_key x) (mem_nodes d));
  rootKey v := x72 :: le_u64 v;
  rootKey_Scan key := le_get (tail key);
  nodeKeyV1 v := x73 :: reverse (le_u64 v);
  nodeKeyV1_Scan key := tail key
|}.

Lemma mem_changes_Some d v : is_Some (mem_changes d v) <-> 1 <= v <= mem_latest d.
Proof.
  unfold mem_changes. destruct (Z.leb_spec 1 v), (Z.leb_spec v (mem_latest d)); cbn [andb]; split; try (intros [? [=]]); try lia.
  intros _. apply lookup_lt_is_Some. unfold mem_latest, zlen in *. lia.
Qed.

(** The nodes of [k] versions from [a]. *)
Lemma seqZ_sorted k a n : n <= Z.of_nat k ->
  StronglySorted Z.lt (seqZ a n) /\ StronglySorted (fun x y : Z * Z => x.1 <= y.1) (v ← seqZ a n; [(v, 1); (v, 2)]).
Proof.
  revert a n. induction k as [|k IH]; intros a n Hn.
  { rewrite seqZ_nil by lia. split; constructor. }
  destruct (Z.le_gt_cases n 0); [rewrite seqZ_nil by lia; split; constructor|]. rewrite seqZ_cons by lia.
  destruct (IH (Z.succ a) (Z.pred n)) as [H1 H2]; [lia|]. split.
  - constructor; [done|]. apply Forall_forall. intros v Hv%elem_of_seqZ. lia.
  - cbn [mbind list_bind]. assert (Hf : Forall (fun y : Z * Z => a <= y.1) (v ← seqZ (Z.succ a) (Z.pred n); [(v, 1); (v, 2)])).
    { apply Forall_forall. intros [w m] Hw. apply list_elem_of_bind in Hw as (v & Hw & Hv%elem_of_seqZ). simpl.
      apply elem_of_cons in Hw as [[= -> _]|Hw]; [lia|]. apply list_elem_of_singleton in Hw as [= -> _]. lia. }
    constructor; [constructor; [done|exact Hf]|]. constructor; [simpl; lia|exact Hf].
Qed.

Lemma mem_nodes_elem d v n : (v, n) ∈ mem_nodes d <-> 1 <= v <= mem_latest d /\ (n = 1 \/ n = 2).
Proof.
  unfold mem_nodes. rewrite list_elem_of_bind. split.
  - intros (w & Hw & Hv%elem_of_seqZ). apply elem_of_cons in Hw as [[= -> ->]|Hw]; [lia|].
    apply list_elem_of_singleton in Hw as [= -> ->]. lia.
  - intros [Hv Hn]. exists v. split; [|apply elem_of_seqZ; lia]. rewrite elem_of_cons, list_elem_of_singleton.
    destruct Hn as [->| ->]; auto.
Qed.

#[export] Instance mem_iavl_laws : IavlLaws (list ChangeSet).
Proof.
  refine {| changes (d : list ChangeSet) _ v := mem_changes d v; iavl_roots (d : list ChangeSet) _ := seqZ 1 (mem_latest d);
            iavl_nodes (d : list ChangeSet) _ := mem_nodes d |}.
  - done.
  - intros d p. exists (mem_latest d). split; [done|]. split; [unfold mem_latest, MaxInt64, zlen; lia|]. intros w Hw.
    apply eq_None_not_Some. rewrite mem_changes_Some. lia.
  - intros d p. apply (seqZ_sorted (Z.to_nat (mem_latest d))). lia.
  - intros d p v. rewrite mem_changes_Some, elem_of_seqZ. unfold mem_latest. lia.
  - intros d p. eexists. split; [reflexivity|]. rewrite bool_decide_true by done. rewrite map_map. cbn [rootKey_Scan mem_iavl tail].
    rewrite <- (map_id (seqZ 1 (mem_latest d))) at 2. apply map_ext_in. intros v Hv%list_elem_of_In%elem_of_seqZ.
    rewrite le_get_u64; [done|]. unfold mem_latest, MaxInt64 in Hv. lia.
  - intros d p. apply (seqZ_sorted (Z.to_nat (mem_latest d))). lia.
  - intros d p v n [Hv Hn]%mem_nodes_elem. unfold mem_latest in Hv. lia.
  - intros d p v. rewrite mem_nodes_elem, mem_changes_Some. unfold mem_latest. lia.
  - intros d p. eexists. split; [reflexivity|]. rewrite bool_decide_false by (intros [=]). rewrite map_map. done.
Defined.

(** ** Witness *)

Definition empty_out : OutDir := {| od_tmp := ∅; od_stores := ∅ |}.
Definition dump_db : list ChangeSet := map snd sample_file ++ map snd sample_file.

Lemma dump_correct_witness :
  exists o' vss, DumpChangeSet dump_db [str "bank"; str "gov"] 0 0 2 3 6 1 empty_out = (o', Ok tt) /\ od_tmp o' = ∅ /\
    scanChangeSetFiles (od_stores o') (str "gov") = Ok (map (fun vs => (file_bytes vs, first_version vs)) vss) /\
    map fst (concat vss) = [1; 2; 3; 4].
Proof.
  destruct (dump_correct dump_db [str "bank"; str "gov"] 0 0 5 2 3 6 1 empty_out) as (o' & E & Ht & Hh).
  - split; lia.
  - lia.
  - lia.
  - exists (str "bank"). split; reflexivity.
  - apply NoDup_cons; split; [rewrite list_elem_of_singleton; discriminate|apply NoDup_singleton].
  - repeat constructor; intros; apply lookup_empty.
  - repeat constructor; cbn [kv_Key kv_Value value_of default]; by vm_compute.
  - apply Forall_cons in Hh as [_ Hh]. apply Forall_cons in Hh as [(vss & Hs & _ & Hv) _]. exists o', vss.
    split; [exact E|]. split; [exact Ht|]. split; [exact Hs|]. rewrite Hv. vm_compute. reflexivity.
Defined.
