(* ===== verification/Verify.v ===== *)
(** * Verifying change sets (client/changeset/verify.go)

    The command [verify] replays the change set files of the stores on memiavl trees and
    builds the commit info of the target version; it can save the trees as the snapshot of
    a multi-tree.  The stores are replayed by tasks that share nothing but the directory of
    the snapshot, in which each has its own folder: the model runs them one after the other,
    in an order that is an argument. *)

From Stdlib Require Import Strings.Byte ZArith Lia.
From stdpp Require Import base list numbers strings pretty gmap sorting.
From S2P Require Import Prelude Binary Codec Proto ProtoInv ProtoCodec Sha256 State Sort ExtSort Node Snapshot SnapshotWriter Cache Tree MultiTree.
From S2P Require Import ChangeSetFile ChangeSetFileInv Convert ConvertInv ChangeSetDir Dump.
Local Open Scope Z_scope.

Definition convertChangeSet (cs : ChangeSet) : ChangeSet :=
  {| Pairs := map (fun p => {| kv_Delete := kv_Delete p; kv_Key := kv_Key p; kv_Value := kv_Value p |}) (Pairs cs) |}.

Definition convertCommitInfo (c : CommitInfo) : CommitInfo :=
  {| ci_Version := ci_Version c;
     ci_StoreInfos := map (fun s => {| si_Name := si_Name s;
       si_CommitId := {| cid_Version := cid_Version (si_CommitId s); cid_Hash := cid_Hash (si_CommitId s) |} |})
       (ci_StoreInfos c) |}.

(** The infos sorted by the names of the stores. *)
Definition buildCommitInfo (storeInfos : list StoreInfo) (version : Z) : CommitInfo :=
  {| ci_Version := version; ci_StoreInfos := SliceStable si_Name storeInfos |}.

Definition SizeHash : nat := 32.

Section verify.
  Context `{SortOps, SnappyOps, ZlibOps} `{CacheOps C}.

(** The hash is copied into an array. *)
Definition lastCommitID (tree : Tree C) : res CommitID :=
  v ← Tree.Version tree;
  Ok {| cid_Version := v; cid_Hash := take SizeHash (RootHash tree ++ replicate SizeHash x00) |}.

(** The callback of the iteration over a file. *)
Definition replay_version (targetVersion version : Z) (changeSet : ChangeSet) : SE (Tree C) bool := fun tree =>
  match Tree.Version tree with
  | Ok tv =>
      if version <=? tv then (tree, Ok true)
      else
        let tree := Tree.ApplyChangeSet tree (convertChangeSet changeSet) in
        match Tree.SaveVersion tree false with
        | Ok (_, v, tree) =>
            if negb (v =? version) then (tree, Err "version don't match")
            else (tree, Ok ((targetVersion =? 0) || (v <? targetVersion)))
        | Err e => (tree, Err e)
        | Panic => (tree, Panic)
        end
  | Err e => (tree, Err e)
  | Panic => (tree, Panic)
  end.

(** The loop over the files, with the error that ends it. *)
Fixpoint replay_files (targetVersion : Z) (files : list (bytes * Z)) (tree : Tree C) : res (Tree C * option error) :=
  match files with
  | [] => Ok (tree, None)
  | (reader, version) :: files =>
      if (0 <? targetVersion) && (u64 targetVersion <? version) then Ok (tree, None)
      else
        '(tree, _, err) ← IterateChangeSets (replay_version targetVersion) reader tree;
        match err with
        | Some e => Ok (tree, Some e)
        | None =>
            v ← Tree.Version tree;
            if (0 <? targetVersion) && (targetVersion <=? v) then Ok (tree, None)
            else replay_files targetVersion files tree
        end
  end.

(** The tree of the store at the target version; none if the store does not exist before. *)
Definition replay_store (tree : Tree C) (store : bytes) (dir : changeSetDir) (targetVersion : Z) : res (option (Tree C)) :=
  filesWithVersion ← scanChangeSetFiles dir store;
  match filesWithVersion with
  | [] => Ok None
  | (_, initialVersion) :: _ =>
      if (0 <? targetVersion) && (u64 targetVersion <? initialVersion) then Ok None
      else
        tree ← Tree.SetInitialVersion tree (i64 initialVersion);
        '(tree, err) ← replay_files targetVersion filesWithVersion tree;
        match err with Some e => Err e | None => Ok (Some tree) end
  end.

(** [saveSnapshot]: whether the snapshot is written, into a folder of the state. *)
Definition verifyOneStore (tree : Tree C) (store : bytes) (dir : changeSetDir) (saveSnapshot : bool) (targetVersion : Z)
    : SE MDir (option StoreInfo) :=
  tree ← lift (replay_store tree store dir targetVersion);
  match tree with
  | None => mret None
  | Some tree =>
      (if saveSnapshot then
         m ← gets (fun m => m);
         m ← lift (write_store (fun _ => Background) m {| nt_Tree := tree; nt_Name := store |});
         modify (fun _ => m)
       else mret tt) ;;
      commitID ← lift (lastCommitID tree);
      mret (Some {| si_Name := store; si_CommitId := commitID |})
  end.

(** The tasks in the order in which they run; the infos are appended and the versions
    compared under a lock. *)
Fixpoint verify_stores (mtree : MultiTree C) (dir : changeSetDir) (saveSnapshot : bool) (targetVersion : Z) (stores : list bytes)
    (storeInfos : list StoreInfo) (latestVersion : Z) : SE MDir (list StoreInfo * Z) :=
  match stores with
  | [] => mret (storeInfos, latestVersion)
  | store :: stores =>
      tree ← lift (TreeByName mtree store);
      info ← verifyOneStore (default (New 0) tree) store dir saveSnapshot targetVersion;
      match info with
      | None => verify_stores mtree dir saveSnapshot targetVersion stores storeInfos latestVersion
      | Some info =>
          let v := cid_Version (si_CommitId info) in
          verify_stores mtree dir saveSnapshot targetVersion stores (storeInfos ++ [info])
            (if latestVersion <? v then v else latestVersion)
      end
  end.

(** The commit info, with the snapshot written if asked. *)
Definition VerifyChangeSet (loadSnapshot : option MDir) (dir : changeSetDir) (saveSnapshot : bool) (targetVersion : Z)
    (stores : list bytes) : SE MDir CommitInfo :=
  mtree ← lift (match loadSnapshot with None => Ok (NewEmptyMultiTree 0 0) | Some d => LoadMultiTree d true 0 end);
  '(storeInfos, latestVersion) ← verify_stores mtree dir saveSnapshot targetVersion stores [] 0;
  let commitInfo := buildCommitInfo storeInfos latestVersion in
  (if saveSnapshot then
     bz ← lift (MultiTreeMetadata_Marshal {| md_CommitInfo := Some (convertCommitInfo commitInfo); md_InitialVersion := 0 |});
     m ← gets (fun m => m);
     m ← lift (WriteFileSync m MetadataFileName bz);
     modify (fun _ => m)
   else mret tt) ;;
  mret commitInfo.

(** ** The result *)

(** The hash in hexadecimal and the commit info in JSON. *)
Variable render : CommitInfo -> bytes.

Definition verifiedFileName (version : Z) : bytes := str "verified-" ++ decimal version.

(** What is printed; [files] are the files beside the stores. *)
Definition report (check save : bool) (commitInfo : CommitInfo) : SE (gmap bytes bytes) bytes :=
  let buf := render commitInfo in
  let name := verifiedFileName (ci_Version commitInfo) in
  if check then
    files ← gets (fun files => files);
    match files !! name with
    | None => throw "file does not exist"
    | Some bz => if bool_decide (buf = bz) then mret [] else throw "verify result don't match"
    end
  else if save then modify (fun files => <[name := buf]> files) ;; mret []
  else mret buf.
End verify.
