(* ===== verification/VerifyInv.v ===== *)
(** * Verified change sets are the state of the target version

    Replaying the files of a store gives the tree with the contents of its change sets up
    to the target, and the snapshot that is saved loads as a multi-tree with these trees and
    the commit info that is printed. *)

From Stdlib Require Import Strings.Byte ZArith Lia.
From stdpp Require Import base list numbers strings pretty gmap sorting.
From S2P Require Import Prelude Binary Codec Proto ProtoInv ProtoCodec Sha256 State Sort ExtSort ExtSortInv Node NodeInv Snapshot SnapshotWriter Cache Tree.
From S2P Require Import MultiTree MultiTreeInv MultiTreeSim MultiTreeSnapshot MultiTreeProps SnapshotDir SnapshotDirInv.
From S2P Require Import ChangeSetFile ChangeSetFileInv Convert ConvertInv ChangeSetDir Dump DumpInv Verify.
Local Open Scope Z_scope.

(** Versions that follow each other from [v]. *)
Fixpoint consecutive (v : Z) (vs : list (Z * ChangeSet)) : Prop :=
  match vs with
  | [] => True
  | (w, _) :: vs => w = v /\ consecutive (v + 1) vs
  end.

Lemma consecutive_app v vs ws : consecutive v (vs ++ ws) <-> consecutive v vs /\ consecutive (v + zlen vs) ws.
Proof.
  revert v. induction vs as [|[w cs] vs IH]; intros v; cbn [app consecutive].
  - change (zlen []) with 0. rewrite Z.add_0_r. tauto.
  - rewrite IH, zlen_cons. replace (v + 1 + zlen vs) with (v + (1 + zlen vs)) by lia. tauto.
Qed.

(** The pairs of the versions after [from] up to the target. *)
Fixpoint due (targetVersion from : Z) (vs : list (Z * ChangeSet)) : list KVPair :=
  match vs with
  | [] => []
  | (v, cs) :: vs =>
      if (from <? v) && ((targetVersion =? 0) || (v <=? targetVersion))
      then Pairs cs ++ due targetVersion from vs else due targetVersion from vs
  end.

Lemma due_from target a b v vs : consecutive v vs -> a < v -> b < v -> due target a vs = due target b vs.
Proof.
  revert v. induction vs as [|[w cs] vs IH]; intros v; cbn [consecutive due]; [done|]. intros (-> & Hc) Ha Hb.
  rewrite !(proj2 (Z.ltb_lt _ v)), (IH (v + 1)) by (done || lia). done.
Qed.

Lemma due_after target a v vs : 0 < target -> consecutive v vs -> target < v -> due target a vs = [].
Proof.
  intros Ht. revert v. induction vs as [|[w cs] vs IH]; intros v; cbn [consecutive due]; [done|]. intros (-> & Hc) Hv.
  rewrite (proj2 (Z.eqb_neq target 0)), (proj2 (Z.leb_gt v target)), andb_false_r, (IH (v + 1)) by (done || lia). done.
Qed.

Section replay.
  Context `{CacheLaws C}.
  Implicit Types (t : Tree C) (vs ws : list (Z * ChangeSet)).

(** A change set and its version. *)
Definition save_block t (cs : ChangeSet) : Tree C := with_version (Tree.ApplyChangeSet t cs) (version t + 1).

(** Pairs that were written and read have the same effect. *)
Lemma ApplyChangeSet_read t cs :
  Tree.ApplyChangeSet t (convertChangeSet {| Pairs := map read_back (Pairs cs) |}) = Tree.ApplyChangeSet t cs.
Proof.
  unfold Tree.ApplyChangeSet, convertChangeSet. cbn [Pairs]. rewrite map_map. revert t.
  induction (Pairs cs) as [|p ps IH]; intros t; [done|]. cbn [map foldl]. rewrite IH. f_equal.
  unfold apply_pair, read_back. cbn [kv_Delete kv_Key kv_Value]. by destruct (kv_Delete p).
Qed.

(** What the loops compute. *)
Fixpoint replay_changes (target : Z) t vs : Tree C :=
  match vs with
  | [] => t
  | (v, cs) :: vs =>
      if v <=? version t then replay_changes target t vs
      else if (target =? 0) || (v <? target) then replay_changes target (save_block t cs) vs
      else save_block t cs
  end.

Lemma replay_version_step target v cs t :
  0 <= version t -> v < MaxInt64 -> v <= version t + 1 -> version t <= MaxInt64 ->
  replay_version target v {| Pairs := map read_back (Pairs cs) |} t =
    if v <=? version t then (t, Ok true) else (save_block t cs, Ok ((target =? 0) || (v <? target))).
Proof.
  intros H0' Hv Hle Hm. unfold MaxInt64 in *. unfold replay_version, Tree.Version, MaxInt64.
  rewrite (proj2 (Z.ltb_ge _ _)), i64_small by lia. destruct (Z.leb_spec v (version t)) as [|Hlt]; [done|].
  rewrite ApplyChangeSet_read. unfold Tree.SaveVersion, MaxInt64. rewrite ApplyChangeSet_version, u64_small by lia.
  rewrite (proj2 (Z.ltb_ge _ _)) by lia. cbn [version with_version]. rewrite i64_small by lia.
  rewrite (proj2 (Z.eqb_eq (version t + 1) v)) by lia. cbn [negb]. unfold save_block. do 3 f_equal.
  replace (version t + 1) with v by lia. done.
Qed.

Lemma visit_replay target vs v0 t last :
  consecutive v0 vs -> v0 <= version t + 1 -> 0 <= version t <= MaxInt64 -> v0 + zlen vs <= MaxInt64 ->
  exists size, visit_versions (replay_version target) None (map (fun '(v, cs) => read_version true v cs) vs) last t =
    Ok (replay_changes target t vs, size, None).
Proof.
  revert v0 t last. induction vs as [|[v cs] vs IH]; intros v0 t last; cbn [consecutive map visit_versions replay_changes]; [eauto|].
  intros (-> & Hc) Hle Ht Hb. rewrite zlen_cons in Hb. pose proof (zlen_nonneg vs). unfold read_version at 1. cbn [visit_versions].
  rewrite replay_version_step by (unfold MaxInt64 in *; lia). destruct (Z.leb_spec v0 (version t)) as [Hold|Hnew].
  - apply (IH (v0 + 1)); [done|lia|lia|lia].
  - destruct (_ || _) eqn:E; [|eauto]. apply (IH (v0 + 1)); [done|..]; cbn [save_block version with_version]; lia.
Qed.

Lemma IterateChangeSets_replay target vs v0 t :
  file_ok vs -> zlen (file_bytes vs) < 2 ^ 63 -> consecutive v0 vs -> v0 <= version t + 1 -> 0 <= version t <= MaxInt64 ->
  v0 + zlen vs <= MaxInt64 ->
  exists size, IterateChangeSets (replay_version target) (file_bytes vs) t = Ok (replay_changes target t vs, size, None).
Proof.
  intros Hok Hl Hc Hle Ht Hb. unfold IterateChangeSets.
  destruct (iterate_loop_visit (replay_version target) true vs [] (S (length (file_bytes vs))) 0 t Hok cut_off_nil)
    as (end_ & E & Hend); [rewrite app_nil_r; lia|lia|lia|].
  rewrite app_nil_r in E. rewrite E, (Hend eq_refl). by apply (visit_replay target vs v0).
Qed.

(** ** The version of the result *)

Lemma replay_version_is target vs v0 t :
  consecutive v0 vs -> v0 <= version t + 1 -> 0 <= target -> (target = 0 \/ version t < target) ->
  version (replay_changes target t vs) =
    if target =? 0 then Z.max (version t) (v0 + zlen vs - 1) else Z.min target (Z.max (version t) (v0 + zlen vs - 1)).
Proof.
  intros Hc Hle Ht0. revert v0 t Hc Hle. induction vs as [|[v cs] vs IH]; intros v0 t; cbn [consecutive replay_changes].
  { intros _ Hle Ht. change (zlen []) with 0. destruct (Z.eqb_spec target 0); lia. }
  intros (-> & Hc) Hle Ht. rewrite zlen_cons. pose proof (zlen_nonneg vs). destruct (Z.leb_spec v0 (version t)).
  { rewrite (IH (v0 + 1)) by (done || lia). destruct (Z.eqb_spec target 0); lia. }
  assert (Ev : version (save_block t cs) = v0) by (cbn; lia).
  destruct (Z.eqb_spec target 0) as [->|Hne]; cbn [orb].
  - rewrite (IH (v0 + 1)) by (done || lia || (by left)). cbn [Z.eqb]. lia.
  - destruct (Z.ltb_spec v0 target).
    + rewrite (IH (v0 + 1)) by (done || lia). lia.
    + rewrite Ev. lia.
Qed.

Lemma replay_app target vs ws v0 t :
  consecutive v0 vs -> v0 <= version t + 1 -> 0 <= target -> (target = 0 \/ version t < target) ->
  replay_changes target t (vs ++ ws) =
    if (target =? 0) || (version (replay_changes target t vs) <? target) then replay_changes target (replay_changes target t vs) ws else replay_changes target t vs.
Proof.
  intros Hc Hle Ht0. revert v0 t Hc Hle. induction vs as [|[v cs] vs IH]; intros v0 t; cbn [consecutive replay_changes app].
  { intros _ Hle Ht. destruct (Z.eqb_spec target 0); [done|]. by rewrite (proj2 (Z.ltb_lt (version t) target)) by lia. }
  intros (-> & Hc) Hle Ht. destruct (Z.leb_spec v0 (version t)).
  { apply (IH (v0 + 1)); (done || lia). }
  assert (Ev : version (save_block t cs) = v0) by (cbn; lia).
  destruct (Z.eqb_spec target 0) as [->|Hne]; cbn [orb].
  - apply (IH (v0 + 1)); (done || lia || (by left)).
  - destruct (Z.ltb_spec v0 target).
    + apply (IH (v0 + 1)); (done || lia).
    + rewrite Ev. by rewrite (proj2 (Z.ltb_ge v0 target)) by lia.
Qed.

(** ** The contents of the result *)

Definition all_pairs vs : list KVPair := concat (map (fun '(_, cs) => Pairs cs) vs).

Lemma save_block_contents t cs :
  tree_ok t -> tree_size t + zlen (Pairs cs) < max_leaves ->
  tree_ok (save_block t cs) /\ contents (root (save_block t cs)) = foldl kv_apply (contents (root t)) (Pairs cs).
Proof.
  intros Ht Hs. destruct (ApplyChangeSet_contents t cs Ht Hs) as [[Hw Hc] E]. by repeat split.
Qed.

Lemma tree_sorted t : tree_ok t -> kv_sorted (contents (root t)).
Proof. intros Ht. apply wf_root_sorted, (to_wf t Ht). Qed.

Lemma replay_contents target vs v0 t :
  consecutive v0 vs -> v0 <= version t + 1 -> 0 <= target -> (target = 0 \/ version t < target) ->
  tree_ok t -> tree_size t + zlen (all_pairs vs) < max_leaves ->
  tree_ok (replay_changes target t vs) /\
  contents (root (replay_changes target t vs)) = foldl kv_apply (contents (root t)) (due target (version t) vs).
Proof.
  intros Hc Hle Ht0. revert v0 t Hc Hle. induction vs as [|[v cs] vs IH]; intros v0 t; cbn [consecutive replay_changes due]; [done|].
  intros (-> & Hc) Hle Ht Hok Hs. unfold all_pairs in Hs. cbn [map concat] in Hs. rewrite zlen_app in Hs. fold (all_pairs vs) in Hs.
  pose proof (zlen_nonneg (Pairs cs)). pose proof (zlen_nonneg (all_pairs vs)).
  destruct (Z.leb_spec v0 (version t)) as [Hold|Hnew].
  { rewrite (proj2 (Z.ltb_ge _ _)) by lia. apply (IH (v0 + 1)); (done || lia). }
  destruct (save_block_contents t cs Hok) as (Hok' & E); [lia|].
  assert (Ev : version (save_block t cs) = v0) by (cbn; lia).
  assert (Hle' : (target =? 0) || (v0 <=? target) = true) by (rewrite orb_true_iff, Z.eqb_eq, Z.leb_le; lia).
  rewrite (proj2 (Z.ltb_lt (version t) v0)), Hle' by lia. cbn [andb]. rewrite foldl_app, <- E. destruct (_ || (v0 <? target)) eqn:Et.
  - rewrite orb_true_iff, Z.eqb_eq, Z.ltb_lt in Et. rewrite (due_from _ _ v0 (v0 + 1)), <- Ev by (done || lia).
    apply (IH (v0 + 1)); [done|lia|lia|done|]. unfold tree_size in *. rewrite E.
    pose proof (foldl_kv_apply_zlen (Pairs cs) _ (tree_sorted t Hok)). lia.
  - rewrite orb_false_iff, Z.eqb_neq, Z.ltb_ge in Et. by rewrite (due_after _ _ (v0 + 1)) by (done || lia).
Qed.

(** ** The files *)

Lemma file_bytes_app vs ws : file_bytes (vs ++ ws) = file_bytes vs ++ file_bytes ws.
Proof. unfold file_bytes. by rewrite map_app, concat_app. Qed.

Lemma replay_files_ok target vss v0 t :
  Forall (fun vs => vs <> []) vss -> file_ok (concat vss) -> zlen (file_bytes (concat vss)) < 2 ^ 63 ->
  consecutive v0 (concat vss) -> 1 <= v0 <= version t + 1 -> v0 + zlen (concat vss) <= MaxInt64 -> version t <= MaxInt64 ->
  0 <= target <= MaxInt64 -> (target = 0 \/ version t < target) ->
  replay_files target (map (fun vs => (file_bytes vs, first_version vs)) vss) t = Ok (replay_changes target t (concat vss), None).
Proof.
  intros Hne. revert v0 t. induction Hne as [|vs vss Hvs Hne IH]; intros v0 t; [done|]. cbn [concat map replay_files].
  intros Hok Hl Hc Hv Hb Hm Ht Hd. apply Forall_app in Hok as [Hok1 Hok2]. apply consecutive_app in Hc as [Hc1 Hc2].
  rewrite file_bytes_app, zlen_app in Hl. rewrite zlen_app in Hb. pose proof (zlen_nonneg (concat vss)).
  pose proof (zlen_nonneg (file_bytes vs)). pose proof (zlen_nonneg (file_bytes (concat vss))). unfold MaxInt64 in *.
  assert (Ef : first_version vs = v0).
  { destruct vs as [|[v cs] vs]; [done|]. destruct Hc1 as [-> _]. cbn [first_version]. rewrite zlen_cons in Hb.
    pose proof (zlen_nonneg vs). apply u64_small. lia. }
  rewrite Ef, u64_small by lia.
  assert (Hstart : (0 <? target) && (target <? v0) = false) by (rewrite andb_false_iff, !Z.ltb_ge; lia). rewrite Hstart.
  destruct (IterateChangeSets_replay target vs v0 t) as (size & E); [done|lia|done|lia|unfold MaxInt64; lia|unfold MaxInt64; lia|].
  rewrite E. cbn [mbind res_bind]. rewrite (replay_app target vs _ v0) by (done || lia).
  pose proof (replay_version_is target vs v0 t Hc1 ltac:(lia) ltac:(lia) Hd) as Ev.
  set (t1 := replay_changes target t vs) in *. pose proof (zlen_nonneg vs).
  assert (Hv1 : version t <= version t1 <= 2 ^ 63 - 1 /\ (target = 0 \/ version t1 <= target) /\
    (version t1 < target \/ target = 0 -> v0 + zlen vs <= version t1 + 1))
    by (rewrite Ev; destruct (Z.eqb_spec target 0); lia).
  unfold Tree.Version, MaxInt64. rewrite (proj2 (Z.ltb_ge _ (version t1))), i64_small by lia. cbn [mbind res_bind].
  destruct (_ || _) eqn:Eg.
  - rewrite orb_true_iff, Z.eqb_eq, Z.ltb_lt in Eg.
    assert (Hstop : (0 <? target) && (target <=? version t1) = false) by (rewrite andb_false_iff, Z.ltb_ge, Z.leb_gt; lia).
    rewrite Hstop. apply (IH (v0 + zlen vs)); (done || lia).
  - rewrite orb_false_iff, Z.eqb_neq, Z.ltb_ge in Eg.
    assert (Hstop : (0 <? target) && (target <=? version t1) = true) by (rewrite andb_true_iff, Z.ltb_lt, Z.leb_le; lia).
    by rewrite Hstop.
Qed.
End replay.

(** Sorting the infos is sorting the stores. *)
Lemma infos_sort `{CacheOps C} (l l' : list (NamedTree C)) v :
  l ≡ₚ l' -> sorted_by nt_Name l' -> SliceStable si_Name (infos l v) = infos l' v.
Proof.
  intros Hp Hs. assert (En : forall l : list (NamedTree C), map si_Name (infos l v) = map nt_Name l)
    by (intros l0; unfold infos; by rewrite map_map).
  apply (sorted_by_unique si_Name).
  - apply SliceStable_sorted. rewrite En, (Permutation_map nt_Name Hp). by apply sorted_by_NoDup.
  - unfold sorted_by. by rewrite En.
  - rewrite SliceStable_perm. unfold infos. by rewrite Hp.
Qed.

Section command.
  Context `{SortOps, SnappyOps, ZlibOps} `{CacheLaws C}.
  (** The change sets of the stores and the versions they start at. *)
  Variables (dir : changeSetDir) (changes : bytes -> list (Z * ChangeSet)) (start : bytes -> Z) (target : Z).

(** The files of the store go from its first version to the target at least. *)
Record verifiable (store : bytes) : Prop := {
  vf_holds : holds store dir (changes store);
  vf_file : file_ok (changes store);
  vf_bytes : zlen (file_bytes (changes store)) < 2 ^ 63;
  vf_consecutive : consecutive (start store) (changes store);
  vf_start : 1 <= start store;
  vf_end : target < start store + zlen (changes store) <= MaxInt64;
  vf_pairs : zlen (all_pairs (changes store)) < max_leaves
}.

Definition fresh (store : bytes) : Tree C := with_version (New 0) (start store - 1).
Definition replayed (store : bytes) : Tree C := replay_changes target (fresh store) (changes store).
Definition exists_at (store : bytes) : bool := start store <=? target.

Lemma replay_store_ok store :
  0 < target <= MaxInt64 -> verifiable store ->
  replay_store (New (C := C) 0) store dir target = Ok (if exists_at store then Some (replayed store) else None).
Proof.
  intros Ht [(vss & Es & Hne & Ec) Hf Hl Hc Hs He _]. unfold replay_store, exists_at, MaxInt64 in *. rewrite Es. cbn [mbind res_bind].
  destruct Hne as [|vs vss Hvs Hne].
  { rewrite <- Ec in He. change (zlen _) with 0 in He. by rewrite (proj2 (Z.leb_gt _ _)) by lia. }
  cbn [map].
  assert (Ef : first_version vs = start store).
  { rewrite <- Ec in Hc. cbn [concat] in Hc. destruct vs as [|[v cs] vs]; [done|]. destruct Hc as [-> _]. cbn [first_version].
    pose proof (zlen_nonneg (changes store)). apply u64_small. lia. }
  pose proof (zlen_nonneg (changes store)).
  rewrite Ef, u64_small, (proj2 (Z.ltb_lt 0 target)), Z.ltb_antisym by lia. cbn [andb].
  destruct (Z.leb_spec (start store) target); cbn [negb]; [|done].
  unfold Tree.SetInitialVersion. rewrite i64_small, (proj2 (Z.ltb_ge _ 0)), u64_small by lia. cbn [mbind res_bind].
  unfold Tree.setInitialVersion. change (version (New (C := C) 0)) with 0. cbn [Z.ltb Z.compare].
  rewrite (proj2 (Z.ltb_ge _ 1)) by lia. fold (fresh store). rewrite <- Ef.
  change ((file_bytes vs, first_version vs) :: map (fun vs => (file_bytes vs, first_version vs)) vss)
    with (map (fun vs => (file_bytes vs, first_version vs)) (vs :: vss)).
  unfold replayed. rewrite <- Ec in *. rewrite (replay_files_ok target (vs :: vss) (start store)); [done|by constructor|done|done|done| | | | |];
    cbn [fresh version with_version]; unfold MaxInt64; lia.
Qed.

Lemma replayed_version store : 0 < target -> verifiable store -> start store <= target -> version (replayed store) = target.
Proof.
  intros Ht [_ _ _ Hc Hs He _] Hle. unfold replayed. rewrite (replay_version_is target _ (start store)); [|done|cbn; lia|lia|cbn; lia].
  rewrite (proj2 (Z.eqb_neq target 0)) by lia. lia.
Qed.

(** The contents of the store after the change sets up to the target. *)
Lemma replayed_contents store :
  0 < target -> verifiable store -> start store <= target ->
  kv_map (contents (root (replayed store))) = foldl map_apply ∅ (due target 0 (changes store)).
Proof.
  intros Ht [_ _ _ Hc Hs He Hp] Hle.
  destruct (replay_contents target (changes store) (start store) (fresh store)) as (_ & E); [done|cbn; lia|lia|cbn; lia| |done|].
  - split; [done|]. intros c k v Hc' Hk. by apply (NewCache_sound 0 c k v) in Hk.
  - unfold replayed. rewrite E, foldl_kv_apply_map by constructor.
    f_equal. apply (due_from target _ _ (start store)); [done|cbn; lia|lia].
Qed.

(** ** The stores *)

Definition entry_of (store : bytes) : NamedTree C := {| nt_Tree := replayed store; nt_Name := store |}.
Definition present (stores : list bytes) : list bytes := List.filter exists_at stores.
Definition entries (stores : list bytes) : list (NamedTree C) := map entry_of (present stores).

Lemma RootHash_length (t : Tree C) : length (RootHash t) = 32%nat.
Proof.
  unfold RootHash. destruct (root t) as [n|]; [|apply Sha256.length_Sum256]. pose proof (HashNode_zlen n). unfold zlen in *. lia.
Qed.

Lemma lastCommitID_of (t : Tree C) v :
  version t = v -> 0 <= v <= MaxInt64 -> lastCommitID t = Ok {| cid_Version := v; cid_Hash := RootHash t |}.
Proof.
  intros <- Hv. unfold lastCommitID, Tree.Version. rewrite (proj2 (Z.ltb_ge _ _)) by lia. cbn [mbind res_bind].
  unfold MaxInt64 in *. rewrite i64_small by lia. unfold SizeHash. rewrite <- (RootHash_length t), take_app_length. done.
Qed.

Lemma verifyOneStore_ok (save : bool) store m m' :
  0 < target <= MaxInt64 -> verifiable store ->
  (if save then write_stores (fun _ => Background) m (entries [store]) else Ok m) = Ok m' ->
  verifyOneStore (New 0) store dir save target m =
    (m', Ok (head (infos (entries [store]) target))).
Proof.
  intros Ht Hv Ew. unfold verifyOneStore. unfold mbind at 1, SE_bind, lift at 1. rewrite replay_store_ok by done.
  unfold entries, present in *. cbn [List.filter] in *. unfold exists_at in *.
  destruct (Z.leb_spec (start store) target) as [Hle|Hgt]; [|destruct save; cbn in Ew; by injection Ew as <-].
  cbn [map infos head nt_Tree nt_Name entry_of write_stores] in *.
  assert (Hc : lastCommitID (replayed store) = Ok {| cid_Version := target; cid_Hash := RootHash (replayed store) |})
    by (apply lastCommitID_of; [apply replayed_version; (done || lia)|lia]).
  destruct save.
  - apply res_bind_ok in Ew as (m1 & Ew & [= ->]). unfold mbind, SE_bind, gets, lift, modify, mret, SE_ret.
    fold (entry_of store). rewrite Ew. by rewrite Hc.
  - injection Ew as ->. unfold mbind, SE_bind, lift, mret, SE_ret. by rewrite Hc.
Qed.

Lemma entries_cons s stores : entries (s :: stores) = entries [s] ++ entries stores.
Proof. unfold entries, present. cbn [List.filter]. by destruct (exists_at s). Qed.

Lemma write_stores_app ctx m l1 l2 :
  write_stores (C := C) ctx m (l1 ++ l2) = m1 ← write_stores ctx m l1; write_stores ctx m1 l2.
Proof.
  revert m. induction l1 as [|e l1 IH]; intros m; [done|]. cbn [app write_stores].
  destruct (write_store ctx m e); [apply IH|done|done].
Qed.

Lemma verify_stores_ok (save : bool) stores acc latest m m' :
  0 < target <= MaxInt64 -> Forall verifiable stores -> latest <= target ->
  (if save then write_stores (fun _ => Background) m (entries stores) else Ok m) = Ok m' ->
  verify_stores (NewEmptyMultiTree (C := C) 0 0) dir save target stores acc latest m =
    (m', Ok (acc ++ infos (entries stores) target, match entries stores with [] => latest | _ => target end)).
Proof.
  intros Ht Hv. revert acc latest m. induction Hv as [|s stores Hs Hv IH]; intros acc latest m Hl Ew; cbn [verify_stores].
  { rewrite app_nil_r. destruct save; cbn in Ew; by injection Ew as <-. }
  rewrite entries_cons in *. unfold mbind at 1, SE_bind, lift.
  change (TreeByName (NewEmptyMultiTree 0 0) s) with (Ok (A := option (Tree C)) None). cbn [default].
  assert (exists m1, (if save then write_stores (fun _ => Background) m (entries [s]) else Ok m) = Ok m1 /\
    (if save then write_stores (fun _ => Background) m1 (entries stores) else Ok m1) = Ok m') as (m1 & E1 & E2).
  { destruct save; [|by exists m]. rewrite write_stores_app in Ew. apply res_bind_ok in Ew as (m1 & ? & ?). by exists m1. }
  unfold mbind, SE_bind. rewrite (verifyOneStore_ok save s m m1 Ht Hs E1).
  assert (Es : entries [s] = if exists_at s then [entry_of s] else []) by (unfold entries, present; cbn; by destruct (exists_at s)).
  rewrite Es. destruct (exists_at s); cbn [map infos head app].
  - cbn [si_CommitId cid_Version]. destruct (Z.ltb_spec latest target); (rewrite IH by (done || lia)); do 3 f_equal;
      [by rewrite <- app_assoc|by destruct (entries stores)|by rewrite <- app_assoc|destruct (entries stores); [lia|done]].
  - by apply IH.
Qed.

(** ** The multi-tree *)

Variables (names : list bytes).
Hypotheses (Htarget : 0 < target <= MaxInt64) (Hnames : NoDup names) (Hmeta : MetadataFileName ∉ names).
Hypothesis Hverifiable : Forall verifiable names.

Definition verified : MultiTree C :=
  let l := SliceStable nt_Name (entries names) in
  {| initialVersion := 0; mt_zeroCopy := false; cacheSize := 0; trees := l; treesByName := index_from 0 l ∅;
     lastCommitInfo := {| ci_Version := target; ci_StoreInfos := infos l target |};
     metadata := {| md_CommitInfo := None; md_InitialVersion := 0 |} |}.

Lemma entries_names : map nt_Name (entries names) = present names.
Proof. unfold entries. rewrite map_map. apply map_id. Qed.

Lemma present_elem s : s ∈ present names <-> s ∈ names /\ start s <= target.
Proof. unfold present. rewrite !list_elem_of_In, filter_In. unfold exists_at. by rewrite Z.leb_le. Qed.

Lemma present_NoDup : NoDup (map nt_Name (entries names)).
Proof. rewrite entries_names. apply NoDup_ListNoDup, List.NoDup_filter. by apply NoDup_ListNoDup. Qed.

Lemma entries_versions : Forall (fun e => version (nt_Tree e) = target) (entries names).
Proof.
  apply Forall_map, Forall_forall. intros s [Hs Hle]%present_elem. rewrite Forall_forall in Hverifiable.
  apply replayed_version; [lia|by apply Hverifiable|done].
Qed.

Lemma verified_ok : mt_ok verified.
Proof.
  pose proof present_NoDup as Hd. split; cbn [verified trees treesByName].
  - by apply SliceStable_sorted.
  - apply index_from_ok. by rewrite (Permutation_map nt_Name (SliceStable_perm nt_Name _)).
  - unfold MultiTreeInv.version_ok, Version. cbn. unfold MaxInt64 in *. lia.
  - rewrite SliceStable_perm. eapply Forall_impl; [apply entries_versions|]. cbn. intros e ->.
    unfold tree_version, Version. cbn. rewrite (proj2 (Z.eqb_neq _ _)) by lia. done.
Qed.

Lemma verified_committed : committed verified.
Proof.
  unfold committed, MultiTree.buildCommitInfo. cbn [verified trees]. rewrite (store_infos_at _ target); [done|lia|].
  rewrite SliceStable_perm. apply entries_versions.
Qed.

Lemma verified_stores s :
  stores verified !! s = if decide (s ∈ names /\ start s <= target) then Some (replayed s) else None.
Proof.
  unfold stores. cbn [verified trees]. rewrite (to_map_perm _ (entries names)); [| |apply SliceStable_perm].
  2: by rewrite (Permutation_map nt_Name (SliceStable_perm nt_Name _)); apply present_NoDup.
  destruct (decide _) as [Hs|Hs].
  - apply to_map_lookup; [apply present_NoDup|]. apply present_elem in Hs.
    apply list_elem_of_lookup in Hs as (i & Hi). exists i, (entry_of s). split; [|done]. unfold entries.
    by rewrite list_lookup_fmap, Hi.
  - apply to_map_None. by rewrite entries_names, present_elem.
Qed.

Lemma infos_sorted : SliceStable si_Name (infos (entries names) target) = infos (SliceStable nt_Name (entries names)) target.
Proof. apply infos_sort; [by rewrite SliceStable_perm|apply SliceStable_sorted, present_NoDup]. Qed.

Lemma verify_convert_id c : convertCommitInfo c = c.
Proof.
  destruct c as [v l]. unfold convertCommitInfo. cbn [ci_Version ci_StoreInfos]. f_equal.
  rewrite <- (map_id l) at 2. apply map_ext. by intros [? []].
Qed.

Hypothesis Hsome : exists s, s ∈ names /\ start s <= target.

Lemma entries_some : match entries names with [] => 0 | _ => target end = target.
Proof.
  destruct Hsome as (s & Hs%present_elem). unfold entries. revert Hs.
  destruct (present names); [by intros Hs%elem_of_nil|done].
Qed.

Hypothesis Hfits : Forall (fun s => snapshottable_root (root (replayed s))) (present names).
Hypothesis Hsize : zlen (MultiTreeMetadata_bytes (mt_metadata verified)) < 2 ^ 63.

Lemma verified_writable : mt_writable verified.
Proof.
  split; [apply verified_ok| | | |apply Hsize].
  - cbn [verified trees]. rewrite SliceStable_perm. apply Forall_map, Forall_forall. intros s Hs.
    rewrite Forall_forall in Hfits. split; [by apply Hfits|]. cbn [entry_of nt_Tree].
    apply present_elem in Hs as [Hs Hle]. rewrite Forall_forall in Hverifiable.
    rewrite replayed_version; [|lia|by apply Hverifiable|done]. unfold MaxInt64 in *. lia.
  - cbn [verified trees]. rewrite (Permutation_map nt_Name (SliceStable_perm nt_Name _)), entries_names, present_elem. tauto.
  - apply (committed_ok _ target verified_ok); [|lia|apply verified_committed].
    unfold tree_version, Version. cbn. by rewrite (proj2 (Z.eqb_neq _ _)) by lia.
Qed.

(** The command with and without the snapshot. *)
Lemma VerifyChangeSet_ok (save : bool) m :
  (if save then WriteSnapshotWithContext (fun _ => Background) ∅ verified else Ok ∅) = Ok m ->
  VerifyChangeSet (C := C) None dir save target names ∅ = (m, Ok (lastCommitInfo verified)).
Proof.
  intros Ew. assert (exists m1, (if save then write_stores (fun _ => Background) ∅ (entries names) else Ok ∅) = Ok m1 /\
    (if save then bz ← MultiTreeMetadata_Marshal (mt_metadata verified); WriteFileSync m1 MetadataFileName bz else Ok m1) = Ok m)
    as (m1 & E1 & E2).
  { destruct save; [|by exists ∅]. unfold WriteSnapshotWithContext in Ew. apply res_bind_ok in Ew as (m1 & E1 & E2).
    exists m1. split; [|done]. apply (write_stores_perm _ (trees verified)); [apply SliceStable_perm| |exact E1].
    cbn [verified trees]. rewrite (Permutation_map nt_Name (SliceStable_perm nt_Name _)). apply present_NoDup. }
  unfold VerifyChangeSet. unfold mbind at 1, SE_bind, lift at 1. unfold mbind at 1, SE_bind.
  rewrite (verify_stores_ok save names [] 0 ∅ m1 Htarget Hverifiable ltac:(lia) E1).
  rewrite entries_some, app_nil_l. unfold buildCommitInfo. rewrite infos_sorted. fold (lastCommitInfo verified).
  change {| ci_Version := target; ci_StoreInfos := infos (SliceStable nt_Name (entries names)) target |} with (lastCommitInfo verified).
  rewrite verify_convert_id. destruct save; [|by injection E2 as ->].
  apply res_bind_ok in E2 as (bz & Eb & Ef). unfold mbind, SE_bind, lift, gets, modify, mret, SE_ret.
  change {| md_CommitInfo := Some (lastCommitInfo verified); md_InitialVersion := 0 |} with (mt_metadata verified).
  by rewrite Eb, Ef.
Qed.
End command.

Section correct.
  Context `{SortOps, SnappyOps, ZlibOps} `{CacheLaws C}.

Lemma verified_perm changes start target names names' :
  NoDup names -> names ≡ₚ names' -> verified (C := C) changes start target names = verified changes start target names'.
Proof.
  intros Hd Hp. unfold verified.
  assert (E : SliceStable nt_Name (entries (C := C) changes start target names) = SliceStable nt_Name (entries changes start target names')).
  { apply SliceStable_unique; [by apply present_NoDup|]. unfold entries, present. apply Permutation_map.
    clear Hd. induction Hp; cbn [List.filter]; [done| | |by etrans]; repeat case_match; by econstructor. }
  by rewrite E.
Qed.

(** C28: Replaying the change sets of the stores on empty trees gives the state of the target
    version: the snapshot that is saved loads as a multi-tree at that version whose commit
    info is the one that is printed and the one of its trees, it has the stores that exist
    at that version, each with the changes of its versions up to the target, and nothing
    else.  The order in which the tasks run does not matter, nor whether a snapshot is saved. *)
Theorem verify_correct dir changes start target names zc size :
  0 < target <= MaxInt64 -> NoDup names -> MetadataFileName ∉ names ->
  Forall (verifiable dir changes start target) names -> (exists s, s ∈ names /\ start s <= target) ->
  Forall (fun s => snapshottable_root (root (replayed (C := C) changes start target s))) (present start target names) ->
  zlen (MultiTreeMetadata_bytes (mt_metadata (verified (C := C) changes start target names))) < 2 ^ 63 ->
  exists m info t', VerifyChangeSet (C := C) None dir true target names ∅ = (m, Ok info) /\
    VerifyChangeSet (C := C) None dir false target names ∅ = (∅, Ok info) /\
    (forall names', names ≡ₚ names' -> VerifyChangeSet (C := C) None dir true target names' ∅ = (m, Ok info)) /\
    LoadMultiTree m zc size = Ok t' /\ Version t' = target /\ lastCommitInfo t' = info /\ committed t' /\
    forall s, match TreeByName t' s with
      | Ok (Some tr) => s ∈ names /\ start s <= target /\
          kv_map (contents (root tr)) = foldl map_apply ∅ (due target 0 (changes s))
      | Ok None => ~ (s ∈ names /\ start s <= target)
      | _ => False
      end.
Proof.
  intros Ht Hd Hm Hv Hs Hf Hsz.
  pose proof (verified_writable dir changes start target names Ht Hd Hm Hv Hf Hsz) as Hw.
  destruct (write_load (fun _ => Background) _ zc size Hw ltac:(done)) as (m & t' & Ew & El & Hsim & Hi & _).
  assert (Hcmd : forall save m', (if save : bool then WriteSnapshotWithContext (fun _ => Background) ∅
      (verified (C := C) changes start target names) else Ok ∅) = Ok m' -> forall names', names ≡ₚ names' ->
    VerifyChangeSet (C := C) None dir save target names' ∅ = (m', Ok (lastCommitInfo (verified (C := C) changes start target names)))).
  { intros save m' E names' Hp. rewrite (verified_perm _ _ _ _ names') in * by done. apply VerifyChangeSet_ok; [done|by rewrite <- Hp|by rewrite <- Hp|by setoid_rewrite <- Hp|done]. }
  exists m. eexists. exists t'. split; [by apply (Hcmd true)|]. split; [by apply (Hcmd false)|]. split; [by apply (Hcmd true)|].
  split; [done|]. split; [by rewrite <- (sim_version _ _ Hsim)|]. split; [done|].
  split; [by apply (committed_sim _ _ Hsim), (verified_committed dir)|]. intros s.
  rewrite TreeByName_stores by (apply (mt_ok_sim _ t' (verified_ok dir _ _ _ _ Ht Hd Hv) Hsim)).
  pose proof (stores_same _ _ s Hsim) as Hst. rewrite verified_stores in Hst by done.
  destruct (decide _) as [Hin|Hout]; inversion Hst as [tr1 tr2 [_ Hr]|]; subst; [|done].
  destruct Hin as [Hin Hle]. split; [done|]. split; [done|]. rewrite <- Hr. rewrite Forall_forall in Hv.
  apply (replayed_contents dir); [lia|by apply Hv|done].
Qed.
End correct.

(** ** Witness *)

Definition put (k v : string) : KVPair := {| kv_Delete := false; kv_Key := str k; kv_Value := Some (str v) |}.
Definition bank_changes : list (Z * ChangeSet) :=
  [(1, {| Pairs := [put "a" "1"; put "b" "1"] |}); (2, {| Pairs := [put "a" "2"] |}); (3, {| Pairs := [put "a" "3"] |})].
Definition gov_changes : list (Z * ChangeSet) := [(2, {| Pairs := [put "p" "1"] |}); (3, {| Pairs := [] |})].

(** Two files for bank, the second of which sorts first by its name. *)
Definition sample_dir : changeSetDir :=
  {[ str "bank" := {[ str "late" := file_bytes (take 2 bank_changes); str "block-3" := file_bytes (drop 2 bank_changes) ]};
     str "gov" := {[ str "block-2.zz" := file_bytes gov_changes ]} ]}.
Definition sample_change (store : bytes) : list (Z * ChangeSet) :=
  if bool_decide (store = str "bank") then bank_changes else gov_changes.
Definition sample_start (store : bytes) : Z := if bool_decide (store = str "bank") then 1 else 2.

Lemma sample_verifiable : Forall (verifiable sample_dir sample_change sample_start 2) [str "gov"; str "bank"].
Proof.
  assert (Hf : forall s, file_ok (sample_change s)).
  { intros s. unfold sample_change. case_bool_decide; repeat constructor; cbn [kv_Key kv_Value value_of default]; by vm_compute. }
  apply Forall_cons. split; [|apply Forall_singleton]; (split; [|apply Hf|..]; [|by vm_compute..]).
  - exists [gov_changes]. split; [by vm_compute|]. split; [by repeat constructor|done].
  - exists [take 2 bank_changes; drop 2 bank_changes]. split; [by vm_compute|]. split; [by repeat constructor|done].
Qed.

Lemma verify_correct_witness :
  exists m info t', VerifyChangeSet (C := lru) None sample_dir true 2 [str "gov"; str "bank"] ∅ = (m, Ok info) /\
    LoadMultiTree (C := lru) m true 0 = Ok t' /\ Version t' = 2 /\ lastCommitInfo t' = info /\
    map si_Name (ci_StoreInfos info) = [str "bank"; str "gov"] /\
    exists tr, TreeByName t' (str "bank") = Ok (Some tr) /\
      kv_map (contents (root tr)) = {[ str "a" := str "2"; str "b" := str "1" ]}.
Proof.
  destruct (verify_correct (C := lru) sample_dir sample_change sample_start 2 [str "gov"; str "bank"] true 0)
    as (m & info & t' & E & _ & _ & El & Ev & Ei & Hc & Hs).
  - unfold MaxInt64. lia.
  - apply NoDup_cons; split; [rewrite list_elem_of_singleton; discriminate|apply NoDup_singleton].
  - rewrite elem_of_cons, list_elem_of_singleton. intros [E|E]; discriminate E.
  - apply sample_verifiable.
  - exists (str "bank"). split; [right; left|by vm_compute].
  - pose proof (writableb_sound (map (entry_of (C := lru) sample_change sample_start 2) (present sample_start 2 [str "gov"; str "bank"]))
      ltac:(vm_compute; reflexivity)) as Hw.
    apply (Forall_map (entry_of sample_change sample_start 2)) in Hw. eapply Forall_impl; [exact Hw|]. by intros s [Hr _].
  - vm_compute. reflexivity.
  - exists m, info, t'. split; [exact E|]. split; [exact El|]. split; [exact Ev|]. split; [exact Ei|]. split.
    + pose proof (f_equal snd E) as E'. vm_compute in E'. injection E' as <-. reflexivity.
    + clear E El. specialize (Hs (str "bank")).
      destruct (TreeByName t' (str "bank")) as [[tr|]|e|]; [|exfalso; apply Hs|destruct Hs|destruct Hs].
      * exists tr. split; [reflexivity|]. destruct Hs as (_ & _ & ->). apply (bool_decide_unpack _). vm_compute. reflexivity.
      * split; [right; left|]. unfold sample_start. vm_compute. discriminate.
Defined.
