(* ===== verification/RestoreAppDB.v ===== *)
(** * Restoring the application database (client/changeset/restore_app_db.go)

    The command [restore-app-db] turns the snapshots of memiavl trees into the database of
    the IAVL trees of an application: the nodes of a tree go through the external sorter,
    by their hashes, into SST files, which the database ingests; the root of each tree and
    the commit info of the application are added.  Interfaces: RocksDB with its writer of
    SST files, the formats of the keys of [cosmos/iavl], and the protobuf encoders of the
    SDK. *)

From Stdlib Require Import Strings.Byte ZArith Lia.
From stdpp Require Import base list numbers strings pretty gmap sorting.
From S2P Require Import Prelude Binary Codec Proto State Sort ExtSort Node NodeIface Snapshot Cache Tree MultiTree SnapshotDir VersionDB.
From S2P Require Import Dump Verify.
Local Open Scope Z_scope.

(** [keyformat]: the keys of the nodes and of the roots, [n<hash>] and [r<version>]. *)
Class IavlKeys := {
  nodeKeyFormat_Key : bytes -> bytes;
  rootKeyFormat_Key : Z -> bytes
}.

(** The encoders of the metadata. *)
Class SdkCodec := {
  sdk_CommitInfo_Marshal : CommitInfo -> res bytes;
  StdInt64Marshal : Z -> res bytes
}.

(** The directory of a RocksDB database: the writer of SST files of a task, the names of the
    files, and the database. *)
Class AppDirOps (A : Type) := {
  raw_Open : bytes -> SE A unit;
  raw_Put : bytes -> bytes -> SE A unit;
  raw_Finish : SE A unit;
  raw_FileSize : A -> Z;
  raw_ReadDir : A -> list bytes;
  app_Ingest : list bytes -> SE A unit;
  app_Put : bytes -> bytes -> SE A unit
}.

Definition StoreSSTFileName (store : bytes) (seq : Z) : bytes :=
  str "tmp-" ++ store ++ str "-" ++ decimal seq ++ str ".sst".
Definition commitInfoKey (version : Z) : bytes := str "s/" ++ decimal version.
Definition latestVersionKey : bytes := str "s/latest".

(** ** Nodes *)

Section nodes.
  Variable snapshot : Snapshot.
  Implicit Type node : PersistedNode.

(** The height is a [uint8], which the conversion to [int64] keeps. *)
Definition encodeNode node : res bytes :=
  height ← Persisted.Height snapshot node;
  size ← Persisted.Size snapshot node;
  version ← Persisted.Version snapshot node;
  key ← Persisted.Key snapshot node;
  rest ← (if height =? 0 then
            value ← Persisted.Value snapshot node;
            Ok (EncodeBytes (default [] value))
          else
            left ← Persisted.Left snapshot node;
            leftHash ← Persisted.Hash snapshot left;
            right ← Persisted.Right snapshot node;
            rightHash ← Persisted.Hash snapshot right;
            Ok (EncodeBytes leftHash ++ EncodeBytes rightHash));
  Ok (PutVarint height ++ PutVarint size ++ PutVarint (i64 version) ++ EncodeBytes key ++ rest).

Definition encodeSorterNode node : res bytes :=
  hash ← Persisted.Hash snapshot node;
  bz ← encodeNode node;
  Ok (hash ++ bz).

(** The loops of [ScanNodes] over the [n] leaves or branches from [i]. *)
Fixpoint scan_from {St} (callback : PersistedNode -> SE St unit) (leaf : bool) (i : Z) (n : nat) : SE St unit :=
  match n with
  | O => mret tt
  | S n => callback {| isLeaf := leaf; index := u32 i |} ;; scan_from callback leaf (i + 1) n
  end.

Definition ScanNodes {St} (callback : PersistedNode -> SE St unit) : SE St unit :=
  scan_from callback true 0 (Z.to_nat (leavesLen snapshot)) ;;
  scan_from callback false 0 (Z.to_nat (nodesLen snapshot)).

(** The items sent to the sorter. *)
Definition send_node node : SE (list bytes) unit :=
  bz ← lift (encodeSorterNode node);
  modify (fun items => items ++ [bz]).
End nodes.

(** The items are those of [encodeSorterNode]: a shorter slice panics. *)
Definition compareSorterNode (a b : bytes) : res bool :=
  ha ← of_option (slice a 0 Snapshot.SizeHash);
  hb ← of_option (slice b 0 Snapshot.SizeHash);
  Ok (cmp_int (Compare ha hb) =? -1).
Definition lesserNode (a b : bytes) : bool := match compareSorterNode a b with Ok c => c | _ => false end.

Definition sorter_node_opts (sorterChunkSize : Z) : Options :=
  {| MaxChunkSize := i64 sorterChunkSize; LesserFunc := lesserNode; DeltaEncoding := false; SnappyCompression := true |}.

(** ** A store *)

Section restore.
  Context `{SortOps, SnappyOps, IavlKeys, SdkCodec} {A : Type} `{AppDirOps A}.

Definition openNextFile (store : bytes) (sstSeq : Z) : SE A unit := raw_Open (StoreSSTFileName store sstSeq).

(** The loop over the sorted items; [sstSeq] is the number of the next file. *)
Fixpoint write_nodes (store : bytes) (sstFileSizeTarget sstSeq : Z) (items : list bytes) : SE A unit :=
  match items with
  | [] => mret tt
  | item :: items =>
      hash ← lift (of_option (slice item 0 Snapshot.SizeHash));
      let value := drop (Z.to_nat Snapshot.SizeHash) item in
      let key := cloneAppend (storePrefix store) (nodeKeyFormat_Key hash) in
      raw_Put key value ;;
      size ← gets raw_FileSize;
      if sstFileSizeTarget <=? size then
        raw_Finish ;; openNextFile store sstSeq ;; write_nodes store sstFileSizeTarget (sstSeq + 1) items
      else write_nodes store sstFileSizeTarget sstSeq items
  end.

(** The items reach the sorter as [weave] mixes them with the chunks that are done. *)
Definition oneStore (store : bytes) (snapshot : Snapshot) (sstFileSizeTarget sorterChunkSize : Z)
    (weave : list bytes -> list event) (sched : list (nat * option error)) : SE A unit :=
  let '(items, err) := ScanNodes snapshot (send_node snapshot) [] in
  lift err ;;
  output ← lift (Spawn (sorter_node_opts sorterChunkSize) (weave items) sched);
  openNextFile store 0 ;;
  write_nodes store sstFileSizeTarget 1 output ;;
  (if MaxInt64 <? snap_version snapshot then throw "snapshot version overflows int64" else mret tt) ;;
  let rootKey := cloneAppend (storePrefix store) (rootKeyFormat_Key (i64 (snap_version snapshot))) in
  rootHash ← lift (if Snapshot.IsEmpty snapshot then Ok []
                   else root ← Snapshot.RootNode snapshot; Persisted.Hash snapshot root);
  raw_Put rootKey rootHash ;;
  raw_Finish.

(** ** The command *)

(** The snapshots, the infos of the stores and the latest version. *)
Fixpoint open_snapshots `{CacheOps C} (snapshotDir : MDir) (stores : list bytes) (storeInfos : list StoreInfo) (latestVersion : Z)
    : res (list (bytes * Snapshot) * list StoreInfo * Z) :=
  match stores with
  | [] => Ok ([], storeInfos, latestVersion)
  | store :: stores =>
      snapshot ← match snapshotDir !! store with Some (Folder d) => OpenSnapshot d | _ => Err ErrNotExist end;
      tree ← NewFromSnapshot (C := C) snapshot true 0;
      commitID ← lastCommitID tree;
      let storeInfos := storeInfos ++ [{| si_Name := store; si_CommitId := commitID |}] in
      '(snapshots, storeInfos, latestVersion) ← open_snapshots snapshotDir stores storeInfos
        (if latestVersion <? cid_Version commitID then cid_Version commitID else latestVersion);
      Ok ((store, snapshot) :: snapshots, storeInfos, latestVersion)
  end.

Definition writeMetadata (cInfo : CommitInfo) : SE A unit :=
  bz ← lift (sdk_CommitInfo_Marshal cInfo);
  app_Put (commitInfoKey (ci_Version cInfo)) bz ;;
  bz ← lift (StdInt64Marshal (ci_Version cInfo));
  app_Put latestVersionKey bz.

Definition isTmpName (name : bytes) : bool := HasPrefix name (str "tmp-").

(** The tasks of the stores run one after the other, each with a writer of its own. *)
Definition RestoreAppDB `{CacheOps C} (snapshotDir : MDir) (stores : list bytes) (sstFileSizeTarget sorterChunkSize : Z)
    (weave : list bytes -> list event) (sched : list (nat * option error)) : SE A CommitInfo :=
  '(snapshots, storeInfos, latestVersion) ← lift (open_snapshots (C := C) snapshotDir stores [] 0);
  let commitInfo := Verify.buildCommitInfo storeInfos latestVersion in
  for_each (fun '(store, snapshot) => oneStore store snapshot sstFileSizeTarget sorterChunkSize weave sched) snapshots ;;
  entries ← gets raw_ReadDir;
  app_Ingest (List.filter isTmpName entries) ;;
  writeMetadata commitInfo ;;
  mret commitInfo.
End restore.
