(* ===== verification/RestoreAppDBInv.v ===== *)
(** * The application database that is restored holds the trees

    A reference reader of the database rebuilds the trees of the snapshot from it. *)

From Stdlib Require Import Strings.Byte ZArith Lia.
From stdpp Require Import base list numbers strings pretty gmap sorting.
From S2P Require Import Prelude Binary Codec Proto ProtoInv Sha256 State Sort ExtSort ExtSortInv Node NodeInv NodeIface Iterator.
From S2P Require Import Snapshot SnapshotInv SnapshotWriter Cache Tree MultiTree MultiTreeInv MultiTreeSim MultiTreeSnapshot MultiTreeProps.
From S2P Require Import SnapshotDir SnapshotDirInv VersionDB VersionDBIter Convert ConvertInv Dump DumpInv Verify VerifyInv RestoreAppDB.
Local Open Scope Z_scope.

(** ** Reading nodes *)

(** [binary.ReadVarint] *)
Definition ReadVarint (r : bytes) : res (Z * bytes) :=
  '(ux, r) ← ReadUvarint r;
  Ok (if Z.even ux then ux / 2 else - (ux / 2) - 1, r).

Lemma lxor_max a : 0 <= a < 2 ^ 64 -> Z.lxor a MaxUint64 = MaxUint64 - a.
Proof.
  intros Ha. change MaxUint64 with (Z.ones 64). assert (E : a + Z.lxor a (Z.ones 64) = Z.ones 64); [|lia].
  rewrite Z.add_nocarry_lxor.
  - by rewrite <- Z.lxor_assoc, Z.lxor_nilpotent, Z.lxor_0_l.
  - apply Z.bits_inj'. intros i Hi. rewrite Z.land_spec, Z.lxor_spec, Z.bits_0. destruct (Z.lt_ge_cases i 64).
    + rewrite Z.ones_spec_low by lia. by destruct (Z.testbit a i).
    + destruct (Z.eq_dec a 0) as [->|]; [by rewrite Z.bits_0|].
      rewrite (Z.bits_above_log2 a i); [done|lia|]. apply Z.log2_lt_pow2; [lia|]. eapply Z.lt_le_trans; [apply Ha|].
      apply Z.pow_le_mono_r; lia.
Qed.

Lemma ReadVarint_PutVarint x rest : - 2 ^ 63 <= x < 2 ^ 63 -> ReadVarint (PutVarint x ++ rest) = Ok (x, rest).
Proof.
  intros Hx. unfold ReadVarint, PutVarint. rewrite Z.shiftl_mul_pow2 by lia. change (2 ^ 1) with 2.
  destruct (Z.ltb_spec x 0).
  - assert (E : u64 (u64 x * 2) = 2 * x + 2 ^ 64).
    { unfold u64. rewrite Z.mul_mod_idemp_l by lia. rewrite <- (Z.mod_small (2 * x + 2 ^ 64) (2 ^ 64)) by lia.
      rewrite <- (Z.mod_add (x * 2) 1 (2 ^ 64)) by lia. f_equal. lia. }
    rewrite E, lxor_max by lia. unfold MaxUint64. rewrite ReadUvarint_PutUvarint by lia. cbn [mbind res_bind].
    replace (2 ^ 64 - 1 - (2 * x + 2 ^ 64)) with (2 * (- x - 1) + 1) by lia.
    rewrite Z.even_add, Z.even_mul. cbn [Z.even orb Bool.eqb]. rewrite <- (Z.div_unique (2 * (- x - 1) + 1) 2 (- x - 1) 1) by lia.
    do 2 f_equal. lia.
  - rewrite (u64_small x), (u64_small (x * 2)) by lia. rewrite ReadUvarint_PutUvarint by lia. cbn [mbind res_bind].
    rewrite Z.even_mul, orb_true_r, Z.div_mul by lia. done.
Qed.

Definition ReadBytes (r : bytes) : res (bytes * bytes) := '(n, r) ← ReadUvarint r; ReadFull n r.

Lemma ReadBytes_EncodeBytes bz rest : zlen bz < 2 ^ 64 -> ReadBytes (EncodeBytes bz ++ rest) = Ok (bz, rest).
Proof.
  intros Hl. pose proof (zlen_nonneg bz). unfold ReadBytes, EncodeBytes. rewrite <- app_assoc, ReadUvarint_PutUvarint by lia.
  cbn [mbind res_bind]. apply ReadFull_app.
Qed.

(** What is stored for a node. *)
Definition node_bytes (n : Node) : bytes :=
  match n with
  | Leaf v k x => PutVarint 0 ++ PutVarint 1 ++ PutVarint (i64 v) ++ EncodeBytes k ++ EncodeBytes x
  | Branch h s v k l r =>
      PutVarint h ++ PutVarint s ++ PutVarint (i64 v) ++ EncodeBytes k ++ EncodeBytes (HashNode l) ++ EncodeBytes (HashNode r)
  end.
Definition node_item (n : Node) : bytes := HashNode n ++ node_bytes n.

Lemma encodeNode_bytes s x n lc bc : persists s x n lc bc -> encodeNode s x = Ok (node_bytes n).
Proof.
  intros Hp. pose proof (persists_reads _ _ _ _ _ Hp) as [R1 _ R3 R4 R5 R6 _]. unfold encodeNode.
  cbn [node_Height node_Size node_Version node_Key node_Value persisted_ops] in R1, R3, R4, R5, R6.
  rewrite R1, R3, R4, R5. cbn [mbind res_bind]. destruct n as [v k w|h sz v k l r]; cbn [Height Size Version Key].
  - cbn [Z.eqb]. rewrite R6. done.
  - pose proof (ps_fields _ _ _ _ _ Hp) as (-> & _). pose proof (height_nonneg l). pose proof (height_nonneg r).
    rewrite (proj2 (Z.eqb_neq _ 0)) by lia.
    destruct (persists_Left _ _ _ _ _ _ _ _ _ _ Hp) as (y & -> & Pl). destruct (persists_Right _ _ _ _ _ _ _ _ _ _ Hp) as (z & -> & Pr).
    cbn [mbind res_bind]. pose proof (reads_Hash _ _ (persists_reads _ _ _ _ _ Pl)) as Hl.
    pose proof (reads_Hash _ _ (persists_reads _ _ _ _ _ Pr)) as Hr. cbn [node_Hash persisted_ops] in Hl, Hr.
    rewrite Hl, Hr. done.
Qed.

Lemma send_node_ok s x n lc bc items : persists s x n lc bc -> send_node s x items = (items ++ [node_item n], Ok tt).
Proof.
  intros Hp. unfold send_node, encodeSorterNode, mbind at 1, SE_bind, lift, modify.
  pose proof (reads_Hash _ _ (persists_reads _ _ _ _ _ Hp)) as Hh. cbn [node_Hash persisted_ops] in Hh.
  by rewrite Hh, (encodeNode_bytes _ _ _ _ _ Hp).
Qed.

(** ** Scanning a snapshot *)

Fixpoint leaf_nodes (n : Node) : list Node :=
  match n with Leaf _ _ _ => [n] | Branch _ _ _ _ l r => leaf_nodes l ++ leaf_nodes r end.
Fixpoint branch_nodes (n : Node) : list Node :=
  match n with Leaf _ _ _ => [] | Branch _ _ _ _ l r => branch_nodes l ++ branch_nodes r ++ [n] end.
Definition all_nodes (r : option Node) : list Node :=
  match r with None => [] | Some n => leaf_nodes n ++ branch_nodes n end.

Lemma scan_from_app {St} (cb : PersistedNode -> SE St unit) leaf i n m st :
  scan_from cb leaf i (n + m) st = (scan_from cb leaf i n ;; scan_from cb leaf (i + Z.of_nat n) m) st.
Proof.
  revert i st. induction n as [|n IH]; intros i st; cbn [scan_from Nat.add].
  - unfold mbind, SE_bind, mret, SE_ret. by rewrite Z.add_0_r.
  - unfold mbind, SE_bind in *. destruct (cb _ st) as [st1 [[]|e|]]; [|done..]. rewrite IH.
    by replace (i + 1 + Z.of_nat n) with (i + Z.of_nat (S n)) by lia.
Qed.

Lemma scan_leaves s n lc bc items :
  persists s (node_of n lc bc) n lc bc ->
  scan_from (send_node s) true lc (Z.to_nat (leaves n)) items = (items ++ map node_item (leaf_nodes n), Ok tt).
Proof.
  revert lc bc items. induction n as [v k w|h sz v k l IHl r IHr]; intros lc bc items Hp.
  - cbn [leaf_nodes map]. change (Z.to_nat (leaves (Leaf v k w))) with 1%nat. cbn [scan_from].
    pose proof (ps_counts _ _ _ _ _ Hp). pose proof (ps_range _ _ _ _ _ Hp). pose proof (leaves_pos (Leaf v k w)).
    rewrite u32_small by lia. unfold mbind, SE_bind, mret, SE_ret. by rewrite (send_node_ok s _ _ _ _ _ Hp).
  - destruct (persists_Left _ _ _ _ _ _ _ _ _ _ Hp) as (y & _ & Pl). destruct (persists_Right _ _ _ _ _ _ _ _ _ _ Hp) as (z & _ & Pr).
    pose proof (ps_node _ _ _ _ _ Pl) as ->. pose proof (ps_node _ _ _ _ _ Pr) as ->.
    pose proof (leaves_pos l). pose proof (leaves_pos r).
    rewrite leaves_Branch, Z2Nat.inj_add, scan_from_app by lia. unfold mbind, SE_bind. rewrite (IHl lc bc items Pl).
    rewrite Z2Nat.id by lia. rewrite (IHr _ _ _ Pr). cbn [leaf_nodes]. by rewrite map_app, <- app_assoc.
Qed.

Lemma scan_branches s n lc bc items :
  persists s (node_of n lc bc) n lc bc ->
  scan_from (send_node s) false bc (Z.to_nat (leaves n - 1)) items = (items ++ map node_item (branch_nodes n), Ok tt).
Proof.
  revert lc bc items. induction n as [v k w|h sz v k l IHl r IHr]; intros lc bc items Hp.
  - cbn [branch_nodes map]. by rewrite app_nil_r.
  - destruct (persists_Left _ _ _ _ _ _ _ _ _ _ Hp) as (y & _ & Pl). destruct (persists_Right _ _ _ _ _ _ _ _ _ _ Hp) as (z & _ & Pr).
    pose proof (ps_node _ _ _ _ _ Pl) as ->. pose proof (ps_node _ _ _ _ _ Pr) as ->.
    pose proof (leaves_pos l). pose proof (leaves_pos r). pose proof (ps_counts _ _ _ _ _ Hp). pose proof (ps_range _ _ _ _ _ Hp) as Hr.
    rewrite leaves_Branch in *.
    replace (Z.to_nat (leaves l + leaves r - 1)) with (Z.to_nat (leaves l - 1) + (Z.to_nat (leaves r - 1) + 1))%nat by lia.
    rewrite scan_from_app. unfold mbind, SE_bind. rewrite (IHl lc bc items Pl), scan_from_app. unfold mbind, SE_bind.
    replace (bc + Z.of_nat (Z.to_nat (leaves l - 1))) with (bc + leaves l - 1) by lia. rewrite (IHr _ _ _ Pr).
    cbn [scan_from]. replace (u32 _) with (bc + (leaves l + leaves r) - 2) by (rewrite u32_small; lia).
    unfold mbind, SE_bind, mret, SE_ret. cbn [node_of] in Hp. rewrite leaves_Branch in Hp.
    rewrite (send_node_ok s _ _ _ _ _ Hp). cbn [branch_nodes]. by rewrite !map_app, <- !app_assoc.
Qed.

Lemma ScanNodes_ok s r : snapshot_of s r -> ScanNodes s (send_node s) [] = (map node_item (all_nodes r), Ok tt).
Proof.
  unfold ScanNodes, leavesLen, nodesLen, mbind, SE_bind. destruct r as [n|]; cbn [snapshot_of all_nodes].
  - intros (p & _ & Hp & Hl & Hn). pose proof (leaves_pos n). rewrite Hl, Hn, !Z.div_mul by done.
    pose proof (ps_node _ _ _ _ _ Hp) as ->. rewrite (scan_leaves s n 0 0 [] Hp), (scan_branches s n 0 0 _ Hp).
    by rewrite map_app.
  - intros ->. done.
Qed.

(** ** The interfaces *)

(** The keys start with the letter of their format. *)
Class IavlKeysLaws `{IavlKeys} := {
  nodeKey_bytes : forall hash, length hash = 32%nat -> nodeKeyFormat_Key hash = x6e :: hash;
  rootKey_bytes : forall v, exists bz, rootKeyFormat_Key v = x72 :: bz
}.

Abbreviation kv_file := (list (bytes * bytes)).

(** The keys of one file are all before those of the other. *)
Definition apart (f g : kv_file) : Prop :=
  (forall x y, x ∈ f -> y ∈ g -> bytes_lt x.1 y.1) \/ (forall x y, x ∈ f -> y ∈ g -> bytes_lt y.1 x.1).

(** The keys of a file are added in ascending order, an empty file cannot be finished, and
    files with ranges that do not overlap can be ingested. *)
Class AppDirLaws A `{AppDirOps A} := {
  app_files : A -> gmap bytes kv_file;
  app_current : A -> option (bytes * kv_file);
  app_data : A -> gmap bytes bytes;
  raw_Open_ok : forall a name, app_current a = None -> app_files a !! name = None ->
    exists a', raw_Open name a = (a', Ok tt) /\ app_current a' = Some (name, []) /\ app_files a' = app_files a /\ app_data a' = app_data a;
  raw_Put_ok : forall a name file k v, app_current a = Some (name, file) ->
    (forall p, last file = Some p -> bytes_lt p.1 k) ->
    exists a', raw_Put k v a = (a', Ok tt) /\ app_current a' = Some (name, file ++ [(k, v)]) /\
      app_files a' = app_files a /\ app_data a' = app_data a;
  raw_Finish_ok : forall a name file, app_current a = Some (name, file) -> file <> [] ->
    exists a', raw_Finish a = (a', Ok tt) /\ app_current a' = None /\
      app_files a' = <[name := file]> (app_files a) /\ app_data a' = app_data a;
  raw_ReadDir_NoDup : forall a, NoDup (raw_ReadDir a);
  raw_ReadDir_tmp : forall a name, app_current a = None -> isTmpName name = true ->
    name ∈ raw_ReadDir a <-> is_Some (app_files a !! name);
  app_Ingest_ok : forall a names files, app_current a = None ->
    Forall2 (fun name file => app_files a !! name = Some file) names files -> Forall (fun f => f <> []) files ->
    StronglySorted apart files ->
    exists a', app_Ingest names a = (a', Ok tt) /\ app_data a' = list_to_map (concat files) ∪ app_data a;
  app_Put_ok : forall a k v, exists a', app_Put k v a = (a', Ok tt) /\ app_data a' = <[k := v]> (app_data a)
}.

(** ** Sorting *)

Definition hash_lt (x y : Node) : Prop := bytes_lt (HashNode x) (HashNode y).

#[export] Instance hash_lt_dec x y : Decision (hash_lt x y).
Proof. unfold hash_lt, bytes_lt. apply _. Defined.

Lemma node_item_hash n : slice (node_item n) 0 Snapshot.SizeHash = Some (HashNode n).
Proof. apply (slice_app [] (HashNode n)); [done|]. by rewrite HashNode_zlen. Qed.

Lemma HashNode_length n : length (HashNode n) = 32%nat.
Proof. apply Sha256.length_Sum256. Qed.

Lemma node_item_value n : drop (Z.to_nat Snapshot.SizeHash) (node_item n) = node_bytes n.
Proof. unfold node_item. apply drop_app_length'. by rewrite HashNode_length. Qed.

Definition is_node_item (item : bytes) : Prop := exists n, item = node_item n.

Lemma lesserNode_items m n : lesserNode (node_item m) (node_item n) = bool_decide (hash_lt m n).
Proof.
  unfold lesserNode, compareSorterNode. rewrite !node_item_hash. cbn [of_option mbind res_bind].
  case_bool_decide as Hlt; unfold hash_lt, bytes_lt in Hlt; [by rewrite Hlt|]. by destruct (Compare _ _).
Qed.

Lemma lesserNode_weak_order : weak_order is_node_item lesserNode.
Proof.
  split.
  - intros a b [m ->] [n ->]. rewrite !lesserNode_items, bool_decide_eq_true, bool_decide_eq_false. unfold hash_lt. intros ??. bytes_order.
  - intros a b c [m ->] [n ->] [o ->]. rewrite !lesserNode_items, !bool_decide_eq_false. unfold hash_lt. intros ???. bytes_order.
Qed.

(** A node whose item fits into a chunk of the sorter. *)
Definition small_node (n : Node) : Prop := zlen (node_item n) <= MaxUint32.

Lemma ordered_nodes l :
  NoDup (map HashNode l) -> ordered lesserNode (map node_item l) -> StronglySorted hash_lt l.
Proof.
  unfold ordered. induction l as [|n l IH]; [constructor|]. cbn [map]. intros [Hn Hd]%NoDup_cons [Hs Hf]%StronglySorted_inv.
  constructor; [by apply IH|]. apply Forall_map in Hf. rewrite Forall_forall in *. intros m Hm. specialize (Hf m Hm).
  cbn in Hf. rewrite lesserNode_items, bool_decide_eq_false in Hf. unfold hash_lt in *.
  assert (HashNode n <> HashNode m) by (intros E; apply Hn; rewrite E; by apply list_elem_of_fmap_2). bytes_order.
Qed.

Section writing.
  Context `{SortLaws, SnappyLaws, IavlKeysLaws} {A : Type} `{AppDirLaws A}.

Lemma sorted_nodes chunkSize weave sched l :
  fair weave sched -> 0 <= chunkSize <= 2 ^ 62 -> Forall small_node l -> NoDup (map HashNode l) ->
  exists l', Spawn (sorter_node_opts chunkSize) (weave (map node_item l)) sched = Ok (map node_item l') /\
    l' ≡ₚ l /\ StronglySorted hash_lt l'.
Proof.
  intros [Hfed Hcl] Hc Hin Hd.
  destruct (Spawn_cases (sorter_node_opts chunkSize) is_node_item lesserNode_weak_order (weave (map node_item l)) sched)
    as [(out & E & Hp & Ho)|[_ Hr]]; [cbn; rewrite i64_small; lia| | |rewrite Hfed in Hp|by rewrite Hcl in Hr].
  - rewrite Hfed. apply Forall_map. eapply Forall_impl; [exact Hin|]. done.
  - rewrite Hfed. apply Forall_map, Forall_true. intros n. by exists n.
  - destruct (Permutation_map_inv _ _ Hp) as (l' & -> & Hp'). exists l'. split; [done|]. split; [done|].
    apply ordered_nodes; [|done]. change (NoDup (HashNode <$> l')). by rewrite <- Hp'.
Qed.

(** ** Writing *)

Section store.
  Variable store : bytes.

Definition node_entry (n : Node) : bytes * bytes := (storePrefix store ++ nodeKeyFormat_Key (HashNode n), node_bytes n).

Lemma node_entry_lt m n : hash_lt m n -> bytes_lt (node_entry m).1 (node_entry n).1.
Proof.
  unfold hash_lt, node_entry, bytes_lt. cbn [fst]. rewrite Compare_prefix, !nodeKey_bytes by apply HashNode_length.
  cbn [Compare]. by rewrite N.compare_refl.
Qed.

(** Files that were added, under the numbers from [seq] on. *)
Definition numbered (seq : Z) (fs : list kv_file) : list (bytes * kv_file) :=
  zip (map (StoreSSTFileName store) (seqZ seq (zlen fs))) fs.

Definition adds (a a' : A) (fs : list (bytes * kv_file)) : Prop :=
  app_files a' = foldl (fun m p => <[p.1 := p.2]> m) (app_files a) fs /\ app_data a' = app_data a.

Lemma numbered_cons seq f fs : numbered seq (f :: fs) = (StoreSSTFileName store seq, f) :: numbered (seq + 1) fs.
Proof.
  unfold numbered. rewrite zlen_cons, seqZ_cons by lens. cbn [map zip zip_with].
  by replace (Z.pred (1 + zlen fs)) with (zlen fs) by lia.
Qed.

Lemma numbered_snoc seq fs f : numbered seq (fs ++ [f]) = numbered seq fs ++ [(StoreSSTFileName store (seq + zlen fs), f)].
Proof.
  revert seq. induction fs as [|g fs IH]; intros seq; [by rewrite Z.add_0_r|]. cbn [app]. rewrite !numbered_cons, IH, zlen_cons. cbn [app].
  by replace (seq + 1 + zlen fs) with (seq + (1 + zlen fs)) by lia.
Qed.

Lemma StoreSSTFileName_inj i j : StoreSSTFileName store i = StoreSSTFileName store j -> i = j.
Proof. unfold StoreSSTFileName. intros E%app_inv_head%app_inv_head%app_inv_head%app_inv_tail. by apply decimal_inj. Qed.

(** The loop from a file that has [file] so far: the files that it finishes and the last one. *)
Lemma write_nodes_ok target l : forall seq a file,
  app_current a = Some (StoreSSTFileName store seq, map node_entry file) ->
  StronglySorted hash_lt (file ++ l) -> (forall i, seq <= i -> app_files a !! StoreSSTFileName store i = None) ->
  exists a' fs file', write_nodes store target (seq + 1) (map node_item l) a = (a', Ok tt) /\
    adds a a' (numbered seq (map (map node_entry) fs)) /\ concat fs ++ file' = file ++ l /\ Forall (fun f => f <> []) fs /\
    app_current a' = Some (StoreSSTFileName store (seq + zlen fs), map node_entry file').
Proof.
  induction l as [|n l IH]; intros seq a file Hc Hs Hfree; cbn [map write_nodes].
  { exists a, [], file. rewrite app_nil_r. split; [done|]. split; [by split|]. split; [done|]. split; [done|].
    change (zlen []) with 0. by rewrite Z.add_0_r. }
  assert (Hs' : StronglySorted hash_lt ((file ++ [n]) ++ l)) by (by rewrite <- app_assoc).
  unfold mbind at 1, SE_bind at 1, lift. rewrite node_item_hash. cbn [of_option]. rewrite node_item_value.
  destruct (raw_Put_ok a _ _ (node_entry n).1 (node_entry n).2 Hc) as (a1 & E1 & Hc1 & Hf1 & Hd1).
  { intros p Hp. change (map node_entry file) with (node_entry <$> file) in Hp. rewrite fmap_last in Hp.
    destruct (last file) as [m|] eqn:El; [|done]. injection Hp as <-. apply node_entry_lt.
    apply last_Some in El as [file0 ->]. rewrite <- app_assoc in Hs. apply StronglySorted_app in Hs as (_ & _ & Hs).
    apply StronglySorted_inv in Hs as [_ Hs]. by apply Forall_cons in Hs as [? _]. }
  unfold mbind at 1, SE_bind at 1. unfold cloneAppend. cbn [node_entry fst snd] in E1. rewrite E1.
  unfold mbind at 1, SE_bind at 1, gets. change [(_, _)] with (map node_entry [n]) in Hc1. rewrite <- map_app in Hc1.
  destruct (target <=? raw_FileSize a1).
  - destruct (raw_Finish_ok a1 _ _ Hc1) as (a2 & E2 & Hc2 & Hf2 & Hd2); [by destruct file|].
    assert (Hfree2 : forall i, seq + 1 <= i -> app_files a2 !! StoreSSTFileName store i = None).
    { intros i Hi. rewrite Hf2, lookup_insert_ne, Hf1; [by apply Hfree; lia|]. intros ?%StoreSSTFileName_inj. lia. }
    destruct (raw_Open_ok a2 (StoreSSTFileName store (seq + 1)) Hc2) as (a3 & E3 & Hc3 & Hf3 & Hd3); [apply Hfree2; lia|].
    destruct (IH (seq + 1) a3 [] Hc3) as (a' & fs & file' & E & [Hfi Hda] & Hco & Hn & Hcu).
    { by apply StronglySorted_app in Hs' as (_ & _ & ?). } { by rewrite Hf3. }
    exists a', ((file ++ [n]) :: fs), file'. unfold mbind, SE_bind, openNextFile. rewrite E2, E3, E. split; [done|].
    split; [|split; [|split]].
    + cbn [map]. rewrite numbered_cons. split; [|congruence]. cbn [foldl fst snd]. rewrite Hfi, Hf3, Hf2, Hf1. done.
    + cbn [concat]. rewrite <- !app_assoc, Hco. done.
    + constructor; [by destruct file|done].
    + rewrite Hcu, zlen_cons. by replace (seq + 1 + zlen fs) with (seq + (1 + zlen fs)) by lia.
  - destruct (IH seq a1 (file ++ [n]) Hc1 Hs') as (a' & fs & file' & E & [Hfi Hda] & Hco & Hn & Hcu); [by rewrite Hf1|].
    exists a', fs, file'. rewrite E. split; [done|]. split; [split; [by rewrite Hfi, Hf1|congruence]|].
    split; [by rewrite Hco, <- app_assoc|]. done.
Qed.

Definition root_entry (r : option Node) (v : Z) : bytes * bytes :=
  (storePrefix store ++ rootKeyFormat_Key v, match r with None => [] | Some n => HashNode n end).
Definition store_entries (r : option Node) (v : Z) : kv_file := map node_entry (all_nodes r) ++ [root_entry r v].

Definition key_lt (x y : bytes * bytes) : Prop := bytes_lt x.1 y.1.

Lemma node_before_root n r v : key_lt (node_entry n) (root_entry r v).
Proof.
  unfold key_lt, node_entry, root_entry, bytes_lt. cbn [fst]. rewrite Compare_prefix, nodeKey_bytes by apply HashNode_length.
  by destruct (rootKey_bytes v) as [bz ->].
Qed.

Lemma entries_sorted l r v : StronglySorted hash_lt l -> StronglySorted key_lt (map node_entry l ++ [root_entry r v]).
Proof.
  intros Hs. apply StronglySorted_snoc.
  - eapply StronglySorted_fmap; [|exact Hs]. intros x y _ _. apply node_entry_lt.
  - intros y (n & -> & _)%list_elem_of_fmap. apply node_before_root.
Qed.

(** The files of a store hold its entries. *)
Record stored (r : option Node) (v : Z) (fs : list kv_file) : Prop := {
  st_entries : concat fs ≡ₚ store_entries r v;
  st_sorted : StronglySorted key_lt (concat fs);
  st_nonempty : Forall (fun f => f <> []) fs
}.

Lemma oneStore_ok s r target chunkSize weave sched a :
  fair weave sched -> 0 <= chunkSize <= 2 ^ 62 -> snapshot_of s r -> 0 <= snap_version s <= MaxInt64 ->
  Forall small_node (all_nodes r) -> NoDup (map HashNode (all_nodes r)) ->
  app_current a = None -> (forall i, 0 <= i -> app_files a !! StoreSSTFileName store i = None) ->
  exists a' fs, oneStore store s target chunkSize weave sched a = (a', Ok tt) /\
    adds a a' (numbered 0 fs) /\ stored r (snap_version s) fs /\ app_current a' = None.
Proof.
  intros Hfair Hcs Hs Hv Hsm Hd Hc Hfree. unfold oneStore. rewrite (ScanNodes_ok s r Hs).
  destruct (sorted_nodes chunkSize weave sched (all_nodes r) Hfair Hcs Hsm Hd) as (l & El & Hp & Hl).
  destruct (raw_Open_ok a (StoreSSTFileName store 0) Hc (Hfree 0 (Z.le_refl 0))) as (a1 & E1 & Hc1 & Hf1 & Hd1).
  destruct (write_nodes_ok target l 0 a1 [] Hc1 Hl) as (a2 & fs & file & E2 & [Hf2 Hd2] & Hco & Hn & Hc2);
    [intros i Hi; rewrite Hf1; by apply Hfree|]. rewrite Z.add_0_l in E2.
  assert (Hroot : (if Snapshot.IsEmpty s then Ok [] else root ← Snapshot.RootNode s; Persisted.Hash s root) = Ok (root_entry r (snap_version s)).2).
  { destruct r as [n|]; cbn [snapshot_of root_entry snd] in *.
    - destruct Hs as (p & Er & Hpn & _). unfold Snapshot.IsEmpty, Snapshot.RootNode. rewrite Er. cbn [of_option mbind res_bind].
      apply (reads_Hash _ _ (persists_reads _ _ _ _ _ Hpn)).
    - by rewrite Hs. }
  destruct (raw_Put_ok a2 _ _ (root_entry r (snap_version s)).1 (root_entry r (snap_version s)).2 Hc2) as (a3 & E3 & Hc3 & Hf3 & Hd3).
  { intros p Hlast. apply last_Some_elem_of in Hlast. apply list_elem_of_fmap in Hlast as (n & -> & _). apply node_before_root. }
  destruct (raw_Finish_ok a3 _ _ Hc3) as (a4 & E4 & Hc4 & Hf4 & Hd4); [by destruct file|].
  exists a4, (map (map node_entry) fs ++ [map node_entry file ++ [root_entry r (snap_version s)]]).
  unfold mbind in Hroot. unfold mbind, SE_bind, lift, openNextFile, mret, SE_ret, throw. rewrite El, E1, E2, (proj2 (Z.ltb_ge _ _)) by lia.
  unfold MaxInt64 in *. rewrite i64_small, Hroot by lia. unfold cloneAppend. cbn [root_entry fst snd] in *. rewrite E3, E4.
  split; [done|]. split; [|split; [|done]].
  - rewrite numbered_snoc, zlen_map. split; [|congruence]. rewrite foldl_app, <- Hf1, <- Hf2. cbn [foldl fst snd].
    by rewrite Hf4, Hf3.
  - assert (E : concat (map (map node_entry) fs ++ [map node_entry file ++ [root_entry r (snap_version s)]]) =
      map node_entry l ++ [root_entry r (snap_version s)]).
    { rewrite concat_app, <- concat_map. cbn [concat]. rewrite app_nil_r, app_assoc, <- map_app, Hco. done. }
    split; rewrite ?E.
    + unfold store_entries. by rewrite Hp.
    + by apply entries_sorted.
    + apply Forall_app. split; [|by repeat constructor; destruct file]. apply Forall_map. eapply Forall_impl; [exact Hn|]. by intros [].
Qed.
End store.
End writing.

(** ** Names and prefixes *)

Definition digit (b : Byte.byte) : Prop := 48 <= byte_to_Z b <= 57.

Lemma pretty_char_digit n : (n < 10)%N -> digit (Ascii.byte_of_ascii (pretty_N_char n)).
Proof.
  intros Hn. unfold digit. destruct n as [|p]; [by vm_compute|]. do 4 (destruct p as [p|p|]; try by vm_compute); lia.
Qed.

Lemma pretty_digits x : forall s, Forall digit (str s) -> Forall digit (str (pretty_N_go x s)).
Proof.
  induction x as [x IH] using (well_founded_induction N.lt_wf_0). intros s Hs. destruct (decide (x = 0)%N) as [->|Hx].
  - by rewrite pretty_N_go_0.
  - rewrite pretty_N_go_step by lia. apply IH; [apply N.div_lt; lia|]. cbn. constructor; [|done].
    apply pretty_char_digit, N.mod_lt. lia.
Qed.

Lemma decimal_digits v : 0 <= v -> Forall digit (decimal v).
Proof.
  intros Hv. unfold decimal. destruct v as [|p|p]; [|apply (pretty_digits (N.pos p)); constructor|lia].
  by repeat constructor.
Qed.

Lemma digit_not c v : 0 <= v -> ~ digit c -> c ∉ decimal v.
Proof. intros Hv Hc Hin. apply Hc. pose proof (decimal_digits v Hv) as Hd. rewrite Forall_forall in Hd. by apply Hd. Qed.

(** What precedes the last separator. *)
Lemma first_sep_inj {A} (x : A) b a d c : x ∉ b -> x ∉ d -> b ++ x :: a = d ++ x :: c -> b = d /\ a = c.
Proof.
  revert d. induction b as [|y b IH]; intros [|z d] Hb Hd E; cbn [app] in E.
  - by injection E.
  - injection E as <- _. by apply not_elem_of_cons in Hd as [? _].
  - injection E as -> _. by apply not_elem_of_cons in Hb as [? _].
  - injection E as -> E. apply not_elem_of_cons in Hb as [_ Hb]. apply not_elem_of_cons in Hd as [_ Hd].
    destruct (IH d Hb Hd E) as [-> ->]. done.
Qed.

Lemma last_sep_inj {A} (x : A) a b c d : x ∉ b -> x ∉ d -> a ++ x :: b = c ++ x :: d -> a = c.
Proof.
  intros Hb Hd E. apply (f_equal reverse) in E. rewrite !reverse_app, !reverse_cons, <- !app_assoc in E. cbn [app] in E.
  apply first_sep_inj in E as [_ E]; [by apply (inj reverse) in E|by rewrite elem_of_reverse..].
Qed.

Lemma StoreSSTFileName_store s1 s2 i j :
  0 <= i -> 0 <= j -> StoreSSTFileName s1 i = StoreSSTFileName s2 j -> s1 = s2.
Proof.
  intros Hi Hj E. unfold StoreSSTFileName in E. apply app_inv_head in E. rewrite !(app_assoc s1), !(app_assoc s2) in E.
  rewrite !(app_assoc _ (decimal _)) in E. apply app_inv_tail in E. rewrite <- !app_assoc in E.
  change (str "-") with [x2d] in E. cbn [app] in E. by apply last_sep_inj in E; [|apply digit_not; [done|unfold digit; cbn; lia]..].
Qed.

(** Keys under the prefixes of different stores are in the order of the stores. *)
Lemma storePrefix_apart s1 s2 (f g : kv_file) :
  slash ∉ s1 -> slash ∉ s2 -> s1 <> s2 ->
  Forall (fun p => exists k, p.1 = storePrefix s1 ++ k) f -> Forall (fun p => exists k, p.1 = storePrefix s2 ++ k) g -> apart f g.
Proof.
  intros H1 H2 Hne Hf Hg. rewrite Forall_forall in Hf. rewrite Forall_forall in Hg. unfold apart.
  destruct (storePrefix_order s1 s2 H1 H2 Hne) as [Ho|Ho]; [left|right]; intros x y Hx Hy;
    destruct (Hf x Hx) as [kx ->], (Hg y Hy) as [ky ->]; apply Ho.
Qed.

(** ** The stores *)

Lemma StronglySorted_symmetric {A} (R : A -> A -> Prop) l l' :
  (forall x y, R x y -> R y x) -> l ≡ₚ l' -> StronglySorted R l -> StronglySorted R l'.
Proof.
  intros Hsym. induction 1 as [|x l l' Hp IH|x y l|l l1 l2 _ IH1 _ IH2]; intros Hs; [done|..|by apply IH2, IH1].
  - apply StronglySorted_inv in Hs as [Hs Hf]. constructor; [by apply IH|by rewrite <- Hp].
  - apply StronglySorted_inv in Hs as [Hs Hy]. apply StronglySorted_inv in Hs as [Hs Hx].
    apply Forall_cons in Hy as [Hyx Hy]. constructor; [by constructor|constructor; [by apply Hsym|done]].
Qed.

Lemma apart_sym f g : apart f g -> apart g f.
Proof. intros [H|H]; [right|left]; intros x y Hx Hy; by apply H. Qed.

(** Files that follow each other in a sorted list are apart. *)
Lemma sorted_apart fs : StronglySorted key_lt (concat fs) -> StronglySorted apart fs.
Proof.
  induction fs as [|f fs IH]; [constructor|]. cbn [concat]. intros (Hc & _ & Hs)%StronglySorted_app. constructor; [by apply IH|].
  apply Forall_forall. intros g Hg. left. intros x y Hx Hy. apply Hc; [done|]. apply list_elem_of_In, in_concat.
  exists g. by rewrite <- !list_elem_of_In.
Qed.

Lemma apart_NoDup (fs : list kv_file) :
  Forall (StronglySorted key_lt) fs -> StronglySorted apart fs -> NoDup (map fst (concat fs)).
Proof.
  intros Hs. induction 1 as [|f fs Hp IH Hf]; [constructor|]. apply Forall_cons in Hs as [Hsf Hs]. cbn [concat]. rewrite map_app.
  apply NoDup_app. split; [by apply (sorted_by_NoDup fst), (StronglySorted_fmap fst key_lt)|]. split; [|by apply IH].
  intros k (x & -> & Hx)%list_elem_of_fmap (y & E & Hy)%list_elem_of_fmap. apply list_elem_of_In, in_concat in Hy as (g & Hg & Hy).
  rewrite <- !list_elem_of_In in *. rewrite Forall_forall in Hf. specialize (Hf g Hg).
  destruct Hf as [Hf|Hf]; specialize (Hf x y Hx Hy); rewrite E in Hf; by apply bytes_lt_irrefl in Hf.
Qed.

Section stores.
  Context `{SortLaws, SnappyLaws, IavlKeysLaws, SdkCodec} {A : Type} `{AppDirLaws A} `{CacheLaws C}.
  Implicit Types (e : NamedTree C) (l : list (NamedTree C)) (a : A).

Definition added (m : gmap bytes kv_file) (fs : list (bytes * kv_file)) : gmap bytes kv_file :=
  foldl (fun m p => <[p.1 := p.2]> m) m fs.

Lemma added_other fs m name : name ∉ map fst fs -> added m fs !! name = m !! name.
Proof.
  unfold added. revert m. induction fs as [|p fs IH]; intros m Hn; [done|]. cbn [map foldl] in *.
  apply not_elem_of_cons in Hn as [Hp Hn]. by rewrite IH, lookup_insert_ne.
Qed.

Lemma added_at fs m name f : NoDup (map fst fs) -> (name, f) ∈ fs -> added m fs !! name = Some f.
Proof.
  unfold added. revert m. induction fs as [|p fs IH]; intros m Hd Hin; [by apply elem_of_nil in Hin|]. cbn [map foldl] in *.
  apply NoDup_cons in Hd as [Hp Hd]. apply elem_of_cons in Hin as [<-|Hin]; [|by apply IH].
  fold (added (<[name := f]> m) fs). rewrite added_other by done. by rewrite lookup_insert_eq.
Qed.

Lemma numbered_names store seq (fs : list kv_file) name :
  name ∈ map fst (numbered store seq fs) -> exists i, seq <= i /\ name = StoreSSTFileName store i.
Proof.
  revert seq. induction fs as [|f fs IH]; intros seq; [by intros ?%elem_of_nil|]. rewrite numbered_cons. cbn [map fst].
  intros [->|Hin]%elem_of_cons; [exists seq; split; [lia|done]|]. destruct (IH _ Hin) as (i & Hi & ->). exists i. split; [lia|done].
Qed.

Lemma numbered_NoDup store seq (fs : list kv_file) : NoDup (map fst (numbered store seq fs)).
Proof.
  revert seq. induction fs as [|f fs IH]; intros seq; [constructor|]. rewrite numbered_cons. cbn [map fst]. constructor; [|apply IH].
  intros (i & Hi & E%StoreSSTFileName_inj)%numbered_names. lia.
Qed.

Lemma numbered_files store seq (fs : list kv_file) : map snd (numbered store seq fs) = fs.
Proof. revert seq. induction fs as [|f fs IH]; intros seq; [done|]. rewrite numbered_cons. cbn [map snd]. by rewrite IH. Qed.

(** A store that can be restored: distinct nodes have distinct hashes. *)
Record restorable e : Prop := {
  rs_slash : slash ∉ nt_Name e;
  rs_small : Forall small_node (all_nodes (root (nt_Tree e)));
  rs_hashes : NoDup (map HashNode (all_nodes (root (nt_Tree e))))
}.

Definition opened (v : Z) (p : bytes * Snapshot) e : Prop :=
  p.1 = nt_Name e /\ snapshot_of p.2 (root (nt_Tree e)) /\ snap_version p.2 = v.

Definition store_files (es : list (NamedTree C * list kv_file)) : list (bytes * kv_file) :=
  concat (map (fun p => numbered (nt_Name p.1) 0 p.2) es).

Lemma store_files_names es name :
  name ∈ map fst (store_files es) -> exists e i, e ∈ map fst es /\ 0 <= i /\ name = StoreSSTFileName (nt_Name e) i.
Proof.
  unfold store_files. induction es as [|[e fs] es IH]; [by intros ?%elem_of_nil|]. cbn [map concat fst snd]. rewrite map_app.
  intros [(i & Hi & ->)%numbered_names|(e' & i & He & Hi & ->)%IH]%elem_of_app; [exists e, i|exists e', i]; split; try done; [by left|by right].
Qed.

Lemma store_files_NoDup es : NoDup (map nt_Name (map fst es)) -> NoDup (map fst (store_files es)).
Proof.
  unfold store_files. induction es as [|[e fs] es IH]; [constructor|]. cbn [map concat fst snd]. intros [Hn Hd]%NoDup_cons.
  rewrite map_app. apply NoDup_app. split; [apply numbered_NoDup|]. split; [|by apply IH].
  intros name (i & Hi & ->)%numbered_names (e' & j & He & Hj & E)%store_files_names. apply Hn.
  apply StoreSSTFileName_store in E as ->; [|done..]. by apply list_elem_of_fmap_2.
Qed.

Lemma stores_ok v target chunkSize weave sched snapshots l :
  fair weave sched -> 0 <= chunkSize <= 2 ^ 62 -> 0 <= v <= MaxInt64 -> Forall2 (opened v) snapshots l -> Forall restorable l ->
  NoDup (map nt_Name l) -> forall a, app_current a = None ->
  (forall e i, e ∈ l -> 0 <= i -> app_files a !! StoreSSTFileName (nt_Name e) i = None) ->
  exists a' es, for_each (fun '(store, snapshot) => oneStore store snapshot target chunkSize weave sched) snapshots a = (a', Ok tt) /\
    map fst es = l /\ app_files a' = added (app_files a) (store_files es) /\ app_data a' = app_data a /\ app_current a' = None /\
    Forall (fun p => stored (nt_Name p.1) (root (nt_Tree p.1)) v p.2) es.
Proof.
  intros Hfair Hcs Hv Ho. induction Ho as [|[store s] e snapshots l (Hn & Hs & Hsv) Ho IH]; intros Hr Hd a Hc Hfree.
  { exists a, []. by repeat split. }
  cbn [fst snd] in *. subst store. apply Forall_cons in Hr as [[_ Hsm Hh] Hr]. cbn [map] in Hd. apply NoDup_cons in Hd as [Hne Hd].
  destruct (oneStore_ok (nt_Name e) s (root (nt_Tree e)) target chunkSize weave sched a Hfair Hcs Hs) as (a1 & fs & E1 & [Hf1 Hd1] & Hst & Hc1);
    [by rewrite Hsv|done|done|done|intros i; apply Hfree; by left|]. rewrite Hsv in Hst. fold (added (app_files a) (numbered (nt_Name e) 0 fs)) in Hf1.
  destruct (IH Hr Hd a1 Hc1) as (a' & es & E & <- & Hf & Hda & Hca & Hsts).
  { intros e' i He' Hi. rewrite Hf1, added_other; [apply Hfree; [by right|done]|]. intros (j & Hj & Ej)%numbered_names.
    apply StoreSSTFileName_store in Ej; [|done..]. apply Hne. rewrite <- Ej. by apply list_elem_of_fmap_2. }
  exists a', ((e, fs) :: es). split; [apply for_each_cons_ok; by exists a1|]. split; [done|].
  split; [|split; [congruence|split; [done|by constructor]]]. unfold store_files, added in *. cbn [map concat fst snd].
  by rewrite foldl_app, <- Hf1, <- Hf.
Qed.

(** ** Ingestion *)

Lemma store_entries_prefix store r v : Forall (fun p => exists k, p.1 = storePrefix store ++ k) (store_entries store r v).
Proof.
  unfold store_entries. apply Forall_app. split; [|repeat constructor; by eexists]. apply Forall_map, Forall_true. intros n. by eexists.
Qed.

Definition all_entries l (v : Z) : kv_file := concat (map (fun e => store_entries (nt_Name e) (root (nt_Tree e)) v) l).

Lemma stored_prefix store r v fs : stored store r v fs -> Forall (Forall (fun p => exists k, p.1 = storePrefix store ++ k)) fs.
Proof. intros [Hp _ _]. apply Forall_concat. rewrite Hp. apply store_entries_prefix. Qed.

Lemma stored_apart v es :
  Forall (fun p => stored (nt_Name p.1) (root (nt_Tree p.1)) v p.2) es -> Forall restorable (map fst es) ->
  NoDup (map nt_Name (map fst es)) -> StronglySorted apart (concat (map snd es)).
Proof.
  induction es as [|[e fs] es IH]; [constructor|]. cbn [map fst snd concat].
  intros [Hs Hss]%Forall_cons [Hr Hrs]%Forall_cons [Hn Hd]%NoDup_cons. apply StronglySorted_app. split; [|split].
  - intros f g Hf Hg. apply list_elem_of_In, in_concat in Hg as (fs' & Hfs & Hg). apply in_map_iff in Hfs as ([e' fs''] & <- & Hin).
    rewrite <- list_elem_of_In in Hin. rewrite <- list_elem_of_In in Hg. cbn [snd] in Hg. rewrite Forall_forall in Hss. rewrite Forall_forall in Hrs. specialize (Hss _ Hin). cbn [fst snd] in Hss.
    assert (He' : e' ∈ map fst es) by (by apply (list_elem_of_fmap_2 fst _ (e', fs''))).
    apply (storePrefix_apart (nt_Name e) (nt_Name e')); [apply Hr|apply (Hrs _ He')| | |].
    + intros E. apply Hn. rewrite E. by apply list_elem_of_fmap_2.
    + pose proof (stored_prefix _ _ _ _ Hs) as Hp. rewrite Forall_forall in Hp. by apply Hp.
    + pose proof (stored_prefix _ _ _ _ Hss) as Hp. rewrite Forall_forall in Hp. by apply Hp.
  - apply sorted_apart, Hs.
  - by apply IH.
Qed.

Lemma store_files_snd es : map snd (store_files es) = concat (map snd es).
Proof. unfold store_files. rewrite concat_map, map_map. f_equal. apply map_ext. intros [e fs]. apply numbered_files. Qed.

Lemma stored_entries v es :
  Forall (fun p => stored (nt_Name p.1) (root (nt_Tree p.1)) v p.2) es -> concat (concat (map snd es)) ≡ₚ all_entries (map fst es) v.
Proof.
  unfold all_entries. induction 1 as [|[e fs] es Hs _ IH]; [done|]. cbn [map concat fst snd]. rewrite concat_app, IH.
  apply Permutation_app_tail, Hs.
Qed.

Lemma isTmp_name store i : isTmpName (StoreSSTFileName store i) = true.
Proof. done. Qed.

Lemma ingest_ok v a0 a es :
  (forall name, isTmpName name = true -> app_files a0 !! name = None) -> app_files a = added (app_files a0) (store_files es) ->
  app_current a = None -> Forall (fun p => stored (nt_Name p.1) (root (nt_Tree p.1)) v p.2) es -> Forall restorable (map fst es) ->
  NoDup (map nt_Name (map fst es)) ->
  exists a', app_Ingest (List.filter isTmpName (raw_ReadDir a)) a = (a', Ok tt) /\
    app_data a' = list_to_map (all_entries (map fst es) v) ∪ app_data a /\ NoDup (map fst (all_entries (map fst es) v)).
Proof.
  intros Hfresh Hf Hc Hs Hr Hd. pose proof (store_files_NoDup es Hd) as Hnd.
  assert (Hp : List.filter isTmpName (raw_ReadDir a) ≡ₚ map fst (store_files es)).
  { apply NoDup_Permutation; [apply NoDup_ListNoDup, List.NoDup_filter, NoDup_ListNoDup, raw_ReadDir_NoDup|done|].
    intros name. rewrite list_elem_of_In, filter_In, <- list_elem_of_In. split.
    - intros [Hin Ht]. apply raw_ReadDir_tmp in Hin as [f Hin]; [|done|done]. rewrite Hf in Hin.
      destruct (decide (name ∈ map fst (store_files es))); [done|]. rewrite added_other, Hfresh in Hin by done. done.
    - intros Hin. destruct (store_files_names _ _ Hin) as (e & i & _ & _ & ->). split; [|done].
      apply raw_ReadDir_tmp; [done|done|]. rewrite Hf. apply list_elem_of_fmap in Hin as ([name f] & E & Hin). cbn [fst] in E.
      exists f. apply added_at; [done|]. by rewrite E. }
  destruct (Permutation_map_inv _ _ Hp) as (fs & En & Hpf).
  assert (Hps : map snd fs ≡ₚ concat (map snd es)) by (rewrite <- store_files_snd; by apply Permutation_map).
  destruct (app_Ingest_ok a (List.filter isTmpName (raw_ReadDir a)) (map snd fs)) as (a' & E & Hdata); [done| | | |].
  - rewrite En. apply Forall2_fmap, Forall_Forall2_diag, Forall_forall. intros [name f] Hin. cbn [fst snd]. rewrite Hf.
    apply added_at; [done|]. by rewrite Hpf.
  - rewrite Hps. apply Forall_concat, Forall_map. eapply Forall_impl; [exact Hs|]. intros p Hpp. apply Hpp.
  - apply (StronglySorted_symmetric apart (concat (map snd es))); [apply apart_sym|done|by apply (stored_apart v)].
  - assert (Hnk : NoDup (map fst (concat (map snd fs)))).
    { rewrite (concat_perm _ _ Hps). apply apart_NoDup; [|by apply (stored_apart v)].
      apply Forall_concat, Forall_map. eapply Forall_impl; [exact Hs|]. intros p [_ Hso _]. apply Forall_forall. intros f Hin.
      apply list_elem_of_split in Hin as (l1 & l2 & Efs). rewrite Efs, concat_app in Hso. cbn [concat] in Hso.
      apply StronglySorted_app in Hso as (_ & _ & Hso). by apply StronglySorted_app in Hso as (_ & Hso & _). }
    assert (Hpe : concat (map snd fs) ≡ₚ all_entries (map fst es) v) by (rewrite (concat_perm _ _ Hps); by apply stored_entries).
    exists a'. split; [done|]. split; [|by rewrite <- Hpe]. rewrite Hdata. f_equal. by apply list_to_map_proper.
Qed.

(** ** Opening the snapshots *)

Definition opens (m : MDir) (v : Z) e : Prop :=
  exists f, m !! nt_Name e = Some f /\ folder_of f e /\ snapshottable_root (root (nt_Tree e)) /\ version (nt_Tree e) = v.

Lemma open_snapshots_ok m v l : 0 <= v <= MaxInt64 -> Forall (opens m v) l -> forall acc latest, latest <= v ->
  exists snapshots, open_snapshots (C := C) m (map nt_Name l) acc latest =
    Ok (snapshots, acc ++ infos l v, match l with [] => latest | _ => v end) /\ Forall2 (opened v) snapshots l.
Proof.
  intros Hv. induction 1 as [|e l (f & Hm & (d & s & -> & Eo & Ev & Hs) & Hr & He) _ IH]; intros acc latest Hl; cbn [map open_snapshots].
  { exists []. by rewrite app_nil_r. }
  rewrite Hm, Eo. cbn [mbind res_bind]. rewrite (NewFromSnapshot_of s (root (nt_Tree e)) true 0 Hs Hr). cbn [mbind res_bind].
  rewrite (lastCommitID_of _ v) by (cbn [version]; (congruence || done)). cbn [mbind res_bind cid_Version].
  destruct (IH (acc ++ [{| si_Name := nt_Name e; si_CommitId := {| cid_Version := v; cid_Hash := RootHash (nt_Tree e) |} |}])
    (if latest <? v then v else latest)) as (snapshots & E & Hf); [destruct (Z.ltb_spec latest v); lia|].
  unfold RootHash in *. cbn [root] in *. rewrite E. cbn [mbind res_bind]. eexists. split.
  - do 3 f_equal; [by rewrite <- app_assoc|]. destruct l; [|done]. destruct (Z.ltb_spec latest v); lia.
  - constructor; [|done]. split; [done|]. split; [done|]. cbn [snd]. congruence.
Qed.

Lemma written_opens ctx t m :
  mt_writable (C := C) t -> (forall name i, ctx name i = None) -> WriteSnapshotWithContext ctx ∅ t = Ok m ->
  Forall (opens m (tree_version (Version t) (initialVersion t))) (trees t).
Proof.
  intros Hw Hc Ew. destruct (write_folders ctx t Hw Hc) as (m' & Ew' & _ & Hf). rewrite Ew in Ew'. injection Ew' as <-.
  pose proof (mo_trees t (mw_ok t Hw)) as Hv. rewrite Forall_forall in Hv. apply Forall_forall. intros e He.
  apply list_elem_of_lookup in He as (i & Hi). destruct (Forall2_lookup_r _ _ _ _ _ Hf Hi) as ([name f] & Hl & Hn & Hfo & Hr).
  cbn [fst snd] in *. subst name. exists f. split; [|split; [done|split; [done|]]].
  - apply list_elem_of_lookup_2, list_elem_of_In, filter_In in Hl as [Hl _]. rewrite <- list_elem_of_In in Hl. unfold ReadDir in Hl.
    by rewrite SliceStable_perm, elem_of_map_to_list in Hl.
  - apply Hv. by eapply list_elem_of_lookup_2.
Qed.

(** ** The command *)

Lemma RestoreAppDB_ok m v l target chunkSize weave sched a info bz1 bz2 :
  0 < v <= MaxInt64 -> l <> [] -> Forall (opens m v) l -> Forall restorable l -> NoDup (map nt_Name l) ->
  fair weave sched -> 0 <= chunkSize <= 2 ^ 62 -> app_current a = None ->
  (forall name, isTmpName name = true -> app_files a !! name = None) ->
  info = {| ci_Version := v; ci_StoreInfos := SliceStable si_Name (infos l v) |} ->
  sdk_CommitInfo_Marshal info = Ok bz1 -> StdInt64Marshal v = Ok bz2 ->
  exists a', RestoreAppDB (C := C) m (map nt_Name l) target chunkSize weave sched a = (a', Ok info) /\
    app_data a' = <[latestVersionKey := bz2]> (<[commitInfoKey v := bz1]> (list_to_map (all_entries l v) ∪ app_data a)) /\
    NoDup (map fst (all_entries l v)).
Proof.
  intros Hv Hne Ho Hr Hd Hfair Hcs Hc Hfresh Einfo E1 E2. unfold RestoreAppDB.
  destruct (open_snapshots_ok m v l ltac:(lia) Ho [] 0 ltac:(lia)) as (snapshots & Es & Hf).
  destruct (stores_ok v target chunkSize weave sched snapshots l Hfair Hcs ltac:(lia) Hf Hr Hd a Hc) as (a1 & es & Ef & <- & Hfi & Hda & Hca & Hst);
    [intros e i _ _; by apply Hfresh|].
  destruct (ingest_ok v a a1 es Hfresh Hfi Hca Hst Hr Hd) as (a2 & Ei & Hd2 & Hnd).
  destruct (app_Put_ok a2 (commitInfoKey v) bz1) as (a3 & Ep3 & Hd3). destruct (app_Put_ok a3 latestVersionKey bz2) as (a4 & Ep4 & Hd4).
  exists a4. split; [|split; [by rewrite Hd4, Hd3, Hd2, Hda|done]].
  unfold mbind at 1, SE_bind, lift at 1. rewrite Es. cbn [app]. destruct (map fst es) as [|e0 l0] eqn:El; [done|]. rewrite <- El in *.
  unfold Verify.buildCommitInfo. rewrite <- Einfo. unfold writeMetadata, mbind, SE_bind, gets, lift, mret, SE_ret.
  assert (Ec : ci_Version info = v) by (by rewrite Einfo). rewrite Ef, Ei, E1, Ec, Ep3, E2, Ep4. done.
Qed.
End stores.

(** ** Reading the database *)

Section reader.
  Context `{IavlKeysLaws}.

(** The node of a hash with its subtrees, as the format of the nodes says. *)
Fixpoint load_node (fuel : nat) (db : gmap bytes bytes) (prefix hash : bytes) : res Node :=
  match fuel with
  | O => out_of_fuel
  | S fuel =>
      bz ← of_option (db !! (prefix ++ nodeKeyFormat_Key hash));
      '(h, bz) ← ReadVarint bz;
      '(s, bz) ← ReadVarint bz;
      '(v, bz) ← ReadVarint bz;
      '(k, bz) ← ReadBytes bz;
      if h =? 0 then '(x, _) ← ReadBytes bz; Ok (Leaf (u64 v) k x)
      else
        '(lh, bz) ← ReadBytes bz;
        '(rh, _) ← ReadBytes bz;
        l ← load_node fuel db prefix lh;
        r ← load_node fuel db prefix rh;
        Ok (Branch h s (u64 v) k l r)
  end.

(** The tree of a store at a version. *)
Definition load_tree (db : gmap bytes bytes) (store : bytes) (v : Z) : res (option Node) :=
  hash ← of_option (db !! (storePrefix store ++ rootKeyFormat_Key v));
  match hash with
  | [] => Ok None
  | _ => n ← load_node max_depth db (storePrefix store) hash; Ok (Some n)
  end.

Lemma u64_i64 v : 0 <= v < 2 ^ 64 -> u64 (i64 v) = v.
Proof.
  intros Hv. unfold u64, i64. rewrite Zminus_mod_idemp_l. rewrite <- (Z.mod_small v (2 ^ 64)) at 2 by lia. f_equal. lia.
Qed.

Lemma i64_range v : - 2 ^ 63 <= i64 v < 2 ^ 63.
Proof. unfold i64. pose proof (Z.mod_pos_bound (v + 2 ^ 63) (2 ^ 64)). lia. Qed.

Lemma min_key_zlen n : storable n -> zlen (min_key n) < 2 ^ 32.
Proof. induction n as [|? ? ? ? l IHl r IHr]; cbn [storable min_key]; [tauto|]. intros (_ & Hl & _). by apply IHl. Qed.

Lemma load_node_ok db prefix n fuel :
  fields_ok n -> storable n -> leaves n < 2 ^ 32 -> height n < 2 ^ 31 -> (Z.to_nat (height n) < fuel)%nat ->
  (forall m, m ∈ leaf_nodes n ++ branch_nodes n -> db !! (prefix ++ nodeKeyFormat_Key (HashNode m)) = Some (node_bytes m)) ->
  load_node fuel db prefix (HashNode n) = Ok n.
Proof.
  revert fuel. induction n as [v k x|h sz v k l IHl r IHr]; intros fuel Hf Hs Hl Hh Hfuel Hdb.
  - destruct fuel as [|fuel]; [lia|]. cbn [load_node]. rewrite (Hdb (Leaf v k x)) by (by left). cbn [of_option mbind res_bind node_bytes].
    destruct Hs as (Hv & Hk & Hx). rewrite !ReadVarint_PutVarint by (lia || apply i64_range). cbn [mbind res_bind].
    rewrite !ReadVarint_PutVarint by (lia || apply i64_range). cbn [mbind res_bind].
    rewrite !ReadVarint_PutVarint by (lia || apply i64_range). cbn [mbind res_bind].
    rewrite ReadBytes_EncodeBytes by lia. cbn [mbind res_bind Z.eqb]. rewrite <- (app_nil_r (EncodeBytes x)), ReadBytes_EncodeBytes by lia.
    cbn [mbind res_bind]. by rewrite u64_i64.
  - destruct Hf as (Eh & Esz & Ek & Fl & Fr). destruct Hs as (Hv & Sl & Sr). rewrite leaves_Branch in Hl. cbn [height] in Hh, Hfuel.
    pose proof (leaves_pos l). pose proof (leaves_pos r). pose proof (height_nonneg l). pose proof (height_nonneg r).
    pose proof (min_key_zlen r Sr). destruct fuel as [|fuel]; [lia|]. cbn [load_node].
    rewrite (Hdb (Branch h sz v k l r)) by (cbn [branch_nodes]; rewrite !elem_of_app, list_elem_of_singleton; tauto).
    cbn [of_option mbind res_bind node_bytes].
    do 3 (rewrite ReadVarint_PutVarint by (lia || apply i64_range); cbn [mbind res_bind]).
    rewrite ReadBytes_EncodeBytes by (rewrite Ek; lia). cbn [mbind res_bind]. rewrite (proj2 (Z.eqb_neq h 0)) by lia.
    rewrite ReadBytes_EncodeBytes by (rewrite HashNode_zlen; lia). cbn [mbind res_bind].
    rewrite <- (app_nil_r (EncodeBytes (HashNode r))), ReadBytes_EncodeBytes by (rewrite HashNode_zlen; lia). cbn [mbind res_bind].
    rewrite IHl, IHr; [cbn [mbind res_bind]; by rewrite u64_i64|done|done|lia|lia|lia| |done|done|lia|lia|lia|];
      intros m Hm; apply Hdb; cbn [leaf_nodes branch_nodes]; rewrite !elem_of_app in *; tauto.
Qed.

Lemma load_tree_ok db store r v :
  snapshottable_root r -> (forall p, p ∈ store_entries store r v -> db !! p.1 = Some p.2) -> load_tree db store v = Ok r.
Proof.
  intros Hr Hdb. unfold load_tree. pose proof (Hdb (root_entry store r v)) as Hroot. cbn [root_entry fst snd] in Hroot.
  rewrite Hroot by (unfold store_entries; rewrite elem_of_app, list_elem_of_singleton; by right). cbn [of_option mbind res_bind].
  destruct r as [n|]; [|done]. destruct (HashNode n) as [|b hash] eqn:E; [by pose proof (HashNode_length n) as Hl; rewrite E in Hl|].
  rewrite <- E. destruct Hr as [Hf Hs Hh Hl _]. rewrite load_node_ok; [done|done|done|done|lia|unfold max_depth; lia|].
  intros m Hm. apply (Hdb (node_entry store m)). unfold store_entries. rewrite elem_of_app. left. by apply list_elem_of_fmap_2.
Qed.
End reader.

Section correct.
  Context `{SortLaws, SnappyLaws, IavlKeysLaws, SdkCodec} {A : Type} `{AppDirLaws A} `{CacheLaws C}.

Lemma storePrefix_meta store k v : 0 <= v -> storePrefix store ++ k <> commitInfoKey v /\ storePrefix store ++ k <> latestVersionKey.
Proof.
  intros Hv. split; [|discriminate]. unfold storePrefix, commitInfoKey. intros E.
  pose proof (digit_not x6b v Hv ltac:(unfold digit; cbn; lia)) as Hk. apply Hk.
  change (str "s/k:") with (str "s/" ++ str "k:") in E. rewrite <- !app_assoc in E. apply app_inv_head in E. rewrite <- E. by left.
Qed.

(** The entries of a store are found in the database. *)
Lemma entries_found (m : gmap bytes bytes) (l : list (NamedTree C)) e v bz1 bz2 p :
  0 <= v -> NoDup (map fst (all_entries l v)) -> e ∈ l -> p ∈ store_entries (nt_Name e) (root (nt_Tree e)) v ->
  (<[latestVersionKey := bz2]> (<[commitInfoKey v := bz1]> (list_to_map (all_entries l v) ∪ m)) : gmap bytes bytes) !! p.1 = Some p.2.
Proof.
  intros Hv Hd He Hp. pose proof (store_entries_prefix (nt_Name e) (root (nt_Tree e)) v) as Hpre. rewrite Forall_forall in Hpre.
  destruct (Hpre p Hp) as [k Ek]. destruct (storePrefix_meta (nt_Name e) k v Hv) as [H1' H2'].
  rewrite !lookup_insert_ne by (rewrite Ek; congruence). apply lookup_union_Some_l, elem_of_list_to_map; [exact Hd|].
  destruct p as [kp vp]. unfold all_entries. apply list_elem_of_In, in_concat. eexists. rewrite <- !list_elem_of_In. split; [|exact Hp].
  by apply (list_elem_of_fmap_2 (fun e => store_entries (nt_Name e) (root (nt_Tree e)) v)).
Qed.

(** C29: Restoring the application database from a snapshot of a multi-tree: the database has
    the entries of the nodes and roots of the stores, the commit info and the latest version,
    and nothing else has changed; a reader that follows the roots and the hashes in it gets
    the trees back.  The commit info that is returned is that of the multi-tree.  This holds
    in whatever order the stores are given, for every file and chunk size and however the
    sorter interleaves, given that the nodes of a tree have distinct hashes. *)
Theorem restore_app_db_correct ctx (t : MultiTree C) m stores target chunkSize weave sched a bz1 bz2 :
  mt_writable t -> committed t -> 0 < Version t -> (forall name i, ctx name i = None) ->
  WriteSnapshotWithContext ctx ∅ t = Ok m -> trees t <> [] -> stores ≡ₚ map nt_Name (trees t) ->
  Forall restorable (trees t) -> fair weave sched -> 0 <= chunkSize <= 2 ^ 62 -> app_current a = None ->
  (forall name, isTmpName name = true -> app_files a !! name = None) ->
  sdk_CommitInfo_Marshal (lastCommitInfo t) = Ok bz1 -> StdInt64Marshal (Version t) = Ok bz2 ->
  exists a', RestoreAppDB (C := C) m stores target chunkSize weave sched a = (a', Ok (lastCommitInfo t)) /\
    app_data a' = <[latestVersionKey := bz2]> (<[commitInfoKey (Version t) := bz1]>
      (list_to_map (all_entries (trees t) (Version t)) ∪ app_data a)) /\
    (forall e, e ∈ trees t -> load_tree (app_data a') (nt_Name e) (Version t) = Ok (root (nt_Tree e))).
Proof.
  intros Hw Hcm Hv Hctx Ew Hne Hp Hr Hfair Hcs Hc Hfresh E1 E2. pose proof (mw_ok t Hw) as Hok.
  pose proof (mo_version t Hok) as (_ & Hvr & _). pose proof (written_opens ctx t m Hw Hctx Ew) as Ho.
  assert (Etv : tree_version (Version t) (initialVersion t) = Version t)
    by (unfold tree_version; by rewrite (proj2 (Z.eqb_neq _ _)) by lia). rewrite Etv in Ho.
  destruct (Permutation_map_inv _ _ Hp) as (l & -> & Hpl).
  assert (Hl : sorted_by nt_Name (trees t)) by apply (mo_sorted t Hok).
  assert (Ei : lastCommitInfo t = {| ci_Version := Version t; ci_StoreInfos := SliceStable si_Name (infos l (Version t)) |}).
  { rewrite (infos_sort l (trees t)) by done. unfold committed, MultiTree.buildCommitInfo in Hcm.
    rewrite (store_infos_at _ (Version t)) in Hcm; [by injection Hcm as <-|done|].
    eapply Forall_impl; [apply (mo_trees t Hok)|]. intros e He. congruence. }
  destruct (RestoreAppDB_ok m (Version t) l target chunkSize weave sched a (lastCommitInfo t) bz1 bz2) as (a' & E & Hd & Hnd);
    [lia|by intros ->; apply Permutation_nil_r in Hpl|by rewrite <- Hpl|by rewrite <- Hpl| |done|done|done|done|done|done|done|].
  { rewrite <- (Permutation_map nt_Name Hpl). by apply mo_names. }
  assert (Hpe : all_entries l (Version t) ≡ₚ all_entries (trees t) (Version t))
    by (unfold all_entries; by apply concat_perm, Permutation_map).
  rewrite (list_to_map_proper _ (all_entries (trees t) (Version t))) in Hd by done. rewrite (Permutation_map fst Hpe) in Hnd.
  exists a'. split; [done|]. split; [done|]. intros e He. apply load_tree_ok.
  - pose proof (mw_trees t Hw) as Hwt. rewrite Forall_forall in Hwt. apply (Hwt e He).
  - intros p Hpp. rewrite Hd. by apply (entries_found _ _ e); [lia|..].
Qed.
End correct.

(** ** A directory in memory *)

Record memApp := { ma_files : gmap bytes kv_file; ma_current : option (bytes * kv_file); ma_data : gmap bytes bytes }.

#[export] Instance plain_keys : IavlKeys :=
  {| nodeKeyFormat_Key hash := x6e :: hash; rootKeyFormat_Key v := x72 :: reverse (le_u64 v) |}.
#[export] Instance plain_keys_laws : IavlKeysLaws.
Proof. split; [done|]. intros v. by eexists. Qed.

#[export] Instance mem_app : AppDirOps memApp := {|
  raw_Open name a := ({| ma_files := ma_files a; ma_current := Some (name, []); ma_data := ma_data a |}, Ok tt);
  raw_Put k v a := match ma_current a with
    | Some (name, file) => ({| ma_files := ma_files a; ma_current := Some (name, file ++ [(k, v)]); ma_data := ma_data a |}, Ok tt)
    | None => (a, Err "file is not opened") end;
  raw_Finish a := match ma_current a with
    | Some (name, (_ :: _) as file) => ({| ma_files := <[name := file]> (ma_files a); ma_current := None; ma_data := ma_data a |}, Ok tt)
    | _ => (a, Err "cannot create sst file with no entries") end;
  raw_FileSize a := 64 * zlen (default [] (snd <$> ma_current a));
  raw_ReadDir a := map fst (ReadDir (ma_files a));
  app_Ingest names a := ({| ma_files := ∅; ma_current := ma_current a;
    ma_data := list_to_map (concat (omap (fun name => ma_files a !! name) names)) ∪ ma_data a |}, Ok tt);
  app_Put k v a := ({| ma_files := ma_files a; ma_current := ma_current a; ma_data := <[k := v]> (ma_data a) |}, Ok tt)
|}.

#[export] Instance mem_app_laws : AppDirLaws memApp.
Proof.
  refine {| app_files := ma_files; app_current := ma_current; app_data := ma_data |}.
  - intros a name _ _. by eexists.
  - intros a name file k v Hc _. cbn. rewrite Hc. by eexists.
  - intros a name file Hc Hf. cbn. rewrite Hc. destruct file; [done|]. by eexists.
  - intros a. cbn [raw_ReadDir mem_app]. unfold ReadDir. rewrite (Permutation_map fst (SliceStable_perm fst _)). apply NoDup_fst_map_to_list.
  - intros a name _ _. cbn [raw_ReadDir mem_app]. unfold ReadDir. rewrite (Permutation_map fst (SliceStable_perm fst _)), list_elem_of_fmap. split.
    + intros ([n f] & -> & Hin%elem_of_map_to_list). by eexists.
    + intros [f Hf]. exists (name, f). split; [done|]. by apply elem_of_map_to_list.
  - intros a names files _ Hf _ _. eexists. split; [reflexivity|]. cbn. do 3 f_equal.
    induction Hf as [|name file names files Hn _ IH]; [done|]. cbn. rewrite Hn, IH. done.
  - intros a k v. by eexists.
Defined.

#[export] Instance plain_codec : SdkCodec :=
  {| sdk_CommitInfo_Marshal c := Ok (CommitInfo_bytes c); StdInt64Marshal v := Ok (PutUvarint v) |}.

Definition empty_app : memApp := {| ma_files := ∅; ma_current := None; ma_data := ∅ |}.

Lemma sample_db_restorable : Forall restorable (trees sample_mt).
Proof.
  assert (E : forallb (fun e => bool_decide (slash ∉ nt_Name e) && forallb (fun n => zlen (node_item n) <=? MaxUint32) (all_nodes (root (nt_Tree e))) &&
    bool_decide (NoDup (map HashNode (all_nodes (root (nt_Tree e)))))) (trees sample_mt) = true) by (vm_compute; reflexivity).
  rewrite forallb_forall in E. apply Forall_forall. intros e He%list_elem_of_In. specialize (E e He).
  rewrite !andb_true_iff, !bool_decide_eq_true, forallb_forall in E. destruct E as [[E1 E2] E3]. split; [done| |done].
  apply Forall_forall. intros n Hn%list_elem_of_In. apply Z.leb_le, (E2 n Hn).
Qed.

Lemma restore_app_db_correct_witness :
  exists m a', WriteSnapshotWithContext (fun _ => Background) ∅ sample_mt = Ok m /\
    RestoreAppDB (C := lru) m [str "gov"; str "bank"] 100 1000 (map EFeed) [] empty_app = (a', Ok (lastCommitInfo sample_mt)) /\
    forall e, e ∈ trees sample_mt -> load_tree (ma_data a') (nt_Name e) 5 = Ok (root (nt_Tree e)).
Proof.
  destruct (write_load (fun _ => Background) sample_mt false 0 sample_mt_writable (fun _ _ => eq_refl)) as (m & _ & Ew & _).
  assert (En : map nt_Name (trees sample_mt) = [str "bank"; str "gov"]) by (vm_compute; reflexivity).
  destruct (restore_app_db_correct (fun _ => Background) sample_mt m [str "gov"; str "bank"] 100 1000 (map EFeed) [] empty_app
    (CommitInfo_bytes (lastCommitInfo sample_mt)) (PutUvarint 5)) as (a' & E & _ & Hl).
  - exact sample_mt_writable.
  - apply (commit_block_committed sample_block1 sample_genesis), sample_commit1.
  - rewrite (proj1 sample_mt_version). lia.
  - reflexivity.
  - exact Ew.
  - intros Et. rewrite Et in En. discriminate En.
  - rewrite En. apply Permutation_swap.
  - exact sample_db_restorable.
  - exact feed_fair.
  - lia.
  - reflexivity.
  - intros name _. apply lookup_empty.
  - reflexivity.
  - rewrite (proj1 sample_mt_version). reflexivity.
  - exists m, a'. split; [exact Ew|]. split; [exact E|]. rewrite <- (proj1 sample_mt_version). exact Hl.
Defined.
