(* ===== verification/Streaming.v ===== *)
(** * Streaming commits to the version database (memiavl/rootmulti/store.go, versiondb/multistore.go, setup_versiondb.go)

    The root multistore lets listeners observe the writes to its stores; when a block has
    been committed, the accumulated writes go to the version database, which then serves
    queries at the version of the block.  Interfaces: [MemoryListener] and [listenkv.Store]
    of the SDK. *)

From Stdlib Require Import Strings.Byte ZArith Lia.
From stdpp Require Import base list numbers strings gmap sorting.
From S2P Require Import Prelude Binary Proto State Cache Tree Wal MultiTree DB QueryCache RootMulti Rocks VersionDB.
Local Open Scope Z_scope.

(** What a listener records of a write. *)
Definition store_pair (name : bytes) (p : KVPair) : StoreKVPair :=
  {| skv_StoreKey := name; skv_Delete := kv_Delete p; skv_Key := kv_Key p;
     skv_Value := if kv_Delete p then [] else default [] (kv_Value p) |}.

Class ListenOps (M : Type) := {
  NewMemoryListener : M;
  (** [PopStateCache] of a listener *)
  listener_Pop : M -> list StoreKVPair * M;
  (** [Set] and [Delete] of a [listenkv.Store] with a parent, for the name of a store. *)
  listenkv_write : forall P : Type, (KVPair -> SE P unit) -> bytes -> KVPair -> SE (P * M) unit
}.

(** A write goes to the parent and is recorded; popping gives the records and drops them. *)
Class ListenLaws M `{ListenOps M} := {
  pending : M -> list StoreKVPair;
  pending_new : pending NewMemoryListener = [];
  listener_Pop_ok : forall l, (listener_Pop l).1 = pending l /\ pending (listener_Pop l).2 = [];
  listenkv_write_ok : forall (P : Type) (parent : KVPair -> SE P unit) name p s s' l, parent p s = (s', Ok tt) ->
    exists l', listenkv_write P parent name p (s, l) = ((s', l'), Ok tt) /\ pending l' = pending l ++ [store_pair name p]
}.

(** ** Listeners of the root multistore *)

Section listeners.
  Context {C L FL : Type} `{CacheOps C, WalOps L} {M : Type} `{ListenOps M}.

(** The root multistore with its listeners. *)
Record ListeningStore := { ls_store : RootMulti.Store C L FL; ls_listeners : gmap bytes M }.

Definition ListeningEnabled (ls : ListeningStore) (key : bytes) : bool := bool_decide (is_Some (ls_listeners ls !! key)).

Definition add_listener (m : gmap bytes M) (key : bytes) : gmap bytes M :=
  match m !! key with None => <[key := NewMemoryListener]> m | Some _ => m end.
Definition AddListeners (keys : list bytes) (ls : ListeningStore) : ListeningStore :=
  {| ls_store := ls_store ls; ls_listeners := foldl add_listener (ls_listeners ls) keys |}.

(** The loop over the listeners, in the order of the map iteration. *)
Fixpoint pop_listeners (order : list bytes) (m : gmap bytes M) : list StoreKVPair * gmap bytes M :=
  match order with
  | [] => ([], m)
  | key :: order =>
      match m !! key with
      | Some l =>
          let '(cs, l) := listener_Pop l in
          let '(cache, m) := pop_listeners order (<[key := l]> m) in (cs ++ cache, m)
      | None => pop_listeners order m
      end
  end.

Definition PopStateCache (order : list bytes) (ls : ListeningStore) : list StoreKVPair * ListeningStore :=
  let '(cache, m) := pop_listeners order (ls_listeners ls) in
  (SliceStable skv_StoreKey cache, {| ls_store := ls_store ls; ls_listeners := m |}).

(** A write to the store of the name that [CacheMultiStore] gives. *)
Definition cache_write (name : bytes) (p : KVPair) : SE ListeningStore unit := fun ls =>
  let parent p rs := match write_store_pair p name rs with
    | Ok rs => (rs, Ok tt) | Err e => (rs, Err e) | Panic => (rs, Panic) end in
  match ls_listeners ls !! name with
  | Some l =>
      let '((rs, l), r) := listenkv_write _ parent name p (ls_store ls, l) in
      ({| ls_store := rs; ls_listeners := <[name := l]> (ls_listeners ls) |}, r)
  | None =>
      let '(rs, r) := parent p (ls_store ls) in ({| ls_store := rs; ls_listeners := ls_listeners ls |}, r)
  end.
End listeners.
Arguments ListeningStore : clear implicits.

(** ** The multistore of the version database *)

Section multistore.
  Context {C L FL : Type} `{CacheOps C, WalOps L} {M : Type} `{ListenOps M} {D Iter : Type} `{RocksOps D Iter}.
  Abbreviation VStore := (@VersionDB.Store D).

(** A store that serves a key: of the version database, or of the parent. *)
Inductive AnyStore := Versioned (st : KVStore (DB := D)) | Delegated (st : CommitStore).

(** The version database and the parent are shared with the node: the operations take the
    states they have at the call. *)
Record MultiStore := { ms_stores : list bytes; ms_delegated : list bytes }.

Definition NewMultiStore (storeKeys delegatedStoreKeys : list bytes) : MultiStore :=
  {| ms_stores := storeKeys; ms_delegated := delegatedStoreKeys |}.

(** [parent.GetStore] *)
Definition rs_GetStore (rs : RootMulti.Store C L FL) (key : bytes) : res AnyStore :=
  s ← of_option (rs_stores rs !! key); Ok (Delegated s).

Definition ms_GetStore (versionDB : VStore) (parent : RootMulti.Store C L FL) (s : MultiStore) (key : bytes) : res AnyStore :=
  if bool_decide (key ∈ ms_stores s) then Ok (Versioned (NewKVStore versionDB key None))
  else if bool_decide (key ∈ ms_delegated s) then rs_GetStore parent key else Panic.

(** The stores that are branched out: those of the delegated keys, then those of the version
    database, which replace them. *)
Fixpoint delegated_stores (parent : RootMulti.Store C L FL) (keys : list bytes) : res (gmap bytes AnyStore) :=
  match keys with
  | [] => Ok ∅
  | k :: keys => st ← rs_GetStore parent k; m ← delegated_stores parent keys; Ok (<[k := st]> m)
  end.
Definition cacheMultiStore (versionDB : VStore) (parent : RootMulti.Store C L FL) (s : MultiStore) (version : option Z)
    : res (gmap bytes AnyStore) :=
  delegated ← delegated_stores parent (ms_delegated s);
  Ok (foldr (fun k m => <[k := Versioned (NewKVStore versionDB k version)]> m) delegated (ms_stores s)).

Definition ms_CacheMultiStore (versionDB : VStore) (parent : RootMulti.Store C L FL) (s : MultiStore) : res (gmap bytes AnyStore) := cacheMultiStore versionDB parent s None.
Definition ms_CacheMultiStoreWithVersion (versionDB : VStore) (parent : RootMulti.Store C L FL) (s : MultiStore) (version : Z) : res (gmap bytes AnyStore) :=
  cacheMultiStore versionDB parent s (Some version).
Definition ms_LatestVersion (versionDB : VStore) : res Z := must (GetLatestVersion versionDB).

(** [SetupVersionDB] with the database that was opened: a version database that is ahead of
    the committed state is reset to it. *)
Definition SetupVersionDB (cms : ListeningStore C L FL M) (d : D) (keys tkeys : list bytes)
    : res (ListeningStore C L FL M * StreamingService (DB := D) * MultiStore) :=
  let versionDB := NewStore d in
  cmsVersion ← RootMulti.LatestVersion (ls_store cms);
  qmsVersion ← GetLatestVersion versionDB;
  let versionDB := if (0 <? cmsVersion) && (cmsVersion <? qmsVersion) then NewStoreAtVersion d cmsVersion else versionDB in
  let cms := AddListeners keys cms in
  Ok (cms, NewStreamingService versionDB, NewMultiStore keys tkeys).
End multistore.
