(* ===== verification/StreamingInv.v ===== *)
(** * The version database serves the states that were committed

    Runs of a node: writes go through the listeners to the root multistore, and a block that
    has been committed is streamed to the version database.  The invariant relates what is
    pending in the listeners to the application, and every version of the database to the
    state of the application at its commit. *)

From Stdlib Require Import Strings.Byte ZArith Lia.
From stdpp Require Import base list numbers strings gmap sorting.
From S2P Require Import Prelude Binary Proto ProtoCodec State Node NodeInv Snapshot SnapshotWriter Cache Tree Wal.
From S2P Require Import Merkle IavlStore MultiTree MultiTreeInv MultiTreeSim MultiTreeSnapshot.
From S2P Require Import SnapshotDir SnapshotDirInv DB DBInv DBRecovery DBCrash.
From S2P Require Import StateSync QueryCache QueryCacheInv RootMulti RootMultiInv RootMultiRun.
From S2P Require Import Rocks VersionDB VersionDBInv Streaming.
Local Open Scope Z_scope.

(** ** Stable sorting keeps the writes of a store in order *)

Definition of_store (name : bytes) (cs : list StoreKVPair) : list StoreKVPair := filter (fun p => skv_StoreKey p = name) cs.

Lemma of_store_app name a b : of_store name (a ++ b) = of_store name a ++ of_store name b.
Proof. apply filter_app. Qed.

Lemma of_store_all name cs : Forall (fun p => skv_StoreKey p = name) cs -> of_store name cs = cs.
Proof. induction 1 as [|p cs Hp _ IH]; [done|]. unfold of_store in *. by rewrite filter_cons_True, IH. Qed.

Lemma of_store_none name cs : Forall (fun p => skv_StoreKey p <> name) cs -> of_store name cs = [].
Proof. induction 1 as [|p cs Hp _ IH]; [done|]. unfold of_store in *. by rewrite filter_cons_False. Qed.

Lemma insert_by_of_store name x l : of_store name (insert_by skv_StoreKey x l) = of_store name (x :: l).
Proof.
  induction l as [|y l IH]; [done|]. cbn [insert_by]. destruct (ltb_spec (skv_StoreKey y) (skv_StoreKey x)) as [Hlt|]; [|done].
  unfold of_store in *. rewrite !filter_cons. rewrite !filter_cons in IH. rewrite IH.
  destruct (decide (skv_StoreKey y = name)) as [Ey|], (decide (skv_StoreKey x = name)) as [Ex|]; try done.
  rewrite Ex, Ey in Hlt. by apply bytes_lt_irrefl in Hlt.
Qed.

Lemma SliceStable_of_store name l : of_store name (SliceStable skv_StoreKey l) = of_store name l.
Proof.
  induction l as [|x l IH]; [done|]. cbn [SliceStable foldr]. rewrite insert_by_of_store. fold (SliceStable skv_StoreKey l).
  unfold of_store in *. rewrite !filter_cons. by destruct (decide _); rewrite IH.
Qed.

(** ** The state of a store *)

(** The store [name] has the contents [m] in a state of the version database. *)
Definition holds_store (st : app_state) (name : bytes) (m : gmap bytes bytes) : Prop := forall key, st !! (name, key) = m !! key.

Definition pair_of (p : StoreKVPair) : KVPair :=
  {| kv_Delete := skv_Delete p; kv_Key := skv_Key p; kv_Value := Some (skv_Value p) |}.

Lemma holds_apply st name m p :
  holds_store st name m ->
  holds_store (apply_pair st p) name (if decide (skv_StoreKey p = name) then map_apply m (pair_of p) else m).
Proof.
  intros Hh key. unfold apply_pair, map_apply. specialize (Hh key). cbn [pair_of kv_Delete kv_Key kv_Value default].
  destruct (decide (skv_StoreKey p = name)) as [->|Hne].
  - destruct (decide (skv_Key p = key)) as [->|Hk].
    + destruct (skv_Delete p); [by rewrite !lookup_delete_eq|by rewrite !lookup_insert_eq].
    + destruct (skv_Delete p); [by rewrite !lookup_delete_ne by congruence|by rewrite !lookup_insert_ne by congruence].
  - destruct (skv_Delete p); [rewrite lookup_delete_ne|rewrite lookup_insert_ne]; congruence.
Qed.

Lemma holds_pairs st name m cs :
  holds_store st name m -> holds_store (foldl apply_pair st cs) name (foldl map_apply m (map pair_of (of_store name cs))).
Proof.
  revert st m. induction cs as [|p cs IH]; intros st m Hh; [done|]. cbn [foldl]. unfold of_store. rewrite filter_cons.
  pose proof (holds_apply st name m p Hh) as Hp. destruct (decide (skv_StoreKey p = name)); cbn [map foldl]; by apply IH.
Qed.

Lemma map_apply_pair m name p : map_apply m (pair_of (store_pair name p)) = map_apply m p.
Proof. unfold map_apply, pair_of, store_pair. cbn. by destruct (kv_Delete p). Qed.

(** ** Popping the listeners *)

Lemma decide_cons {A} (x y : bytes) l (a b : A) :
  (if decide (x ∈ y :: l) then a else b) = if decide (y = x) then a else if decide (x ∈ l) then a else b.
Proof. repeat case_decide; try done; subst; rewrite elem_of_cons in *; naive_solver. Qed.

Section listeners.
  Context {M : Type} `{ListenLaws M}.

Definition pending_of (m : gmap bytes M) (name : bytes) : list StoreKVPair := match m !! name with Some l => pending l | None => [] end.

(** The records of a listener are those of its store. *)
Definition own (m : gmap bytes M) : Prop := forall name, Forall (fun p => skv_StoreKey p = name) (pending_of m name).

Lemma pending_insert m name l x :
  pending_of (<[name := l]> m) x = if decide (name = x) then pending l else pending_of m x.
Proof. unfold pending_of. destruct (decide (name = x)) as [->|]; by simplify_map_eq. Qed.

Lemma pop_listeners_ok order m cache m' :
  NoDup order -> own m -> pop_listeners order m = (cache, m') ->
  (forall name, of_store name cache = if decide (name ∈ order) then pending_of m name else []) /\
  (forall name, pending_of m' name = if decide (name ∈ order) then [] else pending_of m name) /\
  (forall name, is_Some (m' !! name) <-> is_Some (m !! name)).
Proof.
  intros Hd. revert m cache m'. induction Hd as [|key order Hk Hd IH]; intros m cache m' Ho E; cbn [pop_listeners] in E.
  { injection E as <- <-. split; [|split]; intros name; [by rewrite decide_False by apply not_elem_of_nil| |done].
    by rewrite decide_False by apply not_elem_of_nil. }
  destruct (m !! key) as [l|] eqn:El.
  - destruct (listener_Pop l) as [cs l'] eqn:Ep. destruct (pop_listeners order (<[key := l']> m)) as [cache1 m1] eqn:E1.
    injection E as <- <-. destruct (listener_Pop_ok l) as [Hc Hl']. rewrite Ep in Hc, Hl'. cbn [fst snd] in Hc, Hl'. subst cs.
    assert (Hown : own (<[key := l']> m)) by (intros x; rewrite pending_insert; destruct (decide _); [rewrite Hl'; constructor|apply Ho]).
    destruct (IH _ _ _ Hown E1) as (Hs & Hp & Hi). pose proof (Ho key) as Hkey. unfold pending_of in Hkey. rewrite El in Hkey.
    split; [|split]; intros name; rewrite ?decide_cons.
    + rewrite of_store_app, Hs, pending_insert. destruct (decide (key = name)) as [<-|Hne].
      * rewrite decide_False by done. rewrite app_nil_r, of_store_all by done. unfold pending_of. by rewrite El.
      * by rewrite of_store_none by (eapply Forall_impl; [exact Hkey|]; simpl; congruence).
    + rewrite Hp, pending_insert. destruct (decide (key = name)) as [<-|Hne]; [|done]. by destruct (decide (key ∈ order)).
    + rewrite Hi, lookup_insert_is_Some'. split; [intros [<-|?]; [by rewrite El|done]|by right].
  - destruct (IH _ _ _ Ho E) as (Hs & Hp & Hi). assert (Hn : pending_of m key = []) by (unfold pending_of; by rewrite El).
    split; [|split]; intros name; rewrite ?decide_cons; [rewrite Hs|rewrite Hp|done]; destruct (decide (key = name)) as [<-|]; try done;
      by rewrite decide_False, Hn by done.
Qed.
End listeners.

(** ** Runs *)

Section runs.
  Context `{CacheLaws C} `{WalLaws L} {FL : Type} {M : Type} `{ListenLaws M} {D Iter : Type} `{RocksLaws D Iter}.
  Variable init : Z.
  Hypothesis init_range : 0 <= init <= MaxInt64.
  Implicit Types (rs : RootMulti.Store C L FL) (hs : gmap Z (app * CommitInfo)) (w : app).

(** Steps that neither write nor commit. *)
Inductive background rs : RootMulti.Store C L FL -> Prop :=
| bg_hash rs' order info : iterates order rs -> WorkingHash order rs = (rs', Ok info) -> background rs rs'
| bg_writer db db' i : rs_db rs = Some db -> log_writer i db = (db', Ok tt) -> background rs (with_rs_db rs (Some db'))
| bg_rewrite db db' ctx :
    rs_db rs = Some db -> rewrite_ready ctx db -> run_rewrite ctx db = (db', Ok tt) -> background rs (with_rs_db rs (Some db'))
| bg_export v t fl : background rs (with_rs_cache rs (SetSnapshotExporter v t fl (queryCache rs)).1)
| bg_purge v : background rs (PruneSnapshotHeight v rs).

Lemma background_reach k n hs w rs rs' : rs_reach init k n hs w rs -> background rs rs' -> rs_reach init k n hs w rs'.
Proof. intros Hr [rs1 order info Ho E|db db' i Ed E|db db' ctx Ed Hc E|v t fl|v]; [by eapply rr_hash|by eapply rr_writer|by eapply rr_rewrite|by apply rr_export|by apply rr_purge]. Qed.

(** A node: the root multistore with its listeners and the streaming service. *)
Record node := { nd_cms : ListeningStore C L FL M; nd_fss : StreamingService (DB := D) }.
Definition with_store (ls : ListeningStore C L FL M) rs : ListeningStore C L FL M :=
  {| ls_store := rs; ls_listeners := ls_listeners ls |}.

(** As [rs_reach]: the version database is set up on an empty directory, writes go through
    the cache multistore, and a block is streamed after its commit, under the version it was
    committed as; [porder] is the order of the iteration over the listeners. *)
Inductive node_reach : Z -> Z -> gmap Z (app * CommitInfo) -> app -> node -> Prop :=
| nr_setup rs0 rs (d : D) tkeys ls fss ms :
    fresh_store init rs0 -> LoadLatestVersion rs0 = (rs, Ok tt) -> db_entries d = ∅ -> db_default d = ∅ ->
    Forall slash_free (mounted rs0) ->
    SetupVersionDB {| ls_store := rs; ls_listeners := ∅ |} d (mounted rs0) tkeys = Ok (ls, fss, ms) ->
    node_reach 0 0 ∅ (empty_app (mounted rs0)) {| nd_cms := ls; nd_fss := fss |}
| nr_write k n hs w nd ls' name cs p :
    node_reach k n hs w nd -> rs_stores (ls_store (nd_cms nd)) !! name = Some (IAVL cs) ->
    cache_write name p (nd_cms nd) = (ls', Ok tt) ->
    node_reach k (n + 1) hs (alter (fun m => map_apply m p) name w) {| nd_cms := ls'; nd_fss := nd_fss nd |}
| nr_block k n hs w nd rs' order locked rs1 db1 info porder cache ls' fss' :
    node_reach k n hs w nd -> iterates order (ls_store (nd_cms nd)) ->
    flush order (ls_store (nd_cms nd)) = (rs1, Ok tt) -> rs_db rs1 = Some db1 -> encodable (pendingLog db1) ->
    tree_version 0 init + k + 1 < MaxInt64 ->
    RootMulti.Commit order locked (ls_store (nd_cms nd)) = (rs', Ok info) ->
    NoDup porder -> (forall name, name ∈ porder <-> is_Some (ls_listeners (nd_cms nd) !! name)) ->
    PopStateCache porder (with_store (nd_cms nd) rs') = (cache, ls') ->
    VersionDBInv.commit_block (ci_Version info, cache) (nd_fss nd) = (fss', Ok tt) ->
    node_reach (k + 1) n (<[ci_Version info := (w, info)]> hs) w {| nd_cms := ls'; nd_fss := fss' |}
| nr_background k n hs w nd rs' :
    node_reach k n hs w nd -> background (ls_store (nd_cms nd)) rs' ->
    node_reach k n hs w {| nd_cms := with_store (nd_cms nd) rs'; nd_fss := nd_fss nd |}.

(** A commit has a version later than all before. *)
Lemma commit_newer k n hs w rs rs' order locked rs1 db1 info :
  rs_ok init k n hs w rs -> n < max_leaves -> iterates order rs ->
  flush order rs = (rs1, Ok tt) -> rs_db rs1 = Some db1 -> encodable (pendingLog db1) ->
  tree_version 0 init + k + 1 < MaxInt64 -> RootMulti.Commit order locked rs = (rs', Ok info) ->
  0 < ci_Version info < 2 ^ 63 /\ forall v, is_Some (hs !! v) -> v < ci_Version info.
Proof.
  intros (hist & db & pub & Hk & Hn & Edb & Hdb & Hw & Hc & Hh & Hl) Hmax Hord Ef Edb1 Henc Hb E.
  apply Commit_inv in E as (rs1' & db1' & v & db2 & c & Ef' & Edb1' & Ec & -> & Ea & ->).
  rewrite Ef in Ef'. injection Ef' as <-. rewrite Edb1 in Edb1'. injection Edb1' as <-.
  destruct (flush_working (genesis init) order rs rs1 hist db n w Hmax Hord Edb Hdb Hw Ef) as (db1' & -> & Hdb1 & _ & Hv1 & _ & _).
  cbn [rs_db with_rs_db] in Edb1. injection Edb1 as ->.
  destruct (live_ok (genesis init) hist db1 Hdb1) as [Ht1 Hlt1].
  destruct (Commit_state (genesis init) hist db1 db2 v locked Hdb1 Henc) as (_ & [Hs2 _] & Ht2 & _); [by rewrite Hk|done|].
  destruct (saved_version (db_tree db1) Ht1 Hlt1) as [Hgt Hpos]. rewrite (sim_version _ _ Hs2) in Hgt, Hpos.
  change (ci_Version (lastCommitInfo (db_tree db2))) with (Version (db_tree db2)).
  pose proof (mo_version _ Ht2) as (_ & Hr & _). unfold MaxInt64 in Hr. split; [lia|]. intros u Hu.
  assert (Hp : is_Some (pub !! u)) by (specialize (Hh u); destruct (hs !! u) as [[]|], (pub !! u); by inversion Hu || eauto).
  specialize (Hl u Hp). rewrite <- Hv1 in Hl. lia.
Qed.

(** ** The invariant *)

Lemma add_listeners_lookup (m : gmap bytes M) keys name :
  foldl add_listener m keys !! name =
    match m !! name with Some l => Some l | None => if decide (name ∈ keys) then Some NewMemoryListener else None end.
Proof.
  revert m. induction keys as [|key keys IH]; intros m; cbn [foldl].
  { destruct (m !! name); [done|]. by rewrite decide_False by apply not_elem_of_nil. }
  rewrite IH, decide_cons. unfold add_listener. destruct (m !! key) as [l|] eqn:El.
  - destruct (decide (key = name)) as [<-|]; [by rewrite El|done].
  - destruct (decide (key = name)) as [<-|]; [by rewrite lookup_insert_eq, El|by rewrite lookup_insert_ne].
Qed.

(** [f v] is the state the database has at version [v], and [h] its latest version. *)
Record streams hs w (nd : node) (f : Z -> app_state) (h : Z) : Prop := {
  sm_tracks : tracks (db_entries (db (versionStore (nd_fss nd)))) f 0 h;
  sm_range : 0 <= h < 2 ^ 63;
  sm_skip : skipVersionZero (versionStore (nd_fss nd)) = false;
  sm_late : forall v, h <= v -> f v = f h;
  sm_hist : forall v a info, hs !! v = Some (a, info) -> 0 < v <= h /\ forall name, holds_store (f v) name (default ∅ (a !! name));
  sm_latest : (hs = ∅ /\ h = 0) \/ (is_Some (hs !! h) /\ GetLatestVersion (versionStore (nd_fss nd)) = Ok h);
  sm_own : own (ls_listeners (nd_cms nd));
  sm_names : forall name, is_Some (w !! name) <-> is_Some (ls_listeners (nd_cms nd) !! name);
  sm_slash : forall name, is_Some (w !! name) -> slash_free name;
  sm_work : forall name, exists m0, holds_store (f h) name m0 /\
    default ∅ (w !! name) = foldl map_apply m0 (map pair_of (pending_of (ls_listeners (nd_cms nd)) name))
}.

Lemma streams_store hs w nd rs f h :
  streams hs w nd f h -> streams hs w {| nd_cms := with_store (nd_cms nd) rs; nd_fss := nd_fss nd |} f h.
Proof. by intros []. Qed.

Lemma setup_streams rs (d : D) names tkeys ls fss ms :
  db_entries d = ∅ -> db_default d = ∅ -> Forall slash_free names ->
  SetupVersionDB {| ls_store := rs; ls_listeners := ∅ |} d names tkeys = Ok (ls, fss, ms) ->
  streams ∅ (empty_app names) {| nd_cms := ls; nd_fss := fss |} (fun _ => ∅) 0 /\ ls_store ls = rs.
Proof.
  intros He Hd Hs E. unfold SetupVersionDB in E. apply res_bind_ok in E as (cmsVersion & _ & E).
  assert (Eq : GetLatestVersion (NewStore d) = Ok 0).
  { unfold GetLatestVersion. cbn [db NewStore]. by rewrite GetBytes_lookup, Hd, lookup_empty. }
  rewrite Eq in E. cbn [mbind res_bind] in E.
  assert (Eb : (0 <? cmsVersion) && (cmsVersion <? 0) = false) by (rewrite andb_false_iff, !Z.ltb_ge; lia).
  rewrite Eb in E. injection E as <- <- _. split; [|done].
  assert (Hl : forall name, foldl add_listener (∅ : gmap bytes M) names !! name = if decide (name ∈ names) then Some NewMemoryListener else None)
    by (intros name; by rewrite add_listeners_lookup, lookup_empty).
  assert (Hp : forall name, pending_of (foldl add_listener (∅ : gmap bytes M) names) name = [])
    by (intros name; unfold pending_of; rewrite Hl; destruct (decide _); [apply pending_new|done]).
  assert (Hw : forall name, empty_app names !! name = if decide (name ∈ names) then Some ∅ else None).
  { intros name. unfold empty_app. rewrite lookup_gset_to_gmap. destruct (decide (name ∈ names)).
    - by rewrite option_guard_True by (by apply elem_of_list_to_set).
    - by rewrite option_guard_False by (by rewrite elem_of_list_to_set). }
  split; cbn [nd_cms nd_fss ls_listeners AddListeners versionStore NewStreamingService db NewStore skipVersionZero]; try done.
  - rewrite He. apply empty_tracks.
  - by left.
  - intros name. rewrite Hp. constructor.
  - intros name. rewrite Hl, Hw. by destruct (decide _).
  - intros name. rewrite Hw. destruct (decide _); [|by intros []]. intros _. rewrite Forall_forall in Hs. by apply Hs.
  - intros name. exists ∅. rewrite Hp, Hw. split; [intros key; by rewrite !lookup_empty|by destruct (decide _)].
Qed.

Lemma cache_write_streams hs w nd f h name p ls' :
  streams hs w nd f h -> is_Some (rs_stores (ls_store (nd_cms nd)) !! name) -> cache_write name p (nd_cms nd) = (ls', Ok tt) ->
  streams hs (alter (fun m => map_apply m p) name w) {| nd_cms := ls'; nd_fss := nd_fss nd |} f h /\
  write_store_pair p name (ls_store (nd_cms nd)) = Ok (ls_store ls').
Proof.
  intros [Ht Hr Hz Hla Hh Hlt Ho Hn Hsl Hw] Hst E. unfold cache_write in E.
  destruct (ls_listeners (nd_cms nd) !! name) as [l|] eqn:El.
  - destruct (write_store_pair p name (ls_store (nd_cms nd))) as [rs'|e|] eqn:Ew.
    2-3: by unfold write_store_pair in Ew; destruct Hst as [st Est]; rewrite Est in Ew; destruct st.
    destruct (listenkv_write_ok _ (fun p rs => match write_store_pair p name rs with Ok rs => (rs, Ok tt) | Err e => (rs, Err e) | Panic => (rs, Panic) end)
      name p (ls_store (nd_cms nd)) rs' l) as (l' & E' & Hl'); [by rewrite Ew|]. rewrite E' in E. injection E as <-. split; [|done].
    assert (Hpend : forall x, pending_of (<[name := l']> (ls_listeners (nd_cms nd))) x =
      if decide (name = x) then pending_of (ls_listeners (nd_cms nd)) x ++ [store_pair name p] else pending_of (ls_listeners (nd_cms nd)) x).
    { intros x. rewrite pending_insert. destruct (decide (name = x)) as [<-|]; [|done]. unfold pending_of. by rewrite El, Hl'. }
    split; cbn [nd_cms nd_fss ls_listeners]; try done.
    + intros x. rewrite Hpend. destruct (decide (name = x)) as [<-|]; [|apply Ho]. apply Forall_app. split; [apply Ho|by repeat constructor].
    + intros x. rewrite lookup_alter_is_Some, lookup_insert_is_Some', Hn. split; [by right|]. intros [<-|?]; [by rewrite El|done].
    + intros x. rewrite lookup_alter_is_Some. apply Hsl.
    + intros x. destruct (Hw x) as (m0 & Hm0 & Em). exists m0. split; [done|]. rewrite Hpend.
      destruct (decide (name = x)) as [<-|Hne]; [|by rewrite lookup_alter_ne].
      rewrite lookup_alter_eq, map_app, foldl_app. cbn [map foldl]. rewrite map_apply_pair, <- Em.
      destruct (w !! name) as [m|] eqn:Ewn; [done|]. exfalso. destruct (proj2 (Hn name)) as [? ?]; [by rewrite El|congruence].
  - destruct (write_store_pair p name (ls_store (nd_cms nd))) as [rs'|e|] eqn:Ew; [|done|done]. injection E as <-. split; [|done].
    assert (Ewn : w !! name = None).
    { destruct (w !! name) eqn:Ewn; [|done]. destruct (proj1 (Hn name)) as [? ?]; [by rewrite Ewn|congruence]. }
    rewrite alter_id by (intros x; by rewrite Ewn). by split.
Qed.

Lemma commit_block_put v cache (fss fss' : StreamingService (DB := D)) :
  VersionDBInv.commit_block (v, cache) fss = (fss', Ok tt) ->
  PutAtVersion v cache (versionStore fss) = (versionStore fss', Ok tt).
Proof.
  unfold VersionDBInv.commit_block, ListenFinalizeBlock, ListenCommit, mbind, SE_bind. cbn [fst snd currentBlockNumber versionStore].
  destruct (PutAtVersion v cache (versionStore fss)) as [s' r]. by intros [= <- ->].
Qed.

Lemma popped hs w nd f h porder rs cache ls' :
  streams hs w nd f h -> NoDup porder -> (forall name, name ∈ porder <-> is_Some (ls_listeners (nd_cms nd) !! name)) ->
  PopStateCache porder (with_store (nd_cms nd) rs) = (cache, ls') ->
  ls_store ls' = rs /\ pairs_ok cache /\ (forall name, of_store name cache = pending_of (ls_listeners (nd_cms nd)) name) /\
  (forall name, pending_of (ls_listeners ls') name = []) /\
  (forall name, is_Some (ls_listeners ls' !! name) <-> is_Some (ls_listeners (nd_cms nd) !! name)).
Proof.
  intros Hs Hd Ho E. unfold PopStateCache in E. cbn [with_store ls_listeners ls_store] in E.
  destruct (pop_listeners porder (ls_listeners (nd_cms nd))) as [cache0 m'] eqn:Ep. injection E as <- <-.
  destruct (pop_listeners_ok _ _ _ _ Hd (sm_own _ _ _ _ _ Hs) Ep) as (H1' & H2' & H3').
  assert (Hnone : forall name, name ∉ porder -> pending_of (ls_listeners (nd_cms nd)) name = []).
  { intros name Hn. unfold pending_of. destruct (ls_listeners (nd_cms nd) !! name) eqn:El; [|done]. destruct Hn. apply Ho. by rewrite El. }
  split; [done|]. assert (Hof : forall name, of_store name (SliceStable skv_StoreKey cache0) = pending_of (ls_listeners (nd_cms nd)) name).
  { intros name. rewrite SliceStable_of_store, H1'. destruct (decide _); [done|]. by rewrite Hnone. }
  split; [|split; [done|split; [|done]]].
  - apply Forall_forall. intros p Hp. apply (sm_slash _ _ _ _ _ Hs), (sm_names _ _ _ _ _ Hs).
    assert (Hin : p ∈ pending_of (ls_listeners (nd_cms nd)) (skv_StoreKey p)) by (rewrite <- Hof; by apply list_elem_of_filter).
    unfold pending_of in Hin. destruct (_ !! _); [done|by apply elem_of_nil in Hin].
  - intros name. cbn [ls_listeners]. rewrite H2'. destruct (decide _); [done|]. by apply Hnone.
Qed.

Lemma block_streams hs w nd f h v info porder rs cache ls' fss' :
  streams hs w nd f h -> 0 < v < 2 ^ 63 -> (forall u, is_Some (hs !! u) -> u < v) ->
  NoDup porder -> (forall name, name ∈ porder <-> is_Some (ls_listeners (nd_cms nd) !! name)) ->
  PopStateCache porder (with_store (nd_cms nd) rs) = (cache, ls') ->
  VersionDBInv.commit_block (v, cache) (nd_fss nd) = (fss', Ok tt) ->
  streams (<[v := (w, info)]> hs) w {| nd_cms := ls'; nd_fss := fss' |} (fun u => apply_block u (f u) (v, cache)) v.
Proof.
  intros Hs Hv Hnew Hd Ho Ep Ec. destruct (popped _ _ _ _ _ _ _ _ _ Hs Hd Ho Ep) as (_ & Hok & Hof & Hp & Hi).
  destruct Hs as [Ht Hr Hz Hla Hh Hlt Hown Hn Hsl Hw].
  assert (Hhv : h < v) by (destruct Hlt as [[_ ->]|[Hin _]]; [lia|by apply Hnew]).
  destruct (PutAtVersion_tracks v cache _ _ f 0 h (commit_block_put _ _ _ _ Ec) Ht) as (Ht' & Hl' & Hz'); [lia|unfold height_ok; lia|done|].
  assert (Hat : forall u, v <= u -> apply_block u (f u) (v, cache) = foldl apply_pair (f h) cache).
  { intros u Hu. unfold apply_block. cbn [fst snd]. rewrite (proj2 (Z.leb_le _ _)), Hla by lia. done. }
  assert (Hwork : forall name, holds_store (apply_block v (f v) (v, cache)) name (default ∅ (w !! name))).
  { intros name. rewrite Hat by lia. destruct (Hw name) as (m0 & Hm0 & ->). rewrite <- Hof. by apply holds_pairs. }
  split; cbn [nd_cms nd_fss]; try done.
  - lia.
  - congruence.
  - intros u Hu. by rewrite !Hat by lia.
  - intros u a info'. destruct (decide (v = u)) as [<-|Hne].
    + rewrite lookup_insert_eq. intros [= <- _]. split; [lia|done].
    + rewrite lookup_insert_ne by done. intros E. destruct (Hh u a info' E) as [Hu Hst]. specialize (Hnew u ltac:(by rewrite E)).
      split; [lia|]. unfold apply_block. cbn [fst snd]. by rewrite (proj2 (Z.leb_gt _ _)) by lia.
  - right. rewrite lookup_insert_eq. split; [done|]. apply GetLatestVersion_at; [done|unfold height_ok; lia].
  - intros name. rewrite Hp. constructor.
  - intros name. by rewrite Hi.
  - intros name. exists (default ∅ (w !! name)). split; [apply Hwork|]. by rewrite Hp.
Qed.

Lemma node_reach_ok k n hs w nd :
  node_reach k n hs w nd -> n < max_leaves ->
  rs_reach init k n hs w (ls_store (nd_cms nd)) /\ exists f h, streams hs w nd f h.
Proof.
  induction 1 as [rs0 rs d tkeys ls fss ms Hf E He Hd Hs Es|k n hs w nd ls' name cs p _ IH Est E
    |k n hs w nd rs' order locked rs1 db1 info porder cache ls' fss' _ IH Hor Ef Ed Henc Hb E Hpd Hpo Ep Ec|k n hs w nd rs' _ IH Hbg]; intros Hn.
  - destruct (setup_streams rs d _ tkeys ls fss ms He Hd Hs Es) as [Hst Els]. cbn [nd_cms]. rewrite Els.
    split; [by eapply rr_load|by eexists _, _].
  - destruct (IH ltac:(lia)) as (Hr & f & h & Hst). destruct (cache_write_streams _ _ _ _ _ _ _ _ Hst (ex_intro _ _ Est) E) as [Hst' Ew].
    split; [by eapply rr_write|by exists f, h].
  - destruct (IH Hn) as (Hr & f & h & Hst). pose proof (rs_reach_ok init init_range _ _ _ _ _ Hr Hn) as Hok.
    destruct (commit_newer _ _ _ _ _ _ _ _ _ _ _ Hok Hn Hor Ef Ed Henc Hb E) as [Hv Hnew].
    destruct (popped _ _ _ _ _ _ _ _ _ Hst Hpd Hpo Ep) as (Els & _). cbn [nd_cms]. rewrite Els.
    split; [by eapply rr_commit|]. by eexists _, _; eapply block_streams.
  - destruct (IH Hn) as (Hr & f & h & Hst). split; [by eapply background_reach|]. exists f, h. by apply streams_store.
Qed.
End runs.
