(* ===== verification/StreamingProps.v ===== *)
(** * The version database and memiavl agree *)

From Stdlib Require Import Strings.Byte ZArith Lia.
From stdpp Require Import base list numbers strings gmap sorting.
From S2P Require Import Prelude Binary Proto ProtoInv ProtoCodec State Node NodeInv Snapshot SnapshotWriter Cache Tree Wal.
From S2P Require Import Merkle IavlStore MultiTree MultiTreeInv MultiTreeSim MultiTreeSnapshot.
From S2P Require Import SnapshotDir SnapshotDirInv DB DBInv DBRecovery DBCrash DBRun DBProps.
From S2P Require Import StateSync QueryCache QueryCacheInv RootMulti RootMultiInv RootMultiRun RootMultiProps.
From S2P Require Import Rocks VersionDB VersionDBInv Streaming StreamingInv.
Local Open Scope Z_scope.

Section served.
  Context `{CacheLaws C} `{WalLaws L} {FL : Type} {M : Type} `{ListenLaws M} {D Iter : Type} `{RocksLaws D Iter}.
  Variable init : Z.
  Hypothesis init_range : 0 <= init <= MaxInt64.

Lemma insert_all_lookup (versionDB : @VersionDB.Store D) (version : option Z) (names : list bytes) (m : gmap bytes (AnyStore (D := D))) name :
  name ∈ names -> foldr (fun k m => <[k := Versioned (NewKVStore versionDB k version)]> m) m names !! name =
    Some (Versioned (NewKVStore versionDB name version)).
Proof.
  induction names as [|k names IH]; intros Hin; [by apply elem_of_nil in Hin|]. cbn [foldr].
  destruct (decide (k = name)) as [->|]; [by rewrite lookup_insert_eq|]. rewrite lookup_insert_ne by done. apply IH.
  by apply elem_of_cons in Hin as [|].
Qed.

(** A read at a committed version, or at the latest one, of a store of the version database. *)
Lemma streams_get hs w (nd : node (C := C) (L := L) (FL := FL) (M := M) (D := D)) f h version v a info name key :
  streams hs w nd f h -> (version = Some v \/ (version = None /\ v = h)) -> hs !! v = Some (a, info) -> slash_free name ->
  kv_Get (NewKVStore (versionStore (nd_fss nd)) name version) key = Ok (a !! name ≫= (fun m => m !! key)).
Proof.
  intros [Ht Hr Hz Hla Hh _ _ _ _ _] Hv Ea Hn. destruct (Hh v a info Ea) as [Hvr Hst].
  assert (Hok : version_ok version) by (destruct Hv as [->|[-> _]]; cbn; unfold height_ok; [lia|done]).
  unfold kv_Get. cbn [kv_store kv_name kv_version NewKVStore].
  rewrite (GetAtVersion_tracks _ f 0 h name key version Ht) by (done || lia || by rewrite Hz). cbn [must]. f_equal.
  assert (Ef : f (read_at version) = f v).
  { destruct Hv as [->|[-> ->]]; [done|]. apply Hla. cbn [read_at]. unfold MaxUint64. lia. }
  rewrite Ef, (Hst name key). by destruct (a !! name).
Qed.

End served.

(** ** Witness *)

(** Listeners that keep the writes in a list. *)
#[export] Instance list_listener : ListenOps (list StoreKVPair) := {|
  NewMemoryListener := [];
  listener_Pop l := (l, []);
  listenkv_write P parent name p := fun '(s, l) =>
    let '(s, r) := parent p s in match r with Ok _ => ((s, l ++ [store_pair name p]), r) | _ => ((s, l), r) end
|}.
#[export] Instance list_listener_laws : ListenLaws (list StoreKVPair).
Proof.
  refine {| pending (l : list StoreKVPair) := l |}; [done|done|]. intros P parent name p s s' l E. cbn. rewrite E. by eexists.
Defined.

Abbreviation sample_node := (@node lru mem_log unit (list StoreKVPair) memDB).

Definition sample_setup : sample_node :=
  {| nd_cms := AddListeners (mounted sample_closed) {| ls_store := sample_open; ls_listeners := ∅ |};
     nd_fss := NewStreamingService (NewStore mem_empty) |}.
Definition node_write (name key value : string) (nd : sample_node) : sample_node :=
  {| nd_cms := (cache_write (str name) (write_of (str key) (str value)) (nd_cms nd)).1; nd_fss := nd_fss nd |}.
Definition node_order : list bytes := [str "gov"; str "bank"].
Definition node_commit (nd : sample_node) : sample_node :=
  let rs := sample_commit (ls_store (nd_cms nd)) in
  let info := info_of (RootMulti.Commit sample_order unlocked (ls_store (nd_cms nd))).2 in
  let '(cache, ls) := PopStateCache node_order (with_store (nd_cms nd) rs) in
  {| nd_cms := ls; nd_fss := (VersionDBInv.commit_block (ci_Version info, cache) (nd_fss nd)).1 |}.

Definition node_first := node_write "bank" "alice" "10" sample_setup.
Definition node_second := node_write "bank" "bob" "7" (node_commit node_first).
Definition node_done := node_commit node_second.

Lemma node_ok {A} (p : ListeningStore lru mem_log unit (list StoreKVPair) * res A) (a : A) : p.2 = Ok a -> p = (p.1, Ok a).
Proof. destruct p. by intros <-. Qed.

Lemma sample_setup_reach : node_reach 5 0 0 ∅ (sample_app 0) sample_setup.
Proof.
  eapply (nr_setup 5 sample_closed sample_open mem_empty []).
  - split; vm_compute; reflexivity.
  - apply (SE_pair (LoadLatestVersion sample_closed)). vm_compute. reflexivity.
  - reflexivity.
  - reflexivity.
  - apply (bool_decide_unpack _). vm_compute. reflexivity.
  - vm_compute. reflexivity.
Qed.

Lemma node_write_reach k n hs w nd name key value :
  node_reach 5 k n hs w nd ->
  (match rs_stores (ls_store (nd_cms nd)) !! str name with Some (IAVL _) => true | _ => false end) = true ->
  (cache_write (str name) (write_of (str key) (str value)) (nd_cms nd)).2 = Ok tt ->
  node_reach 5 k (n + 1) hs (alter (fun m => map_apply m (write_of (str key) (str value))) (str name) w) (node_write name key value nd).
Proof.
  intros Hr Hs Hw. destruct (rs_stores (ls_store (nd_cms nd)) !! str name) as [[cs| |]|] eqn:E; [|done..].
  eapply (nr_write 5 k n hs w nd); [done|exact E|by apply SE_pair].
Qed.

Definition committed_all (nd : sample_node) : bool :=
  let flushed := flush sample_order (ls_store (nd_cms nd)) in
  let c := RootMulti.Commit sample_order unlocked (ls_store (nd_cms nd)) in
  bool_decide (dom (rs_stores (ls_store (nd_cms nd))) = list_to_set sample_order) &&
  bool_decide (dom (ls_listeners (nd_cms nd)) = list_to_set node_order) &&
  match flushed.2, rs_db flushed.1, c.2 with
  | Ok _, Some db1, Ok info =>
      (zlen (WALEntry_bytes (pendingLog db1)) <? 2 ^ 63) &&
      match (VersionDBInv.commit_block (ci_Version info, (PopStateCache node_order (with_store (nd_cms nd) c.1)).1) (nd_fss nd)).2 with
      | Ok _ => true | _ => false
      end
  | _, _, _ => false
  end.

Lemma node_commit_reach k n hs w nd :
  node_reach 5 k n hs w nd -> 0 <= k < 1000 -> committed_all nd = true ->
  let info := info_of (RootMulti.Commit sample_order unlocked (ls_store (nd_cms nd))).2 in
  node_reach 5 (k + 1) n (<[ci_Version info := (w, info)]> hs) w (node_commit nd).
Proof.
  intros Hr Hk Hc info. unfold node_commit, sample_commit. fold info. unfold committed_all in Hc. subst info.
  destruct (flush sample_order (ls_store (nd_cms nd))) as [rs1 r1] eqn:Ef.
  destruct (RootMulti.Commit sample_order unlocked (ls_store (nd_cms nd))) as [rs' rc] eqn:Ec. cbn [fst snd] in *.
  destruct (PopStateCache node_order (with_store (nd_cms nd) rs')) as [cache ls'] eqn:Ep. cbn [fst snd] in *.
  rewrite !andb_true_iff, !bool_decide_eq_true in Hc. destruct Hc as [[Hd Hl] Hc].
  destruct r1 as [[]| |]; [|done..]. destruct (rs_db rs1) as [db1|] eqn:Edb; [|done]. destruct rc as [info| |]; [|done..].
  rewrite andb_true_iff, Z.ltb_lt in Hc. destruct Hc as [He Hb]. cbn [info_of].
  destruct (VersionDBInv.commit_block (ci_Version info, cache) (nd_fss nd)) as [fss' rb] eqn:Eb. cbn [fst snd] in *.
  destruct rb as [[]| |]; [|done..].
  apply (nr_block 5 k n hs w nd rs' sample_order unlocked rs1 db1 info node_order cache ls' fss'); try done.
  - apply sample_iterates. by apply bool_decide_eq_true.
  - change (tree_version 0 5) with 4. unfold MaxInt64. lia.
  - apply (bool_decide_unpack _). vm_compute. reflexivity.
  - intros name. by rewrite <- elem_of_dom, Hl, elem_of_list_to_set.
Qed.

Definition node_info (nd : sample_node) : CommitInfo :=
  info_of (RootMulti.Commit sample_order unlocked (ls_store (nd_cms nd))).2.
Definition node_history : gmap Z (app * CommitInfo) :=
  <[ci_Version (node_info node_second) := (sample_app 2, node_info node_second)]>
  (<[ci_Version (node_info node_first) := (sample_app 1, node_info node_first)]> ∅).

Lemma node_done_reach : node_reach 5 2 2 node_history (sample_app 2) node_done.
Proof.
  apply (node_commit_reach 1 2 _ (sample_app 2) node_second); [|lia|vm_compute; reflexivity].
  apply (node_write_reach 1 1 _ (sample_app 1)); [|vm_compute; reflexivity..].
  apply (node_commit_reach 0 1 _ (sample_app 1) node_first); [|lia|vm_compute; reflexivity].
  apply (node_write_reach 0 0 _ (sample_app 0)); [exact sample_setup_reach|vm_compute; reflexivity..].
Qed.

Lemma node_history_5 : node_history !! 5 = Some (sample_app 1, node_info node_first).
Proof.
  assert (E1 : ci_Version (node_info node_first) = 5) by (vm_compute; reflexivity).
  assert (E2 : ci_Version (node_info node_second) = 6) by (vm_compute; reflexivity).
  unfold node_history. rewrite E1, E2, lookup_insert_ne by done. apply lookup_insert_eq.
Qed.

Definition node_stores : gmap bytes (AnyStore (D := memDB)) :=
  match ms_CacheMultiStoreWithVersion (versionStore (nd_fss node_done)) (ls_store (nd_cms node_done))
    (NewMultiStore [str "bank"; str "gov"] []) 5 with Ok m => m | _ => ∅ end.

