(* ===== verification/Bulk.v ===== *)
(** * Commands that fill and inspect a version database (client/changeset)

    The change set files of the stores are converted to SST files (convert_to_sst.go), which a
    version database ingests (ingest_sst.go), or are fed to it directly (to_versiondb.go);
    [print] lists the versions of a file (print.go).  The ingestion of RocksDB is an interface;
    flags are arguments. *)

From Stdlib Require Import Strings.Byte ZArith Lia.
From stdpp Require Import base list numbers strings gmap sorting.
From S2P Require Import Prelude Binary Proto State Sort ExtSort Rocks VersionDB SnapshotDir ChangeSetFile Convert ConvertInv ChangeSetDir.
Local Open Scope Z_scope.

(** ** Names of stores (stores.go) *)

(** [strings.Split(s, " ")] *)
Fixpoint split_space (s : bytes) : list bytes :=
  match s with
  | [] => [[]]
  | b :: s =>
      if bool_decide (b = x20) then [] :: split_space s
      else match split_space s with name :: rest => (b :: name) :: rest | [] => [[b]] end
  end.

Definition GetStoresOrDefault (stores : bytes) (defaultStores : list bytes) : list bytes :=
  if zlen stores =? 0 then defaultStores else split_space stores.

(** ** SST files of all stores *)

Section build.
  Context `{SortOps, SnappyOps, ZlibOps} {W : Type} `{SstOps W}.

(** [convertSingleStore] on a directory. *)
Definition convertStoreDir (dir : changeSetDir) (store : bytes) (sstFileSize sorterChunkSize : Z)
    (weave : list bytes -> list event) (sched : list (nat * option error)) : SE W unit :=
  csFiles ← lift (scanChangeSetFiles dir store);
  convert_files store csFiles sstFileSize sorterChunkSize weave sched.

(** The tasks of the stores, each with a writer and file names of its own, in the order in
    which they come to an end; the first error cancels the others. *)
Definition BuildVersionDBSST (dir : changeSetDir) (stores : list bytes) (sstFileSize sorterChunkSize : Z)
    (weave : list bytes -> list event) (sched : list (nat * option error)) : SE W unit :=
  for_each (fun store => convertStoreDir dir store sstFileSize sorterChunkSize weave sched) stores.
End build.

(** ** Ingestion *)

(** [IngestExternalFileCF], for files with their entries. *)
Class IngestOps (D : Type) := { db_Ingest : list (list sst_entry) -> SE D unit }.

(** Whether the user keys of one file are all before those of the other. *)
Definition apart_files (f g : list sst_entry) : Prop := files_before f g \/ files_before g f.

(** Files that are not empty, ordered, and do not overlap are ingested as a whole or not at all. *)
Class IngestLaws D Iter `{RocksLaws D Iter, !IngestOps D} := {
  Ingest_atomic : forall files d,
    Forall (fun f => f <> [] /\ StronglySorted entry_lt f) files -> StronglySorted apart_files files ->
    (exists d', db_Ingest files d = (d', Ok tt) /\ db_default d' = db_default d /\
      db_entries d' = foldl apply_op (db_entries d) (map entry_op (concat files))) \/
    (exists d' e, db_Ingest files d = (d', Err e) /\ db_default d' = db_default d /\ db_entries d' = db_entries d)
}.

Section commands.
  Context `{SnappyOps, ZlibOps} {D Iter : Type} `{RocksOps D Iter} `{IngestOps D}.
  Abbreviation Store := (@VersionDB.Store D).

(** An operation of a store on the database. *)
Definition on_store (m : SE Store unit) : SE D unit := fun d =>
  let '(s, r) := m (NewStore d) in (db s, r).

Definition IngestVersionDBSST (files : list (list sst_entry)) (maxVersion : Z) : SE D unit :=
  (if 0 <? zlen files then db_Ingest files else mret tt) ;;
  if 0 <? maxVersion then
    on_store (
      latestVersion ← (s ← gets id; lift (GetLatestVersion s));
      if latestVersion <? maxVersion then SetLatestVersion maxVersion else mret tt)
  else mret tt.

(** ** Feeding *)

Definition feed_version (store : bytes) (version : Z) (changeSet : ChangeSet) : SE Store bool :=
  FeedChangeSet version store changeSet ;; mret true.

(** The files with their names and data, in the order of the arguments. *)
Fixpoint ChangeSetToVersionDB (store : bytes) (plainFiles : list (bytes * bytes)) : SE Store unit := fun s =>
  match plainFiles with
  | [] => (s, Ok tt)
  | (name, data) :: plainFiles =>
      match openChangeSetFile name data with
      | Ok reader =>
          match IterateChangeSets (feed_version store) reader s with
          | Ok (s, _, None) => ChangeSetToVersionDB store plainFiles s
          | Ok (s, _, Some e) => (s, Err e)
          | Err e => (s, Err e)
          | Panic => (s, Panic)
          end
      | Err e => (s, Err e)
      | Panic => (s, Panic)
      end
  end.

(** ** Repairs (fixdata.go) *)

Definition FixDataCmd (fuel : nat) (stores defaultStores : list bytes) (dryRun : bool) : SE D unit :=
  let stores := if zlen stores =? 0 then defaultStores else stores in
  on_store (FixData fuel stores dryRun).
End commands.

(** ** Printing (print.go) *)

(** A line of the output: a version, or a pair as JSON. *)
Inductive line : Type := PrintVersion (version : Z) | PrintPair (pair : KVPair).

Section print.
  Context `{SnappyOps, ZlibOps}.
  Variables (startVersion endVersion : Z).

(** The callbacks: versions before the start are passed over, those from the end on stop. *)
Definition print_version (version : Z) (changeSet : ChangeSet) : SE (list line) bool :=
  if version <? startVersion then mret true
  else if (0 <? endVersion) && (endVersion <=? version) then mret false
  else
    modify (fun out => out ++ PrintVersion version :: map PrintPair (Pairs changeSet)) ;; mret true.

Definition PrintChangeSet (noParseChangeset : bool) (name data : bytes) : res (list line * option error) :=
  reader ← openChangeSetFile name data;
  '(out, _, err) ← (if noParseChangeset
                    then IterateVersions (fun version => print_version version {| Pairs := [] |}) reader []
                    else IterateChangeSets print_version reader []);
  Ok (out, err).
End print.
