(* ===== verification/BulkInv.v ===== *)
(** * Bulk loading serves the dumped versions

    The change sets of an IAVL database are dumped, converted and ingested, or fed to the
    version database: it then has the state of every store at every version. *)

From Stdlib Require Import Strings.Byte ZArith Lia.
From stdpp Require Import base list numbers strings pretty gmap sorting.
From S2P Require Import Prelude Binary Codec Proto State Sort ExtSort ExtSortInv Node NodeInv Cache Tree MultiTree SnapshotDir SnapshotDirInv.
From S2P Require Import Rocks VersionDB VersionDBInv VersionDBIter VersionDBProps.
From S2P Require Import ChangeSetFile ChangeSetFileInv Convert ConvertInv ChangeSetDir Dump DumpInv Bulk.
Local Open Scope Z_scope.

(** ** Histories of stores *)

(** The pairs of the versions up to [v]. *)
Fixpoint changes_upto (v : Z) (vs : list (Z * ChangeSet)) : list KVPair :=
  match vs with
  | [] => []
  | (w, cs) :: vs => if w <=? v then Pairs cs ++ changes_upto v vs else changes_upto v vs
  end.

(** Versions in ascending order after [h]. *)
Definition ascending (h : Z) (vs : list (Z * ChangeSet)) : Prop :=
  StronglySorted Z.lt (map fst vs) /\ Forall (fun x => h < x.1 < 2 ^ 63) vs.

(** The history [m] has the state [g v] of the store at version [v]; its versions are from 1 to [h]. *)
Record store_tracks (m : history) (name : bytes) (g : Z -> gmap bytes bytes) (h : Z) : Prop := {
  st_bound : forall key ts o, m !! (prependStoreKey name key, ts) = Some o -> 0 < ts <= h;
  st_state : forall key v, fst <$> visible m (prependStoreKey name key) v = g v !! key
}.

Lemma feed_pair_op m name h p :
  height_ok h -> apply_op m (feed_pair (storePrefix name) (version_ts h) p) =
  <[(prependStoreKey name (kv_Key p), h) := if kv_Delete p then None else Some (default [] (kv_Value p))]> m.
Proof. intros Hh. unfold feed_pair. destruct (kv_Delete p); cbn [apply_op]; by rewrite version_ts_get. Qed.

Lemma store_tracks_put m name g h p :
  store_tracks m name g h -> 0 < h < 2 ^ 63 ->
  store_tracks (apply_op m (feed_pair (storePrefix name) (version_ts h) p)) name
    (fun v => if h <=? v then map_apply (g v) p else g v) h.
Proof.
  intros [Hb Hs] Hh. rewrite feed_pair_op by (unfold height_ok; lia). split.
  - intros key ts o E. apply lookup_insert_Some in E as [[E _]|[_ E]]; [simplify_eq; lia|by eapply Hb].
  - intros key v. rewrite visible_insert by (intros ts o E; apply Hb in E; lia). rewrite Hs. unfold map_apply.
    destruct (Z.leb_spec h v); [|by rewrite andb_false_r]. rewrite andb_true_r.
    case_bool_decide as E; [apply app_inv_head in E as ->|]; destruct (kv_Delete p);
      rewrite ?lookup_insert_eq, ?lookup_delete_eq, ?lookup_insert_ne, ?lookup_delete_ne by congruence; done.
Qed.

Lemma store_tracks_block m name g h cs :
  store_tracks m name g h -> 0 < h < 2 ^ 63 ->
  store_tracks (foldl apply_op m (map (feed_pair (storePrefix name) (version_ts h)) (Pairs cs))) name
    (fun v => if h <=? v then foldl map_apply (g v) (Pairs cs) else g v) h.
Proof.
  intros Ht Hh. revert m g Ht. induction (Pairs cs) as [|p ps IH]; intros m g Ht; cbn [map foldl].
  - destruct Ht as [Hb Hs]. split; [done|]. intros key v. by destruct (h <=? v).
  - pose proof (IH _ _ (store_tracks_put _ _ _ _ p Ht Hh)) as [Hb Hs]. split; [done|]. intros key v. rewrite Hs. by destruct (h <=? v).
Qed.

Lemma store_tracks_later m name g h h' : store_tracks m name g h -> h <= h' -> store_tracks m name g h'.
Proof. intros [Hb Hs] Hh. split; [|done]. intros key ts o E. apply Hb in E. lia. Qed.

Lemma feed_tracks m name g h vs :
  store_tracks m name g h -> ascending h vs -> 0 <= h ->
  exists h', store_tracks (foldl apply_op m (feed_ops name vs)) name (fun v => foldl map_apply (g v) (changes_upto v vs)) h' /\
    h <= h' /\ (h' < 2 ^ 63 \/ h' = h).
Proof.
  intros Ht [Hs Hb] Hh. revert m g h Ht Hs Hb Hh. induction vs as [|[w cs] vs IH]; intros m g h Ht Hs Hb Hh.
  { exists h. cbn. auto with lia. }
  apply StronglySorted_inv in Hs as [Hs Hw]. apply Forall_cons in Hb as [Hw0 Hb]. cbn [map fst] in *.
  unfold feed_ops. cbn [map concat]. rewrite foldl_app. fold (feed_ops name vs).
  destruct (IH _ _ w (store_tracks_block _ _ _ w cs (store_tracks_later _ _ _ _ w Ht ltac:(lia)) ltac:(lia)) Hs) as (h' & [Hb' Hs'] & Hle & Hlt).
  - rewrite Forall_forall in Hw. rewrite Forall_forall in Hb. apply Forall_forall. intros x Hin. specialize (Hb x Hin).
    split; [|lia]. apply Hw, list_elem_of_fmap. by exists x.
  - lia.
  - exists h'. split; [|lia]. split; [done|]. intros key v. rewrite Hs'. cbn [changes_upto].
    destruct (w <=? v); [by rewrite foldl_app|done].
Qed.

(** Operations of a store do not touch the entries of another. *)
Lemma ops_other m name other key ts vs :
  slash_free name -> slash_free other -> name <> other -> Forall (fun x => height_ok x.1) vs ->
  foldl apply_op m (feed_ops other vs) !! (prependStoreKey name key, ts) = m !! (prependStoreKey name key, ts).
Proof.
  intros Hn Ho Hne Hv. revert m. induction Hv as [|[w cs] vs Hw _ IH]; intros m; [done|].
  unfold feed_ops. cbn [map concat]. rewrite foldl_app. unfold feed_ops in IH. rewrite IH. clear IH. cbn [fst] in Hw.
  revert m. induction (Pairs cs) as [|p ps IH]; intros m; cbn [map foldl]; [done|]. rewrite IH, feed_pair_op by done.
  rewrite lookup_insert_ne; [done|]. intros E%(f_equal fst). apply prependStoreKey_inj in E as [? _]; [by subst|done|done].
Qed.

Lemma feed_other m name other g h vs :
  store_tracks m name g h -> Forall (fun x => 0 < x.1 < 2 ^ 63) vs -> slash_free name -> slash_free other -> other <> name ->
  store_tracks (foldl apply_op m (feed_ops other vs)) name g h.
Proof.
  intros [Hb Hs] Hv Hn Ho Hne. assert (Hk : forall key ts,
    foldl apply_op m (feed_ops other vs) !! (prependStoreKey name key, ts) = m !! (prependStoreKey name key, ts)).
  { intros key ts. apply ops_other; [done|done|congruence|]. eapply Forall_impl; [exact Hv|]. intros x. unfold height_ok. lia. }
  split; [intros key ts o; rewrite Hk; apply Hb|]. intros key w. rewrite <- Hs. unfold visible. by rewrite (newest_ext m) by apply Hk.
Qed.

(** ** All stores *)

(** The state of an application from those of its stores. *)
Definition app_of (stores : list bytes) (g : bytes -> gmap bytes bytes) : app_state :=
  foldr (fun name acc => kmap (pair name) (g name) ∪ acc) ∅ stores.

Lemma app_of_lookup stores g name key :
  app_of stores g !! (name, key) = if bool_decide (name ∈ stores) then g name !! key else None.
Proof.
  induction stores as [|other stores IH]; [done|]. cbn [app_of foldr]. rewrite lookup_union. fold (app_of stores g). rewrite IH.
  destruct (decide (other = name)) as [->|Hne].
  - rewrite lookup_kmap by apply _. rewrite (bool_decide_true (name ∈ name :: stores)) by (by left).
    case_bool_decide; destruct (g name !! key) eqn:E; done.
  - assert (En : (kmap (pair other) (g other) : app_state) !! (name, key) = None).
    { apply lookup_kmap_None; [apply _|]. intros i [= -> ->]. done. }
    rewrite En, option_union_left_id. assert (Eb : bool_decide (name ∈ stores) = bool_decide (name ∈ other :: stores)); [|by rewrite Eb].
    apply bool_decide_ext. rewrite elem_of_cons. naive_solver.
Qed.

Section stores.
  Variable vs : bytes -> list (Z * ChangeSet).
  Variable stores : list bytes.
  Hypothesis stores_nodup : NoDup stores.
  Hypothesis stores_slash : Forall slash_free stores.
  Hypothesis stores_versions : Forall (fun name => ascending 0 (vs name)) stores.

Definition all_ops (names : list bytes) : list batch_op := concat (map (fun name => feed_ops name (vs name)) names).
Definition store_at (name : bytes) (v : Z) : gmap bytes bytes := foldl map_apply ∅ (changes_upto v (vs name)).
Definition app_at (v : Z) : app_state := app_of stores (fun name => store_at name v).

Lemma others_track m name g h names :
  store_tracks m name g h -> name ∉ names -> names ⊆ stores -> slash_free name ->
  store_tracks (foldl apply_op m (all_ops names)) name g h.
Proof.
  intros Ht Hni Hsub Hn. revert m Ht. induction names as [|other names IH]; intros m Ht; [done|].
  apply not_elem_of_cons in Hni as [Hne Hni]. assert (Ho : other ∈ stores) by (apply Hsub; by left).
  unfold all_ops. cbn [map concat]. rewrite foldl_app. apply IH; [done|intros x Hx; apply Hsub; by right|].
  rewrite Forall_forall in stores_slash. rewrite Forall_forall in stores_versions.
  apply feed_other; [done|apply (stores_versions _ Ho)|done|by apply stores_slash|done].
Qed.

Lemma empty_store_tracks name h : store_tracks ∅ name (fun _ => ∅) h.
Proof. by split. Qed.

Lemma all_tracks name :
  slash_free name ->
  exists h, store_tracks (foldl apply_op ∅ (all_ops stores)) name (fun v => if bool_decide (name ∈ stores) then store_at name v else ∅) h.
Proof.
  intros Hn. case_bool_decide as Hin; [|exists 0; by apply others_track; [apply empty_store_tracks|..]].
  pose proof stores_versions as Hv. rewrite Forall_forall in Hv. specialize (Hv _ Hin).
  apply list_elem_of_split in Hin as (l1 & l2 & E). assert (Hd : name ∉ l1 /\ name ∉ l2).
  { pose proof stores_nodup as Hd. rewrite E in Hd. apply NoDup_app in Hd as (_ & Hx & [Hy _]%NoDup_cons). set_solver. }
  assert (Eo : all_ops stores = all_ops l1 ++ feed_ops name (vs name) ++ all_ops l2).
  { rewrite E. unfold all_ops. rewrite map_app, concat_app. done. }
  rewrite Eo, !foldl_app.
  destruct (feed_tracks (foldl apply_op ∅ (all_ops l1)) name (fun _ => ∅) 0 (vs name)) as (h & Ht & _); [|done|done|].
  - apply others_track; [apply empty_store_tracks|naive_solver|set_solver|done].
  - exists h. apply others_track; [exact Ht|naive_solver|set_solver|done].
Qed.

Lemma ops_bound m ops :
  (forall k ts o, m !! (k, ts) = Some o -> 0 <= ts <= 2 ^ 63 - 1) ->
  Forall (fun op => match op with Put _ _ => True | PutCFWithTS _ ts _ | DeleteCFWithTS _ ts => 0 <= le_get ts <= 2 ^ 63 - 1 end) ops ->
  forall k ts o, foldl apply_op m ops !! (k, ts) = Some o -> 0 <= ts <= 2 ^ 63 - 1.
Proof.
  intros Hm Ho. revert m Hm. induction Ho as [|op ops Hop _ IH]; intros m Hm; [done|]. cbn [foldl]. apply IH.
  intros k ts o. destruct op; cbn [apply_op]; [apply Hm|..]; intros [[E _]|[_ E]]%lookup_insert_Some; simplify_eq; eauto.
Qed.

(** The history that the stores are fed to has the state of the application at every version. *)
Lemma fed_tracks : tracks (foldl apply_op ∅ (all_ops stores)) app_at 0 (2 ^ 63 - 1).
Proof.
  split.
  - apply ops_bound; [by intros|]. unfold all_ops. apply Forall_concat, Forall_map. rewrite Forall_forall in stores_versions.
    apply Forall_forall. intros name Hin. destruct (stores_versions _ Hin) as [_ Hv]. unfold feed_ops. apply Forall_concat, Forall_map.
    eapply Forall_impl; [exact Hv|]. intros [w cs] Hw. cbn [fst] in Hw. apply Forall_map, Forall_true. intros p. unfold feed_pair.
    destruct (kv_Delete p); rewrite version_ts_get by (unfold height_ok; lia); lia.
  - intros name key v Hn. destruct (all_tracks name Hn) as (h & [_ Hs]). rewrite Hs. unfold app_at. rewrite app_of_lookup.
    by case_bool_decide.
Qed.
End stores.

(** ** Building *)

Lemma good_file_app a b : good_file (a ++ b) -> good_file a /\ good_file b.
Proof.
  intros [Hok Hs Hl]. apply Forall_app in Hok as [? ?], Hs as [? ?]. unfold file_bytes in Hl. rewrite map_app, concat_app, zlen_app in Hl.
  pose proof (zlen_nonneg (file_bytes a)). pose proof (zlen_nonneg (file_bytes b)). unfold file_bytes in *. split; split; (done || unfold file_bytes; lia).
Qed.
Lemma good_files vss : good_file (concat vss) -> Forall good_file vss.
Proof.
  induction vss as [|vs vss IH]; [constructor|]. cbn [concat]. intros [Ha Hb]%good_file_app. constructor; [done|by apply IH].
Qed.

(** Distinct versions with distinct keys. *)
Lemma version_pairs_nodup h vs :
  ascending h vs -> 0 <= h -> Forall (fun x => NoDup (map kv_Key (Pairs x.2))) vs -> NoDup (map pair_id (version_pairs vs)).
Proof.
  intros [Hs Hb] Hh Hn. induction Hn as [|[w cs] vs Hk _ IH]; [constructor|]. unfold version_pairs. cbn [map concat fst snd] in *.
  apply StronglySorted_inv in Hs as [Hs Hw]. apply Forall_cons in Hb as [Hw0 Hb]. cbn [fst] in *. rewrite map_app. apply NoDup_app. split_and!.
  - rewrite map_map. unfold pair_id. cbn [fst snd]. apply (NoDup_fmap_1 fst). rewrite <- list_fmap_compose. exact Hk.
  - intros x Hx Hy. apply list_elem_of_fmap in Hx as (y & -> & Hx). apply list_elem_of_fmap in Hx as (p & -> & _).
    apply list_elem_of_fmap in Hy as ([u q] & Eq & Hy). unfold pair_id in Eq. cbn [fst snd] in Eq.
    apply (f_equal snd) in Eq. cbn [snd] in Eq. subst u.
    apply list_elem_of_In, in_concat in Hy as (ps & Hps & Hin). apply in_map_iff in Hps as ([w' cs'] & <- & Hcs).
    apply in_map_iff in Hin as (q' & [= E ->] & _). apply list_elem_of_In in Hcs. rewrite Forall_forall in Hw. rewrite Forall_forall in Hb.
    specialize (Hb _ Hcs). specialize (Hw w' (list_elem_of_fmap_2 fst _ _ Hcs)). cbn [fst] in *. rewrite !u64_small in E by lia. lia.
  - by apply IH.
Qed.

Section build.
  Context `{SortLaws, SnappyLaws, ZlibLaws} {W : Type} `{SstLaws W}.
  Variable vs : bytes -> list (Z * ChangeSet).

(** The change sets of a store that can be converted. *)
Record convertible (name : bytes) : Prop := {
  cv_good : good_file (vs name);
  cv_ascending : ascending 0 (vs name);
  cv_keys : Forall (fun x => NoDup (map kv_Key (Pairs x.2))) (vs name)
}.

Lemma convertStoreDir_ok dir name sstFileSize chunkSize weave sched w :
  fair weave sched -> chunkSize <= 2 ^ 62 -> 0 < sstFileSize -> sst_current w = None ->
  holds name dir (vs name) -> convertible name ->
  exists w' fs, convertStoreDir dir name sstFileSize chunkSize weave sched w = (w', Ok tt) /\
    sst_files w' = sst_files w ++ fs /\ sst_current w' = None /\ loads name (vs name) fs.
Proof.
  intros Hfair Hc Hsz Hw (vss & Es & _ & Ev) [Hg Ha Hk]. unfold convertStoreDir, mbind, SE_bind, lift. rewrite Es. rewrite <- Ev in Hg.
  pose proof (good_files _ Hg) as Hgs.
  replace (map (fun vs => (file_bytes vs, first_version vs)) vss)
    with (map (fun f => (file_bytes f.1, f.2)) (map (fun vs => (vs, first_version vs)) vss)) by (by rewrite map_map).
  apply convert_files_ok; try done.
  - by apply Forall_map.
  - rewrite map_map, <- Ev. cbn [fst]. clear. induction vss as [|v vss IH]; [done|]. cbn [map concat]. by rewrite version_pairs_app, IH.
  - rewrite <- Ev. by apply version_pairs_in.
  - by eapply version_pairs_nodup.
Qed.

Lemma BuildVersionDBSST_ok dir stores sstFileSize chunkSize weave sched w :
  fair weave sched -> chunkSize <= 2 ^ 62 -> 0 < sstFileSize -> sst_current w = None ->
  Forall (fun name => holds name dir (vs name)) stores -> Forall convertible stores ->
  exists w' fss, BuildVersionDBSST dir stores sstFileSize chunkSize weave sched w = (w', Ok tt) /\
    sst_files w' = sst_files w ++ concat fss /\ sst_current w' = None /\ Forall2 (fun name fs => loads name (vs name) fs) stores fss.
Proof.
  intros Hfair Hc Hsz Hw Hh Hcv. revert w Hw. induction Hcv as [|name stores Hn _ IH]; intros w Hw.
  { exists w, []. cbn. rewrite app_nil_r. auto. }
  apply Forall_cons in Hh as [Hh Hhs].
  destruct (convertStoreDir_ok dir name sstFileSize chunkSize weave sched w) as (w1 & fs & E1 & Hf1 & Hc1 & Hl); try done.
  destruct (IH Hhs w1 Hc1) as (w2 & fss & E2 & Hf2 & Hc2 & Hls). exists w2, (fs :: fss).
  split; [apply for_each_cons_ok; by exists w1|]. cbn [concat]. rewrite Hf2, Hf1, <- app_assoc. split; [done|]. split; [done|]. by constructor.
Qed.
End build.

(** ** Ingestion *)

Lemma loads_apart n1 n2 vs1 vs2 fs gs :
  loads n1 vs1 fs -> loads n2 vs2 gs -> slash_free n1 -> slash_free n2 -> n1 <> n2 ->
  forall f g, f ∈ fs -> g ∈ gs -> apart_files f g.
Proof.
  intros Hl1 Hl2 H1 H2 Hne f g Hf Hg. pose proof (ld_prefix _ _ _ Hl1) as Hp1. pose proof (ld_prefix _ _ _ Hl2) as Hp2.
  rewrite Forall_forall in Hp1. rewrite Forall_forall in Hp2. specialize (Hp1 f Hf). specialize (Hp2 g Hg).
  rewrite Forall_forall in Hp1. rewrite Forall_forall in Hp2.
  destruct (storePrefix_order n1 n2 H1 H2 Hne) as [Ho|Ho]; [left|right]; intros x y Hx Hy.
  - destruct (Hp1 x Hx) as [kx ->], (Hp2 y Hy) as [ky ->]. apply Ho.
  - destruct (Hp2 x Hx) as [kx ->], (Hp1 y Hy) as [ky ->]. apply Ho.
Qed.

Lemma StronglySorted_concat_elem {A} (R : A -> A -> Prop) (l : list (list A)) x : StronglySorted R (concat l) -> x ∈ l -> StronglySorted R x.
Proof.
  intros Hs Hin. apply list_elem_of_split in Hin as (l1 & l2 & ->). rewrite concat_app in Hs. cbn [concat] in Hs.
  apply StronglySorted_app in Hs as (_ & _ & Hs). by apply StronglySorted_app in Hs as (_ & Hs & _).
Qed.

Lemma StronglySorted_weaken {A} (R S : A -> A -> Prop) l : (forall x y, R x y -> S x y) -> StronglySorted R l -> StronglySorted S l.
Proof. intros Hrs. induction 1 as [|x l Hs IH Hf]; constructor; [done|]. eapply Forall_impl; [exact Hf|apply Hrs]. Qed.

Section ingest.
  Variable vs : bytes -> list (Z * ChangeSet).

Lemma files_ingestible stores fss :
  Forall2 (fun name fs => loads name (vs name) fs) stores fss -> NoDup stores -> Forall slash_free stores ->
  Forall (fun f => f <> [] /\ StronglySorted entry_lt f) (concat fss) /\ StronglySorted apart_files (concat fss) /\
  forall m, foldl apply_op m (map entry_op (concat (concat fss))) = foldl apply_op m (all_ops vs stores).
Proof.
  induction 1 as [|name fs stores fss Hl Hls IH]; intros Hd Hsl; [by split_and!; constructor|]. cbn [concat].
  apply NoDup_cons in Hd as [Hn Hd]. apply Forall_cons in Hsl as [Hs1 Hsl]. destruct (IH Hd Hsl) as (IH1 & IH2 & IH3). split_and!.
  - apply Forall_app. split; [|done]. pose proof (ld_nonempty _ _ _ Hl) as Hne. rewrite Forall_forall in Hne. apply Forall_forall. intros f Hf.
    split; [by apply Hne|]. eapply StronglySorted_concat_elem; [apply Hl|done].
  - apply StronglySorted_app. split_and!; [|eapply StronglySorted_weaken; [|apply Hl]; by left|done].
    intros f g Hf Hg. apply list_elem_of_In, in_concat in Hg as (gs & Hgs & Hg). apply list_elem_of_In in Hgs, Hg.
    apply list_elem_of_lookup in Hgs as [i Hi]. destruct (Forall2_lookup_r _ _ _ _ _ Hls Hi) as (other & Ho & Hlo).
    apply list_elem_of_lookup_2 in Ho. rewrite Forall_forall in Hsl.
    eapply loads_apart; [exact Hl|exact Hlo|done|by apply Hsl|by intros ->|done|done].
  - intros m. unfold all_ops. cbn [map concat]. rewrite concat_app, map_app, !foldl_app, (ld_same _ _ _ Hl). apply IH3.
Qed.
End ingest.

Section ingested.
  Context {R Iter : Type} `{IngestLaws R Iter}.

(** An error of the ingestion or of a write. *)
Definition rocks_error (files : list (list sst_entry)) (d : R) (e : error) : Prop :=
  (db_Ingest files d).2 = Err e \/ exists batch d1, (db_Write batch d1).2 = Err e.

Lemma IngestVersionDBSST_ok files maxVersion d :
  Forall (fun f => f <> [] /\ StronglySorted entry_lt f) files -> StronglySorted apart_files files ->
  db_default d = ∅ -> 0 <= maxVersion < 2 ^ 63 ->
  exists d' r, IngestVersionDBSST files maxVersion d = (d', r) /\
    ((exists e, r = Err e /\ rocks_error files d e) \/
     (r = Ok tt /\ db_entries d' = foldl apply_op (db_entries d) (map entry_op (concat files)) /\ GetLatestVersion (NewStore d') = Ok maxVersion)).
Proof.
  intros Hf Hs Hd Hm. unfold IngestVersionDBSST.
  assert (Hin : exists d1 r1, (if 0 <? zlen files then db_Ingest files else mret tt) d = (d1, r1) /\
    ((exists e, r1 = Err e /\ rocks_error files d e) \/
     (r1 = Ok tt /\ db_default d1 = ∅ /\ db_entries d1 = foldl apply_op (db_entries d) (map entry_op (concat files))))).
  { destruct files as [|f files]; [exists d, (Ok tt); split; [done|]; by right|].
    rewrite zlen_cons, (proj2 (Z.ltb_lt _ _)) by lens.
    destruct (Ingest_atomic (f :: files) d Hf Hs) as [(d1 & E & Hd1 & He1)|(d1 & e & E & _)].
    - exists d1, (Ok tt). split; [done|]. right. rewrite Hd1. auto.
    - exists d1, (Err e). split; [done|]. left. exists e. split; [done|]. left. by rewrite E. }
  destruct Hin as (d1 & r1 & E1 & Hr1). unfold mbind at 1, SE_bind at 1. rewrite E1.
  destruct Hr1 as [(e & -> & Herr)|(-> & Hd1 & He1)]; [exists d1, (Err e); split; [done|]; left; eauto|].
  assert (El : forall d2, db_default d2 = ∅ -> GetLatestVersion (NewStore d2) = Ok 0).
  { intros d2 E2. unfold GetLatestVersion. cbn [db NewStore]. by rewrite GetBytes_lookup, E2, lookup_empty. }
  destruct (Z.ltb_spec 0 maxVersion) as [Hpos|Hz].
  - unfold on_store, mbind, SE_bind, gets, lift. cbn [id]. rewrite (El d1 Hd1), (proj2 (Z.ltb_lt _ _)) by lia.
    destruct (SetLatestVersion maxVersion (NewStore d1)) as [s r] eqn:Ew. exists (db s), r. split; [done|].
    unfold SetLatestVersion, Write in Ew. cbn [db NewStore skipVersionZero] in Ew.
    destruct (Write_atomic [Put latestVersionKey (version_ts maxVersion)] d1) as [(d2 & E2 & Hd2 & He2)|(d2 & e & E2 & _)]; rewrite E2 in Ew; injection Ew as <- <-.
    + right. split; [done|]. cbn [db]. rewrite He2. split; [done|]. apply GetLatestVersion_at; [|unfold height_ok; lia]. cbn [db NewStore].
      rewrite Hd2. cbn [foldl apply_default]. apply lookup_insert_eq.
    + left. exists e. split; [done|]. right. exists [Put latestVersionKey (version_ts maxVersion)], d1. by rewrite E2.
  - exists d1, (Ok tt). split; [done|]. right. split; [done|]. split; [done|]. assert (maxVersion = 0) as -> by lia. by apply El.
Qed.
End ingested.

(** ** From the dump to the reads *)

Section bulk.
  Context `{SortLaws, SnappyLaws, ZlibLaws} {D : Type} `{IavlLaws D} {W : Type} `{SstLaws W} {R Iter : Type} `{IngestLaws R Iter}.

Lemma change_list_ascending (db : D) store a b h : h < a -> b <= 2 ^ 63 -> ascending h (change_list db store a b).
Proof.
  unfold change_list, ascending. remember (Z.to_nat (b - a)) as n eqn:En. revert a h En. induction n as [|n IH]; intros a h En Hh Hb.
  { rewrite seqZ_nil by lia. cbn. by split; constructor. }
  rewrite seqZ_cons by lia. cbn [omap list_omap]. replace (Z.pred (b - a)) with (b - (a + 1)) by lia.
  destruct (IH (Z.succ a) a) as [Hs Hf]; [lia|lia|done|]. unfold Z.succ in *.
  destruct (changes db (storePrefix store) a) as [cs|]; cbn [fmap option_fmap option_map map fst].
  - split; [constructor; [done|]|constructor; [cbn; lia|]].
    + apply Forall_map. eapply Forall_impl; [exact Hf|]. intros [u c]. cbn [fst]. lia.
    + eapply Forall_impl; [exact Hf|]. intros [u c]. cbn [fst]. lia.
  - split; [done|]. eapply Forall_impl; [exact Hf|]. intros [u c]. cbn [fst]. lia.
Qed.

(** C10: Bulk loading of a version database, from end to end.  The change sets of an IAVL database
    are dumped to files, these are converted to SST files for all stores, and a new version
    database ingests them.  Every step succeeds, unless RocksDB reports an error, and then
    each store has at every version, and without a version, the state that its change sets
    up to the version give: for reads and for iterators; the latest version is the one that
    was given.  For any number of workers, sizes of chunks and files, compression, and
    interleaving of the sorter. *)
Theorem bulk_load_serves (db : D) stores startVersion endVersion end_ concurrency chunkSize zlibLevel iavlVersion o
    sstFileSize sorterChunkSize weave sched (w : W) (d : R) maxVersion :
  let vs name := change_list db name (Z.max 1 startVersion) end_ in
  dump_flags concurrency chunkSize zlibLevel -> 0 <= startVersion < 2 ^ 61 -> end_ < 2 ^ 61 -> dump_end db stores endVersion end_ ->
  NoDup stores -> Forall slash_free stores -> Forall (absent o) stores ->
  Forall (fun name => good_file (vs name) /\ Forall (fun x => NoDup (map kv_Key (Pairs x.2))) (vs name)) stores ->
  fair weave sched -> sorterChunkSize <= 2 ^ 62 -> 0 < sstFileSize -> sst_current w = None -> sst_files w = [] ->
  db_entries d = ∅ -> db_default d = ∅ -> 0 <= maxVersion < 2 ^ 63 ->
  exists o' w' d' r,
    DumpChangeSet db stores startVersion endVersion concurrency chunkSize zlibLevel iavlVersion o = (o', Ok tt) /\
    BuildVersionDBSST (od_stores o') stores sstFileSize sorterChunkSize weave sched w = (w', Ok tt) /\
    IngestVersionDBSST (sst_files w') maxVersion d = (d', r) /\
    ((exists e, r = Err e /\ rocks_error (sst_files w') d e) \/
     (r = Ok tt /\ GetLatestVersion (NewStore d') = Ok maxVersion /\
      forall name version, name ∈ stores -> VersionDBInv.version_ok version ->
        (forall key, kv_Get (NewKVStore (NewStore d') name version) key = Ok (store_at vs name (read_at version) !! key)) /\
        forall fuel start end_ rev, (size (db_entries d') < fuel)%nat -> start <> Some [] -> end_ <> Some [] ->
          exists itr kvs, iteratorAtVersion fuel (NewStore d') name start end_ version rev = Ok itr /\
            VersionDBIter.collect fuel itr = Ok (if rev : bool then reverse kvs else kvs) /\ kv_sorted kvs /\
            forall k v, (k, v) ∈ kvs <-> store_at vs name (read_at version) !! k = Some v /\ in_domain start end_ k = true)).
Proof.
  intros vs Hfl Hs He Hend Hnd Hsl Hab Hg Hfair Hc Hsz Hwc Hwf Hde Hdd Hm.
  assert (Hasc : forall name, ascending 0 (vs name)) by (intros name; apply change_list_ascending; lia).
  destruct (DumpChangeSet_ok db stores startVersion endVersion end_ concurrency chunkSize zlibLevel iavlVersion o) as (o' & E1 & _ & Hh); try done.
  { eapply Forall_impl; [exact Hg|]. intros name [Hgf _]. apply Hgf. }
  destruct (BuildVersionDBSST_ok vs (od_stores o') stores sstFileSize sorterChunkSize weave sched w) as (w' & fss & E2 & Hf2 & _ & Hls); try done.
  { eapply Forall_impl; [exact Hg|]. intros name [Hgf Hk]. by split. }
  rewrite Hwf in Hf2. cbn [app] in Hf2. destruct (files_ingestible vs stores fss Hls Hnd Hsl) as (Hi1 & Hi2 & Hi3).
  destruct (IngestVersionDBSST_ok (sst_files w') maxVersion d) as (d' & r & E3 & Hr); [by rewrite Hf2..|done|done|].
  exists o', w', d', r. split; [done|]. split; [done|]. split; [done|]. destruct Hr as [Herr|(-> & Hent & Hl)]; [by left|right].
  split; [done|]. split; [done|]. intros name version Hin Hv.
  assert (Ht : tracks (db_entries (VersionDB.db (NewStore d'))) (app_at vs stores) 0 (2 ^ 63 - 1)).
  { cbn [VersionDB.db NewStore]. rewrite Hent, Hde, Hf2, Hi3. apply fed_tracks; [done|done|]. by apply Forall_true. }
  assert (Happ : forall v k, app_at vs stores v !! (name, k) = store_at vs name v !! k)
    by (intros v k; unfold app_at; by rewrite app_of_lookup, bool_decide_true).
  rewrite Forall_forall in Hsl. split.
  - intros key. unfold kv_Get. cbn [kv_store kv_name kv_version NewKVStore].
    rewrite (GetAtVersion_tracks _ (app_at vs stores) 0 (2 ^ 63 - 1)), Happ; try done; by apply Hsl.
  - intros fuel start end1 rev Hf Hst Hen.
    destruct (iteratorAtVersion_collects fuel (NewStore d') (app_at vs stores) 0 (2 ^ 63 - 1) name start end1 version rev)
      as (itr & kvs & Ei & Ec & Hsrt & Hk); try done; [by apply Hsl|].
    exists itr, kvs. split; [done|]. split; [done|]. split; [done|]. intros k v. by rewrite <- Happ.
Qed.
End bulk.

(** ** Feeding *)

Section feeding.
  Context `{SnappyOps, ZlibOps} {R Iter : Type} `{RocksLaws R Iter}.
  Abbreviation Store := (@VersionDB.Store R).
  Abbreviation entries s := (db_entries (VersionDB.db s)).
  Implicit Types (s : Store).

(** What feeding leaves: all operations, or those before an error of a write. *)
Definition fed (ops : list batch_op) s s' (r : res unit) : Prop :=
  db_default (VersionDB.db s') = db_default (VersionDB.db s) /\ skipVersionZero s' = skipVersionZero s /\
  ((r = Ok tt /\ entries s' = foldl apply_op (entries s) ops) \/ exists e batch d, r = Err e /\ (db_Write batch d).2 = Err e).

Lemma default_feed m prefix ts ps : foldl apply_default m (map (feed_pair prefix ts) ps) = m.
Proof.
  induction ps as [|p ps IH]; [done|]. cbn [map foldl]. replace (apply_default m (feed_pair prefix ts p)) with m; [done|].
  unfold feed_pair. by destruct (kv_Delete p).
Qed.

Lemma feed_read_back store v ps :
  map (feed_pair (storePrefix store) (version_ts v)) (map read_back ps) = map (feed_pair (storePrefix store) (version_ts v)) ps.
Proof. rewrite map_map. apply map_ext. intros p. unfold feed_pair, read_back, value_of. cbn. by destruct (kv_Delete p). Qed.

(** Errors of the database are not the end of a file. *)
Hypothesis write_errors : forall batch (d : R) e, (db_Write batch d).2 = Err e -> e <> EOF.

Lemma visit_feed store vs last s :
  exists s' size err, visit_versions (feed_version store) None (map (fun '(v, cs) => read_version true v cs) vs) last s = Ok (s', size, err) /\
    fed (feed_ops store vs) s s' (match err with None => Ok tt | Some e => Err e end).
Proof.
  revert last s. induction vs as [|[v cs] vs IH]; intros last s; cbn [map visit_versions].
  { exists s, last, None. split; [done|]. by split_and!; auto. }
  unfold read_version at 1. cbn [visit_versions]. unfold feed_version at 1, FeedChangeSet, Write, mbind, SE_bind. cbn [Pairs].
  change (?f <$> ?l) with (map f l). rewrite feed_read_back. set (batch := map _ (Pairs cs)).
  destruct (Write_atomic batch (VersionDB.db s)) as [(d & E & Hd & He)|(d & e & E & Hd & He)]; rewrite E.
  - cbn [mret SE_ret]. destruct (IH (last + zlen (version_bytes v cs)) {| VersionDB.db := d; skipVersionZero := skipVersionZero s |})
      as (s' & size & err & -> & Hd' & Hz & Hr). exists s', size, err. split; [done|]. cbn [VersionDB.db skipVersionZero] in *.
    split; [rewrite Hd', Hd; apply default_feed|]. split; [done|].
    destruct Hr as [[Hr Hent]|Hr]; [left|by right]. split; [done|]. rewrite Hent, He. unfold feed_ops at 2. cbn [map concat]. by rewrite foldl_app.
  - eexists _, _, _. split; [done|]. assert (Hne : e <> EOF) by (apply (write_errors batch (VersionDB.db s)); by rewrite E).
    unfold eof_nil. rewrite bool_decide_false by done. split; [done|]. split; [done|]. right. exists e, batch, (VersionDB.db s). by rewrite E.
Qed.

Lemma ChangeSetToVersionDB_ok store files vss s :
  Forall2 intact files vss -> Forall good_file vss ->
  exists s' r, ChangeSetToVersionDB store files s = (s', r) /\ fed (feed_ops store (concat vss)) s s' r.
Proof.
  intros Hf. revert s. induction Hf as [|[name data] vs files vss Hi _ IH]; intros s Hg; cbn [ChangeSetToVersionDB].
  { exists s, (Ok tt). split; [done|]. by split_and!; auto. }
  apply Forall_cons in Hg as [[Hok Hsm Hl] Hg]. unfold intact in Hi. cbn [fst snd] in Hi. rewrite Hi. unfold IterateChangeSets.
  destruct (iterate_loop_visit (feed_version store) true vs [] (S (length (file_bytes vs))) 0 s Hok cut_off_nil)
    as (end_ & E & Hend); [rewrite app_nil_r; lia|lia|lia|].
  rewrite app_nil_r in E. rewrite E, (Hend eq_refl). destruct (visit_feed store vs 0 s) as (s1 & size & err & -> & Hd & Hz & Hr).
  destruct err as [e|].
  - exists s1, (Err e). split; [done|]. split; [done|]. split; [done|]. destruct Hr as [[? _]|Hr]; [done|by right].
  - destruct Hr as [[_ Hent]|(e & ? & ? & ? & _)]; [|done]. destruct (IH s1 Hg) as (s' & r & -> & Hd' & Hz' & Hr').
    exists s', r. split; [done|]. split; [congruence|]. split; [congruence|]. destruct Hr' as [[-> Hent']|Hr']; [left|by right]. split; [done|].
    cbn [concat]. unfold feed_ops. rewrite map_app, concat_app, foldl_app. unfold feed_ops in *. by rewrite Hent', Hent.
Qed.

(** Feeding change set files: files whose versions follow those that the database has for the
    store add exactly their changes, at every version; the other stores and the latest version
    stay as they are.  Otherwise a write failed. *)
Theorem to_versiondb_serves store files vss s g h :
  store_tracks (entries s) store g h -> 0 <= h -> skipVersionZero s = false -> slash_free store ->
  Forall2 intact files vss -> Forall good_file vss -> ascending h (concat vss) ->
  exists s' r, ChangeSetToVersionDB store files s = (s', r) /\ VersionDB.GetLatestVersion s' = VersionDB.GetLatestVersion s /\
    ((exists e batch d, r = Err e /\ (db_Write batch d).2 = Err e) \/
     (r = Ok tt /\
      (forall key version, VersionDBInv.version_ok version ->
        kv_Get (NewKVStore s' store version) key = Ok (foldl map_apply (g (read_at version)) (changes_upto (read_at version) (concat vss)) !! key)) /\
      forall other key version, slash_free other -> other <> store -> VersionDBInv.version_ok version ->
        kv_Get (NewKVStore s' other version) key = kv_Get (NewKVStore s other version) key)).
Proof.
  intros Ht Hh Hz Hn Hf Hg Ha. destruct (ChangeSetToVersionDB_ok store files vss s Hf Hg) as (s' & r & E & Hd & Hz' & Hr).
  exists s', r. split; [done|]. split; [unfold VersionDB.GetLatestVersion; by rewrite !GetBytes_lookup, Hd|].
  destruct Hr as [[-> Hent]|Hr]; [right|by left]. split; [done|].
  assert (Hget : forall (s : Store) name key version, skipVersionZero s = false -> VersionDBInv.version_ok version ->
    kv_Get (NewKVStore s name version) key = Ok (fst <$> visible (entries s) (prependStoreKey name key) (read_at version))).
  { intros s0 name key version Hz0 Hv. unfold kv_Get. cbn [kv_store kv_name kv_version NewKVStore]. by rewrite GetAtVersion_visible. }
  split.
  - intros key version Hv. rewrite Hget by (done || congruence). rewrite Hent.
    destruct (feed_tracks _ _ _ _ _ Ht Ha Hh) as (h' & [_ Hs] & _). by rewrite Hs.
  - intros other key version Ho Hne Hv. rewrite !Hget by (done || congruence). rewrite Hent. unfold visible.
    f_equal. f_equal. rewrite (newest_ext (entries s)); [done|]. intros ts. apply ops_other; [done|done|done|].
    destruct Ha as [_ Hb]. eapply Forall_impl; [exact Hb|]. intros [u c]. cbn [fst]. unfold height_ok. lia.
Qed.
End feeding.

(** ** Printing *)

Section printing.
  Context `{SnappyOps, ZlibOps}.
  Variables (startVersion endVersion : Z).

Definition in_range (v : Z) : bool := (startVersion <=? v) && ((endVersion <=? 0) || (v <? endVersion)).
Fixpoint printed (parse : bool) (vs : list (Z * ChangeSet)) : list line :=
  match vs with
  | [] => []
  | (v, cs) :: vs =>
      (if in_range v then PrintVersion v :: map PrintPair (if parse then map read_back (Pairs cs) else []) else []) ++ printed parse vs
  end.

Lemma printed_after parse vs h : ascending h vs -> 0 < endVersion -> endVersion <= h + 1 -> printed parse vs = [].
Proof.
  intros [_ Hb] Hp He. induction vs as [|[v cs] vs IH]; [done|]. apply Forall_cons in Hb as [Hv Hb]. cbn [printed fst] in *.
  unfold in_range. rewrite (proj2 (Z.leb_gt endVersion 0)), (proj2 (Z.ltb_ge v endVersion)), andb_false_r by lia. by apply IH.
Qed.

Lemma visit_print parse vs h last out :
  ascending h vs -> exists size,
  visit_versions (fun (v : Z) (cs : ChangeSet) => print_version startVersion endVersion v (if parse : bool then cs else {| Pairs := [] |})) None
    (map (fun '(v, cs) => read_version parse v cs) vs) last out = Ok (out ++ printed parse vs, size, None).
Proof.
  revert h last out. induction vs as [|[v cs] vs IH]; intros h last out Ha; cbn [map visit_versions printed]; [exists last; by rewrite app_nil_r|].
  destruct Ha as [Hs Hb]. apply StronglySorted_inv in Hs as [Hs Hv]. apply Forall_cons in Hb as [Hv0 Hb]. cbn [fst] in *.
  assert (Ha' : ascending v vs).
  { split; [done|]. rewrite Forall_forall in Hv. rewrite Forall_forall in Hb. apply Forall_forall. intros x Hx.
    specialize (Hv x.1 (list_elem_of_fmap_2 fst _ _ Hx)). specialize (Hb x Hx). lia. }
  unfold read_version at 1. cbn [visit_versions]. unfold print_version, in_range.
  destruct (Z.ltb_spec v startVersion) as [Hlt|Hge]; [rewrite (proj2 (Z.leb_gt _ _)) by lia; cbn [andb app]; by apply (IH v)|].
  rewrite (proj2 (Z.leb_le startVersion v)) by lia. cbn [andb].
  destruct ((0 <? endVersion) && (endVersion <=? v)) eqn:E.
  - apply andb_true_iff in E as [E1%Z.ltb_lt E2%Z.leb_le]. rewrite (proj2 (Z.leb_gt endVersion 0)), (proj2 (Z.ltb_ge v endVersion)) by lia.
    cbn [orb app mret SE_ret]. eexists. rewrite (printed_after parse vs v Ha'), app_nil_r by lia. done.
  - assert (Er : (endVersion <=? 0) || (v <? endVersion) = true).
    { apply andb_false_iff in E as [E%Z.ltb_ge|E%Z.leb_gt]; [by rewrite (proj2 (Z.leb_le _ _))|by rewrite (proj2 (Z.ltb_lt v _)), orb_true_r]. }
    rewrite Er. unfold modify, mbind, SE_bind. cbn [mret SE_ret Pairs]. destruct (IH v (last + zlen (version_bytes v cs))
      (out ++ PrintVersion v :: map PrintPair (if parse then map read_back (Pairs cs) else [])) Ha') as [size E'].
    exists size. rewrite <- app_assoc in E'. destruct parse; exact E'.
Qed.

(** The versions of a file from the start version on and before the end version, zero for
    none, are printed in order, with their pairs unless these are not parsed. *)
Theorem print_lists noParse name data vs h :
  intact (name, data) vs -> good_file vs -> ascending h vs ->
  PrintChangeSet startVersion endVersion noParse name data = Ok (printed (negb noParse) vs, None).
Proof.
  intros Hi [Hok _ Hl] Ha. unfold PrintChangeSet. unfold intact in Hi. cbn [fst snd] in Hi. rewrite Hi. cbn [mbind res_bind].
  unfold IterateChangeSets, IterateVersions.
  set (fn := fun (v : Z) (cs : ChangeSet) => print_version startVersion endVersion v (if negb noParse then cs else {| Pairs := [] |})).
  destruct (iterate_loop_visit fn (negb noParse) vs [] (S (length (file_bytes vs))) 0 [] Hok cut_off_nil) as (end_ & E & Hend);
    [rewrite app_nil_r; lia|lia|lia|].
  rewrite app_nil_r, (Hend eq_refl) in E. destruct (visit_print (negb noParse) vs h 0 [] Ha) as [size Ev]. fold fn in Ev. rewrite Ev in E.
  destruct noParse; cbn [negb] in *; subst fn; cbv beta iota in E; [by rewrite E|].
  change (fun v cs => print_version startVersion endVersion v cs) with (print_version startVersion endVersion) in E. by rewrite E.
Qed.
End printing.

(** ** Witnesses *)

#[export] Instance mem_ingest : IngestOps memDB := {|
  db_Ingest files d := ({| mem_default := mem_default d; mem_entries := foldl apply_op (mem_entries d) (map entry_op (concat files)) |}, Ok tt)
|}.
#[export] Instance mem_ingest_laws : IngestLaws memDB memIter.
Proof. split. intros files d _ _. left. by eexists. Defined.

Definition dump_versions : list (Z * ChangeSet) := combine [1; 2; 3; 4] dump_db.
Lemma dump_list name : change_list dump_db name (Z.max 1 0) 5 = dump_versions.
Proof. reflexivity. Qed.
Lemma dump_versions_ok : good_file dump_versions /\ Forall (fun x => NoDup (map kv_Key (Pairs x.2))) dump_versions.
Proof.
  split; [split|].
  - repeat constructor; cbn [kv_Key kv_Value value_of default]; by vm_compute.
  - repeat constructor; by vm_compute.
  - by vm_compute.
  - apply (bool_decide_unpack _). vm_compute. reflexivity.
Qed.

(** A version in the middle, after a deletion. *)
Lemma bulk_load_serves_witness :
  exists o' w' d',
    DumpChangeSet dump_db [str "bank"; str "gov"] 0 0 2 3 6 1 empty_out = (o', Ok tt) /\
    BuildVersionDBSST (od_stores o') [str "bank"; str "gov"] 64 30 (map EFeed) [] sample_sst = (w', Ok tt) /\
    IngestVersionDBSST (ms_files w') 4 mem_empty = (d', Ok tt) /\
    kv_Get (NewKVStore (NewStore d') (str "gov") (Some 2)) (str "a") = Ok (Some (str "1")).
Proof.
  destruct (bulk_load_serves dump_db [str "bank"; str "gov"] 0 0 5 2 3 6 1 empty_out 64 30 (map EFeed) [] sample_sst mem_empty 4)
    as (o' & w' & d' & r & E1 & E2 & E3 & Hr).
  - split; lia.
  - lia.
  - lia.
  - exists (str "bank"). split; reflexivity.
  - apply NoDup_cons; split; [rewrite list_elem_of_singleton; discriminate|apply NoDup_singleton].
  - repeat constructor; unfold slash_free; apply (bool_decide_unpack _); vm_compute; reflexivity.
  - repeat constructor; intros; apply lookup_empty.
  - apply Forall_true. intros name. rewrite dump_list. exact dump_versions_ok.
  - exact feed_fair.
  - lia.
  - lia.
  - reflexivity.
  - reflexivity.
  - reflexivity.
  - reflexivity.
  - lia.
  - exists o', w', d'. split; [exact E1|]. split; [exact E2|].
    destruct Hr as [(e & _ & [He|(batch & d1 & He)])|(-> & _ & Hr)]; [discriminate He|discriminate He|]. split; [exact E3|].
    destruct (Hr (str "gov") (Some 2)) as [Hg _]; [right; left|cbn; unfold height_ok; lia|]. rewrite Hg. vm_compute. reflexivity.
Defined.
